(* ===== verification/_CoqProject ===== *)
-Q . S2P
Prelude.v
Text.v
Json.v
Scrollback.v
Conflate.v
ConflateItems.v
EventGate.v
EventForwarder.v
FenceReceipts.v
ChatForwarder.v
TunnelFrame.v
TunnelRelay.v
TunnelConn.v
Diff.v
NoteMerge.v
LineAttribution.v
DeleteGrace.v
GitStatus.v
DeliveryTasks.v
RateLimit.v
Placement.v
MachineSelection.v
AgentLocks.v
TrackedChanges.v
Attribution.v
LockedChanges.v
ChangeSweep.v
Presence.v
PresenceProfiles.v
Supervisor.v
Admission.v
NotePaging.v
CommentWalk.v
FieldPaging.v
Pagination.v
TextPages.v
