(* ===== verification/Prelude.v ===== *)
(** * intentd

    A verification of the stateful and algorithmic cores of intentd, the daemon that
    serves workspaces, agents, notes and terminals to its clients over local sockets
    and WebSockets.  The daemon is a Cargo workspace ([src/crates]); most of it moves
    data between SQLite, git, child processes and sockets.  What is modelled here are
    the parts whose correctness is a matter of logic: buffers, protocols, registries,
    merges and pages.  Every definition follows one function, type or loop of the
    source and keeps its name where possible.

    ** Conventions

    Sizes, offsets, counters and instants are [Z]; machine-width behaviour is written
    out with [checked_add], [saturating_add], [wrapping_add] and the maxima of this
    file.  Lists of bytes and texts (lists of Unicode scalar values) are [list Z]; ids
    and JSON strings are [string].  A panic of the source (failed [expect], slice out
    of range, overflow) is [None] of an outer [option], or an explicit outcome; errors
    the source returns are [Err] of [Result].  Concurrency is interleaving: the steps
    of a machine are the lock regions, channel operations and select arms of the code,
    in any order; results of sockets, clocks, the store and spawned tasks are part of
    the event that resumes a step.  History variables record what a machine did, and
    are never read by its steps.  Async code with one task is a computation over the
    sequence of things its environment does while it awaits ([EventGate]).  Third-party
    code is a class with the laws it documents ([Base64], [Similar], [CursorJson]), each
    with an instance used by the witnesses.

    ** Files

    - [Prelude] (this file): results, machine integers, [len], [ztake], [zdrop],
      [slice], [znth], counting, the stable sort [sort_by] and [dedup] of the standard
      library's vectors, and the tactics [case_tests], [solve_test] and [split_match].
    - [Text]: UTF-8 lengths, character boundaries, lines, trimming, JSON-escaped sizes.
    - [Json]: [serde_json] values with ordered objects, decimal numbers, the serialized
      text and its size; the size every page budget uses is the length of that text.
    - [Scrollback]: the ring of [intent-pty/src/scrollback.rs] with its newline index
      and ink counter.  It refines the output stream: any interleaving of [push],
      [clear] and reads keeps exactly the last [max_bytes] since the last clear; the
      line window and the positioned snapshot return exactly the bytes they promise;
      [push] panics only when the 64-bit offset overflows.
    - [Conflate], [ConflateItems], [ChatForwarder]: the conflation buffer of
      [intent-transport/src/conflate.rs] between an event source and a slow client, its
      event and chat items, and the chat forwarder of [conn.rs].  [Conflate] proves the
      generic buffer against the interface [Conflate]/[ConflateSpec]; the items
      discharge it.  The theorems show that the client sees a stream equivalent to the
      source stream, merged chunks carry the right positions, and the buffers keep
      their bounds; one shows the byte bound a chunk that cannot be decoded escapes.
    - [EventGate], [EventForwarder]: one [events.subscribe] stream, the membership gate of
      [events.rs] and the forwarder of [conn/recovery.rs] on top of [Conflate].  For every
      sequence of wakes, membership deliveries, races and closings, an event is enqueued
      only with an authorization no observed membership change outdates, and loss markers
      and fences are never overtaken.
    - [FenceReceipts]: the rest of [conn/recovery.rs], the [events.fence] coordinator, the
      writer's receipts and the writer loop as one machine.  When the text of a fence's
      reply reaches the socket, the connection is open and every lease it speaks for is
      alive.
    - [TunnelFrame], [TunnelRelay], [TunnelConn]: the loopback tunnel of
      [intent-transport/src/tunnel.rs]: frame codec, one stream's relay, and the
      connection loop with all its relays.  The codec is a bijection on well-formed
      frames and total; in every reachable state of a connection each stream
      incarnation has a well-formed conversation, flow control and both buffers keep
      their bounds, the stream caps hold, no wake-up is lost and the loop never panics.
    - [Diff]: the diffs of the [similar] crate, shared by the next two.
    - [NoteMerge]: [intent-services/src/note_merge.rs].  The merge loses neither
      writer's text, renders every span by the documented rule and reports exactly the
      conflicting byte ranges; edits that do not touch merge cleanly; the checkbox
      repair rewrites exactly the damaged lines inside a conflict.
    - [LineAttribution]: [intent-services/src/line_attribution.rs] and the payload made of
      it in [lib.rs].  Every line gets the newest version that introduces it by the diffs.
    - [GitStatus]: [intent-services/src/git_status_cache.rs] and
      [git_status_singleflight.rs], readers, forced readers, invalidations and evictions
      of the working-tree status cache.  A read never returns a status older than the
      last invalidation before it, one scan runs per tree, and a forced read after an
      eviction can go round forever.
    - [DeliveryTasks]: [intent-services/src/delivery_tasks.rs], the registry of delivery
      tasks.  A drain returns only when every task has finished, also those spawned
      meanwhile; shutdown aborts and joins in order.
    - [DeleteGrace]: [intent-services/src/delete_grace.rs], callers and timer tasks of
      the registry of pending deletions as one concurrent machine, and in [Legacy] the
      standalone registry.  A deletion is claimed at most once, a cancelled one never
      runs, none runs before its deadline, and nobody waits for a dead preparation.
    - [RateLimit]: [intent-services/src/rate_limit.rs], the pause gate of the forge
      sweeps as the union of the requested pauses, its arithmetic, and the metered
      quota probe.
    - [Placement], [MachineSelection]: [placement.rs] and [machine_selection.rs] of
      [intent-core], where an agent runs.  A placement that is read back is the one that
      was written, and reading accepts exactly the valid ones; the machine chosen is the
      one the documented preference names, and a refusal names its reason.
    - [AgentLocks]: [intent-services/src/agent_locks.rs].  The snapshot of locked agents
      and files is what the rule says, and the loop publishes it when and only when it
      changed.
    - [TrackedChanges]: the statements of [intent-store/src/tracked_changes_repo.rs] on the
      table of who changed which file, and its writer [intent-services/src/file_tracking.rs].
      The table stays well-formed, and lines are counted once whichever agent records them.
    - [Attribution]: [intent-git/src/attribution.rs], the repository that owns a path in a
      worktree with submodules, whether git sees a change there, and what stays lockable.
      The two caches never change a verdict, and no dirty path is dropped.
    - [LockedChanges]: [AgentLocks] with [Attribution] as git's answer.  A change an agent is
      at work on is in the snapshot.
    - [ChangeSweep]: [intent-services/src/tracked_changes_sweep.rs] next to the table's other
      writers.  A deletion has two verdicts in passes in a row, an interval apart, on the
      row as it was deleted; a pass alone prunes exactly the stale rows; and a recording
      whose lookup and write straddle a deletion is lost.
    - [Presence]: [intent-services/src/presence.rs], connections, focus, typing, the
      leases of note viewers and the caret throttle with its timers.  Rosters never change
      without being sent, viewers are the holders of leases and their arrivals and
      departures alternate, carets keep the interval and the newest one gets out.
    - [PresenceProfiles]: the profile cache of the same file, on top of that table, and the
      focus snapshot.  A cached profile is never left behind by its row, whatever reads are
      in flight; a focus is answered only if it did not move while it was authorized.
    - [Supervisor]: [intentd-sitter/src/supervisor.rs], the process that starts, updates
      and restarts the daemon, a phase per await.  On every history the backoff and the
      give-up follow the crash policy, one daemon runs at a time and none is spawned after
      a shutdown, and the stable channel is checked automatically once a day.
    - [Admission]: modules [AcceptBackoff] ([intent-transport/src/accept_backoff.rs],
      the delay schedule and the log rate) and [RpcLimiter]
      ([intent-transport/src/rpc_limit.rs], the cap, the shutdown fence and its waiters).
    - [NotePaging]: [intent-core/src/note_read_bounds.rs], modules [LinePage] (a note
      read page by page is rebuilt byte for byte, each page within its budget) and
      [ListPage] (keyset pages serve every item exactly once).
    - [CommentWalk]: the comment pages of the same file.  A walk over threads that keep
      changing ends once they stop, and misses no thread.
    - [FieldPaging]: [text_field_page.rs] and [message_block_page.rs] of [intent-core].
      Following the pages rebuilds the field or the block, values stay well-formed JSON.
    - [Pagination]: the windows, seeks, tokens and budgets of
      [intent-services/src/pagination.rs] and the conversation reads of [agent_ops.rs].
      A walk serves every row once, and a page is as large as the budget allows.
    - [TextPages]: the text pages of [pagination.rs] and the chunked reader of
      [intent-svc-runtime/src/script_output_store.rs], which returns what paging the
      decoded file would.

    ** Fuel and bounds

    Loops that are not structural take fuel that is proved to be enough: the number of
    hunks for the merge, one page more than there are characters, items or threads for
    the page walks, one round more than there are inputs for the forwarder's loops, one
    chunk per key for chunked deletions; the descent through submodules is bounded by the
    source itself.  Tick
    and queue bounds of the tunnel and the buffers are the constants of the source or
    parameters ranging over all values.

    ** Not modelled

    Sockets, TLS, process spawning, SQL, git, HTTP clients, logging texts and [Display]
    implementations; usage rates, which are floating-point statistics; the composition
    root and the settings tables; the sitter's updater, pidfile, environment overrides and
    Windows arms.  Of the remaining logic these come next: caller visibility of
    [intent-core]; the debouncers of [lib.rs]; the row bounds and keyset tokens of
    [pagination.rs]. *)
From stdpp Require Import prelude sorting.

Declare Scope intentd_scope.
Delimit Scope intentd_scope with intentd.
#[global] Open Scope Z_scope.

(** ** Fallible code *)

(** The language's [Result<A, E>]. *)
Inductive Result (A E : Type) : Type :=
| Ok (a : A)
| Err (e : E).
Arguments Ok {A E} a.
Arguments Err {A E} e.

(** ** Machine integers

    Unsigned machine integers are [Z] values inside their width's range.  The
    operations below are the ones the source calls by name. *)
Definition u8_max : Z := 2 ^ 8 - 1.
Definition u16_max : Z := 2 ^ 16 - 1.
Definition u32_max : Z := 2 ^ 32 - 1.
Definition u64_max : Z := 2 ^ 64 - 1.

Definition fits (max z : Z) : bool := (0 <=? z) && (z <=? max).

(** [a.checked_add(b)], [a.checked_sub(b)] at the width of [max]. *)
Definition checked_add (max a b : Z) : option Z :=
  if a + b <=? max then Some (a + b) else None.

Definition checked_sub (a b : Z) : option Z :=
  if b <=? a then Some (a - b) else None.

Definition saturating_add (max a b : Z) : Z := Z.min max (a + b).

Definition saturating_sub (a b : Z) : Z := Z.max 0 (a - b).

(** An atomic [fetch_add] wraps around at the width. *)
Definition wrapping_add (max a b : Z) : Z := (a + b) mod (max + 1).

(** ** Slices

    [len l] is [l.len()] as an unsigned integer; [slice l a b] is [&l[a..b]],
    [None] where the language panics. *)
Definition len {A} (l : list A) : Z := Z.of_nat (length l).

Definition ztake {A} (n : Z) (l : list A) : list A := take (Z.to_nat n) l.

Definition zdrop {A} (n : Z) (l : list A) : list A := drop (Z.to_nat n) l.

Definition slice {A} (l : list A) (a b : Z) : option (list A) :=
  if (0 <=? a) && (a <=? b) && (b <=? len l)
  then Some (ztake (b - a) (zdrop a l)) else None.

Definition znth {A} (l : list A) (i : Z) : option A :=
  if 0 <=? i then l !! Z.to_nat i else None.

(** The trailing [n] elements. *)
Definition lastn {A} (n : Z) (l : list A) : list A := zdrop (len l - n) l.

Definition count {A} (p : A -> bool) (l : list A) : Z :=
  len (List.filter p l).


(** [l.iter().map(f).sum()]. *)
Definition sum_with {A} (f : A -> Z) : list A -> Z :=
  fix go l := match l with [] => 0 | x :: l' => f x + go l' end.

(** [l.partition_point(p)] on a slice partitioned by [p]: the length of the
    prefix on which [p] holds. *)
Fixpoint partition_point {A} (p : A -> bool) (l : list A) : nat :=
  match l with
  | x :: l' => if p x then S (partition_point p l') else 0%nat
  | [] => 0%nat
  end.

(** [l.sort_by(..)]: the language's slice sort is stable. *)
Fixpoint insert_by {A} (leb : A -> A -> bool) (x : A) (l : list A) : list A :=
  match l with
  | [] => [x]
  | y :: l' => if leb x y then x :: l else y :: insert_by leb x l'
  end.

Definition sort_by {A} (leb : A -> A -> bool) : list A -> list A :=
  foldr (insert_by leb) [].

(** [l.dedup()]: the first of each run of equal neighbours. *)
Fixpoint dedup {A} `{EqDecision A} (l : list A) : list A :=
  match l with
  | x :: (y :: _) as l' => if decide (x = y) then dedup l' else x :: dedup l'
  | _ => l
  end.

(** ** Generic lemmas *)

Create HintDb intentd.
Create Rewrite HintDb len.

Ltac unfold_ints :=
  unfold saturating_add, saturating_sub, checked_add, checked_sub in *.

(** Split every boolean test of the goal and the hypotheses into its
    arithmetic reading. *)
Ltac case_tests :=
  repeat match goal with
  | H : (_ && _)%bool = true |- _ => apply andb_true_iff in H as [? ?]
  | H : (_ || _)%bool = false |- _ => apply orb_false_iff in H as [? ?]
  | H : (_ <=? _) = true |- _ => apply Z.leb_le in H
  | H : (_ <=? _) = false |- _ => apply Z.leb_gt in H
  | H : (_ <? _) = true |- _ => apply Z.ltb_lt in H
  | H : (_ <? _) = false |- _ => apply Z.ltb_ge in H
  | H : (_ =? _) = true |- _ => apply Z.eqb_eq in H
  | H : (_ =? _) = false |- _ => apply Z.eqb_neq in H
  | H : negb _ = true |- _ => apply negb_true_iff in H
  | H : negb _ = false |- _ => apply negb_false_iff in H
  end.

(** Evaluate the arithmetic tests of the goal that the context decides. *)
Ltac solve_test :=
  match goal with
  | |- context [?a <=? ?b] =>
      first [rewrite (proj2 (Z.leb_le a b)) by lia
            |rewrite (proj2 (Z.leb_gt a b)) by lia]
  | |- context [?a <? ?b] =>
      first [rewrite (proj2 (Z.ltb_lt a b)) by lia
            |rewrite (proj2 (Z.ltb_ge a b)) by lia]
  | |- context [?a =? ?b] =>
      first [rewrite (proj2 (Z.eqb_eq a b)) by lia
            |rewrite (proj2 (Z.eqb_neq a b)) by lia]
  end.

Ltac solve_tests := repeat solve_test; simpl.

(** Split the innermost scrutinee of the goal. *)
Ltac split_match :=
  match goal with
  | |- context [match ?x with _ => _ end] =>
      lazymatch x with
      | context [match _ with _ => _ end] => fail
      | _ => destruct x eqn:?
      end
  end.

Section lengths.
Context {A : Type}.
Implicit Types (l k : list A) (n m : Z).

Lemma len_nonneg l : 0 <= len l.
Proof. unfold len. lia. Qed.

Lemma len_nil : len (@nil A) = 0.
Proof. done. Qed.

Lemma len_cons x l : len (x :: l) = 1 + len l.
Proof. unfold len. simpl. lia. Qed.

Lemma len_app l k : len (l ++ k) = len l + len k.
Proof. unfold len. rewrite length_app. lia. Qed.

Lemma len_zero_nil l : len l <= 0 -> l = [].
Proof. destruct l; [done|]. rewrite len_cons. pose proof (len_nonneg l). lia. Qed.

Lemma len_ztake n l : len (ztake n l) = Z.max 0 (Z.min n (len l)).
Proof. unfold len, ztake. rewrite length_take. lia. Qed.

Lemma len_zdrop n l : len (zdrop n l) = Z.min (len l) (Z.max 0 (len l - n)).
Proof. unfold len, zdrop. rewrite length_drop. lia. Qed.

Lemma ztake_zdrop n l : ztake n l ++ zdrop n l = l.
Proof. apply take_drop. Qed.

Lemma zdrop_le0 n l : n <= 0 -> zdrop n l = l.
Proof. intros. unfold zdrop. by replace (Z.to_nat n) with 0%nat by lia. Qed.

Lemma zdrop_all n l : len l <= n -> zdrop n l = [].
Proof. intros. unfold zdrop, len in *. apply drop_ge. lia. Qed.

Lemma ztake_all n l : len l <= n -> ztake n l = l.
Proof. intros. unfold ztake, len in *. apply take_ge. lia. Qed.

Lemma ztake_le0 n l : n <= 0 -> ztake n l = [].
Proof. intros. unfold ztake. by replace (Z.to_nat n) with 0%nat by lia. Qed.

Lemma zdrop_app n l k :
  zdrop n (l ++ k) = zdrop n l ++ zdrop (n - len l) k.
Proof. unfold zdrop, len. rewrite drop_app. do 2 f_equal. lia. Qed.

Lemma ztake_app n l k :
  ztake n (l ++ k) = ztake n l ++ ztake (n - len l) k.
Proof. unfold ztake, len. rewrite take_app. do 2 f_equal. lia. Qed.

Lemma zdrop_zdrop n m l : 0 <= n -> 0 <= m -> zdrop n (zdrop m l) = zdrop (m + n) l.
Proof. intros. unfold zdrop. rewrite drop_drop. f_equal. lia. Qed.

Lemma ztake_ztake n m l : ztake n (ztake m l) = ztake (Z.min n m) l.
Proof. unfold ztake. rewrite take_take. f_equal. lia. Qed.

Lemma ztake_split n m l :
  0 <= n <= m -> ztake m l = ztake n l ++ ztake (m - n) (zdrop n l).
Proof.
  intros. unfold ztake, zdrop. rewrite take_take_drop. f_equal. lia.
Qed.

Lemma lastn_nil n : lastn n (@nil A) = [].
Proof. apply drop_nil. Qed.

Lemma lastn_all n l : len l <= n -> lastn n l = l.
Proof. intros. apply zdrop_le0. lia. Qed.

Lemma len_lastn n l : 0 <= n -> len (lastn n l) = Z.min n (len l).
Proof. intros. unfold lastn. rewrite len_zdrop. pose proof (len_nonneg l). lia. Qed.

(** Draining the excess of a bounded buffer, tested or not, keeps its tail. *)
Lemma zdrop_overflow m l : zdrop (saturating_sub (len l) m) l = lastn m l.
Proof.
  unfold saturating_sub, lastn.
  destruct (Z.le_gt_cases 0 (len l - m)); [f_equal; lia|].
  by rewrite !zdrop_le0 by lia.
Qed.

Lemma drain_overflow m l :
  (if 0 <? saturating_sub (len l) m then zdrop (saturating_sub (len l) m) l else l) =
  lastn m l.
Proof.
  destruct (0 <? _) eqn:E; [apply zdrop_overflow|]. case_tests.
  unfold saturating_sub in E. by rewrite lastn_all by lia.
Qed.

(** Trimming a prefix before appending changes nothing that survives. *)
Lemma lastn_app_lastn n m l k :
  0 <= n -> n <= m -> lastn n (lastn m l ++ k) = lastn n (l ++ k).
Proof.
  intros. unfold lastn. rewrite !len_app, len_zdrop, !zdrop_app.
  pose proof (len_nonneg l). pose proof (len_nonneg k). rewrite len_zdrop.
  destruct (Z.le_gt_cases (len l) m).
  - rewrite (zdrop_le0 (len l - m)) by lia. repeat f_equal; lia.
  - f_equal.
    + destruct (Z.le_gt_cases n (len k)); [rewrite !zdrop_all; rewrite ?len_zdrop; [done|lia|lia]|].
      rewrite zdrop_zdrop by lia. f_equal. lia.
    + f_equal. lia.
Qed.

Lemma slice_Some l a b r :
  slice l a b = Some r <->
  0 <= a <= b /\ b <= len l /\ r = ztake (b - a) (zdrop a l).
Proof.
  unfold slice. destruct ((0 <=? a) && (a <=? b) && (b <=? len l)) eqn:E; case_tests.
  - split; [intros [= <-]; done|intros (_ & _ & ->); done].
  - split; [done|]. intros (? & ? & _).
    apply andb_false_iff in E as [E|E]; [apply andb_false_iff in E as [E|E]|]; case_tests; lia.
Qed.

Lemma slice_ok l a b :
  0 <= a <= b -> b <= len l -> slice l a b = Some (ztake (b - a) (zdrop a l)).
Proof. intros. by apply slice_Some. Qed.

Lemma slice_app3 l k r : slice (l ++ k ++ r) (len l) (len l + len k) = Some k.
Proof.
  pose proof (len_nonneg l). pose proof (len_nonneg k). pose proof (len_nonneg r).
  rewrite slice_ok by (rewrite ?len_app; lia). f_equal.
  rewrite zdrop_app, zdrop_all by lia. rewrite Z.sub_diag, zdrop_le0 by lia. simpl.
  rewrite ztake_app, ztake_all, ztake_le0 by lia. apply app_nil_r.
Qed.

Lemma znth_app_r l k i : len l <= i -> znth (l ++ k) i = znth k (i - len l).
Proof.
  intros. unfold znth. pose proof (len_nonneg l).
  rewrite !(proj2 (Z.leb_le _ _)) by lia. unfold len in *.
  rewrite lookup_app_r by lia. f_equal. lia.
Qed.

Lemma znth_lookup l (i : nat) : znth l (Z.of_nat i) = l !! i.
Proof. unfold znth. rewrite (proj2 (Z.leb_le _ _)) by lia. by rewrite Nat2Z.id. Qed.

Lemma znth_ok l i : 0 <= i < len l -> exists x, znth l i = Some x.
Proof.
  unfold znth, len. intros Hi. rewrite (proj2 (Z.leb_le _ _)) by lia. apply lookup_lt_is_Some. lia.
Qed.

Lemma znth_None l i : znth l i = None <-> ~ (0 <= i < len l).
Proof.
  unfold znth, len. destruct (Z.leb_spec 0 i); [|split; [lia|done]].
  rewrite lookup_ge_None. lia.
Qed.

Lemma znth_app_l l k i : i < len l -> znth (l ++ k) i = znth l i.
Proof.
  unfold znth, len. intros. destruct (Z.leb_spec 0 i); [|done]. apply lookup_app_l. lia.
Qed.

Lemma count_app p l k : count p (l ++ k) = count p l + count p k.
Proof. unfold count. rewrite List.filter_app, len_app. done. Qed.

Lemma count_nonneg p l : 0 <= count p l.
Proof. apply len_nonneg. Qed.
End lengths.

Section sums.
Context {A : Type} (f : A -> Z).

Lemma sum_with_app l k : sum_with f (l ++ k) = sum_with f l + sum_with f k.
Proof. induction l as [|x l IH]; simpl; [done|]. rewrite IH. lia. Qed.

Lemma sum_with_nonneg l : (forall x, x ∈ l -> 0 <= f x) -> 0 <= sum_with f l.
Proof.
  induction l as [|x l IH]; intros H; simpl; [lia|].
  pose proof (H x ltac:(by left)). assert (0 <= sum_with f l); [|lia].
  apply IH. intros y Hy. apply H. by right.
Qed.

Lemma sum_with_insert l i x y :
  l !! i = Some x -> sum_with f (<[i:=y]> l) = sum_with f l - f x + f y.
Proof.
  revert i. induction l as [|z l IH]; intros [|i]; simpl; try done.
  - intros [= ->]. lia.
  - intros Hi. rewrite (IH i) by done. lia.
Qed.
End sums.

(** Reading a list one of whose places was overwritten. *)
Lemma insert_cases {A} (l : list A) i x j y :
  <[i := x]> l !! j = Some y -> (j = i /\ y = x) \/ (j <> i /\ l !! j = Some y).
Proof. intros [(-> & -> & _)|[??]]%list_lookup_insert_Some; auto. Qed.

Lemma lookup_inserted {A} (l : list A) i x y : l !! i = Some y -> <[i := x]> l !! i = Some x.
Proof. intros H. apply list_lookup_insert_eq. by eapply lookup_lt_Some. Qed.

Arguments len_nil A : clear implicits.

#[export] Hint Rewrite @len_app @len_nil @len_cons @len_ztake @len_zdrop : len.
#[export] Hint Resolve len_nonneg count_nonneg : intentd.

(** A share of at least [k] is one whole [k]. *)
Lemma div_share k a b : 0 < k -> k <= a -> 1 + b / k <= (a + b) / k.
Proof.
  intros Hk Ha. apply Z.div_le_lower_bound; [lia|]. pose proof (Z.mul_div_le b k Hk). lia.
Qed.

(** ** Sorting *)

Section sorting.
Context {A : Type} (leb : A -> A -> bool).

Lemma insert_by_perm x l : insert_by leb x l ≡ₚ x :: l.
Proof.
  induction l as [|y l IH]; simpl; [done|]. destruct (leb x y); [done|].
  rewrite IH. apply Permutation_swap.
Qed.

Lemma sort_by_perm l : sort_by leb l ≡ₚ l.
Proof. induction l as [|x l IH]; simpl; [done|]. by rewrite insert_by_perm, IH. Qed.

Context (total : forall x y, leb x y = false -> leb y x = true).
Context (trans : forall x y z, leb x y = true -> leb y z = true -> leb x z = true).

Lemma insert_by_sorted x l : StronglySorted leb l -> StronglySorted leb (insert_by leb x l).
Proof.
  induction l as [|y l IH]; simpl; intros Hl.
  { apply SSorted_cons; [apply SSorted_nil|apply Forall_nil_2]. }
  apply StronglySorted_inv in Hl as [Hl Hy]. destruct (leb x y) eqn:E.
  - apply SSorted_cons; [by apply SSorted_cons|]. apply Forall_cons. split; [by rewrite E|].
    eapply Forall_impl; [exact Hy|]. intros z Hz%Is_true_true. rewrite (trans x y z); done.
  - apply SSorted_cons; [by apply IH|].
    rewrite insert_by_perm. apply Forall_cons. split; [|done]. by rewrite (total _ _ E).
Qed.

Lemma sort_by_sorted l : StronglySorted leb (sort_by leb l).
Proof. induction l as [|x l IH]; simpl; [apply SSorted_nil|by apply insert_by_sorted]. Qed.

(** Elements the order does not tell apart keep their places. *)
Definition same_key (x y : A) : bool := leb x y && leb y x.

Lemma insert_by_stable z x l :
  List.filter (same_key z) (insert_by leb x l) = List.filter (same_key z) (x :: l).
Proof.
  induction l as [|y l IH]; [done|]. simpl insert_by. destruct (leb x y) eqn:E; [done|].
  assert (same_key z x = false \/ same_key z y = false) as Hne.
  { unfold same_key. destruct (leb z x), (leb x z) eqn:E1, (leb z y) eqn:E2; auto.
    rewrite (trans x z y) in E by done. done. }
  simpl. simpl in IH. rewrite IH. destruct Hne as [-> | ->]; [done|].
  by destruct (same_key z x).
Qed.

Lemma sort_by_stable z l :
  List.filter (same_key z) (sort_by leb l) = List.filter (same_key z) l.
Proof.
  induction l as [|x l IH]; [done|]. simpl sort_by. rewrite insert_by_stable. simpl.
  by rewrite IH.
Qed.
End sorting.

Section dedup.
Context {A : Type} `{EqDecision A}.

Lemma elem_of_dedup (l : list A) x : x ∈ dedup l <-> x ∈ l.
Proof.
  induction l as [|y [|z l] IH]; [done|done|].
  change (x ∈ (if decide (y = z) then dedup (z :: l) else y :: dedup (z :: l)) <-> x ∈ y :: z :: l).
  case_decide as D; [rewrite IH|rewrite elem_of_cons, IH]; set_solver.
Qed.

(** Of a list sorted by an order that tells its elements apart, [dedup] leaves
    no duplicate and keeps the order. *)
Lemma dedup_sorted (R : A -> A -> Prop) (l : list A) :
  (forall x y, R x y -> R y x -> x = y) -> StronglySorted R l ->
  StronglySorted R (dedup l) /\ NoDup (dedup l).
Proof.
  intros Hanti. induction l as [|y [|z l] IH]; intros Hs.
  { split; constructor. }
  { split; [done|]. apply NoDup_singleton. }
  apply StronglySorted_inv in Hs as [Hs Hy]. destruct (IH Hs) as [IHs IHn].
  change (StronglySorted R (if decide (y = z) then dedup (z :: l) else y :: dedup (z :: l)) /\
          NoDup (if decide (y = z) then dedup (z :: l) else y :: dedup (z :: l))).
  case_decide as D; [done|]. split.
  - apply SSorted_cons; [done|]. rewrite Forall_forall in Hy |- *.
    intros x Hx. apply Hy. by apply elem_of_dedup.
  - apply NoDup_cons. split; [|done]. rewrite elem_of_dedup. intros Hin.
    rewrite Forall_forall in Hy. apply StronglySorted_inv in Hs as [_ Hz].
    apply elem_of_cons in Hin as [Hin|Hin]; [by apply D|].
    rewrite Forall_forall in Hz. apply D, Hanti; [apply Hy; by left|by apply Hz].
Qed.
End dedup.
