(* ===== verification/Text.v ===== *)
(** * Text

    Rust strings as lists of Unicode scalar values: UTF-8 lengths, byte offsets on
    character boundaries, lines, and the size of a string inside JSON. *)
From stdpp Require Import prelude.
From S2P Require Import Prelude.

(** [char::len_utf8]. *)
Definition len_utf8 (c : Z) : Z :=
  if c <? 0x80 then 1 else if c <? 0x800 then 2 else if c <? 0x10000 then 3 else 4.

Definition utf8_len (text : list Z) : Z := sum_with len_utf8 text.

(** [char::is_whitespace]. *)
Definition is_whitespace (c : Z) : bool :=
  ((0x09 <=? c) && (c <=? 0x0d)) || (c =? 0x20) || (c =? 0x85) || (c =? 0xa0) || (c =? 0x1680) ||
  ((0x2000 <=? c) && (c <=? 0x200a)) || (c =? 0x2028) || (c =? 0x2029) || (c =? 0x202f) || (c =? 0x205f) || (c =? 0x3000).

(** [str::trim]. *)
Fixpoint trim_start (text : list Z) : list Z :=
  match text with
  | c :: text' => if is_whitespace c then trim_start text' else text
  | [] => []
  end.

Definition trim (text : list Z) : list Z := reverse (trim_start (reverse (trim_start text))).

(** [str::split('\n')]. *)
Fixpoint split_lines (text : list Z) : list (list Z) :=
  match text with
  | [] => [[]]
  | c :: text' =>
      if c =? 0x0a then [] :: split_lines text'
      else match split_lines text' with
           | l :: ls => (c :: l) :: ls
           | [] => [[c]]
           end
  end.

Fixpoint join_lines (lines : list (list Z)) : list Z :=
  match lines with
  | [] => []
  | [l] => l
  | l :: ls => l ++ [0x0a] ++ join_lines ls
  end.

Lemma utf8_len_app l k : utf8_len (l ++ k) = utf8_len l + utf8_len k.
Proof. apply sum_with_app. Qed.

Lemma split_join text : join_lines (split_lines text) = text /\ split_lines text <> [].
Proof.
  induction text as [|c text [IH Hne]]; simpl; [done|]. destruct (c =? 0x0a) eqn:E.
  - case_tests. subst. split; [|done]. simpl. destruct (split_lines text) eqn:Es; [done|]. by rewrite IH.
  - destruct (split_lines text) as [|l ls]; [done|]. split; [|done]. destruct ls; simpl in *; by rewrite IH.
Qed.

(** The text before a line, its newline included. *)
Definition before (lines : list (list Z)) : list Z := lines ≫= fun l => l ++ [0x0a].

Lemma before_cons l lines : before (l :: lines) = l ++ [0x0a] ++ before lines.
Proof. unfold before. rewrite bind_cons. by rewrite <- app_assoc. Qed.

Lemma before_line lines i line :
  lines !! i = Some line -> exists after, join_lines lines = before (take i lines) ++ line ++ after.
Proof.
  revert i. induction lines as [|l lines IH]; intros [|i]; cbn [lookup list_lookup take]; try done.
  - intros [= <-]. destruct lines; [by exists []; rewrite app_nil_r|]. by eexists.
  - intros H. destruct (IH _ H) as [after Ha]. exists after. rewrite before_cons, <- !app_assoc.
    destruct lines; [done|]. cbn [join_lines]. by rewrite <- Ha.
Qed.


(** ** Byte offsets *)

Lemma len_utf8_pos c : 1 <= len_utf8 c <= 4.
Proof. unfold len_utf8. repeat split_match; lia. Qed.

Lemma utf8_len_nonneg l : 0 <= utf8_len l.
Proof. induction l as [|c l IH]; unfold utf8_len in *; simpl; [lia|]. pose proof (len_utf8_pos c). lia. Qed.

Lemma utf8_len_zero l : utf8_len l = 0 -> l = [].
Proof.
  destruct l as [|c l]; [done|]. unfold utf8_len. simpl. pose proof (len_utf8_pos c).
  pose proof (utf8_len_nonneg l). unfold utf8_len in *. lia.
Qed.

(** [s.split_at(off)]; [None] when [off] is not a character boundary of [s]. *)
Fixpoint split_bytes (off : Z) (l : list Z) : option (list Z * list Z) :=
  if off =? 0 then Some ([], l)
  else match l with
       | [] => None
       | c :: l' =>
           if off <? len_utf8 c then None
           else '(a, b) ← split_bytes (off - len_utf8 c) l'; Some (c :: a, b)
       end.

(** [str::is_char_boundary]. *)
Definition is_char_boundary (off : Z) (l : list Z) : bool :=
  match split_bytes off l with Some _ => true | None => false end.

Lemma split_bytes_app a b : split_bytes (utf8_len a) (a ++ b) = Some (a, b).
Proof.
  induction a as [|c a IH]; [by destruct b|].
  pose proof (len_utf8_pos c). pose proof (utf8_len_nonneg a).
  assert (utf8_len (c :: a) = len_utf8 c + utf8_len a) as Hc by done. rewrite Hc. cbn [split_bytes app].
  solve_test. solve_test. replace (len_utf8 c + utf8_len a - len_utf8 c) with (utf8_len a) by lia. by rewrite IH.
Qed.

Lemma split_bytes_some off l a b : split_bytes off l = Some (a, b) -> l = a ++ b /\ utf8_len a = off.
Proof.
  revert off a. induction l as [|c l IH]; intros off a; cbn [split_bytes].
  - destruct (off =? 0) eqn:E; [|done]. case_tests. intros [= <- <-]. by subst.
  - destruct (off =? 0) eqn:E; case_tests; [intros [= <- <-]; by subst|].
    destruct (off <? len_utf8 c); [done|]. intros ([a' b'] & Hs & [= <- <-])%bind_Some.
    destruct (IH _ _ Hs) as [-> Ha]. split; [done|]. unfold utf8_len in *. simpl. lia.
Qed.

(** ** JSON size *)

(** Bytes a character takes inside a JSON string. *)
Definition json_escaped_len (c : Z) : Z :=
  if (c =? 0x22) || (c =? 0x5c) || (c =? 0x0a) || (c =? 0x0d) || (c =? 0x09) || (c =? 0x08) || (c =? 0x0c) then 2
  else if c <? 0x20 then 6
  else len_utf8 c.

Definition escaped_text_len (l : list Z) : Z := sum_with json_escaped_len l.

(** The longest prefix of [l] whose escaped size keeps [used] within [budget]. *)
Fixpoint prefix_within (used : Z) (l : list Z) (budget : Z) : list Z :=
  match l with
  | [] => []
  | c :: l' =>
      if budget <? used + json_escaped_len c then []
      else c :: prefix_within (used + json_escaped_len c) l' budget
  end.

Lemma json_escaped_len_pos c : 1 <= json_escaped_len c <= 6.
Proof. unfold json_escaped_len. pose proof (len_utf8_pos c). repeat split_match; lia. Qed.

Lemma escaped_text_app l k : escaped_text_len (l ++ k) = escaped_text_len l + escaped_text_len k.
Proof. apply sum_with_app. Qed.

Lemma escaped_text_nonneg l : 0 <= escaped_text_len l.
Proof. induction l as [|c l IH]; unfold escaped_text_len in *; simpl; [lia|]. pose proof (json_escaped_len_pos c). lia. Qed.

Lemma prefix_within_spec l : forall used budget,
  exists rest, l = prefix_within used l budget ++ rest /\
    (prefix_within used l budget = [] \/ used + escaped_text_len (prefix_within used l budget) <= budget) /\
    (forall c rest', rest = c :: rest' -> budget < used + escaped_text_len (prefix_within used l budget) + json_escaped_len c).
Proof.
  induction l as [|c l IH]; intros used budget; cbn [prefix_within]; [exists []; naive_solver|].
  destruct (budget <? used + json_escaped_len c) eqn:E; case_tests.
  - exists (c :: l). split_and!; [done|by left|]. intros c' rest' [= -> ->]. unfold escaped_text_len. simpl. lia.
  - destruct (IH (used + json_escaped_len c) budget) as (rest & Hl & Hb & Hm). exists rest. split_and!.
    + simpl. by rewrite <- Hl.
    + right. unfold escaped_text_len in *. simpl. destruct Hb as [-> | Hb]; simpl; lia.
    + intros c' rest' Hr. specialize (Hm c' rest' Hr). unfold escaped_text_len in *. simpl. lia.
Qed.
