(* ===== verification/Json.v ===== *)
(** * JSON values ([serde_json] with [preserve_order])

    The daemon's payloads are [serde_json::Value]s whose objects keep insertion
    order, so an object is an association list; the accessors are the ones the
    modelled code calls. *)
From stdpp Require Import prelude strings.
From Stdlib Require Import DecimalString DecimalFacts DecimalN.
From S2P Require Import Prelude.

(** [serde_json::Number]; a float is kept as the text it serializes to. *)
Inductive jnumber :=
| PosInt (n : N)
| NegInt (p : positive)
| Float (text : string).

Inductive json :=
| JNull
| JBool (b : bool)
| JNumber (n : jnumber)
| JString (s : string)
| JArray (items : list json)
| JObject (members : list (string * json)).

Definition slen (s : string) : Z := Z.of_nat (String.length s).

(** [str]'s [Ord]: by bytes. *)
Definition str_leb (a b : string) : bool :=
  match String.compare a b with Gt => false | _ => true end.

(** ** Objects *)

(** [Map::get]. *)
Fixpoint map_get (m : list (string * json)) (k : string) : option json :=
  match m with
  | [] => None
  | (k', v) :: m' => if decide (k' = k) then Some v else map_get m' k
  end.

(** [Map::insert]: a present key keeps its place, a new one goes last. *)
Fixpoint map_insert (m : list (string * json)) (k : string) (v : json) :
    list (string * json) :=
  match m with
  | [] => [(k, v)]
  | (k', v') :: m' =>
      if decide (k' = k) then (k, v) :: m' else (k', v') :: map_insert m' k v
  end.

(** [Map::entry(k).or_insert(v)]. *)
Definition map_or_insert (m : list (string * json)) (k : string) (v : json) :
    list (string * json) :=
  match map_get m k with Some _ => m | None => map_insert m k v end.

(** [Map::remove]: with [preserve_order] it swaps the last member in. *)
Fixpoint map_swap_remove (m : list (string * json)) (k : string) :
    list (string * json) :=
  match m with
  | [] => []
  | (k', v) :: m' =>
      if decide (k' = k) then
        match last m' with
        | Some l => l :: removelast m'
        | None => []
        end
      else (k', v) :: map_swap_remove m' k
  end.

(** ** Accessors of [Value] *)

Definition jget (v : json) (k : string) : option json :=
  match v with JObject m => map_get m k | _ => None end.

Definition as_str (v : json) : option string :=
  match v with JString s => Some s | _ => None end.

Definition as_bool (v : json) : option bool :=
  match v with JBool b => Some b | _ => None end.

Definition as_array (v : json) : option (list json) :=
  match v with JArray l => Some l | _ => None end.

Definition as_object (v : json) : option (list (string * json)) :=
  match v with JObject m => Some m | _ => None end.

(** [v[k] = x] on an object ([Value]'s [IndexMut] inserts a missing key). *)
Definition jset (v : json) (k : string) (x : json) : json :=
  match v with JObject m => JObject (map_insert m k x) | _ => v end.

(** ** Decimal text *)

(** [u64::to_string]. *)
Definition dec_string (n : N) : string := NilZero.string_of_uint (N.to_uint n).

(** Digits only, at least one, within [max]: [is_ascii_digit] on every byte
    followed by [str::parse::<u64>]. *)
Definition dec_parse (max : Z) (s : string) : option N :=
  d ← NilZero.uint_of_string s;
  let n := N.of_uint d in
  if Z.of_N n <=? max then Some n else None.

(** ** Serialized size

    The length of [serde_json::to_string]: no spaces, the two-byte escapes of
    the quote, the backslash and five control characters, six bytes for the
    other control characters, every other byte verbatim. *)
Definition escaped_len (c : Ascii.ascii) : Z :=
  let b := Z.of_N (Ascii.N_of_ascii c) in
  if (b =? 0x22) || (b =? 0x5c) then 2
  else if (b =? 0x08) || (b =? 0x09) || (b =? 0x0a) || (b =? 0x0c) || (b =? 0x0d) then 2
  else if b <? 0x20 then 6
  else 1.

Fixpoint escaped_str_len (s : string) : Z :=
  match s with
  | EmptyString => 0
  | String c s' => escaped_len c + escaped_str_len s'
  end.

Definition number_len (n : jnumber) : Z :=
  match n with
  | PosInt k => slen (dec_string k)
  | NegInt p => 1 + slen (dec_string (Npos p))
  | Float t => slen t
  end.

(** [n] items separated by commas. *)
Definition commas (n : nat) : Z := Z.of_nat (n - 1).

Fixpoint serialized_size (v : json) : Z :=
  match v with
  | JNull => 4
  | JBool b => if b then 4 else 5
  | JNumber n => number_len n
  | JString s => 2 + escaped_str_len s
  | JArray items =>
      2 + commas (length items) + sum_with serialized_size items
  | JObject m =>
      2 + commas (length m)
      + sum_with (fun kv => 3 + escaped_str_len (fst kv) + serialized_size (snd kv)) m
  end.

(** ** Serialized text

    [serde_json::to_string]. *)
Definition char_of (b : Z) : Ascii.ascii := Ascii.ascii_of_N (Z.to_N b).

Definition hex_digit (n : Z) : Ascii.ascii := char_of (if n <? 10 then 48 + n else 87 + n).

Definition escape_char (c : Ascii.ascii) : string :=
  let b := Z.of_N (Ascii.N_of_ascii c) in
  let short e := String (char_of 0x5c) (String (char_of e) EmptyString) in
  if (b =? 0x22) || (b =? 0x5c) then short b
  else if b =? 0x08 then short 0x62
  else if b =? 0x09 then short 0x74
  else if b =? 0x0a then short 0x6e
  else if b =? 0x0c then short 0x66
  else if b =? 0x0d then short 0x72
  else if b <? 0x20 then short 0x75 +:+ "00" +:+ String (hex_digit (b / 16)) (String (hex_digit (b mod 16)) EmptyString)
  else String c EmptyString.

Fixpoint escape_str (s : string) : string :=
  match s with
  | EmptyString => EmptyString
  | String c s' => escape_char c +:+ escape_str s'
  end.

Definition quoted (s : string) : string :=
  String (char_of 0x22) (escape_str s +:+ String (char_of 0x22) EmptyString).

Definition number_text (n : jnumber) : string :=
  match n with
  | PosInt k => dec_string k
  | NegInt p => "-" +:+ dec_string (Npos p)
  | Float t => t
  end.

(** Texts separated by commas. *)
Fixpoint comma_join (l : list string) : string :=
  match l with
  | [] => EmptyString
  | [s] => s
  | s :: l' => s +:+ "," +:+ comma_join l'
  end.

Fixpoint json_text (v : json) : string :=
  match v with
  | JNull => "null"
  | JBool b => if b then "true" else "false"
  | JNumber n => number_text n
  | JString s => quoted s
  | JArray items => "[" +:+ comma_join (map json_text items) +:+ "]"
  | JObject m => "{" +:+ comma_join (map (fun kv => quoted (fst kv) +:+ ":" +:+ json_text (snd kv)) m) +:+ "}"
  end.

(** ** Lemmas *)

Section json_induction.
Context (P : json -> Prop) (Hnull : P JNull) (Hbool : forall b, P (JBool b)) (Hnum : forall n, P (JNumber n))
  (Hstr : forall s, P (JString s)) (Harr : forall l, Forall P l -> P (JArray l))
  (Hobj : forall m, Forall (fun kv => P (snd kv)) m -> P (JObject m)).

Fixpoint json_nested_ind (v : json) : P v :=
  match v with
  | JNull => Hnull
  | JBool b => Hbool b
  | JNumber n => Hnum n
  | JString s => Hstr s
  | JArray l => Harr l ((fix go l := match l return Forall P l with
      | [] => List.Forall_nil _ | v :: l' => List.Forall_cons _ _ _ (json_nested_ind v) (go l') end) l)
  | JObject m => Hobj m ((fix go m := match m return Forall (fun kv => P (snd kv)) m with
      | [] => List.Forall_nil _ | kv :: m' => List.Forall_cons _ _ _ (json_nested_ind (snd kv)) (go m') end) m)
  end.
End json_induction.

Lemma slen_nonneg s : 0 <= slen s.
Proof. unfold slen. lia. Qed.

Lemma slen_app s t : slen (s +:+ t) = slen s + slen t.
Proof.
  unfold slen. induction s as [|c s IH]; simpl; [done|].
  change (String.append s t) with (s +:+ t). lia.
Qed.

#[export] Hint Resolve slen_nonneg : intentd.

Lemma sapp_assoc s t u : s +:+ (t +:+ u) = (s +:+ t) +:+ u.
Proof.
  induction s as [|c s IH]; [done|].
  apply (f_equal (String c)), IH.
Qed.

Lemma map_get_insert_eq m k v : map_get (map_insert m k v) k = Some v.
Proof.
  induction m as [|[k' v'] m IH]; simpl; [by rewrite decide_True|].
  destruct (decide (k' = k)); simpl; [by rewrite decide_True|by rewrite decide_False].
Qed.

Lemma map_get_insert_ne m k k' v :
  k <> k' -> map_get (map_insert m k v) k' = map_get m k'.
Proof.
  intros Hne. induction m as [|[k1 v1] m IH]; simpl; [by rewrite decide_False|].
  destruct (decide (k1 = k)) as [->|]; simpl.
  - by rewrite !decide_False.
  - destruct (decide (k1 = k')); [done|apply IH].
Qed.

Lemma jget_jset_ne v k k' x : k <> k' -> jget (jset v k x) k' = jget v k'.
Proof. destruct v; simpl; try done. apply map_get_insert_ne. Qed.

Lemma jget_object v k x : jget v k = Some x -> exists m, v = JObject m.
Proof. destruct v; simpl; try done. eauto. Qed.

Lemma dec_parse_string max n : Z.of_N n <= max -> dec_parse max (dec_string n) = Some n.
Proof.
  intros Hn. unfold dec_parse, dec_string. rewrite NilZero.usu.
  - simpl. rewrite DecimalN.Unsigned.of_to. by solve_test.
  - destruct n as [|p]; [done|]. simpl. unfold N.to_uint, Pos.to_uint.
    intros H. apply (f_equal N.of_uint) in H.
    change (N.of_uint (N.to_uint (Npos p)) = N.of_uint Decimal.Nil) in H.
    by rewrite DecimalN.Unsigned.of_to in H.
Qed.

(** ** Sizes *)

Lemma slen_cons c s : slen (String c s) = 1 + slen s.
Proof. unfold slen. cbn [String.length]. lia. Qed.

Lemma slen_escape_char c : slen (escape_char c) = escaped_len c.
Proof. destruct c as [[] [] [] [] [] [] [] []]; reflexivity. Qed.

Lemma slen_escape_str s : slen (escape_str s) = escaped_str_len s.
Proof. induction s as [|c s IH]; [done|]. cbn [escape_str escaped_str_len]. by rewrite slen_app, slen_escape_char, IH. Qed.

Lemma slen_quoted s : slen (quoted s) = 2 + escaped_str_len s.
Proof. unfold quoted. rewrite slen_cons, slen_app, slen_escape_str, slen_cons. change (slen "") with 0. lia. Qed.

Lemma slen_comma_join l : slen (comma_join l) = commas (length l) + sum_with slen l.
Proof.
  induction l as [|s [|t l] IH]; [done|change (slen s = 0 + (slen s + 0)); lia|].
  change (comma_join (s :: t :: l)) with (s +:+ "," +:+ comma_join (t :: l)).
  rewrite !slen_app, IH. change (slen ",") with 1. unfold commas. cbn [length sum_with foldr]. lia.
Qed.

Lemma sum_with_map {A B} (f : B -> Z) (g : A -> B) l : sum_with f (map g l) = sum_with (fun x => f (g x)) l.
Proof. induction l as [|x l IH]; [done|]. cbn. by rewrite IH. Qed.

Lemma sum_with_Forall {A} (f g : A -> Z) l : Forall (fun x => f x = g x) l -> sum_with f l = sum_with g l.
Proof. induction 1 as [|x l Hx Hl IH]; [done|]. cbn. by rewrite Hx, IH. Qed.

Lemma escaped_len_bounds c : 1 <= escaped_len c <= 6.
Proof. destruct c as [[] [] [] [] [] [] [] []]; split; vm_compute; discriminate. Qed.

Lemma escaped_str_len_app s t : escaped_str_len (s +:+ t) = escaped_str_len s + escaped_str_len t.
Proof.
  induction s as [|c s IH]; [done|]. change (String c s +:+ t) with (String c (s +:+ t)). cbn [escaped_str_len]. rewrite IH. lia.
Qed.

Lemma escaped_str_len_bounds s : slen s <= escaped_str_len s <= 6 * slen s.
Proof.
  induction s as [|c s IH]; [done|]. rewrite slen_cons. cbn [escaped_str_len]. pose proof (escaped_len_bounds c). lia.
Qed.

(** ** Sizes of objects *)

Lemma size_insert_present m k v v0 :
  map_get m k = Some v0 ->
  serialized_size (JObject (map_insert m k v)) = serialized_size (JObject m) - serialized_size v0 + serialized_size v.
Proof.
  intros H. cbn [serialized_size].
  assert (length (map_insert m k v) = length m /\
    sum_with (fun kv => 3 + escaped_str_len (fst kv) + serialized_size (snd kv)) (map_insert m k v) =
    sum_with (fun kv => 3 + escaped_str_len (fst kv) + serialized_size (snd kv)) m - serialized_size v0 + serialized_size v) as [-> ->]; [|lia].
  revert H. induction m as [|[k' v'] m IH]; [done|]. cbn [map_get map_insert]. destruct (decide (k' = k)) as [->|].
  - intros [= ->]. split; [done|]. cbn. lia.
  - intros H. destruct (IH H) as [Hl Hs]. split; [cbn [length]; by rewrite Hl|]. cbn. rewrite Hs. lia.
Qed.

(** ** Decimal lengths *)

Lemma slen_uint d : slen (NilEmpty.string_of_uint d) = Z.of_nat (Decimal.nb_digits d).
Proof. induction d; [done|..]; cbn [NilEmpty.string_of_uint Decimal.nb_digits]; rewrite slen_cons; lia. Qed.

Lemma of_uint_acc_bounds d : forall acc,
  let k := 10 ^ Z.of_nat (Decimal.nb_digits d) in
  Zpos acc * k <= Zpos (Pos.of_uint_acc d acc) < (Zpos acc + 1) * k.
Proof.
  induction d; intros acc; cbn [Pos.of_uint_acc Decimal.nb_digits]; [simpl; lia|..];
    (rewrite Nat2Z.inj_succ, Z.pow_succ_r by lia; match goal with |- context [Pos.of_uint_acc d ?a] => specialize (IHd a) end;
     cbv zeta in *; set (k := 10 ^ Z.of_nat (Decimal.nb_digits d)) in *; assert (0 < k) by (subst k; apply Z.pow_pos_nonneg; lia);
     revert IHd; rewrite ?Pos2Z.inj_add, ?Pos2Z.inj_mul; nia).
Qed.

Lemma of_uint_bounds d :
  Decimal.unorm d = d -> N.of_uint d <> 0%N ->
  10 ^ (Z.of_nat (Decimal.nb_digits d) - 1) <= Z.of_N (N.of_uint d) < 10 ^ Z.of_nat (Decimal.nb_digits d).
Proof.
  assert (forall j d', 1 <= Zpos j <= 9 -> let k := Z.of_nat (S (Decimal.nb_digits d')) in
    10 ^ (k - 1) <= Zpos (Pos.of_uint_acc d' j) < 10 ^ k) as H.
  { intros j d' Hj k. subst k. pose proof (of_uint_acc_bounds d' j) as Hb. cbv zeta in Hb.
    rewrite Nat2Z.inj_succ. replace (Z.succ (Z.of_nat (Decimal.nb_digits d')) - 1) with (Z.of_nat (Decimal.nb_digits d')) by lia.
    rewrite Z.pow_succ_r by lia. assert (0 < 10 ^ Z.of_nat (Decimal.nb_digits d')) by (apply Z.pow_pos_nonneg; lia). nia. }
  destruct d as [|d|d|d|d|d|d|d|d|d|d]; intros Hn Hz; [done| |apply H; lia..].
  exfalso. apply Hz. unfold Decimal.unorm in Hn. cbn [Decimal.nzhead] in Hn. destruct (Decimal.nzhead d) eqn:E; try congruence.
  - assert (d = Decimal.Nil) as -> by congruence. done.
  - by apply DecimalFacts.nzhead_nonzero in E.
Qed.

Lemma dec_string_mono a b : (a <= b)%N -> slen (dec_string a) <= slen (dec_string b).
Proof.
  assert (forall n, slen (dec_string n) = Z.of_nat (Decimal.nb_digits (N.to_uint n))) as Hlen.
  { intros n. unfold dec_string, NilZero.string_of_uint. destruct (N.to_uint n) eqn:E; try apply slen_uint.
    pose proof (f_equal N.of_uint E) as E'. rewrite DecimalN.Unsigned.of_to in E'. by subst n. }
  assert (forall n, n <> 0%N -> 10 ^ (slen (dec_string n) - 1) <= Z.of_N n < 10 ^ slen (dec_string n)) as Hb.
  { intros n Hn. rewrite Hlen. pose proof (of_uint_bounds (N.to_uint n)) as H. rewrite DecimalN.Unsigned.of_to in H. apply H; [|done].
    by rewrite <- DecimalN.Unsigned.to_of, DecimalN.Unsigned.of_to. }
  intros Hab. destruct (decide (b = 0%N)) as [->|Hb0]; [by assert (a = 0%N) as -> by lia|].
  destruct (decide (a = 0%N)) as [->|Ha0].
  - change (slen (dec_string 0)) with 1. destruct (Z.le_gt_cases 1 (slen (dec_string b))) as [?|Hlt]; [done|].
    pose proof (slen_nonneg (dec_string b)). assert (slen (dec_string b) = 0) as E by lia.
    pose proof (Hb b Hb0) as H'. rewrite E in H'. simpl in H'. lia.
  - destruct (Z.le_gt_cases (slen (dec_string a)) (slen (dec_string b))) as [?|Hlt]; [done|].
    pose proof (Hb a Ha0). pose proof (Hb b Hb0).
    assert (10 ^ slen (dec_string b) <= 10 ^ (slen (dec_string a) - 1)) by (apply Z.pow_le_mono_r; lia). lia.
Qed.

Lemma dec_string_small n : slen (dec_string n) < 4 -> Z.of_N n < 1000.
Proof.
  intros H. destruct (N.le_gt_cases 1000 n) as [Hn|]; [|lia].
  pose proof (dec_string_mono _ _ Hn) as Hm. change (slen (dec_string 1000)) with 4 in Hm. lia.
Qed.

(** ** Objects with distinct keys *)

Lemma swap_remove_perm m k v : map_get m k = Some v -> m ≡ₚ (k, v) :: map_swap_remove m k.
Proof.
  induction m as [|[k' v'] m IH]; [done|]. cbn [map_get map_swap_remove]. destruct (decide (k' = k)) as [->|].
  - intros [= ->]. apply Permutation_skip. destruct (last m) as [l|] eqn:E.
    + rewrite last_Some in E. destruct E as [m' ->]. rewrite removelast_last. by rewrite Permutation_app_comm.
    + by apply last_None in E as ->.
  - intros Hm. rewrite (IH Hm) at 1. apply Permutation_swap.
Qed.

Lemma swap_remove_absent m k : map_get m k = None -> map_swap_remove m k = m.
Proof.
  induction m as [|[k' v'] m IH]; [done|]. cbn [map_get map_swap_remove]. destruct (decide (k' = k)); [done|]. intros Hm. by rewrite IH.
Qed.

Definition distinct_keys (m : list (string * json)) : Prop := NoDup m.*1.

Lemma map_get_elem m k v : distinct_keys m -> map_get m k = Some v <-> (k, v) ∈ m.
Proof.
  unfold distinct_keys. induction m as [|[k' v'] m IH]; [intros _; split; [done|by intros ?%not_elem_of_nil]|].
  rewrite fmap_cons, NoDup_cons. cbn [map_get fst]. intros [Hk Hm]. rewrite elem_of_cons. destruct (decide (k' = k)) as [->|Hne].
  - split; [intros [= ->]; by left|]. intros [[= ->]|Hin]; [done|]. exfalso. apply Hk. by apply (list_elem_of_fmap_2 fst _ (k, v)).
  - rewrite IH by done. naive_solver.
Qed.

Lemma distinct_swap_remove m k : distinct_keys m -> distinct_keys (map_swap_remove m k).
Proof.
  intros Hm. destruct (map_get m k) as [v|] eqn:E; [|by rewrite swap_remove_absent].
  unfold distinct_keys in *. rewrite (swap_remove_perm m k v E), fmap_cons, NoDup_cons in Hm. by destruct Hm.
Qed.

Lemma map_get_swap_remove_ne m k k' : distinct_keys m -> k <> k' -> map_get (map_swap_remove m k) k' = map_get m k'.
Proof.
  intros Hm Hne. destruct (map_get m k) as [v|] eqn:E; [|by rewrite swap_remove_absent]. apply option_eq. intros w.
  rewrite !map_get_elem by auto using distinct_swap_remove. rewrite (swap_remove_perm m k v E) at 2. rewrite elem_of_cons. naive_solver.
Qed.

Lemma map_get_swap_remove_eq m k : distinct_keys m -> map_get (map_swap_remove m k) k = None.
Proof.
  intros Hm. destruct (map_get m k) as [v|] eqn:E; [|by rewrite swap_remove_absent].
  destruct (map_get (map_swap_remove m k) k) as [w|] eqn:E'; [|done]. exfalso.
  apply map_get_elem in E'; [|by apply distinct_swap_remove]. unfold distinct_keys in Hm.
  rewrite (swap_remove_perm m k v E), fmap_cons, NoDup_cons in Hm. destruct Hm as [Hm _]. apply Hm. by apply (list_elem_of_fmap_2 fst _ (k, w)).
Qed.

Lemma map_insert_keys m k v k' : k' ∈ (map_insert m k v).*1 -> k' = k \/ k' ∈ m.*1.
Proof.
  induction m as [|[k1 v1] m IH]; cbn [map_insert]; [set_solver|]. destruct (decide (k1 = k)) as [->|]; set_solver.
Qed.

Lemma distinct_insert m k v : distinct_keys m -> distinct_keys (map_insert m k v).
Proof.
  unfold distinct_keys. induction m as [|[k1 v1] m IH]; cbn [map_insert fmap list_fmap fst]; [by intros; apply NoDup_singleton|].
  rewrite NoDup_cons. intros [Hk Hm]. destruct (decide (k1 = k)) as [->|Hne]; cbn [fmap list_fmap fst]; apply NoDup_cons; [done|].
  split; [|by apply IH]. by intros [?|?]%map_insert_keys.
Qed.

Lemma size_nonneg v : 0 <= serialized_size v.
Proof.
  induction v as [|[]|n|s|l IH|m IH] using json_nested_ind; cbn [serialized_size]; try lia.
  - unfold number_len. destruct n; auto using slen_nonneg. pose proof (slen_nonneg (dec_string (N.pos p))). lia.
  - pose proof (escaped_str_len_bounds s). pose proof (slen_nonneg s). lia.
  - assert (0 <= sum_with serialized_size l) by (apply sum_with_nonneg; by apply Forall_forall). unfold commas. lia.
  - assert (0 <= sum_with (fun kv => 3 + escaped_str_len (fst kv) + serialized_size (snd kv)) m).
    { apply sum_with_nonneg. intros kv Hkv. eapply Forall_forall in IH; [|exact Hkv].
      pose proof (escaped_str_len_bounds (fst kv)). pose proof (slen_nonneg (fst kv)). lia. }
    unfold commas. lia.
Qed.

Lemma sum_with_perm {A} (f : A -> Z) l k : l ≡ₚ k -> sum_with f l = sum_with f k.
Proof. induction 1; cbn; lia. Qed.

Lemma size_swap_remove m k : serialized_size (JObject (map_swap_remove m k)) <= serialized_size (JObject m).
Proof.
  destruct (map_get m k) as [v|] eqn:E; [|by rewrite swap_remove_absent].
  pose proof (swap_remove_perm m k v E) as Hp. cbn [serialized_size].
  rewrite (Permutation_length Hp), (sum_with_perm _ _ _ Hp). unfold commas. cbn [length].
  change (sum_with ?f (?x :: ?l)) with (f x + sum_with f l). cbn [fst snd].
  pose proof (size_nonneg v). pose proof (escaped_str_len_bounds k). pose proof (slen_nonneg k). lia.
Qed.

(** ** The order of texts *)

Lemma str_leb_cons a b s t :
  str_leb (String a s) (String b t) =
  match Ascii.compare a b with Lt => true | Eq => str_leb s t | Gt => false end.
Proof. unfold str_leb. simpl. by destruct (Ascii.compare a b). Qed.

Lemma str_leb_total s t : str_leb s t = false -> str_leb t s = true.
Proof.
  unfold str_leb. rewrite (String.compare_antisym t s). by destruct (String.compare s t).
Qed.

Lemma str_leb_anti s t : str_leb s t -> str_leb t s -> s = t.
Proof.
  unfold str_leb. rewrite (String.compare_antisym t s).
  destruct (String.compare s t) eqn:E; [|done..]. intros _ _. by apply String.compare_eq_iff.
Qed.

Lemma str_leb_trans s t u : str_leb s t = true -> str_leb t u = true -> str_leb s u = true.
Proof.
  revert t u. induction s as [|a s IH]; intros [|b t] [|c u]; try done. rewrite !str_leb_cons.
  unfold Ascii.compare.
  destruct (N.compare_spec (Ascii.N_of_ascii a) (Ascii.N_of_ascii b)) as [E1|E1|E1]; [..|done];
  destruct (N.compare_spec (Ascii.N_of_ascii b) (Ascii.N_of_ascii c)) as [E2|E2|E2]; try done;
  destruct (N.compare_spec (Ascii.N_of_ascii a) (Ascii.N_of_ascii c)) as [E3|E3|E3]; try done; try lia.
  apply IH.
Qed.

(** * Properties *)

(** The size every budget of the daemon counts with is the length of the text
    [serde_json] writes: escapes, separators and digits included. *)
Theorem serialized_size_exact (v : json) : slen (json_text v) = serialized_size v.
Proof.
  induction v as [|[]|n|s|l IH|m IH] using json_nested_ind; try reflexivity.
  - cbn [json_text serialized_size]. destruct n; cbn [number_text number_len]; [done| |done]. by rewrite slen_app.
  - apply slen_quoted.
  - cbn [json_text serialized_size]. rewrite !slen_app, slen_comma_join, length_map, sum_with_map, (sum_with_Forall _ _ _ IH).
    change (slen "[") with 1. change (slen "]") with 1. lia.
  - cbn [json_text serialized_size]. rewrite !slen_app, slen_comma_join, length_map, sum_with_map.
    rewrite (sum_with_Forall _ (fun kv => 3 + escaped_str_len (fst kv) + serialized_size (snd kv)) m).
    + change (slen "{") with 1. change (slen "}") with 1. lia.
    + eapply Forall_impl; [exact IH|]. intros kv Hkv. cbv beta. rewrite !slen_app, slen_quoted, Hkv. change (slen ":") with 1. lia.
Qed.
