(* ===== verification/Scrollback.v ===== *)
(** * Bounded PTY scrollback ([crates/intent-pty/src/scrollback.rs])

    The byte ring that keeps the most recent output of one PTY, its newline
    index and its line-window reads.  The ring is specified against the whole
    byte stream the process ever produced. *)
From stdpp Require Import prelude.
From S2P Require Import Prelude.

Definition BEL : Z := 0x07.
Definition ESC : Z := 0x1b.
Definition NEWLINE : Z := 0x0a.
Definition BACKSLASH : Z := 0x5c.
Definition RBRACKET : Z := 0x5d.

Definition DEFAULT_SCROLLBACK_BYTES : Z := 512 * 1024.

Record OutputChunk := mkOutputChunk {
  oc_bytes : list Z;
  oc_start_offset : Z;
  oc_end_offset : Z }.

Record LineSnapshot := mkLineSnapshot {
  ls_bytes : list Z;
  ls_total_lines : Z;
  ls_start_line : Z;
  ls_end_line : Z;
  ls_retained_has_non_whitespace : bool }.

Definition line_count (s : LineSnapshot) : Z :=
  saturating_sub (ls_end_line s) (ls_start_line s).

Record Scrollback := mkScrollback {
  buf : list Z;
  max_bytes : Z;
  newlines : list Z;
  stream_offset : Z;
  non_whitespace_bytes : Z;
  line_snapshot_calls : Z;
  line_snapshot_scanned_bytes : Z }.

Definition new (max : Z) : Scrollback :=
  mkScrollback [] max [] 0 0 0 0.

(** [u8::is_ascii_whitespace]: space, tab, line feed, form feed, return. *)
Definition is_ascii_whitespace (b : Z) : bool :=
  (b =? 0x20) || (b =? 0x09) || (b =? 0x0a) || (b =? 0x0c) || (b =? 0x0d).

Definition is_ink (b : Z) : bool := negb (is_ascii_whitespace b).

(** Absolute positions of the newline bytes of [l], whose first byte is at
    [at_] (the [enumerate().filter().map()] of [push]). *)
Fixpoint newline_positions (at_ : Z) (l : list Z) : list Z :=
  match l with
  | [] => []
  | b :: l' =>
      if b =? NEWLINE then at_ :: newline_positions (at_ + 1) l'
      else newline_positions (at_ + 1) l'
  end.

(** The [while front < retained_start { pop_front }] loop of [push]. *)
Fixpoint pop_newlines (retained_start : Z) (l : list Z) : list Z :=
  match l with
  | o :: l' => if o <? retained_start then pop_newlines retained_start l' else l
  | [] => []
  end.

(** [push]: [None] where the source panics (byte offset overflow, or an
    arithmetic underflow of a counter). *)
Definition push (sb : Scrollback) (data : list Z) : option Scrollback :=
  let data_start := stream_offset sb in
  offset ← checked_add u64_max (stream_offset sb) (len data);
  if max_bytes sb =? 0 then
    Some (mkScrollback (buf sb) (max_bytes sb) (newlines sb) offset
            (non_whitespace_bytes sb) (line_snapshot_calls sb)
            (line_snapshot_scanned_bytes sb))
  else
    let tail :=
      if max_bytes sb <? len data then zdrop (len data - max_bytes sb) data
      else data in
    let tail_start := data_start + (len data - len tail) in
    let nls := newlines sb ++ newline_positions tail_start tail in
    let ink := non_whitespace_bytes sb + count is_ink tail in
    let grown := buf sb ++ tail in
    let overflow := saturating_sub (len grown) (max_bytes sb) in
    ink' ← (if 0 <? overflow
            then checked_sub ink (count is_ink (ztake overflow grown))
            else Some ink);
    let kept := if 0 <? overflow then zdrop overflow grown else grown in
    retained_start ← checked_sub offset (len kept);
    Some (mkScrollback kept (max_bytes sb) (pop_newlines retained_start nls)
            offset ink' (line_snapshot_calls sb)
            (line_snapshot_scanned_bytes sb)).

Definition clear (sb : Scrollback) : Scrollback :=
  mkScrollback [] (max_bytes sb) [] (stream_offset sb) 0
    (line_snapshot_calls sb) (line_snapshot_scanned_bytes sb).

(** [VecDeque::range] panics on an inverted or out-of-range window. *)
Definition copy_range (sb : Scrollback) (start end_ : Z) : option (list Z) :=
  slice (buf sb) start end_.

Definition snapshot (sb : Scrollback) : option (list Z) :=
  copy_range sb 0 (len (buf sb)).

Definition snapshot_tail (sb : Scrollback) (max : Z) : option (list Z) :=
  copy_range sb (saturating_sub (len (buf sb)) max) (len (buf sb)).

Definition positioned_snapshot (sb : Scrollback) (max : Z) : option OutputChunk :=
  bytes ← snapshot_tail sb max;
  start ← checked_sub (stream_offset sb) (len bytes);
  Some (mkOutputChunk bytes start (stream_offset sb)).

Definition line_start (sb : Scrollback) (line retained_start : Z) : option Z :=
  if line =? 0 then Some 0
  else if len (newlines sb) <? line then Some (len (buf sb))
  else
    nl ← znth (newlines sb) (line - 1);
    checked_sub (nl + 1) retained_start.

(** The downward scan of [open_osc_start], [index] bytes still to visit.  The
    result pairs the opener found with the number of bytes visited; [None]
    where an index would be out of range. *)
Fixpoint osc_scan (l : list Z) (byte_start : Z) (index : nat) (scanned : Z) :
    option (option Z * Z) :=
  match index with
  | O => Some (None, scanned)
  | S i =>
      b ← l !! i;
      let ends_st :=
        match i with
        | O => false
        | S i' => bool_decide (l !! i' = Some ESC) && (b =? BACKSLASH)
        end in
      if (b =? BEL) || ends_st then Some (None, scanned + 1)
      else if (Z.of_nat i + 1 <? byte_start) && (b =? ESC)
                && bool_decide (l !! S i = Some RBRACKET)
      then Some (Some (Z.of_nat i), scanned + 1)
      else osc_scan l byte_start i (scanned + 1)
  end.

Definition open_osc_start (sb : Scrollback) (byte_start : Z) :
    option (option Z * Z) :=
  osc_scan (buf sb) byte_start (Z.to_nat byte_start) 0.

(** [record_snapshot_scan] and the call counter: wrapping atomic additions. *)
Definition record_snapshot (sb : Scrollback) (scanned : Z) : Scrollback :=
  mkScrollback (buf sb) (max_bytes sb) (newlines sb) (stream_offset sb)
    (non_whitespace_bytes sb)
    (wrapping_add u64_max (line_snapshot_calls sb) 1)
    (wrapping_add u64_max (line_snapshot_scanned_bytes sb) scanned).

Definition line_snapshot_metrics (sb : Scrollback) : Z * Z :=
  (line_snapshot_calls sb, line_snapshot_scanned_bytes sb).

Definition snapshot_lines (sb : Scrollback) (max_lines : Z) (end_line : option Z) :
    option (LineSnapshot * Scrollback) :=
  let total_lines :=
    match buf sb with [] => 0 | _ => len (newlines sb) + 1 end in
  let end_ := Z.min (default total_lines end_line) total_lines in
  let start := saturating_sub end_ max_lines in
  retained_start ← checked_sub (stream_offset sb) (len (buf sb));
  byte_start ← line_start sb start retained_start;
  byte_end ← line_start sb end_ retained_start;
  '(opener, scanned) ← open_osc_start sb byte_start;
  let context_start := default byte_start opener in
  bytes ← copy_range sb context_start byte_end;
  Some (mkLineSnapshot bytes total_lines start end_
          (0 <? non_whitespace_bytes sb),
        record_snapshot sb scanned).

(** ** The reference: one byte stream *)

(** The calls a PTY host makes on the ring. *)
Inductive Op :=
| OpPush (data : list Z)
| OpClear
| OpLines (max_lines : Z) (end_line : option Z).

Definition step (sb : Scrollback) (o : Op) : option Scrollback :=
  match o with
  | OpPush d => push sb d
  | OpClear => Some (clear sb)
  | OpLines m e => snd <$> snapshot_lines sb m e
  end.

Fixpoint run (sb : Scrollback) (ops : list Op) : option Scrollback :=
  match ops with
  | [] => Some sb
  | o :: ops' => sb' ← step sb o; run sb' ops'
  end.

(** Everything ever written, and what was written since the last [clear]. *)
Fixpoint stream (ops : list Op) : list Z :=
  match ops with
  | [] => []
  | OpPush d :: ops' => d ++ stream ops'
  | _ :: ops' => stream ops'
  end.

Definition since_clear (acc : list Z) (o : Op) : list Z :=
  match o with OpPush d => acc ++ d | OpClear => [] | OpLines _ _ => acc end.

Definition visible (ops : list Op) : list Z := foldl since_clear [] ops.

(** The lines of a byte string, each with its terminating newline; the last
    one has none and may be empty. *)
Fixpoint split_lines (l : list Z) : list (list Z) :=
  match l with
  | [] => [[]]
  | b :: l' =>
      if b =? NEWLINE then [b] :: split_lines l'
      else match split_lines l' with
           | h :: t => (b :: h) :: t
           | [] => [[b]]
           end
  end.

(** Inside [p], an operating-system command opens at [i]; a BEL or a string
    terminator ends at [j]. *)
Definition osc_opener (p : list Z) (i : nat) : Prop :=
  p !! i = Some ESC /\ p !! S i = Some RBRACKET.

Definition osc_terminator (p : list Z) (j : nat) : Prop :=
  p !! j = Some BEL \/
  exists j', j = S j' /\ p !! j' = Some ESC /\ p !! j = Some BACKSLASH.

(** ** Invariant *)

Record wf (sb : Scrollback) : Prop := mkWf {
  wf_cap : 0 <= len (buf sb) <= max_bytes sb;
  wf_offset : len (buf sb) <= stream_offset sb <= u64_max;
  wf_newlines :
    newlines sb = newline_positions (stream_offset sb - len (buf sb)) (buf sb);
  wf_ink : non_whitespace_bytes sb = count is_ink (buf sb) }.

(** ** The newline index *)

Lemma newline_positions_app a l k :
  newline_positions a (l ++ k) =
  newline_positions a l ++ newline_positions (a + len l) k.
Proof.
  revert a. induction l as [|b l IH]; intros a; simpl.
  - by rewrite len_nil, Z.add_0_r.
  - rewrite IH, len_cons. replace (a + 1 + len l) with (a + (1 + len l)) by lia.
    by destruct (b =? NEWLINE).
Qed.

Lemma newline_positions_ge a l : Forall (fun o => a <= o) (newline_positions a l).
Proof.
  revert a. induction l as [|b l IH]; intros a; simpl; [constructor|].
  assert (Forall (fun o => a <= o) (newline_positions (a + 1) l)).
  { eapply Forall_impl; [apply IH|]. simpl. lia. }
  destruct (b =? NEWLINE); [constructor; [lia|]|]; done.
Qed.

Lemma newline_positions_lt a l :
  Forall (fun o => o < a + len l) (newline_positions a l).
Proof.
  revert a. induction l as [|b l IH]; intros a; simpl; [constructor|].
  rewrite len_cons. pose proof (len_nonneg l).
  assert (Forall (fun o => o < a + (1 + len l)) (newline_positions (a + 1) l)).
  { eapply Forall_impl; [apply IH|]. simpl. lia. }
  destruct (b =? NEWLINE); [constructor; [lia|]|]; done.
Qed.

Lemma pop_newlines_below s l k :
  Forall (fun o => o < s) l -> pop_newlines s (l ++ k) = pop_newlines s k.
Proof.
  induction 1 as [|o l Ho _ IH]; simpl; [done|].
  simpl in Ho. by solve_tests.
Qed.

Lemma pop_newlines_above s l : Forall (fun o => s <= o) l -> pop_newlines s l = l.
Proof.
  destruct 1 as [|o l Ho _]; simpl; [done|].
  simpl in Ho. by solve_tests.
Qed.

(** Dropping the evicted prefix from the index is re-indexing the suffix. *)
Lemma pop_newlines_zdrop a n l :
  0 <= n <= len l ->
  pop_newlines (a + n) (newline_positions a l) = newline_positions (a + n) (zdrop n l).
Proof.
  intros Hn. rewrite <- (ztake_zdrop n l) at 1. rewrite newline_positions_app.
  assert (len (ztake n l) = n) as Hlen by (rewrite len_ztake; lia).
  rewrite pop_newlines_below, Hlen.
  - apply pop_newlines_above, newline_positions_ge.
  - pose proof (newline_positions_lt a (ztake n l)) as H. by rewrite Hlen in H.
Qed.

(** ** [push] *)

Lemma wf_new max : 0 <= max -> wf (new max).
Proof. intros. split; simpl; unfold u64_max; rewrite ?len_nil; try done; lia. Qed.

Lemma wf_clear sb : wf sb -> wf (clear sb).
Proof.
  intros [Hc Ho _ _]. split; simpl; rewrite ?len_nil; try done; lia.
Qed.

Definition tail_of (sb : Scrollback) (data : list Z) : list Z :=
  lastn (max_bytes sb) data.

Lemma tail_of_eq sb data :
  (if max_bytes sb <? len data then zdrop (len data - max_bytes sb) data else data) =
  tail_of sb data.
Proof.
  unfold tail_of. destruct (max_bytes sb <? len data) eqn:E; case_tests; [done|].
  by rewrite lastn_all.
Qed.

(** What the ring keeps is the end of what it held followed by the data. *)
Lemma push_kept sb data :
  0 <= max_bytes sb ->
  lastn (max_bytes sb) (buf sb ++ tail_of sb data) =
  lastn (max_bytes sb) (buf sb ++ data).
Proof.
  intros Hm. unfold tail_of, lastn. rewrite !len_app, !zdrop_app, len_zdrop.
  pose proof (len_nonneg (buf sb)). pose proof (len_nonneg data).
  destruct (Z.le_gt_cases (len data) (max_bytes sb)).
  - rewrite (zdrop_le0 (len data - _)) by lia. repeat f_equal; lia.
  - rewrite !(zdrop_all _ (buf sb)) by lia. rewrite zdrop_le0 by lia. simpl. f_equal. lia.
Qed.

Lemma push_newlines sb data :
  wf sb -> stream_offset sb + len data <= u64_max ->
  let kept := lastn (max_bytes sb) (buf sb ++ data) in
  pop_newlines (stream_offset sb + len data - len kept)
    (newlines sb ++ newline_positions
       (stream_offset sb + (len data - len (tail_of sb data))) (tail_of sb data)) =
  newline_positions (stream_offset sb + len data - len kept) kept.
Proof.
  intros [Hc Ho Hn _] Hfit kept. rewrite Hn.
  pose proof (len_nonneg data). unfold tail_of.
  destruct (Z.le_gt_cases (len data) (max_bytes sb)) as [Hle|Hgt].
  - rewrite lastn_all by done. rewrite Z.sub_diag, Z.add_0_r.
    replace (stream_offset sb) with
      (stream_offset sb - len (buf sb) + len (buf sb)) at 3 by lia.
    rewrite <- newline_positions_app.
    set (n := Z.max 0 (len (buf sb) + len data - max_bytes sb)).
    assert (kept = zdrop n (buf sb ++ data)) as ->.
    { unfold kept, lastn, n. rewrite len_app.
      destruct (Z.le_gt_cases 0 (len (buf sb) + len data - max_bytes sb)).
      - f_equal. lia.
      - rewrite !zdrop_le0 by lia. done. }
    rewrite len_zdrop, len_app.
    replace (stream_offset sb + len data - _)
      with (stream_offset sb - len (buf sb) + n) by lia.
    apply pop_newlines_zdrop. rewrite len_app. lia.
  - assert (kept = lastn (max_bytes sb) data) as Hk.
    { unfold kept, lastn. rewrite len_app, zdrop_app, zdrop_all by lia.
      simpl. f_equal. lia. }
    rewrite Hk, len_lastn by lia.
    replace (stream_offset sb + (len data - Z.min (max_bytes sb) (len data)))
      with (stream_offset sb + len data - Z.min (max_bytes sb) (len data)) by lia.
    rewrite pop_newlines_below.
    + apply pop_newlines_above, newline_positions_ge.
    + eapply Forall_impl; [apply newline_positions_lt|]. simpl. lia.
Qed.

(** [push] on every branch: the panic is exactly the [u64] overflow of the
    stream position, and otherwise the ring keeps the newest bytes. *)
Lemma push_ok sb data :
  wf sb -> stream_offset sb + len data <= u64_max ->
  push sb data = Some
    (mkScrollback (lastn (max_bytes sb) (buf sb ++ data)) (max_bytes sb)
       (newline_positions
          (stream_offset sb + len data - len (lastn (max_bytes sb) (buf sb ++ data)))
          (lastn (max_bytes sb) (buf sb ++ data)))
       (stream_offset sb + len data)
       (count is_ink (lastn (max_bytes sb) (buf sb ++ data)))
       (line_snapshot_calls sb) (line_snapshot_scanned_bytes sb)).
Proof.
  intros Hwf Hfit. pose proof (push_newlines sb data Hwf Hfit) as Hnl. simpl in Hnl.
  destruct Hwf as [Hc Ho Hn Hi]. unfold push, checked_add.
  pose proof (len_nonneg data). pose proof (len_nonneg (buf sb)).
  solve_test. simpl. destruct (max_bytes sb =? 0) eqn:Em; case_tests.
  - assert (buf sb = []) as Hb by (apply len_zero_nil; lia).
    assert (lastn (max_bytes sb) (buf sb ++ data) = []) as ->.
    { unfold lastn. rewrite len_app, Hb. apply zdrop_all. simpl. rewrite len_nil. lia. }
    rewrite Hn, Hi, Hb. done.
  - rewrite tail_of_eq.
    rewrite drain_overflow, push_kept by lia.
    set (kept := lastn (max_bytes sb) (buf sb ++ data)) in *.
    set (grown := buf sb ++ tail_of sb data).
    assert (non_whitespace_bytes sb + count is_ink (tail_of sb data) =
            count is_ink (ztake (saturating_sub (len grown) (max_bytes sb)) grown) +
            count is_ink kept) as Hink.
    { rewrite Hi, <- count_app. fold grown. unfold kept.
      rewrite <- push_kept by lia. fold grown. rewrite <- zdrop_overflow, <- count_app, ztake_zdrop. done. }
    assert (len kept <= stream_offset sb + len data) as Hk.
    { unfold kept. rewrite len_lastn, len_app by lia. lia. }
    destruct (0 <? saturating_sub (len grown) (max_bytes sb)) eqn:E; case_tests.
    + unfold checked_sub at 1. pose proof (count_nonneg is_ink kept).
      solve_test. simpl. unfold checked_sub. solve_test. simpl. rewrite Hnl. do 2 f_equal. lia.
    + rewrite ztake_le0 in Hink by lia. unfold count at 2 in Hink. simpl in Hink.
      rewrite len_nil in Hink. simpl. unfold checked_sub.
      solve_test. simpl. rewrite Hnl. do 2 f_equal. lia.
Qed.

Lemma push_panics sb data :
  u64_max < stream_offset sb + len data -> push sb data = None.
Proof.
  intros H. unfold push, checked_add. by solve_test.
Qed.

Lemma push_wf sb data sb' : wf sb -> push sb data = Some sb' -> wf sb'.
Proof.
  intros Hwf Hp.
  destruct (Z.le_gt_cases (stream_offset sb + len data) u64_max) as [Hfit|Hfit];
    [|by rewrite push_panics in Hp].
  rewrite push_ok in Hp by done. injection Hp as <-.
  destruct Hwf as [Hc Ho _ _]. pose proof (len_nonneg data). split; simpl; try done.
  - rewrite len_lastn, len_app by lia. lia.
  - rewrite len_lastn, len_app by lia. lia.
Qed.

(** ** Lines *)

Lemma concat_split_lines l : concat (split_lines l) = l.
Proof.
  induction l as [|b l IH]; simpl; [done|].
  destruct (b =? NEWLINE); simpl; [by rewrite IH|].
  destruct (split_lines l) as [|h t]; simpl in *; by rewrite <- IH.
Qed.

Lemma split_lines_cons l : exists h t, split_lines l = h :: t.
Proof.
  destruct l as [|b l]; simpl; [eauto|].
  destruct (b =? NEWLINE); [eauto|]. destruct (split_lines l); eauto.
Qed.

Lemma length_split_lines a l :
  length (split_lines l) = S (length (newline_positions a l)).
Proof.
  revert a. induction l as [|b l IH]; intros a; simpl; [done|].
  specialize (IH (a + 1)). destruct (b =? NEWLINE); simpl; [by rewrite IH|].
  destruct (split_lines l); simpl in *; lia.
Qed.

(** The [k]-th newline is the last byte of the [k]-th line. *)
Lemma newline_positions_lookup a l k :
  (k < length (newline_positions a l))%nat ->
  newline_positions a l !! k =
  Some (a + len (concat (take (S k) (split_lines l))) - 1).
Proof.
  revert a k. induction l as [|b l IH]; intros a k; simpl; [lia|].
  destruct (b =? NEWLINE); simpl.
  - destruct k as [|k]; intros Hk; simpl.
    + autorewrite with len. f_equal. lia.
    + rewrite IH by lia. autorewrite with len. f_equal. lia.
  - intros Hk. rewrite IH by lia. destruct (split_lines_cons l) as (h & t & ->).
    simpl. autorewrite with len. f_equal. lia.
Qed.

(** Where line [k] starts: after the bytes of the lines before it. *)
Definition line_offset (l : list Z) (k : Z) : Z :=
  len (concat (ztake k (split_lines l))).

Lemma line_offset_mono l j k :
  0 <= j <= k -> 0 <= line_offset l j <= line_offset l k.
Proof.
  intros [Hj Hk]. unfold line_offset. split; [apply len_nonneg|].
  rewrite (ztake_split j k), concat_app, len_app by lia.
  pose proof (len_nonneg (concat (ztake (k - j) (zdrop j (split_lines l))))). lia.
Qed.

Lemma line_offset_le l k : line_offset l k <= len l.
Proof.
  unfold line_offset. rewrite <- (concat_split_lines l) at 2.
  rewrite <- (ztake_zdrop k (split_lines l)) at 2. rewrite concat_app, len_app.
  pose proof (len_nonneg (concat (zdrop k (split_lines l)))). lia.
Qed.

Lemma line_start_offset sb line :
  wf sb -> 0 <= line <= len (split_lines (buf sb)) ->
  line_start sb line (stream_offset sb - len (buf sb)) =
  Some (line_offset (buf sb) line).
Proof.
  intros [_ Ho Hn _] Hline. unfold line_start, line_offset.
  set (a := stream_offset sb - len (buf sb)) in *.
  assert (len (split_lines (buf sb)) = 1 + len (newlines sb)) as Hl.
  { unfold len. rewrite Hn, (length_split_lines a). lia. }
  destruct (line =? 0) eqn:E0; case_tests; [by rewrite ztake_le0 by lia|].
  destruct (len (newlines sb) <? line) eqn:E1; case_tests.
  - rewrite ztake_all, concat_split_lines by lia. done.
  - unfold znth. solve_test. rewrite Hn, newline_positions_lookup.
    + simpl. unfold checked_sub, ztake. replace (S (Z.to_nat (line - 1))) with (Z.to_nat line) by lia.
      pose proof (len_nonneg (concat (take (Z.to_nat line) (split_lines (buf sb))))).
      solve_test. f_equal. lia.
    + unfold len in *. rewrite <- Hn. lia.
Qed.

(** The bytes between two line starts are the lines between them. *)
Lemma slice_lines l j k :
  0 <= j <= k -> k <= len (split_lines l) ->
  slice l (line_offset l j) (line_offset l k) =
  Some (concat (ztake (k - j) (zdrop j (split_lines l)))).
Proof.
  intros Hjk Hk. set (L := split_lines l).
  assert (l = concat (ztake j L) ++ concat (ztake (k - j) (zdrop j L)) ++ concat (zdrop k L)) as Hl.
  { rewrite <- (concat_split_lines l) at 1. fold L. rewrite <- !concat_app. f_equal.
    rewrite <- (ztake_zdrop j L) at 1. f_equal.
    rewrite <- (ztake_zdrop (k - j) (zdrop j L)) at 1. f_equal.
    rewrite zdrop_zdrop by lia. f_equal. lia. }
  assert (line_offset l k = line_offset l j + len (concat (ztake (k - j) (zdrop j L)))) as ->.
  { unfold line_offset. fold L. rewrite <- len_app, <- concat_app. do 2 f_equal.
    by apply ztake_split. }
  unfold line_offset at 1 2. fold L. rewrite Hl at 1. apply slice_app3.
Qed.

(** ** The escape-sequence scan *)

(** What the scan must report about the prefix [p] before a window. *)
Definition osc_result (p : list Z) (r : option Z) : Prop :=
  match r with
  | None => forall i, osc_opener p i -> exists j, (i < j)%nat /\ osc_terminator p j
  | Some z => exists i : nat, z = Z.of_nat i /\ osc_opener p i /\
      (forall j, (i <= j)%nat -> ~ osc_terminator p j) /\
      (forall j, (i < j)%nat -> ~ osc_opener p j)
  end.

Lemma osc_terminator_test (p : list Z) i b :
  p !! i = Some b ->
  osc_terminator p i <->
  (b =? BEL) || match i with
                | O => false
                | S i' => bool_decide (p !! i' = Some ESC) && (b =? BACKSLASH)
                end = true.
Proof.
  intros Hb. unfold osc_terminator. rewrite Hb, orb_true_iff, Z.eqb_eq.
  destruct i as [|i']; [naive_solver|].
  rewrite andb_true_iff, bool_decide_eq_true, Z.eqb_eq. naive_solver.
Qed.

Lemma osc_opener_test (l : list Z) n i b :
  l !! i = Some b -> (i < n)%nat ->
  osc_opener (take n l) i <->
  (Z.of_nat i + 1 <? Z.of_nat n) && (b =? ESC)
    && bool_decide (l !! S i = Some RBRACKET) = true.
Proof.
  intros Hb Hi. unfold osc_opener.
  rewrite (lookup_take_lt l n i) by done. rewrite Hb, !andb_true_iff, Z.ltb_lt, Z.eqb_eq, bool_decide_eq_true.
  split.
  - intros [[= ->] H2]. apply lookup_take_Some in H2 as [H2 ?]. split_and!; [lia|done|done].
  - intros [[H1 ->] H2]. split; [done|]. apply lookup_take_Some. split; [done|lia].
Qed.

Lemma osc_scan_spec (l : list Z) n index scanned :
  (n <= length l)%nat -> (index <= n)%nat ->
  (forall j, (index <= j)%nat -> ~ osc_terminator (take n l) j) ->
  (forall j, (index <= j)%nat -> ~ osc_opener (take n l) j) ->
  exists r s, osc_scan l (Z.of_nat n) index scanned = Some (r, s) /\
    scanned <= s <= scanned + Z.of_nat index /\ osc_result (take n l) r.
Proof.
  intros Hn. revert scanned. induction index as [|i IH]; intros scanned Hi Ht Ho; simpl.
  - exists None, scanned. split_and!; [done|lia|lia|]. intros i Hop. exfalso. eapply (Ho i); [lia|done].
  - destruct (lookup_lt_is_Some_2 l i ltac:(lia)) as [b Hb]. rewrite Hb. simpl.
    assert (take n l !! i = Some b) as Hpb by (rewrite lookup_take_lt; [done|lia]).
    assert (forall i', i = S i' -> take n l !! i' = l !! i') as Hprev
      by (intros i' ->; apply lookup_take_lt; lia).
    pose proof (osc_terminator_test _ _ _ Hpb) as Htest.
    assert ((match i with
             | O => false
             | S i' => bool_decide (take n l !! i' = Some ESC) && (b =? BACKSLASH) end) =
            (match i with
             | O => false
             | S i' => bool_decide (l !! i' = Some ESC) && (b =? BACKSLASH) end)) as Hst
      by (destruct i as [|i']; [done|]; by rewrite (Hprev i' eq_refl)).
    rewrite Hst in Htest. destruct (_ || _) eqn:E1.
    { exists None, (scanned + 1). split_and!; [done|lia|lia|].
      pose proof (proj2 Htest eq_refl) as Hterm. intros k Hk.
      exists i. split; [|done]. destruct (Nat.lt_trichotomy k i) as [|[->|]]; [done| |].
      - exfalso. destruct Hk as [Hk _]. rewrite Hpb in Hk. injection Hk as ->.
        destruct Hterm as [Hx|(j' & _ & _ & Hx)]; rewrite Hpb in Hx; done.
      - exfalso. eapply (Ho k); [lia|done]. }
    assert (~ osc_terminator (take n l) i) as Hnt by (rewrite Htest; done).
    pose proof (osc_opener_test l n i b Hb ltac:(lia)) as Hop.
    destruct (_ && _) eqn:E2.
    + exists (Some (Z.of_nat i)), (scanned + 1). split_and!; [done|lia|lia|].
      exists i. split_and!; [done|by apply Hop| |].
      * intros j Hj. destruct (decide (j = i)) as [->|]; [done|]. apply Ht. lia.
      * intros j Hj. apply Ho. lia.
    + destruct (IH (scanned + 1)) as (r & s & Hrs & ? & ?); [lia| | |].
      * intros j Hj. destruct (decide (j = i)) as [->|]; [done|]. apply Ht. lia.
      * intros j Hj. destruct (decide (j = i)) as [->|]; [by rewrite Hop|]. apply Ho. lia.
      * exists r, s. split_and!; [done|lia|lia|done].
Qed.

Lemma open_osc_start_total sb byte_start :
  0 <= byte_start <= len (buf sb) ->
  exists r s, open_osc_start sb byte_start = Some (r, s) /\
    0 <= s <= byte_start /\ osc_result (ztake byte_start (buf sb)) r.
Proof.
  intros Hb. unfold open_osc_start.
  destruct (osc_scan_spec (buf sb) (Z.to_nat byte_start) (Z.to_nat byte_start) 0)
    as (r & s & H & Hs & Hr).
  - unfold len in Hb. lia.
  - lia.
  - intros j Hj [H|(j' & -> & _ & H)]; apply lookup_take_Some in H; lia.
  - intros j Hj [H _]. apply lookup_take_Some in H; lia.
  - exists r, s. rewrite Z2Nat.id in H by lia. split_and!; [done|lia|lia|done].
Qed.

(** ** Line windows *)

Definition total_lines (sb : Scrollback) : Z :=
  match buf sb with [] => 0 | _ => len (split_lines (buf sb)) end.

Lemma snapshot_lines_ok sb max_lines end_line :
  wf sb -> 0 <= max_lines -> (forall e, end_line = Some e -> 0 <= e) ->
  let end_ := Z.min (default (total_lines sb) end_line) (total_lines sb) in
  let start := saturating_sub end_ max_lines in
  let before := concat (ztake start (split_lines (buf sb))) in
  let window := concat (ztake (end_ - start) (zdrop start (split_lines (buf sb)))) in
  exists opener scanned,
    osc_result before opener /\
    snapshot_lines sb max_lines end_line =
    Some (mkLineSnapshot
            (match opener with
             | Some i => zdrop i before ++ window
             | None => window end)
            (total_lines sb) start end_ (0 <? count is_ink (buf sb)),
          record_snapshot sb scanned).
Proof.
  intros Hwf Hm He end_ start before window. pose proof Hwf as [Hc Ho Hn Hi].
  assert (match buf sb with [] => 0 | _ => len (newlines sb) + 1 end = total_lines sb) as Ht.
  { unfold total_lines. destruct (buf sb) eqn:Eb; [done|]. rewrite Hn. unfold len.
    rewrite (length_split_lines (stream_offset sb - Z.of_nat (length (z :: l)))). lia. }
  assert (0 <= total_lines sb <= len (split_lines (buf sb))) as Hb.
  { unfold total_lines. pose proof (len_nonneg (split_lines (buf sb))).
    destruct (buf sb); lia. }
  assert (0 <= start <= end_ /\ end_ <= len (split_lines (buf sb))) as [Hse Hel].
  { unfold start, end_, saturating_sub. destruct end_line as [e|]; simpl; [specialize (He e eq_refl)|]; lia. }
  unfold snapshot_lines. rewrite Ht. fold end_ start.
  unfold checked_sub at 1. solve_test. simpl.
  rewrite !line_start_offset by (done || lia). simpl.
  pose proof (line_offset_mono (buf sb) start end_ Hse) as Hmono.
  pose proof (line_offset_le (buf sb) end_) as Hle.
  destruct (open_osc_start_total sb (line_offset (buf sb) start)) as (r & s & Hr & Hs & Hres); [lia|].
  rewrite Hr. simpl.
  assert (ztake (line_offset (buf sb) start) (buf sb) = before) as Hbefore.
  { unfold line_offset. fold before. rewrite <- (concat_split_lines (buf sb)) at 1.
    rewrite <- (ztake_zdrop start (split_lines (buf sb))), concat_app. fold before.
    rewrite ztake_app, ztake_all, ztake_le0 by lia. apply app_nil_r. }
  rewrite Hbefore in Hres. exists r, s. split; [done|].
  pose proof (slice_lines (buf sb) start end_ Hse Hel) as Hw. fold window in Hw.
  unfold copy_range. rewrite Hi. destruct r as [i|]; simpl; [|by rewrite Hw].
  destruct Hres as (k & -> & [Hop _] & _).
  assert (Z.of_nat k < line_offset (buf sb) start) as Hk.
  { apply lookup_lt_Some in Hop. unfold line_offset. fold before. unfold len. lia. }
  apply slice_Some in Hw as (_ & _ & Hw).
  rewrite slice_ok by lia. simpl. do 4 f_equal. rewrite Hw, <- Hbefore.
  rewrite (ztake_split (line_offset (buf sb) start - Z.of_nat k)) by lia. f_equal.
  - unfold ztake, zdrop. rewrite take_drop_commute. do 2 f_equal. lia.
  - rewrite zdrop_zdrop by lia. f_equal; [lia|]. f_equal. lia.
Qed.

(** ** Refinement of the byte stream *)

Definition valid_op (o : Op) : Prop :=
  match o with
  | OpLines m e => 0 <= m /\ forall k, e = Some k -> 0 <= k
  | _ => True
  end.

(** The simulation relation: the ring against the bytes seen since the last
    clear and the number of bytes ever pushed. *)
Definition simulates (max : Z) (sb : Scrollback) (seen : list Z) (pushed : Z) : Prop :=
  wf sb /\ max_bytes sb = max /\ buf sb = lastn max seen /\ stream_offset sb = pushed.

Lemma simulates_step max sb seen pushed o :
  0 <= max -> simulates max sb seen pushed -> valid_op o ->
  pushed + len (stream [o]) <= u64_max ->
  exists sb', step sb o = Some sb' /\
    simulates max sb' (since_clear seen o) (pushed + len (stream [o])).
Proof.
  intros Hmax (Hwf & <- & Hb & <-) Hv Hfit. destruct o as [d| |m e]; simpl in *.
  - rewrite app_nil_r in *. pose proof (push_ok sb d Hwf Hfit) as Hp.
    rewrite Hp. eexists. split; [done|]. split; [by eapply push_wf|]. simpl.
    rewrite Hb, lastn_app_lastn by lia. done.
  - rewrite len_nil, Z.add_0_r. eexists. split; [done|]. split; [by apply wf_clear|].
    split_and!; [done| |done]. simpl. by rewrite lastn_nil.
  - rewrite len_nil, Z.add_0_r in *. destruct Hv as [Hm He].
    destruct (snapshot_lines_ok sb m e Hwf Hm He) as (r & s & _ & ->).
    eexists. split; [done|]. split; [|done]. by destruct Hwf.
Qed.

Lemma stream_cons o ops : stream (o :: ops) = stream [o] ++ stream ops.
Proof. destruct o; simpl; by rewrite ?app_nil_r. Qed.

Lemma simulates_run max ops sb seen pushed :
  0 <= max -> simulates max sb seen pushed -> Forall valid_op ops ->
  pushed + len (stream ops) <= u64_max ->
  exists sb', run sb ops = Some sb' /\
    simulates max sb' (foldl since_clear seen ops) (pushed + len (stream ops)).
Proof.
  intros Hmax. revert sb seen pushed.
  induction ops as [|o ops IH]; intros sb seen pushed Hsim Hv Hfit.
  - exists sb. simpl. by rewrite len_nil, Z.add_0_r.
  - rewrite stream_cons, len_app in Hfit. apply Forall_cons in Hv as [Hvo Hv].
    pose proof (len_nonneg (stream ops)).
    destruct (simulates_step max sb seen pushed o) as (sb1 & H1 & Hsim1); [done..|lia|].
    destruct (IH sb1 _ _ Hsim1 Hv) as (sb2 & H2 & Hsim2); [lia|].
    exists sb2. cbn [run]. rewrite H1. split; [done|]. cbn [foldl].
    rewrite stream_cons, len_app, Z.add_assoc. done.
Qed.

Lemma simulates_new max : 0 <= max -> simulates max (new max) [] 0.
Proof.
  intros. split; [by apply wf_new|]. split_and!; [done| |done].
  simpl. by rewrite lastn_nil.
Qed.

(** What is visible is the end of everything ever written. *)
Lemma visible_suffix_from acc pre ops :
  exists p, pre ++ acc ++ stream ops = p ++ foldl since_clear acc ops.
Proof.
  revert acc pre. induction ops as [|o ops IH]; intros acc pre; simpl.
  - exists pre. by rewrite app_nil_r.
  - destruct o as [d| |m e]; simpl.
    + rewrite (app_assoc acc). apply IH.
    + rewrite app_assoc. apply (IH [] (pre ++ acc)).
    + apply IH.
Qed.

Lemma visible_suffix ops : exists p, stream ops = p ++ visible ops.
Proof. apply (visible_suffix_from [] [] ops). Qed.

(** [C30] Any sequence of pushes, clears and line reads on a ring of budget
    [max], however interleaved, runs without a panic as long as fewer than
    2^64 bytes were written, and leaves exactly the last [max] bytes written
    since the last clear, an absolute stream position that counts every byte
    ever pushed (evicted and cleared ones too), and the ring's invariant: the
    newline index and the ink counter are those of the retained bytes. *)
Theorem scrollback_refines_stream max ops :
  0 <= max -> Forall valid_op ops -> len (stream ops) <= u64_max ->
  exists sb, run (new max) ops = Some sb /\ wf sb /\
    buf sb = lastn max (visible ops) /\ stream_offset sb = len (stream ops).
Proof.
  intros Hmax Hv Hfit.
  destruct (simulates_run max ops (new max) [] 0) as (sb & Hr & Hwf & _ & Hb & Ho);
    [done|by apply simulates_new|done|lia|].
  exists sb. by rewrite Z.add_0_l in Ho.
Qed.

Definition ops_example : list Op :=
  [OpPush [65; 66]; OpPush [67; 10; 69; 70]; OpLines 1 None; OpPush [71]].

Lemma ops_example_valid : Forall valid_op ops_example.
Proof. repeat constructor; try lia. intros k [=]. Qed.

Lemma scrollback_refines_stream_witness :
  exists sb, run (new 4) ops_example = Some sb /\ wf sb /\
    buf sb = lastn 4 (visible ops_example) /\ stream_offset sb = 7.
Proof.
  apply (scrollback_refines_stream 4 ops_example); [lia|apply ops_example_valid|].
  vm_compute. discriminate.
Defined.

(** A positioned snapshot is addressed exactly: after any run, the chunk
    returned for a budget [n] holds the bytes of the whole stream between the
    chunk's absolute [start_offset] and [end_offset], ends at the stream's
    end, and is as long as the budget and the retained bytes allow. *)
Theorem positioned_snapshot_exact max ops sb n :
  0 <= max -> 0 <= n -> Forall valid_op ops -> len (stream ops) <= u64_max ->
  run (new max) ops = Some sb ->
  exists c, positioned_snapshot sb n = Some c /\
    slice (stream ops) (oc_start_offset c) (oc_end_offset c) = Some (oc_bytes c) /\
    oc_end_offset c = len (stream ops) /\
    len (oc_bytes c) = Z.min n (len (buf sb)).
Proof.
  intros Hmax Hn Hv Hfit Hrun.
  destruct (simulates_run max ops (new max) [] 0) as (sb' & Hr & Hwf & _ & Hb & Ho);
    [done|by apply simulates_new|done|lia|].
  rewrite Hrun in Hr. injection Hr as <-. rewrite Z.add_0_l in Ho.
  destruct Hwf as [Hc Hoff _ _]. 
  assert (exists q, stream ops = q ++ buf sb) as [q Hq].
  { destruct (visible_suffix ops) as [p Hp].
    exists (p ++ ztake (len (visible ops) - max) (visible ops)).
    rewrite Hb, Hp, <- app_assoc. f_equal. symmetry. apply ztake_zdrop. }
  assert (stream_offset sb = len q + len (buf sb)) as Hoq by (rewrite Ho, Hq, len_app; done).
  pose proof (len_nonneg q).
  unfold positioned_snapshot, snapshot_tail, copy_range, saturating_sub.
  rewrite slice_ok by lia. simpl. unfold checked_sub. rewrite len_ztake, len_zdrop.
  solve_test. simpl. eexists. split; [done|]. simpl. rewrite len_ztake, len_zdrop.
  split_and!; [|done|lia].
  rewrite slice_ok by lia. f_equal. rewrite ztake_all by (rewrite len_zdrop; lia).
  rewrite ztake_all by (rewrite len_zdrop; lia).
  rewrite Hq, zdrop_app, zdrop_all by lia. simpl. f_equal. lia.
Qed.

Lemma positioned_snapshot_exact_witness :
  exists sb c, run (new 4) ops_example = Some sb /\
    positioned_snapshot sb 2 = Some c /\
    slice (stream ops_example) (oc_start_offset c) (oc_end_offset c) = Some (oc_bytes c).
Proof.
  eexists. destruct (positioned_snapshot_exact 4 ops_example
    (mkScrollback [10; 69; 70; 71] 4 [3] 7 3 1 2) 2) as (c & Hc & Hs & _);
    [lia|lia|apply ops_example_valid|vm_compute; discriminate|vm_compute; reflexivity|].
  exists c. split; [vm_compute; reflexivity|]. done.
Defined.

(** The byte budget overflows only where the code says it panics: on a
    well-formed ring, [push] fails exactly when the stream position would
    pass [u64::MAX], and otherwise the ring is within its budget. *)
Theorem push_panics_iff_offset_overflow sb data :
  wf sb ->
  (push sb data = None <-> u64_max < stream_offset sb + len data) /\
  (forall sb', push sb data = Some sb' -> len (buf sb') <= max_bytes sb').
Proof.
  intros Hwf. split; [split|].
  - intros Hp. destruct (Z.le_gt_cases (stream_offset sb + len data) u64_max); [|done].
    by rewrite push_ok in Hp.
  - apply push_panics.
  - intros sb' Hp. apply push_wf in Hp as [Hc _ _ _]; [lia|done].
Qed.

Lemma push_panics_iff_offset_overflow_witness :
  let sb := mkScrollback [] 4 [] u64_max 0 0 0 in
  push sb [65] = None /\ push sb [] <> None.
Proof.
  assert (wf (mkScrollback [] 4 [] u64_max 0 0 0)) as Hwf
    by (split; unfold len, u64_max; simpl; done || lia).
  split.
  - apply (push_panics_iff_offset_overflow _ [65] Hwf). vm_compute. reflexivity.
  - rewrite (proj1 (push_panics_iff_offset_overflow _ [] Hwf)). vm_compute. discriminate.
Defined.

(** A line window of a well-formed ring never panics and is exact: it
    returns the requested run of raw lines ([max_lines] lines before
    [end_line], both clamped to what is retained), byte for byte, preceded by
    the unterminated operating-system command the boundary would otherwise
    cut — the last ESC-] opener with no BEL or ST after it — and by nothing
    when every opener before the window is terminated. *)
Theorem snapshot_lines_window sb max_lines end_line :
  wf sb -> 0 <= max_lines -> (forall e, end_line = Some e -> 0 <= e) ->
  exists snap sb' opener,
    snapshot_lines sb max_lines end_line = Some (snap, sb') /\
    let L := split_lines (buf sb) in
    let before := concat (ztake (ls_start_line snap) L) in
    osc_result before opener /\
    ls_bytes snap =
      match opener with Some i => zdrop i before | None => [] end ++
      concat (ztake (ls_end_line snap - ls_start_line snap) (zdrop (ls_start_line snap) L)) /\
    ls_end_line snap = Z.min (default (total_lines sb) end_line) (total_lines sb) /\
    line_count snap = Z.min max_lines (ls_end_line snap) /\
    buf sb' = buf sb.
Proof.
  intros Hwf Hm He.
  destruct (snapshot_lines_ok sb max_lines end_line Hwf Hm He) as (opener & s & Hres & ->).
  eexists _, _, opener. split; [done|]. cbn zeta. simpl. split_and!; [done| |done| |done].
  - by destruct opener.
  - unfold line_count. simpl.
    set (e := Z.min _ (total_lines sb)). assert (0 <= e).
    { unfold e. assert (0 <= total_lines sb) by (unfold total_lines; destruct (buf sb); auto with intentd lia).
      destruct end_line as [k|]; simpl; [specialize (He k eq_refl)|]; lia. }
    unfold saturating_sub. lia.
Qed.

Lemma snapshot_lines_window_witness :
  exists snap sb' opener,
    let sb := mkScrollback [27; 93; 10; 65; 10; 66] 8 [2; 4] 6 4 0 0 in
    snapshot_lines sb 1 (Some 2) = Some (snap, sb') /\
    ls_bytes snap =
      match opener with
      | Some i => zdrop i (concat (ztake (ls_start_line snap) (split_lines (buf sb))))
      | None => [] end ++ [65; 10] /\ opener = Some 0.
Proof.
  set (sb := mkScrollback [27; 93; 10; 65; 10; 66] 8 [2; 4] 6 4 0 0).
  destruct (snapshot_lines_window sb 1 (Some 2)) as (snap & sb' & op & Hs & Hop & Hb & _).
  - split; unfold len, u64_max; simpl; done || lia.
  - lia.
  - intros e [= <-]. lia.
  - exists snap, sb', op. split; [done|].
    vm_compute in Hs. injection Hs as Hsnap Hsb. subst snap.
    assert (op = Some 0) as ->.
    { destruct op as [z|].
      - destruct Hop as (i & -> & [Hi _] & _). vm_compute in Hi.
        destruct i as [|[|[|i]]]; try done.
      - destruct (Hop 0%nat) as (j & _ & [Hj|(j' & -> & _ & Hj)]); [split; reflexivity| |];
        vm_compute in Hj; [destruct j as [|[|[|j]]]|destruct j' as [|[|j']]]; done. }
    split; [exact Hb|done].
Defined.
