(* ===== verification/Conflate.v ===== *)
(** * Egress conflation ([crates/intent-transport/src/conflate.rs])

    The ordered pending-frame buffer in front of a slow connection and the
    outbound lane it drains into.  The buffer is proved against the interface
    [ConflateSpec] of its items; [ConflateItems] discharges it for bus events
    and chat deltas, [ChatForwarder] uses both. *)
From stdpp Require Import prelude strings gmap sorting.
From S2P Require Import Prelude Json.

Definition MAX_PENDING_ENTRIES : Z := 256.
Definition MAX_PENDING_BYTES : Z := 8 * 1024 * 1024.

Definition AGENT_STREAM_ACTIVITY : string := "agent:stream:activity".
Definition CHAT_STREAM_DELTA : string := "chat:stream:delta".
Definition FILE_PREFIX : string := "file:".
Definition TERMINAL_DATA : string := "terminal:data".

(** ** Events *)

Inductive ActorType := User | Agent | System | External | Tool.

Record EventActor := mkEventActor {
  actor_type : ActorType;
  actor_id : option string;
  actor_name : option string;
  actor_email : option string;
  actor_model : option string;
  actor_metadata : option json }.

Record Event := mkEvent {
  event_id : string;
  workspace_id : string;
  timestamp : string;
  event_type : string;
  actor : EventActor;
  session_id : option string;
  correlation_id : option string;
  parent_event_id : option string;
  metadata : option json;
  data : json }.

Definition with_data (e : Event) (d : json) : Event :=
  mkEvent (event_id e) (workspace_id e) (timestamp e) (event_type e) (actor e)
    (session_id e) (correlation_id e) (parent_event_id e) (metadata e) d.

(** ** Keys *)

Inductive Key :=
| KActivity (agent : string)
| KTerminal (workspace terminal : string)
| KFile (workspace path : string)
| KChatBlock (block : string).

#[global] Instance Key_eq_dec : EqDecision Key.
Proof. solve_decision. Defined.

Definition key_code (k : Key) : (string + string * string) + (string * string + string) :=
  match k with
  | KActivity a => inl (inl a)
  | KTerminal w t => inl (inr (w, t))
  | KFile w p => inr (inl (w, p))
  | KChatBlock b => inr (inr b)
  end.

Definition key_of_code (c : (string + string * string) + (string * string + string)) : Key :=
  match c with
  | inl (inl a) => KActivity a
  | inl (inr (w, t)) => KTerminal w t
  | inr (inl (w, p)) => KFile w p
  | inr (inr b) => KChatBlock b
  end.

#[global] Instance Key_countable : Countable Key.
Proof. apply (inj_countable' key_code key_of_code). by intros []. Defined.

Definition str_field (d : json) (name : string) : option string :=
  v ← jget d name; as_str v.

Definition starts_with (p s : string) : bool := String.prefix p s.

Definition event_key (e : Event) : option Key :=
  let t := event_type e in
  if decide (t = AGENT_STREAM_ACTIVITY) then
    agent ← (match session_id e with
             | Some a => Some a
             | None => str_field (data e) "agentId"
             end);
    Some (KActivity agent)
  else if decide (t = TERMINAL_DATA) then
    terminal ← str_field (data e) "terminalId";
    Some (KTerminal (workspace_id e) terminal)
  else if starts_with FILE_PREFIX t then
    path ← str_field (data e) "path";
    Some (KFile (workspace_id e) path)
  else None.

(** ** The buffer *)

(** [Conflate::merge(&mut self, newer)]: the new value of [self], or the newer
    item given back with [self] untouched. *)
Inductive MergeOutcome (T : Type) :=
| Merged (t : T)
| Refused (t : T).
Arguments Merged {T} t.
Arguments Refused {T} t.

Class Conflate (T : Type) := {
  merge : T -> T -> MergeOutcome T;
  cost : T -> Z }.

Record Entry (T : Type) := mkEntry {
  e_id : Z;
  e_key : Key;
  e_cost : Z;
  e_item : T }.
Arguments mkEntry {T} _ _ _ _.
Arguments e_id {T} _.
Arguments e_key {T} _.
Arguments e_cost {T} _.
Arguments e_item {T} _.

Record ConflationBuffer (T : Type) := mkBuffer {
  entries : list (Entry T);
  index : gmap Key Z;
  next_id : Z;
  total_cost : Z;
  max_entries : Z;
  max_bytes : Z }.
Arguments mkBuffer {T} _ _ _ _ _ _.
Arguments entries {T} _.
Arguments index {T} _.
Arguments next_id {T} _.
Arguments total_cost {T} _.
Arguments max_entries {T} _.
Arguments max_bytes {T} _.

Definition bounded {T} (max_entries max_bytes : Z) : ConflationBuffer T :=
  mkBuffer [] ∅ 0 0 max_entries max_bytes.

Definition new {T} : ConflationBuffer T :=
  bounded MAX_PENDING_ENTRIES MAX_PENDING_BYTES.

Definition is_empty {T} (b : ConflationBuffer T) : bool :=
  match entries b with [] => true | _ => false end.

Section buffer.
Context {T : Type} `{!Conflate T}.
Implicit Types b : ConflationBuffer T.

(** [alloc], [push_back] and the index update of an appended item. *)
Definition append b (key : Key) (item : T) : ConflationBuffer T :=
  let id := next_id b + 1 in
  mkBuffer (entries b ++ [mkEntry id key (cost item) item])
    (<[key := id]> (index b)) id (total_cost b + cost item)
    (max_entries b) (max_bytes b).

(** [push]: the item handed back, if any, and the buffer afterwards; [None]
    where the source would panic (an index out of range, a counter below
    zero). *)
Definition push b (key : Key) (item : T) : option (option T * ConflationBuffer T) :=
  if max_bytes b <? total_cost b + cost item then Some (Some item, b)
  else
    match index b !! key with
    | Some id =>
        let pos := partition_point (fun e => e_id e <? id) (entries b) in
        entry ← entries b !! pos;
        match merge (e_item entry) item with
        | Merged merged =>
            let new_cost := cost merged in
            rest ← checked_sub (total_cost b) (e_cost entry);
            Some (None,
                  mkBuffer (<[pos := mkEntry (e_id entry) (e_key entry) new_cost merged]> (entries b))
                    (index b) (next_id b) (rest + new_cost) (max_entries b) (max_bytes b))
        | Refused refused =>
            if max_entries b <=? len (entries b) then Some (Some refused, b)
            else Some (None, append b key refused)
        end
    | None =>
        if max_entries b <=? len (entries b) then Some (Some item, b)
        else Some (None, append b key item)
    end.

(** [pop], with the key of the popped entry as a ghost result. *)
Definition pop b : option (option (Key * T) * ConflationBuffer T) :=
  match entries b with
  | [] => Some (None, b)
  | e :: rest =>
      c ← checked_sub (total_cost b) (e_cost e);
      let index' :=
        if decide (index b !! e_key e = Some (e_id e))
        then delete (e_key e) (index b) else index b in
      Some (Some (e_key e, e_item e),
            mkBuffer rest index' (next_id b) c (max_entries b) (max_bytes b))
  end.
End buffer.

(** ** The outbound lane

    A bounded channel drained by the socket writer: [sent] is what it accepted,
    [closes_after] how many more sends it accepts before the receiver goes away
    ([None]: it never does).  Whether it has room for a non-blocking send is an
    argument of [offer]. *)
Record Lane (F : Type) := mkLane {
  sent : list F;
  closes_after : option nat }.
Arguments mkLane {F} _ _.
Arguments sent {F} _.
Arguments closes_after {F} _.

Definition lane_send {F} (l : Lane F) (f : F) : option (Lane F) :=
  match closes_after l with
  | Some O => None
  | Some (S n) => Some (mkLane (sent l ++ [f]) (Some n))
  | None => Some (mkLane (sent l ++ [f]) None)
  end.

Inductive Enqueue (T : Type) :=
| Sent
| Buffered
| Overflow (item : T)
| Closed.
Arguments Sent {T}.
Arguments Buffered {T}.
Arguments Overflow {T} item.
Arguments Closed {T}.

Section lanes.
Context {T F S : Type} `{!Conflate T}.
(** [build] numbers and serializes one item; it is [FnMut], so it threads the
    forwarder's sequence counter [S]. *)
Variable build : S -> Key -> T -> S * F.

Definition send_item (s : S) (l : Lane F) (k : Key) (t : T) : bool * S * Lane F :=
  let '(s', f) := build s k t in
  match lane_send l f with
  | Some l' => (true, s', l')
  | None => (false, s', l)
  end.

(** [drain_all]: blocking sends of every pending entry; [false] when the lane
    closed.  [fuel] bounds the pops; the buffer's length is enough. *)
Fixpoint drain_loop (fuel : nat) (b : ConflationBuffer T) (s : S) (l : Lane F) :
    option (bool * ConflationBuffer T * S * Lane F) :=
  match fuel with
  | O => None
  | Datatypes.S fuel' =>
      '(popped, b') ← pop b;
      match popped with
      | None => Some (true, b', s, l)
      | Some (k, t) =>
          let '(ok, s', l') := send_item s l k t in
          if ok : bool then drain_loop fuel' b' s' l' else Some (false, b', s', l')
      end
  end.

Definition drain_all (b : ConflationBuffer T) (s : S) (l : Lane F) :
    option (bool * ConflationBuffer T * S * Lane F) :=
  drain_loop (Datatypes.S (length (entries b))) b s l.

(** The congested path of [offer]: the item enters the buffer. *)
Definition buffer_item (b : ConflationBuffer T) (key : Key) (item : T) (s : S) (l : Lane F) :
    option (Enqueue T * ConflationBuffer T * S * Lane F) :=
  '(back, b') ← push b key item;
  Some (match back with None => Buffered | Some r => Overflow r end, b', s, l).

(** [offer]: [try_reserve] first when nothing is pending. *)
Definition offer (b : ConflationBuffer T) (key : Key) (item : T) (room : bool)
    (s : S) (l : Lane F) :
    option (Enqueue T * ConflationBuffer T * S * Lane F) :=
  if is_empty b then
    match closes_after l with
    | Some O => Some (Closed, b, s, l)
    | _ =>
        if room then
          let '(_, s', l') := send_item s l key item in Some (Sent, b, s', l')
        else buffer_item b key item s l
    end
  else buffer_item b key item s l.

(** What both forwarders do with the outcome of [offer]: at capacity they flush
    the buffer with blocking sends and then send the item handed back.
    [false]: the lane closed and the forwarder stops. *)
Definition settle (key : Key) (outcome : Enqueue T * ConflationBuffer T * S * Lane F) :
    option (bool * ConflationBuffer T * S * Lane F) :=
  let '(enq, b, s, l) := outcome in
  match enq with
  | Closed => Some (false, b, s, l)
  | Sent | Buffered => Some (true, b, s, l)
  | Overflow item =>
      '(ok, b', s', l') ← drain_all b s l;
      if ok : bool then
        let '(ok', s'', l'') := send_item s' l' key item in Some (ok', b', s'', l'')
      else Some (false, b', s', l')
  end.

Definition forward_item (b : ConflationBuffer T) (key : Key) (item : T) (room : bool)
    (s : S) (l : Lane F) : option (bool * ConflationBuffer T * S * Lane F) :=
  offer b key item room s l ≫= settle key.

(** The [reserve] arm of a forwarder's loop: one pending item leaves as soon as
    the lane has room.  A closed lane fails the reservation before anything is
    popped. *)
Definition drain_one (b : ConflationBuffer T) (s : S) (l : Lane F) :
    option (bool * ConflationBuffer T * S * Lane F) :=
  match closes_after l with
  | Some O => Some (false, b, s, l)
  | _ =>
      '(popped, b') ← pop b;
      match popped with
      | None => Some (true, b', s, l)
      | Some (k, t) =>
          let '(_, s', l') := send_item s l k t in Some (true, b', s', l')
      end
  end.

(** A forwarder's loop over keyed items: offers, interleaved with drains. *)
Inductive Step :=
| Offer (k : Key) (t : T) (room : bool)
| Drain.

Definition step (b : ConflationBuffer T) (s : S) (l : Lane F) (st : Step) :
    option (bool * ConflationBuffer T * S * Lane F) :=
  match st with
  | Offer k t room => forward_item b k t room s l
  | Drain => drain_one b s l
  end.

Fixpoint run_steps (b : ConflationBuffer T) (s : S) (l : Lane F) (steps : list Step) :
    option (bool * ConflationBuffer T * S * Lane F) :=
  match steps with
  | [] => Some (true, b, s, l)
  | st :: steps' =>
      '(ok, b', s', l') ← step b s l st;
      if ok : bool then run_steps b' s' l' steps' else Some (false, b', s', l')
  end.

Definition offered (st : Step) : list (Key * T) :=
  match st with Offer k t _ => [(k, t)] | Drain => [] end.
End lanes.
Arguments Offer {T} k t room.
Arguments Drain {T}.

(** ** The interface between the buffer and its items

    [deliver r t] is what a receiver knows about one key after the frame of
    [t] reaches it.  An item kind promises that a merged pending item delivers
    what its two parts would have delivered one after the other, and that an
    item given back delivers what was offered. *)
Class ConflateSpec (T : Type) `{!Conflate T} (R : Type) := {
  deliver : R -> T -> R;
  (** items the forwarders construct under a key, and items found pending *)
  fresh : Key -> T -> Prop;
  pending : Key -> T -> Prop;
  fresh_pending k t : fresh k t -> pending k t;
  merged_pending k a t c : pending k a -> fresh k t -> merge a t = Merged c -> pending k c;
  refused_pending k a t c : pending k a -> fresh k t -> merge a t = Refused c -> pending k c;
  deliver_merged k a t c r :
    pending k a -> fresh k t -> merge a t = Merged c ->
    deliver r c = deliver (deliver r a) t;
  deliver_refused k a t c r :
    pending k a -> fresh k t -> merge a t = Refused c -> deliver r c = deliver r t;
  cost_nonneg t : 0 <= cost t }.

(** Items whose merges and refusals never cost more than their parts. *)
Class ConflateCost (T : Type) `{!Conflate T} (ok : T -> Prop) : Prop := {
  merged_cost a t c : ok a -> ok t -> merge a t = Merged c -> ok c /\ cost c <= cost a + cost t;
  refused_cost a t c : ok a -> ok t -> merge a t = Refused c -> ok c /\ cost c <= cost t }.

(** ** Invariant of the buffer *)

Section buffer_wf.
Context {T : Type} `{!Conflate T}.
Implicit Types (b : ConflationBuffer T) (e : Entry T) (l : list (Entry T)).

(** [e] is the newest entry of its key in [l1 ++ e :: l2]. *)
Definition live_at (k : Key) l l1 e l2 : Prop :=
  l = l1 ++ e :: l2 /\ e_key e = k /\ Forall (fun e' => e_key e' <> k) l2.

(** The id of the newest entry of key [k]. *)
Fixpoint newest (k : Key) l : option Z :=
  match l with
  | [] => None
  | e :: l' =>
      match newest k l' with
      | Some id => Some id
      | None => if decide (e_key e = k) then Some (e_id e) else None
      end
  end.

Record buffer_wf b : Prop := mkBufferWf {
  bw_ids : StronglySorted (fun a c => e_id a < e_id c) (entries b);
  bw_next : Forall (fun e => e_id e <= next_id b) (entries b);
  bw_costs : Forall (fun e => e_cost e = cost (e_item e)) (entries b);
  bw_total : total_cost b = sum_with e_cost (entries b);
  bw_index : forall k, index b !! k = newest k (entries b);
  bw_len : len (entries b) <= Z.max 0 (max_entries b) }.
End buffer_wf.

Section buffer_lemmas.
Context {T : Type} `{!Conflate T}.
Implicit Types (b : ConflationBuffer T) (e : Entry T) (l : list (Entry T)).
Hypothesis cost_pos : forall t : T, 0 <= cost t.

Lemma sorted_middle l1 e l2 :
  StronglySorted (fun a c => e_id a < e_id c) (l1 ++ e :: l2) ->
  Forall (fun a => e_id a < e_id e) l1 /\ Forall (fun a => e_id e < e_id a) l2.
Proof.
  induction l1 as [|a l1 IH]; simpl; intros H; inversion_clear H as [|? ? Hs Hf].
  - done.
  - apply Forall_app in Hf as [Hf1 Hf2]. apply Forall_cons in Hf2 as [Hae Hf2].
    destruct (IH Hs) as [? ?]. split; [by constructor|done].
Qed.

Lemma partition_point_middle l1 e l2 :
  Forall (fun a => e_id a < e_id e) l1 ->
  partition_point (fun a => e_id a <? e_id e) (l1 ++ e :: l2) = length l1.
Proof.
  induction 1 as [|a l1 Ha _ IH]; simpl in *.
  - by rewrite Z.ltb_irrefl.
  - solve_test. by rewrite IH.
Qed.

Lemma newest_live k l id :
  newest k l = Some id -> exists l1 e l2, live_at k l l1 e l2 /\ e_id e = id.
Proof.
  induction l as [|e l IH]; simpl; [done|]. destruct (newest k l) as [id'|] eqn:En.
  - intros [= ->]. destruct (IH eq_refl) as (l1 & e' & l2 & (-> & Hk & Hf) & Hid).
    by exists (e :: l1), e', l2.
  - destruct (decide (e_key e = k)) as [Hk|]; [|done]. intros [= <-].
    exists [], e, l. repeat split; try done. clear IH.
    induction l as [|e' l IH]; [constructor|]. simpl in En.
    destruct (newest k l); [done|]. destruct (decide (e_key e' = k)); [done|]. constructor; auto.
Qed.

Lemma newest_snoc k l e :
  newest k (l ++ [e]) = if decide (e_key e = k) then Some (e_id e) else newest k l.
Proof.
  induction l as [|e' l IH]; simpl; [done|]. rewrite IH. by destruct (decide (e_key e = k)).
Qed.

Lemma newest_replace k l1 l2 e e' :
  e_id e' = e_id e -> e_key e' = e_key e ->
  newest k (l1 ++ e' :: l2) = newest k (l1 ++ e :: l2).
Proof.
  intros Hi Hk. induction l1 as [|e1 l1 IH]; simpl; [by rewrite Hi, Hk|by rewrite IH].
Qed.

(** Every outcome of [push]. *)
Inductive PushView b (k : Key) (t : T) : option T -> ConflationBuffer T -> Prop :=
| PushOverBytes : max_bytes b < total_cost b + cost t -> PushView b k t (Some t) b
| PushFull : total_cost b + cost t <= max_bytes b -> index b !! k = None ->
    max_entries b <= len (entries b) -> PushView b k t (Some t) b
| PushAppend : total_cost b + cost t <= max_bytes b -> index b !! k = None ->
    len (entries b) < max_entries b -> PushView b k t None (append b k t)
| PushMerged l1 e l2 c : total_cost b + cost t <= max_bytes b ->
    live_at k (entries b) l1 e l2 -> merge (e_item e) t = Merged c ->
    PushView b k t None
      (mkBuffer (l1 ++ mkEntry (e_id e) k (cost c) c :: l2) (index b) (next_id b)
         (total_cost b - e_cost e + cost c) (max_entries b) (max_bytes b))
| PushRefusedFull l1 e l2 c : total_cost b + cost t <= max_bytes b ->
    live_at k (entries b) l1 e l2 -> merge (e_item e) t = Refused c ->
    max_entries b <= len (entries b) -> PushView b k t (Some c) b
| PushSealed l1 e l2 c : total_cost b + cost t <= max_bytes b ->
    live_at k (entries b) l1 e l2 -> merge (e_item e) t = Refused c ->
    len (entries b) < max_entries b -> PushView b k t None (append b k c).

Lemma sum_costs_nonneg l :
  Forall (fun e => e_cost e = cost (e_item e)) l -> 0 <= sum_with e_cost l.
Proof.
  induction 1 as [|e l He _ IH]; simpl; [done|]. pose proof (cost_pos (e_item e)). lia.
Qed.

Lemma total_cost_middle b l1 e l2 :
  buffer_wf b -> entries b = l1 ++ e :: l2 ->
  total_cost b = sum_with e_cost l1 + e_cost e + sum_with e_cost l2 /\
  e_cost e <= total_cost b /\ e_cost e = cost (e_item e).
Proof.
  intros Hwf Hent. pose proof (bw_costs _ Hwf) as Hc. rewrite Hent in Hc.
  apply Forall_app in Hc as [Hc1 [He Hc2]%Forall_cons].
  rewrite (bw_total _ Hwf), Hent, sum_with_app. simpl.
  pose proof (sum_costs_nonneg l1 Hc1). pose proof (sum_costs_nonneg l2 Hc2). lia.
Qed.

Lemma push_view b k t :
  buffer_wf b -> exists r b', push b k t = Some (r, b') /\ PushView b k t r b'.
Proof.
  intros Hwf. unfold push.
  destruct (max_bytes b <? total_cost b + cost t) eqn:Eb; case_tests.
  { eexists _, _. split; [done|]. by constructor. }
  destruct (index b !! k) as [id|] eqn:Ei; [|by destruct (max_entries b <=? len (entries b)) eqn:Ee;
    case_tests; eexists _, _; (split; [done|]); constructor].
  rewrite (bw_index _ Hwf) in Ei. apply newest_live in Ei as (l1 & e & l2 & Hlive & <-). pose proof Hlive as (Hent & Hk & _).
  pose proof (bw_ids _ Hwf) as Hs. rewrite Hent in Hs. apply sorted_middle in Hs as [Hs1 _].
  assert (partition_point (fun a => e_id a <? e_id e) (entries b) = length l1) as Hpos
    by (rewrite Hent; by apply partition_point_middle).
  assert (entries b !! length l1 = Some e) as Hat
    by (rewrite Hent; by apply list_lookup_middle).
  cbn zeta. rewrite Hpos, Hat. simpl.
  destruct (merge (e_item e) t) as [c|c] eqn:Em.
  - destruct (total_cost_middle b l1 e l2 Hwf Hent) as (_ & Hle & _).
    unfold checked_sub. solve_test. simpl.
    rewrite Hent, insert_app_r_alt, Nat.sub_diag, Hk by lia. simpl.
    eexists _, _. split; [done|]. by eapply PushMerged.
  - destruct (max_entries b <=? len (entries b)) eqn:Ee; case_tests; eexists _, _; (split; [done|]).
    + by eapply PushRefusedFull.
    + by eapply PushSealed.
Qed.

Lemma append_wf b k t :
  buffer_wf b -> len (entries b) < max_entries b -> buffer_wf (append b k t).
Proof.
  intros [Hs Hn Hc Ht Hi Hl] Hlen. split; simpl.
  - clear -Hs Hn. induction Hs as [|e l Hs IH Hf]; simpl; [by repeat constructor|].
    apply Forall_cons in Hn as [He Hn]. constructor; [auto|].
    apply Forall_app. split; [done|]. repeat constructor. simpl in *. lia.
  - apply Forall_app. split; [|repeat constructor; simpl; lia].
    eapply Forall_impl; [exact Hn|]. simpl. lia.
  - apply Forall_app. split; [done|]. by repeat constructor.
  - rewrite sum_with_app, Ht. simpl. lia.
  - intros k'. rewrite newest_snoc, lookup_insert. simpl. by destruct (decide (k = k')).
  - rewrite len_app, len_cons, len_nil. lia.
Qed.

Lemma replace_wf b l1 e l2 c :
  buffer_wf b -> entries b = l1 ++ e :: l2 ->
  buffer_wf (mkBuffer (l1 ++ mkEntry (e_id e) (e_key e) (cost c) c :: l2) (index b)
               (next_id b) (total_cost b - e_cost e + cost c) (max_entries b) (max_bytes b)).
Proof.
  intros Hwf Hent. destruct (total_cost_middle b l1 e l2 Hwf Hent) as (Ht & _ & _).
  destruct Hwf as [Hs Hn Hc _ Hi Hl]. rewrite Hent in *. split; simpl.
  - clear -Hs. induction l1 as [|a l1 IH]; simpl in *; inversion_clear Hs as [|? ? Hs' Hf];
      constructor; auto.
    apply Forall_app in Hf as [? [? ?]%Forall_cons]. apply Forall_app. split; [done|]. by constructor.
  - apply Forall_app in Hn as [? [? ?]%Forall_cons]. apply Forall_app. split; [done|]. by constructor.
  - apply Forall_app in Hc as [? [? ?]%Forall_cons]. apply Forall_app. split; [done|]. by constructor.
  - rewrite Ht, sum_with_app. simpl. lia.
  - intros k. rewrite Hi. symmetry. by apply newest_replace.
  - autorewrite with len in *. lia.
Qed.

Lemma push_view_wf b k t r b' : buffer_wf b -> PushView b k t r b' -> buffer_wf b'.
Proof.
  intros Hwf []; try done; [by apply append_wf| |by apply append_wf].
  match goal with H : live_at _ _ _ _ _ |- _ => destruct H as (Hent & <- & _) end.
  by apply replace_wf.
Qed.

Lemma pop_view b :
  buffer_wf b ->
  match entries b with
  | [] => pop b = Some (None, b)
  | e :: rest => exists b', pop b = Some (Some (e_key e, e_item e), b') /\
      entries b' = rest /\ buffer_wf b' /\ total_cost b' = total_cost b - e_cost e /\
      max_entries b' = max_entries b /\ max_bytes b' = max_bytes b
  end.
Proof.
  intros Hwf. unfold pop. destruct (entries b) as [|e rest] eqn:Hent; [done|].
  destruct (total_cost_middle b [] e rest Hwf Hent) as (Ht & Hle & _).
  unfold checked_sub. solve_test. simpl. eexists. split; [done|]. simpl.
  split; [done|]. split; [|done].
  destruct Hwf as [Hs Hn Hc _ Hi Hl]. rewrite Hent in *.
  inversion_clear Hs as [|? ? Hs' Hf]. apply Forall_cons in Hn as [_ Hn].
  apply Forall_cons in Hc as [_ Hc]. split; simpl in *; try done; [lia| |rewrite len_cons in Hl; lia].
  intros k. pose proof (Hi k) as Hk. specialize (Hi (e_key e)). simpl in Hk.
  destruct (decide (index b !! e_key e = Some (e_id e))) as [Heq|Hne].
  - rewrite lookup_delete. destruct (decide (e_key e = k)) as [<-|].
    + rewrite Heq in Hi. destruct (newest (e_key e) rest) as [id|] eqn:En; [|done].
      injection Hi as Hid'. apply newest_live in En as (l1 & e' & l2 & (-> & _ & _) & Hid).
      apply Forall_app in Hf as [_ [Hlt _]%Forall_cons]. simpl in Hlt. lia.
    + rewrite Hk. by destruct (newest k rest).
  - rewrite Hk. destruct (newest k rest); [done|]. destruct (decide (e_key e = k)) as [<-|]; [|done].
    congruence.
Qed.
End buffer_lemmas.

(** ** Losslessness of the buffer *)

Section lossless.
Context {T R : Type} `{!Conflate T, !ConflateSpec T R}.
Implicit Types (b : ConflationBuffer T) (k : Key) (t : T) (r : R).

Definition held b : list (Key * T) := map (fun e => (e_key e, e_item e)) (entries b).

Definition all_pending b : Prop :=
  Forall (fun e => pending (e_key e) (e_item e)) (entries b).

(** What the receiver knows about [k] after a sequence of frames. *)
Definition received k r (l : list (Key * T)) : R :=
  foldl (fun r '(k', t) => if decide (k' = k) then deliver r t else r) r l.

Lemma received_app k r l l' : received k r (l ++ l') = received k (received k r l) l'.
Proof. apply foldl_app. Qed.

Lemma received_other k r l : Forall (fun kt => fst kt <> k) l -> received k r l = r.
Proof.
  intros Hl. revert r. induction Hl as [|[k' t] l Hk _ IH]; intros r; simpl; [done|].
  rewrite decide_False by done. apply IH.
Qed.

(** Delivering a key's newest pending item merged with [t] is delivering the
    pending item and then [t], whatever other keys lie between. *)
Lemma received_merge k0 r k l1 l2 a c t :
  Forall (fun kt => fst kt <> k) l2 ->
  (forall r, deliver r c = deliver (deliver r a) t) ->
  received k0 r (l1 ++ (k, c) :: l2) = received k0 r ((l1 ++ (k, a) :: l2) ++ [(k, t)]).
Proof.
  intros Hl2 Hd. rewrite !received_app. set (r1 := received k0 r l1). simpl.
  destruct (decide (k = k0)) as [<-|]; [|done].
  by rewrite !(received_other k _ l2), Hd.
Qed.

Lemma push_view_lossless b k t res b' :
  all_pending b -> fresh k t -> PushView b k t res b' ->
  match res with
  | None => all_pending b' /\
      forall k0 r, received k0 r (held b') = received k0 r (held b ++ [(k, t)])
  | Some c => b' = b /\ pending k c /\ forall r, deliver r c = deliver r t
  end.
Proof.
  intros Hp Hf Hv. pose proof (fresh_pending _ _ Hf) as Hpt.
  assert (forall c, pending k c -> all_pending (append b k c)) as Happ.
  { intros c Hc. apply Forall_app. split; [done|]. by repeat constructor. }
  assert (forall c k0 r, (forall r, deliver r c = deliver r t) ->
    received k0 r (held (append b k c)) = received k0 r (held b ++ [(k, t)])) as Hrec.
  { intros c k0 r Hc. unfold held. simpl. rewrite map_app, !received_app. simpl.
    destruct (decide (k = k0)); [apply Hc|done]. }
  assert (forall l1 e l2, live_at k (entries b) l1 e l2 -> pending k (e_item e)) as Hlive.
  { intros l1 e l2 (Hent & <- & _). unfold all_pending in Hp. rewrite Hent in Hp.
    by apply Forall_app in Hp as [_ [? _]%Forall_cons]. }
  destruct Hv as [?|???|???|l1 e l2 c ? Hl Hm|l1 e l2 c ? Hl Hm ?|l1 e l2 c ? Hl Hm ?].
  - done.
  - done.
  - auto.
  - pose proof (Hlive _ _ _ Hl) as Hpe. pose proof Hl as (Hent & Hk & Hf2). split.
    + unfold all_pending in *. rewrite Hent in Hp.
      apply Forall_app in Hp as [? [_ ?]%Forall_cons]. apply Forall_app. split; [done|].
      constructor; [|done]. simpl. by eapply merged_pending.
    + intros k0 r. unfold held. rewrite Hent. cbn [entries]. rewrite !map_app.
      cbn [map e_key e_item]. rewrite Hk. apply received_merge; [|intros; by eapply deliver_merged].
      apply Forall_map. by eapply Forall_impl.
  - split; [done|]. pose proof (Hlive _ _ _ Hl). split; [by eapply refused_pending|].
    intros. by eapply deliver_refused.
  - pose proof (Hlive _ _ _ Hl). split; [apply Happ; by eapply refused_pending|].
    intros. apply Hrec. intros. by eapply deliver_refused.
Qed.
End lossless.

(** The byte bound, for items whose merges and refusals respect costs. *)
Section byte_bound.
Context {T : Type} `{!Conflate T} (ok : T -> Prop) `{!ConflateCost T ok}.
Hypothesis cost_pos : forall t : T, 0 <= cost t.
Implicit Types b : ConflationBuffer T.

Definition within_bytes b : Prop :=
  total_cost b <= max_bytes b /\ Forall (fun e => ok (e_item e)) (entries b).

Lemma push_view_bytes b k t r b' :
  buffer_wf b -> within_bytes b -> ok t -> PushView b k t r b' -> within_bytes b'.
Proof.
  intros Hwf [Hb Hok] Ht Hv.
  assert (forall l1 e l2, live_at k (entries b) l1 e l2 ->
    ok (e_item e) /\ e_cost e = cost (e_item e)) as Hlive.
  { intros l1 e l2 (Hent & _ & _). destruct (total_cost_middle cost_pos b l1 e l2 Hwf Hent) as (_ & _ & ?).
    rewrite Hent in Hok. by apply Forall_app in Hok as [_ [? _]%Forall_cons]. }
  destruct Hv as [?|???|???|l1 e l2 c ? Hl Hm|l1 e l2 c ? Hl Hm ?|l1 e l2 c ? Hl Hm ?]; try done.
  - split; simpl; [lia|]. apply Forall_app. split; [done|]. by repeat constructor.
  - destruct (Hlive _ _ _ Hl) as [Hoe Hce].
    destruct (merged_cost _ _ _ Hoe Ht Hm) as [Hoc Hcc]. destruct Hl as (Hent & _ & _). split; simpl; [lia|].
    rewrite Hent in Hok. apply Forall_app in Hok as [? [_ ?]%Forall_cons].
    apply Forall_app. split; [done|]. by constructor.
  - destruct (Hlive _ _ _ Hl) as [Hoe Hce].
    destruct (refused_cost _ _ _ Hoe Ht Hm) as [Hoc Hcc]. split; simpl; [lia|].
    apply Forall_app. split; [done|]. by repeat constructor.
Qed.

Lemma pop_bytes b r b' :
  buffer_wf b -> within_bytes b -> pop b = Some (r, b') -> within_bytes b'.
Proof.
  intros Hwf [Hb Hok] Hp. pose proof (pop_view cost_pos b Hwf) as Hv.
  destruct (entries b) as [|e rest] eqn:Hent.
  - rewrite Hv in Hp. injection Hp as _ <-. split; [done|by rewrite Hent].
  - destruct Hv as (b1 & Hp1 & He & _ & Ht & _ & Hm). rewrite Hp1 in Hp. injection Hp as _ <-.
    apply Forall_cons in Hok as [_ Hok]. split; [|by rewrite He].
    destruct (total_cost_middle cost_pos b [] e rest Hwf Hent) as (_ & _ & Hc).
    pose proof (cost_pos (e_item e)). lia.
Qed.
End byte_bound.

(** ** Losslessness of the lane *)

Section lane_lossless.
Context {T R F S : Type} `{!Conflate T, !ConflateSpec T R}.
Variable build : S -> Key -> T -> S * F.
Implicit Types (b : ConflationBuffer T) (k : Key) (t : T) (r : R) (s : S) (l : Lane F).

(** The frames of a sequence of items, numbered from [s]. *)
Fixpoint build_all s (items : list (Key * T)) : S * list F :=
  match items with
  | [] => (s, [])
  | (k, t) :: items' =>
      let '(s1, f) := build s k t in
      let '(s2, fs) := build_all s1 items' in (s2, f :: fs)
  end.

Lemma build_all_app s i1 i2 :
  build_all s (i1 ++ i2) =
  let '(s1, f1) := build_all s i1 in let '(s2, f2) := build_all s1 i2 in (s2, f1 ++ f2).
Proof.
  revert s. induction i1 as [|[k t] i1 IH]; intros s; simpl; [by destruct (build_all s i2)|].
  destruct (build s k t) as [s1 f]. rewrite IH. destruct (build_all s1 i1) as [s2 f1].
  by destruct (build_all s2 i2).
Qed.

(** The lane after the frames of [items]: all of them when [ok], a proper
    prefix when the lane closed on the way. *)
Definition wrote (ok : bool) s l s' l' (items : list (Key * T)) : Prop :=
  let '(s1, fs) := build_all s items in
  if ok then s' = s1 /\ sent l' = sent l ++ fs
  else exists fs', fs' `prefix_of` fs /\ sent l' = sent l ++ fs'.

Lemma send_item_wrote s l k t ok s' l' :
  send_item build s l k t = (ok, s', l') -> wrote ok s l s' l' [(k, t)].
Proof.
  unfold send_item, wrote, lane_send. simpl. destruct (build s k t) as [s1 f].
  destruct (closes_after l) as [[|n]|]; intros [= <- <- <-]; simpl; try done.
  exists []. split; [apply prefix_nil|]. by rewrite app_nil_r.
Qed.

Lemma wrote_true_app ok s l s1 l1 s2 l2 i1 i2 :
  wrote true s l s1 l1 i1 -> wrote ok s1 l1 s2 l2 i2 -> wrote ok s l s2 l2 (i1 ++ i2).
Proof.
  unfold wrote. rewrite build_all_app. destruct (build_all s i1) as [sa fa].
  intros [-> Hl1]. destruct (build_all sa i2) as [sb fb]. rewrite Hl1.
  destruct ok; [by rewrite <- app_assoc|]. intros (fs' & Hp & ->).
  exists (fa ++ fs'). split; [by apply prefix_app|]. by rewrite app_assoc.
Qed.

Lemma wrote_false_app s l s1 l1 i1 i2 :
  wrote false s l s1 l1 i1 -> wrote false s l s1 l1 (i1 ++ i2).
Proof.
  unfold wrote. rewrite build_all_app. destruct (build_all s i1) as [sa fa].
  destruct (build_all sa i2) as [sb fb]. intros (fs' & Hp & ->).
  exists fs'. split; [by apply prefix_app_r|done].
Qed.

Lemma drain_loop_spec fuel b s l :
  buffer_wf b -> (length (entries b) < fuel)%nat ->
  exists ok b' s' l', drain_loop build fuel b s l = Some (ok, b', s', l') /\
    wrote ok s l s' l' (held b) /\ buffer_wf b' /\
    max_entries b' = max_entries b /\ max_bytes b' = max_bytes b /\
    entries b' `suffix_of` entries b /\ (ok = true -> entries b' = []).
Proof.
  revert b s l. induction fuel as [|fuel IH]; intros b s l Hwf Hf; [lia|]. simpl.
  pose proof (pop_view cost_nonneg b Hwf) as Hp. unfold held.
  destruct (entries b) as [|e rest] eqn:Hent.
  - rewrite Hp. simpl. exists true, b, s, l. unfold wrote. simpl. rewrite app_nil_r.
    split_and!; try done. by rewrite Hent.
  - destruct Hp as (b1 & -> & Hr & Hwf1 & _ & Hm1 & Hm2). simpl in *.
    destruct (send_item build s l (e_key e) (e_item e)) as [[ok s1] l1] eqn:Es.
    apply send_item_wrote in Es. destruct ok.
    + destruct (IH b1 s1 l1 Hwf1) as (ok & b' & s' & l' & -> & Hw & Hwf' & Hb1 & Hb2 & Hsuf & Hnil);
        [rewrite Hr; simpl in Hf; lia|].
      exists ok, b', s', l'. split; [done|]. rewrite Hr in *. unfold held in Hw. rewrite Hr in Hw.
      split_and!; [|done|congruence|congruence| |done].
      * by apply (wrote_true_app ok s l s1 l1 s' l' [(e_key e, e_item e)] _).
      * by apply suffix_cons_r.
    + exists false, b1, s1, l1. split; [done|]. rewrite Hr.
      split_and!; try done; [|by apply suffix_cons_r].
      by apply (wrote_false_app s l s1 l1 [(e_key e, e_item e)]).
Qed.

Lemma drain_all_spec b s l :
  buffer_wf b ->
  exists ok b' s' l', drain_all build b s l = Some (ok, b', s', l') /\
    wrote ok s l s' l' (held b) /\ buffer_wf b' /\
    max_entries b' = max_entries b /\ max_bytes b' = max_bytes b /\
    entries b' `suffix_of` entries b /\ (ok = true -> entries b' = []).
Proof. intros Hwf. apply drain_loop_spec; [done|lia]. Qed.

Lemma all_pending_suffix b b' :
  entries b' `suffix_of` entries b -> all_pending b -> all_pending b'.
Proof.
  intros [pre Heq]. unfold all_pending. rewrite Heq. by intros [_ ?]%Forall_app.
Qed.

(** What a part of the loop achieves that takes in [input]: it does not panic,
    it keeps the invariants, and while the lane is open, what was written and
    what is still held deliver to every key what was held before followed by
    the input. *)
Definition forwarded b (input : list (Key * T)) s l
    (res : option (bool * ConflationBuffer T * S * Lane F)) : Prop :=
  exists ok b' s' l' items,
    res = Some (ok, b', s', l') /\
    wrote ok s l s' l' items /\ Forall (fun kt => pending kt.1 kt.2) items /\
    buffer_wf b' /\ all_pending b' /\
    max_entries b' = max_entries b /\ max_bytes b' = max_bytes b /\
    (ok = true -> forall k0 r,
       received k0 r (items ++ held b') = received k0 r (held b ++ input)).

Lemma held_pending b : all_pending b -> Forall (fun kt => pending kt.1 kt.2) (held b).
Proof. intros Hp. unfold held. by apply Forall_map. Qed.

Lemma overflow_forwarded b k t c s l :
  buffer_wf b -> all_pending b -> pending k c -> (forall r, deliver r c = deliver r t) ->
  forwarded b [(k, t)] s l (settle build k (Overflow c, b, s, l)).
Proof.
  intros Hwf Hp Hpc Hd. simpl. pose proof (held_pending b Hp).
  destruct (drain_all_spec b s l Hwf) as (ok & b' & s' & l' & -> & Hw & Hwf' & Hm1 & Hm2 & Hsuf & Hnil).
  simpl. pose proof (all_pending_suffix _ _ Hsuf Hp). destruct ok.
  - destruct (send_item build s' l' k c) as [[ok s''] l''] eqn:Es.
    apply send_item_wrote in Es. exists ok, b', s'', l'', (held b ++ [(k, c)]).
    split_and!; try done; [by eapply wrote_true_app| |].
    { apply Forall_app. split; [done|]. by repeat constructor. }
    intros -> k0 r. unfold held at 2. rewrite Hnil by done. simpl. rewrite app_nil_r, !received_app. simpl.
    destruct (decide (k = k0)); [apply Hd|done].
  - exists false, b', s', l', (held b). by split_and!.
Qed.

Lemma buffer_item_forwarded b k t s l :
  buffer_wf b -> all_pending b -> fresh k t ->
  forwarded b [(k, t)] s l (buffer_item b k t s l ≫= settle build k).
Proof.
  intros Hwf Hp Hf. unfold buffer_item.
  destruct (push_view cost_nonneg b k t Hwf) as (res & b1 & -> & Hv).
  pose proof (push_view_wf cost_nonneg b k t res b1 Hwf Hv) as Hwf1.
  pose proof (push_view_lossless b k t res b1 Hp Hf Hv) as Hl. destruct res as [c|].
  - destruct Hl as (-> & Hpc & Hd). by apply overflow_forwarded.
  - destruct Hl as [Hp1 Hr]. exists true, b1, s, l, []. split; [done|].
    split; [unfold wrote; simpl; by rewrite app_nil_r|]. split_and!; try done; by destruct Hv.
Qed.

Lemma forward_item_forwarded b k t room s l :
  buffer_wf b -> all_pending b -> fresh k t ->
  forwarded b [(k, t)] s l (forward_item build b k t room s l).
Proof.
  intros Hwf Hp Hf. unfold forward_item, offer.
  destruct (is_empty b) eqn:Ee; [|by apply buffer_item_forwarded].
  assert (held b = []) as Hh by (unfold held, is_empty in *; by destruct (entries b)).
  destruct (decide (closes_after l = Some O)) as [->|Ho].
  { exists false, b, s, l, []. split_and!; try done. exists []. by rewrite app_nil_r. }
  assert (lane_send l (build s k t).2 <> None) as Hsend
    by (unfold lane_send; by destruct (closes_after l) as [[|]|]).
  assert (forwarded b [(k, t)] s l
    (let '(_, s', l') := send_item build s l k t in Some (Sent, b, s', l') ≫= settle build k)) as Hsent.
  { destruct (send_item build s l k t) as [[ok s1] l1] eqn:Es. exists true, b, s1, l1, [(k, t)].
    assert (ok = true) as ->.
    { unfold send_item in Es. destruct (build s k t) as [sb f]. simpl in Hsend.
      destruct (lane_send l f); [|done]. congruence. }
    apply send_item_wrote in Es. pose proof (fresh_pending _ _ Hf).
    split_and!; try done; [by repeat constructor|]. intros _ k0 r. by rewrite Hh, app_nil_r. }
  destruct (closes_after l) as [[|n]|]; [done| |];
    (destruct room; [by destruct (send_item build s l k t) as [[]]|by apply buffer_item_forwarded]).
Qed.

Lemma open_send l f :
  closes_after l <> Some O -> exists l', lane_send l f = Some l'.
Proof. unfold lane_send. destruct (closes_after l) as [[|]|]; eauto. done. Qed.

Lemma drain_one_forwarded b s l :
  buffer_wf b -> all_pending b -> forwarded b [] s l (drain_one build b s l).
Proof.
  intros Hwf Hp. unfold drain_one.
  destruct (decide (closes_after l = Some O)) as [->|Ho].
  { exists false, b, s, l, []. split_and!; try done. exists []. by rewrite app_nil_r. }
  assert (forwarded b [] s l ('(popped, b') ← pop b;
    match popped with
    | None => Some (true, b', s, l)
    | Some (k, t) => let '(_, s', l') := send_item build s l k t in Some (true, b', s', l')
    end)) as Hgo; [|by destruct (closes_after l) as [[|]|]].
  pose proof (pop_view cost_nonneg b Hwf) as Hv. destruct (entries b) as [|e rest] eqn:Hent.
  - rewrite Hv. exists true, b, s, l, []. split_and!; try done.
    + unfold wrote. simpl. by rewrite app_nil_r.
    + intros _ k0 r. by rewrite app_nil_r.
  - destruct Hv as (b1 & -> & Hr & Hwf1 & _ & Hm1 & Hm2). simpl.
    destruct (open_send l (build s (e_key e) (e_item e)).2 Ho) as [l1 Hl1].
    destruct (send_item build s l (e_key e) (e_item e)) as [[ok s1] l2] eqn:Es.
    pose proof (send_item_wrote _ _ _ _ _ _ _ Es) as Hw.
    assert (ok = true) as ->.
    { unfold send_item in Es. destruct (build s (e_key e) (e_item e)) as [sb f].
      simpl in Hl1. rewrite Hl1 in Es. congruence. }
    exists true, b1, s1, l2, [(e_key e, e_item e)]. split_and!; try done.
    + unfold all_pending in Hp. rewrite Hent in Hp. apply Forall_cons in Hp as [? _].
      by repeat constructor.
    + eapply all_pending_suffix; [|exact Hp]. rewrite Hr, Hent. by apply suffix_cons_r.
    + intros _ k0 r. unfold held. by rewrite Hr, Hent, app_nil_r.
Qed.

Lemma forwarded_seq b i1 i2 s l res1 next :
  forwarded b i1 s l res1 ->
  (forall b' s' l', buffer_wf b' -> all_pending b' -> forwarded b' i2 s' l' (next b' s' l')) ->
  forwarded b (i1 ++ i2) s l
    ('(ok, b', s', l') ← res1; if ok : bool then next b' s' l' else Some (false, b', s', l')).
Proof.
  intros (ok & b1 & s1 & l1 & it1 & -> & Hw1 & Hi1 & Hwf1 & Hp1 & Hme & Hmb & Hr1) Hnext. simpl.
  destruct ok; [|by exists false, b1, s1, l1, it1].
  destruct (Hnext b1 s1 l1 Hwf1 Hp1)
    as (ok2 & b2 & s2 & l2 & it2 & -> & Hw2 & Hi2 & Hwf2 & Hp2 & Hme2 & Hmb2 & Hr2).
  exists ok2, b2, s2, l2, (it1 ++ it2). split_and!; try done; try congruence.
  { by eapply wrote_true_app. }
  { by apply Forall_app. }
  intros -> k0 r. specialize (Hr1 eq_refl). specialize (Hr2 eq_refl).
  rewrite <- !app_assoc, received_app, Hr2, <- received_app, !app_assoc, !(received_app k0 r _ i2).
  by rewrite Hr1.
Qed.

Lemma run_steps_forwarded b s l steps :
  buffer_wf b -> all_pending b ->
  Forall (fun st => Forall (fun kt => fresh kt.1 kt.2) (offered st)) steps ->
  forwarded b (steps ≫= offered) s l (run_steps build b s l steps).
Proof.
  intros Hwf Hp Hf. revert b s l Hwf Hp. induction Hf as [|st steps Hst Hf IH]; intros b s l Hwf Hp.
  - exists true, b, s, l, []. split_and!; try done.
    + unfold wrote. simpl. by rewrite app_nil_r.
    + intros _ k0 r. simpl. by rewrite app_nil_r.
  - rewrite bind_cons. simpl. apply forwarded_seq; [|auto].
    destruct st as [k t room|]; simpl; [|by apply drain_one_forwarded].
    apply Forall_cons in Hst as [Hst _]. by apply forward_item_forwarded.
Qed.

Lemma bounded_wf me mb : buffer_wf (@bounded T me mb).
Proof.
  split; simpl; [apply SSorted_nil|apply Forall_nil_2|apply Forall_nil_2|done|done|].
  rewrite len_nil. lia.
Qed.
End lane_lossless.

(** The byte bound of a whole run. *)
Section lane_bytes.
Context {T F S : Type} `{!Conflate T} (ok : T -> Prop) `{!ConflateCost T ok}.
Hypothesis cost_pos : forall t : T, 0 <= cost t.
Variable build : S -> Key -> T -> S * F.
Implicit Types (b : ConflationBuffer T) (s : S) (l : Lane F).

Definition bytes_inv b : Prop := buffer_wf b /\ within_bytes ok b.

Lemma pop_inv b r b' : bytes_inv b -> pop b = Some (r, b') -> bytes_inv b' /\ max_bytes b' = max_bytes b.
Proof.
  intros [Hwf Hb] Hp. split; [split; [|by eapply (pop_bytes ok)]|];
    pose proof (pop_view cost_pos b Hwf) as Hv; rewrite Hp in Hv;
    destruct (entries b) as [|e rest]; [by injection Hv as -> ->| |by injection Hv as -> ->|];
    destruct Hv as (b1 & [= -> ->] & _ & Hw & _ & _ & Hm); done.
Qed.

Lemma drain_loop_inv fuel b s l o b' s' l' :
  bytes_inv b -> drain_loop build fuel b s l = Some (o, b', s', l') ->
  bytes_inv b' /\ max_bytes b' = max_bytes b.
Proof.
  revert b s l. induction fuel as [|fuel IH]; intros b s l Hb; simpl; [done|].
  intros ([popped b1] & Hp & H)%bind_Some. apply pop_inv in Hp as [Hb1 Hm]; [|done].
  destruct popped as [[k t]|]; [|by injection H as <- <- <- <-].
  destruct (send_item build s l k t) as [[[] s1] l1]; [|by injection H as <- <- <- <-].
  rewrite <- Hm. by eapply IH.
Qed.

Lemma push_inv b k t r b' :
  bytes_inv b -> ok t -> push b k t = Some (r, b') -> bytes_inv b' /\ max_bytes b' = max_bytes b.
Proof.
  intros [Hwf Hb] Ht Hp. destruct (push_view cost_pos b k t Hwf) as (r1 & b1 & Hp1 & Hv).
  rewrite Hp1 in Hp. injection Hp as -> ->. split; [split|by destruct Hv].
  - by eapply push_view_wf.
  - by eapply push_view_bytes.
Qed.

Lemma settle_inv k enq b s l o b' s' l' :
  bytes_inv b -> settle build k (enq, b, s, l) = Some (o, b', s', l') ->
  bytes_inv b' /\ max_bytes b' = max_bytes b.
Proof.
  intros Hb. destruct enq as [| |item|]; simpl; try by intros [= <- <- <- <-].
  intros ([[[o1 b1] s1] l1] & Hd & H)%bind_Some. apply drain_loop_inv in Hd as [Hb1 Hm]; [|done].
  destruct o1; [destruct (send_item build s1 l1 k item) as [[]]|]; by injection H as <- <- <- <-.
Qed.

Lemma buffer_item_inv b k t s l enq b' s' l' :
  bytes_inv b -> ok t -> buffer_item b k t s l = Some (enq, b', s', l') ->
  bytes_inv b' /\ max_bytes b' = max_bytes b.
Proof.
  intros Hb Ht. unfold buffer_item. intros ([r b1] & Hp & [= <- <- <- <-])%bind_Some.
  by eapply push_inv.
Qed.

Lemma step_inv b s l st o b' s' l' :
  bytes_inv b -> Forall (fun kt => ok kt.2) (offered st) ->
  step build b s l st = Some (o, b', s', l') -> bytes_inv b' /\ max_bytes b' = max_bytes b.
Proof.
  intros Hb Hok. destruct st as [k t room|]; simpl.
  - apply Forall_cons in Hok as [Ht _]. simpl in Ht.
    unfold forward_item. intros ([[[enq b1] s1] l1] & Ho & Hs)%bind_Some.
    assert (bytes_inv b1 /\ max_bytes b1 = max_bytes b) as [Hb1 <-]; [|by eapply settle_inv].
    unfold offer in Ho. destruct (is_empty b); [|by eapply buffer_item_inv].
    destruct (closes_after l) as [[|n]|], room; try destruct (send_item build s l k t) as [[]];
      simplify_eq; try done; by eapply buffer_item_inv.
  - unfold drain_one. intros H. destruct (decide (closes_after l = Some O)) as [Hc|Hc].
    { rewrite Hc in H. by injection H as <- <- <- <-. }
    assert (exists popped, pop b = Some (popped, b')) as [popped Hp]; [|by eapply pop_inv].
    destruct (closes_after l) as [[|n]|]; [done| |];
      apply bind_Some in H as ([[[k t]|] b1] & Hp & H);
      try destruct (send_item build s l k t) as [[]]; simplify_eq; eauto.
Qed.

Lemma run_steps_inv b s l steps o b' s' l' :
  bytes_inv b -> Forall (fun st => Forall (fun kt => ok kt.2) (offered st)) steps ->
  run_steps build b s l steps = Some (o, b', s', l') ->
  bytes_inv b' /\ max_bytes b' = max_bytes b.
Proof.
  intros Hb Hf. revert b s l Hb. induction Hf as [|st steps Hst _ IH]; intros b s l Hb; simpl;
    [by intros [= <- <- <- <-]|].
  intros ([[[o1 b1] s1] l1] & Hs & H)%bind_Some. apply step_inv in Hs as [Hb1 Hm]; [|done|done].
  destruct o1; [|by injection H as <- <- <- <-]. rewrite <- Hm. by eapply IH.
Qed.
End lane_bytes.
