(* ===== verification/ConflateItems.v ===== *)
(** * Conflated items ([crates/intent-transport/src/conflate.rs])

    The two item kinds a forwarder buffers, bus events ([EventItem]) and chat
    block deltas ([ChatItem]), with their merge rules, and the proofs that they
    keep the promises of [Conflate.ConflateSpec] and [Conflate.ConflateCost]. *)
From stdpp Require Import prelude strings gmap sorting.
From S2P Require Import Prelude Json Conflate.

Definition TERMINAL_CONCAT_CAP_BYTES : Z := 256 * 1024.
Definition CHAT_TEXT_CONCAT_CAP_BYTES : Z := 256 * 1024.

(** ** Payload sizes *)

Fixpoint approx_size (v : json) : Z :=
  match v with
  | JNull | JBool _ | JNumber _ => 8
  | JString s => slen s + 8
  | JArray items => sum_with approx_size items + 8
  | JObject m => sum_with (fun kv => slen (fst kv) + approx_size (snd kv)) m + 8
  end.

(** ** Bus events *)

(** The [base64] crate's standard engine. *)
Class Base64 := {
  BASE64_encode : list Z -> string;
  BASE64_decode : string -> option (list Z) }.

Definition is_byte (b : Z) : Prop := 0 <= b <= u8_max.

(** What the code relies on: decoding yields bytes, and decodes what was
    encoded. *)
Class Base64Laws `{!Base64} : Prop := {
  base64_round_trip bs : Forall is_byte bs -> BASE64_decode (BASE64_encode bs) = Some bs;
  base64_bytes s bs : BASE64_decode s = Some bs -> Forall is_byte bs }.

Inductive EventItem :=
| Latest (event : Event)
| Terminal (event : Event) (bytes : option (list Z)).

Inductive TerminalCursor :=
| Legacy
| Positioned (boot : string) (start end_ : N)
| Invalid.

Definition has_field (d : json) (k : string) : bool := bool_decide (is_Some (jget d k)).

Definition cursor_offset (d : json) (k : string) : option N :=
  v ← jget d k; text ← as_str v; dec_parse u64_max text.

Definition terminal_cursor (d : json) (byte_len : Z) : TerminalCursor :=
  if negb (has_field d "daemonBootId" || has_field d "startOffset" || has_field d "endOffset")
  then Legacy
  else
    match str_field d "daemonBootId" with
    | Some boot =>
        if decide (boot = "") then Invalid
        else
          match cursor_offset d "startOffset", cursor_offset d "endOffset" with
          | Some start, Some end_ =>
              if bool_decide (checked_sub (Z.of_N end_) (Z.of_N start) = Some byte_len)
              then Positioned boot start end_ else Invalid
          | _, _ => Invalid
          end
    | None => Invalid
    end.

Definition item_event (i : EventItem) : Event :=
  match i with Latest e | Terminal e _ => e end.

Section event_items.
Context `{!Base64}.

(** [EventItem::new]. *)
Definition new_event_item (key : Key) (e : Event) : EventItem :=
  match key with
  | KTerminal _ _ =>
      Terminal e (c ← str_field (data e) "chunk"; BASE64_decode c)
  | _ => Latest e
  end.

(** The event [into_frame] serializes: a merged chunk is re-encoded into the
    newest event's skeleton. *)
Definition into_event (i : EventItem) : Event :=
  match i with
  | Latest e => e
  | Terminal e bytes =>
      match bytes, as_object (data e) with
      | Some bs, Some _ => with_data e (jset (data e) "chunk" (JString (BASE64_encode bs)))
      | _, _ => e
      end
  end.
End event_items.

Definition event_cost (i : EventItem) : Z :=
  match i with
  | Latest e => approx_size (data e)
  | Terminal e bytes =>
      match bytes with Some bs => len bs | None => approx_size (data e) end
  end.

Definition event_merge (pending newer : EventItem) : MergeOutcome EventItem :=
  match pending, newer with
  | Latest _, Latest e => Merged (Latest e)
  | Terminal e bytes, Terminal new_e new_bytes =>
      match bytes, new_bytes with
      | Some acc, Some add =>
          if TERMINAL_CONCAT_CAP_BYTES <? len acc + len add then
            Refused (Terminal new_e (Some add))
          else
            match terminal_cursor (data e) (len acc), terminal_cursor (data new_e) (len add) with
            | Legacy, Legacy => Merged (Terminal new_e (Some (acc ++ add)))
            | Positioned boot start end_, Positioned next_boot next_start _ =>
                if bool_decide (boot = next_boot) && bool_decide (end_ = next_start) then
                  Merged (Terminal
                    (with_data new_e (jset (data new_e) "startOffset" (JString (dec_string start))))
                    (Some (acc ++ add)))
                else Refused (Terminal new_e (Some add))
            | _, _ => Refused (Terminal new_e (Some add))
            end
      | _, _ => Refused (Terminal new_e None)
      end
  | _, newer => Refused newer
  end.

#[global] Instance EventItem_conflate : Conflate EventItem := {
  merge := event_merge;
  cost := event_cost }.

(** ** Chat-block deltas *)

Record ChatItem := mkChatItem {
  added : bool;
  entity : json }.

Definition from_delta (delta : json) : option (Key * ChatItem) :=
  match jget delta "removedIds" with
  | Some (JArray []) =>
      added_arr ← (v ← jget delta "added"; as_array v);
      updated_arr ← (v ← jget delta "updated"; as_array v);
      '(a, e) ← (match added_arr, updated_arr with
                 | [e], [] => Some (true, e)
                 | [], [e] => Some (false, e)
                 | _, _ => None
                 end);
      block ← jget e "block";
      block_id ← str_field block "id";
      Some (KChatBlock block_id, mkChatItem a e)
  | _ => None
  end.

Definition into_delta (i : ChatItem) : json :=
  if added i
  then JObject [("added", JArray [entity i]); ("updated", JArray []); ("removedIds", JArray [])]
  else JObject [("added", JArray []); ("updated", JArray [entity i]); ("removedIds", JArray [])].

Definition text_delta_of (e : json) : option string :=
  block ← jget e "block";
  match str_field block "type" with
  | Some ty =>
      if decide (ty = "text") then str_field block "textDelta"
      else if decide (ty = "thinking") then str_field block "textDelta"
      else None
  | None => None
  end.

(** [slot.push_str(&add)] on [entity.block.textDelta]. *)
Definition push_text_delta (e : json) (add : string) : json :=
  match jget e "block" with
  | Some block =>
      match jget block "textDelta" with
      | Some (JString slot) =>
          jset e "block" (jset block "textDelta" (JString (slot +:+ add)))
      | _ => e
      end
  | None => e
  end.

Definition union_maps (acc media : list (string * json)) : list (string * json) :=
  foldl (fun acc '(k, v) => map_or_insert acc k v) acc media.

Definition union_media_into (e : json) (media : list (string * json)) : json :=
  match jget e "block" with
  | Some (JObject block) =>
      let media' :=
        match map_get block "media" with
        | Some (JObject acc) => JObject (union_maps acc media)
        | _ => JObject media
        end in
      jset e "block" (JObject (map_insert block "media" media'))
  | _ => e
  end.

Definition block_media (e : json) : option (list (string * json)) :=
  block ← jget e "block";
  v ← jget block "media";
  as_object v.

Definition carry_media (e : json) (media : option (list (string * json))) : json :=
  match media with Some m => union_media_into e m | None => e end.

Definition chat_merge (pending newer : ChatItem) : MergeOutcome ChatItem :=
  match text_delta_of (entity pending), text_delta_of (entity newer) with
  | Some acc, Some add =>
      if CHAT_TEXT_CONCAT_CAP_BYTES <? slen acc + slen add then Refused newer
      else
        Merged (mkChatItem (added pending)
                  (carry_media (push_text_delta (entity pending) add)
                     (block_media (entity newer))))
  | None, None =>
      Merged (mkChatItem (added pending)
                (carry_media (entity newer) (block_media (entity pending))))
  | _, _ => Refused newer
  end.

#[global] Instance ChatItem_conflate : Conflate ChatItem := {
  merge := chat_merge;
  cost i := approx_size (entity i) }.

Definition chat_event_conflatable (e : Event) : bool :=
  bool_decide (event_type e = CHAT_STREAM_DELTA).

(** ** Sizes *)

Lemma approx_size_pos : forall v, 8 <= approx_size v.
Proof.
  fix IH 1. intros [| | |s|items|m]; simpl; try lia.
  - pose proof (slen_nonneg s). lia.
  - assert (0 <= sum_with approx_size items); [|lia].
    induction items as [|v items IHl]; simpl; [lia|]. specialize (IH v). lia.
  - assert (0 <= sum_with (fun kv => slen (fst kv) + approx_size (snd kv)) m); [|lia].
    induction m as [|[k v] m IHl]; simpl; [lia|]. specialize (IH v).
    pose proof (slen_nonneg k). lia.
Qed.

(** ** Bus events keep the contract *)

Definition terminal_key (k : Key) : bool :=
  match k with KTerminal _ _ => true | _ => false end.

Lemma event_key_terminal e k :
  event_key e = Some k -> (event_type e = TERMINAL_DATA <-> terminal_key k = true).
Proof.
  unfold event_key. destruct (decide (event_type e = AGENT_STREAM_ACTIVITY)) as [Ha|_].
  - rewrite Ha. intros (a & _ & [= <-])%bind_Some. by split.
  - destruct (decide (event_type e = TERMINAL_DATA)) as [Ht|Ht].
    + intros (a & _ & [= <-])%bind_Some. by split.
    + destruct (starts_with _ _); [|done]. intros (a & _ & [= <-])%bind_Some. by split.
Qed.

(** What a client has of one key: the terminal output it decoded (a frame it
    cannot decode stays a frame), and the newest superseding event. *)
Record EventView := mkEventView {
  rx_output : list (Z + Event);
  rx_latest : option Event }.

Section event_spec.
Context `{!Base64, !Base64Laws}.

Definition chunk_bytes (d : json) : option (list Z) :=
  c ← str_field d "chunk"; BASE64_decode c.

Definition receive (r : EventView) (e : Event) : EventView :=
  if decide (event_type e = TERMINAL_DATA) then
    mkEventView
      (rx_output r ++ match chunk_bytes (data e) with
                      | Some bs => map inl bs
                      | None => [inr e]
                      end) (rx_latest r)
  else mkEventView (rx_output r) (Some e).

Definition event_fresh (k : Key) (i : EventItem) : Prop :=
  exists e, event_key e = Some k /\ i = new_event_item k e.

Definition event_pending (k : Key) (i : EventItem) : Prop :=
  event_key (item_event i) = Some k /\
  match i with
  | Latest e => terminal_key k = false /\ event_type e <> TERMINAL_DATA
  | Terminal e bytes =>
      terminal_key k = true /\ event_type e = TERMINAL_DATA /\
      forall bs, bytes = Some bs -> is_Some (as_object (data e)) /\ Forall is_byte bs
  end.

Lemma chunk_bytes_encode d bs :
  is_Some (as_object d) -> Forall is_byte bs ->
  chunk_bytes (jset d "chunk" (JString (BASE64_encode bs))) = Some bs.
Proof.
  intros [m Hm] Hbs. destruct d; try done. unfold chunk_bytes, str_field. simpl.
  rewrite map_get_insert_eq. simpl. by apply base64_round_trip.
Qed.

Lemma chunk_bytes_object d bs :
  chunk_bytes d = Some bs -> is_Some (as_object d) /\ Forall is_byte bs.
Proof.
  unfold chunk_bytes, str_field. intros (c & (v & Hv & _)%bind_Some & Hd)%bind_Some.
  split; [|by eapply base64_bytes]. apply jget_object in Hv as [m ->]. done.
Qed.

Lemma receive_terminal r e bs :
  event_type e = TERMINAL_DATA -> is_Some (as_object (data e)) -> Forall is_byte bs ->
  receive r (into_event (Terminal e (Some bs))) =
  mkEventView (rx_output r ++ map inl bs) (rx_latest r).
Proof.
  intros Ht Ho Hbs. unfold receive, into_event. destruct Ho as [m Hm]. rewrite Hm.
  simpl. rewrite decide_True, chunk_bytes_encode by (done || by exists m). done.
Qed.

Lemma event_fresh_inv k i :
  event_fresh k i ->
  event_key (item_event i) = Some k /\
  ((exists e, i = Latest e /\ terminal_key k = false /\ event_type e <> TERMINAL_DATA) \/
   (exists e, i = Terminal e (chunk_bytes (data e)) /\ terminal_key k = true /\
      event_type e = TERMINAL_DATA)).
Proof.
  intros (e & Hk & ->). pose proof (event_key_terminal e k Hk) as Ht.
  split; [by destruct k|].
  destruct k; simpl in *; [left|right|left|left]; exists e; naive_solver.
Qed.

(** Rewriting a payload member that is not a key field keeps the event's key. *)
Lemma event_key_set_data e m v :
  m <> "agentId" -> m <> "terminalId" -> m <> "path" ->
  event_key (with_data e (jset (data e) m v)) = event_key e.
Proof.
  intros Ha Ht Hp. unfold event_key, str_field. simpl. by rewrite !jget_jset_ne.
Qed.

Lemma event_fresh_pending k i : event_fresh k i -> event_pending k i.
Proof.
  intros [Hk [(e & -> & ? & ?)|(e & -> & ? & ?)]]%event_fresh_inv; simpl; [done|].
  split_and!; [done|done|done|]. intros bs Hbs. by apply chunk_bytes_object.
Qed.

(** Outcomes of a merge under one key. *)
Inductive EventMergeView (k : Key) : EventItem -> EventItem -> MergeOutcome EventItem -> Prop :=
| EvLatest e e' : event_key e' = Some k -> terminal_key k = false -> event_type e' <> TERMINAL_DATA ->
    EventMergeView k (Latest e) (Latest e') (Merged (Latest e'))
| EvConcat e acc e' add d : event_key e' = Some k -> event_type e' = TERMINAL_DATA ->
    terminal_key k = true -> chunk_bytes (data e') = Some add ->
    (d = data e' \/ exists s, d = jset (data e') "startOffset" s) ->
    EventMergeView k (Terminal e (Some acc)) (Terminal e' (Some add))
      (Merged (Terminal (with_data e' d) (Some (acc ++ add))))
| EvRefused e bytes e' bytes' : event_key e' = Some k -> event_type e' = TERMINAL_DATA ->
    terminal_key k = true -> bytes' = chunk_bytes (data e') \/ bytes' = None ->
    EventMergeView k (Terminal e bytes) (Terminal e' (chunk_bytes (data e')))
      (Refused (Terminal e' bytes')).

Lemma with_data_id e : with_data e (data e) = e.
Proof. by destruct e. Qed.

Lemma event_merge_view k a t :
  event_pending k a -> event_fresh k t -> EventMergeView k a t (event_merge a t).
Proof.
  intros [Hka Ha] [Hek [(e' & -> & Hk & Ht)|(e' & -> & Hk & Ht)]]%event_fresh_inv;
    destruct a as [e|e bytes]; simpl in *; try (destruct Ha as [? _]; congruence).
  { by constructor. }
  destruct bytes as [acc|]; [|by apply EvRefused; auto].
  destruct (chunk_bytes (data e')) as [add|] eqn:Hc; [|rewrite <- Hc at 1; by apply EvRefused; auto].
  assert (EventMergeView k (Terminal e (Some acc)) (Terminal e' (Some add))
            (Refused (Terminal e' (Some add)))) as Href
    by (rewrite <- Hc; by apply EvRefused; auto).
  destruct (TERMINAL_CONCAT_CAP_BYTES <? len acc + len add); [done|].
  destruct (terminal_cursor (data e) (len acc)) as [|boot start end_|];
    destruct (terminal_cursor (data e') (len add)) as [|boot' start' end'|]; try done.
  - rewrite <- (with_data_id e') at 2. by apply EvConcat; auto.
  - destruct (_ && _); [|done]. apply EvConcat; eauto.
Qed.

Lemma event_merged_pending k a t c :
  event_pending k a -> event_fresh k t -> event_merge a t = Merged c -> event_pending k c.
Proof.
  intros Ha Hf Hm. pose proof (event_merge_view k a t Ha Hf) as Hv.
  rewrite Hm in Hv. inversion Hv as [|e acc e' add d Hek Ht Hk Hc Hd|]; subst; simpl; [done|].
  assert (event_key (with_data e' d) = Some k) as Hkd.
  { destruct Hd as [->|[s ->]]; [by rewrite with_data_id|by rewrite event_key_set_data]. }
  split_and!; [done|done|done|]. intros bs [= <-]. destruct Ha as (_ & _ & _ & Ha).
  destruct (chunk_bytes_object _ _ Hc) as [[m Hm'] Hadd]. split.
  - destruct Hd as [->|[s ->]]; [by exists m|]. by destruct (data e').
  - apply Forall_app. split; [|done]. by apply Ha.
Qed.

Lemma event_refused_pending k a t c :
  event_pending k a -> event_fresh k t -> event_merge a t = Refused c -> event_pending k c.
Proof.
  intros Ha Hf Hm. pose proof (event_merge_view k a t Ha Hf) as Hv.
  rewrite Hm in Hv. inversion Hv as [| |e bytes e' bytes' Hek Ht Hk Hb]; subst; simpl.
  split_and!; [done|done|done|]. intros bs ->. destruct Hb as [Hb|Hb]; [|done].
  by apply chunk_bytes_object.
Qed.

Lemma event_deliver_merged k a t c r :
  event_pending k a -> event_fresh k t -> event_merge a t = Merged c ->
  receive r (into_event c) = receive (receive r (into_event a)) (into_event t).
Proof.
  intros Ha Hf Hm. pose proof (event_merge_view k a t Ha Hf) as Hv.
  pose proof (event_fresh_pending _ _ Hf) as Hp.
  rewrite Hm in Hv. inversion Hv as [|e acc e' add d Hek Ht Hk Hc Hd|]; subst.
  - unfold event_pending in Ha, Hp. unfold receive. simpl.
    rewrite !decide_False by naive_solver. done.
  - destruct Ha as (_ & _ & Hte & Ha). destruct (Ha _ eq_refl). destruct Hp as (_ & _ & _ & Hp).
    destruct (Hp _ eq_refl). rewrite (receive_terminal r e acc) by done.
    rewrite (receive_terminal _ e' add) by done. rewrite receive_terminal; [|done| |by apply Forall_app].
    + simpl. by rewrite map_app, app_assoc.
    + destruct Hd as [->|[s ->]]; simpl; [done|]. by destruct (data e').
Qed.

Lemma event_deliver_refused k a t c r :
  event_pending k a -> event_fresh k t -> event_merge a t = Refused c ->
  receive r (into_event c) = receive r (into_event t).
Proof.
  intros Ha Hf Hm. pose proof (event_merge_view k a t Ha Hf) as Hv.
  pose proof (event_fresh_pending _ _ Hf) as Hp.
  rewrite Hm in Hv. inversion Hv as [| |e bytes e' bytes' Hek Ht Hk Hb]; subst.
  destruct Hb as [-> | ->]; [done|]. destruct (chunk_bytes (data e')) as [bs|] eqn:Hc; [|done].
  destruct Hp as (_ & _ & _ & Hp). destruct (Hp _ eq_refl). rewrite (receive_terminal r e' bs) by done.
  unfold receive. simpl. rewrite decide_True, Hc by done. done.
Qed.

Lemma into_event_key k i : event_pending k i -> event_key (into_event i) = Some k.
Proof.
  intros [Hk _]. destruct i as [e|e [bs|]]; simpl; [done| |done].
  destruct (as_object (data e)); [|done]. by rewrite event_key_set_data.
Qed.

Lemma event_cost_nonneg i : 0 <= event_cost i.
Proof.
  destruct i as [e|e [bs|]]; simpl; try (pose proof (approx_size_pos (data e)); lia). apply len_nonneg.
Qed.

#[global] Instance EventItem_spec : ConflateSpec EventItem EventView := {
  deliver r i := receive r (into_event i);
  fresh := event_fresh;
  pending := event_pending;
  fresh_pending := event_fresh_pending;
  merged_pending := event_merged_pending;
  refused_pending := event_refused_pending;
  deliver_merged := event_deliver_merged;
  deliver_refused := event_deliver_refused;
  cost_nonneg := event_cost_nonneg }.
End event_spec.

(** A terminal chunk that failed to decode. *)
Definition decoded (i : EventItem) : Prop :=
  match i with Terminal _ None => False | _ => True end.

#[global] Instance EventItem_cost : ConflateCost EventItem decoded.
Proof.
  split; intros [e|e [acc|]] [e'|e' [add|]] c Ha Ht; simpl in *; try done;
    repeat match goal with |- context [if ?x then _ else _] => destruct x end;
    try (destruct (terminal_cursor (data e) (len acc)), (terminal_cursor (data e') (len add)));
    try (destruct (_ && _)); try done; intros [= <-]; simpl; rewrite ?len_app; split; try done;
    pose proof (approx_size_pos (data e)); lia.
Qed.

(** ** Positioned terminal output *)

Lemma cursor_positioned_inv d n boot s e :
  terminal_cursor d n = Positioned boot s e ->
  str_field d "daemonBootId" = Some boot /\ boot <> "" /\
  cursor_offset d "startOffset" = Some s /\ cursor_offset d "endOffset" = Some e /\
  Z.of_N e - Z.of_N s = n /\ 0 <= n.
Proof.
  unfold terminal_cursor. destruct (negb _); [done|].
  destruct (str_field d "daemonBootId") as [boot'|]; [|done]. destruct (decide (boot' = "")); [done|].
  destruct (cursor_offset d "startOffset") as [s'|]; [|done].
  destruct (cursor_offset d "endOffset") as [e'|]; [|done].
  case_bool_decide as Hc; [|done]. intros [= -> -> ->].
  unfold checked_sub in Hc. destruct (_ <=? _) eqn:E; [|done]. case_tests. injection Hc as Hc.
  split_and!; try done; lia.
Qed.

Lemma cursor_positioned d n boot s e :
  str_field d "daemonBootId" = Some boot -> boot <> "" ->
  cursor_offset d "startOffset" = Some s -> cursor_offset d "endOffset" = Some e ->
  Z.of_N e - Z.of_N s = n -> 0 <= n -> terminal_cursor d n = Positioned boot s e.
Proof.
  intros Hb Hne Hs He Hn Hpos. unfold terminal_cursor.
  assert (has_field d "daemonBootId" = true) as ->.
  { unfold has_field, str_field in *. apply bind_Some in Hb as (v & -> & _). by apply bool_decide_eq_true. }
  simpl. rewrite Hb, decide_False, Hs, He by done.
  rewrite bool_decide_eq_true_2; [done|]. unfold checked_sub. solve_test. f_equal. lia.
Qed.

Lemma cursor_offset_bound d k n : cursor_offset d k = Some n -> Z.of_N n <= u64_max.
Proof.
  unfold cursor_offset, dec_parse. intros (v & _ & (t & _ & (u & _ & H)%bind_Some)%bind_Some)%bind_Some.
  simpl in H. destruct (_ <=? _) eqn:E; [|done]. case_tests. by injection H as <-.
Qed.

(** Rewriting the start offset moves the cursor's start and nothing else. *)
Lemma cursor_restart d n boot s e s' n' :
  terminal_cursor d n = Positioned boot s e -> Z.of_N s' <= u64_max ->
  Z.of_N e - Z.of_N s' = n' -> 0 <= n' ->
  terminal_cursor (jset d "startOffset" (JString (dec_string s'))) n' = Positioned boot s' e.
Proof.
  intros (Hb & Hne & Hs & He & _ & _)%cursor_positioned_inv Hs' Hn' Hpos.
  assert (exists m, d = JObject m) as [m ->].
  { unfold str_field in Hb. apply bind_Some in Hb as (v & Hv & _). by eapply jget_object. }
  apply cursor_positioned; try done.
  - unfold str_field in *. by rewrite jget_jset_ne.
  - unfold cursor_offset. simpl. rewrite map_get_insert_eq. simpl. by apply dec_parse_string.
  - unfold cursor_offset in *. by rewrite jget_jset_ne.
Qed.

Lemma event_merge_positions e acc e' add c bs boot s m :
  event_merge (Terminal e (Some acc)) (Terminal e' (Some add)) = Merged (Terminal c (Some bs)) ->
  terminal_cursor (data e) (len acc) = Positioned boot s m ->
  exists n, terminal_cursor (data e') (len add) = Positioned boot m n /\
    terminal_cursor (data c) (len bs) = Positioned boot s n /\ bs = acc ++ add.
Proof.
  simpl. intros Hm Hc. rewrite Hc in Hm. destruct (_ <? _); [done|].
  destruct (terminal_cursor (data e') (len add)) as [|boot' m' n|] eqn:Hc'; try done.
  destruct (bool_decide (boot = boot')) eqn:Eb; [|done]. apply bool_decide_eq_true in Eb as <-.
  destruct (bool_decide (m = m')) eqn:Em; [|done]. apply bool_decide_eq_true in Em as <-.
  injection Hm as <- <-. exists n. split; [done|]. split; [|done].
  apply cursor_positioned_inv in Hc as (_ & _ & Hs & _ & Hlen & Hpos).
  pose proof Hc' as (_ & _ & _ & _ & Hlen' & _)%cursor_positioned_inv.
  simpl. rewrite len_app. eapply cursor_restart; [done|by eapply cursor_offset_bound|lia|].
  pose proof (len_nonneg add). lia.
Qed.

(** ** Chat deltas keep the contract *)

(** [entity.block[k]]. *)
Definition block_get (e : json) (k : string) : option json :=
  block ← jget e "block"; jget block k.

Definition map_keys (m : list (string * json)) : gset string := list_to_set (map fst m).

Definition media_keys (e : json) : gset string :=
  match block_media e with Some m => map_keys m | None => ∅ end.

(** The members of the block other than its media. *)
Definition block_members (e : json) : list (string * json) :=
  match jget e "block" with
  | Some (JObject m) => filter (fun kv => kv.1 <> "media") m
  | _ => []
  end.

(** What a client has of one block: its accumulated text, the media entries
    resolved for it, and the members of the last whole block it was sent. *)
Record ChatView := mkChatView {
  rx_text : string;
  rx_media : gset string;
  rx_block : list (string * json) }.

Definition chat_deliver (r : ChatView) (i : ChatItem) : ChatView :=
  mkChatView
    (match text_delta_of (entity i) with
     | Some d => rx_text r +:+ d
     | None => match block_get (entity i) "text" with Some (JString s) => s | _ => "" end
     end)
    (rx_media r ∪ media_keys (entity i))
    (match text_delta_of (entity i) with
     | Some _ => rx_block r
     | None => block_members (entity i)
     end).

Definition has_block (e : json) : Prop := exists m, jget e "block" = Some (JObject m).

Definition chat_fresh (k : Key) (i : ChatItem) : Prop :=
  exists delta, from_delta delta = Some (k, i).

Definition chat_pending (k : Key) (i : ChatItem) : Prop :=
  has_block (entity i) /\ exists id, k = KChatBlock id /\ block_get (entity i) "id" = Some (JString id).

Lemma from_delta_block delta k i :
  from_delta delta = Some (k, i) ->
  has_block (entity i) /\ exists id, k = KChatBlock id /\ block_get (entity i) "id" = Some (JString id).
Proof.
  unfold from_delta. destruct (jget delta "removedIds") as [[| | | |[|]|]|]; try done.
  intros (aa & _ & (ua & _ & ([a e] & _ & (bl & Hbl & (id & Hid & H)%bind_Some)%bind_Some)%bind_Some)%bind_Some)%bind_Some.
  injection H as <- <-. unfold has_block, block_get. simpl. rewrite Hbl. simpl.
  unfold str_field in Hid. apply bind_Some in Hid as (v & Hv & Hs).
  destruct v; try done. injection Hs as ->. split; [|eauto].
  apply jget_object in Hv as [m ->]. eauto.
Qed.

Lemma block_get_set_block e m k :
  has_block e -> block_get (jset e "block" (JObject m)) k = map_get m k.
Proof.
  intros [b Hb]. apply jget_object in Hb as [o ->]. unfold block_get. simpl.
  by rewrite map_get_insert_eq.
Qed.

Lemma has_block_set e m : has_block e -> has_block (jset e "block" (JObject m)).
Proof.
  intros [b Hb]. apply jget_object in Hb as [o ->]. exists m. simpl. by rewrite map_get_insert_eq.
Qed.

Lemma block_get_push e slot add k :
  has_block e -> block_get e "textDelta" = Some (JString slot) ->
  has_block (push_text_delta e add) /\
  block_get (push_text_delta e add) k =
    if decide (k = "textDelta") then Some (JString (slot +:+ add)) else block_get e k.
Proof.
  intros Hb Ht. pose proof Hb as [m Hm]. unfold push_text_delta. rewrite Hm.
  unfold block_get in Ht. rewrite Hm in Ht. simpl in Ht. simpl. rewrite Ht.
  split; [by apply has_block_set|]. rewrite block_get_set_block by done.
  destruct (decide (k = "textDelta")) as [->|]; [apply map_get_insert_eq|].
  rewrite map_get_insert_ne by done. unfold block_get. by rewrite Hm.
Qed.

Lemma map_keys_insert m k v : map_keys (map_insert m k v) = {[k]} ∪ map_keys m.
Proof.
  unfold map_keys. induction m as [|[k' v'] m IH]; simpl; [set_solver|].
  destruct (decide (k' = k)) as [->|]; simpl; set_solver.
Qed.

Lemma map_get_keys m k v : map_get m k = Some v -> k ∈ map_keys m.
Proof.
  unfold map_keys. induction m as [|[k' v'] m IH]; simpl; [done|].
  destruct (decide (k' = k)) as [->|]; set_solver.
Qed.

Lemma map_keys_union acc media : map_keys (union_maps acc media) = map_keys acc ∪ map_keys media.
Proof.
  unfold union_maps. revert acc.
  induction media as [|[k v] media IH]; intros acc; simpl; [set_solver|].
  rewrite IH. unfold map_or_insert. destruct (map_get acc k) as [v'|] eqn:Hg.
  - apply map_get_keys in Hg. unfold map_keys in *. simpl. set_solver.
  - rewrite map_keys_insert. unfold map_keys. simpl. set_solver.
Qed.

Lemma filter_map_insert m k v :
  filter (fun kv : string * json => kv.1 <> k) (map_insert m k v) = filter (fun kv => kv.1 <> k) m.
Proof.
  induction m as [|[k' v'] m IH]; simpl; [by rewrite filter_cons_False by (simpl; naive_solver)|].
  destruct (decide (k' = k)) as [->|].
  - by rewrite !filter_cons_False by (simpl; naive_solver).
  - rewrite !filter_cons_True by done. by rewrite IH.
Qed.

Lemma block_media_get e : block_media e = (v ← block_get e "media"; as_object v).
Proof. unfold block_media, block_get. by destruct (jget e "block"). Qed.

(** Carrying media changes the block's media, as a union, and nothing else. *)
Lemma carry_media_spec e media k :
  has_block e ->
  has_block (carry_media e media) /\
  media_keys (carry_media e media) =
    media_keys e ∪ match media with Some m => map_keys m | None => ∅ end /\
  block_members (carry_media e media) = block_members e /\
  (k <> "media" -> block_get (carry_media e media) k = block_get e k).
Proof.
  intros Hb. destruct media as [media|]; simpl; [|split_and!; [done|set_solver|done|done]].
  unfold union_media_into. pose proof Hb as [m Hm]. rewrite Hm.
  split; [by apply has_block_set|]. split_and!.
  - unfold media_keys. rewrite !block_media_get, block_get_set_block, map_get_insert_eq by done.
    unfold block_get. rewrite Hm. simpl.
    destruct (map_get m "media") as [[| | | | |acc]|]; simpl; rewrite ?map_keys_union; set_solver.
  - unfold block_members. rewrite Hm. apply jget_object in Hm as [o ->]. simpl.
    rewrite map_get_insert_eq. apply filter_map_insert.
  - intros Hk. rewrite block_get_set_block, map_get_insert_ne by done.
    unfold block_get. by rewrite Hm.
Qed.

Lemma text_delta_block_get e :
  text_delta_of e =
  match block_get e "type" with
  | Some (JString ty) =>
      if decide (ty = "text") then match block_get e "textDelta" with Some (JString s) => Some s | _ => None end
      else if decide (ty = "thinking") then match block_get e "textDelta" with Some (JString s) => Some s | _ => None end
      else None
  | _ => None
  end.
Proof.
  unfold text_delta_of, block_get, str_field. destruct (jget e "block") as [b|]; [|done]. simpl.
  by destruct (jget b "type") as [[]|].
Qed.

Lemma text_delta_ext e e' :
  block_get e "type" = block_get e' "type" ->
  block_get e "textDelta" = block_get e' "textDelta" -> text_delta_of e = text_delta_of e'.
Proof. intros H1 H2. by rewrite !text_delta_block_get, H1, H2. Qed.

Lemma text_delta_push e acc add :
  has_block e -> text_delta_of e = Some acc ->
  block_get e "textDelta" = Some (JString acc) /\
  text_delta_of (push_text_delta e add) = Some (acc +:+ add).
Proof.
  intros Hb Ht. rewrite text_delta_block_get in Ht.
  destruct (block_get e "type") as [[| | |ty| |]|] eqn:Ety; try done.
  assert (block_get e "textDelta" = Some (JString acc)) as Hs.
  { destruct (decide (ty = "text")); [|destruct (decide (ty = "thinking")); [|done]];
      destruct (block_get e "textDelta") as [[]|]; naive_solver. }
  split; [done|]. rewrite text_delta_block_get.
  destruct (block_get_push e acc add "type" Hb Hs) as [_ ->].
  destruct (block_get_push e acc add "textDelta" Hb Hs) as [_ ->].
  rewrite decide_False, decide_True by done. rewrite Ety. rewrite Hs in Ht.
  by destruct (decide (ty = "text")), (decide (ty = "thinking")).
Qed.

Lemma media_keys_push e acc add :
  has_block e -> block_get e "textDelta" = Some (JString acc) ->
  media_keys (push_text_delta e add) = media_keys e.
Proof.
  intros Hb Hs. unfold media_keys. rewrite !block_media_get.
  by destruct (block_get_push e acc add "media" Hb Hs) as [_ ->].
Qed.

(** The merge of two chat items: its block, its text and its media. *)
Lemma chat_merge_spec a t c :
  has_block (entity a) -> has_block (entity t) -> chat_merge a t = Merged c ->
  has_block (entity c) /\ added c = added a /\
  (block_get (entity c) "id" = block_get (entity a) "id" \/
   block_get (entity c) "id" = block_get (entity t) "id") /\
  media_keys (entity c) = media_keys (entity a) ∪ media_keys (entity t) /\
  match text_delta_of (entity a), text_delta_of (entity t) with
  | Some acc, Some add => text_delta_of (entity c) = Some (acc +:+ add)
  | None, None => text_delta_of (entity c) = None /\
      block_members (entity c) = block_members (entity t) /\
      block_get (entity c) "text" = block_get (entity t) "text"
  | _, _ => False
  end.
Proof.
  intros Ha Ht. unfold chat_merge.
  destruct (text_delta_of (entity a)) as [acc|] eqn:Ea, (text_delta_of (entity t)) as [add|] eqn:Et; try done.
  - destruct (_ <? _); [done|]. intros [= <-]. simpl.
    destruct (text_delta_push _ _ add Ha Ea) as [Hs Hd].
    destruct (block_get_push (entity a) acc add "x" Ha Hs) as [Hb _].
    pose proof (fun k => carry_media_spec _ (block_media (entity t)) k Hb) as Hc.
    destruct (Hc "id") as (Hbc & Hmk & _ & Hid). split_and!; [done|done| | |].
    + left. rewrite Hid by done. by destruct (block_get_push (entity a) acc add "id" Ha Hs) as [_ ->].
    + rewrite Hmk, (media_keys_push _ acc) by done. done.
    + rewrite <- Hd. apply text_delta_ext; by apply Hc.
  - intros [= <-]. simpl.
    pose proof (fun k => carry_media_spec _ (block_media (entity a)) k Ht) as Hc.
    destruct (Hc "text") as (Hbc & Hmk & Hbm & Htx). split_and!; [done|done| | | |done|by apply Htx].
    + right. by apply Hc.
    + rewrite Hmk. fold (media_keys (entity a)). set_solver.
    + rewrite <- Et. apply text_delta_ext; by apply Hc.
Qed.

Lemma chat_merge_refused a t c : chat_merge a t = Refused c -> c = t.
Proof.
  unfold chat_merge. destruct (text_delta_of (entity a)), (text_delta_of (entity t)); try naive_solver.
  destruct (_ <? _); naive_solver.
Qed.

Lemma chat_fresh_pending k i : chat_fresh k i -> chat_pending k i.
Proof. by intros [d Hd%from_delta_block]. Qed.

Lemma chat_merged_pending k a t c :
  chat_pending k a -> chat_fresh k t -> chat_merge a t = Merged c -> chat_pending k c.
Proof.
  intros [Ha (id & -> & Hia)] [Ht (id' & [= <-] & Hit)]%chat_fresh_pending Hm.
  destruct (chat_merge_spec a t c Ha Ht Hm) as (Hb & _ & Hid & _).
  split; [done|]. exists id. split; [done|]. by destruct Hid as [-> | ->].
Qed.

Lemma chat_refused_pending k a t c :
  chat_pending k a -> chat_fresh k t -> chat_merge a t = Refused c -> chat_pending k c.
Proof. intros _ Ht ->%chat_merge_refused. by apply chat_fresh_pending. Qed.

Lemma chat_deliver_merged k a t c r :
  chat_pending k a -> chat_fresh k t -> chat_merge a t = Merged c ->
  chat_deliver r c = chat_deliver (chat_deliver r a) t.
Proof.
  intros [Ha _] [Ht _]%chat_fresh_pending Hm.
  destruct (chat_merge_spec a t c Ha Ht Hm) as (_ & _ & _ & Hmk & Htx).
  unfold chat_deliver. simpl. rewrite Hmk, (assoc_L (∪)).
  destruct (text_delta_of (entity a)), (text_delta_of (entity t)); try done.
  - rewrite Htx. by rewrite sapp_assoc.
  - by destruct Htx as (-> & -> & ->).
Qed.

Lemma chat_deliver_refused k a t c r :
  chat_pending k a -> chat_fresh k t -> chat_merge a t = Refused c ->
  chat_deliver r c = chat_deliver r t.
Proof. by intros _ _ ->%chat_merge_refused. Qed.

(** The frame of a pending item is again a conflatable delta of its block. *)
Lemma chat_pending_round_trip k i :
  chat_pending k i -> from_delta (into_delta i) = Some (k, i).
Proof.
  intros [[m Hm] (id & -> & Hid)]. destruct i as [a e]. simpl in *.
  unfold block_get in Hid. rewrite Hm in Hid. simpl in Hid.
  destruct a; unfold from_delta, into_delta; simpl; rewrite Hm; unfold str_field; simpl; by rewrite Hid.
Qed.

Lemma chat_cost_nonneg (i : ChatItem) : 0 <= cost i.
Proof. simpl. pose proof (approx_size_pos (entity i)). lia. Qed.

#[global] Instance ChatItem_spec : ConflateSpec ChatItem ChatView := {
  deliver := chat_deliver;
  fresh := chat_fresh;
  pending := chat_pending;
  fresh_pending := chat_fresh_pending;
  merged_pending := chat_merged_pending;
  refused_pending := chat_refused_pending;
  deliver_merged := chat_deliver_merged;
  deliver_refused := chat_deliver_refused;
  cost_nonneg := chat_cost_nonneg }.

(** ** Costs of chat deltas *)

Definition members_size (m : list (string * json)) : Z :=
  sum_with (fun kv => slen kv.1 + approx_size kv.2) m.

Lemma approx_size_object m : approx_size (JObject m) = members_size m + 8.
Proof. done. Qed.

Lemma members_size_nonneg m : 0 <= members_size m.
Proof.
  apply sum_with_nonneg. intros [k v]. pose proof (slen_nonneg k). pose proof (approx_size_pos v).
  simpl. lia.
Qed.

Lemma members_size_insert m k v :
  members_size (map_insert m k v) =
  members_size m + approx_size v +
    match map_get m k with Some v' => - approx_size v' | None => slen k end.
Proof.
  unfold members_size. induction m as [|[k' v'] m IH]; simpl; [lia|].
  destruct (decide (k' = k)) as [->|]; simpl in *; lia.
Qed.

Lemma members_size_get m k v :
  map_get m k = Some v -> slen k + approx_size v <= members_size m.
Proof.
  induction m as [|[k' v'] m IH]; simpl; [done|]. pose proof (members_size_nonneg m) as Hm.
  pose proof (slen_nonneg k'). pose proof (approx_size_pos v'). unfold members_size in *. simpl.
  destruct (decide (k' = k)) as [->|]; [intros [= ->]; lia|]. intros Hv%IH. lia.
Qed.

Lemma members_size_get2 m k v k' v' :
  map_get m k = Some v -> map_get m k' = Some v' -> k <> k' ->
  slen k + approx_size v + slen k' + approx_size v' <= members_size m.
Proof.
  intros Hv Hv' Hne. induction m as [|[k1 v1] m IH]; [done|].
  pose proof (slen_nonneg k1). pose proof (approx_size_pos v1).
  change (members_size ((k1, v1) :: m)) with (slen k1 + approx_size v1 + members_size m).
  simpl in Hv, Hv'. destruct (decide (k1 = k)) as [Hk|], (decide (k1 = k')) as [Hk'|].
  - congruence.
  - injection Hv as ->. subst k1. apply members_size_get in Hv'. lia.
  - injection Hv' as ->. subst k1. apply members_size_get in Hv. lia.
  - specialize (IH Hv Hv'). lia.
Qed.

Lemma union_maps_size acc media :
  members_size (union_maps acc media) <= members_size acc + members_size media.
Proof.
  unfold union_maps. revert acc. induction media as [|[k v] media IH]; intros acc; simpl; [lia|].
  etrans; [apply IH|]. pose proof (slen_nonneg k). pose proof (approx_size_pos v).
  change (members_size ((k, v) :: media)) with (slen k + approx_size v + members_size media).
  unfold map_or_insert. destruct (map_get acc k) eqn:E; [|rewrite members_size_insert, E]; lia.
Qed.

(** The size of an entity after its block is replaced. *)
Lemma entity_size_set e b m :
  jget e "block" = Some (JObject b) ->
  approx_size (jset e "block" (JObject m)) = approx_size e + members_size m - members_size b.
Proof.
  intros Hb. pose proof Hb as [o ->]%jget_object. simpl in Hb.
  simpl jset. rewrite !approx_size_object, members_size_insert, Hb, !approx_size_object. lia.
Qed.

Definition media_size (media : option (list (string * json))) : Z :=
  match media with Some m => 13 + members_size m | None => 0 end.

Lemma carry_media_size e media :
  has_block e -> approx_size (carry_media e media) <= approx_size e + media_size media.
Proof.
  intros [b Hb]. destruct media as [media|]; simpl; [|lia].
  unfold union_media_into. rewrite Hb. rewrite (entity_size_set _ b) by done.
  rewrite members_size_insert.
  pose proof (members_size_nonneg media).
  destruct (map_get b "media") as [v|] eqn:Ev;
    [|rewrite approx_size_object; change (slen "media") with 5; lia].
  pose proof (approx_size_pos v).
  destruct v as [| | | | |acc]; rewrite ?approx_size_object in *; try lia.
  pose proof (union_maps_size acc media). lia.
Qed.

Lemma push_text_delta_size e slot add :
  has_block e -> block_get e "textDelta" = Some (JString slot) ->
  approx_size (push_text_delta e add) = approx_size e + slen add.
Proof.
  intros [b Hb] Ht. unfold block_get in Ht. rewrite Hb in Ht. simpl in Ht.
  unfold push_text_delta. rewrite Hb. simpl jget. rewrite Ht. simpl (jset (JObject b) _ _).
  rewrite (entity_size_set _ b), members_size_insert, Ht by done. simpl. rewrite slen_app. lia.
Qed.

(** An entity is at least as large as the parts of it a merge takes. *)
Lemma entity_size_parts e :
  has_block e ->
  media_size (block_media e) + match text_delta_of e with Some d => slen d | None => 0 end
    <= approx_size e.
Proof.
  intros [b Hb]. pose proof Hb as [o ->]%jget_object. simpl in Hb.
  pose proof (members_size_get _ _ _ Hb) as Ho. rewrite approx_size_object in *.
  change (slen "block") with 5 in Ho.
  assert (media_size (block_media (JObject o)) +
          match block_get (JObject o) "textDelta" with Some (JString s) => slen s | _ => 0 end
          <= members_size b) as Hparts.
  { unfold block_media, block_get. simpl. rewrite Hb. simpl. pose proof (members_size_nonneg b).
    destruct (map_get b "media") as [[| | | | |m]|] eqn:Em; simpl;
      destruct (map_get b "textDelta") as [[| |?|s2|?|?]|] eqn:Es; simpl; try lia;
      try (apply members_size_get in Es; simpl in Es; change (slen "textDelta") with 9 in Es; lia);
      try (apply members_size_get in Em; rewrite approx_size_object in Em; change (slen "media") with 5 in Em; lia).
    pose proof (members_size_get2 _ _ _ _ _ Em Es ltac:(done)) as H2.
    rewrite approx_size_object in H2. simpl in H2. change (slen "media") with 5 in H2.
    change (slen "textDelta") with 9 in H2. lia. }
  rewrite text_delta_block_get.
  assert (0 <= match block_get (JObject o) "textDelta" with Some (JString s) => slen s | _ => 0 end)
    by (destruct (block_get (JObject o) "textDelta") as [[]|]; auto with intentd lia).
  destruct (block_get (JObject o) "type") as [[| | |ty| |]|]; try lia.
  destruct (decide (ty = "text")), (decide (ty = "thinking"));
    destruct (block_get (JObject o) "textDelta") as [[]|]; lia.
Qed.

Lemma chat_merged_cost a t c :
  has_block (entity a) -> has_block (entity t) -> chat_merge a t = Merged c ->
  has_block (entity c) /\ approx_size (entity c) <= approx_size (entity a) + approx_size (entity t).
Proof.
  intros Ha Ht Hm. split; [by eapply (chat_merge_spec a t c)|].
  pose proof (entity_size_parts _ Ha) as Hpa. pose proof (entity_size_parts _ Ht) as Hpt.
  revert Hm. unfold chat_merge.
  destruct (text_delta_of (entity a)) as [acc|] eqn:Ea, (text_delta_of (entity t)) as [add|] eqn:Et; try done.
  - destruct (_ <? _); [done|]. intros [= <-]. simpl.
    destruct (text_delta_push _ _ add Ha Ea) as [Hs _].
    destruct (block_get_push _ acc add "id" Ha Hs) as [Hb _].
    pose proof (carry_media_size _ (block_media (entity t)) Hb).
    rewrite (push_text_delta_size _ acc) in * by done. lia.
  - intros [= <-]. simpl. pose proof (carry_media_size _ (block_media (entity a)) Ht). lia.
Qed.

#[global] Instance ChatItem_cost : ConflateCost ChatItem (fun i => has_block (entity i)).
Proof.
  split; [apply chat_merged_cost|]. by intros a t c _ Ht ->%chat_merge_refused.
Qed.

(** ** Streams of bus events through the buffer *)

Section event_stream.
Context `{!Base64}.

Definition build_event (s : unit) (_ : Key) (i : EventItem) : unit * Event := (s, into_event i).

(** An event with a key, offered with or without room in the lane ([None]: the
    loop drains one pending item). *)
Definition event_step (input : option (Event * bool)) : list (Step (T := EventItem)) :=
  match input with
  | Some (e, room) =>
      match event_key e with Some k => [Offer k (new_event_item k e) room] | None => [] end
  | None => [Drain]
  end.

(** What a client makes of a sequence of events about [k]. *)
Definition view_of (k : Key) (r : EventView) (evs : list Event) : EventView :=
  foldl (fun r e => if decide (event_key e = Some k) then receive r e else r) r evs.

Definition input_events (inputs : list (option (Event * bool))) : list Event :=
  inputs ≫= fun i => match i with Some (e, _) => [e] | None => [] end.

Definition held_events (b : ConflationBuffer EventItem) : list Event :=
  map (fun kt => into_event kt.2) (held b).

Context `{!Base64Laws}.

Lemma build_event_all s items :
  build_all build_event s items = (s, map (fun kt => into_event kt.2) items).
Proof.
  induction items as [|[k t] items IH]; simpl; [done|]. destruct s. by rewrite IH.
Qed.

Lemma view_of_app k r l l' : view_of k r (l ++ l') = view_of k (view_of k r l) l'.
Proof. apply foldl_app. Qed.

Lemma view_of_received k r (items : list (Key * EventItem)) :
  Forall (fun kt => event_pending kt.1 kt.2) items ->
  view_of k r (map (fun kt => into_event kt.2) items) = received k r items.
Proof.
  intros Hp. revert r. induction Hp as [|[k' t] items Hkt _ IH]; intros r; simpl; [done|].
  rewrite (into_event_key k' t Hkt). rewrite IH.
  destruct (decide (k' = k)) as [->|]; [by rewrite decide_True|].
  rewrite decide_False by naive_solver. done.
Qed.

Lemma receive_fresh r k e :
  event_key e = Some k -> receive r (into_event (new_event_item k e)) = receive r e.
Proof.
  intros Hk. pose proof (event_key_terminal e k Hk) as Ht. destruct k; try done. simpl in Ht.
  unfold new_event_item. change (receive r (into_event (Terminal e (chunk_bytes (data e)))) = receive r e).
  destruct (chunk_bytes (data e)) as [bs|] eqn:Hc; [|done].
  destruct (chunk_bytes_object _ _ Hc). rewrite receive_terminal by naive_solver.
  unfold receive. rewrite decide_True by naive_solver. by rewrite Hc.
Qed.

Lemma event_steps_fresh inputs :
  Forall (fun st => Forall (fun kt => fresh kt.1 kt.2) (offered st)) (inputs ≫= event_step).
Proof.
  induction inputs as [|[[e room]|] inputs IH]; [constructor| |]; rewrite bind_cons; simpl.
  - destruct (event_key e) as [k|] eqn:Hk; [|done]. constructor; [|done].
    repeat constructor. simpl. by exists e.
  - constructor; [constructor|done].
Qed.

Lemma received_inputs k r inputs :
  received k r ((inputs ≫= event_step) ≫= offered) = view_of k r (input_events inputs).
Proof.
  revert r. induction inputs as [|[[e room]|] inputs IH]; intros r; [done| |done].
  unfold input_events. rewrite !bind_cons. simpl.
  destruct (event_key e) as [k'|] eqn:Hk; [|apply IH]. simpl.
  rewrite IH. destruct (decide (k' = k)) as [->|].
  - by rewrite decide_True, receive_fresh.
  - rewrite decide_False by naive_solver. done.
Qed.

(** Everything written to the lane was pending. *)
Lemma frames_pending k0 r items b' :
  Forall (fun kt => event_pending kt.1 kt.2) items -> all_pending b' ->
  view_of k0 r (map (fun kt => into_event kt.2) items ++ held_events b') =
  received k0 r (items ++ held b').
Proof.
  intros Hi Hb. unfold held_events. rewrite <- map_app, view_of_received; [done|].
  apply Forall_app. split; [done|]. unfold held. by apply Forall_map.
Qed.
End event_stream.

(** A codec with the laws, for concrete runs: a tag followed by one character
    per byte. *)
Fixpoint chars_of (bs : list Z) : string :=
  match bs with
  | [] => ""
  | b :: bs' => String (Ascii.ascii_of_N (Z.to_N b)) (chars_of bs')
  end.

Fixpoint codes_of (s : string) : list Z :=
  match s with
  | EmptyString => []
  | String c s' => Z.of_N (Ascii.N_of_ascii c) :: codes_of s'
  end.

Definition tagged_base64 : Base64 := {|
  BASE64_encode bs := "b" +:+ chars_of bs;
  BASE64_decode s :=
    match s with
    | String c s' => if Ascii.eqb c (Ascii.ascii_of_N 98) then Some (codes_of s') else None
    | EmptyString => None
    end |}.

Lemma codes_of_chars bs : Forall is_byte bs -> codes_of (chars_of bs) = bs.
Proof.
  induction 1 as [|b bs Hb _ IH]; simpl; [done|]. rewrite IH. f_equal.
  unfold is_byte, u8_max in Hb. rewrite Ascii.N_ascii_embedding by lia. lia.
Qed.

Lemma codes_of_bytes s : Forall is_byte (codes_of s).
Proof.
  induction s as [|c s IH]; simpl; constructor; [|done].
  unfold is_byte, u8_max. pose proof (Ascii.N_ascii_bounded c). lia.
Qed.

Lemma tagged_base64_laws : @Base64Laws tagged_base64.
Proof.
  split; simpl.
  - intros bs Hbs. change (Some (codes_of (chars_of bs)) = Some bs). by rewrite codes_of_chars.
  - intros s bs H. repeat (case_match; try done). injection H as <-. apply codes_of_bytes.
Qed.

Definition no_actor : EventActor := mkEventActor System None None None None None.

Definition terminal_event (chunk : string) (extra : list (string * json)) : Event :=
  mkEvent "e" "w" "t" TERMINAL_DATA no_actor None None None None
    (JObject ([("terminalId", JString "t1"); ("chunk", JString chunk)] ++ extra)).

(** ** Properties *)

(** [C26] Terminal output, file and activity events offered to a connection's
    conflation buffer reach the client whole: for any bounds, any sequence of
    offers and drains with any congestion, the buffer does not panic and never
    holds more entries than its bound, and as long as the lane stays open, the
    frames written followed by the frames still held show the client, key by
    key, exactly what the raw events would have shown (the same decoded
    terminal bytes in the same order, the same newest superseding event). *)
Theorem event_stream_lossless `{!Base64, !Base64Laws} (max_n max_b : Z)
    (inputs : list (option (Event * bool))) (closes : option nat) :
  exists ok b' l',
    run_steps build_event (bounded max_n max_b) tt (mkLane [] closes) (inputs ≫= event_step)
      = Some (ok, b', tt, l') /\
    len (entries b') <= Z.max 0 max_n /\
    (ok = true -> forall k r,
       view_of k r (sent l' ++ held_events b') = view_of k r (input_events inputs)).
Proof.
  destruct (run_steps_forwarded build_event (bounded max_n max_b) tt (mkLane [] closes)
    (inputs ≫= event_step) (bounded_wf _ _) (Forall_nil_2 _) (event_steps_fresh inputs))
    as (ok & b' & [] & l' & items & Hrun & Hw & Hi & Hwf & Hp & Hme & _ & Hr).
  exists ok, b', l'. split; [done|]. split; [pose proof (bw_len _ Hwf) as Hl; by rewrite Hme in Hl|].
  intros -> k r. unfold wrote in Hw. rewrite build_event_all in Hw. destruct Hw as [_ ->].
  simpl. rewrite frames_pending, Hr by done. apply received_inputs.
Qed.

Lemma event_stream_lossless_witness :
  let inputs := [Some (terminal_event "bab" [], false); Some (terminal_event "bcd" [], false); None] in
  exists ok b' l',
    @run_steps _ _ _ _ (@build_event tagged_base64) (bounded 4 100) tt (mkLane [] None)
      (inputs ≫= @event_step tagged_base64) = Some (ok, b', tt, l') /\
    len (entries b') <= 4 /\
    (ok = true -> forall k r,
       @view_of tagged_base64 k r (sent l' ++ @held_events tagged_base64 b') =
       @view_of tagged_base64 k r (input_events inputs)).
Proof.
  exact (@event_stream_lossless tagged_base64 tagged_base64_laws 4 100
    [Some (terminal_event "bab" [], false); Some (terminal_event "bcd" [], false); None] None).
Defined.

(** A terminal chunk merged into a pending one keeps its place in the
    terminal's output: if the pending chunk is positioned at [s..m] of daemon
    boot [boot], the newer one is positioned at [m..n] of the same boot, the
    merged bytes are the concatenation, and the cursor sent with them is
    [s..n], a range of exactly that many bytes. *)
Theorem terminal_merge_positions (e e' c : Event) (acc add bs : list Z) (boot : string) (s m : N) :
  event_merge (Terminal e (Some acc)) (Terminal e' (Some add)) = Merged (Terminal c (Some bs)) ->
  terminal_cursor (data e) (len acc) = Positioned boot s m ->
  exists n, terminal_cursor (data e') (len add) = Positioned boot m n /\
    terminal_cursor (data c) (len bs) = Positioned boot s n /\
    bs = acc ++ add /\ Z.of_N n - Z.of_N s = len bs /\ len bs <= TERMINAL_CONCAT_CAP_BYTES.
Proof.
  intros Hm Hc. destruct (event_merge_positions e acc e' add c bs boot s m Hm Hc) as (n & Hn & Hcn & ->).
  exists n. pose proof Hcn as (_ & _ & _ & _ & Hl & _)%cursor_positioned_inv.
  split_and!; try done. simpl in Hm.
  destruct (TERMINAL_CONCAT_CAP_BYTES <? len acc + len add) eqn:E; [done|]. case_tests.
  rewrite len_app. lia.
Qed.

Definition positioned (s e : string) : list (string * json) :=
  [("daemonBootId", JString "boot"); ("startOffset", JString s); ("endOffset", JString e)].

Lemma terminal_merge_positions_witness :
  exists n,
    terminal_cursor (data (terminal_event "bcd" (positioned "12" "14"))) 2 = Positioned "boot" 12 n /\
    terminal_cursor (data (with_data (terminal_event "bcd" (positioned "12" "14"))
      (jset (data (terminal_event "bcd" (positioned "12" "14"))) "startOffset" (JString "9")))) 5
      = Positioned "boot" 9 n /\
    [1; 2; 3; 4; 5] = [1; 2; 3] ++ [4; 5] /\ Z.of_N n - 9 = 5 /\ 5 <= TERMINAL_CONCAT_CAP_BYTES.
Proof.
  apply (terminal_merge_positions (terminal_event "babc" (positioned "9" "12"))
    (terminal_event "bcd" (positioned "12" "14")) _ [1; 2; 3] [4; 5] [1; 2; 3; 4; 5] "boot" 9 12);
    by vm_compute.
Defined.

(** The byte bound of the event buffer: as long as every terminal chunk
    offered decodes, the payload bytes held never exceed the bound, through any
    sequence of offers and drains. *)
Theorem event_buffer_bytes `{!Base64} (max_n max_b : Z) (inputs : list (option (Event * bool)))
    (closes : option nat) ok b' s' l' :
  0 <= max_b ->
  Forall (fun e => forall k, event_key e = Some k -> decoded (new_event_item k e)) (input_events inputs) ->
  run_steps build_event (bounded max_n max_b) tt (mkLane [] closes) (inputs ≫= event_step)
    = Some (ok, b', s', l') ->
  sum_with (fun e => event_cost (e_item e)) (entries b') <= max_b.
Proof.
  intros Hb Hdec Hrun.
  assert (Forall (fun st => Forall (fun kt => decoded kt.2) (offered st)) (inputs ≫= event_step)) as Hok.
  { clear Hrun. unfold input_events in Hdec.
    induction inputs as [|[[e room]|] inputs IH]; [constructor| |]; rewrite bind_cons in *;
      apply Forall_app in Hdec as [He Hdec]; apply Forall_app; (split; [|by apply IH]); simpl.
    - destruct (event_key e) as [k|] eqn:Hk; [|constructor]. apply Forall_cons in He as [He _].
      repeat constructor. by apply He.
    - by repeat constructor. }
  assert (forall t : EventItem, 0 <= cost t) as Hpos by apply event_cost_nonneg.
  destruct (run_steps_inv decoded Hpos build_event (bounded max_n max_b) tt
    (mkLane [] closes) (inputs ≫= event_step) ok b' s' l') as [[Hwf [Hw _]] Hm]; [|exact Hok|exact Hrun|].
  { split; [apply bounded_wf|]. by split. }
  rewrite Hm in Hw. simpl in Hw. rewrite (bw_total _ Hwf) in Hw.
  pose proof (bw_costs _ Hwf) as Hc. clear -Hw Hc.
  assert (sum_with (fun e => event_cost (e_item e)) (entries b') = sum_with e_cost (entries b')) as ->; [|done].
  clear Hw. induction Hc as [|e l He _ IH]; simpl; [done|]. by rewrite IH, He.
Qed.

Lemma event_buffer_bytes_witness :
  let inputs := [Some (terminal_event "bab" [], false); Some (terminal_event "bcd" [], false)] in
  sum_with (fun e => event_cost (e_item e))
    [mkEntry 1 (KTerminal "w" "t1") 4
       (Terminal (terminal_event "bcd" []) (Some [97; 98; 99; 100]))] <= 100.
Proof.
  exact (@event_buffer_bytes tagged_base64 4 100
    [Some (terminal_event "bab" [], false); Some (terminal_event "bcd" [], false)] None true
    (mkBuffer [mkEntry 1 (KTerminal "w" "t1") 4
       (Terminal (terminal_event "bcd" []) (Some [97; 98; 99; 100]))]
       {[KTerminal "w" "t1" := 1]} 1 4 4 100) tt (mkLane [] None)
    ltac:(lia)
    ltac:(repeat constructor; intros k [= <-]; exact I)
    ltac:(vm_compute; reflexivity)).
Defined.

