(* ===== verification/EventGate.v ===== *)
(** * The membership gate ([crates/intent-transport/src/events.rs])

    The per-event authorization of a non-administrator's event stream, and the small
    monad in which it and the forwarder of [conn/recovery.rs] are written.

    An async function is a computation that consumes what its environment does at the
    points where it awaits.  [Wake] is a poll in which the awaited operation is ready,
    with the answer of the operation and what other threads did to the shared state
    during the poll; the other inputs happen between polls.  Every await of the
    forwarder is inside [guarded], a biased select in which a membership delivery wins:
    [Interrupted] drops the guarded future there, with the changes it made so far. *)
From stdpp Require Import prelude strings gmap.
From S2P Require Import Prelude Json Conflate ConflateItems.

(** ** Callers *)

Inductive HostRole := HostOwner | HostMember | HostGuest.

#[global] Instance HostRole_eq_dec : EqDecision HostRole.
Proof. solve_decision. Defined.

Inductive WorkspaceRole := RoleOwner | RoleCollaborator | RoleManager.

#[global] Instance WorkspaceRole_eq_dec : EqDecision WorkspaceRole.
Proof. solve_decision. Defined.

Inductive Caller :=
| Wire (principal_id : string) (host_role : HostRole)
| AgentCaller (agent_id : string)
| Daemon
| Executor (credential_id backend_id : string).

Definition caller_principal_id (c : Caller) : option string :=
  match c with Wire p _ => Some p | _ => None end.

(** The fields of [WorkspaceMembership] the gate reads. *)
Record WorkspaceMembership := mkMembership {
  can_manage : bool;
  my_role : option WorkspaceRole }.

(** ** Event types *)

Definition CLIENT_EVENT_TYPES : list string := ["client:connected"; "client:disconnected"; "client:updated"].
Definition HOST_MEMBERS_CHANGED : string := "host:members-changed".
Definition HOST_EXECUTION_CONTEXT_CHANGED : string := "host:execution-context-changed".
Definition CLOUD_MACHINE_CHANGED : string := "cloudMachine:changed".
Definition WORKSPACE_UPDATED : string := "workspace:updated".
Definition WORKSPACE_DELETED : string := "workspace:deleted".
Definition PRESENCE_CHANGED : string := "presence:changed".
Definition SCRIPT_CHANGED : string := "script:changed".
Definition SCRIPT_OUTPUT : string := "script:output".
Definition SCRIPT_STATE : string := "script:state".
Definition AGENT_PERMISSION_REQUEST : string := "agent:permission:request".
Definition AGENT_PERMISSION_RESOLVED : string := "agent:permission:resolved".
Definition CHIEF_WORKSPACE_ID : string := "__chief__".

Definition MEMBER_EVENT_TYPES : list string :=
  [AGENT_PERMISSION_REQUEST; AGENT_PERMISSION_RESOLVED; "browser:tab-closed"; "browser:tab-opened";
   "browser:tab-updated"; "build:completed"; "build:started"; CLOUD_MACHINE_CHANGED; "git:clone:done";
   "git:clone:progress"; "gitRoot:registered"; "gitRoot:unregistered"; "gitRoot:updated";
   "hook:run-completed"; "hook:run-started"; "host:exec:exit"; "host:exec:stderr"; "host:exec:stdout";
   HOST_EXECUTION_CONTEXT_CHANGED; HOST_MEMBERS_CHANGED; SCRIPT_CHANGED; SCRIPT_OUTPUT; SCRIPT_STATE;
   "terminal:command"; "terminal:cwd"; TERMINAL_DATA; "terminal:exit"; "terminal:process"; "terminal:title";
   "test:completed"; "test:started"; "workspace:transfer:failed"; "workspace:transfer:progress";
   "workspace:transfer:ready"].

Definition is_client_event_type (t : string) : bool := bool_decide (t ∈ CLIENT_EVENT_TYPES).

Definition is_member_execution_event_type (t : string) : bool := bool_decide (t ∈ MEMBER_EVENT_TYPES).

Definition is_permission_event_type (t : string) : bool :=
  bool_decide (t = AGENT_PERMISSION_REQUEST) || bool_decide (t = AGENT_PERMISSION_RESOLVED).

Definition is_script_event_type (t : string) : bool :=
  bool_decide (t = SCRIPT_CHANGED) || bool_decide (t = SCRIPT_OUTPUT) || bool_decide (t = SCRIPT_STATE).

(** [v[k] == "s"] for JSON values. *)
Definition field_is (d : json) (k s : string) : bool := bool_decide (str_field d k = Some s).

Definition nested_field_is (d : json) (k k' s : string) : bool :=
  match jget d k with Some v => field_is v k' s | None => false end.

(** ** The gate *)

Definition TTL : Z := 30 * 10 ^ 9.

Record MembershipGate := mkGate {
  principal_id : string;
  verdicts : gmap string (bool * Z);
  last_role : option HostRole }.

Definition gate_clear (g : MembershipGate) : MembershipGate := mkGate (principal_id g) ∅ (last_role g).

Definition set_verdict (w : string) (x : bool * Z) (g : MembershipGate) : MembershipGate :=
  mkGate (principal_id g) (<[w := x]> (verdicts g)) (last_role g).

Definition drop_verdict (w : string) (g : MembershipGate) : MembershipGate :=
  mkGate (principal_id g) (delete w (verdicts g)) (last_role g).

Definition note_role (role : option HostRole) (g : MembershipGate) : MembershipGate :=
  if decide (last_role g = role) then g else mkGate (principal_id g) ∅ role.

Definition for_current_caller (c : option Caller) : option MembershipGate :=
  match c with
  | Some (Wire p (HostMember | HostGuest)) => Some (mkGate p ∅ None)
  | _ => None
  end.

Definition unshared_principal (e : Event) : option string :=
  if decide (event_type e = WORKSPACE_UPDATED) then
    c ← jget (data e) "changes"; str_field c "removedPrincipalId"
  else None.

Definition is_membership_change (e : Event) : bool :=
  bool_decide (event_type e = WORKSPACE_UPDATED) &&
  default false (c ← jget (data e) "changes"; m ← jget c "members"; as_bool m).

Definition is_own_unshare (g : MembershipGate) (e : Event) : bool :=
  bool_decide (unshared_principal e = Some (principal_id g)).

Definition observe_membership_event (now : Z) (e : Event) (g : MembershipGate) : MembershipGate :=
  if decide (event_type e = HOST_MEMBERS_CHANGED) then gate_clear g
  else if negb (is_membership_change e) then g
  else if is_own_unshare g e then set_verdict (workspace_id e) (false, now) g
  else drop_verdict (workspace_id e) g.

(** ** The environment *)

(** [Delivery] of the event bus; acknowledgement channels and private outputs by
    number. *)
Inductive Delivery :=
| Batch (events : list Event)
| Lagged (n : Z)
| Fence (ack : Z)
| Monitor (output : Z)
| HistoryChanged.

(** A poll in which the awaited operation is ready: the instant, the answer of each
    operation (the one awaited is used), whether a non-blocking send has room ([None]:
    the lane is gone), and what other threads do after the poll's selects have looked:
    membership deliveries that reach the queue, and closing the output. *)
Record Answers := mkAnswers {
  a_now : Z;
  a_role : option HostRole;
  a_workspace : option (option WorkspaceMembership);
  a_script : option json;
  a_reserve : bool;
  a_projected : option (option Event);
  a_receipt : bool;
  a_drain : bool;
  a_delivery : option Delivery;
  a_room : option bool;
  a_arrivals : list (option Delivery);
  a_raced : bool }.

(** [Arrive]: a delivery of the membership subscription ([None]: it ended).  [Close]:
    the output is closed elsewhere.  [Retire]: the lease ends.  [Expire]: the deadline of
    [loss] passes. *)
Inductive Input :=
| Arrive (d : option Delivery)
| Close
| Retire
| Expire
| Wake (a : Answers).

(** ** The forwarder's state *)

Inductive Frame :=
| EventFrame (e : Event)
| LostFrame (generation : Z)
| PrivateFrame (output : Z).

#[global] Instance Frame_lost_dec (f : Frame) g : Decision (f = LostFrame g).
Proof. destruct f as [|g'|]; [by right|destruct (decide (g' = g)) as [->|]; [by left|right; congruence]|by right]. Defined.

(** History: the state in which a frame was enqueued or a fence acknowledged. *)
Record Stamp := mkStamp {
  t_pending : list (option Delivery);
  t_closed : bool;
  t_held : Z }.

(** History: what the forwarder did, and what it learned about memberships: each
    membership event it observed and each read of a workspace, with its success. *)
Inductive Logged :=
| Enqueued (f : Frame) (st : Stamp)
| FenceAcked (ack : Z) (st : Stamp)
| MembershipAcked (ack : Z)
| MarkerWritten (generation : Z)
| Observed (e : Event)
| ReadWorkspace (w : string) (ok : bool).

(** [Forwarder], its subscription to memberships as a queue, the parts of [Output] it
    shares, whether [loss] waits for its deadline, the instant and the room of the last
    poll, and the history. *)
Record Forwarder := mkForwarder {
  gate : option MembershipGate;
  membership : option (list (option Delivery));
  buffer : ConflationBuffer EventItem;
  generation : Z;
  closed : bool;
  registered : list Frame;
  armed : bool;
  now : Z;
  room : option bool;
  log : list Logged }.

Definition set_gate (g : option MembershipGate) (s : Forwarder) : Forwarder :=
  mkForwarder g (membership s) (buffer s) (generation s) (closed s) (registered s) (armed s) (now s) (room s) (log s).
Definition set_membership (q : option (list (option Delivery))) (s : Forwarder) : Forwarder :=
  mkForwarder (gate s) q (buffer s) (generation s) (closed s) (registered s) (armed s) (now s) (room s) (log s).
Definition set_buffer (b : ConflationBuffer EventItem) (s : Forwarder) : Forwarder :=
  mkForwarder (gate s) (membership s) b (generation s) (closed s) (registered s) (armed s) (now s) (room s) (log s).
Definition set_generation (n : Z) (s : Forwarder) : Forwarder :=
  mkForwarder (gate s) (membership s) (buffer s) n (closed s) (registered s) (armed s) (now s) (room s) (log s).
Definition set_output (x : bool) (r : list Frame) (s : Forwarder) : Forwarder :=
  mkForwarder (gate s) (membership s) (buffer s) (generation s) x r (armed s) (now s) (room s) (log s).
Definition set_armed (x : bool) (s : Forwarder) : Forwarder :=
  mkForwarder (gate s) (membership s) (buffer s) (generation s) (closed s) (registered s) x (now s) (room s) (log s).
Definition set_poll (t : Z) (r : option bool) (s : Forwarder) : Forwarder :=
  mkForwarder (gate s) (membership s) (buffer s) (generation s) (closed s) (registered s) (armed s) t r (log s).
Definition add_log (x : Logged) (s : Forwarder) : Forwarder :=
  mkForwarder (gate s) (membership s) (buffer s) (generation s) (closed s) (registered s) (armed s) (now s) (room s) (log s ++ [x]).

Definition stamp (s : Forwarder) : Stamp :=
  mkStamp (default [] (membership s)) (closed s) (len (entries (buffer s))).

(** ** Computations *)

Inductive Res (A : Type) :=
| Done (a : A) (s : Forwarder) (rest : list Input)
| Interrupted (d : option Delivery) (s : Forwarder) (rest : list Input)
| Expired (s : Forwarder) (rest : list Input)
| Waiting (s : Forwarder)
| Cancelled (s : Forwarder)
| Panicked (s : Forwarder)
| Starved (s : Forwarder).
Arguments Done {A} _ _ _.
Arguments Interrupted {A} _ _ _.
Arguments Expired {A} _ _.
Arguments Waiting {A} _.
Arguments Cancelled {A} _.
Arguments Panicked {A} _.
Arguments Starved {A} _.

Definition M (A : Type) : Type := Forwarder -> list Input -> Res A.

#[global] Instance M_ret : MRet M := fun A a s rest => Done a s rest.

#[global] Instance M_bind : MBind M := fun A B k m s rest =>
  match m s rest with
  | Done a s' rest' => k a s' rest'
  | Interrupted d s' rest' => Interrupted d s' rest'
  | Expired s' rest' => Expired s' rest'
  | Waiting s' => Waiting s'
  | Cancelled s' => Cancelled s'
  | Panicked s' => Panicked s'
  | Starved s' => Starved s'
  end.

Definition get : M Forwarder := fun s rest => Done s s rest.
Definition modify (f : Forwarder -> Forwarder) : M unit := fun s rest => Done tt (f s) rest.
Definition panic {A} : M A := fun s _ => Panicked s.
Definition starve {A} : M A := fun s _ => Starved s.

(** A loop gets as many rounds as there are inputs, and one more. *)
Definition with_fuel {A} (m : nat -> M A) : M A := fun s rest => m (S (length rest)) s rest.

(** [queue] after [d] reaches it; without a subscription nothing arrives. *)
Definition arrive (ds : list (option Delivery)) (s : Forwarder) : Forwarder :=
  set_membership ((fun q => q ++ ds) <$> membership s) s.

(** One await inside [guarded]: the outer selects look at the output and the lease (and
    inside [loss] at the deadline) first, then [guarded] at the membership queue. *)
Fixpoint await (s : Forwarder) (inputs : list Input) : Res Answers :=
  match inputs with
  | [] => Waiting s
  | Arrive d :: rest => await (arrive [d] s) rest
  | Close :: rest => await (set_output true [] s) rest
  | Retire :: _ => Cancelled s
  | Expire :: rest =>
      if closed s then Cancelled s else if armed s then Expired s rest else await s rest
  | Wake a :: rest =>
      if closed s then Cancelled s
      else
        let s' := set_poll (Z.max (now s) (a_now a)) (a_room a) s in
        let race s := if a_raced a then set_output true [] (arrive (a_arrivals a) s) else arrive (a_arrivals a) s in
        match membership s' with
        | Some (d :: q) => Interrupted d (race (set_membership (Some q) s')) rest
        | _ => Done a (race s') rest
        end
  end.

(** [guarded]: the value of the future, or the membership delivery that won. *)
Definition guarded {A} (m : M A) : M (A + option Delivery) := fun s rest =>
  match m s rest with
  | Done a s' rest' => Done (inl a) s' rest'
  | Interrupted d s' rest' => Done (inr d) s' rest'
  | Expired s' rest' => Expired s' rest'
  | Waiting s' => Waiting s'
  | Cancelled s' => Cancelled s'
  | Panicked s' => Panicked s'
  | Starved s' => Starved s'
  end.

(** ** [MembershipGate::allows] *)

Definition the_gate : M MembershipGate :=
  s ← get; match gate s with Some g => mret g | None => panic end.

Definition update_gate (f : MembershipGate -> MembershipGate) : M unit :=
  modify (fun s => set_gate (f <$> gate s) s).

(** [self.api.get_workspace(w).await.ok()], the membership it carries. *)
Definition get_workspace (w : string) : M (option (option WorkspaceMembership)) :=
  a ← await;
  modify (add_log (ReadWorkspace w (bool_decide (is_Some (a_workspace a))))) ≫= fun _ =>
  mret (a_workspace a).

Definition owner_or_member (role : option HostRole) : bool :=
  bool_decide (role = Some HostOwner) || bool_decide (role = Some HostMember).

Definition manages (ws : option (option WorkspaceMembership)) : bool :=
  match ws with Some (Some m) => can_manage m | _ => false end.

Definition script_allows (role : option HostRole) (e : Event) : M bool :=
  let w := workspace_id e in
  if bool_decide (role = None) || bool_decide (w = "") then mret false
  else
    ws ← get_workspace w;
    match ws with
    | None | Some None => mret false
    | Some (Some m) =>
        if can_manage m then mret true
        else if negb (bool_decide (my_role m = Some RoleManager)) then mret false
        else if decide (event_type e = SCRIPT_CHANGED) then
          mret (field_is (data e) "action" "guest-access-revoked" ||
                nested_field_is (data e) "script" "purpose" "saved" ||
                (field_is (data e) "action" "removed" && field_is (data e) "purpose" "saved"))
        else
          match str_field (data e) "scriptId" with
          | None => mret false
          | Some _ =>
              a' ← await;
              mret (match a_script a' with Some s => field_is s "purpose" "saved" | None => false end)
          end
    end.

Definition execution_allows (role : option HostRole) (e : Event) : M bool :=
  let w := workspace_id e in
  if negb (owner_or_member role) then mret false
  else if decide (event_type e = HOST_EXECUTION_CONTEXT_CHANGED) then mret (bool_decide (w = ""))
  else if decide (event_type e = CLOUD_MACHINE_CHANGED) then
    if decide (w = "") then mret true
    else ws ← get_workspace w; mret (manages ws)
  else if decide (w = "") then mret false
  else ws ← get_workspace w; mret (bool_decide (is_Some ws)).

(** Read the workspace and cache the verdict. *)
Definition read_verdict (w : string) : M bool :=
  ws ← get_workspace w;
  s ← get;
  let ok := bool_decide (is_Some ws) in
  update_gate (set_verdict w (ok, now s)) ≫= fun _ => mret ok.

(** The last part of [allows]: the verdict of the workspace, cached for [TTL]. *)
Definition cached_allows (e : Event) : M bool :=
  let w := workspace_id e in
  g ← the_gate;
  s ← get;
  if is_own_unshare g e then
    update_gate (set_verdict w (false, now s)) ≫= fun _ => mret true
  else
    (if is_membership_change e then update_gate (drop_verdict w) else mret tt) ≫= fun _ =>
    g' ← the_gate;
    match verdicts g' !! w with
    | Some (verdict, at_) => if now s - at_ <? TTL then mret verdict else read_verdict w
    | None => read_verdict w
    end.

Definition allows (e : Event) : M bool :=
  a ← await;
  let role := a_role a in
  update_gate (note_role role) ≫= fun _ =>
  g ← the_gate;
  let w := workspace_id e in
  let own := field_is (data e) "principalId" (principal_id g) in
  if is_client_event_type (event_type e) then
    mret (bool_decide (w = "") && (owner_or_member role || (bool_decide (role = Some HostGuest) && own)))
  else if decide (event_type e = HOST_MEMBERS_CHANGED) then
    update_gate gate_clear ≫= fun _ =>
    mret (bool_decide (w = "") && (owner_or_member role || (own && field_is (data e) "action" "removed")))
  else if is_permission_event_type (event_type e) then
    if bool_decide (role = None) || bool_decide (w = "") then mret false
    else ws ← get_workspace w; mret (manages ws)
  else if is_script_event_type (event_type e) then script_allows role e
  else if is_member_execution_event_type (event_type e) then execution_allows role e
  else if decide (w = "") then mret false
  else if decide (role = Some HostMember) then
    if decide (event_type e = WORKSPACE_DELETED) then mret (negb (bool_decide (w = CHIEF_WORKSPACE_ID)))
    else ws ← get_workspace w; mret (bool_decide (is_Some ws))
  else cached_allows e.
