(* ===== verification/EventForwarder.v ===== *)
(** * The events forwarder ([crates/intent-transport/src/conn/recovery.rs])

    One [events.subscribe] stream: deliveries of the bus are authorized, conflated and
    enqueued for the writer; fences, loss markers and private frames are ordered with
    them.  The code is in the monad of [EventGate]; the buffer is that of [Conflate].
    The theorems hold for every sequence of inputs: every enqueued frame is covered by
    an authorization that no observed membership change outdates, and markers and
    fences are never overtaken. *)
From stdpp Require Import prelude strings gmap.
From S2P Require Import Prelude Json Conflate ConflateItems EventGate.

(** ** Queue events *)

Definition AGENT_QUEUE_UPDATED : string := "agent:queue:updated".
Definition AGENT_QUEUE_PROCESSING : string := "agent:queue:processing".
Definition FROM_PRINCIPAL_ID_KEY : string := "fromPrincipalId".
Definition QUEUE_AUTHOR_UNKNOWN_HUMAN_KEY : string := "queueAuthorUnknownHuman".

Inductive QueueAttribution :=
| Principal (id : string)
| UnknownHuman
| Unattributed.

Definition lift_from_principal_id (metadata : option json) : option string :=
  m ← metadata; id ← str_field m FROM_PRINCIPAL_ID_KEY;
  if decide (id = "") then None else Some id.

Definition queue_processing_event_attribution (metadata : option json) : QueueAttribution :=
  match lift_from_principal_id metadata with
  | Some author => Principal author
  | None =>
      if bool_decide ((m ← metadata; x ← jget m QUEUE_AUTHOR_UNKNOWN_HUMAN_KEY; as_bool x) = Some true)
      then UnknownHuman else Unattributed
  end.

Definition queue_attribution_visible_to (_ : Caller) (_ : QueueAttribution) : bool := true.

Definition project_queue_for_caller (_ : option Caller) (queue : list json) : list json := queue.

Definition project_queue_event_for_current_caller (caller : option Caller) (e : Event) : Event :=
  if decide (event_type e = AGENT_QUEUE_UPDATED) then
    match (q ← jget (data e) "queue"; as_array q) with
    | Some queue => with_data e (jset (data e) "queue" (JArray (project_queue_for_caller caller queue)))
    | None => e
    end
  else if decide (event_type e = AGENT_QUEUE_PROCESSING) then
    match caller with
    | None => e
    | Some c =>
        if queue_attribution_visible_to c (queue_processing_event_attribution (metadata e)) then e
        else
          match data e with
          | JObject m => with_data e (JObject (map_swap_remove m "content"))
          | _ => e
          end
    end
  else e.

(** ** The subscription *)

(** The arguments of [forward] that do not change, and the task's caller and
    connection. *)
Record Subscription := mkSubscription {
  scope : option string;
  recovery : bool;
  host_removal_control : bool;
  current_caller : option Caller;
  connection_epoch : option string }.

(** [intent_core::desktop::event_visible] *)
Definition event_visible (c : Subscription) (e : Event) : bool :=
  if negb (starts_with "desktop:" (event_type e)) then true
  else
    match current_caller c, metadata e with
    | Some (Wire p _), Some m =>
        field_is m "desktopPrincipalId" p &&
        match str_field m "desktopConnectionEpoch" with
        | None => true
        | Some epoch => bool_decide (connection_epoch c = Some epoch)
        end
    | _, _ => false
    end.

(** [self.out.recovery.close()] *)
Definition close_output : M unit := modify (set_output true []).

Definition enqueue (f : Frame) : M unit := modify (fun s => add_log (Enqueued f (stamp s)) s).

(** [Output::register] of a marker, without leases; [false] when it is registered
    already. *)
Definition register (g : Z) : M bool :=
  s ← get;
  if decide (Exists (fun f => f = LostFrame g) (registered s)) then mret false
  else modify (fun s => set_output (closed s) (LostFrame g :: registered s) s) ≫= fun _ => mret true.

(** Dropping the [ReceiptGuard]. *)
Definition cancel_receipt (g : Z) : M unit :=
  modify (fun s => set_output (closed s) (filter (fun f => f <> LostFrame g) (registered s)) s).

Section forwarder.
Context `{!Base64} (c : Subscription).

(** ** Membership *)

(** The loop over one batch of the membership subscription. *)
Fixpoint observe_batch (batch : list Event) : M bool :=
  match batch with
  | [] => mret true
  | e :: batch' =>
      g ← the_gate;
      s ← get;
      update_gate (observe_membership_event (now s) e) ≫= fun _ =>
      modify (add_log (Observed e)) ≫= fun _ =>
      if is_own_unshare g e && bool_decide (scope c = Some (workspace_id e)) then mret false
      else observe_batch batch'
  end.

(** [Forwarder::membership] *)
Definition on_membership (d : option Delivery) : M bool :=
  match d with
  | Some (Fence ack) => modify (add_log (MembershipAcked ack)) ≫= fun _ => mret true
  | Some (Batch batch) => observe_batch batch
  | _ =>
      update_gate gate_clear ≫= fun _ =>
      modify (set_buffer new) ≫= fun _ =>
      close_output ≫= fun _ => mret false
  end.

(** [membership.recv_delivery().now_or_never()] *)
Definition poll_membership : M (option (option Delivery)) :=
  s ← get;
  match membership s with
  | Some (d :: q) => modify (set_membership (Some q)) ≫= fun _ => mret (Some d)
  | _ => mret None
  end.

(** ** Authorization *)

Fixpoint allowed_loop (e : Event) (fuel : nat) : M (option bool) :=
  match fuel with
  | O => starve
  | S fuel' =>
      s ← get;
      match gate s with
      | None => mret (Some true)
      | Some _ =>
          r ← guarded (allows e);
          match r with
          | inl verdict =>
              d ← poll_membership;
              match d with
              | Some delivery =>
                  ok ← on_membership delivery;
                  if ok : bool then allowed_loop e fuel' else mret None
              | None => s ← get; mret (if closed s then None else Some verdict)
              end
          | inr delivery =>
              ok ← on_membership delivery;
              if ok : bool then allowed_loop e fuel' else mret None
          end
      end
  end.

Definition allowed (e : Event) : M (option bool) :=
  if negb (event_visible c e) then mret (Some false) else with_fuel (allowed_loop e).

(** ** Sending *)

Definition needs_projection (i : EventItem) : bool :=
  match i with
  | Latest e => starts_with "discussion:" (event_type e) || bool_decide (event_type e = PRESENCE_CHANGED)
  | Terminal _ _ => false
  end.

(** The item with the permit in hand, [inl] the result of [send_item] when it ends
    here; [inr None]: membership changed, start over. *)
Definition project (i : EventItem) : M (bool + option EventItem) :=
  if needs_projection i then
    r ← guarded (a ← await; mret (a_projected a));
    match r with
    | inl (Some (Some e)) => mret (inr (Some (Latest e)))
    | inl _ => mret (inl true)
    | inr d => ok ← on_membership d; if ok : bool then mret (inr None) else mret (inl false)
    end
  else mret (inr (Some i)).

Fixpoint send_item_loop (i : EventItem) (fuel : nat) : M bool :=
  match fuel with
  | O => starve
  | S fuel' =>
      r ← guarded (a ← await; mret (a_reserve a));
      match r with
      | inl false => mret false
      | inr d => ok ← on_membership d; if ok : bool then send_item_loop i fuel' else mret false
      | inl true =>
          p ← project i;
          match p with
          | inl result => mret result
          | inr None => send_item_loop i fuel'
          | inr (Some item) =>
              verdict ← allowed (item_event item);
              s ← get;
              match verdict with
              | Some true =>
                  if closed s then mret false
                  else enqueue (EventFrame (into_event item)) ≫= fun _ => mret true
              | Some false => mret true
              | None => mret false
              end
          end
      end
  end.

Definition send_item (i : EventItem) : M bool := with_fuel (send_item_loop i).

(** [self.buffer.pop()] *)
Definition pop_buffer : M (option EventItem) :=
  s ← get;
  match pop (buffer s) with
  | None => panic
  | Some (popped, b) => modify (set_buffer b) ≫= fun _ => mret (snd <$> popped)
  end.

Fixpoint drain_loop (fuel : nat) : M bool :=
  match fuel with
  | O => starve
  | S fuel' =>
      popped ← pop_buffer;
      match popped with
      | None => mret true
      | Some item => ok ← send_item item; if ok : bool then drain_loop fuel' else mret false
      end
  end.

Definition drain : M bool := with_fuel drain_loop.

Fixpoint control_loop (f : Frame) (fuel : nat) : M bool :=
  match fuel with
  | O => starve
  | S fuel' =>
      r ← guarded (a ← await; mret (a_reserve a));
      s ← get;
      match r with
      | inl ok =>
          if ok && negb (closed s) then
            d ← poll_membership;
            match d with
            | Some delivery =>
                ok ← on_membership delivery;
                if ok : bool then control_loop f fuel' else mret false
            | None => enqueue f ≫= fun _ => mret true
            end
          else mret false
      | inr d => ok ← on_membership d; if ok : bool then control_loop f fuel' else mret false
      end
  end.

Definition control (f : Frame) : M bool := with_fuel (control_loop f).

(** ** Loss markers *)

Fixpoint receipt_loop (g : Z) (fuel : nat) : M bool :=
  match fuel with
  | O => starve
  | S fuel' =>
      r ← guarded (a ← await; mret (a_receipt a));
      match r with
      | inl true => modify (add_log (MarkerWritten g)) ≫= fun _ => mret true
      | inl false => mret false
      | inr d => ok ← on_membership d; if ok : bool then receipt_loop g fuel' else mret false
      end
  end.

(** The select of [loss]: [work] until the deadline. *)
Definition until_deadline (work : M bool) : M bool := fun s rest =>
  match work (set_armed true s) rest with
  | Done ok s' rest' => Done ok (set_armed false s') rest'
  | Expired s' rest' => Done false (set_armed false s') rest'
  | other => other
  end.

Definition loss_work (g : Z) : M bool :=
  drained ← drain;
  if negb drained then mret false
  else
    sent ← control (LostFrame g);
    if negb sent then mret false else with_fuel (receipt_loop g).

Definition loss : M bool :=
  s ← get;
  match checked_add u64_max (generation s) 1 with
  | None => close_output ≫= fun _ => mret false
  | Some g =>
      modify (set_generation g) ≫= fun _ =>
      registered ← register g;
      if negb registered then close_output ≫= fun _ => mret false
      else
        success ← until_deadline (loss_work g);
        (if success : bool then mret tt else close_output) ≫= fun _ =>
        cancel_receipt g ≫= fun _ => mret success
  end.

(** ** Events *)

(** [conflate::offer] of a keyed event, and the match on its result. *)
Definition offer_event (key : Key) (e : Event) : M bool :=
  s ← get;
  let item := new_event_item key e in
  let lane := mkLane [] (match room s with None => Some 0%nat | Some _ => None end) in
  match offer build_event (buffer s) key item (default false (room s)) tt lane with
  | None => panic
  | Some (outcome, b, _, _) =>
      modify (set_buffer b) ≫= fun _ =>
      match outcome with
      | Closed => mret false
      | Sent => enqueue (EventFrame (into_event item)) ≫= fun _ => mret true
      | Buffered => mret true
      | Overflow back => drained ← drain; if negb drained then mret false else send_item back
      end
  end.

(** The subscriber's own removal from the host, sent elsewhere. *)
Definition own_host_removal (e : Event) : bool :=
  host_removal_control c && bool_decide (event_type e = HOST_MEMBERS_CHANGED) &&
  field_is (data e) "action" "removed" &&
  match (who ← current_caller c; caller_principal_id who) with
  | Some id => field_is (data e) "principalId" id
  | None => false
  end.

Definition forward_event (e : Event) : M bool :=
  if own_host_removal e then mret true
  else
    verdict ← allowed e;
    match verdict with
    | None => mret false
    | Some false => mret true
    | Some true =>
        s ← get;
        if closed s then mret false
        else
          let e' := match gate s with
                    | Some _ => project_queue_event_for_current_caller (current_caller c) e
                    | None => e
                    end in
          match event_key e' with
          | Some key => offer_event key e'
          | None => drained ← drain; if negb drained then mret false else send_item (Latest e')
          end
    end.

Fixpoint forward_batch (batch : list Event) : M bool :=
  match batch with
  | [] => mret true
  | e :: batch' => ok ← forward_event e; if ok : bool then forward_batch batch' else mret false
  end.

(** The match on [Input::Delivery]; [false]: the forwarder returns. *)
Definition on_delivery (d : option Delivery) : M bool :=
  match d with
  | None => drain ≫= fun _ => mret false
  | Some (Fence ack) =>
      drained ← drain;
      if negb drained then mret false
      else modify (fun s => add_log (FenceAcked ack (stamp s)) s) ≫= fun _ => mret true
  | Some (Lagged _) => if recovery c then loss else mret true
  | Some HistoryChanged => mret true
  | Some (Monitor output) =>
      drained ← drain;
      if negb drained then mret false else control (PrivateFrame output)
  | Some (Batch batch) => forward_batch batch
  end.

Fixpoint run (fuel : nat) : M unit :=
  match fuel with
  | O => starve
  | S fuel' =>
      r ← guarded await;
      ok ← match r with
           | inr d => on_membership d
           | inl a =>
               s ← get;
               if negb (is_empty (buffer s)) && a_drain a then
                 popped ← pop_buffer;
                 match popped with
                 | Some item => send_item item
                 | None => mret true
                 end
               else on_delivery (a_delivery a)
           end;
      if ok : bool then run fuel' else mret tt
  end.

Definition initial : Forwarder :=
  let g := for_current_caller (current_caller c) in
  mkForwarder g ((fun _ => []) <$> g) new 0 false [] false 0 None [].

Definition forward (inputs : list Input) : Res unit := with_fuel run initial inputs.
End forwarder.

(** The state a run is in or ended in. *)
Definition final {A} (r : Res A) : Forwarder :=
  match r with
  | Done _ s _ | Interrupted _ s _ | Expired s _ | Waiting s | Cancelled s | Panicked s | Starved s => s
  end.

(** ** What a trace must satisfy *)

(** Observing [e] makes what was known about workspace [w] stale. *)
Definition affects (e : Event) (w : string) : Prop :=
  event_type e = HOST_MEMBERS_CHANGED \/ (is_membership_change e = true /\ workspace_id e = w).

(** A read that found the workspace, with no stale-making event observed since. *)
Definition fresh_read (l : list Logged) (w : string) : Prop :=
  exists l1 l2, l = l1 ++ ReadWorkspace w true :: l2 /\ forall e, Observed e ∈ l2 -> ~ affects e w.

(** Why a stream gated for principal [p] may carry [e]. *)
Definition covered (p : string) (l : list Logged) (e : Event) : Prop :=
  workspace_id e = "" \/ event_type e = WORKSPACE_DELETED \/ unshared_principal e = Some p \/
  fresh_read l (workspace_id e).

(** The marker that was enqueued and is not yet written. *)
Definition open_step (o : option Z) (x : Logged) : option Z :=
  match x with
  | Enqueued (LostFrame g) _ => Some g
  | MarkerWritten _ => None
  | _ => o
  end.

Definition open_marker (l : list Logged) : option Z := foldl open_step None l.

Definition is_marker (x : Logged) : bool :=
  match x with Enqueued (LostFrame _) _ => true | _ => false end.

Definition markers (l : list Logged) : Z := count is_marker l.

(** [x] may follow [l] in the trace of a stream gated for [who]. *)
Definition entry_ok (who : option string) (l : list Logged) (x : Logged) : Prop :=
  match x with
  | Enqueued f st =>
      open_marker l = None /\ t_pending st = [] /\ t_closed st = false /\
      match f with
      | EventFrame e => forall p, who = Some p -> covered p l e
      | LostFrame g => g = markers l + 1 /\ t_held st = 0
      | PrivateFrame _ => t_held st = 0
      end
  | FenceAcked _ st => open_marker l = None /\ t_held st = 0
  | MarkerWritten g => open_marker l = Some g
  | MembershipAcked _ | Observed _ | ReadWorkspace _ _ => True
  end.

Definition trace_ok (who : option string) (l : list Logged) : Prop :=
  forall pre x post, l = pre ++ x :: post -> entry_ok who pre x.

Lemma trace_snoc who l x : trace_ok who l -> entry_ok who l x -> trace_ok who (l ++ [x]).
Proof.
  intros Hl Hx pre y post E. destruct post as [|z post] using rev_ind.
  - apply app_inj_tail in E as [-> ->]. done.
  - rewrite app_comm_cons, app_assoc in E. apply app_inj_tail in E as [-> _]. by eapply Hl.
Qed.

Lemma fresh_read_snoc l w x :
  fresh_read l w -> (forall e, x = Observed e -> ~ affects e w) -> fresh_read (l ++ [x]) w.
Proof.
  intros (l1 & l2 & -> & H) Hx. exists l1, (l2 ++ [x]). rewrite <- app_assoc. split; [done|].
  intros e [He|He%list_elem_of_singleton]%elem_of_app; [by apply H|by apply Hx].
Qed.

Lemma fresh_read_now l w : fresh_read (l ++ [ReadWorkspace w true]) w.
Proof. exists l, []. split; [done|]. intros e He. by apply not_elem_of_nil in He. Qed.

Lemma open_snoc l x : open_marker (l ++ [x]) = open_step (open_marker l) x.
Proof. unfold open_marker. by rewrite foldl_app. Qed.

Lemma markers_snoc l x : markers (l ++ [x]) = markers l + (if is_marker x then 1 else 0).
Proof. unfold markers. rewrite count_app. unfold count. simpl. by destruct (is_marker x). Qed.

(** ** Invariants and specifications *)

Section specs.
Context {B64 : Base64} (c : Subscription) (who : option string).

(** What holds of the state at every moment. *)
Record Inv (s : Forwarder) : Prop := mkInv {
  inv_buffer : buffer_wf (buffer s);
  inv_who : principal_id <$> gate s = who;
  inv_paired : is_Some (gate s) <-> is_Some (membership s);
  inv_verdicts : forall g w t, gate s = Some g -> verdicts g !! w = Some (true, t) -> fresh_read (log s) w;
  inv_trace : trace_ok who (log s) }.

(** What holds while the forwarder runs: the open marker is [o], and [k] are the
    current generation and the number of markers. *)
Record Pre (o : option Z) (k : Z * Z) (s : Forwarder) : Prop := mkPre {
  pre_inv : Inv s;
  pre_open : open_marker (log s) = o;
  pre_generation : (generation s, markers (log s)) = k }.

(** [E]: the states a guarded future may be dropped in.  A run never panics, and keeps
    the invariant however it ends. *)
Definition spec {A} (E P : Forwarder -> Prop) (m : M A) (Q : A -> Forwarder -> Prop) : Prop :=
  forall s rest, P s ->
    match m s rest with
    | Done a s' _ => Q a s'
    | Interrupted _ s' _ => E s'
    | Expired s' _ | Waiting s' | Cancelled s' | Starved s' => Inv s'
    | Panicked _ => False
    end.

Lemma spec_bind {A B} E P (m : M A) (k : A -> M B) R Q :
  spec E P m R -> (forall a, spec E (R a) (k a) Q) -> spec E P (m ≫= k) Q.
Proof.
  intros Hm Hk s rest HP. specialize (Hm s rest HP). unfold mbind, M_bind.
  destruct (m s rest) as [a s' rest'|d s' rest'|s' rest'|s'|s'|s'|s']; try done. by apply Hk.
Qed.

Lemma spec_ret {A} E P (a : A) Q : (forall s, P s -> Q a s) -> spec E P (mret a) Q.
Proof. intros H s rest HP. by apply H. Qed.

Lemma spec_modify E P f Q : (forall s, P s -> Q tt (f s)) -> spec E P (modify f) Q.
Proof. intros H s rest HP. by apply H. Qed.

Lemma spec_get {B} E P (k : Forwarder -> M B) Q :
  (forall s, P s -> spec E (fun s' => s' = s) (k s) Q) -> spec E P (get ≫= k) Q.
Proof. intros H s rest HP. by apply (H s HP s rest). Qed.

Lemma spec_weaken {A} (E E' P P' : Forwarder -> Prop) (m : M A) (Q Q' : A -> Forwarder -> Prop) :
  spec E P m Q -> (forall s, P' s -> P s) -> (forall a s, Q a s -> Q' a s) -> (forall s, E s -> E' s) ->
  spec E' P' m Q'.
Proof.
  intros Hm HP HQ HE s rest H. specialize (Hm s rest (HP s H)). destruct (m s rest); auto.
Qed.

Lemma spec_pre {A} (E P P' : Forwarder -> Prop) (m : M A) (Q : A -> Forwarder -> Prop) :
  spec E P m Q -> (forall s, P' s -> P s) -> spec E P' m Q.
Proof. intros Hm HP s rest Hs. by apply Hm, HP. Qed.

Lemma spec_guarded {A} E E' P (m : M A) Q :
  spec E P m Q -> spec E' P (guarded m) (fun r s => match r with inl a => Q a s | inr _ => E s end).
Proof.
  intros Hm s rest HP. specialize (Hm s rest HP). unfold guarded. by destruct (m s rest).
Qed.

Lemma spec_fuel {A} E P (m : nat -> M A) Q : (forall n, spec E P (m n) Q) -> spec E P (with_fuel m) Q.
Proof. intros H s rest HP. by apply H. Qed.

Lemma spec_starve {A} E (P : Forwarder -> Prop) (Q : A -> Forwarder -> Prop) :
  (forall s, P s -> Inv s) -> spec E P starve Q.
Proof. intros H s rest HP. by apply H. Qed.

(** ** States that agree on what the invariants read *)

Record agrees (s s' : Forwarder) : Prop := mkAgrees {
  ag_gate : gate s' = gate s;
  ag_membership : is_Some (membership s') <-> is_Some (membership s);
  ag_buffer : buffer s' = buffer s;
  ag_generation : generation s' = generation s;
  ag_log : log s' = log s }.

Lemma inv_agrees s s' : agrees s s' -> Inv s -> Inv s'.
Proof. intros [Hg Hm Hb Hn Hl] []. split; rewrite ?Hg, ?Hm, ?Hb, ?Hl; done. Qed.

Lemma pre_agrees o k s s' : agrees s s' -> Pre o k s -> Pre o k s'.
Proof.
  intros Ha [Hi Ho Hg]. split; [by eapply inv_agrees| |]; destruct Ha as [_ _ _ Hn Hl]; rewrite ?Hn, Hl; done.
Qed.

Lemma agrees_arrive ds s : agrees s (arrive ds s).
Proof. split; try done. cbn. by rewrite fmap_is_Some. Qed.

Lemma await_agrees inputs : forall s,
  match await s inputs with
  | Done _ s' _ | Interrupted _ s' _ | Expired s' _ | Waiting s' | Cancelled s' => agrees s s'
  | Panicked _ | Starved _ => False
  end.
Proof.
  assert (forall s s' s'', agrees s s' -> agrees s' s'' -> agrees s s'') as Htr.
  { intros s s' s'' [] []. split; try congruence. by etrans. }
  induction inputs as [|[d| | | |a] inputs IH]; intros s; cbn [await]; try (split; done).
  - specialize (IH (arrive [d] s)). pose proof (agrees_arrive [d] s).
    destruct (await _ inputs); try done; by eapply Htr.
  - specialize (IH (set_output true [] s)). assert (agrees s (set_output true [] s)) by (split; done).
    destruct (await _ inputs); try done; by eapply Htr.
  - destruct (closed s); [split; done|]. destruct (armed s); [split; done|]. apply IH.
  - destruct (closed s); [split; done|]. cbn [membership set_poll].
    destruct (membership s) as [[|d q]|] eqn:Em; destruct (a_raced a); split; cbn; rewrite ?Em; done.
Qed.

(** The states a guarded future is dropped in: a membership delivery is in hand. *)
Definition Dropped (o : option Z) (k : Z * Z) (s : Forwarder) : Prop := Pre o k s /\ is_Some who.

(** What an operation that reports success leaves; after a failure nothing runs. *)
Definition Post (o : option Z) (k : Z * Z) (ok : bool) (s : Forwarder) : Prop := if ok then Pre o k s else Inv s.

Lemma await_interrupted inputs : forall s d s' rest,
  await s inputs = Interrupted d s' rest -> is_Some (membership s).
Proof.
  induction inputs as [|[d0| | | |a] inputs IH]; intros s d s' rest; cbn [await]; try done.
  - intros H%IH. cbn in H. by rewrite fmap_is_Some in H.
  - intros H%IH. done.
  - destruct (closed s); [done|]. destruct (armed s); [done|]. apply IH.
  - destruct (closed s); [done|]. cbn [membership set_poll]. by destruct (membership s) as [[|]|].
Qed.

Lemma who_some s : Inv s -> is_Some (gate s) -> is_Some who.
Proof. intros Hi. rewrite <- (inv_who _ Hi). by rewrite fmap_is_Some. Qed.

Lemma spec_await o k : spec (Dropped o k) (Pre o k) await (fun _ => Pre o k).
Proof.
  intros s rest HP. pose proof (await_agrees rest s) as H.
  destruct (await s rest) as [|d s' rest'| | | | |] eqn:E; try done;
    try first [by eapply pre_agrees | eapply inv_agrees; [done|apply HP]].
  split; [by eapply pre_agrees|]. apply (who_some s); [apply HP|]. apply (inv_paired s); [apply HP|].
  by eapply await_interrupted.
Qed.

(** ** Changing the trace and the gate *)

Lemma inv_log s x :
  Inv s -> entry_ok who (log s) x ->
  (forall e g w t, x = Observed e -> gate s = Some g -> verdicts g !! w = Some (true, t) -> ~ affects e w) ->
  Inv (add_log x s).
Proof.
  intros [] Hx Ho. split; cbn; try done; [|by apply trace_snoc].
  intros g w t Hg Hv. apply fresh_read_snoc; [by eapply inv_verdicts0|]. intros e ->. by eapply Ho.
Qed.

Lemma pre_log o k s x :
  Pre o k s -> entry_ok who (log s) x -> open_step o x = o -> is_marker x = false ->
  (forall e g w t, x = Observed e -> gate s = Some g -> verdicts g !! w = Some (true, t) -> ~ affects e w) ->
  Pre o k (add_log x s).
Proof.
  intros [Hi Ho Hg] Hx Hs Hm He. split; [by apply inv_log| |]; cbn.
  - by rewrite open_snoc, Ho.
  - by rewrite markers_snoc, Hm, Z.add_0_r.
Qed.

Lemma inv_gate s f :
  Inv s -> (forall g, principal_id (f g) = principal_id g) ->
  (forall g w t, gate s = Some g -> verdicts (f g) !! w = Some (true, t) -> fresh_read (log s) w) ->
  Inv (set_gate (f <$> gate s) s).
Proof.
  intros [] Hp Hv. split; cbn; try done.
  - rewrite <- inv_who0. destruct (gate s); cbn; [by rewrite Hp|done].
  - by rewrite fmap_is_Some.
  - intros g w t Hg. destruct (gate s) as [g0|]; [|done]. injection Hg as <-. by apply Hv.
Qed.

Lemma pre_gate o k s f :
  Pre o k s -> (forall g, principal_id (f g) = principal_id g) ->
  (forall g w t, gate s = Some g -> verdicts (f g) !! w = Some (true, t) -> fresh_read (log s) w) ->
  Pre o k (set_gate (f <$> gate s) s).
Proof. intros [Hi Ho Hg] Hp Hv. split; [by apply inv_gate|done|done]. Qed.

(** [f] forgets or refuses, and grants nothing. *)
Definition shrinks (f : MembershipGate -> MembershipGate) : Prop :=
  forall g, principal_id (f g) = principal_id g /\
    forall w t, verdicts (f g) !! w = Some (true, t) -> verdicts g !! w = Some (true, t).

Lemma shrinks_clear : shrinks gate_clear.
Proof. intros g. split; [done|]. intros w t. cbn. by rewrite lookup_empty. Qed.

Lemma shrinks_drop w : shrinks (drop_verdict w).
Proof. intros g. split; [done|]. intros w' t Hv. cbn in Hv. by apply lookup_delete_Some in Hv as [_ ?]. Qed.

Lemma shrinks_refuse w t0 : shrinks (set_verdict w (false, t0)).
Proof. intros g. split; [done|]. intros w' t Hv. cbn in Hv. by apply lookup_insert_Some in Hv as [[_ ?]|[_ ?]]. Qed.

Lemma shrinks_role r : shrinks (note_role r).
Proof.
  intros g. unfold note_role. destruct (decide _); [done|]. split; [done|]. intros w t. cbn.
  by rewrite lookup_empty.
Qed.

Lemma shrinks_observe t0 e : shrinks (observe_membership_event t0 e).
Proof.
  intros g. unfold observe_membership_event. destruct (decide _); [apply shrinks_clear|].
  destruct (negb _); [done|]. destruct (is_own_unshare g e); [apply shrinks_refuse|apply shrinks_drop].
Qed.

(** What an observed event leaves is not about it. *)
Lemma observe_forgets t0 e g w t :
  verdicts (observe_membership_event t0 e g) !! w = Some (true, t) -> ~ affects e w.
Proof.
  unfold observe_membership_event. destruct (decide (event_type e = _)) as [He|He].
  { cbn. by rewrite lookup_empty. }
  intros Hv [?|[Hm <-]]; [done|]. rewrite Hm in Hv. cbn [negb] in Hv.
  destruct (is_own_unshare g e); cbn in Hv; [by rewrite lookup_insert_eq in Hv|by rewrite lookup_delete_eq in Hv].
Qed.

Lemma spec_update_gate E o k f :
  shrinks f -> spec E (Pre o k) (update_gate f) (fun _ => Pre o k).
Proof.
  intros Hf. apply spec_modify. intros s HP. apply pre_gate; [done|apply Hf|].
  intros g w t Hg Hv%Hf. by eapply (inv_verdicts s); [apply HP|..].
Qed.

Lemma spec_the_gate {B} E o k (K : MembershipGate -> M B) Q :
  is_Some who ->
  (forall g, who = Some (principal_id g) -> spec E (fun s => Pre o k s /\ gate s = Some g) (K g) Q) ->
  spec E (Pre o k) (the_gate ≫= K) Q.
Proof.
  intros [p Hp] HK s rest HP. pose proof (inv_who s (pre_inv _ _ _ HP)) as Hw.
  unfold the_gate, mbind, M_bind, get. destruct (gate s) as [g|] eqn:Hg; [|by rewrite Hp in Hw].
  cbn. by apply HK.
Qed.

(** ** The gate's answers *)

(** A granted event is covered. *)
Definition Granted (o : option Z) (k : Z * Z) (e : Event) (b : bool) (s : Forwarder) : Prop :=
  Pre o k s /\ (b = true -> forall p, who = Some p -> covered p (log s) e).

Lemma spec_answer E o k e b :
  (b = true -> workspace_id e = "" \/ event_type e = WORKSPACE_DELETED) -> spec E (Pre o k) (mret b) (Granted o k e).
Proof.
  intros Hb. apply spec_ret. intros s HP. split; [done|]. intros Ht p _. unfold covered. naive_solver.
Qed.

Lemma spec_get_workspace o k w :
  spec (Dropped o k) (Pre o k) (get_workspace w)
    (fun ws s => Pre o k s /\ (is_Some ws -> fresh_read (log s) w)).
Proof.
  eapply spec_bind; [apply spec_await|]. intros a. cbn beta.
  eapply (spec_bind _ _ _ _ (fun _ s => Pre o k s /\ (is_Some (a_workspace a) -> fresh_read (log s) w))).
  - apply spec_modify. intros s HP. split; [by apply pre_log|]. intros Hw. cbn.
    rewrite bool_decide_eq_true_2 by done. apply fresh_read_now.
  - intros _. by apply spec_ret.
Qed.

Lemma spec_by_read o k e (f : option (option WorkspaceMembership) -> bool) :
  (forall ws, f ws = true -> is_Some ws) ->
  spec (Dropped o k) (Pre o k) (ws ← get_workspace (workspace_id e); mret (f ws)) (Granted o k e).
Proof.
  intros Hf. eapply spec_bind; [apply spec_get_workspace|]. intros ws. apply spec_ret.
  intros s [HP Hr]. split; [done|]. intros Ht p _. right. right. right. by apply Hr, Hf.
Qed.

Lemma spec_script_allows o k role e :
  spec (Dropped o k) (Pre o k) (script_allows role e) (Granted o k e).
Proof.
  unfold script_allows. destruct (_ || _); [by apply spec_answer|].
  eapply spec_bind; [apply spec_get_workspace|]. intros ws.
  assert (forall E b, (b = true -> is_Some ws) ->
    spec E (fun s => Pre o k s /\ (is_Some ws -> fresh_read (log s) (workspace_id e))) (mret b) (Granted o k e)) as Hb.
  { intros E b Hws. apply spec_ret. intros s [HP Hr]. split; [done|]. intros Ht p _. right. right. right. auto. }
  destruct ws as [[m|]|]; try (by apply Hb).
  destruct (can_manage m); [by apply Hb|]. destruct (negb _); [by apply Hb|].
  destruct (decide _); [by apply Hb|]. destruct (str_field _ _) as [sid|]; [|by apply Hb].
  intros s rest [HP Hr]. pose proof (await_agrees rest s) as Ha. pose proof (spec_await o k s rest HP) as Hs.
  unfold mbind, M_bind. destruct (await s rest) as [a s' rest'| | | | | |]; try done.
  split; [done|]. intros _ p _. right. right. right. rewrite (ag_log _ _ Ha). by apply Hr.
Qed.

Lemma spec_execution_allows o k role e :
  spec (Dropped o k) (Pre o k) (execution_allows role e) (Granted o k e).
Proof.
  unfold execution_allows. destruct (negb _); [by apply spec_answer|].
  destruct (decide _); [apply spec_answer; intros ?%bool_decide_eq_true; by left|].
  destruct (decide _).
  { destruct (decide _); [apply spec_answer; by left|]. apply spec_by_read. by intros [[]|]. }
  destruct (decide _); [by apply spec_answer|]. apply spec_by_read. by intros ws ?%bool_decide_eq_true.
Qed.

Lemma spec_read_verdict o k e :
  spec (Dropped o k) (Pre o k) (read_verdict (workspace_id e)) (Granted o k e).
Proof.
  eapply spec_bind; [apply spec_get_workspace|]. intros ws.
  apply spec_get. intros s0 [HP Hr]. cbn zeta.
  eapply (spec_bind _ _ _ _ (fun _ s => Pre o k s /\ (is_Some ws -> fresh_read (log s) (workspace_id e)))).
  - apply spec_modify. intros s ->. split; [|done]. apply pre_gate; [done|done|].
    intros g w t Hg Hv. cbn in Hv. apply lookup_insert_Some in Hv as [[<- [= Hv _]]|[_ Hv]].
    + apply Hr. by apply bool_decide_eq_true in Hv.
    + by eapply (inv_verdicts s0); [apply HP|..].
  - intros _. apply spec_ret. intros s [HP' Hr']. split; [done|]. intros Ht p _. right. right. right.
    apply Hr'. by apply bool_decide_eq_true in Ht.
Qed.

Lemma spec_cached_allows o k e :
  is_Some who -> spec (Dropped o k) (Pre o k) (cached_allows e) (Granted o k e).
Proof.
  intros Hw. apply spec_the_gate; [done|]. intros g Hg. apply spec_get. intros s0 [HP Hg0].
  destruct (is_own_unshare g e) eqn:Ho.
  { eapply (spec_bind _ _ _ _ (fun _ => Pre o k)).
    - eapply spec_pre; [apply spec_update_gate, (shrinks_refuse (workspace_id e) (now s0))|by intros s ->].
    - intros _. apply spec_ret. intros s HP'. split; [done|]. intros _ p Hp. right. right. left.
      apply bool_decide_eq_true in Ho. congruence. }
  eapply (spec_bind _ _ _ _ (fun _ => Pre o k)).
  { destruct (is_membership_change e).
    - eapply spec_pre; [apply spec_update_gate, (shrinks_drop (workspace_id e))|by intros s ->].
    - apply spec_ret. by intros s ->. }
  intros _. apply spec_the_gate; [done|]. intros g' Hg'.
  assert (spec (Dropped o k) (fun s => Pre o k s /\ gate s = Some g') (read_verdict (workspace_id e)) (Granted o k e)) as Hread
    by (eapply spec_pre; [apply spec_read_verdict|by intros ? [? _]]).
  destruct (verdicts g' !! workspace_id e) as [[x t]|] eqn:Hv; [|done]. destruct (_ <? _); [|done].
  apply spec_ret. intros s [HP' Hs]. split; [done|]. intros -> p _. right. right. right.
  eapply (inv_verdicts s); [apply HP'|done..].
Qed.

Lemma spec_allows o k e : is_Some who -> spec (Dropped o k) (Pre o k) (allows e) (Granted o k e).
Proof.
  intros Hw. eapply spec_bind; [apply spec_await|]. intros a. cbn zeta.
  eapply spec_bind; [apply spec_update_gate, shrinks_role|]. intros [].
  apply spec_the_gate; [done|]. intros g Hg.
  apply (spec_weaken (Dropped o k) (Dropped o k) (Pre o k) _ _ (Granted o k e) (Granted o k e)); [|by intros ? [? _]|done|done].
  destruct (is_client_event_type _).
  { apply spec_answer. intros [?%bool_decide_eq_true _]%andb_true_iff. by left. }
  destruct (decide (event_type e = _)).
  { eapply spec_bind; [apply spec_update_gate, shrinks_clear|]. intros []. apply spec_answer.
    intros [?%bool_decide_eq_true _]%andb_true_iff. by left. }
  destruct (is_permission_event_type _).
  { destruct (_ || _); [by apply spec_answer|]. apply spec_by_read. by intros [[]|]. }
  destruct (is_script_event_type _); [apply spec_script_allows|].
  destruct (is_member_execution_event_type _); [apply spec_execution_allows|].
  destruct (decide _); [by apply spec_answer|]. destruct (decide _); [|by apply spec_cached_allows].
  destruct (decide _); [apply spec_answer; by right|]. apply spec_by_read. by intros ws ?%bool_decide_eq_true.
Qed.

(** ** Membership deliveries *)

Section held.
Variable B : ConflationBuffer EventItem -> Prop.

Lemma spec_await_held o k :
  spec (fun s => Dropped o k s /\ B (buffer s)) (fun s => Pre o k s /\ B (buffer s)) await
    (fun _ s => Pre o k s /\ B (buffer s)).
Proof.
  intros s rest [HP HB]. pose proof (await_agrees rest s) as Ha. pose proof (spec_await o k s rest HP) as Hs.
  destruct (await s rest); try done; by rewrite (ag_buffer _ _ Ha).
Qed.

(** An await for one of its answers. *)
Lemma spec_answer_of {A} o k (f : Answers -> A) E :
  spec E (fun s => Pre o k s /\ B (buffer s)) (guarded (a ← await; mret (f a)))
    (fun r s => (Pre o k s /\ B (buffer s)) /\ match r with inl _ => True | inr _ => is_Some who end).
Proof.
  eapply spec_weaken.
  - eapply (spec_guarded (fun s => Dropped o k s /\ B (buffer s)) E).
    eapply spec_bind; [apply spec_await_held|]. intros a. apply (spec_ret _ _ (f a) (fun _ s => Pre o k s /\ B (buffer s))). done.
  - done.
  - intros [x|d] s; [done|]. by intros [[? ?] ?].
  - done.
Qed.

Lemma spec_observe_batch E o k batch : is_Some who ->
  spec E (fun s => Pre o k s /\ B (buffer s)) (observe_batch c batch)
    (fun ok s => if ok then Pre o k s /\ B (buffer s) else Inv s).
Proof.
  intros Hw. induction batch as [|e batch IH]; [by apply spec_ret|]. cbn [observe_batch].
  intros s rest [HP HB]. destruct (gate s) as [g|] eqn:Hg.
  2: { pose proof (inv_who s (pre_inv _ _ _ HP)) as Hn. rewrite Hg in Hn. cbn in Hn. rewrite <- Hn in Hw. by destruct Hw. }
  unfold the_gate, update_gate, mbind, M_bind, get, modify. rewrite Hg. cbn.
  set (s1 := set_gate _ s). change (mkForwarder _ _ _ _ _ _ _ _ _ _) with (add_log (Observed e) s1).
  assert (Pre o k (add_log (Observed e) s1)) as HP1.
  { apply pre_log; try done.
    - apply pre_gate; [done|apply shrinks_observe|]. intros g' w t Hg' Hv%shrinks_observe.
      by eapply (inv_verdicts s); [apply HP|..].
    - intros e' g' w t [= <-] Hg' Hv. unfold s1 in Hg'. cbn in Hg'. rewrite Hg in Hg'. injection Hg' as <-.
      by eapply observe_forgets. }
  destruct (_ && _); [apply HP1|]. by apply IH.
Qed.

Lemma spec_on_membership E o k d : is_Some who ->
  spec E (fun s => Pre o k s /\ B (buffer s)) (on_membership c d)
    (fun ok s => if ok then Pre o k s /\ B (buffer s) else Inv s).
Proof.
  intros Hw.
  assert (forall m : M bool, m = (update_gate gate_clear ≫= fun _ =>
      modify (set_buffer new) ≫= fun _ => close_output ≫= fun _ => mret false) ->
    spec E (fun s => Pre o k s /\ B (buffer s)) m (fun ok s => if ok then Pre o k s /\ B (buffer s) else Inv s)) as Hend.
  { intros m ->. intros s rest [HP HB]. cbn.
    assert (Pre o k (set_gate (gate_clear <$> gate s) s)) as [Hi _ _].
    { apply pre_gate; [done|apply shrinks_clear|]. intros g w t Hg Hv%shrinks_clear.
      by eapply (inv_verdicts s); [apply HP|..]. }
    destruct Hi. split; try done. apply bounded_wf. }
  destruct d as [[batch|n|ack|out|]|]; try (by apply Hend).
  - by apply spec_observe_batch.
  - intros s rest [HP HB]. cbn. split; [|done]. by apply pre_log.
Qed.
End held.

(** ** Authorization *)

Lemma spec_poll_membership {A} E (P : Forwarder -> Prop) (K : option (option Delivery) -> M A) Q :
  (forall s, P s -> Inv s) -> (forall s s', agrees s s' -> P s -> P s') ->
  (forall d, is_Some who -> spec E P (K (Some d)) Q) ->
  spec E (fun s => P s /\ default [] (membership s) = []) (K None) Q ->
  spec E P (poll_membership ≫= K) Q.
Proof.
  intros HI HP HS HN s rest Hs. unfold poll_membership, mbind, M_bind, get.
  destruct (membership s) as [[|d q]|] eqn:Em; cbn.
  - apply HN. by rewrite Em.
  - apply HS.
    + apply (who_some s); [by apply HI|]. apply (inv_paired s); [by apply HI|]. by rewrite Em.
    + eapply HP; [|done]. split; cbn; by rewrite ?Em.
  - apply HN. by rewrite Em.
Qed.

(** The state in which [e] may be enqueued. *)
Definition Cleared (o : option Z) (k : Z * Z) (e : Event) (s : Forwarder) : Prop :=
  Pre o k s /\ default [] (membership s) = [] /\ forall p, who = Some p -> covered p (log s) e.

Definition Verdict (o : option Z) (k : Z * Z) (e : Event) (r : option bool) (s : Forwarder) : Prop :=
  match r with
  | Some true => Cleared o k e s
  | Some false => Pre o k s
  | None => Inv s
  end.

Lemma spec_any_membership E o k d : is_Some who ->
  spec E (Pre o k) (on_membership c d) (Post o k).
Proof.
  intros Hw. eapply spec_weaken.
  - by apply (spec_on_membership (fun _ => True) E o k d).
  - by intros s.
  - intros [] s; [by intros [? _]|done].
  - done.
Qed.

Lemma spec_allowed E o k e : spec E (Pre o k) (allowed c e) (Verdict o k e).
Proof.
  unfold allowed. destruct (negb _); [by apply spec_ret|]. apply spec_fuel. intros fuel.
  induction fuel as [|fuel IH]; cbn [allowed_loop]; [apply spec_starve; by intros s []|].
  assert (forall ok : bool, spec E (Post o k ok)
    (if ok then allowed_loop c e fuel else mret None) (Verdict o k e)) as Hloop
    by (intros []; [apply IH|by apply spec_ret]).
  apply spec_get. intros s0 HP. pose proof (pre_inv _ _ _ HP) as Hi. destruct (gate s0) as [g|] eqn:Hg.
  2: { apply spec_ret. intros s ->. pose proof (inv_who _ Hi) as Hw. rewrite Hg in Hw. cbn in Hw.
       split_and!; [done| |by rewrite <- Hw].
       destruct (membership s0) eqn:Em; [|done]. exfalso. assert (is_Some (gate s0)) as Hgs; [|by rewrite Hg in Hgs; destruct Hgs].
       apply (inv_paired _ Hi). by rewrite Em. }
  assert (is_Some who) as Hw by (by eapply (who_some s0); [|rewrite Hg]).
  eapply spec_bind.
  { eapply spec_pre; [by eapply (spec_guarded (Dropped o k) E), spec_allows|by intros s ->]. }
  intros [v|d].
  - apply spec_poll_membership.
    + by intros s [[] _].
    + intros s s' Ha [HP' Hc]. split; [by eapply pre_agrees|]. by rewrite (ag_log _ _ Ha).
    + intros d _. eapply spec_bind; [|apply Hloop].
      eapply spec_pre; [by apply (spec_any_membership E o k d)|by intros s [? _]].
    + apply spec_get. intros s [[HP' Hc] Hm]. apply spec_ret. intros s' ->.
      destruct (closed s); [apply HP'|]. destruct v; [|done]. split_and!; [done|done|]. auto.
  - eapply spec_bind; [|apply Hloop].
    eapply spec_pre; [by apply (spec_any_membership E o k d)|by intros s [? _]].
Qed.

(** ** Sending *)

Lemma covered_frame p l i : covered p l (item_event i) -> covered p l (into_event i).
Proof.
  unfold covered. destruct i as [e|e bytes]; cbn; [done|].
  destruct bytes as [bs|]; [|done]. destruct (as_object (data e)); [|done].
  intros [?|[?|[Hu|?]]]; auto. right. right. left. unfold unshared_principal in *. cbn.
  rewrite jget_jset_ne by done. done.
Qed.

Lemma spec_enqueue_event E k i :
  spec E (fun s => Cleared None k (item_event i) s /\ closed s = false)
    (enqueue (EventFrame (into_event i))) (fun _ => Pre None k).
Proof.
  apply spec_modify. intros s [(HP & Hm & Hc) Hcl]. apply pre_log; try done. cbn. rewrite Hm, Hcl.
  split_and!; [apply HP|done|done|]. intros p Hp. by apply covered_frame, Hc.
Qed.

Lemma spec_project E o k i :
  spec E (Pre o k) (project c i) (fun r s => match r with inl ok => Post o k ok s | inr _ => Pre o k s end).
Proof.
  unfold project. destruct (needs_projection i); [|by apply spec_ret].
  eapply spec_bind.
  { eapply spec_pre; [apply (spec_answer_of (fun _ => True) o k a_projected E)|by intros s]. }
  intros [[[e|]|]|d]; [by apply spec_ret; intros s [[? _] _]..|].
  intros s rest [[HP _] Hw]. pose proof (spec_any_membership E o k d Hw s rest HP) as H.
  unfold mbind, M_bind. destruct (on_membership c d s rest) as [[] s' rest'| | | | | |]; done.
Qed.

Lemma spec_send_item E k i : spec E (Pre None k) (send_item c i) (Post None k).
Proof.
  apply spec_fuel. intros fuel. induction fuel as [|fuel IH]; cbn [send_item_loop]; [apply spec_starve; by intros s []|].
  assert (forall ok : bool, spec E (Post None k ok)
    (if ok then send_item_loop c i fuel else mret false) (Post None k)) as Hloop
    by (intros []; [apply IH|by apply spec_ret]).
  eapply spec_bind.
  { eapply spec_pre; [apply (spec_answer_of (fun _ => True) None k a_reserve E)|by intros s]. }
  intros [[]|d].
  - eapply spec_bind.
    { eapply spec_pre; [apply (spec_project E None k i)|by intros s [[? _] _]]. }
    intros [ok|[item|]]; [by apply spec_ret| |apply IH].
    eapply spec_bind; [apply spec_allowed|]. intros v. apply spec_get. intros s0 Hv.
    destruct v as [[]|]; [|apply spec_ret; by intros s ->..].
    destruct (closed s0) eqn:Hc; [apply spec_ret; intros s ->; apply Hv|].
    eapply spec_bind; [eapply spec_pre; [apply (spec_enqueue_event E k item)|by intros s ->]|].
    intros []. by apply spec_ret.
  - apply spec_ret. by intros s [[[? _] _] _].
  - intros s rest [[HP _] Hw]. eapply (spec_bind E (Pre None k)); [by apply spec_any_membership|apply Hloop|done].
Qed.

(** ** The buffer, controls and markers *)

Lemma buffer_pre o k b s : Pre o k s -> buffer_wf b -> Pre o k (set_buffer b s).
Proof. intros [[] Ho Hg] Hb. split; [by split|done|done]. Qed.

Lemma spec_pop_buffer E o k :
  spec E (Pre o k) pop_buffer (fun r s => Pre o k s /\ (r = None -> entries (buffer s) = [])).
Proof.
  assert (forall t : EventItem, 0 <= cost t) as Hpos by apply event_cost_nonneg.
  apply spec_get. intros s0 HP. pose proof (pop_view Hpos _ (inv_buffer _ (pre_inv _ _ _ HP))) as Hv.
  destruct (entries (buffer s0)) as [|x rest] eqn:He.
  - rewrite Hv. intros s rest ->. cbn. split; [|done]. apply buffer_pre; [done|]. apply HP.
  - destruct Hv as (b & -> & Hb & Hw & _). intros s r ->. cbn. split; [|done]. by apply buffer_pre.
Qed.

(** The forwarder runs and holds nothing back. *)
Definition Empty (o : option Z) (k : Z * Z) (s : Forwarder) : Prop := Pre o k s /\ entries (buffer s) = [].

Lemma spec_drain E k : spec E (Pre None k) (drain c) (fun ok s => if ok then Empty None k s else Inv s).
Proof.
  apply spec_fuel. intros fuel. induction fuel as [|fuel IH]; cbn [drain_loop]; [apply spec_starve; by intros s []|].
  eapply spec_bind; [apply spec_pop_buffer|]. intros [item|].
  - eapply spec_bind; [eapply spec_pre; [apply (spec_send_item E k item)|by intros s [? _]]|].
    intros []; [apply IH|by apply spec_ret].
  - apply spec_ret. intros s [HP He]. split; [done|by apply He].
Qed.

Lemma spec_control E k f (Q : Forwarder -> Prop) :
  (forall s, Empty None k s -> default [] (membership s) = [] -> closed s = false ->
     Q (add_log (Enqueued f (stamp s)) s)) ->
  spec E (Empty None k) (control c f) (fun ok s => if ok then Q s else Inv s).
Proof.
  intros HQ. apply spec_fuel. intros fuel.
  induction fuel as [|fuel IH]; cbn [control_loop]; [apply spec_starve; by intros s [[] _]|].
  set (B := fun b : ConflationBuffer EventItem => entries b = []).
  assert (forall d, is_Some who -> spec E (Empty None k)
    (ok ← on_membership c d; if ok : bool then control_loop c f fuel else mret false)
    (fun ok s => if ok then Q s else Inv s)) as Hloop.
  { intros d Hw. eapply spec_bind; [by apply (spec_on_membership B E None k d)|].
    intros []; [apply IH|by apply spec_ret]. }
  eapply spec_bind; [apply (spec_answer_of B None k a_reserve E)|].
  intros r. apply spec_get. intros s0 [HE Hr]. destruct r as [ok|d].
  2: { eapply spec_pre; [by apply (Hloop d)|by intros s ->]. }
  destruct (ok && negb (closed s0)) eqn:Hc; [|apply spec_ret; intros s ->; apply HE].
  apply andb_true_iff in Hc as [_ Hc%negb_true_iff].
  apply (spec_pre E (fun s => Empty None k s /\ closed s = false)); [|by intros s ->].
  intros s rest [He Hcl]. unfold poll_membership, mbind, M_bind, get.
  destruct (membership s) as [[|d q]|] eqn:Em; cbn.
  - apply HQ; [done|by rewrite Em|done].
  - apply Hloop.
    + apply (who_some s); [apply He|]. apply (inv_paired s); [apply He|]. by rewrite Em.
    + destruct He as [HP HB]. split; [|done]. eapply pre_agrees; [|done]. split; cbn; by rewrite ?Em.
  - apply HQ; [done|by rewrite Em|done].
Qed.

Lemma spec_receipt E g : spec E (Pre (Some g) (g, g)) (with_fuel (receipt_loop c g)) (Post None (g, g)).
Proof.
  apply spec_fuel. intros fuel. induction fuel as [|fuel IH]; cbn [receipt_loop]; [apply spec_starve; by intros s []|].
  eapply spec_bind.
  { eapply spec_pre; [apply (spec_answer_of (fun _ => True) (Some g) (g, g) a_receipt E)|by intros s]. }
  intros [[]|d].
  - eapply (spec_bind _ _ _ _ (fun _ => Pre None (g, g))); [|intros _; by apply spec_ret].
    apply spec_modify. intros s [[[Hi Ho Hg] _] _]. split; cbn.
    + by apply inv_log.
    + by rewrite open_snoc.
    + by rewrite markers_snoc, Z.add_0_r.
  - apply spec_ret. by intros s [[[] _] _].
  - intros s rest [[HP _] Hw].
    eapply (spec_bind E (Pre (Some g) (g, g))); [by apply spec_any_membership| |done].
    intros []; [apply IH|by apply spec_ret].
Qed.

Lemma inv_output s x r : Inv s -> Inv (set_output x r s).
Proof. intros Hi. eapply inv_agrees; [|done]. by split. Qed.

Lemma spec_loss_work E g : spec E (Pre None (g, g - 1)) (loss_work c g) (Post None (g, g)).
Proof.
  eapply spec_bind; [apply spec_drain|]. intros []; [|by apply spec_ret]. cbn [negb].
  eapply spec_bind.
  { apply (spec_control E (g, g - 1) (LostFrame g) (Pre (Some g) (g, g))).
    intros s [[Hi Ho Hg] Hb] Hm Hc. injection Hg as Hg Hk. split; cbn.
    - apply inv_log; [done| |done]. cbn. rewrite Hm, Hc, Hb. split_and!; try done. lia.
    - by rewrite open_snoc, Ho.
    - rewrite markers_snoc. cbn. f_equal; lia. }
  intros []; [apply spec_receipt|by apply spec_ret].
Qed.

(** No marker is open, and the markers are those of all generations so far. *)
Definition Running (s : Forwarder) : Prop := exists g, Pre None (g, g) s.

Definition Outcome (ok : bool) (s : Forwarder) : Prop := if ok then Running s else Inv s.

Lemma running_inv s : Running s -> Inv s.
Proof. by intros [g []]. Qed.

Lemma spec_close_output E (P : Forwarder -> Prop) :
  (forall s, P s -> Inv s) -> spec E P (close_output ≫= fun _ => mret false) Outcome.
Proof. intros HP s rest Hs. cbn. by apply inv_output, HP. Qed.

Lemma spec_until_deadline E g : spec E (Pre None (g, g - 1)) (until_deadline (loss_work c g)) (Post None (g, g)).
Proof.
  intros s rest HP. unfold until_deadline.
  assert (Pre None (g, g - 1) (set_armed true s)) as HP' by (eapply pre_agrees; [|done]; by split).
  pose proof (spec_loss_work E g _ rest HP') as H.
  destruct (loss_work c g (set_armed true s) rest) as [ok s' rest'| | | | | |]; try done.
  - destruct ok; cbn in *; [eapply pre_agrees; [|done]|eapply inv_agrees; [|done]]; by split.
  - eapply inv_agrees; [|done]. by split.
Qed.

Lemma spec_loss E : spec E Running (loss c) Outcome.
Proof.
  apply spec_get. intros s0 [g HP]. pose proof (pre_generation _ _ _ HP) as Hg. injection Hg as Hg Hk.
  unfold checked_add. destruct (_ <=? _); [|by apply spec_close_output; intros s ->; apply HP].
  rewrite Hg. replace g with (g + 1 - 1) in HP, Hk by lia. set (g' := g + 1) in *.
  eapply (spec_bind _ _ _ _ (fun _ => Pre None (g', g' - 1))).
  { apply spec_modify. intros s ->. destruct HP as [[] Ho _]. split; [by split|done|]. cbn. by rewrite Hk. }
  intros _. eapply (spec_bind _ _ _ _ (fun _ => Pre None (g', g' - 1))).
  { apply spec_get. intros s HP'. destruct (decide _); [apply spec_ret; by intros ? ->|].
    intros s' rest ->. cbn. eapply pre_agrees; [|done]. by split. }
  intros []; [|apply spec_close_output; by intros s []]. cbn [negb].
  eapply spec_bind; [apply spec_until_deadline|]. intros ok s rest Hs. destruct ok; cbn.
  - exists g'. eapply pre_agrees; [|done]. by split.
  - eapply inv_agrees; [|done]. by split.
Qed.

(** ** Events and deliveries *)

Lemma offer_total (b : ConflationBuffer EventItem) key item rm l : buffer_wf b ->
  exists outcome b' l', offer build_event b key item rm tt l = Some (outcome, b', tt, l') /\ buffer_wf b'.
Proof.
  intros Hb. assert (forall t : EventItem, 0 <= cost t) as Hpos by apply event_cost_nonneg.
  assert (exists outcome b', buffer_item b key item tt l = Some (outcome, b', tt, l) /\ buffer_wf b') as (o & b' & Hi & Hw).
  { destruct (push_view Hpos b key item Hb) as (r & b' & Hp & Hv). unfold buffer_item. rewrite Hp. cbn.
    eexists _, _. split; [done|]. by eapply push_view_wf. }
  unfold offer. destruct (is_empty b); [|by eexists _, _, _].
  destruct (closes_after l) as [[|n]|] eqn:El; [by eexists _, _, _|..]; destruct rm; try (by eexists _, _, _).
  all: unfold Conflate.send_item, build_event, lane_send; rewrite El; by eexists _, _, _.
Qed.

Lemma spec_offer_event E k key e :
  spec E (fun s => Cleared None k e s /\ closed s = false) (offer_event c key e) (Post None k).
Proof.
  apply spec_get. intros s0 [(HP & Hm & Hc) Hcl]. cbn zeta.
  destruct (offer_total (buffer s0) key (new_event_item key e) (default false (room s0))
    (mkLane [] (match room s0 with None => Some 0%nat | Some _ => None end)) (inv_buffer _ (pre_inv _ _ _ HP)))
    as (outcome & b & l & -> & Hb).
  eapply (spec_bind _ _ _ _ (fun _ s => Cleared None k e s /\ closed s = false)).
  { apply spec_modify. intros s ->. split; [|done]. split_and!; [by apply buffer_pre|done|done]. }
  intros _. destruct outcome as [| |back|]; [|by apply spec_ret; intros s [[? _] _]| |apply spec_ret; intros s [[Hp _] _]; apply Hp].
  - eapply (spec_bind _ _ _ _ (fun _ => Pre None k)); [|intros _; by apply spec_ret]. eapply spec_pre; [apply spec_enqueue_event|].
    intros s [Hs ?]. split; [|done]. by destruct key.
  - eapply spec_bind; [eapply spec_pre; [apply spec_drain|by intros s [[? _] _]]|].
    intros []; [|by apply spec_ret]. eapply spec_pre; [apply spec_send_item|by intros s [? _]].
Qed.

Lemma covered_projected p l who' e :
  covered p l e -> covered p l (project_queue_event_for_current_caller who' e).
Proof.
  assert (forall d, event_type e <> WORKSPACE_UPDATED -> covered p l e -> covered p l (with_data e d)) as Hd.
  { intros d Ht [?|[?|[Hu|?]]]; unfold covered; cbn; auto. unfold unshared_principal in Hu.
    by rewrite decide_False in Hu by done. }
  unfold project_queue_event_for_current_caller. destruct (decide _) as [Ht|].
  { destruct (_ ≫= _); [|done]. apply Hd. by rewrite Ht. }
  destruct (decide _); [|done]. by destruct who'.
Qed.

Lemma spec_forward_event E k e : spec E (Pre None k) (forward_event c e) (Post None k).
Proof.
  unfold forward_event. destruct (own_host_removal c e); [by apply spec_ret|].
  eapply spec_bind; [apply spec_allowed|]. intros [[]|]; [|by apply spec_ret..].
  apply spec_get. intros s0 Hv. destruct (closed s0) eqn:Hcl; [apply spec_ret; intros s ->; apply Hv|].
  set (e' := match gate s0 with Some _ => _ | None => _ end).
  assert (Cleared None k e' s0) as Hv'.
  { destruct Hv as (HP & Hm & Hc). split_and!; [done|done|]. intros p Hp. subst e'.
    destruct (gate s0); [apply covered_projected|]; auto. }
  destruct (event_key e') as [key|].
  - eapply spec_pre; [apply spec_offer_event|]. by intros s ->.
  - eapply spec_bind; [eapply spec_pre; [apply (spec_drain E k)|intros s ->; apply Hv]|].
    intros []; [|by apply spec_ret]. eapply spec_pre; [apply spec_send_item|by intros s [? _]].
Qed.

Lemma spec_forward_batch E k batch : spec E (Pre None k) (forward_batch c batch) (Post None k).
Proof.
  induction batch as [|e batch IH]; [by apply spec_ret|]. cbn [forward_batch].
  eapply spec_bind; [apply spec_forward_event|]. intros []; [apply IH|by apply spec_ret].
Qed.

(** An operation that leaves the markers as they are. *)
Lemma spec_running E (m : M bool) : (forall k, spec E (Pre None k) m (Post None k)) -> spec E Running m Outcome.
Proof.
  intros Hm s rest [g HP]. specialize (Hm (g, g) s rest HP). destruct (m s rest) as [[]| | | | | |]; try done.
  by exists g.
Qed.

Lemma spec_on_delivery E d : spec E Running (on_delivery c d) Outcome.
Proof.
  destruct d as [[batch|n|ack|output|]|]; cbn [on_delivery].
  - apply spec_running. intros k. apply spec_forward_batch.
  - destruct (recovery c); [apply spec_loss|by apply spec_ret].
  - apply spec_running. intros k. eapply spec_bind; [apply spec_drain|]. intros []; [|by apply spec_ret].
    intros s rest [HP He]. cbn. apply pre_log; try done. cbn. rewrite He. split; [apply HP|done].
  - apply spec_running. intros k. eapply spec_bind; [apply spec_drain|]. intros []; [|by apply spec_ret].
    apply spec_control. intros s [HP He] Hm Hc. apply pre_log; try done. cbn. rewrite Hm, Hc, He.
    split_and!; try done. apply HP.
  - by apply spec_ret.
  - intros s rest [g HP]. pose proof (spec_drain E (g, g) s rest HP) as H. unfold mbind, M_bind.
    destruct (drain c s rest) as [[]| | | | | |]; try done. apply H.
Qed.

Lemma spec_run E fuel : spec E Running (run c fuel) (fun _ => Inv).
Proof.
  induction fuel as [|fuel IH]; cbn [run]; [apply spec_starve, running_inv|].
  eapply (spec_bind _ _ _ _ (fun r s => Running s /\ match r with inl _ => True | inr _ => is_Some who end)).
  { intros s rest [g HP]. pose proof (spec_guarded (Dropped None (g, g)) E _ _ _ (spec_await None (g, g)) s rest HP) as H.
    destruct (guarded await s rest) as [[a|d]| | | | | |]; try done.
    - split; [by exists g|done].
    - destruct H as [? ?]. split; [by exists g|done]. }
  intros r. eapply (spec_bind _ _ _ _ Outcome).
  - destruct r as [a|d].
    + apply spec_get. intros s0 [Hr _]. destruct (_ && _).
      * apply (spec_pre E Running); [|by intros s ->]. apply spec_running. intros k.
        eapply spec_bind; [apply spec_pop_buffer|]. intros [item|].
        -- eapply spec_pre; [apply spec_send_item|by intros s [? _]].
        -- apply spec_ret. by intros s [? _].
      * apply (spec_pre E Running); [apply spec_on_delivery|by intros s ->].
    + intros s rest [Hs Hw]. apply (spec_running E (on_membership c d)); [|done].
      intros k. by apply spec_any_membership.
  - intros []; [apply IH|by apply spec_ret].
Qed.
End specs.

(** ** Loops get enough rounds *)

(** From fewer than [N] inputs, [m] never runs out of rounds, and consumes [d] inputs
    when it returns. *)
Definition frugal {A} (d N : nat) (m : M A) : Prop :=
  forall s rest, (length rest < N)%nat ->
    match m s rest with
    | Done _ _ rest' | Interrupted _ _ rest' | Expired _ rest' => (length rest' + d <= length rest)%nat
    | Starved _ => False
    | Waiting _ | Cancelled _ | Panicked _ => True
    end.

Create HintDb frugal.

Lemma frugal_bind {A B} d N (m : M A) (k : A -> M B) :
  frugal d N m -> (forall a, frugal 0 (N - d) (k a)) -> frugal d N (m ≫= k).
Proof.
  intros Hm Hk s rest Hr. specialize (Hm s rest Hr). unfold mbind, M_bind.
  destruct (m s rest) as [a s' rest'| | | | | |]; try done.
  specialize (Hk a s' rest' ltac:(lia)). destruct (k a s' rest'); try done; lia.
Qed.

Lemma frugal_less {A} d N (m : M A) : frugal d N m -> frugal 0 N m.
Proof. intros Hm s rest Hr. specialize (Hm s rest Hr). destruct (m s rest); try done; lia. Qed.

Lemma frugal_mono {A} d N N' (m : M A) : frugal d N m -> (N' <= N)%nat -> frugal d N' m.
Proof. intros Hm HN s rest Hr. apply Hm. lia. Qed.

Lemma frugal_bind0 {A B} N (m : M A) (k : A -> M B) :
  frugal 0 N m -> (forall a, frugal 0 N (k a)) -> frugal 0 N (m ≫= k).
Proof. intros Hm Hk. apply frugal_bind; [done|]. intros a. by rewrite Nat.sub_0_r. Qed.

Lemma frugal_ret {A} N (a : A) : frugal 0 N (mret a).
Proof. intros s rest _. cbn. lia. Qed.

Lemma frugal_get N : frugal 0 N get.
Proof. intros s rest _. cbn. lia. Qed.

Lemma frugal_modify N f : frugal 0 N (modify f).
Proof. intros s rest _. cbn. lia. Qed.

Lemma frugal_panic {A} d N : frugal d N (@panic A).
Proof. by intros s rest _. Qed.

Lemma frugal_guarded {A} d N (m : M A) : frugal d N m -> frugal d N (guarded m).
Proof. intros Hm s rest Hr. specialize (Hm s rest Hr). unfold guarded. by destruct (m s rest). Qed.

Lemma frugal_fuel {A} d N (m : nat -> M A) : (forall n, frugal d n (m n)) -> frugal d N (with_fuel m).
Proof. intros Hm s rest _. apply Hm. lia. Qed.

Lemma frugal_starve {A} d : frugal d 0 (@starve A).
Proof. intros s rest Hr. lia. Qed.

Lemma frugal_await N : frugal 1 N await.
Proof.
  intros s rest _. revert s. induction rest as [|[d| | | |a] rest IH]; intros s; cbn [await length]; try done.
  - specialize (IH (arrive [d] s)). destruct (await _ rest); try done; lia.
  - specialize (IH (set_output true [] s)). destruct (await _ rest); try done; lia.
  - destruct (closed s); [done|]. destruct (armed s); [lia|]. specialize (IH s). destruct (await _ rest); try done; lia.
  - destruct (closed s); [done|]. destruct (membership _) as [[|]|]; lia.
Qed.

#[export] Hint Resolve frugal_ret frugal_get frugal_modify frugal_panic frugal_await frugal_starve : frugal.

(** Follow the structure of a computation that may consume nothing. *)
Ltac frugal :=
  repeat first
    [ solve [auto with frugal]
    | apply (frugal_less 1), frugal_await
    | apply frugal_bind0; [|intros ?]
    | match goal with
      | |- frugal 0 _ (match ?x with _ => _ end) => destruct x
      | |- frugal 0 _ (let '(_, _) := ?x in _) => destruct x
      end ].

Section rounds.
Context {B64 : Base64} (c : Subscription).

Lemma frugal_get_workspace N w : frugal 0 N (get_workspace w).
Proof. unfold get_workspace. frugal. Qed.

Lemma frugal_allows N e : frugal 1 N (allows e).
Proof.
  apply frugal_bind; [apply frugal_await|]. intros a. cbn zeta.
  unfold update_gate, the_gate, script_allows, execution_allows, cached_allows, read_verdict, get_workspace,
    the_gate, update_gate. frugal.
Qed.

Lemma frugal_on_membership N d : frugal 0 N (on_membership c d).
Proof.
  destruct d as [[batch|n|ack|out|]|]; cbn [on_membership]; unfold update_gate, close_output; try by frugal.
  induction batch as [|e batch IH]; cbn [observe_batch]; unfold the_gate, update_gate; frugal.
Qed.

(** A round of a loop: it begins with something that consumes an input. *)
Lemma frugal_round {A B} fuel (m : M A) (k : A -> M B) :
  frugal 1 (S fuel) m -> (forall a, frugal 0 fuel (k a)) -> frugal 1 (S fuel) (m ≫= k).
Proof. intros Hm Hk. apply frugal_bind; [done|]. intros a. by replace (S fuel - 1)%nat with fuel by lia. Qed.

Lemma frugal_answer {A} N (f : Answers -> A) : frugal 1 N (guarded (a ← await; mret (f a))).
Proof. apply frugal_guarded, frugal_bind; [apply frugal_await|]. intros a. apply frugal_ret. Qed.

Lemma frugal_poll N : frugal 0 N poll_membership.
Proof. unfold poll_membership. frugal. Qed.

Lemma frugal_pop N : frugal 0 N pop_buffer.
Proof. unfold pop_buffer. frugal. Qed.

Hint Resolve frugal_on_membership frugal_poll frugal_pop : frugal.

Lemma frugal_allowed N e : frugal 0 N (allowed c e).
Proof.
  unfold allowed. destruct (negb _); [apply frugal_ret|]. apply frugal_fuel. intros fuel.
  induction fuel as [|fuel IH]; cbn [allowed_loop]; [apply frugal_starve|].
  apply frugal_bind0; [apply frugal_get|]. intros s. destruct (gate s); [|apply frugal_ret].
  eapply frugal_less, frugal_round; [apply frugal_guarded, frugal_allows|]. intros r. frugal.
Qed.

Lemma frugal_project N i : frugal 0 N (project c i).
Proof.
  unfold project. destruct (needs_projection i); [|apply frugal_ret].
  apply frugal_bind0; [eapply frugal_less, frugal_answer|]. intros r. frugal.
Qed.

Hint Resolve frugal_allowed frugal_project : frugal.

Lemma frugal_send_item N i : frugal 1 N (send_item c i).
Proof.
  apply frugal_fuel. intros fuel. induction fuel as [|fuel IH]; cbn [send_item_loop]; [apply frugal_starve|].
  apply frugal_less in IH. apply frugal_round; [apply frugal_answer|]. intros r. unfold enqueue. frugal.
Qed.

Lemma frugal_drain N : frugal 0 N (drain c).
Proof.
  apply frugal_fuel. intros fuel. induction fuel as [|fuel IH]; cbn [drain_loop]; [apply frugal_starve|].
  apply frugal_bind0; [apply frugal_pop|]. intros [item|]; [|apply frugal_ret].
  eapply frugal_less, frugal_round; [apply frugal_send_item|]. intros r. frugal.
Qed.

Lemma frugal_control N f : frugal 0 N (control c f).
Proof.
  apply frugal_fuel. intros fuel. induction fuel as [|fuel IH]; cbn [control_loop]; [apply frugal_starve|].
  eapply frugal_less, frugal_round; [apply frugal_answer|]. intros r. unfold enqueue. frugal.
Qed.

Hint Resolve frugal_drain frugal_control : frugal.

Lemma frugal_send_item0 N i : frugal 0 N (send_item c i).
Proof. eapply frugal_less, frugal_send_item. Qed.

Hint Resolve frugal_send_item0 : frugal.

Lemma frugal_receipt N g : frugal 0 N (with_fuel (receipt_loop c g)).
Proof.
  apply frugal_fuel. intros fuel. induction fuel as [|fuel IH]; cbn [receipt_loop]; [apply frugal_starve|].
  eapply frugal_less, frugal_round; [apply frugal_answer|]. intros r. frugal.
Qed.

Hint Resolve frugal_receipt : frugal.

Lemma frugal_until_deadline N g : frugal 0 N (until_deadline (loss_work c g)).
Proof.
  assert (frugal 0 N (loss_work c g)) as Hw by (unfold loss_work; frugal).
  intros s rest Hr. specialize (Hw (set_armed true s) rest Hr). unfold until_deadline.
  by destruct (loss_work c g (set_armed true s) rest).
Qed.

Hint Resolve frugal_until_deadline : frugal.

Lemma frugal_on_delivery N d : frugal 0 N (on_delivery c d).
Proof.
  assert (frugal 0 N (loss c)) as Hl.
  { unfold loss, close_output, register, cancel_receipt. frugal. }
  assert (forall batch, frugal 0 N (forward_batch c batch)) as Hb.
  { induction batch as [|e batch IH]; cbn [forward_batch]; [apply frugal_ret|].
    assert (frugal 0 N (forward_event c e)) as He by (unfold forward_event, offer_event, enqueue; frugal). frugal. }
  destruct d as [[batch|n|ack|out|]|]; cbn [on_delivery]; frugal.
Qed.

Lemma frugal_run fuel : frugal 0 fuel (run c fuel).
Proof.
  induction fuel as [|fuel IH]; cbn [run]; [apply frugal_starve|].
  eapply frugal_less, frugal_round; [apply frugal_guarded, frugal_await|]. intros r.
  pose proof (frugal_on_delivery fuel). frugal.
Qed.
End rounds.

(** ** Runs *)

Section runs.
Context {B64 : Base64} (c : Subscription).

(** The principal the stream is gated for. *)
Definition gated_for : option string := principal_id <$> for_current_caller (current_caller c).

Lemma initial_running : Running gated_for (initial c).
Proof.
  exists 0. split; [|done|done]. split; cbn.
  - apply bounded_wf.
  - done.
  - by rewrite fmap_is_Some.
  - intros g w t Hg. unfold for_current_caller in Hg.
    destruct (current_caller c) as [[p []| | |]|]; try done; injection Hg as <-; cbn; by rewrite lookup_empty.
  - intros pre x post E. by apply app_cons_not_nil in E.
Qed.

Lemma forward_inv inputs :
  Inv gated_for (final (forward c inputs)) /\
  match forward c inputs with
  | Done _ _ _ | Waiting _ | Cancelled _ | Expired _ _ => True
  | Interrupted _ _ _ | Panicked _ | Starved _ => False
  end.
Proof.
  pose proof (spec_run c gated_for (fun _ => False) (S (length inputs)) (initial c) inputs initial_running) as Hs.
  pose proof (frugal_run c (S (length inputs)) (initial c) inputs ltac:(lia)) as Hf.
  unfold forward, with_fuel. by destruct (run c (S (length inputs)) (initial c) inputs).
Qed.

(** A marker is not passed before it is written. *)
Lemma marker_written l1 l2 g st who :
  trace_ok who (l1 ++ Enqueued (LostFrame g) st :: l2) ->
  open_marker (l1 ++ Enqueued (LostFrame g) st :: l2) = Some g \/ MarkerWritten g ∈ l2.
Proof.
  induction l2 as [|x l2 IH] using rev_ind; intros Ht.
  { left. by rewrite open_snoc. }
  rewrite app_comm_cons, app_assoc in Ht |- *. rewrite elem_of_app.
  assert (trace_ok who (l1 ++ Enqueued (LostFrame g) st :: l2)) as Ht'.
  { intros pre y post E. apply (Ht pre y (post ++ [x])). by rewrite E, <- app_assoc. }
  pose proof (Ht _ x [] eq_refl) as Hx. destruct (IH Ht') as [Ho|Hin]; [|by right; left].
  rewrite open_snoc, Ho. destruct x as [[] ?|? ?| |g'| |]; cbn in Hx |- *; try (by left); try (by destruct Hx; congruence).
  right. right. apply list_elem_of_singleton. congruence.
Qed.
End runs.

(** ** Inputs for the examples: the stream of guest "g" and its workspace "w" *)
Module Removal.
Definition no_base64 : Base64 := {| BASE64_encode _ := ""; BASE64_decode _ := None |}.

Definition event (t : string) (d : json) : Event :=
  mkEvent "e" "w" "" t (mkEventActor System None None None None None) None None None None d.

Definition edit : Event := event "note:updated" JNull.

Definition removal : Event :=
  event WORKSPACE_UPDATED (JObject [("changes", JObject [("members", JBool true); ("removedPrincipalId", JString "g")])]).

Definition guest : Subscription := mkSubscription None true false (Some (Wire "g" HostGuest)) None.

Definition answer (workspace : bool) (d : option Delivery) : Input :=
  Wake (mkAnswers 0 (Some HostGuest) (if workspace then Some None else None) None true None true false d (Some true) [] false).

Definition summary (x : Logged) : string :=
  match x with
  | Enqueued (EventFrame e) _ => "event"
  | Enqueued (LostFrame _) _ => "marker"
  | Enqueued (PrivateFrame _) _ => "private"
  | FenceAcked _ _ | MembershipAcked _ => "ack"
  | MarkerWritten _ => "written"
  | Observed _ => "observed"
  | ReadWorkspace _ ok => if ok then "member" else "stranger"
  end.

End Removal.

(** * Properties *)

(** [C3] Whatever the environment does, the forwarder neither panics nor spins, and every
    event it enqueues is authorized at that moment: no membership delivery is waiting to
    be looked at, the output is open, and on a gated stream the event is global, tells of
    a deletion, is the subscriber's own removal, or its workspace was read successfully
    after the last membership change of that workspace the forwarder observed.  So a
    removal that has reached the forwarder silences the workspace at once, cached
    verdicts, buffered frames and reads in flight included. *)
Theorem event_stream_authorized {B64 : Base64} (c : Subscription) (inputs : list Input) :
  match forward c inputs with Interrupted _ _ _ | Panicked _ | Starved _ => False | _ => True end /\
  forall pre e st post,
    log (final (forward c inputs)) = pre ++ Enqueued (EventFrame e) st :: post ->
    t_pending st = [] /\ t_closed st = false /\
    forall p, principal_id <$> for_current_caller (current_caller c) = Some p ->
      workspace_id e = "" \/ event_type e = WORKSPACE_DELETED \/ unshared_principal e = Some p \/
      exists l1 l2, pre = l1 ++ ReadWorkspace (workspace_id e) true :: l2 /\
        forall o, Observed o ∈ l2 ->
          event_type o <> HOST_MEMBERS_CHANGED /\
          ~ (is_membership_change o = true /\ workspace_id o = workspace_id e).
Proof.
  destruct (forward_inv c inputs) as [Hi Hr]. split; [by destruct (forward c inputs)|].
  intros pre e st post Hl. destruct (inv_trace _ _ Hi _ _ _ Hl) as (_ & Hp & Hc & He).
  split_and!; [done|done|]. intros p Hw. destruct (He p Hw) as [?|[?|[?|(l1 & l2 & -> & Hf)]]]; eauto.
  right. right. right. exists l1, l2. split; [done|]. intros o Ho%Hf. unfold affects in Ho. tauto.
Qed.

(** Markers and fences are never overtaken.  The loss markers a stream enqueues are
    numbered 1, 2, 3, ...; a marker, a private frame and the acknowledgement of a fence
    leave nothing of the earlier events behind in the buffer; and nothing is enqueued or
    acknowledged after a marker until the marker has been written to the socket. *)
Theorem loss_markers_ordered {B64 : Base64} (c : Subscription) (inputs : list Input) pre x post :
  log (final (forward c inputs)) = pre ++ x :: post ->
  match x with
  | Enqueued f st =>
      (forall l1 g st' l2, pre = l1 ++ Enqueued (LostFrame g) st' :: l2 -> MarkerWritten g ∈ l2) /\
      match f with
      | EventFrame _ => True
      | LostFrame g => g = markers pre + 1 /\ t_held st = 0
      | PrivateFrame _ => t_held st = 0
      end
  | FenceAcked _ st =>
      (forall l1 g st' l2, pre = l1 ++ Enqueued (LostFrame g) st' :: l2 -> MarkerWritten g ∈ l2) /\ t_held st = 0
  | _ => True
  end.
Proof.
  intros Hl. destruct (forward_inv c inputs) as [Hi _]. pose proof (inv_trace _ _ Hi) as Ht.
  pose proof (Ht _ _ _ Hl) as Hx.
  assert (open_marker pre = None ->
    forall l1 g st' l2, pre = l1 ++ Enqueued (LostFrame g) st' :: l2 -> MarkerWritten g ∈ l2) as Hw.
  { intros Ho l1 g st' l2 ->. destruct (marker_written l1 l2 g st' (gated_for c)) as [Hm|?]; [|congruence|done].
    intros pre' y post' E. apply (Ht pre' y (post' ++ x :: post)). by rewrite Hl, E, <- app_assoc. }
  destruct x as [f st|ack st| | | |]; cbn in Hx; try done.
  - destruct Hx as (Ho & _ & _ & Hf). split; [by apply Hw|]. by destruct f.
  - destruct Hx as [Ho Hh]. split; [by apply Hw|done].
Qed.

(** The bus lags behind once: a marker is enqueued with nothing held back. *)
Lemma loss_markers_ordered_witness :
  exists st post,
    log (final (@forward Removal.no_base64 Removal.guest
      (Removal.answer true (Some (Lagged 3)) :: replicate 4 (Removal.answer true None)))) =
    [] ++ Enqueued (LostFrame 1) st :: post /\ t_held st = 0.
Proof.
  eexists _, _. split; [vm_compute; reflexivity|].
  exact (proj2 (proj2 (@loss_markers_ordered Removal.no_base64 Removal.guest
    (Removal.answer true (Some (Lagged 3)) :: replicate 4 (Removal.answer true None))
    [] (Enqueued (LostFrame 1) (mkStamp [] false 0)) [MarkerWritten 1] ltac:(vm_compute; reflexivity)))).
Defined.

(** An event of the workspace goes out after a read; the next one is granted and has its
    permit when the removal arrives, and is not sent. *)
Example removal_silences :
  map Removal.summary (log (final (@forward Removal.no_base64 Removal.guest
    (Removal.answer true (Some (Batch [Removal.edit; Removal.edit])) :: replicate 6 (Removal.answer true None) ++
     Arrive (Some (Batch [Removal.removal])) :: replicate 8 (Removal.answer false None))))) =
  ["member"; "event"; "observed"].
Proof. by vm_compute. Qed.
