(* ===== verification/FenceReceipts.v ===== *)
(** * Fences and writer receipts ([crates/intent-transport/src/conn/recovery.rs])

    A recovery fence answers a client once its subscriptions have drained, and only
    while all of them are alive.  The reader starts one coordinator task per call;
    the coordinator registers the reply with the connection's [Output], queues it and
    waits for the physical write; the writer looks the reply up by its text and gives
    up the connection when a lease is lost under it.  Reader, coordinators, forwarders
    and writer interleave at their lock sections and polls. *)
From stdpp Require Import prelude strings gmap.
From S2P Require Import Prelude.
From S2P Require Import Json.

(** ** Frames ([events.rs]) *)

Definition success_frame (id result : json) : string :=
  json_text (JObject [("jsonrpc", JString "2.0"); ("id", id); ("result", result)]).

Definition INVALID_SET : string := "Invalid recovery subscription set".

(** [error_frame] at code -32602. *)
Definition error_frame (id : json) (message : string) : string :=
  json_text (JObject [("jsonrpc", JString "2.0"); ("id", id);
    ("error", JObject [("code", JNumber (NegInt 32602)); ("message", JString message);
                       ("data", JObject [("code", JString "invalid-params")])])]).

(** The reply to a fence, and the loss marker of a forwarder. *)
Definition fence_reply (echo : json) (ids : list string) : string :=
  success_frame echo (JObject [("subscriptionIds", JArray (JString <$> ids))]).

Definition lost_frame (id : string) (generation : string) (scope : option string) : string :=
  json_text (JObject [("jsonrpc", JString "2.0"); ("method", JString "events.lost");
    ("params", JObject [("subscriptionId", JString id); ("generation", JString generation);
       ("scope", JObject [("workspaceId", match scope with Some w => JString w | None => JNull end)])])]).

(** ** State *)

(** A [Lifetime] and a receipt's [identity] are numbers drawn from [fresh]. *)
Record Receipt := mkReceipt {
  identity : nat;
  leases : list nat }.

Record ConnSub := mkSub {
  lifetime : option nat;
  finished : bool }.

Inductive Outcome := Refused (sent : bool) | Flushed | Aborted.

Inductive Phase :=
| Draining
| Refusing
| Enqueuing (id : nat)
| Flushing (id : nat)
| Done (o : Outcome).

(** A coordinator: the request's id, and what it was asked for unless the set was
    invalid. *)
Record Task := mkTask {
  t_echo : json;
  t_ids : list string;
  t_leases : list nat;
  t_phase : Phase }.

(** A queued frame.  [q_owner] names the registration and the leases of the fence
    reply it is, for the statements only. *)
Record Queued := mkQueued {
  q_text : string;
  q_public : bool;
  q_owner : option (nat * list nat) }.

(** The writer: idle, in [PendingWrite::finish] with what [prepare] found, past a
    successful write with the receipt still to be taken, or gone. *)
Inductive Writer :=
| WIdle
| WWriting (q : Queued) (frame : option string) (ls : list nat)
| WWritten (q : Queued) (frame : option string)
| WStopped.

(** A physical write, with the retired leases when its last poll began. *)
Record Written := mkWritten {
  w_frame : Queued;
  w_closed : bool;
  w_retired : gset nat }.

Record Sys := mkSys {
  subs : gmap string ConnSub;
  closed : bool;
  retired : gset nat;
  fresh : nat;
  receipts : gmap string Receipt;
  acked : gset nat;
  tasks : list Task;
  owned : list nat;
  markers : list (string * nat);
  queue : list Queued;
  writer : Writer;
  log : list Written }.

Definition initial : Sys := mkSys ∅ false ∅ 0 ∅ ∅ [] [] [] [] WIdle [].

Definition set_subs m s := mkSys m (closed s) (retired s) (fresh s) (receipts s) (acked s) (tasks s) (owned s) (markers s) (queue s) (writer s) (log s).
Definition set_closed c s := mkSys (subs s) c (retired s) (fresh s) (receipts s) (acked s) (tasks s) (owned s) (markers s) (queue s) (writer s) (log s).
Definition set_retired r s := mkSys (subs s) (closed s) r (fresh s) (receipts s) (acked s) (tasks s) (owned s) (markers s) (queue s) (writer s) (log s).
Definition set_fresh n s := mkSys (subs s) (closed s) (retired s) n (receipts s) (acked s) (tasks s) (owned s) (markers s) (queue s) (writer s) (log s).
Definition set_receipts m s := mkSys (subs s) (closed s) (retired s) (fresh s) m (acked s) (tasks s) (owned s) (markers s) (queue s) (writer s) (log s).
Definition set_acked a s := mkSys (subs s) (closed s) (retired s) (fresh s) (receipts s) a (tasks s) (owned s) (markers s) (queue s) (writer s) (log s).
Definition set_tasks l s := mkSys (subs s) (closed s) (retired s) (fresh s) (receipts s) (acked s) l (owned s) (markers s) (queue s) (writer s) (log s).
Definition set_owned l s := mkSys (subs s) (closed s) (retired s) (fresh s) (receipts s) (acked s) (tasks s) l (markers s) (queue s) (writer s) (log s).
Definition set_markers l s := mkSys (subs s) (closed s) (retired s) (fresh s) (receipts s) (acked s) (tasks s) (owned s) l (queue s) (writer s) (log s).
Definition set_queue l s := mkSys (subs s) (closed s) (retired s) (fresh s) (receipts s) (acked s) (tasks s) (owned s) (markers s) l (writer s) (log s).
Definition set_writer w s := mkSys (subs s) (closed s) (retired s) (fresh s) (receipts s) (acked s) (tasks s) (owned s) (markers s) (queue s) w (log s).
Definition set_log l s := mkSys (subs s) (closed s) (retired s) (fresh s) (receipts s) (acked s) (tasks s) (owned s) (markers s) (queue s) (writer s) l.

(** ** [Output] *)

(** [close] retires the connection first; clearing the map is a section of its own
    ([clear_receipts]). *)
Definition close (s : Sys) : Sys := set_closed true s.

Definition clear_receipts (s : Sys) : Sys := if closed s then set_receipts ∅ s else s.

Definition register (frame : string) (ls : list nat) (s : Sys) : option nat * Sys :=
  match receipts s !! frame with
  | Some _ => (None, s)
  | None => (Some (fresh s), set_fresh (S (fresh s)) (set_receipts (<[frame := mkReceipt (fresh s) ls]> (receipts s)) s))
  end.

Definition cancel_receipt (frame : string) (id : nat) (s : Sys) : Sys :=
  match receipts s !! frame with
  | Some r =>
      if bool_decide (identity r = id) then
        match leases r with
        | [] => set_receipts (delete frame (receipts s)) s
        | _ => set_receipts ∅ (close s)
        end
      else s
  | None => s
  end.

(** [prepare_frame] and [prepare]. *)
Definition prepare (q : Queued) (s : Sys) : option string * list nat :=
  if q_public q then
    match receipts s !! q_text q with
    | Some r => (Some (q_text q), leases r)
    | None => (None, [])
    end
  else (None, []).

Definition any_retired (ls : list nat) (s : Sys) : bool := existsb (fun l => bool_decide (l ∈ retired s)) ls.

(** ** The writer *)

Definition MAX_OUTBOUND_MESSAGE_BYTES : Z := 40 * 1024 * 1024.

(** The writer takes a queued frame (the lane it takes it from is the event's
    choice), dropping an oversized one. *)
Definition writer_take (n : nat) (s : Sys) : Sys :=
  match writer s, queue s !! n with
  | WIdle, Some q =>
      let s' := set_queue (delete n (queue s)) s in
      if MAX_OUTBOUND_MESSAGE_BYTES <? slen (q_text q) then s'
      else let '(frame, ls) := prepare q s in set_writer (WWriting q frame ls) s'
  | _, _ => s
  end.

(** A failed [finish] closes the output and ends the writer's loop. *)
Definition writer_stop (s : Sys) : Sys := set_writer WStopped (close s).

(** One poll of [finish]'s biased select; [result] is what the write itself
    answers, [None] while it is pending. *)
Definition writer_poll (result : option bool) (s : Sys) : Sys :=
  match writer s with
  | WWriting q frame ls =>
      if closed s then writer_stop s
      else if any_retired ls s then writer_stop s
      else
        match result with
        | None => s
        | Some false => writer_stop s
        | Some true =>
            set_writer (WWritten q frame) (set_log (log s ++ [mkWritten q (closed s) (retired s)]) s)
        end
  | _ => s
  end.

(** The rest of [finish]: take the receipt and acknowledge. *)
Definition writer_ack (s : Sys) : Sys :=
  match writer s with
  | WWritten _ (Some text) =>
      match receipts s !! text with
      | Some r => set_writer WIdle (set_acked ({[identity r]} ∪ acked s) (set_receipts (delete text (receipts s)) s))
      | None => set_writer WIdle s
      end
  | WWritten _ None => set_writer WIdle s
  | _ => s
  end.

(** ** The fence call *)

Definition parse_ids (params : list (string * json)) : option (list string) :=
  ids ← map_get params "subscriptionIds" ≫= as_array;
  if negb (bool_decide (ids = [])) && (len ids <=? 64)
  then mapM (fun v => t ← as_str v; if slen t =? 0 then None else Some t) ids
  else None.

(** The leases of the named subscriptions: each once, alive and still forwarded. *)
Fixpoint lease_set (s : Sys) (seen : list string) (ids : list string) : option (list nat) :=
  match ids with
  | [] => Some []
  | sid :: rest =>
      if bool_decide (sid ∈ seen) then None
      else
        sub ← subs s !! sid;
        life ← lifetime sub;
        if negb (bool_decide (life ∈ retired s)) && negb (finished sub)
        then ls ← lease_set s (sid :: seen) rest; Some (life :: ls)
        else None
  end.

Definition is_done (t : Task) : bool := match t_phase t with Done _ => true | _ => false end.

Definition unfinished (s : Sys) (i : nat) : bool :=
  match tasks s !! i with Some t => negb (is_done t) | None => false end.

(** [fence]: the answer is whether the connection goes on.  [requested] is whether
    every receiver took the fence request. *)
Definition fence (present : bool) (echo : json) (params : list (string * json)) (requested : bool)
    (s : Sys) : Sys * bool :=
  if negb present then (s, true)
  else
    let ids := parse_ids params in
    let set_ := ids ≫= lease_set s [] in
    let s := set_owned (List.filter (unfinished s) (owned s)) s in
    if 64 <=? len (owned s) then (close s, false)
    else
      let task := match ids, set_, requested with
                  | Some ids, Some ls, true => mkTask echo ids ls Draining
                  | _, _, _ => mkTask echo [] [] Refusing
                  end in
      (set_owned (owned s ++ [length (tasks s)]) (set_tasks (tasks s ++ [task]) s), true).

(** ** The coordinator *)

(** What a poll observes: the monotone flags as they were at some moment up to now,
    the deadline, the drained receivers' answer, and the send's answer. *)
Record Seen := mkSeen {
  see_closed : bool;
  see_retired : bool;
  deadline : bool;
  drained : option bool;
  sent : option bool }.

Definition set_phase (i : nat) (t : Task) (ph : Phase) (s : Sys) : Sys :=
  set_tasks (<[i := mkTask (t_echo t) (t_ids t) (t_leases t) ph]> (tasks s)) s.

Definition t_text (t : Task) : string := fence_reply (t_echo t) (t_ids t).

Definition guard_of (ph : Phase) : option nat :=
  match ph with Enqueuing id | Flushing id => Some id | _ => None end.

(** The work future ends or is dropped, and its [ReceiptGuard] with it. *)
Definition end_task (i : nat) (t : Task) (o : Outcome) (s : Sys) : Sys :=
  let s := match guard_of (t_phase t) with Some id => cancel_receipt (t_text t) id s | None => s end in
  set_phase i t (Done o) s.

Definition push (q : Queued) (s : Sys) : Sys := set_queue (queue s ++ [q]) s.

(** [work], from one of its awaits to the next. *)
Definition work (i : nat) (t : Task) (o : Seen) (s : Sys) : Sys :=
  let lost := see_retired o && any_retired (t_leases t) s in
  match t_phase t with
  | Draining =>
      if lost then set_phase i t Refusing s
      else
        match drained o with
        | None => s
        | Some false => set_phase i t Refusing s
        | Some true =>
            match register (t_text t) (t_leases t) s with
            | (None, s) => end_task i t Aborted (close s)
            | (Some id, s) => set_phase i t (Enqueuing id) s
            end
        end
  | Refusing =>
      match sent o with
      | None => s
      | Some ok =>
          end_task i t (Refused ok)
            (if ok then push (mkQueued (error_frame (t_echo t) INVALID_SET) true None) s else s)
      end
  | Enqueuing id =>
      if lost then end_task i t Aborted (close s)
      else
        match sent o with
        | None => s
        | Some true => set_phase i t (Flushing id) (push (mkQueued (t_text t) true (Some (id, t_leases t))) s)
        | Some false => end_task i t Aborted (close s)
        end
  | Flushing id =>
      if lost then end_task i t Aborted (close s)
      else if bool_decide (id ∈ acked s) then end_task i t Flushed s
      else
        match receipts s !! t_text t with
        | Some r => if bool_decide (identity r = id) then s else end_task i t Aborted (close s)
        | None => end_task i t Aborted (close s)
        end
  | Done _ => s
  end.

(** The task's outer select: the connection's cancellation, the deadline, the
    work. *)
Definition poll_task (i : nat) (o : Seen) (s : Sys) : Sys :=
  match tasks s !! i with
  | None => s
  | Some t =>
      if is_done t then s
      else if see_closed o && closed s then end_task i t Aborted s
      else if deadline o then close (end_task i t Aborted s)
      else work i t o s
  end.

(** ** The connection's steps *)

Inductive Event :=
| ESubscribe (sid : string) (recovery : bool)
| EUnsubscribe (sid : string)
| EForwarderEnds (sid : string)
| EFence (present : bool) (echo : json) (params : list (string * json)) (requested : bool)
| EPoll (i : nat) (o : Seen)
| EMarker (id generation : string) (scope : option string)
| EMarkerSent (n : nat)
| EMarkerDropped (n : nat)
| EOrdinary (text : string) (public : bool)
| EClose
| EClear
| ETake (n : nat)
| EWrite (result : option bool)
| EAck.

Definition retire (l : option nat) (s : Sys) : Sys :=
  match l with Some l => set_retired ({[l]} ∪ retired s) s | None => s end.

Definition step (s : Sys) (e : Event) : Sys :=
  match e with
  | ESubscribe sid recovery =>
      (* an earlier subscription of the id is dropped, and its lease with it *)
      let s := retire (subs s !! sid ≫= lifetime) s in
      set_fresh (S (fresh s)) (set_subs (<[sid := mkSub (if recovery then Some (fresh s) else None) false]> (subs s)) s)
  | EUnsubscribe sid => set_subs (delete sid (subs s)) (retire (subs s !! sid ≫= lifetime) s)
  | EForwarderEnds sid =>
      match subs s !! sid with
      | Some sub => set_subs (<[sid := mkSub (lifetime sub) true]> (subs s)) (retire (lifetime sub) s)
      | None => s
      end
  | EFence present echo params requested => (fence present echo params requested s).1
  | EPoll i o => poll_task i o s
  | EMarker id generation scope =>
      (* [Forwarder::loss] registers its marker without leases *)
      match register (lost_frame id generation scope) [] s with
      | (Some n, s) => set_markers (markers s ++ [(lost_frame id generation scope, n)]) s
      | (None, s) => close s
      end
  | EMarkerSent n =>
      match markers s !! n with
      | Some (text, _) => push (mkQueued text true None) s
      | None => s
      end
  | EMarkerDropped n =>
      match markers s !! n with
      | Some (text, id) => set_markers (delete n (markers s)) (cancel_receipt text id s)
      | None => s
      end
  | EOrdinary text public => push (mkQueued text public None) s
  | EClose => close s
  | EClear => clear_receipts s
  | ETake n => writer_take n s
  | EWrite result => writer_poll result s
  | EAck => writer_ack s
  end.

Definition run : Sys -> list Event -> Sys := foldl step.

(** ** Frames of different kinds differ *)

Lemma slength_app s t : String.length (s +:+ t) = (String.length s + String.length t)%nat.
Proof. pose proof (slen_app s t). unfold slen in *. lia. Qed.

Lemma sapp_suffix s s' t t' :
  s +:+ t = s' +:+ t' -> String.length t = String.length t' -> t = t'.
Proof.
  revert s'. induction s as [|c s IH]; intros s' E Hl.
  - pose proof (f_equal String.length E) as El. rewrite !slength_app in El.
    destruct s'; [done|]. simpl in El. lia.
  - destruct s' as [|c' s']; [|injection E as -> E; by eapply IH].
    pose proof (f_equal String.length E) as El. rewrite !slength_app in El. simpl in El. lia.
Qed.

Lemma last_three a b c s : ((s +:+ a) +:+ b) +:+ c = s +:+ (a +:+ (b +:+ c)).
Proof. by rewrite <- !sapp_assoc. Qed.

Lemma fence_reply_end echo ids : exists s, fence_reply echo ids = s +:+ "]}}".
Proof.
  eexists. unfold fence_reply, success_frame. cbn [json_text map comma_join fst snd].
  rewrite !sapp_assoc. apply (last_three "]" "}" "}").
Qed.

Lemma error_frame_end id m : exists s, error_frame id m = s +:+ "}}}".
Proof.
  eexists. unfold error_frame. cbn [json_text map comma_join fst snd].
  rewrite !sapp_assoc. apply (last_three "}" "}" "}").
Qed.

Lemma lost_frame_end id g w : exists s, lost_frame id g w = s +:+ "}}}".
Proof.
  eexists. unfold lost_frame. cbn [json_text map comma_join fst snd].
  rewrite !sapp_assoc. apply (last_three "}" "}" "}").
Qed.

(** A text no fence answers with. *)
Definition plain (text : string) : Prop := forall echo ids, text <> fence_reply echo ids.

Lemma ends_plain text : (exists s, text = s +:+ "}}}") -> plain text.
Proof.
  intros [s ->] echo ids E. destruct (fence_reply_end echo ids) as [s' E']. rewrite E' in E.
  by apply sapp_suffix in E.
Qed.

Lemma error_frame_plain id m : plain (error_frame id m).
Proof. apply ends_plain, error_frame_end. Qed.

Lemma lost_frame_plain id g w : plain (lost_frame id g w).
Proof. apply ends_plain, lost_frame_end. Qed.

(** ** The invariant *)

(** The frames on their way out. *)
Definition in_hand (w : Writer) : list Queued :=
  match w with WWriting q _ _ | WWritten q _ => [q] | _ => [] end.

Definition items (s : Sys) : list Queued := queue s ++ in_hand (writer s).

Definition reply_text (q : Queued) : option string := _ ← q_owner q; Some (q_text q).

(** The task's reply was physically written. *)
Definition logged (s : Sys) (t : Task) : Prop :=
  exists w id, w ∈ log s /\ q_text (w_frame w) = t_text t /\ q_owner (w_frame w) = Some (id, t_leases t).

(** The task behind a reply. *)
Definition asked (s : Sys) (q : Queued) (ls : list nat) : Prop :=
  exists i t, tasks s !! i = Some t /\ t_text t = q_text q /\ t_leases t = ls.

(** A reply on its way has its receipt, with the leases of its task. *)
Record item_ok (s : Sys) (q : Queued) (id : nat) (ls : list nat) : Prop := mkItemOk {
  it_public : q_public q = true;
  it_receipt : receipts s !! q_text q = Some (mkReceipt id ls);
  it_leases : ls <> [];
  it_asked : asked s q ls }.

Definition task_ok (s : Sys) (t : Task) : Prop :=
  match t_phase t with
  | Draining => t_leases t <> []
  | Refusing => True
  | Enqueuing id =>
      t_leases t <> [] /\ (id < fresh s)%nat /\
      receipts s !! t_text t = Some (mkReceipt id (t_leases t)) /\
      t_text t ∉ omap reply_text (items s)
  | Flushing id =>
      t_leases t <> [] /\ (id < fresh s)%nat /\
      (receipts s !! t_text t = Some (mkReceipt id (t_leases t)) \/ (id ∈ acked s /\ logged s t))
  | Done Flushed => logged s t
  | Done _ => True
  end.

Definition receipt_ok (s : Sys) (text : string) (r : Receipt) : Prop :=
  (identity r < fresh s)%nat /\ (identity r ∉ acked s) /\ (plain text -> leases r = []).

Definition writer_ok (s : Sys) : Prop :=
  match writer s with
  | WWriting q frame ls =>
      (forall text, frame = Some text -> text = q_text q) /\
      forall id l, q_owner q = Some (id, l) -> frame = Some (q_text q) /\ ls = l
  | WWritten q frame =>
      (forall text, frame = Some text -> text = q_text q) /\
      forall id l, q_owner q = Some (id, l) ->
        frame = Some (q_text q) /\ exists w, w ∈ log s /\ w_frame w = q
  | _ => True
  end.

(** While the output is open. *)
Record Open (s : Sys) : Prop := mkOpen {
  op_items : forall q id ls, q ∈ items s -> q_owner q = Some (id, ls) -> item_ok s q id ls;
  op_plain : forall q, q ∈ items s -> q_owner q = None -> plain (q_text q);
  op_once : NoDup (omap reply_text (items s));
  op_tasks : forall i t, tasks s !! i = Some t -> task_ok s t;
  op_guards : forall i j t u id, tasks s !! i = Some t -> tasks s !! j = Some u ->
    guard_of (t_phase t) = Some id -> guard_of (t_phase u) = Some id -> i = j;
  op_receipts : forall text r, receipts s !! text = Some r -> receipt_ok s text r;
  op_ids : forall a b r r', receipts s !! a = Some r -> receipts s !! b = Some r' ->
    identity r = identity r' -> a = b;
  op_acked : forall id, id ∈ acked s -> (id < fresh s)%nat;
  op_writer : writer_ok s }.

(** Always. *)
Record Safe (s : Sys) : Prop := mkSafe {
  sf_log : forall w id ls, w ∈ log s -> q_owner (w_frame w) = Some (id, ls) ->
    w_closed w = false /\ (forall l, l ∈ ls -> l ∉ w_retired w) /\ asked s (w_frame w) ls;
  sf_plain : forall w, w ∈ log s -> q_owner (w_frame w) = None -> plain (q_text (w_frame w));
  sf_aborted : forall i t, tasks s !! i = Some t -> t_phase t = Done Aborted -> closed s = true;
  sf_owned : len (owned s) <= 64;
  sf_tracked : forall i, unfinished s i = true -> i ∈ owned s }.

Definition Inv (s : Sys) : Prop := Safe s /\ (closed s = true \/ Open s).

Lemma guard_fresh s i t id : Open s -> tasks s !! i = Some t -> guard_of (t_phase t) = Some id -> (id < fresh s)%nat.
Proof.
  intros HO Hi Hg. pose proof (op_tasks s HO i t Hi) as H. unfold task_ok in H.
  destruct (t_phase t); simplify_eq/=; naive_solver.
Qed.

(** *** Receipts *)

Lemma open_register s text ls id s' :
  Open s -> (plain text -> ls = []) -> register text ls s = (Some id, s') ->
  Open s' /\ receipts s' !! text = Some (mkReceipt id ls) /\ id = fresh s /\
  (text ∉ omap reply_text (items s)) /\ s' = set_fresh (S (fresh s)) (set_receipts (<[text := mkReceipt (fresh s) ls]> (receipts s)) s).
Proof.
  intros HO Hp E. unfold register in E. destruct (receipts s !! text) eqn:Et; [done|].
  injection E as <- <-. split_and!; [|simpl; by rewrite lookup_insert_eq|done| |done].
  - destruct HO as [Hi Hpl Ho Ht Hg Hr Hu Ha Hw]. split; try done; simpl.
    + intros q id l Hq Hown. destruct (Hi q id l Hq Hown) as [? Hrc ? ?]. split; try done.
      simpl. rewrite lookup_insert_ne; [done|]. intros ->. congruence.
    + intros i t Hit. specialize (Ht i t Hit). unfold task_ok in *.
      assert (forall id, receipts s !! t_text t = Some (mkReceipt id (t_leases t)) ->
        <[text:=mkReceipt (fresh s) ls]> (receipts s) !! t_text t = Some (mkReceipt id (t_leases t))) as Hk.
      { intros id Hid. rewrite lookup_insert_ne; [done|]. intros ->. congruence. }
      destruct (t_phase t) as [| |id|id|[]]; simpl; try done.
      * destruct Ht as (?&?&?&?). split_and!; [done|lia|by apply Hk|done].
      * destruct Ht as (?&?&[?|?]); (split_and!; [done|lia|]); [left; by apply Hk|by right].
    + intros text' r [[<- <-]|[? Hlk]]%lookup_insert_Some.
      * split_and!; simpl; [lia| |done]. intros Hin%Ha. lia.
      * destruct (Hr text' r Hlk) as (?&?&?). split_and!; simpl; [lia|done|done].
    + intros a b r r' [[<- <-]|[? Hla]]%lookup_insert_Some [[<- <-]|[? Hlb]]%lookup_insert_Some;
        simpl; [done|..|by eapply Hu].
      * destruct (Hr b r' Hlb). lia.
      * destruct (Hr a r Hla). lia.
    + intros id Hid%Ha. lia.
  - intros (q & Hq & Hown)%list_elem_of_omap. unfold reply_text in Hown.
    destruct (q_owner q) as [[id l]|] eqn:Eo; simplify_eq/=.
    destruct (op_items s HO q id l Hq Eo) as [_ Hrc _ _]. congruence.
Qed.

Lemma open_cancel s text id :
  Open s -> closed (cancel_receipt text id s) = true \/ Open (cancel_receipt text id s).
Proof.
  intros HO. unfold cancel_receipt. destruct (receipts s !! text) as [r|] eqn:Er; [|by right].
  case_bool_decide; [|by right]. destruct (leases r) as [|l ls] eqn:El; [right|by left].
  destruct HO as [Hi Hpl Ho Ht Hg Hr Hu Ha Hw].
  assert (forall text' id' l', receipts s !! text' = Some (mkReceipt id' l') -> l' <> [] ->
    delete text (receipts s) !! text' = Some (mkReceipt id' l')) as Hk.
  { intros text' id' l' Hl Hne. rewrite lookup_delete_ne; [done|]. intros ->. naive_solver. }
  split; try done; simpl.
  - intros q id' l' Hq Hown. destruct (Hi q id' l' Hq Hown). split; auto.
  - intros i t Hit. specialize (Ht i t Hit). unfold task_ok in *.
    destruct (t_phase t) as [| |id'|id'|[]]; simpl; try done.
    + destruct Ht as (?&?&?&?). split_and!; auto.
    + destruct Ht as (?&?&[?|?]); split_and!; auto.
  - intros text' r' [_ Hl]%lookup_delete_Some. by apply Hr.
  - intros a b r1 r2 [_ H1]%lookup_delete_Some [_ H2]%lookup_delete_Some. by eapply Hu.
Qed.

(** *** Tasks *)

(** The task [i] moves to a phase that is right for it and whose guard no other
    task has. *)
Lemma open_phase s i t ph :
  Open s -> tasks s !! i = Some t ->
  task_ok s (mkTask (t_echo t) (t_ids t) (t_leases t) ph) ->
  (forall id j u, guard_of ph = Some id -> tasks s !! j = Some u -> guard_of (t_phase u) = Some id -> j = i) ->
  Open (set_phase i t ph s).
Proof.
  intros [Hi Hpl Ho Ht Hg Hr Hu Ha Hw] Hit Hok Hnew.
  assert (forall q ls, asked s q ls -> asked (set_phase i t ph s) q ls) as Hasked.
  { intros q ls (j & u & Hj & ? & ?). destruct (decide (j = i)) as [->|].
    - exists i. eexists. split; [simpl; by eapply lookup_inserted|]. simplify_eq. done.
    - exists j, u. simpl. by rewrite list_lookup_insert_ne. }
  split; try done.
  - intros q id ls Hq Hown. destruct (Hi q id ls Hq Hown). split; auto.
  - intros j u [[-> ->]|[? Hj]]%insert_cases; [|exact (Ht j u Hj)]. exact Hok.
  - intros j k u v id Hj Hk. simpl in Hj, Hk.
    apply insert_cases in Hj as [[-> ->]|[? Hj]], Hk as [[-> ->]|[? Hk]]; simpl; [done|..].
    + intros ? ?. symmetry. by eapply Hnew.
    + intros ? ?. by eapply Hnew.
    + by apply Hg.
Qed.

(** A new task, or more log, breaks nothing. *)
Lemma task_ok_log s w t : task_ok s t -> task_ok (set_log (log s ++ [w]) s) t.
Proof.
  unfold task_ok, logged. destruct (t_phase t) as [| | | |[]]; simpl; try done;
    repeat setoid_rewrite elem_of_app; naive_solver.
Qed.

Lemma open_log s w : Open s -> Open (set_log (log s ++ [w]) s).
Proof.
  intros [Hi Hpl Ho Ht Hg Hr Hu Ha Hw]. split; try done.
  - intros q id ls Hq Hown. destruct (Hi q id ls Hq Hown). by split.
  - intros i t Hit. by apply task_ok_log, Ht with i.
  - unfold writer_ok in *. simpl. destruct (writer s); try done.
    destruct Hw as [? Hw]. split; [done|]. intros id l Hown. destruct (Hw id l Hown) as (? & w' & ? & ?).
    split; [done|]. exists w'. rewrite elem_of_app. auto.
Qed.

Lemma open_new_task s t : Open s -> guard_of (t_phase t) = None -> task_ok s t ->
  Open (set_tasks (tasks s ++ [t]) s).
Proof.
  intros [Hi Hpl Ho Ht Hg Hr Hu Ha Hw] Hng Hok.
  assert (forall j u, (tasks s ++ [t]) !! j = Some u -> tasks s !! j = Some u \/ u = t) as Hcase.
  { intros j u [?|[_ Hju]]%lookup_app_Some; [by left|]. right.
    apply list_lookup_singleton_Some in Hju as [_ ->]. done. }
  split; try done.
  - intros q id ls Hq Hown. destruct (Hi q id ls Hq Hown) as [? ? ? (j & u & Hj & ?)]. split; try done.
    exists j, u. split; [|done]. simpl. by apply lookup_app_l_Some.
  - intros j u Hj. destruct (Hcase j u Hj) as [Hju| ->]; [exact (Ht j u Hju)|exact Hok].
  - intros j k u v id Hj Hk. simpl in *. destruct (Hcase j u Hj) as [Hju| ->]; [|congruence].
    destruct (Hcase k v Hk) as [Hv| ->]; [|congruence]. by apply Hg.
Qed.

(** *** The queue *)

Lemma items_push s q : items (push q s) ≡ₚ q :: items s.
Proof. unfold items. simpl. rewrite <- (assoc_L (++)). simpl. by rewrite <- Permutation_middle. Qed.

Lemma omap_reply_push s q :
  omap reply_text (items (push q s)) ≡ₚ option_list (reply_text q) ++ omap reply_text (items s).
Proof. rewrite items_push. csimpl. by destruct (reply_text q). Qed.

Lemma task_ok_items s s' t :
  receipts s' = receipts s -> fresh s' = fresh s -> acked s' = acked s -> log s' = log s ->
  (forall id, t_phase t = Enqueuing id -> t_text t ∈ omap reply_text (items s') -> t_text t ∈ omap reply_text (items s)) ->
  task_ok s t -> task_ok s' t.
Proof.
  intros Er Ef Ea El Hsub. unfold task_ok, logged. rewrite Er, Ef, Ea, El.
  destruct (t_phase t) as [| | | |[]]; naive_solver.
Qed.

Lemma open_push_plain s text public :
  Open s -> plain text -> Open (push (mkQueued text public None) s).
Proof.
  intros [Hi Hpl Ho Ht Hg Hr Hu Ha Hw] Hp. split; try done.
  - intros q id ls. rewrite items_push, elem_of_cons. intros [->|Hq]; [done|]. intros Hown.
    destruct (Hi q id ls Hq Hown). by split.
  - intros q. rewrite items_push, elem_of_cons. intros [->|Hq]; [done|by apply Hpl].
  - by rewrite omap_reply_push.
  - intros i t Hit. apply (task_ok_items s); [done..| |exact (Ht i t Hit)].
    intros _ _. by rewrite omap_reply_push.
Qed.

(** The coordinator queues its reply. *)
Lemma open_push_reply s i t id :
  Open s -> tasks s !! i = Some t -> t_phase t = Enqueuing id ->
  Open (set_phase i t (Flushing id) (push (mkQueued (t_text t) true (Some (id, t_leases t))) s)).
Proof.
  intros HO Hit Hph. pose proof (op_tasks s HO i t Hit) as Hok. unfold task_ok in Hok.
  rewrite Hph in Hok. destruct Hok as (Hne & Hlt & Hrc & Hnin).
  set (q := mkQueued (t_text t) true (Some (id, t_leases t))).
  (* the state with the task moved first: it no longer claims its reply is unsent *)
  assert (Open (set_phase i t (Flushing id) s)) as [Hi Hpl Ho Ht Hg Hr Hu Ha Hw].
  { apply open_phase; [done|done|by unfold task_ok; simpl; auto|].
    intros id' j u [= <-] Hj Hgu. eapply (op_guards s HO); [done|done|done|by rewrite Hph]. }
  split; try done.
  - intros q' id' ls. change (items (set_phase i t (Flushing id) (push q s))) with (items (push q s)).
    rewrite items_push, elem_of_cons. intros [->|Hq] Hown.
    + injection Hown as <- <-. split; [done|done|done|]. exists i. eexists.
      split; [simpl; by eapply lookup_inserted|done].
    + destruct (Hi q' id' ls Hq Hown). by split.
  - intros q'. change (items (set_phase i t (Flushing id) (push q s))) with (items (push q s)).
    rewrite items_push, elem_of_cons. intros [->|Hq]; [done|by apply Hpl].
  - change (items (set_phase i t (Flushing id) (push q s))) with (items (push q s)).
    rewrite omap_reply_push. simpl. by apply NoDup_cons.
  - intros j u Hj. apply (task_ok_items (set_phase i t (Flushing id) s)); [done..| |exact (Ht j u Hj)].
    intros id' Hph'. change (items (set_phase i t (Flushing id) (push q s))) with (items (push q s)).
    rewrite omap_reply_push. simpl. rewrite elem_of_cons. intros [Etext|?]; [|done]. exfalso.
    simpl in Hj. apply insert_cases in Hj as [[-> ->]|[Hji Hj]]; [done|].
    pose proof (op_tasks s HO j u Hj) as Hju. unfold task_ok in Hju. rewrite Hph' in Hju.
    destruct Hju as (_ & _ & Hju & _). rewrite Etext, Hrc in Hju. injection Hju as Eid _.
    apply Hji. eapply (op_guards s HO); [done|done|by rewrite Hph'|rewrite Hph; simpl; congruence].
Qed.

(** *** The writer *)

(** Frames may leave, nothing else changing. *)
Lemma open_fewer s s' :
  receipts s' = receipts s -> fresh s' = fresh s -> acked s' = acked s -> log s' = log s -> tasks s' = tasks s ->
  items s' ⊆+ items s -> writer_ok s' -> Open s -> Open s'.
Proof.
  intros Er Ef Ea El Et Hsub Hw' [Hi Hpl Ho Ht Hg Hr Hu Ha Hw].
  assert (forall q, q ∈ items s' -> q ∈ items s) as Hin by (intros q Hq; by eapply elem_of_submseteq).
  assert (omap reply_text (items s') ⊆+ omap reply_text (items s)) as Homap.
  { apply submseteq_Permutation in Hsub as [k Hk]. rewrite Hk, omap_app. by apply submseteq_inserts_r. }
  split; rewrite ?Er, ?Ef, ?Ea, ?El, ?Et; try done.
  - intros q id ls Hq Hown. destruct (Hi q id ls (Hin q Hq) Hown) as [? ? ? (i & t & ?)].
    split; try done; [by rewrite Er|]. exists i, t. by rewrite Et.
  - intros q Hq. by apply Hpl, Hin.
  - apply submseteq_Permutation in Homap as [k Hk]. rewrite Hk in Ho. by apply NoDup_app in Ho as [? _].
  - intros i t Hit. apply (task_ok_items s); try done; [|exact (Ht i t Hit)].
    intros _ _ Hq. by eapply elem_of_submseteq.
  - intros text r Hl. unfold receipt_ok. rewrite Ef, Ea. by apply Hr.
Qed.

Lemma submseteq_delete {A} (l : list A) n x : l !! n = Some x -> x :: delete n l ≡ₚ l.
Proof. intros H. symmetry. by apply delete_Permutation. Qed.

Lemma open_take s n : Open s -> Open (writer_take n s).
Proof.
  intros HO. unfold writer_take. destruct (writer s) eqn:Ew; try done.
  destruct (queue s !! n) as [q|] eqn:Eq; [|done].
  pose proof (submseteq_delete _ _ _ Eq) as Hperm.
  assert (items s = queue s) as Eitems by (unfold items; rewrite Ew; apply app_nil_r).
  destruct (_ <? _).
  - apply (open_fewer s); try done; [|by unfold writer_ok; simpl; rewrite Ew].
    unfold items. simpl. rewrite Ew. simpl. rewrite !app_nil_r.
    etrans; [by apply (submseteq_cons q)|by rewrite Hperm].
  - destruct (prepare q s) as [frame ls] eqn:Ep.
    apply (open_fewer s); try done.
    + rewrite Eitems. unfold items. simpl. rewrite Permutation_app_comm. simpl. by rewrite Hperm.
    + unfold writer_ok. simpl. unfold prepare in Ep.
      split.
      * intros text ->. destruct (q_public q); [|done]. destruct (receipts s !! q_text q); by simplify_eq.
      * intros id l Hown. destruct (op_items s HO q id l) as [Hpub Hrc _ _]; [|done|].
        { rewrite Eitems. by eapply list_elem_of_lookup_2. }
        rewrite Hpub, Hrc in Ep. by injection Ep as <- <-.
Qed.

Lemma open_written s q frame ls w :
  Open s -> writer s = WWriting q frame ls -> w_frame w = q ->
  Open (set_writer (WWritten q frame) (set_log (log s ++ [w]) s)).
Proof.
  intros HO Ew Hwq. apply (open_fewer (set_log (log s ++ [w]) s)); try done; [| |by apply open_log].
  - unfold items. simpl. by rewrite Ew.
  - pose proof (op_writer s HO) as Hw. unfold writer_ok in *. rewrite Ew in Hw. simpl.
    destruct Hw as [Ht Hw]. split; [done|]. intros id l Hown. destruct (Hw id l Hown) as [? _].
    split; [done|]. exists w. rewrite elem_of_app. set_solver.
Qed.

Lemma open_ack_delete s q r :
  Open s -> writer s = WWritten q (Some (q_text q)) -> receipts s !! q_text q = Some r ->
  Open (set_writer WIdle (set_acked ({[identity r]} ∪ acked s) (set_receipts (delete (q_text q) (receipts s)) s))).
Proof.
  intros HO Ew Er. pose proof HO as [Hi Hpl Ho Ht Hg Hr Hu Ha Hw].
  unfold writer_ok in Hw. rewrite Ew in Hw. destruct Hw as [_ Hw].
  assert (items s = queue s ++ [q]) as Eitems by (unfold items; by rewrite Ew).
  assert (q ∈ items s) as Hq by (rewrite Eitems, elem_of_app; set_solver).
  (* the receipts with leases of the other texts stay *)
  assert (forall text id ls, text <> q_text q -> receipts s !! text = Some (mkReceipt id ls) ->
    delete (q_text q) (receipts s) !! text = Some (mkReceipt id ls)) as Hkeep.
  { intros text id ls Hne Hl. by rewrite lookup_delete_ne. }
  assert (forall q' id ls, q' ∈ queue s -> q_owner q' = Some (id, ls) -> q_text q' <> q_text q) as Hother.
  { intros q' id ls Hq' Hown Heq. destruct (q_owner q) as [[id0 l0]|] eqn:Eo.
    - rewrite Eitems, omap_app in Ho. apply NoDup_app in Ho as (_ & Ho & _).
      apply (Ho (q_text q)).
      + apply list_elem_of_omap. exists q'. split; [done|]. unfold reply_text. rewrite Hown. simpl. by rewrite Heq.
      + apply list_elem_of_omap. exists q. split; [by left|]. unfold reply_text. by rewrite Eo.
    - destruct (Hi q' id ls) as [_ Hrc Hne _]; [rewrite Eitems, elem_of_app; by left|done|].
      rewrite Heq, Er in Hrc. injection Hrc as ->. destruct (Hr _ _ Er) as (_ & _ & Hp).
      apply Hne, Hp, Hpl; done. }
  split; simpl.
  - intros q' id ls Hq' Hown. unfold items in Hq'. simpl in Hq'. rewrite app_nil_r in Hq'.
    destruct (Hi q' id ls) as [? ? ? ?]; [rewrite Eitems, elem_of_app; by left|done|].
    split; try done. simpl. apply Hkeep; [by eapply Hother|done].
  - intros q' Hq'. unfold items in Hq'. simpl in Hq'. rewrite app_nil_r in Hq'.
    apply Hpl. rewrite Eitems, elem_of_app. by left.
  - unfold items. simpl. rewrite app_nil_r. rewrite Eitems, omap_app in Ho. by apply NoDup_app in Ho as [? _].
  - intros i t Hit. pose proof (Ht i t Hit) as Hok. unfold task_ok in *.
    destruct (t_phase t) as [| |id|id|[]] eqn:Eph; simpl; try done.
    + destruct Hok as (Hne & ? & Hrc & Hnin). split_and!; [done|done| |].
      * apply Hkeep; [|done]. intros Heq. destruct (q_owner q) as [[id0 l0]|] eqn:Eo.
        { apply Hnin, list_elem_of_omap. exists q. split; [done|]. unfold reply_text. rewrite Eo. simpl. by rewrite Heq. }
        rewrite Heq, Er in Hrc. injection Hrc as ->. destruct (Hr _ _ Er) as (_ & _ & Hp).
        apply Hne, Hp, Hpl; done.
      * intros Hin. apply Hnin. rewrite Eitems, omap_app, elem_of_app. left. unfold items in Hin. simpl in Hin.
        by rewrite app_nil_r in Hin.
    + destruct Hok as (Hne & ? & Hrc). split_and!; [done|done|].
      destruct Hrc as [Hrc|[? ?]]; [|right; split; [set_solver|done]].
      destruct (decide (t_text t = q_text q)) as [Heq|]; [|left; by apply Hkeep].
      rewrite Heq, Er in Hrc. injection Hrc as ->. right. split; [set_solver|].
      destruct (q_owner q) as [[id0 l0]|] eqn:Eo.
      * destruct (Hw id0 l0 eq_refl) as (_ & w & Hwl & Hwq). exists w, id0. rewrite Hwq, Eo. split_and!; [done|done|].
        destruct (Hi q id0 l0 Hq Eo) as [_ Hrc _ _]. rewrite Er in Hrc. by injection Hrc as -> ->.
      * destruct (Hr _ _ Er) as (_ & _ & Hp). exfalso. apply Hne, Hp, Hpl; done.
  - exact Hg.
  - intros text r' [Hne Hl]%lookup_delete_Some. destruct (Hr text r' Hl) as (? & Hna & ?).
    split_and!; [done| |done]. simpl. rewrite elem_of_union, elem_of_singleton. intros [Heq|?]; [|done].
    apply Hne. eapply Hu; [exact Er|exact Hl|done].
  - intros a b r1 r2 [_ H1]%lookup_delete_Some [_ H2]%lookup_delete_Some. by eapply Hu.
  - intros id. rewrite elem_of_union, elem_of_singleton. intros [->|?%Ha]; [|done]. by destruct (Hr _ _ Er).
  - done.
Qed.

Lemma open_ack s : Open s -> Open (writer_ack s).
Proof.
  intros HO. unfold writer_ack. destruct (writer s) as [| |q frame|] eqn:Ew; try done.
  pose proof (op_writer s HO) as Hw. unfold writer_ok in Hw. rewrite Ew in Hw. destruct Hw as [Htext Hw].
  assert (forall s', s' = set_writer WIdle s -> Open s') as Hidle.
  { intros s' ->. apply (open_fewer s); try done. unfold items. simpl. rewrite Ew, app_nil_r.
    by apply submseteq_inserts_r. }
  destruct frame as [text|]; [|by apply Hidle]. rewrite (Htext text eq_refl) in *.
  destruct (receipts s !! q_text q) as [r|] eqn:Er; [|by apply Hidle]. by apply open_ack_delete.
Qed.

(** *** Steps that leave the rest alone *)

Lemma open_frame s s' :
  receipts s' = receipts s -> fresh s' = fresh s -> acked s' = acked s -> log s' = log s -> tasks s' = tasks s ->
  queue s' = queue s -> writer s' = writer s -> Open s -> Open s'.
Proof.
  intros Er Ef Ea El Et Eq Ew HO. apply (open_fewer s); try done.
  - unfold items. by rewrite Eq, Ew.
  - unfold writer_ok. rewrite Ew, El. apply HO.
Qed.

Lemma open_fresh s n : (fresh s <= n)%nat -> Open s -> Open (set_fresh n s).
Proof.
  intros Hn [Hi Hpl Ho Ht Hg Hr Hu Ha Hw]. split; try done; simpl.
  - intros q id ls Hq Hown. destruct (Hi q id ls Hq Hown). by split.
  - intros i t Hit. specialize (Ht i t Hit). unfold task_ok in *.
    destruct (t_phase t) as [| | | |[]]; simpl; try done;
      destruct Ht as (?&?&?); (split; [done|split; [lia|done]]).
  - intros text r Hl. destruct (Hr text r Hl) as (?&?&?). split_and!; simpl; [lia|done|done].
  - intros id Hid%Ha. lia.
Qed.

Lemma safe_same s s' :
  log s' = log s -> tasks s' = tasks s -> owned s' = owned s -> (closed s = true -> closed s' = true) ->
  Safe s -> Safe s'.
Proof.
  intros El Et Eo Ec [Hl Hpl Ha Ho Ht]. split; unfold asked, unfinished in *; rewrite ?El, ?Et, ?Eo; try done.
  intros i t Hi Hp. by apply Ec, (Ha i t).
Qed.

Lemma safe_phase s i t ph :
  Safe s -> tasks s !! i = Some t -> is_done t = false -> (ph = Done Aborted -> closed s = true) ->
  Safe (set_phase i t ph s).
Proof.
  intros [Hl Hpl Ha Ho Ht] Hit Hd Hab. split; simpl; try done.
  - intros w id ls Hw Hown. destruct (Hl w id ls Hw Hown) as (? & ? & j & u & Hj & ? & ?). split_and!; [done|done|].
    destruct (decide (j = i)) as [->|].
    + exists i. eexists. split; [simpl; by eapply lookup_inserted|]. by simplify_eq.
    + exists j, u. simpl. by rewrite list_lookup_insert_ne.
  - intros j u [[-> ->]|[? Hj]]%insert_cases; simpl; [auto|by eapply Ha].
  - intros j Hj. apply Ht. unfold unfinished in *. simpl in Hj.
    destruct (decide (j = i)) as [->|]; [by rewrite Hit, Hd|]. by rewrite list_lookup_insert_ne in Hj.
Qed.

Lemma closed_cancel text id s : closed s = true -> closed (cancel_receipt text id s) = true.
Proof. unfold cancel_receipt. repeat case_match; done. Qed.

Lemma cancel_same text id s :
  log (cancel_receipt text id s) = log s /\ tasks (cancel_receipt text id s) = tasks s /\
  owned (cancel_receipt text id s) = owned s.
Proof. unfold cancel_receipt. repeat case_match; done. Qed.

Lemma inv_close s : Inv s -> Inv (close s).
Proof. intros [Hs _]. split; [by apply (safe_same s)|by left]. Qed.

Lemma inv_cancel s text id : Inv s -> Inv (cancel_receipt text id s).
Proof.
  intros [Hs Ho]. destruct (cancel_same text id s) as (?&?&?).
  split; [apply (safe_same s); try done; apply closed_cancel|].
  destruct Ho as [?|HO]; [left; by apply closed_cancel|by apply open_cancel].
Qed.

Lemma fence_inv_phase s i t ph :
  Inv s -> tasks s !! i = Some t -> is_done t = false -> (ph = Done Aborted -> closed s = true) ->
  (Open s -> task_ok s (mkTask (t_echo t) (t_ids t) (t_leases t) ph) /\
     forall id j u, guard_of ph = Some id -> tasks s !! j = Some u -> guard_of (t_phase u) = Some id -> j = i) ->
  Inv (set_phase i t ph s).
Proof.
  intros [Hs Ho] Hit Hd Hab Hok. split; [by apply safe_phase|].
  destruct Ho as [?|HO]; [by left|right]. destruct (Hok HO). by apply open_phase.
Qed.

Lemma inv_abort s i t : Inv s -> tasks s !! i = Some t -> is_done t = false -> closed s = true ->
  Inv (end_task i t Aborted s).
Proof.
  intros HI Hit Hd Hc. unfold end_task.
  destruct (guard_of (t_phase t)) as [id|]; apply fence_inv_phase; try done; try by intros _; split.
  - by apply inv_cancel.
  - by destruct (cancel_same (t_text t) id s) as (_ & -> & _).
  - intros _. by apply closed_cancel.
Qed.

Lemma close_end_task i t o s : close (end_task i t o s) = end_task i t o (close s).
Proof.
  unfold end_task, cancel_receipt. destruct (guard_of (t_phase t)) as [id|]; [|done]. simpl.
  destruct (receipts s !! t_text t) as [r|]; [|done]. case_bool_decide; [|done]. by destruct (leases r).
Qed.

(** *** The coordinator *)

Lemma register_same text ls s o s' :
  register text ls s = (o, s') ->
  log s' = log s /\ tasks s' = tasks s /\ owned s' = owned s /\ closed s' = closed s.
Proof. unfold register. destruct (receipts s !! text); intros [= <- <-]; done. Qed.

Lemma t_text_not_plain t : ~ plain (t_text t).
Proof. intros H. by eapply H. Qed.

Lemma inv_register s text ls o s' :
  Inv s -> (plain text -> ls = []) -> register text ls s = (o, s') -> Inv s'.
Proof.
  intros [Hs Ho] Hp E. destruct (register_same _ _ _ _ _ E) as (?&?&?&Ec).
  split; [apply (safe_same s); congruence|]. rewrite Ec. destruct Ho as [?|HO]; [by left|right].
  destruct o as [id|]; [by eapply open_register|]. unfold register in E.
  destruct (receipts s !! text); by simplify_eq.
Qed.

Lemma fence_inv_start s i t :
  Inv s -> tasks s !! i = Some t -> t_phase t = Draining ->
  match register (t_text t) (t_leases t) s with
  | (None, s') => Inv (end_task i t Aborted (close s'))
  | (Some id, s') => Inv (set_phase i t (Enqueuing id) s')
  end.
Proof.
  intros HI Hit Hph. assert (is_done t = false) as Hd by (unfold is_done; by rewrite Hph).
  destruct (register (t_text t) (t_leases t) s) as [o s'] eqn:E.
  pose proof (register_same _ _ _ _ _ E) as (_ & Et & _ & Ec).
  assert (Inv s') as HI' by (eapply inv_register; [done| |done]; by intros H%t_text_not_plain).
  destruct o as [id|]; [|apply inv_abort; [by apply inv_close|by simpl; rewrite Et|done|done]].
  split; [apply safe_phase; [by destruct HI'|by rewrite Et|done|done]|].
  destruct HI as [_ [Hc|HO]]; [left; simpl; congruence|right].
  destruct (open_register s (t_text t) (t_leases t) id s') as (HO' & Hrc & -> & Hnin & Es'); [done| |done|].
  { by intros H%t_text_not_plain. }
  apply open_phase; [done|by rewrite Et| |].
  - pose proof (op_tasks s HO i t Hit) as Hok. unfold task_ok in *. rewrite Hph in Hok. simpl.
    split_and!; [done|subst s'; simpl; lia|done|by subst s'].
  - intros id' j u [= <-] Hj Hgu. rewrite Et in Hj. pose proof (guard_fresh s j u _ HO Hj Hgu). lia.
Qed.

Lemma inv_push_plain s text public : Inv s -> plain text -> Inv (push (mkQueued text public None) s).
Proof.
  intros [Hs Ho] Hp. split; [by apply (safe_same s)|].
  destruct Ho as [?|HO]; [by left|right]. by apply open_push_plain.
Qed.

(** An acknowledged reply was written, and its guard finds nothing to cancel. *)
Lemma inv_flushed s i t id :
  Inv s -> tasks s !! i = Some t -> t_phase t = Flushing id -> id ∈ acked s ->
  Inv (end_task i t Flushed s).
Proof.
  intros HI Hit Hph Hack. assert (is_done t = false) as Hd by (unfold is_done; by rewrite Hph).
  unfold end_task. rewrite Hph. simpl.
  destruct (cancel_same (t_text t) id s) as (_ & Et & _).
  split; [apply safe_phase; [by apply inv_cancel|by rewrite Et|done|done]|].
  destruct HI as [_ [?|HO]]; [left; by apply closed_cancel|right].
  assert (forall r, receipts s !! t_text t = Some r -> identity r <> id) as Hgone.
  { intros r Hr <-. by destruct (op_receipts s HO _ _ Hr) as (_ & ? & _). }
  assert (cancel_receipt (t_text t) id s = s) as ->.
  { unfold cancel_receipt. destruct (receipts s !! t_text t) as [r|]; [|done].
    rewrite bool_decide_false; [done|]. by apply Hgone. }
  apply open_phase; [done|done| |done].
  pose proof (op_tasks s HO i t Hit) as Hok. unfold task_ok in *. rewrite Hph in Hok. simpl.
  destruct Hok as (_ & _ & [Hrc|[_ Hlog]]); [by apply Hgone in Hrc|exact Hlog].
Qed.

Lemma inv_work s i t o : Inv s -> tasks s !! i = Some t -> is_done t = false -> Inv (work i t o s).
Proof.
  intros HI Hit Hd. unfold work.
  assert (Inv (end_task i t Aborted (close s))) as Habort by (apply inv_abort; [by apply inv_close|done..]).
  assert (Inv (set_phase i t Refusing s)) as Hrefuse by (apply fence_inv_phase; try done; intros _; by split).
  destruct (t_phase t) as [| |id|id|oc] eqn:Eph.
  - destruct (_ && _); [done|]. destruct (drained o) as [[]|]; [|done..].
    pose proof (fence_inv_start s i t HI Hit Eph) as H. by destruct (register _ _ s) as [[]].
  - destruct (sent o) as [ok|]; [|done]. unfold end_task. rewrite Eph. simpl.
    assert (Inv (if ok then push (mkQueued (error_frame (t_echo t) INVALID_SET) true None) s else s)) as HI'.
    { destruct ok; [|done]. by apply inv_push_plain, error_frame_plain. }
    destruct ok; apply fence_inv_phase; try done; intros _; by split.
  - destruct (_ && _); [done|]. destruct (sent o) as [[]|]; [|done..].
    split; [apply safe_phase; try done; apply (safe_same s); by destruct HI|].
    destruct HI as [_ [?|HO]]; [by left|right]. by apply open_push_reply.
  - destruct (_ && _); [done|]. case_bool_decide as Hack.
    + by apply inv_flushed with id.
    + destruct (receipts s !! t_text t) as [r|]; [|done]. by case_bool_decide.
  - unfold is_done in Hd. by rewrite Eph in Hd.
Qed.

Lemma inv_poll s i o : Inv s -> Inv (poll_task i o s).
Proof.
  intros HI. unfold poll_task. destruct (tasks s !! i) as [t|] eqn:Hit; [|done].
  destruct (is_done t) eqn:Hd; [done|]. destruct (see_closed o && closed s) eqn:Ec.
  { apply andb_true_iff in Ec as [_ Hc]. by apply inv_abort. }
  destruct (deadline o); [|by apply inv_work].
  rewrite close_end_task. apply inv_abort; [by apply inv_close|done..].
Qed.

(** *** The call *)

Lemma lease_set_length s seen ids ls : lease_set s seen ids = Some ls -> length ls = length ids.
Proof.
  revert seen ls. induction ids as [|sid ids IH]; intros seen ls; cbn [lease_set]; [by intros [= <-]|].
  case_bool_decide; [done|]. intros (sub & _ & (life & _ & E)%bind_Some)%bind_Some.
  destruct (_ && _); [|done]. apply bind_Some in E as (ls' & Hls & [= <-]). simpl. f_equal. by eapply IH.
Qed.

Lemma parse_ids_nonempty params ids : parse_ids params = Some ids -> ids <> [].
Proof.
  unfold parse_ids. intros (l & _ & E)%bind_Some. destruct (_ && _) eqn:Et; [|done].
  apply andb_true_iff in Et as [Hne _]. rewrite negb_true_iff, bool_decide_eq_false in Hne.
  apply mapM_Some_1, Forall2_length in E. by destruct l, ids.
Qed.

Lemma fence_leases s params ids ls :
  parse_ids params = Some ids -> lease_set s [] ids = Some ls -> ls <> [].
Proof.
  intros Hp%parse_ids_nonempty Hl%lease_set_length. by destruct ls, ids.
Qed.

Lemma safe_new_task s t l :
  Safe s -> is_done t = false -> len l < 64 -> (forall i, unfinished s i = true -> i ∈ l) ->
  Safe (set_owned (l ++ [length (tasks s)]) (set_tasks (tasks s ++ [t]) s)).
Proof.
  intros [Hl Hpl Ha Ho Ht] Hd Hlen Hin. split; simpl.
  - intros w id ls Hw Hown. destruct (Hl w id ls Hw Hown) as (? & ? & j & u & Hj & ?). split_and!; [done|done|].
    exists j, u. split; [|done]. simpl. by apply lookup_app_l_Some.
  - done.
  - intros i u [?|[_ Hu]]%lookup_app_Some; [by eapply Ha|].
    apply list_lookup_singleton_Some in Hu as [_ <-]. unfold is_done in Hd. intros E. by rewrite E in Hd.
  - rewrite len_app, len_cons, len_nil. lia.
  - intros i Hi. rewrite elem_of_app. unfold unfinished in Hi. simpl in Hi.
    destruct ((tasks s ++ [t]) !! i) as [u|] eqn:E; [|done].
    apply lookup_app_Some in E as [E|[? E]]; [left; apply Hin; unfold unfinished; by rewrite E|right].
    apply list_lookup_singleton_Some in E as [E _]. rewrite list_elem_of_singleton. lia.
Qed.

Lemma inv_fence s present echo params requested :
  Inv s -> Inv (fence present echo params requested s).1.
Proof.
  intros HI. unfold fence. destruct present; [|done]. simpl.
  set (l := List.filter (unfinished s) (owned s)).
  assert (forall i, unfinished s i = true -> i ∈ l) as Hl.
  { intros i Hi. apply list_elem_of_In, filter_In. split; [|done]. apply list_elem_of_In. by apply HI. }
  assert (len l <= 64) as Hlen.
  { destruct HI as [[_ _ _ Ho _] _]. etrans; [|exact Ho]. unfold len. apply inj_le, List.filter_length_le. }
  assert (Safe (set_owned l s)) as Hs.
  { destruct HI as [[Hlog Hpl Ha Ho Ht] _]. by split. }
  destruct (Z.leb_spec 64 (len l)) as [|Hlt]; simpl.
  { split; [by apply (safe_same (set_owned l s))|by left]. }
  set (t := match parse_ids params with Some _ => _ | None => _ end).
  assert (is_done t = false /\ guard_of (t_phase t) = None /\ task_ok s t) as (Hd & Hg & Hok).
  { unfold t. destruct (parse_ids params) as [ids|] eqn:Ep; [|done]. simpl.
    destruct (lease_set s [] ids) as [ls|] eqn:El; [|done]. destruct requested; [|done].
    split_and!; [done|done|]. by eapply fence_leases. }
  split; [by apply (safe_new_task (set_owned l s))|].
  destruct HI as [_ [?|HO]]; [by left|right].
  apply (open_frame (set_tasks (tasks s ++ [t]) s)); try done. by apply open_new_task.
Qed.

(** *** Every step *)

Lemma fence_inv_take s n : Inv s -> Inv (writer_take n s).
Proof.
  intros [Hs Ho]. split.
  - apply (safe_same s); [..|done]; unfold writer_take; repeat case_match; done.
  - destruct Ho as [Hc|HO]; [left|right; by apply open_take].
    unfold writer_take. repeat case_match; done.
Qed.

Lemma inv_write s result : Inv s -> Inv (writer_poll result s).
Proof.
  intros HI. unfold writer_poll. destruct (writer s) as [|q frame ls| |] eqn:Ew; try done.
  assert (Inv (writer_stop s)) as Hstop.
  { destruct HI as [Hs _]. split; [by apply (safe_same s)|by left]. }
  destruct (closed s) eqn:Ec; [done|]. destruct (any_retired ls s) eqn:Er; [done|].
  destruct result as [[]|]; [|done..].
  destruct HI as [Hs [?|HO]]; [congruence|]. split; [|right; by eapply open_written].
  destruct Hs as [Hl Hpl Ha Hown Ht].
  assert (q ∈ items s) as Hin by (unfold items; rewrite Ew, elem_of_app; right; by left).
  split; simpl; try done; [|intros w; rewrite elem_of_app, list_elem_of_singleton;
    intros [?| ->]; [by apply Hpl|by apply (op_plain s HO)]].
  intros w id l. rewrite elem_of_app, list_elem_of_singleton. intros [Hw| ->]; [by apply Hl|]. simpl.
  intros Hq. split; [done|].
  pose proof (op_writer s HO) as Hok. unfold writer_ok in Hok. rewrite Ew in Hok.
  destruct Hok as [_ Hok]. destruct (Hok id l Hq) as [_ ->]. split.
  - intros x Hx Hret. unfold any_retired in Er. apply not_true_iff_false in Er. apply Er, existsb_exists.
    exists x. split; [by apply list_elem_of_In|]. by apply bool_decide_eq_true.
  - by apply (op_items s HO q id l).
Qed.

Lemma inv_ack s : Inv s -> Inv (writer_ack s).
Proof.
  intros [Hs Ho]. split.
  - apply (safe_same s); [..|done]; unfold writer_ack; repeat case_match; done.
  - destruct Ho as [Hc|HO]; [left|right; by apply open_ack].
    unfold writer_ack. repeat case_match; done.
Qed.

Lemma inv_frame s s' :
  receipts s' = receipts s -> fresh s' = fresh s -> acked s' = acked s -> log s' = log s -> tasks s' = tasks s ->
  queue s' = queue s -> writer s' = writer s -> owned s' = owned s -> closed s' = closed s -> Inv s -> Inv s'.
Proof.
  intros ? ? ? ? ? ? ? ? Ec [Hs Ho]. split; [apply (safe_same s); congruence|]. rewrite Ec.
  destruct Ho as [?|HO]; [by left|right]. by apply (open_frame s).
Qed.

Lemma inv_retire s l : Inv s -> Inv (retire l s).
Proof. intros HI. destruct l; [|done]. by apply (inv_frame s). Qed.

(** The frames of the rest of the connection are no fence replies. *)
Definition ordinary (e : Event) : Prop :=
  match e with EOrdinary text _ => plain text | _ => True end.

Definition markers_plain (s : Sys) : Prop := forall m, m ∈ markers s -> plain m.1.

Lemma fence_inv_step s e : ordinary e -> Inv s -> markers_plain s -> Inv (step s e).
Proof.
  intros He HI Hm. destruct e; simpl.
  - pose proof (inv_retire s (subs s !! sid ≫= lifetime) HI) as HI'.
    set (s1 := retire _ s) in *.
    apply (inv_frame (set_fresh (S (fresh s1)) s1)); try done.
    destruct HI' as [Hs Ho]. split; [by apply (safe_same s1)|].
    destruct Ho as [?|HO]; [by left|right]. apply open_fresh; [lia|done].
  - apply (inv_frame (retire (subs s !! sid ≫= lifetime) s)); try done. by apply inv_retire.
  - destruct (subs s !! sid) as [sub|]; [|done].
    apply (inv_frame (retire (lifetime sub) s)); try done. by apply inv_retire.
  - by apply inv_fence.
  - by apply inv_poll.
  - destruct (register _ [] s) as [[n|] s'] eqn:E; [apply (inv_frame s'); try done|apply inv_close];
      by eapply inv_register.
  - destruct (markers s !! n) as [[text id]|] eqn:Em; [|done].
    apply inv_push_plain; [done|]. by eapply (Hm (text, id)), list_elem_of_lookup_2.
  - destruct (markers s !! n) as [[text id]|] eqn:Em; [|done].
    apply (inv_frame (cancel_receipt text id s)); try done. by apply inv_cancel.
  - by apply inv_push_plain.
  - by apply inv_close.
  - unfold clear_receipts. destruct (closed s) eqn:Ec; [|done]. destruct HI as [Hs _].
    split; [by apply (safe_same s)|by left].
  - by apply fence_inv_take.
  - by apply inv_write.
  - by apply inv_ack.
Qed.

Lemma markers_step s e : markers_plain s -> markers_plain (step s e).
Proof.
  intros Hm. assert (forall s', markers s' = markers s -> markers_plain s') as Hsame.
  { intros s' E. unfold markers_plain. by rewrite E. }
  destruct e; simpl; try by apply Hsame.
  - apply Hsame. by destruct (subs s !! sid ≫= lifetime).
  - apply Hsame. by destruct (subs s !! sid ≫= lifetime).
  - destruct (subs s !! sid) as [[[] ?]|]; by apply Hsame.
  - apply Hsame. unfold fence. repeat case_match; done.
  - apply Hsame. unfold poll_task, work, end_task, cancel_receipt, register. repeat (case_match; simplify_eq/=); done.
  - unfold register. destruct (receipts s !! _); [by apply Hsame|].
    intros m. simpl. rewrite elem_of_app, list_elem_of_singleton.
    intros [?| ->]; [by apply Hm|apply lost_frame_plain].
  - destruct (markers s !! n) as [[]|]; by apply Hsame.
  - destruct (markers s !! n) as [[text id]|] eqn:En; [|done]. intros m Hin. apply Hm. simpl in Hin.
    rewrite <- (submseteq_delete _ _ _ En). by right.
  - apply Hsame. unfold clear_receipts. by case_match.
  - apply Hsame. unfold writer_take. repeat case_match; done.
  - apply Hsame. unfold writer_poll, writer_stop. repeat case_match; done.
  - apply Hsame. unfold writer_ack. repeat case_match; done.
Qed.

Lemma inv_run es : Forall ordinary es -> Inv (run initial es).
Proof.
  intros Hes. enough (forall s, Inv s -> markers_plain s -> Inv (run s es)) as H.
  { apply H; [|by intros m ?%not_elem_of_nil]. split.
    - split; simpl; [by intros w id ls ?%not_elem_of_nil|by intros w ?%not_elem_of_nil|done|done|done].
    - right. split; simpl; try done.
      + by intros q id ls ?%not_elem_of_nil.
      + by intros q ?%not_elem_of_nil.
      + apply NoDup_nil_2. }
  induction Hes as [|e es He _ IH]; intros s HI Hm; simpl; [done|].
  apply IH; [by apply fence_inv_step|by apply markers_step].
Qed.

(** What the leases of a coordinator are: one for each subscription the call names,
    of the subscription's own life, alive at the call. *)
Lemma lease_set_spec s ids ls :
  lease_set s [] ids = Some ls ->
  NoDup ids /\
  Forall2 (fun sid l => exists sub, subs s !! sid = Some sub /\ lifetime sub = Some l /\
    (l ∉ retired s) /\ finished sub = false) ids ls.
Proof.
  enough (forall seen ls, lease_set s seen ids = Some ls -> NoDup ids /\ (forall x, x ∈ ids -> x ∉ seen) /\
    Forall2 (fun sid l => exists sub, subs s !! sid = Some sub /\ lifetime sub = Some l /\
      (l ∉ retired s) /\ finished sub = false) ids ls) as H by (intros E; naive_solver).
  induction ids as [|sid ids IH]; intros seen ls' E; cbn [lease_set] in E.
  { injection E as <-. split_and!; [apply NoDup_nil_2|set_solver|constructor]. }
  case_bool_decide as Hs; [done|]. apply bind_Some in E as (sub & Hsub & E).
  apply bind_Some in E as (life & Hlife & E). destruct (_ && _) eqn:Et; [|done].
  apply bind_Some in E as (ls0 & Hls & [= <-]). destruct (IH _ _ Hls) as (Hn & Hx & Hf).
  apply andb_true_iff in Et as [Hr Hfin]. rewrite negb_true_iff, bool_decide_eq_false in Hr.
  rewrite negb_true_iff in Hfin. split_and!.
  - apply NoDup_cons. split; [|done]. intros Hin. specialize (Hx sid Hin). set_solver.
  - set_solver.
  - constructor; [naive_solver|done].
Qed.

(** [C4] A fence reply never outlives its subscriptions.  In any interleaving of the
    reader, the coordinators, the forwarders and the writer, over subscriptions and
    fences that come and go and request ids that are used again, as long as no other
    part of the daemon sends the very text of a fence reply: whenever such a text is
    physically written there is a coordinator that asked for it, and when the poll that
    completes the write begins the connection is open and none of the coordinator's
    leases is retired.  A coordinator that ends as flushed has its reply written, and one
    that gives up has closed the connection, so no client waits for a lost answer; and no
    more than 64 coordinators run. *)
Theorem fence_reply_authorized es :
  Forall ordinary es ->
  let s := run initial es in
  (forall w echo ids, w ∈ log s -> q_text (w_frame w) = fence_reply echo ids ->
     w_closed w = false /\
     exists i t, tasks s !! i = Some t /\ t_text t = fence_reply echo ids /\
       forall l, l ∈ t_leases t -> l ∉ w_retired w) /\
  (forall i t, tasks s !! i = Some t -> t_phase t = Done Flushed ->
     closed s = true \/ exists w, w ∈ log s /\ q_text (w_frame w) = t_text t) /\
  (forall i t, tasks s !! i = Some t -> t_phase t = Done Aborted -> closed s = true) /\
  exists running, len running <= 64 /\ forall i, unfinished s i = true -> i ∈ running.
Proof.
  intros Hes s. destruct (inv_run es Hes) as [[Hlog Hpl Hab Hown Htr] Ho]. fold s in Hlog, Hpl, Hab, Hown, Htr, Ho.
  split_and!.
  - intros w echo ids Hw Htext. destruct (q_owner (w_frame w)) as [[id ls]|] eqn:Eo.
    + destruct (Hlog w id ls Hw Eo) as (? & Hl & i & t & Ht & Et & <-). split; [done|].
      exists i, t. by rewrite Et.
    + by destruct (Hpl w Hw Eo echo ids).
  - intros i t Ht Hph. destruct Ho as [?|HO]; [by left|right].
    pose proof (op_tasks s HO i t Ht) as Hok. unfold task_ok in Hok. rewrite Hph in Hok.
    destruct Hok as (w & id & ? & ? & _). eauto.
  - exact Hab.
  - exists (owned s). done.
Qed.

(** A fence over one subscription, answered. *)
Definition calm : Seen := mkSeen true true false None None.

Definition one_fence : list Event :=
  [ESubscribe "a" true;
   EFence true (JNumber (PosInt 1)) [("subscriptionIds", JArray [JString "a"])] true;
   EPoll 0 (mkSeen true true false (Some true) None);
   EPoll 0 (mkSeen true true false None (Some true));
   ETake 0].

Definition answered : list Event := one_fence ++ [EWrite (Some true); EAck; EPoll 0 calm].

Lemma fence_reply_authorized_witness :
  t_phase <$> tasks (run initial answered) = [Done Flushed] /\
  forall i t, tasks (run initial answered) !! i = Some t -> t_phase t = Done Flushed ->
    closed (run initial answered) = true \/
    exists w, w ∈ log (run initial answered) /\ q_text (w_frame w) = t_text t.
Proof.
  split; [vm_compute; reflexivity|].
  apply fence_reply_authorized. repeat constructor.
Defined.

(** The same fence, its subscription gone while the reply is being written: nothing is
    written, and the connection ends. *)
Example lease_lost_under_write :
  let s := run initial (one_fence ++ [EWrite None; EUnsubscribe "a"; EWrite (Some true)]) in
  log s = [] /\ closed s = true /\ writer s = WStopped.
Proof. vm_compute. done. Qed.
