(* ===== verification/ChatForwarder.v ===== *)
(** * The chat forwarder ([crates/intent-transport/src/conn.rs])

    How the chat subscription loop sends built deltas: conflatable ones through
    [offer], everything else as a barrier that flushes the buffer first, every
    frame numbered when it leaves. *)
From stdpp Require Import prelude strings gmap sorting.
From S2P Require Import Prelude Json Conflate ConflateItems.


Definition SLIM_PAGE_BUDGET_BYTES : Z := 480000.

Definition delta_object (a u : list json) : json :=
  JObject [("added", JArray a); ("updated", JArray u); ("removedIds", JArray [])].

Definition array_or_empty (v : option json) : list json :=
  match v with Some (JArray l) => l | _ => [] end.

(** The packing loop of [split_chat_delta]: full parts so far, the part being
    filled and its size. *)
Fixpoint split_loop (budget base : Z) (todo : list (bool * json))
    (out : list json) (a u : list json) (size : Z) : list json * (list json * list json) :=
  match todo with
  | [] => (out, (a, u))
  | (is_added, e) :: todo' =>
      let entity_bytes := serialized_size e + 1 in
      let full :=
        (budget <? size + entity_bytes)
        && negb (match a, u with [], [] => true | _, _ => false end) in
      let '(out, a, u, size) :=
        if full then (out ++ [delta_object a u], [], [], base) else (out, a, u, size) in
      if is_added : bool
      then split_loop budget base todo' out (a ++ [e]) u (size + entity_bytes)
      else split_loop budget base todo' out a (u ++ [e]) (size + entity_bytes)
  end.

Definition split_chat_delta (delta : json) (budget : Z) : list json :=
  if serialized_size delta <=? budget then [delta]
  else
    match delta with
    | JObject obj =>
        let added := array_or_empty (map_get obj "added") in
        let obj := map_swap_remove obj "added" in
        let updated := array_or_empty (map_get obj "updated") in
        let obj := map_swap_remove obj "updated" in
        let base := serialized_size (delta_object [] []) in
        let '(out, (a, u)) :=
          split_loop budget base (map (pair true) added ++ map (pair false) updated)
            [] [] [] base in
        let removed :=
          match map_get obj "removedIds" with Some v => v | None => JArray [] end in
        let obj := map_swap_remove obj "removedIds" in
        let last_ :=
          foldl (fun m '(k, v) => map_insert m k v)
            [("added", JArray a); ("updated", JArray u); ("removedIds", removed)] obj in
        out ++ [JObject last_]
    | _ => [delta]
    end.

(** What a frame carries: one conflated block delta, or a barrier delta. *)
Inductive Msg :=
| MItem (k : Key) (i : ChatItem)
| MBarrier (d : json).

Record PushFrame := mkPushFrame {
  pf_seq : Z;
  pf_msg : Msg }.

(** The [delta] member of the serialized push. *)
Definition frame_delta (f : PushFrame) : json :=
  match pf_msg f with MItem _ i => into_delta i | MBarrier d => d end.

Record ChatForwarder := mkForwarder {
  fw_buffer : ConflationBuffer ChatItem;
  fw_seq : Z;
  fw_lane : Lane PushFrame }.

Inductive Flow :=
| Continue (fw : ChatForwarder)
| ClientClosed (fw : ChatForwarder).

Definition build_item (seq : Z) (k : Key) (i : ChatItem) : Z * PushFrame :=
  (seq + 1, mkPushFrame seq (MItem k i)).

(** The [for part in split_chat_delta(..)] loop of the barrier path. *)
Fixpoint send_parts (seq : Z) (l : Lane PushFrame) (parts : list json) :
    bool * Z * Lane PushFrame :=
  match parts with
  | [] => (true, seq, l)
  | d :: parts' =>
      match lane_send l (mkPushFrame seq (MBarrier d)) with
      | Some l' => send_parts (seq + 1) l' parts'
      | None => (false, seq + 1, l)
      end
  end.

Definition flow_of (res : bool * ConflationBuffer ChatItem * Z * Lane PushFrame) : Flow :=
  let '(ok, b, s, l) := res in
  (if ok : bool then Continue else ClientClosed) (mkForwarder b s l).

Definition barrier (fw : ChatForwarder) (parts : list json) : option Flow :=
  '(ok, b, s, l) ← drain_all build_item (fw_buffer fw) (fw_seq fw) (fw_lane fw);
  if ok : bool then
    let '(ok', s', l') := send_parts s l parts in Some (flow_of (ok', b, s', l'))
  else Some (flow_of (false, b, s, l)).

(** One built delta of the loop: conflated through [offer], or a barrier.
    [conflatable] is [chat_event_conflatable] of the event it was built from,
    [room] whether the lane has room. *)
Definition forward_delta (fw : ChatForwarder) (conflatable room : bool) (delta : json) :
    option Flow :=
  match (if conflatable then from_delta delta else None) with
  | Some (key, item) =>
      res ← forward_item build_item (fw_buffer fw) key item room (fw_seq fw) (fw_lane fw);
      Some (flow_of res)
  | None => barrier fw (split_chat_delta delta SLIM_PAGE_BUDGET_BYTES)
  end.

(** The [reserve] arm. *)
Definition drain_pending (fw : ChatForwarder) : option Flow :=
  res ← drain_one build_item (fw_buffer fw) (fw_seq fw) (fw_lane fw);
  Some (flow_of res).

(** The loop, one ready arm per input, until the lane closes. *)
Inductive ChatInput :=
| InDelta (conflatable room : bool) (delta : json)
| InDrain.

Definition chat_step (fw : ChatForwarder) (input : ChatInput) : option Flow :=
  match input with
  | InDelta conflatable room delta => forward_delta fw conflatable room delta
  | InDrain => drain_pending fw
  end.

Fixpoint run_chat (fw : ChatForwarder) (inputs : list ChatInput) : option Flow :=
  match inputs with
  | [] => Some (Continue fw)
  | input :: inputs' =>
      flow ← chat_step fw input;
      match flow with
      | Continue fw' => run_chat fw' inputs'
      | ClientClosed _ => Some flow
      end
  end.

Definition flow_state (f : Flow) : ChatForwarder :=
  match f with Continue fw | ClientClosed fw => fw end.

(** ** What reaches the client *)

(** The messages of an input, in the order they were built. *)
Definition msgs_of (input : ChatInput) : list Msg :=
  match input with
  | InDelta conflatable _ delta =>
      match (if conflatable then from_delta delta else None) with
      | Some (k, i) => [MItem k i]
      | None => map MBarrier (split_chat_delta delta SLIM_PAGE_BUDGET_BYTES)
      end
  | InDrain => []
  end.

Definition items (l : list (Key * ChatItem)) : list Msg := map (fun kt => MItem kt.1 kt.2) l.

(** What a client knows of block [k] after some messages, for any reading
    [on_barrier] of the other deltas. *)
Definition rx (k : Key) (on_barrier : ChatView -> json -> ChatView) (r : ChatView)
    (msgs : list Msg) : ChatView :=
  foldl (fun r m =>
    match m with
    | MItem k' i => if decide (k' = k) then chat_deliver r i else r
    | MBarrier d => on_barrier r d
    end) r msgs.

(** The frames of [msgs], numbered from [s]. *)
Fixpoint number (s : Z) (msgs : list Msg) : list PushFrame :=
  match msgs with
  | [] => []
  | m :: msgs' => mkPushFrame s m :: number (s + 1) msgs'
  end.

Lemma number_app s m1 m2 : number s (m1 ++ m2) = number s m1 ++ number (s + len m1) m2.
Proof.
  revert s. induction m1 as [|m m1 IH]; intros s; simpl.
  - rewrite len_nil. by rewrite Z.add_0_r.
  - rewrite IH, len_cons. do 3 f_equal. lia.
Qed.

Lemma number_prefix s fs msgs :
  fs `prefix_of` number s msgs -> exists msgs', msgs' `prefix_of` msgs /\ fs = number s msgs'.
Proof.
  revert s fs. induction msgs as [|m msgs IH]; intros s fs Hp; simpl in Hp.
  - apply prefix_nil_inv in Hp as ->. by exists [].
  - destruct fs as [|f fs]; [exists []; split; [apply prefix_nil|done]|].
    pose proof (prefix_cons_inv_1 _ _ _ _ Hp) as ->. apply prefix_cons_inv_2 in Hp.
    apply IH in Hp as (msgs' & Hp & ->). exists (m :: msgs'). split; [by apply prefix_cons|done].
Qed.

Lemma build_all_number s l :
  build_all build_item s l = (s + len l, number s (items l)).
Proof.
  revert s. induction l as [|[k t] l IH]; intros s; simpl; [by rewrite len_nil, Z.add_0_r|].
  rewrite IH, len_cons. f_equal. lia.
Qed.

Lemma rx_app k B r m1 m2 : rx k B r (m1 ++ m2) = rx k B (rx k B r m1) m2.
Proof. apply foldl_app. Qed.

Lemma rx_items k B r l : rx k B r (items l) = received k r l.
Proof.
  unfold rx, items, received. revert r. induction l as [|[k' t] l IH]; intros r; simpl; [done|]. apply IH.
Qed.

Lemma len_items l : len (items l) = len l.
Proof. unfold len, items. by rewrite length_map. Qed.

Lemma items_app l1 l2 : items (l1 ++ l2) = items l1 ++ items l2.
Proof. apply map_app. Qed.

(** ** One turn of the loop *)

Record chat_ok (fw : ChatForwarder) : Prop := mkChatOk {
  ck_wf : buffer_wf (fw_buffer fw);
  ck_pending : all_pending (fw_buffer fw) }.

(** [flow] took in [input]: the frames written are numbered on from the
    forwarder's counter, and while the lane is open nothing is lost. *)
Definition msg_ok (m : Msg) : Prop :=
  match m with MItem k i => chat_pending k i | MBarrier _ => True end.

Definition took (fw : ChatForwarder) (input : list Msg) (flow : Flow) : Prop :=
  exists msgs,
    sent (fw_lane (flow_state flow)) = sent (fw_lane fw) ++ number (fw_seq fw) msgs /\
    Forall msg_ok msgs /\
    match flow with
    | Continue fw' => chat_ok fw' /\ fw_seq fw' = fw_seq fw + len msgs /\
        forall k B r,
          rx k B r (msgs ++ items (held (fw_buffer fw'))) =
          rx k B r (items (held (fw_buffer fw)) ++ input)
    | ClientClosed _ => True
    end.

Lemma items_ok its : Forall (fun kt => chat_pending kt.1 kt.2) its -> Forall msg_ok (items its).
Proof. intros Hi. unfold items. by apply Forall_map. Qed.

Lemma barriers_ok ds : Forall msg_ok (map MBarrier ds).
Proof. induction ds; simpl; by constructor. Qed.

Lemma wrote_closed s l s' l' its :
  Forall (fun kt => chat_pending kt.1 kt.2) its -> wrote build_item false s l s' l' its ->
  exists msgs, sent l' = sent l ++ number s msgs /\ Forall msg_ok msgs.
Proof.
  intros Hi. unfold wrote. rewrite build_all_number. intros (fs & Hp & ->).
  apply number_prefix in Hp as (msgs & [rest Hits] & ->). exists msgs. split; [done|].
  apply items_ok in Hi. rewrite Hits in Hi. by apply Forall_app in Hi as [? _].
Qed.

Lemma forwarded_took fw input res :
  forwarded build_item (fw_buffer fw) input (fw_seq fw) (fw_lane fw) res ->
  exists flow, (res ≫= fun x => Some (flow_of x)) = Some flow /\ took fw (items input) flow.
Proof.
  intros (ok & b' & s' & l' & its & -> & Hw & Hi & Hwf & Hp & _ & _ & Hr).
  eexists. split; [done|]. destruct ok; simpl.
  - unfold wrote in Hw. rewrite build_all_number in Hw. destruct Hw as [-> Hs].
    exists (items its). split; [done|]. split; [by apply items_ok|].
    split; [done|]. split; [by rewrite len_items|].
    intros k B r. rewrite <- !items_app, !rx_items. by apply Hr.
  - apply wrote_closed in Hw as (msgs & Hs & Hm); [|done]. by exists msgs.
Qed.

Lemma send_parts_spec s l parts ok s' l' :
  send_parts s l parts = (ok, s', l') ->
  exists sent_parts, sent l' = sent l ++ number s (map MBarrier sent_parts) /\
    (ok = true -> sent_parts = parts /\ s' = s + len parts).
Proof.
  revert s l. induction parts as [|d parts IH]; intros s l; simpl.
  - intros [= <- <- <-]. exists []. simpl. rewrite app_nil_r, len_nil. split; [done|]. split; [done|lia].
  - unfold lane_send. destruct (closes_after l) as [[|n]|].
    + intros [= <- <- <-]. exists []. simpl. by rewrite app_nil_r.
    + intros (sp & Hs & Hok)%IH. exists (d :: sp). simpl in *. rewrite Hs, <- app_assoc.
      split; [done|]. intros H. destruct (Hok H) as [-> ->]. rewrite len_cons. split; [done|lia].
    + intros (sp & Hs & Hok)%IH. exists (d :: sp). simpl in *. rewrite Hs, <- app_assoc.
      split; [done|]. intros H. destruct (Hok H) as [-> ->]. rewrite len_cons. split; [done|lia].
Qed.

Lemma barrier_took fw parts :
  chat_ok fw -> exists flow, barrier fw parts = Some flow /\ took fw (map MBarrier parts) flow.
Proof.
  intros [Hwf Hp]. pose proof (held_pending _ Hp) as Hheld. unfold barrier.
  destruct (drain_all_spec build_item (fw_buffer fw) (fw_seq fw) (fw_lane fw) Hwf)
    as (ok & b' & s' & l' & -> & Hw & Hwf' & _ & _ & Hsuf & Hnil). simpl. destruct ok.
  - unfold wrote in Hw. rewrite build_all_number in Hw. destruct Hw as [-> Hs].
    destruct (send_parts _ l' parts) as [[ok s''] l''] eqn:E. eexists. split; [done|].
    apply send_parts_spec in E as (sp & Hs' & Hok). rewrite Hs, <- app_assoc in Hs'.
    rewrite <- (len_items (held (fw_buffer fw))), <- number_app in Hs'.
    eexists. split; [destruct ok; exact Hs'|].
    split; [apply Forall_app; split; [by apply items_ok|apply barriers_ok]|].
    destruct ok; [|done].
    destruct (Hok eq_refl) as [-> ->]. split_and!.
    + split; [done|]. unfold all_pending. simpl. rewrite Hnil by done. constructor.
    + simpl. rewrite len_app, len_items. unfold len. rewrite length_map. lia.
    + intros k B r. simpl. unfold held at 2. rewrite Hnil by done. simpl. by rewrite app_nil_r.
  - eexists. split; [done|]. apply wrote_closed in Hw as (msgs & Hs & Hm); [|done]. by exists msgs.
Qed.

Lemma chat_step_took fw input :
  chat_ok fw -> exists flow, chat_step fw input = Some flow /\ took fw (msgs_of input) flow.
Proof.
  intros Hok. pose proof Hok as [Hwf Hp]. destruct input as [conflatable room delta|]; simpl.
  - unfold forward_delta. destruct (if conflatable then from_delta delta else None) as [[k i]|] eqn:E.
    + apply (forwarded_took fw [(k, i)]), forward_item_forwarded; [done|done|].
      destruct conflatable; [|done]. by exists delta.
    + by apply barrier_took.
  - by apply (forwarded_took fw []), drain_one_forwarded.
Qed.

Lemma run_chat_took fw inputs :
  chat_ok fw -> exists flow, run_chat fw inputs = Some flow /\ took fw (inputs ≫= msgs_of) flow.
Proof.
  revert fw. induction inputs as [|input inputs IH]; intros fw Hok.
  - eexists. split; [done|]. exists []. simpl. rewrite app_nil_r, len_nil. split; [done|].
    split; [constructor|]. split_and!; [done|lia|]. intros k B r. by rewrite app_nil_r.
  - destruct (chat_step_took fw input Hok) as (flow & Hs & msgs & Hsent & Hmo & Hflow).
    rewrite bind_cons. cbn [run_chat]. rewrite Hs. cbn [mbind option_bind].
    destruct flow as [fw'|fw']; [|eexists; split; [done|]; by exists msgs].
    destruct Hflow as (Hok' & Hseq & Hrx). destruct (IH fw' Hok') as (flow & -> & msgs' & Hsent' & Hmo' & Hflow').
    eexists. split; [done|]. exists (msgs ++ msgs'). simpl in Hsent.
    rewrite Hsent', Hsent, Hseq, number_app, <- app_assoc. split; [done|].
    split; [by apply Forall_app|]. destruct flow as [fw2|]; [|done]. destruct Hflow' as (Hok2 & Hseq2 & Hrx2).
    split_and!; [done|rewrite len_app; lia|]. intros k B r.
    rewrite <- app_assoc, rx_app, Hrx2, <- rx_app, app_assoc, rx_app, Hrx, <- rx_app. by rewrite app_assoc.
Qed.

(** ** The byte bound *)

Definition chat_bytes (fw : ChatForwarder) : Prop :=
  bytes_inv (fun i => has_block (entity i)) (fw_buffer fw) /\
  max_bytes (fw_buffer fw) = MAX_PENDING_BYTES.

Lemma lane_step_bytes fw st ok b s l :
  chat_bytes fw -> Forall (fun kt => has_block (entity kt.2)) (offered st) ->
  step build_item (fw_buffer fw) (fw_seq fw) (fw_lane fw) st = Some (ok, b, s, l) ->
  chat_bytes (flow_state (flow_of (ok, b, s, l))).
Proof.
  intros [Hb Hm] Hst Hs. eapply (step_inv _ chat_cost_nonneg) in Hs as [Hb' Hm']; [|done|done].
  destruct ok; (split; [done|]); simpl; congruence.
Qed.

Lemma chat_step_bytes fw input flow :
  chat_bytes fw -> chat_step fw input = Some flow -> chat_bytes (flow_state flow).
Proof.
  intros Hb. pose proof Hb as [Hinv Hm]. destruct input as [conflatable room delta|]; simpl.
  - unfold forward_delta. destruct (if conflatable then from_delta delta else None) as [[k i]|] eqn:E.
    + intros ([[[ok b] s] l] & Hf & [= <-])%bind_Some.
      eapply (lane_step_bytes fw (Offer k i room)); [done| |exact Hf].
      destruct conflatable; [|done]. apply from_delta_block in E as [Hblk _]. by repeat constructor.
    + unfold barrier. intros ([[[ok b] s] l] & Hd & H)%bind_Some.
      eapply (drain_loop_inv _ chat_cost_nonneg) in Hd as [Hb' Hm']; [|done].
      assert (forall ok s l, chat_bytes (flow_state (flow_of (ok, b, s, l)))) as Hres.
      { intros [] ? ?; (split; [done|]); simpl; congruence. }
      destruct ok; [destruct (send_parts s l _) as [[]]; injection H as <-; apply Hres|].
      injection H as <-. apply (Hres false).
  - intros ([[[ok b] s] l] & Hf & [= <-])%bind_Some.
    eapply (lane_step_bytes fw Drain); [done|constructor|exact Hf].
Qed.

Lemma run_chat_bytes fw inputs flow :
  chat_bytes fw -> run_chat fw inputs = Some flow -> chat_bytes (flow_state flow).
Proof.
  revert fw. induction inputs as [|input inputs IH]; intros fw Hb; simpl; [by intros [= <-]|].
  intros (f & Hs%chat_step_bytes & H)%bind_Some; [|done].
  destruct f as [fw'|fw']; [by eapply IH|by injection H as <-].
Qed.

(** ** Splitting a delta *)

Definition delta_added (d : json) : list json := array_or_empty (jget d "added").
Definition delta_updated (d : json) : list json := array_or_empty (jget d "updated").

Definition entity_bytes (es : list json) : Z := sum_with (fun e => serialized_size e + 1) es.

Definition BASE : Z := serialized_size (delta_object [] []).

Lemma array_size es : serialized_size (JArray es) <= 2 + entity_bytes es.
Proof.
  unfold entity_bytes. simpl. unfold commas.
  assert (sum_with (fun e => serialized_size e + 1) es = sum_with serialized_size es + Z.of_nat (length es)) as ->.
  { induction es as [|e es IH]; simpl in *; [done|]. lia. }
  lia.
Qed.

Lemma delta_object_size a u :
  serialized_size (delta_object a u) <= BASE + entity_bytes a + entity_bytes u.
Proof.
  pose proof (array_size a) as Ha. pose proof (array_size u) as Hu.
  unfold BASE, delta_object.
  assert (forall x y, serialized_size (JObject [("added", x); ("updated", y); ("removedIds", JArray [])])
    = 37 + serialized_size x + serialized_size y) as Hsz.
  { intros x y. change (4 + (8 + serialized_size x + (10 + serialized_size y + 15)) = 37 + serialized_size x + serialized_size y). lia. }
  rewrite !Hsz. change (serialized_size (JArray [])) with 2. lia.
Qed.

(** The added, or the updated, entities of a tagged list. *)
Definition tagged (is_added : bool) (x : bool * json) : list json :=
  if Bool.eqb x.1 is_added then [x.2] else [].

(** A part that respects the budget, or carries a single entity. *)
Definition fits_part (budget : Z) (p : json) : Prop :=
  serialized_size p <= budget \/ length (delta_added p ++ delta_updated p) = 1%nat.

Lemma split_loop_spec budget todo : forall out a u size,
  size = BASE + entity_bytes a + entity_bytes u ->
  size <= budget \/ (length (a ++ u) <= 1)%nat ->
  exists parts a' u',
    split_loop budget BASE todo out a u size = (out ++ parts, (a', u')) /\
    Forall (fits_part budget) parts /\
    (parts ≫= delta_added) ++ a' = a ++ (todo ≫= tagged true) /\
    (parts ≫= delta_updated) ++ u' = u ++ (todo ≫= tagged false).
Proof.
  induction todo as [|[is_added e] todo IH]; intros out a u size Hsize Hfit; cbn [split_loop].
  { exists [], a, u. rewrite !app_nil_r. by repeat split. }
  assert (forall out a u size, size = BASE + entity_bytes a + entity_bytes u ->
    size + (serialized_size e + 1) <= budget \/ a ++ u = [] ->
    exists parts a' u',
      (if is_added : bool
       then split_loop budget BASE todo out (a ++ [e]) u (size + (serialized_size e + 1))
       else split_loop budget BASE todo out a (u ++ [e]) (size + (serialized_size e + 1)))
      = (out ++ parts, (a', u')) /\
      Forall (fits_part budget) parts /\
      (parts ≫= delta_added) ++ a' = a ++ (((is_added, e) :: todo) ≫= tagged true) /\
      (parts ≫= delta_updated) ++ u' = u ++ (((is_added, e) :: todo) ≫= tagged false))
    as Hadd.
  { clear out a u size Hsize Hfit. intros out a u size Hsize Hroom. rewrite !bind_cons.
    destruct is_added; [destruct (IH out (a ++ [e]) u (size + (serialized_size e + 1)))
        as (parts & a' & u' & -> & Hp & Ha & Hu)
      |destruct (IH out a (u ++ [e]) (size + (serialized_size e + 1)))
        as (parts & a' & u' & -> & Hp & Ha & Hu)].
    1,4: unfold entity_bytes in *; rewrite sum_with_app; simpl; lia.
    1,3: destruct Hroom as [?|[-> ->]%app_nil]; simpl; auto.
    all: exists parts, a', u'; rewrite Ha, Hu, <- !app_assoc; done. }
  destruct ((budget <? size + (serialized_size e + 1)) &&
            negb (match a, u with [], [] => true | _, _ => false end)) eqn:Efull.
  - destruct (Hadd (out ++ [delta_object a u]) [] [] BASE) as (parts & a' & u' & -> & Hp & Ha & Hu);
      [unfold entity_bytes; simpl; lia|by right|].
    exists (delta_object a u :: parts), a', u'. rewrite <- app_assoc, !bind_cons. split; [done|].
    rewrite <- !app_assoc, Ha, Hu. split_and!; [|done|done]. constructor; [|done].
    destruct Hfit as [Hfit|Hfit].
    + left. pose proof (delta_object_size a u). lia.
    + right. apply andb_true_iff in Efull as [_ Hne]. unfold delta_added, delta_updated. simpl.
      destruct a, u; simpl in *; try done; lia.
  - apply Hadd; [done|]. apply andb_false_iff in Efull as [Hle|Hne]; [case_tests; left; lia|].
    right. by destruct a, u.
Qed.

Lemma swap_remove_spec m k :
  distinct_keys m -> distinct_keys (map_swap_remove m k) /\
  forall k', map_get (map_swap_remove m k) k' = if decide (k' = k) then None else map_get m k'.
Proof.
  intros Hm. split; [by apply distinct_swap_remove|]. intros k'. destruct (decide (k' = k)) as [->|Hne].
  - by apply map_get_swap_remove_eq.
  - by apply map_get_swap_remove_ne.
Qed.

Lemma map_get_extend m ms k :
  map_get ms k = None -> map_get (foldl (fun m '(k, v) => map_insert m k v) m ms) k = map_get m k.
Proof.
  revert m. induction ms as [|[k1 v1] ms IH]; intros m; simpl; [done|].
  destruct (decide (k1 = k)); [done|]. intros Hms. rewrite IH by done. by apply map_get_insert_ne.
Qed.

Lemma tagged_entities (is_added : bool) (a u : list json) :
  ((map (pair true) a ++ map (pair false) u) ≫= tagged is_added) = if is_added then a else u.
Proof.
  rewrite bind_app.
  assert (forall b l, (map (pair b) l ≫= tagged is_added) = if Bool.eqb b is_added then l else []) as H.
  { intros b l. induction l as [|e l IH]; [by destruct (Bool.eqb b is_added)|].
    rewrite map_cons, bind_cons, IH. unfold tagged. simpl. by destruct (Bool.eqb b is_added). }
  rewrite !H. destruct is_added; simpl; [by rewrite app_nil_r|done].
Qed.

Lemma split_chat_delta_parts delta budget obj :
  delta = JObject obj -> distinct_keys obj ->
  exists parts last_,
    split_chat_delta delta budget = parts ++ [last_] /\
    Forall (fits_part budget) parts /\
    (parts ≫= delta_added) ++ delta_added last_ = delta_added delta /\
    (parts ≫= delta_updated) ++ delta_updated last_ = delta_updated delta /\
    default (JArray []) (jget last_ "removedIds") = default (JArray []) (jget delta "removedIds").
Proof.
  intros -> Hwf. unfold split_chat_delta.
  destruct (serialized_size (JObject obj) <=? budget); [by exists [], (JObject obj)|].
  destruct (swap_remove_spec obj "added" Hwf) as [Hwf1 Hget1].
  destruct (swap_remove_spec _ "updated" Hwf1) as [Hwf2 Hget2].
  destruct (swap_remove_spec _ "removedIds" Hwf2) as [Hwf3 Hget3].
  set (added := array_or_empty (map_get obj "added")).
  set (updated := array_or_empty (map_get (map_swap_remove obj "added") "updated")).
  destruct (split_loop_spec budget (map (pair true) added ++ map (pair false) updated) [] [] [] BASE)
    as (parts & a & u & Hloop & Hfit & Ha & Hu); [unfold entity_bytes; simpl; lia|right; simpl; lia|].
  rewrite tagged_entities in Ha, Hu. fold BASE. rewrite Hloop. simpl in Ha, Hu.
  eexists parts, _. split; [done|]. split; [done|].
  unfold delta_added, delta_updated, jget.
  rewrite !map_get_extend by (rewrite Hget3; repeat (case_decide; [done|]); rewrite Hget2;
    repeat (case_decide; [done|]); rewrite Hget1; by rewrite decide_True).
  change (array_or_empty (map_get obj "added")) with added.
  assert (array_or_empty (map_get obj "updated") = updated) as ->
    by (unfold updated; rewrite Hget1; by rewrite decide_False).
  split; [exact Ha|]. split; [exact Hu|].
  rewrite Hget2, Hget1. simpl. by destruct (map_get obj "removedIds").
Qed.

(** ** Properties *)

Definition chat_forwarder (seq : Z) (closes : option nat) : ChatForwarder :=
  mkForwarder new seq (mkLane [] closes).


(** The chat buffer is hard-bounded: whatever deltas the loop takes in, the
    approximate payload size it holds stays within the byte bound of a
    connection's buffer (merging never costs more than its two parts). *)
Theorem chat_buffer_bounded (seq : Z) (closes : option nat) (inputs : list ChatInput) (flow : Flow) :
  run_chat (chat_forwarder seq closes) inputs = Some flow ->
  sum_with (fun e => approx_size (entity (e_item e))) (entries (fw_buffer (flow_state flow)))
    <= MAX_PENDING_BYTES.
Proof.
  intros Hrun. apply run_chat_bytes in Hrun as [[Hwf [Hb _]] <-].
  - rewrite (bw_total _ Hwf) in Hb. pose proof (bw_costs _ Hwf) as Hc. clear Hwf.
    assert (sum_with (fun e => approx_size (entity (e_item e))) (entries (fw_buffer (flow_state flow))) =
            sum_with e_cost (entries (fw_buffer (flow_state flow)))) as ->; [|done].
    clear Hb. induction Hc as [|e l He _ IH]; simpl; [done|]. by rewrite IH, He.
  - split; [|done]. split; [apply bounded_wf|]. split; [done|constructor].
Qed.

Definition text_delta (id text : string) : json :=
  JObject [("added", JArray []);
           ("updated", JArray [JObject [("block",
              JObject [("id", JString id); ("type", JString "text"); ("textDelta", JString text)])]]);
           ("removedIds", JArray [])].

Lemma chat_buffer_bounded_witness :
  exists flow,
    run_chat (chat_forwarder 1 None)
      [InDelta true false (text_delta "b1" "he"); InDelta true false (text_delta "b2" "x");
       InDelta true false (text_delta "b1" "llo")] = Some flow /\
    sum_with (fun e => approx_size (entity (e_item e))) (entries (fw_buffer (flow_state flow)))
      <= MAX_PENDING_BYTES.
Proof.
  eexists. split; [vm_compute; reflexivity|].
  apply (chat_buffer_bounded 1 None
    [InDelta true false (text_delta "b1" "he"); InDelta true false (text_delta "b2" "x");
     InDelta true false (text_delta "b1" "llo")]). vm_compute. reflexivity.
Defined.

(** Splitting a delta to the frame budget drops, duplicates and reorders
    nothing: concatenated over the parts, the added entities are those of the
    delta and so are the updated ones; the last part carries its removed ids;
    and every earlier part fits the budget, unless it carries one single
    entity. *)
Theorem split_chat_delta_preserves (delta : json) (budget : Z) (obj : list (string * json)) :
  delta = JObject obj -> distinct_keys obj ->
  exists parts last_,
    split_chat_delta delta budget = parts ++ [last_] /\
    Forall (fits_part budget) parts /\
    ((parts ++ [last_]) ≫= delta_added) = delta_added delta /\
    ((parts ++ [last_]) ≫= delta_updated) = delta_updated delta /\
    default (JArray []) (jget last_ "removedIds") = default (JArray []) (jget delta "removedIds").
Proof.
  intros Hd Hwf.
  destruct (split_chat_delta_parts delta budget obj Hd Hwf) as (parts & last_ & Hs & Hf & Ha & Hu & Hr).
  exists parts, last_. rewrite !bind_app, !bind_singleton. done.
Qed.

Definition three_entities : list (string * json) :=
  [("added", JArray [JString "aaaa"; JString "bbbb"]); ("updated", JArray [JString "cccc"]);
   ("removedIds", JArray [JString "gone"])].

Lemma split_chat_delta_preserves_witness :
  exists parts last_,
    split_chat_delta (JObject three_entities) 48 = parts ++ [last_] /\
    Forall (fits_part 48) parts /\
    ((parts ++ [last_]) ≫= delta_added) = [JString "aaaa"; JString "bbbb"] /\
    ((parts ++ [last_]) ≫= delta_updated) = [JString "cccc"] /\
    default (JArray []) (jget last_ "removedIds") = JArray [JString "gone"].
Proof.
  apply (split_chat_delta_preserves (JObject three_entities) 48 three_entities); [reflexivity|].
  unfold distinct_keys. simpl. repeat constructor; set_solver.
Defined.

(** The packing loop does not count what rides on the last part: every entity of
    this delta would fit a part of 48 bytes with its own envelope, yet the last
    part is longer, by the removed ids it carries. *)
Example split_last_part_over_budget :
  Forall (fun e => serialized_size (JObject [("added", JArray [e]); ("updated", JArray []); ("removedIds", JArray [])]) <= 48)
    (delta_added (JObject three_entities) ++ delta_updated (JObject three_entities)) /\
  exists parts last_,
    split_chat_delta (JObject three_entities) 48 = parts ++ [last_] /\
    48 < serialized_size last_.
Proof.
  split.
  - repeat constructor; vm_compute; discriminate.
  - eexists [_; _], _. split; [vm_compute; reflexivity|]. vm_compute. reflexivity.
Qed.
