(* ===== verification/TunnelFrame.v ===== *)
(** * Tunnel frames ([crates/intent-transport/src/tunnel.rs])

    The wire format of the [/tunnel] multiplexer: the frames, their encoding and
    the checked decoding.  Bytes are [Z]; a Rust [String] is its UTF-8 bytes. *)
From stdpp Require Import prelude.
From S2P Require Import Prelude.

Definition OP_OPEN : Z := 0x01.
Definition OP_OPEN_OK : Z := 0x02.
Definition OP_OPEN_ERR : Z := 0x03.
Definition OP_DATA : Z := 0x04.
Definition OP_EOF : Z := 0x05.
Definition OP_CLOSE : Z := 0x06.
Definition OP_CREDIT : Z := 0x07.
Definition HEADER_LEN : Z := 5.
Definition CREDIT_PAYLOAD_LEN : Z := 4.

Inductive Frame :=
| Open (stream_id port : Z)
| OpenOk (stream_id : Z)
| OpenErr (stream_id : Z) (message : list Z)
| Data (stream_id : Z) (payload : list Z)
| Eof (stream_id : Z)
| Close (stream_id : Z)
| Credit (stream_id credit : Z).

Inductive FrameError :=
| TooShort
| UnknownOpcode (op : Z)
| BadOpenPayload
| UnexpectedPayload (op : Z)
| BadErrMessage
| BadCreditPayload
| ZeroCredit.

Definition frame_stream_id (f : Frame) : Z :=
  match f with
  | Open s _ | OpenOk s | OpenErr s _ | Data s _ | Eof s | Close s | Credit s _ => s
  end.

(** ** Big-endian integers *)

(** [to_be_bytes] of an [n]-byte integer. *)
Fixpoint to_be_bytes (n : nat) (z : Z) : list Z :=
  match n with
  | O => []
  | S n' => (z / 256 ^ Z.of_nat n') mod 256 :: to_be_bytes n' z
  end.

Definition from_be_bytes (bs : list Z) : Z := foldl (fun acc b => acc * 256 + b) 0 bs.

(** ** UTF-8

    [std::str::from_utf8]: the well-formed byte sequences of the Unicode
    standard (no overlong forms, no surrogates, nothing past U+10FFFF). *)
Definition in_range (a b x : Z) : bool := (a <=? x) && (x <=? b).
Definition is_cont (b : Z) : bool := in_range 0x80 0xBF b.

Fixpoint utf8_valid (bs : list Z) : bool :=
  match bs with
  | [] => true
  | b0 :: r0 =>
      if in_range 0 0x7F b0 then utf8_valid r0
      else
        match r0 with
        | [] => false
        | b1 :: r1 =>
            if in_range 0xC2 0xDF b0 then is_cont b1 && utf8_valid r1
            else
              match r1 with
              | [] => false
              | b2 :: r2 =>
                  if b0 =? 0xE0 then in_range 0xA0 0xBF b1 && is_cont b2 && utf8_valid r2
                  else if in_range 0xE1 0xEC b0 || in_range 0xEE 0xEF b0 then
                    is_cont b1 && is_cont b2 && utf8_valid r2
                  else if b0 =? 0xED then in_range 0x80 0x9F b1 && is_cont b2 && utf8_valid r2
                  else
                    match r2 with
                    | [] => false
                    | b3 :: r3 =>
                        (if b0 =? 0xF0 then in_range 0x90 0xBF b1
                         else if in_range 0xF1 0xF3 b0 then is_cont b1
                         else if b0 =? 0xF4 then in_range 0x80 0x8F b1
                         else false)
                        && is_cont b2 && is_cont b3 && utf8_valid r3
                    end
              end
        end
  end.

(** ** The codec *)

Definition build (opcode stream_id : Z) (payload : list Z) : list Z :=
  [opcode] ++ to_be_bytes 4 stream_id ++ payload.

Definition encode (f : Frame) : list Z :=
  match f with
  | Open s port => build OP_OPEN s (to_be_bytes 2 port)
  | OpenOk s => build OP_OPEN_OK s []
  | OpenErr s message => build OP_OPEN_ERR s message
  | Data s payload => build OP_DATA s payload
  | Eof s => build OP_EOF s []
  | Close s => build OP_CLOSE s []
  | Credit s credit => build OP_CREDIT s (to_be_bytes 4 credit)
  end.

(** [decode]; [None] where the source would panic on an index or a slice. *)
Definition decode (bytes : list Z) : option (Result Frame FrameError) :=
  if len bytes <? HEADER_LEN then Some (Err TooShort)
  else
    opcode ← znth bytes 0;
    id_bytes ← slice bytes 1 HEADER_LEN;
    let stream_id := from_be_bytes id_bytes in
    payload ← slice bytes HEADER_LEN (len bytes);
    let no_payload (f : Frame) :=
      if negb (len payload =? 0) then Some (Err (UnexpectedPayload opcode)) else Some (Ok f) in
    if opcode =? OP_OPEN then
      if negb (len payload =? 2) then Some (Err BadOpenPayload)
      else
        b0 ← znth payload 0; b1 ← znth payload 1;
        Some (Ok (Open stream_id (from_be_bytes [b0; b1])))
    else if opcode =? OP_OPEN_OK then no_payload (OpenOk stream_id)
    else if opcode =? OP_OPEN_ERR then
      if utf8_valid payload then Some (Ok (OpenErr stream_id payload)) else Some (Err BadErrMessage)
    else if opcode =? OP_DATA then Some (Ok (Data stream_id payload))
    else if opcode =? OP_EOF then no_payload (Eof stream_id)
    else if opcode =? OP_CLOSE then no_payload (Close stream_id)
    else if opcode =? OP_CREDIT then
      if negb (len payload =? CREDIT_PAYLOAD_LEN) then Some (Err BadCreditPayload)
      else
        let credit := from_be_bytes payload in
        if credit =? 0 then Some (Err ZeroCredit) else Some (Ok (Credit stream_id credit))
    else Some (Err (UnknownOpcode opcode)).

(** ** Lemmas *)

Definition byte (b : Z) : Prop := 0 <= b <= u8_max.

(** The frames the types of the source allow, with the values [decode] accepts. *)
Definition frame_wf (f : Frame) : Prop :=
  0 <= frame_stream_id f <= u32_max /\
  match f with
  | Open _ port => 0 <= port <= u16_max
  | OpenErr _ m => Forall byte m /\ utf8_valid m = true
  | Data _ p => Forall byte p
  | Credit _ c => 0 < c <= u32_max
  | _ => True
  end.

Lemma length_to_be n z : length (to_be_bytes n z) = n.
Proof. induction n as [|n IH]; simpl; [done|]. by rewrite IH. Qed.

Lemma to_be_byte n z : Forall byte (to_be_bytes n z).
Proof.
  induction n as [|n IH]; simpl; constructor; [|done]. unfold byte, u8_max.
  pose proof (Z.mod_pos_bound (z / 256 ^ Z.of_nat n) 256 ltac:(lia)). lia.
Qed.

Lemma from_be_acc bs acc :
  foldl (fun acc b => acc * 256 + b) acc bs = acc * 256 ^ len bs + from_be_bytes bs.
Proof.
  unfold from_be_bytes. revert acc. induction bs as [|b bs IH]; intros acc.
  - simpl. rewrite len_nil. lia.
  - cbn [foldl]. rewrite (IH (acc * 256 + b)), (IH (0 * 256 + b)), len_cons.
    rewrite Z.pow_add_r by (pose proof (len_nonneg bs); lia). lia.
Qed.

Lemma from_to_be n z : from_be_bytes (to_be_bytes n z) = z mod 256 ^ Z.of_nat n.
Proof.
  induction n as [|n IH]; [by rewrite Z.mod_1_r|].
  cbn [to_be_bytes]. unfold from_be_bytes. cbn [foldl]. rewrite from_be_acc, IH.
  unfold len. rewrite length_to_be. rewrite Nat2Z.inj_succ, Z.pow_succ_r by lia.
  rewrite (Z.mul_comm 256). rewrite Z.rem_mul_r by lia. lia.
Qed.

Lemma from_to_be_range n z : 0 <= z < 256 ^ Z.of_nat n -> from_be_bytes (to_be_bytes n z) = z.
Proof. intros Hz. rewrite from_to_be. by apply Z.mod_small. Qed.

Lemma from_be_range bs : Forall byte bs -> 0 <= from_be_bytes bs < 256 ^ len bs.
Proof.
  induction 1 as [|b bs Hb _ IH]; [done|]. unfold from_be_bytes. cbn [foldl].
  rewrite from_be_acc, len_cons, Z.pow_add_r by (pose proof (len_nonneg bs); lia).
  unfold byte, u8_max in Hb. change (256 ^ 1) with 256. nia.
Qed.

Lemma to_from_be bs : Forall byte bs -> to_be_bytes (length bs) (from_be_bytes bs) = bs.
Proof.
  induction 1 as [|b bs Hb Hbs IH]; [done|]. unfold from_be_bytes. cbn [foldl length to_be_bytes].
  rewrite from_be_acc. pose proof (from_be_range bs Hbs) as Hr.
  unfold byte, u8_max in Hb. fold (len bs). f_equal.
  - rewrite Z.add_comm, Z.div_add, Z.div_small by lia. rewrite Z.mod_small by lia. lia.
  - etrans; [|exact IH]. clear IH.
    assert (forall n m z k, (n <= m)%nat -> to_be_bytes n (k * 256 ^ Z.of_nat m + z) = to_be_bytes n z) as H.
    { induction n as [|n IHn]; intros m z k Hm; simpl; [done|]. rewrite IHn by lia. f_equal.
      replace (Z.of_nat m) with (Z.of_nat n + 1 + (Z.of_nat m - Z.of_nat n - 1)) by lia.
      rewrite !Z.pow_add_r by lia. change (256 ^ 1) with 256.
      replace (k * (256 ^ Z.of_nat n * 256 * 256 ^ (Z.of_nat m - Z.of_nat n - 1)) + z)
        with (z + (k * 256 ^ (Z.of_nat m - Z.of_nat n - 1) * 256) * 256 ^ Z.of_nat n) by lia.
      rewrite Z.div_add by lia. by rewrite Z.mod_add by lia. }
    rewrite Z.add_0_l. unfold len. by apply H.
Qed.

Lemma len_to_be n z : len (to_be_bytes n z) = Z.of_nat n.
Proof. unfold len. by rewrite length_to_be. Qed.

(** The header split of a long enough buffer. *)
Lemma header_split bs :
  5 <= len bs -> exists (op : Z) (ids p : list Z), bs = [op] ++ ids ++ p /\ length ids = 4%nat.
Proof.
  unfold len. intros H.
  destruct bs as [|op [|a [|b [|c [|d p]]]]]; simpl in H; try lia.
  by exists op, [a; b; c; d], p.
Qed.

(** [decode] on a buffer in header form. *)
Lemma decode_header op ids p :
  length ids = 4%nat ->
  decode ([op] ++ ids ++ p) =
  let s := from_be_bytes ids in
  let no_payload f := Some (match p with [] => Ok f | _ => Err (UnexpectedPayload op) end) in
  if op =? OP_OPEN then
    match p with
    | [b0; b1] => Some (Ok (Open s (from_be_bytes [b0; b1])))
    | _ => Some (Err BadOpenPayload)
    end
  else if op =? OP_OPEN_OK then no_payload (OpenOk s)
  else if op =? OP_OPEN_ERR then
    Some (if utf8_valid p then Ok (OpenErr s p) else Err BadErrMessage)
  else if op =? OP_DATA then Some (Ok (Data s p))
  else if op =? OP_EOF then no_payload (Eof s)
  else if op =? OP_CLOSE then no_payload (Close s)
  else if op =? OP_CREDIT then
    match p with
    | [_; _; _; _] => Some (if from_be_bytes p =? 0 then Err ZeroCredit else Ok (Credit s (from_be_bytes p)))
    | _ => Some (Err BadCreditPayload)
    end
  else Some (Err (UnknownOpcode op)).
Proof.
  intros Hids. pose proof (len_nonneg p) as Hp.
  assert (len ids = 4) as Hl by (unfold len; lia).
  assert (len ([op] ++ ids ++ p) = 5 + len p) as Hlen by (rewrite !len_app, Hl, len_cons, len_nil; lia).
  assert (slice ([op] ++ ids ++ p) 1 5 = Some ids) as Hs1.
  { pose proof (slice_app3 [op] ids p) as H. by rewrite Hl in H. }
  assert (slice ([op] ++ ids ++ p) 5 (5 + len p) = Some p) as Hs2.
  { pose proof (slice_app3 ([op] ++ ids) p []) as H.
    rewrite app_nil_r, <- app_assoc, len_app, Hl in H. exact H. }
  unfold decode. rewrite Hlen. change HEADER_LEN with 5. rewrite Hs1, Hs2.
  change (znth ([op] ++ ids ++ p) 0) with (Some op). solve_test. cbn [mbind option_bind].
  destruct p as [|a [|b [|c [|d [|e p]]]]];
    repeat (match goal with |- context [if ?o =? ?c then _ else _] => destruct (o =? c) eqn:? end);
    try done.
  all: repeat match goal with
       | q : list Z |- _ =>
           lazymatch goal with H : 0 <= len q |- _ => fail | _ => pose proof (len_nonneg q) end
       end; rewrite ?len_cons, ?len_nil in *;
    unfold CREDIT_PAYLOAD_LEN in *; case_tests; try lia; try done;
    try (by destruct (utf8_valid _)); try (by solve_test).
Qed.

Ltac decode_ids :=
  rewrite decode_header by apply length_to_be; cbn zeta;
  rewrite from_to_be_range by (unfold u32_max in *; simpl; lia).

Lemma decode_encode f : frame_wf f -> decode (encode f) = Some (Ok f).
Proof.
  intros [Hs Hf]. destruct f as [s port|s|s m|s p|s|s|s c]; simpl in Hs, Hf; unfold encode, build; decode_ids.
  - simpl. do 3 f_equal. exact (from_to_be_range 2 port ltac:(unfold u16_max in *; simpl; lia)).
  - done.
  - destruct Hf as [_ ->]. done.
  - done.
  - done.
  - done.
  - rewrite (from_to_be_range 4 c) by (unfold u32_max in *; simpl; lia).
    change (Some (if c =? 0 then Err ZeroCredit else Ok (Credit s c)) = Some (Ok (Credit s c))).
    by solve_test.
Qed.

Lemma decode_wf bs f :
  Forall byte bs -> decode bs = Some (Ok f) -> frame_wf f /\ encode f = bs.
Proof.
  intros Hbs. destruct (decide (len bs < 5)) as [Hlt|Hge].
  { unfold decode, HEADER_LEN. by solve_test. }
  destruct (header_split bs) as (op & ids & p & -> & Hids); [lia|].
  rewrite decode_header by done. cbn zeta.
  apply Forall_app in Hbs as [_ [Hi Hp]%Forall_app].
  pose proof (from_be_range ids Hi) as Hr. pose proof (to_from_be ids Hi) as Hto.
  rewrite Hids in Hto. unfold len in Hr. rewrite Hids in Hr. simpl in Hr.
  assert (0 <= from_be_bytes ids <= u32_max) as Hid by (unfold u32_max; lia).
  unfold encode, build, frame_wf.
  repeat (match goal with |- context [if ?o =? ?c then _ else _] => destruct (o =? c) eqn:? end);
    case_tests; subst; try done.
  all: try (destruct p as [|a [|b [|c [|d [|e p]]]]]; try done).
  all: try (destruct (utf8_valid _) eqn:Hu; [|done]).
  all: try (intros [= <-]; cbn [frame_stream_id]; rewrite Hto; (split; [split; [exact Hid|done]|done])).
  - intros [= <-]. cbn [frame_stream_id]. rewrite Hto.
    pose proof (from_be_range [a; b] Hp) as Hr2. pose proof (to_from_be [a; b] Hp) as Ht2.
    change (length [a; b]) with 2%nat in Ht2. rewrite Ht2. unfold u16_max.
    change (256 ^ len [a; b]) with (2 ^ 16) in Hr2. split; [|done]. split; [done|]. lia.
  - intros [= <-]. cbn [frame_stream_id]. rewrite Hto.
    pose proof (from_be_range [a; b; c; d] Hp) as Hr4. pose proof (to_from_be [a; b; c; d] Hp) as Ht4.
    change (length [a; b; c; d]) with 4%nat in Ht4. rewrite Ht4. unfold u32_max.
    change (256 ^ len [a; b; c; d]) with (2 ^ 32) in Hr4. split; [|done]. split; [done|]. lia.
Qed.

Lemma decode_total bs : decode bs <> None.
Proof.
  destruct (decide (len bs < 5)) as [Hlt|Hge].
  { unfold decode, HEADER_LEN. by solve_test. }
  destruct (header_split bs) as (op & ids & p & -> & Hids); [lia|].
  rewrite decode_header by done. cbn zeta. by repeat case_match.
Qed.

(** ** Properties *)

(** [C38] The tunnel codec is a bijection: every frame within the ranges of its
    types (with a non-zero credit and a UTF-8 message) decodes from its own
    encoding to itself, and a byte buffer that decodes at all decodes to such a
    frame and is exactly the encoding of it; so no two buffers mean the same
    frame. *)
Theorem tunnel_codec_bijective (f : Frame) (bs : list Z) :
  (frame_wf f -> decode (encode f) = Some (Ok f)) /\
  (Forall byte bs -> decode bs = Some (Ok f) -> frame_wf f /\ encode f = bs).
Proof. split; [apply decode_encode|apply decode_wf]. Qed.

Lemma tunnel_codec_bijective_witness :
  decode (encode (Open 7 8080)) = Some (Ok (Open 7 8080)) /\
  frame_wf (Credit 1 65536) /\ encode (Credit 1 65536) = [7; 0; 0; 0; 1; 0; 1; 0; 0].
Proof.
  split.
  - apply (proj1 (tunnel_codec_bijective (Open 7 8080) [])). by vm_compute.
  - apply (proj2 (tunnel_codec_bijective (Credit 1 65536) [7; 0; 0; 0; 1; 0; 1; 0; 0])); [|reflexivity].
    repeat constructor; by vm_compute.
Defined.

(** Decoding an arbitrary buffer never panics, and fails for exactly one
    reason: a buffer shorter than the header; an unknown opcode; an [OPEN]
    payload that is not two bytes; a payload on a frame without one; an
    [OPEN_ERR] message that is not UTF-8; a payload that is not four
    bytes, or that grants nothing. *)
Theorem tunnel_decode_total (bs : list Z) :
  (len bs < HEADER_LEN /\ decode bs = Some (Err TooShort)) \/
  exists op ids p, bs = [op] ++ ids ++ p /\ length ids = 4%nat /\
    match decode bs with
    | Some (Ok f) => frame_stream_id f = from_be_bytes ids
    | Some (Err TooShort) => False
    | Some (Err (UnknownOpcode o)) => o = op /\ ~ (OP_OPEN <= op <= OP_CREDIT)
    | Some (Err BadOpenPayload) => op = OP_OPEN /\ len p <> 2
    | Some (Err (UnexpectedPayload o)) =>
        o = op /\ (op = OP_OPEN_OK \/ op = OP_EOF \/ op = OP_CLOSE) /\ p <> []
    | Some (Err BadErrMessage) => op = OP_OPEN_ERR /\ utf8_valid p = false
    | Some (Err BadCreditPayload) => op = OP_CREDIT /\ len p <> CREDIT_PAYLOAD_LEN
    | Some (Err ZeroCredit) => op = OP_CREDIT /\ len p = CREDIT_PAYLOAD_LEN /\ from_be_bytes p = 0
    | None => False
    end.
Proof.
  destruct (decide (len bs < 5)) as [Hlt|Hge].
  { left. unfold decode, HEADER_LEN. split; [done|]. by solve_test. }
  right. destruct (header_split bs) as (op & ids & p & -> & Hids); [lia|].
  exists op, ids, p. split; [done|]. split; [done|].
  rewrite decode_header by done. cbn zeta. pose proof (len_nonneg p) as Hp.
  destruct p as [|a [|b [|c [|d [|e p]]]]];
    try (pose proof (len_nonneg p)); rewrite ?len_cons, ?len_nil in *;
    repeat (match goal with |- context [if ?o =? ?c then _ else _] => destruct (o =? c) eqn:? end);
    case_tests; subst; try done; rewrite ?len_cons, ?len_nil;
    try (destruct (utf8_valid _) eqn:?);
    unfold OP_OPEN, OP_OPEN_OK, OP_OPEN_ERR, OP_DATA, OP_EOF, OP_CLOSE, OP_CREDIT, CREDIT_PAYLOAD_LEN in *;
    try done; split_and?; try done; try lia; auto.
Qed.
