(* ===== verification/TunnelRelay.v ===== *)
(** * The stream relay ([crates/intent-transport/src/tunnel.rs], [run_stream])

    One tunnel stream's relay task between the client's queue and a loopback
    socket, as a state machine: its local variables, the state it shares with
    the connection loop, and one event per arm of its [select!].  Which ready
    arm fires is left open, so every scheduling of the source is covered. *)
From stdpp Require Import prelude.
From S2P Require Import Prelude TunnelFrame.

Definition TUNNEL_INITIAL_CREDIT_BYTES : Z := 1024 * 1024.
Definition STREAM_QUEUE_FRAMES : Z := 32.
Definition READ_CHUNK_BYTES : Z := 16 * 1024.

(** A queued client message; a [Data] message owns as many permits of the
    shared inbound budget as it has bytes. *)
Inductive StreamMsg :=
| MsgData (bytes : list Z)
| MsgEof.

Definition msg_bytes (m : StreamMsg) : Z :=
  match m with MsgData bs => len bs | MsgEof => 0 end.

(** Where the task is: awaiting the connect, awaiting the admission of a frame,
    or in its loop. *)
Inductive Phase :=
| Connecting
| SendErr (message : list Z)
| SendOk
| Relaying
| SendClose
| Done.

#[global] Instance Phase_eq_dec : EqDecision Phase.
Proof. solve_decision. Defined.

(** The loop's variables.  [seen] is this iteration's [credit_available],
    [None] before the iteration has read it. *)
Record Vars := mkVars {
  seen : option Z;
  read_done : bool;
  write_done : bool;
  pending_frame : option Frame;
  inbound : option (list Z * Z);
  starving : bool;
  eof_deferred : bool }.

(** What the connection loop reaches: the bounded queue, the stream's handle
    (sender alive, task aborted), the byte counter of the queue and the credit
    window with its stored wake-up. *)
Record Shared := mkShared {
  queue : list StreamMsg;
  tx_open : bool;
  aborted : bool;
  queued_bytes : Z;
  window : Z;
  notify : bool }.

(** History variables: the frames admitted to the outbound queue, the bytes read
    from and written to the loopback socket, the messages admitted to and taken
    from the queue, and the credit granted. *)
Record History := mkHistory {
  emitted : list Frame;
  loop_in : list Z;
  loop_out : list Z;
  accepted : list StreamMsg;
  consumed : list StreamMsg;
  granted : Z }.

Record Relay := mkRelay {
  stream : Z;
  phase : Phase;
  vars : Vars;
  shared : Shared;
  hist : History }.

Definition set_seen (x : option Z) (v : Vars) : Vars :=
  mkVars x (read_done v) (write_done v) (pending_frame v) (inbound v) (starving v) (eof_deferred v).
Definition set_read_done (x : bool) (v : Vars) : Vars :=
  mkVars (seen v) x (write_done v) (pending_frame v) (inbound v) (starving v) (eof_deferred v).
Definition set_write_done (x : bool) (v : Vars) : Vars :=
  mkVars (seen v) (read_done v) x (pending_frame v) (inbound v) (starving v) (eof_deferred v).
Definition set_pending_frame (x : option Frame) (v : Vars) : Vars :=
  mkVars (seen v) (read_done v) (write_done v) x (inbound v) (starving v) (eof_deferred v).
Definition set_inbound (x : option (list Z * Z)) (v : Vars) : Vars :=
  mkVars (seen v) (read_done v) (write_done v) (pending_frame v) x (starving v) (eof_deferred v).
Definition set_starving (x : bool) (v : Vars) : Vars :=
  mkVars (seen v) (read_done v) (write_done v) (pending_frame v) (inbound v) x (eof_deferred v).
Definition set_eof_deferred (x : bool) (v : Vars) : Vars :=
  mkVars (seen v) (read_done v) (write_done v) (pending_frame v) (inbound v) (starving v) x.

Definition set_queue (x : list StreamMsg) (s : Shared) : Shared :=
  mkShared x (tx_open s) (aborted s) (queued_bytes s) (window s) (notify s).
Definition set_tx_open (x : bool) (s : Shared) : Shared :=
  mkShared (queue s) x (aborted s) (queued_bytes s) (window s) (notify s).
Definition set_aborted (x : bool) (s : Shared) : Shared :=
  mkShared (queue s) (tx_open s) x (queued_bytes s) (window s) (notify s).
Definition set_queued_bytes (x : Z) (s : Shared) : Shared :=
  mkShared (queue s) (tx_open s) (aborted s) x (window s) (notify s).
Definition set_window (x : Z) (s : Shared) : Shared :=
  mkShared (queue s) (tx_open s) (aborted s) (queued_bytes s) x (notify s).
Definition set_notify (x : bool) (s : Shared) : Shared :=
  mkShared (queue s) (tx_open s) (aborted s) (queued_bytes s) (window s) x.

Definition set_emitted (x : list Frame) (h : History) : History :=
  mkHistory x (loop_in h) (loop_out h) (accepted h) (consumed h) (granted h).
Definition set_loop_in (x : list Z) (h : History) : History :=
  mkHistory (emitted h) x (loop_out h) (accepted h) (consumed h) (granted h).
Definition set_loop_out (x : list Z) (h : History) : History :=
  mkHistory (emitted h) (loop_in h) x (accepted h) (consumed h) (granted h).
Definition set_accepted (x : list StreamMsg) (h : History) : History :=
  mkHistory (emitted h) (loop_in h) (loop_out h) x (consumed h) (granted h).
Definition set_consumed (x : list StreamMsg) (h : History) : History :=
  mkHistory (emitted h) (loop_in h) (loop_out h) (accepted h) x (granted h).
Definition set_granted (x : Z) (h : History) : History :=
  mkHistory (emitted h) (loop_in h) (loop_out h) (accepted h) (consumed h) x.

Definition set_phase (p : Phase) (r : Relay) : Relay :=
  mkRelay (stream r) p (vars r) (shared r) (hist r).
Definition upd_vars (f : Vars -> Vars) (r : Relay) : Relay :=
  mkRelay (stream r) (phase r) (f (vars r)) (shared r) (hist r).
Definition upd_shared (f : Shared -> Shared) (r : Relay) : Relay :=
  mkRelay (stream r) (phase r) (vars r) (f (shared r)) (hist r).
Definition upd_hist (f : History -> History) (r : Relay) : Relay :=
  mkRelay (stream r) (phase r) (vars r) (shared r) (f (hist r)).

Definition new_relay (stream_id : Z) : Relay :=
  mkRelay stream_id Connecting
    (mkVars None false false None None false false)
    (mkShared [] true false 0 TUNNEL_INITIAL_CREDIT_BYTES false)
    (mkHistory [] [] [] [] [] 0).

(** ** The credit window *)

Definition grant (c : Z) (r : Relay) : Relay :=
  upd_hist (fun h => set_granted (granted h + c) h)
    (upd_shared (fun s => set_notify true (set_window (saturating_add u32_max (window s) c) s)) r).

(** [consume]: [fetch_sub] on a [u32] wraps. *)
Definition consume (n : Z) (s : Shared) : Shared :=
  set_window (wrapping_add u32_max (window s) (- n)) s.

(** ** Steps *)

Inductive Event :=
| EvConnect (res : Result unit (list Z))
| EvSend (ok : bool)
| EvObserve
| EvReserve (ok : bool)
| EvWrite (n : option Z)
| EvRecv
| EvRead (res : option (list Z))
| EvPeek (payload : bool)
| EvNotified
| EvStall
| EvIdle
| EvCancel.

(** Permits of the inbound budget the task holds. *)
Definition held (r : Relay) : Z :=
  sum_with msg_bytes (queue (shared r)) +
  match inbound (vars r) with Some (bytes, _) => len bytes | None => 0 end.

(** The end of the task: its queue and the message in flight are dropped, and
    their permits go back to the budget. *)
Definition task_end (r : Relay) : Relay * Z :=
  (set_phase Done (upd_shared (set_queue []) (upd_vars (set_inbound None) r)), held r).

Definition emit (f : Frame) (r : Relay) : Relay :=
  upd_hist (fun h => set_emitted (emitted h ++ [f]) h) r.

(** [continue] and [break] of the loop. *)
Definition next (r : Relay) : Relay := upd_vars (set_seen None) r.
Definition break (r : Relay) : Relay := set_phase SendClose (next r).

Definition is_none {A} (o : option A) : bool := match o with None => true | Some _ => false end.

(** The head of an iteration. *)
Definition observe (r : Relay) : Relay :=
  let avail := window (shared r) in
  if 0 <? avail
  then upd_vars (fun v => set_seen (Some avail) (set_starving false (set_eof_deferred false v))) r
  else upd_vars (set_seen (Some avail)) r.

Definition poll_loopback (avail : Z) (v : Vars) : bool :=
  negb (read_done v) &&
  (if 0 <? avail then is_none (pending_frame v)
   else negb (starving v) && negb (eof_deferred v)).

Definition read_limit (avail : Z) : Z := Z.min avail READ_CHUNK_BYTES.

Definition recv_arm (r : Relay) : option (Relay * Z) :=
  match inbound (vars r) with
  | Some _ => None
  | None =>
    match queue (shared r) with
    | MsgData bytes :: q =>
        let r := upd_hist (fun h => set_consumed (consumed h ++ [MsgData bytes]) h)
          (upd_shared (fun s => set_queued_bytes (queued_bytes s - len bytes) (set_queue q s)) r) in
        if write_done (vars r) || (len bytes =? 0) then Some (next r, len bytes)
        else Some (next (upd_vars (set_inbound (Some (bytes, 0))) r), 0)
    | MsgEof :: q =>
        let r := upd_hist (fun h => set_consumed (consumed h ++ [MsgEof]) h)
          (upd_vars (set_write_done true) (upd_shared (set_queue q) r)) in
        if read_done (vars r) && is_none (pending_frame (vars r)) then Some (break r, 0)
        else Some (next r, 0)
    | [] => if tx_open (shared r) then None else Some (break r, 0)
    end
  end.

Definition write_arm (r : Relay) (n : option Z) : option (Relay * Z) :=
  '(bytes, off) ← inbound (vars r);
  match n with
  | None => Some (break r, 0)
  | Some n =>
      if n =? 0 then Some (break r, 0)
      else if (n <? 0) || (len bytes - off <? n) then None
      else
        let r := upd_hist (fun h => set_loop_out (loop_out h ++ ztake n (zdrop off bytes)) h) r in
        if len bytes <=? off + n then Some (next (upd_vars (set_inbound None) r), len bytes)
        else Some (next (upd_vars (set_inbound (Some (bytes, off + n))) r), 0)
  end.

Definition read_arm (r : Relay) (avail : Z) (res : option (list Z)) : option (Relay * Z) :=
  if negb (poll_loopback avail (vars r) && (0 <? avail)) then None
  else
    match res with
    | None | Some [] =>
        Some (next (upd_vars (fun v => set_read_done true
                (set_pending_frame (Some (Eof (stream r))) v)) r), 0)
    | Some bs =>
        if read_limit avail <? len bs then None
        else
          Some (next
            (upd_hist (fun h => set_loop_in (loop_in h ++ bs) h)
              (upd_vars (set_pending_frame (Some (Data (stream r) bs)))
                (upd_shared (consume (len bs)) r))), 0)
    end.

Definition relay_arm (r : Relay) (avail : Z) (ev : Event) : option (Relay * Z) :=
  match ev with
  | EvReserve ok =>
      f ← pending_frame (vars r);
      if ok : bool then
        let r := emit f (upd_vars (set_pending_frame None) r) in
        if read_done (vars r) && write_done (vars r) then Some (break r, 0) else Some (next r, 0)
      else Some (break r, 0)
  | EvWrite n => write_arm r n
  | EvRecv => recv_arm r
  | EvRead res => read_arm r avail res
  | EvPeek payload =>
      if poll_loopback avail (vars r) && (avail =? 0) then
        if payload : bool then Some (next (upd_vars (set_starving true) r), 0)
        else Some (next (upd_vars (set_eof_deferred true) r), 0)
      else None
  | EvNotified =>
      if negb (read_done (vars r)) && (avail =? 0) && notify (shared r) then
        Some (next (upd_shared (set_notify false) r), 0)
      else None
  | EvStall =>
      if negb (read_done (vars r)) && starving (vars r) then
        if 0 <? window (shared r) then Some (next (upd_vars (set_starving false) r), 0)
        else Some (break r, 0)
      else None
  | EvIdle => Some (break r, 0)
  | _ => None
  end.

(** One event: the state after it and the permits it released; [None] when the
    event cannot happen in this state. *)
Definition relay_step (r : Relay) (ev : Event) : option (Relay * Z) :=
  match ev, phase r with
  | EvCancel, Done => None
  | EvCancel, _ => if aborted (shared r) then Some (task_end r) else None
  | EvConnect (Ok _), Connecting => Some (set_phase SendOk r, 0)
  | EvConnect (Err message), Connecting => Some (set_phase (SendErr message) r, 0)
  | EvSend ok, SendErr message =>
      if ok : bool then Some (task_end (emit (OpenErr (stream r) message) r)) else Some (task_end r)
  | EvSend ok, SendOk =>
      if ok : bool then Some (set_phase Relaying (emit (OpenOk (stream r)) r), 0)
      else Some (task_end r)
  | EvSend ok, SendClose =>
      if ok : bool then Some (task_end (emit (Close (stream r)) r)) else Some (task_end r)
  | EvObserve, Relaying =>
      match seen (vars r) with None => Some (observe r, 0) | Some _ => None end
  | ev, Relaying =>
      avail ← seen (vars r); relay_arm r avail ev
  | _, _ => None
  end.

(** The connection loop's side: admitting a message to the queue, dropping the
    handle, aborting the task. *)
Definition enqueue (m : StreamMsg) (r : Relay) : Relay :=
  upd_hist (fun h => set_accepted (accepted h ++ [m]) h)
    (upd_shared (fun s => set_queued_bytes (queued_bytes s + msg_bytes m)
                   (set_queue (queue s ++ [m]) s)) r).

Definition drop_handle (r : Relay) : Relay := upd_shared (set_tx_open false) r.
Definition abort (r : Relay) : Relay := upd_shared (set_aborted true) (drop_handle r).

(** ** Invariants of the relay *)

(** Split a step into its outcomes. *)
Ltac relay_cases H :=
  unfold relay_step, relay_arm, recv_arm, write_arm, read_arm, task_end, observe, emit, break, next in H;
  repeat first
    [ progress simplify_eq/=
    | match goal with
      | B : mbind _ _ = Some _ |- _ => let E := fresh "E" in apply bind_Some in B as (? & E & B)
      | B : match ?x with _ => _ end = Some _ |- _ => let E := fresh "E" in destruct x eqn:E
      | B : Some match ?x with _ => _ end = Some _ |- _ => let E := fresh "E" in destruct x eqn:E
      | B : Some (match ?x with _ => _ end, _) = Some _ |- _ => let E := fresh "E" in destruct x eqn:E
      end ];
  repeat match goal with
  | E : (_ && _)%bool = true |- _ => apply andb_true_iff in E as [? ?]
  | E : negb _ = true |- _ => apply negb_true_iff in E
  | E : negb _ = false |- _ => apply negb_false_iff in E
  end;
  try match goal with |- context [if 0 <? ?w then upd_vars _ _ else _] => let E := fresh "E" in destruct (0 <? w) eqn:E end;
  case_tests.

Ltac destruct_relay r :=
  destruct r as [sid ph [sn rd wd pf ib st ed] [q tx ab qb w nt] [em li lo ac co gr]].

Lemma poll_pos avail v :
  poll_loopback avail v = true -> 0 < avail -> read_done v = false /\ pending_frame v = None.
Proof.
  unfold poll_loopback. intros [Hr%negb_true_iff Hp]%andb_true_iff Ha. revert Hp. solve_test.
  by destruct (pending_frame v).
Qed.

Lemma step_held r ev r' n : relay_step r ev = Some (r', n) -> held r = held r' + n.
Proof. intros H. destruct_relay r. relay_cases H; unfold held; simpl in *; subst; simpl; lia. Qed.

(** The life of a stream as the client sees it. *)
Inductive Conv := CIdle | COpen | CHalf | CEnded.

Definition conv_step (c : Conv) (f : Frame) : option Conv :=
  match c, f with
  | CIdle, OpenOk _ => Some COpen
  | CIdle, (OpenErr _ _ | Close _) => Some CEnded
  | COpen, Data _ _ => Some COpen
  | COpen, Eof _ => Some CHalf
  | (COpen | CHalf), Close _ => Some CEnded
  | _, _ => None
  end.

Definition conv (fs : list Frame) : option Conv :=
  foldl (fun c f => c ≫= fun c => conv_step c f) (Some CIdle) fs.

Lemma conv_snoc fs f : conv (fs ++ [f]) = (c ← conv fs; conv_step c f).
Proof. unfold conv. by rewrite foldl_app. Qed.

(** The payload bytes of a sequence of frames. *)
Definition frame_data (f : Frame) : list Z := match f with Data _ p => p | _ => [] end.
Definition data_of (fs : list Frame) : list Z := fs ≫= frame_data.

Lemma data_of_app fs fs' : data_of (fs ++ fs') = data_of fs ++ data_of fs'.
Proof. apply bind_app. Qed.

Definition pending_list (r : Relay) : list Frame := option_list (pending_frame (vars r)).

(** The frames a relay has produced form a conversation that matches its phase;
    the frame it holds continues it. *)
Definition conv_inv (r : Relay) : Prop :=
  let v := vars r in
  (match phase r with
   | Connecting | SendErr _ | SendOk =>
       emitted (hist r) = [] /\ pending_frame v = None /\ read_done v = false
   | Relaying | SendClose =>
       conv (emitted (hist r)) =
         Some (if read_done v && is_none (pending_frame v) then CHalf else COpen)
   | Done => is_Some (conv (emitted (hist r)))
   end) /\
  (match pending_frame v with
   | None => True
   | Some (Data _ _) => read_done v = false
   | Some (Eof _) => read_done v = true
   | _ => False
   end) /\
  (forall s, Eof s ∈ emitted (hist r) -> read_done v = true /\ pending_frame v = None) /\
  Forall (fun f => frame_stream_id f = stream r) (emitted (hist r) ++ pending_list r).

Ltac solve_ids H :=
  repeat rewrite ?Forall_app in *; simpl in *; repeat rewrite ?Forall_cons, ?Forall_nil in *;
  destruct_and?; split_and?; assumption || reflexivity || exact I.

Ltac solve_eof H :=
  let s := fresh in intros s; rewrite ?elem_of_app, ?list_elem_of_singleton; specialize (H s);
  repeat match goal with |- _ \/ _ -> _ => intros [?|?] | |- _ -> _ => intro end;
  subst; try discriminate; try (apply H; assumption);
  try (match goal with I : Eof _ ∈ _ |- _ => destruct (H I); discriminate end);
  split; first [assumption|reflexivity].

Lemma conv_inv_step r ev r' n : relay_step r ev = Some (r', n) -> conv_inv r -> conv_inv r'.
Proof.
  intros H. destruct_relay r. unfold conv_inv, pending_list.
  relay_cases H; simpl;
    repeat match goal with P : poll_loopback _ _ = true |- _ =>
      apply poll_pos in P as [? ?]; [|lia]; simpl in * end; subst; simpl;
    intros (Hc & Hp & He & Hid); try done; destruct_and?; subst;
    rewrite ?conv_snoc, ?Hc; split_and!; try done;
    try solve_ids Hid; try solve_eof He;
    repeat (case_match; simplify_eq/=); done.
Qed.

(** Nothing is lost or reordered between the loopback socket and the outbound
    queue: the payloads produced, then the one held, are the bytes read. *)
Definition data_inv (r : Relay) : Prop :=
  data_of (emitted (hist r)) ++ data_of (pending_list r) = loop_in (hist r).

Lemma data_inv_step r ev r' n :
  relay_step r ev = Some (r', n) -> conv_inv r -> data_inv r -> data_inv r'.
Proof.
  intros H (_ & Hp & _). revert Hp. destruct_relay r. unfold data_inv, pending_list.
  relay_cases H; simpl;
    repeat match goal with P : poll_loopback _ _ = true |- _ =>
      apply poll_pos in P as [? ?]; [|lia]; simpl in * end; subst; simpl;
    intros Hp Hd; try done; rewrite ?data_of_app; simpl; rewrite <- ?Hd; simpl;
    rewrite ?app_nil_r; done.
Qed.

(** Flow control: what was read fits the credit granted, and the credit an
    iteration observed is still there. *)
Definition credit_inv (r : Relay) : Prop :=
  0 <= window (shared r) <= u32_max /\
  window (shared r) + len (loop_in (hist r)) <= TUNNEL_INITIAL_CREDIT_BYTES + granted (hist r) /\
  match seen (vars r) with Some a => 0 <= a <= window (shared r) | None => True end.

Lemma consume_exact w n : 0 <= n <= w -> w <= u32_max -> wrapping_add u32_max w (- n) = w - n.
Proof. intros Hn Hw. unfold wrapping_add. rewrite Z.mod_small by lia. lia. Qed.

Lemma credit_inv_step r ev r' n : relay_step r ev = Some (r', n) -> credit_inv r -> credit_inv r'.
Proof.
  intros H. destruct_relay r. unfold credit_inv.
  relay_cases H; simpl; intros (Hw & Hg & Hs); try done; try (split_and!; done || lia).
  unfold read_limit in *. rewrite consume_exact, len_app by (rewrite ?len_cons in *; pose proof (len_nonneg l0); lia).
  rewrite ?len_cons in *. pose proof (len_nonneg l0). lia.
Qed.

Lemma credit_inv_grant c r : 0 <= c -> credit_inv r -> credit_inv (grant c r).
Proof.
  intros Hc. destruct_relay r. unfold credit_inv, saturating_add. simpl.
  intros (Hw & Hg & Hs). unfold saturating_add. split_and!; try lia. destruct sn; lia.
Qed.

(** No lost wake-up: a relay that saw an empty window which has been refilled
    since has the notification waiting. *)
Definition wake_inv (r : Relay) : Prop :=
  seen (vars r) = Some 0 -> 0 < window (shared r) -> notify (shared r) = true.

Lemma wake_inv_step r ev r' n : relay_step r ev = Some (r', n) -> wake_inv r -> wake_inv r'.
Proof.
  intros H. destruct_relay r. unfold wake_inv.
  relay_cases H; simpl; intros Hk; try done; intros [= ->]; lia.
Qed.

(** The client's data up to its half-close. *)
Fixpoint client_data (ms : list StreamMsg) : list Z :=
  match ms with
  | [] => []
  | MsgData bs :: ms' => bs ++ client_data ms'
  | MsgEof :: _ => []
  end.

Definition has_eof (ms : list StreamMsg) : bool :=
  existsb (fun m => match m with MsgEof => true | MsgData _ => false end) ms.

Lemma has_eof_snoc ms m :
  has_eof (ms ++ [m]) = has_eof ms || match m with MsgEof => true | MsgData _ => false end.
Proof. unfold has_eof. rewrite existsb_app. simpl. by rewrite orb_false_r. Qed.

Lemma client_data_snoc ms m :
  client_data (ms ++ [m]) =
  client_data ms ++ (if has_eof ms then [] else match m with MsgData bs => bs | MsgEof => [] end).
Proof.
  induction ms as [|[bs|] ms IH]; simpl; [by destruct m; rewrite ?app_nil_r| |done].
  by rewrite IH, app_assoc.
Qed.

Definition in_flight (r : Relay) : list Z :=
  match inbound (vars r) with Some (bytes, off) => zdrop off bytes | None => [] end.

(** The client's side: the bytes written to the loopback socket and those in
    flight are the client's data before its half-close, in order; the counter
    of queued bytes is exact. *)
Definition inbound_inv (r : Relay) : Prop :=
  len (queue (shared r)) <= STREAM_QUEUE_FRAMES /\
  match inbound (vars r) with Some (bytes, off) => 0 <= off < len bytes | None => True end /\
  if decide (phase r = Done) then
    consumed (hist r) `prefix_of` accepted (hist r) /\
    loop_out (hist r) `prefix_of` client_data (consumed (hist r))
  else
    accepted (hist r) = consumed (hist r) ++ queue (shared r) /\
    loop_out (hist r) ++ in_flight r = client_data (consumed (hist r)) /\
    write_done (vars r) = has_eof (consumed (hist r)) /\
    queued_bytes (shared r) = sum_with msg_bytes (queue (shared r)).

Lemma inbound_inv_step r ev r' n : relay_step r ev = Some (r', n) -> inbound_inv r -> inbound_inv r'.
Proof.
  intros H. destruct_relay r. unfold inbound_inv, in_flight.
  relay_cases H; simpl; intros (Hq & Hoff & Hrun); try done;
    try (destruct Hrun as (-> & Hlo & Hwd & Hqb); split_and!; try done;
         [by apply prefix_app_r|rewrite <- Hlo; by apply prefix_app_r]);
    destruct Hrun as (-> & Hlo & Hwd & Hqb);
    rewrite ?len_cons, ?client_data_snoc, ?has_eof_snoc, <- ?Hlo, <- ?Hwd in *; simpl in *;
    rewrite ?app_nil_r, <- ?app_assoc; split_and!; try done; try lia.
  - rewrite ztake_all; [done|]. rewrite len_zdrop. lia.
  - rewrite <- zdrop_zdrop by lia. by rewrite ztake_zdrop.
  - destruct wd; [by rewrite app_nil_r|]. simpl in *. case_tests.
    rewrite (len_zero_nil bytes) by lia. by rewrite !app_nil_r.
  - by rewrite orb_false_r.
  - pose proof (len_nonneg bytes). lia.
  - subst wd. by rewrite zdrop_le0.
  - by rewrite orb_false_r.
  - by destruct wd; rewrite app_nil_r.
  - by destruct wd; rewrite app_nil_r.
Qed.

(** A stream whose both directions are closed, with nothing left to send, has
    left its loop. *)
Definition finished (r : Relay) : Prop :=
  read_done (vars r) = true /\ write_done (vars r) = true /\ pending_frame (vars r) = None.

Definition leave_inv (r : Relay) : Prop := phase r = Relaying -> ~ finished r.

Lemma leave_inv_step r ev r' n :
  relay_step r ev = Some (r', n) -> conv_inv r -> leave_inv r -> leave_inv r'.
Proof.
  intros H Hc. destruct_relay r. unfold conv_inv, leave_inv, finished in *.
  relay_cases H; simpl in *; intros Hl; try done; intros _ (? & ? & ?); subst; simpl in *;
    try discriminate; try (by apply Hl); destruct Hc as ((? & ? & ?) & _); done.
Qed.

(** ** The relay's invariant *)

Record relay_inv (r : Relay) : Prop := mkRelayInv {
  ri_conv : conv_inv r;
  ri_data : data_inv r;
  ri_credit : credit_inv r;
  ri_wake : wake_inv r;
  ri_inbound : inbound_inv r;
  ri_leave : leave_inv r }.

Lemma new_relay_inv id : relay_inv (new_relay id).
Proof.
  split.
  - unfold conv_inv, pending_list. simpl. split_and!; try done. by intros s ?%elem_of_nil.
  - done.
  - unfold credit_inv. simpl. rewrite len_nil. unfold TUNNEL_INITIAL_CREDIT_BYTES, u32_max. lia.
  - done.
  - unfold inbound_inv. simpl. rewrite len_nil. by unfold STREAM_QUEUE_FRAMES.
  - done.
Qed.

Lemma relay_inv_step r ev r' n : relay_step r ev = Some (r', n) -> relay_inv r -> relay_inv r'.
Proof.
  intros H [? ? ? ? ? ?]. split;
    eauto using conv_inv_step, data_inv_step, credit_inv_step, wake_inv_step, inbound_inv_step, leave_inv_step.
Qed.

Lemma relay_inv_grant c r : 0 <= c -> relay_inv r -> relay_inv (grant c r).
Proof.
  intros Hc [? ? ? ? ? ?]. split; try done. by apply credit_inv_grant.
Qed.

Lemma relay_inv_enqueue m r :
  phase r <> Done -> len (queue (shared r)) < STREAM_QUEUE_FRAMES ->
  relay_inv r -> relay_inv (enqueue m r).
Proof.
  intros Hph Hq [? ? ? ? (Hl & Hoff & Hin) ?]. split; try done.
  unfold inbound_inv in *. destruct_relay r. simpl in *.
  rewrite decide_False in * by done. destruct Hin as (-> & Hlo & Hwd & Hqb).
  rewrite len_app, len_cons, len_nil, sum_with_app, app_assoc. simpl. split_and!; try done; lia.
Qed.

Lemma relay_inv_drop r : relay_inv r -> relay_inv (drop_handle r).
Proof. intros [? ? ? ? ? ?]. by split. Qed.

Lemma relay_inv_abort r : relay_inv r -> relay_inv (abort r).
Proof. intros [? ? ? ? ? ?]. by split. Qed.

(** What a step leaves alone, and what it adds to the outbound queue. *)
Lemma step_frame r ev r' n :
  relay_step r ev = Some (r', n) ->
  stream r' = stream r /\ granted (hist r') = granted (hist r) /\
  accepted (hist r') = accepted (hist r) /\ emitted (hist r) `prefix_of` emitted (hist r').
Proof.
  intros H. destruct_relay r. relay_cases H; simpl; split_and!; try done; by apply prefix_app_r.
Qed.

Lemma relay_inv_prefixes r :
  relay_inv r ->
  consumed (hist r) `prefix_of` accepted (hist r) /\
  loop_out (hist r) `prefix_of` client_data (consumed (hist r)) /\
  data_of (emitted (hist r)) `prefix_of` loop_in (hist r) /\
  ((exists s, Eof s ∈ emitted (hist r)) -> data_of (emitted (hist r)) = loop_in (hist r)).
Proof.
  intros [(_ & _ & He & _) Hd _ _ (_ & _ & Hin) _]. unfold data_inv in Hd. split_and!.
  - destruct (decide _); [by destruct Hin|]. destruct Hin as (-> & _). by apply prefix_app_r.
  - destruct (decide _); [by destruct Hin|]. destruct Hin as (_ & <- & _). by apply prefix_app_r.
  - rewrite <- Hd. by apply prefix_app_r.
  - intros [s Hs]. destruct (He s Hs) as [_ Hp]. rewrite <- Hd. unfold pending_list.
    rewrite Hp. by rewrite app_nil_r.
Qed.
