(* ===== verification/TunnelConn.v ===== *)
(** * The tunnel connection ([crates/intent-transport/src/tunnel.rs])

    One [/tunnel] WebSocket: the connection loop that dispatches client frames,
    admits and retires streams, and sends the relays' output, composed with all
    the relay tasks it has spawned.  A stream's incarnation ([Arc<()>] in the
    source) is its position in the list of spawned relays. *)
From stdpp Require Import prelude strings gmap sorting.
From S2P Require Import Prelude Json TunnelFrame TunnelRelay.

Definition MAX_STREAMS_PER_CONNECTION : Z := 256.
Definition MAX_STREAMS_PER_PORT : Z := 32.
Definition INBOUND_BYTES_PER_CONNECTION : Z := 64 * 1024 * 1024.
Definition MAX_DATA_PAYLOAD_BYTES : Z := 1024 * 1024.
Definition OUTBOUND_QUEUE_FRAMES : Z := 64.

(** The caps of [TunnelLimits]; its deadlines are the relay's timer events. *)
Record TunnelLimits := mkLimits {
  max_streams : Z;
  max_streams_per_port : Z }.

Definition default_limits : TunnelLimits :=
  mkLimits MAX_STREAMS_PER_CONNECTION MAX_STREAMS_PER_PORT.

Record StreamHandle := mkHandle {
  h_port : Z;
  h_gen : nat }.

(** WebSocket close codes. *)
Inductive CloseCode := CPolicy | CSize | CProtocol | CAway.

(** What the sink carried: a frame, with the incarnation it is about as a ghost
    tag ([None] for a rejected [OPEN]), a pong, a ping, or a close. *)
Inductive WireItem :=
| WFrame (g : option nat) (f : Frame)
| WPong
| WPing
| WClose (code : CloseCode).

Record Conn := mkConn {
  streams : gmap Z StreamHandle;
  relays : list Relay;
  outq : list (nat * Frame);
  budget : Z;
  wire : list WireItem;
  ended : bool }.

Definition new_conn : Conn := mkConn ∅ [] [] INBOUND_BYTES_PER_CONNECTION [] false.

Definition set_streams (x : gmap Z StreamHandle) (c : Conn) : Conn :=
  mkConn x (relays c) (outq c) (budget c) (wire c) (ended c).
Definition set_relays (x : list Relay) (c : Conn) : Conn :=
  mkConn (streams c) x (outq c) (budget c) (wire c) (ended c).
Definition set_outq (x : list (nat * Frame)) (c : Conn) : Conn :=
  mkConn (streams c) (relays c) x (budget c) (wire c) (ended c).
Definition set_budget (x : Z) (c : Conn) : Conn :=
  mkConn (streams c) (relays c) (outq c) x (wire c) (ended c).
Definition set_wire (x : list WireItem) (c : Conn) : Conn :=
  mkConn (streams c) (relays c) (outq c) (budget c) x (ended c).
Definition set_ended (x : bool) (c : Conn) : Conn :=
  mkConn (streams c) (relays c) (outq c) (budget c) (wire c) x.

Definition upd_relay (g : nat) (f : Relay -> Relay) (c : Conn) : Conn :=
  set_relays (alter f g (relays c)) c.

(** [sink.send(..).await.is_ok()], [ok] saying whether the socket is alive. *)
Definition send (item : WireItem) (ok : bool) (c : Conn) : bool * Conn :=
  if ok then (true, set_wire (wire c ++ [item]) c) else (false, c).

(** [protocol_close], best effort, and the [false] its callers return. *)
Definition protocol_close (ok : bool) (c : Conn) : bool * Conn :=
  (false, (send (WClose CProtocol) ok c).2).

(** ** Client frames *)

Fixpoint text (s : string) : list Z :=
  match s with
  | EmptyString => []
  | String a s' => Z.of_N (Ascii.N_of_ascii a) :: text s'
  end.

Definition dec (z : Z) : string := dec_string (Z.to_N z).

Definition port_count (port : Z) (m : gmap Z StreamHandle) : Z :=
  Z.of_nat (size (filter (fun kv => h_port kv.2 = port) m)).

(** Why an [OPEN] is refused, if it is. *)
Definition reject (limits : TunnelLimits) (c : Conn) (stream_id port : Z) : option (list Z) :=
  if bool_decide (is_Some (streams c !! stream_id)) then Some (text "duplicate stream id")
  else if max_streams limits <=? Z.of_nat (size (streams c)) then
    Some (text ("too many concurrent streams (max " +:+ dec (max_streams limits) +:+ ")"))
  else if max_streams_per_port limits <=? port_count port (streams c) then
    Some (text ("too many concurrent streams for port " +:+ dec port +:+
                " (max " +:+ dec (max_streams_per_port limits) +:+ ")"))
  else None.

(** Removing a handle: the relay's sender is dropped ([f] also aborts it when
    the teardown is out of band). *)
Definition retire (id : Z) (g : nat) (f : Relay -> Relay) (c : Conn) : Conn :=
  upd_relay g f (set_streams (delete id (streams c)) c).

(** Out-of-band teardown: abort the task, free the id, send the final [CLOSE]. *)
Definition close_stream (id : Z) (h : StreamHandle) (ok : bool) (c : Conn) : bool * Conn :=
  send (WFrame (Some (h_gen h)) (Close id)) ok (retire id (h_gen h) abort c).

(** [try_send] on the stream's queue. *)
Inductive TrySend := Sent | QClosed | QFull.

Definition try_send (r : Relay) : TrySend :=
  match phase r with
  | Done => QClosed
  | _ => if STREAM_QUEUE_FRAMES <=? len (queue (shared r)) then QFull else Sent
  end.

(** [forward_to_stream]; a message that is not admitted is dropped and gives its
    permits back.  [None]: a handle without a task, which does not happen. *)
Definition forward_to_stream (c : Conn) (id : Z) (m : StreamMsg) (ok : bool) : option (bool * Conn) :=
  match streams c !! id with
  | None => Some (true, set_budget (budget c + msg_bytes m) c)
  | Some h =>
      r ← relays c !! h_gen h;
      match try_send r with
      | Sent => Some (true, upd_relay (h_gen h) (enqueue m) c)
      | QClosed => Some (true, set_budget (budget c + msg_bytes m) c)
      | QFull => Some (close_stream id h ok (set_budget (budget c + msg_bytes m) c))
      end
  end.

Definition handle_frame (limits : TunnelLimits) (c : Conn) (f : Frame) (ok : bool) :
    option (bool * Conn) :=
  match f with
  | Open id port =>
      match reject limits c id port with
      | Some message => Some (send (WFrame None (OpenErr id message)) ok c)
      | None =>
          Some (true,
            set_streams (<[id := mkHandle port (length (relays c))]> (streams c))
              (set_relays (relays c ++ [new_relay id]) c))
      end
  | Credit id credit =>
      match streams c !! id with
      | Some h => Some (true, upd_relay (h_gen h) (grant credit) c)
      | None => Some (true, c)
      end
  | Data id payload =>
      if MAX_DATA_PAYLOAD_BYTES <? len payload then Some (protocol_close ok c)
      else
        match streams c !! id with
        | None => Some (true, c)
        | Some h =>
            if budget c <? len payload then Some (close_stream id h ok c)
            else forward_to_stream (set_budget (budget c - len payload) c) id (MsgData payload) ok
        end
  | Eof id => forward_to_stream c id MsgEof ok
  | Close id =>
      match streams c !! id with
      | Some h => Some (close_stream id h ok c)
      | None => Some (true, c)
      end
  | OpenOk _ | OpenErr _ _ => Some (protocol_close ok c)
  end.

(** ** Relay output *)

Definition is_terminal (f : Frame) : bool :=
  match f with OpenErr _ _ | Close _ => true | _ => false end.

Definition send_outbound_frame (c : Conn) (g : nat) (f : Frame) (ok : bool) : bool * Conn :=
  let id := frame_stream_id f in
  match streams c !! id with
  | None => (true, c)
  | Some h =>
      if decide (h_gen h = g) then
        let '(alive, c) := send (WFrame (Some g) f) ok c in
        if alive : bool then
          (true, if is_terminal f then retire id g drop_handle c else c)
        else (false, c)
      else (true, c)
  end.

(** ** The loop *)

(** An input of the connection loop; [ok] is whether the socket takes what the
    loop sends in answer, [member] the host-membership check of an [OPEN]. *)
Inductive Input :=
| InRevoked (own ok : bool)
| InError (capacity ok : bool)
| InBinary (bytes : list Z) (member ok : bool)
| InPing (ok : bool)
| InPong
| InFrame
| InText (ok : bool)
| InClosed
| InOutbound (ok : bool)
| CmdPing (ok : bool)
| CmdClose (ok : bool)
| CmdNone.

(** The end of the connection: every remaining stream task is aborted. *)
Definition end_conn (c : Conn) : Conn :=
  set_ended true
    (set_streams ∅
      (set_relays (map_fold (fun _ h rs => alter abort (h_gen h) rs) (relays c) (streams c)) c)).

Definition settle_loop (res : bool * Conn) : Conn :=
  let '(go, c) := res in if go : bool then c else end_conn c.

Definition is_open (f : Frame) : bool := match f with Open _ _ => true | _ => false end.

(** One turn of the loop; [None] when the input is not available (nothing to
    send) or would panic. *)
Definition conn_step (limits : TunnelLimits) (c : Conn) (input : Input) : option Conn :=
  match input with
  | InRevoked own ok => Some (if own then end_conn (send (WClose CPolicy) ok c).2 else c)
  | InError capacity ok =>
      Some (end_conn (if capacity : bool then (send (WClose CSize) ok c).2 else c))
  | InBinary bytes member ok =>
      decoded ← decode bytes;
      match decoded with
      | Err _ => Some (settle_loop (protocol_close ok c))
      | Ok f =>
          if is_open f && negb member then Some (end_conn (send (WClose CPolicy) ok c).2)
          else res ← handle_frame limits c f ok; Some (settle_loop res)
      end
  | InPing ok => Some (settle_loop (send WPong ok c))
  | InPong | InFrame => Some c
  | InText ok => Some (settle_loop (protocol_close ok c))
  | InClosed | CmdNone => Some (end_conn c)
  | InOutbound ok =>
      match outq c with
      | [] => None
      | (g, f) :: q => Some (settle_loop (send_outbound_frame (set_outq q c) g f ok))
      end
  | CmdPing ok => Some (settle_loop (send WPing ok c))
  | CmdClose ok => Some (end_conn (send (WClose CAway) ok c).2)
  end.

(** One event of the relay task [g]: its output joins the outbound queue, within
    the queue's bound, and released permits go back to the budget. *)
Definition relay_turn (c : Conn) (g : nat) (ev : Event) : option Conn :=
  r ← relays c !! g;
  '(r', n) ← relay_step r ev;
  let q := outq c ++ map (pair g) (drop (length (emitted (hist r))) (emitted (hist r'))) in
  if OUTBOUND_QUEUE_FRAMES <? len q then None
  else Some (set_outq q (set_budget (budget c + n) (set_relays (<[g := r']> (relays c)) c))).

(** What the socket delivers is made of bytes. *)
Definition input_bytes (input : Input) : Prop :=
  match input with InBinary bytes _ _ => Forall byte bytes | _ => True end.

Inductive step (limits : TunnelLimits) : Conn -> Conn -> Prop :=
| StepConn c input c' :
    ended c = false -> input_bytes input -> conn_step limits c input = Some c' -> step limits c c'
| StepRelay c g ev c' :
    relay_turn c g ev = Some c' -> step limits c c'.

Definition reachable (limits : TunnelLimits) : Conn -> Prop := rtc (step limits) new_conn.

(** ** Primitive transitions

    Every step of the connection is a short sequence of these. *)

(** What a relay may become under the connection's hands or its own steps: the
    frames it adds, its stream unchanged, its invariant kept. *)
Definition relay_next (r r' : Relay) (fs : list Frame) : Prop :=
  stream r' = stream r /\ emitted (hist r') = emitted (hist r) ++ fs /\
  (relay_inv r -> relay_inv r').

Inductive prim (limits : TunnelLimits) : Conn -> Conn -> Prop :=
| PRelay c g r r' fs rs q b :
    relays c !! g = Some r -> relay_next r r' fs -> rs = <[g := r']> (relays c) ->
    q = outq c ++ map (pair g) fs -> b + held r' = budget c + held r -> 0 <= b ->
    prim limits c (mkConn (streams c) rs q b (wire c) (ended c))
| POpen c id port :
    reject limits c id port = None ->
    prim limits c
      (mkConn (<[id := mkHandle port (length (relays c))]> (streams c))
         (relays c ++ [new_relay id]) (outq c) (budget c) (wire c) (ended c))
| PItem c w :
    (forall g f, w <> WFrame (Some g) f) ->
    prim limits c (set_wire (wire c ++ [w]) c)
| POut c g f q h :
    outq c = (g, f) :: q -> streams c !! frame_stream_id f = Some h -> h_gen h = g ->
    prim limits c
      (mkConn (if is_terminal f then delete (frame_stream_id f) (streams c) else streams c)
         (relays c) q (budget c) (wire c ++ [WFrame (Some g) f]) (ended c))
| PDrop c g f q :
    outq c = (g, f) :: q ->
    (forall h, streams c !! frame_stream_id f = Some h -> h_gen h <> g) ->
    prim limits c (set_outq q c)
| PClose c id h :
    streams c !! id = Some h ->
    prim limits c
      (mkConn (delete id (streams c)) (relays c) (outq c) (budget c)
         (wire c ++ [WFrame (Some (h_gen h)) (Close id)]) (ended c))
| PRetire c id :
    prim limits c (set_streams (delete id (streams c)) c)
| PEnd c rs q :
    Forall2 (fun r r' => r' = r \/ r' = abort r) (relays c) rs -> q `suffix_of` outq c ->
    prim limits c (mkConn ∅ rs q (budget c) (wire c) true).

Section prims.
Variable limits : TunnelLimits.
Implicit Types c : Conn.

Notation "c ⇝ c'" := (rtc (prim limits) c c') (at level 70).

Lemma conn_eta c : mkConn (streams c) (relays c) (outq c) (budget c) (wire c) (ended c) = c.
Proof. by destruct c. Qed.

Lemma alter_insert (f : Relay -> Relay) (g : nat) (rs : list Relay) r : rs !! g = Some r -> alter f g rs = <[g := f r]> rs.
Proof.
  revert g. induction rs as [|x rs IH]; intros [|g]; simpl; intros H; simplify_eq; [done|].
  f_equal. by apply IH.
Qed.

Lemma item_prim c w ok : (forall g f, w <> WFrame (Some g) f) -> c ⇝ (send w ok c).2.
Proof. intros Hw. unfold send. destruct ok; [|done]. simpl. by apply rtc_once, PItem. Qed.

Lemma fold_abort_pointwise (m : gmap Z StreamHandle) rs :
  Forall2 (fun r r' => r' = r \/ r' = abort r) rs
    (map_fold (fun _ h rs => alter abort (h_gen h) rs) rs m).
Proof.
  apply (map_fold_weak_ind (fun rs' (_ : gmap Z StreamHandle) =>
    Forall2 (fun r r' => r' = r \/ r' = abort r) rs rs')).
  - apply Forall_Forall2_diag, Forall_true. auto.
  - intros id h m' rs' _ IH. apply Forall2_alter_r; [done|].
    intros r r' _ _ [-> | ->]; [by right|]. right. by destruct r.
Qed.

Lemma end_prim c : prim limits c (end_conn c).
Proof. unfold end_conn. apply (PEnd limits c); [apply fold_abort_pointwise|done]. Qed.

Lemma upd_prim c g r f b :
  relays c !! g = Some r -> relay_next r (f r) [] ->
  b + held (f r) = budget c + held r -> 0 <= b ->
  prim limits c (set_budget b (upd_relay g f c)).
Proof.
  intros Hr Hn Hb Hp. unfold upd_relay, set_budget, set_relays. simpl.
  rewrite (alter_insert _ _ _ r) by done. eapply PRelay; eauto. by rewrite app_nil_r.
Qed.

Lemma close_prim c id h r ok :
  streams c !! id = Some h -> relays c !! h_gen h = Some r -> 0 <= budget c ->
  c ⇝ (close_stream id h ok c).2.
Proof.
  intros Hs Hr Hb. unfold close_stream, retire.
  pose proof (upd_prim c (h_gen h) r abort (budget c) Hr) as Hp.
  eapply rtc_l; [apply Hp; [|unfold held; by destruct_relay r|done]|].
  { split_and!; [done|by destruct_relay r; rewrite app_nil_r|apply relay_inv_abort]. }
  unfold send. destruct ok; apply rtc_once.
  - eapply (PClose _ (set_budget (budget c) (upd_relay (h_gen h) abort c))). done.
  - apply (PRetire _ (set_budget (budget c) (upd_relay (h_gen h) abort c))).
Qed.
End prims.

(** ** Structure of the connection *)

Lemma held_nonneg r : 0 <= held r.
Proof.
  unfold held. assert (0 <= sum_with msg_bytes (queue (shared r))).
  { apply sum_with_nonneg. intros [bs|] _; simpl; [apply len_nonneg|done]. }
  destruct (inbound (vars r)) as [[bs o]|]; [pose proof (len_nonneg bs)|]; lia.
Qed.

Lemma step_released r ev r' n : relay_step r ev = Some (r', n) -> 0 <= n.
Proof.
  intros H. destruct_relay r. relay_cases H; try lia; try apply len_nonneg;
    first [apply held_nonneg | match goal with |- 0 <= held ?x => apply (held_nonneg x) end].
Qed.

Record conn_core (c : Conn) : Prop := mkConnCore {
  cc_relays : Forall relay_inv (relays c);
  cc_handles : forall id h, streams c !! id = Some h ->
    exists r, relays c !! h_gen h = Some r /\ stream r = id;
  cc_wire : forall g f, WFrame (Some g) f ∈ wire c ->
    exists r, relays c !! g = Some r /\ frame_stream_id f = stream r;
  cc_outq : forall g f, (g, f) ∈ outq c ->
    exists r, relays c !! g = Some r /\ frame_stream_id f = stream r;
  cc_budget : budget c + sum_with held (relays c) = INBOUND_BYTES_PER_CONNECTION;
  cc_permits : 0 <= budget c }.

Section steps.
Variable limits : TunnelLimits.
Implicit Types c : Conn.

Notation "c ⇝ c'" := (rtc (prim limits) c c') (at level 70).

Lemma grant_next r credit : 0 <= credit -> relay_next r (grant credit r) [].
Proof.
  intros Hc. split_and!; [done|by destruct_relay r; rewrite app_nil_r|by apply relay_inv_grant].
Qed.

Lemma enqueue_next r m : try_send r = Sent -> relay_next r (enqueue m r) [].
Proof.
  intros Ht. split_and!; [done|by destruct_relay r; rewrite app_nil_r|].
  unfold try_send in Ht. assert (phase r <> Done) by (by destruct (phase r)).
  apply relay_inv_enqueue; [done|].
  destruct (STREAM_QUEUE_FRAMES <=? len (queue (shared r))) eqn:E; [by destruct (phase r)|].
  by case_tests.
Qed.

Lemma enqueue_held r m : held (enqueue m r) = held r + msg_bytes m.
Proof. unfold held. destruct_relay r. simpl. rewrite sum_with_app. simpl. lia. Qed.

(** Forwarding a message whose permits [n] have already been taken. *)
Lemma forward_prims c id m ok n res :
  conn_core c -> n = msg_bytes m -> n <= budget c ->
  forward_to_stream (set_budget (budget c - n) c) id m ok = Some res -> c ⇝ res.2.
Proof.
  intros Hc -> Hn. unfold forward_to_stream. simpl.
  assert (set_budget (budget c - msg_bytes m + msg_bytes m) (set_budget (budget c - msg_bytes m) c) = c) as Hback.
  { unfold set_budget. simpl. replace (budget c - msg_bytes m + msg_bytes m) with (budget c) by lia.
    apply conn_eta. }
  destruct (streams c !! id) as [h|] eqn:Hs; [|intros [= <-]; simpl; by rewrite Hback].
  destruct (cc_handles _ Hc _ _ Hs) as (r & Hr & Hid). rewrite Hr. simpl.
  destruct (try_send r) eqn:Ht; intros [= <-]; simpl; rewrite ?Hback; [|done|].
  - apply rtc_once. apply (upd_prim limits c (h_gen h) r (enqueue m) (budget c - msg_bytes m));
      [done|by apply enqueue_next| |lia].
    rewrite enqueue_held. lia.
  - eapply close_prim; [done|done|]. apply (cc_permits _ Hc).
Qed.

Lemma handle_frame_prims c f ok res :
  conn_core c -> frame_wf f -> handle_frame limits c f ok = Some res -> c ⇝ res.2.
Proof.
  intros Hc [_ Hf]. pose proof (cc_permits _ Hc) as Hb. unfold handle_frame.
  destruct f as [id port|id|id m|id p|id|id|id credit].
  - destruct (reject limits c id port) eqn:Hrej; intros [= <-].
    + by apply item_prim.
    + simpl. apply rtc_once. exact (POpen limits c id port Hrej).
  - intros [= <-]. by apply item_prim.
  - intros [= <-]. by apply item_prim.
  - destruct (_ <? _); [intros [= <-]; by apply item_prim|].
    destruct (streams c !! id) as [h|] eqn:Hs; [|by intros [= <-]].
    destruct (cc_handles _ Hc _ _ Hs) as (r & Hr & Hid).
    destruct (budget c <? len p) eqn:Eb; [intros [= <-]; by eapply close_prim|].
    case_tests. by apply forward_prims.
  - intros H. apply (forward_prims c id MsgEof ok 0 res Hc); [done|done|].
    replace (set_budget (budget c - 0) c) with c; [done|].
    unfold set_budget. rewrite Z.sub_0_r. symmetry. apply conn_eta.
  - destruct (streams c !! id) as [h|] eqn:Hs; intros [= <-]; [|done].
    destruct (cc_handles _ Hc _ _ Hs) as (r & Hr & Hid). by eapply close_prim.
  - destruct (streams c !! id) as [h|] eqn:Hs; intros [= <-]; [|done]. simpl.
    destruct (cc_handles _ Hc _ _ Hs) as (r & Hr & Hid). apply rtc_once.
    apply (upd_prim limits c (h_gen h) r (grant credit) (budget c)); [done| |by destruct_relay r|done].
    apply grant_next. simpl in Hf. lia.
Qed.

Lemma settle_prims c res : c ⇝ res.2 -> c ⇝ settle_loop res.
Proof.
  destruct res as [[] c']; simpl; intros H; [done|]. eapply rtc_r; [done|apply end_prim].
Qed.

Lemma drop_next r : relay_next r (drop_handle r) [].
Proof. split_and!; [done|by destruct_relay r; rewrite app_nil_r|apply relay_inv_drop]. Qed.

Lemma outbound_prims c g f q ok :
  conn_core c -> outq c = (g, f) :: q ->
  c ⇝ settle_loop (send_outbound_frame (set_outq q c) g f ok).
Proof.
  intros Hc Hq. unfold send_outbound_frame. simpl.
  destruct (streams c !! frame_stream_id f) as [h|] eqn:Hs;
    [|apply rtc_once; eapply PDrop; [done|]; by rewrite Hs].
  destruct (decide (h_gen h = g)) as [Hg|Hg];
    [|apply rtc_once; eapply PDrop; [done|]; rewrite Hs; by intros h' [= <-]].
  destruct ok; simpl.
  - destruct (is_terminal f) eqn:Ht.
    + destruct (cc_handles _ Hc _ _ Hs) as (r & Hr & Hid). subst g.
      eapply rtc_l; [apply (upd_prim limits c (h_gen h) r drop_handle (budget c));
        [done|apply drop_next|done|apply (cc_permits _ Hc)]|].
      apply rtc_once. unfold retire, upd_relay, set_relays, set_budget. simpl.
      pose proof (POut limits (set_budget (budget c) (upd_relay (h_gen h) drop_handle c))
        (h_gen h) f q h Hq Hs eq_refl) as Hp. rewrite Ht in Hp. exact Hp.
    + apply rtc_once. pose proof (POut limits c g f q h Hq Hs Hg) as Hp. by rewrite Ht in Hp.
  - apply rtc_once. unfold end_conn.
    apply (PEnd limits c); [apply fold_abort_pointwise|]. rewrite Hq. by apply suffix_cons_r.
Qed.

Lemma end_item_prims c w ok :
  (forall g f, w <> WFrame (Some g) f) -> c ⇝ end_conn (send w ok c).2.
Proof. intros Hw. eapply rtc_r; [by apply (item_prim limits c w ok)|apply end_prim]. Qed.

Lemma conn_step_prims c input c' :
  conn_core c -> input_bytes input -> conn_step limits c input = Some c' -> c ⇝ c'.
Proof.
  intros Hc Hin. destruct input as [own ok|cap ok|bytes member ok|ok| | |ok| |ok|ok|ok|]; simpl.
  - intros [= <-]. destruct own; [by apply end_item_prims|done].
  - intros [= <-]. destruct cap; [by apply end_item_prims|apply rtc_once, end_prim].
  - intros (dec & Hd & H)%bind_Some. destruct dec as [f|e].
    + destruct (is_open f && negb member).
      * injection H as <-. by apply end_item_prims.
      * apply bind_Some in H as (res & Hh & [= <-]). apply settle_prims.
        eapply handle_frame_prims; [done| |exact Hh]. by eapply decode_wf.
    + injection H as <-. by apply end_item_prims.
  - intros [= <-]. apply settle_prims. by apply item_prim.
  - by intros [= <-].
  - by intros [= <-].
  - intros [= <-]. by apply end_item_prims.
  - intros [= <-]. apply rtc_once, end_prim.
  - destruct (outq c) as [|[g f] q] eqn:Hq; [done|]. intros [= <-]. by apply outbound_prims.
  - intros [= <-]. apply settle_prims. by apply item_prim.
  - intros [= <-]. by apply end_item_prims.
  - intros [= <-]. apply rtc_once, end_prim.
Qed.

Lemma relay_turn_prim c g ev c' :
  conn_core c -> relay_turn c g ev = Some c' -> prim limits c c'.
Proof.
  intros Hc. unfold relay_turn. intros (r & Hr & ([r' n] & Hs & H)%bind_Some)%bind_Some.
  destruct (_ <? _); [done|]. injection H as <-.
  pose proof (step_frame _ _ _ _ Hs) as (Hst & _ & _ & fs & Hem).
  rewrite Hem, drop_app_length. eapply (PRelay limits c); [done| |done|done| |].
  - split_and!; [done|done|]. by eapply relay_inv_step.
  - pose proof (step_held _ _ _ _ Hs). simpl. lia.
  - pose proof (step_released _ _ _ _ Hs). pose proof (cc_permits _ Hc). simpl. lia.
Qed.

Lemma step_prims c c' : conn_core c -> step limits c c' -> c ⇝ c'.
Proof.
  intros Hc Hs. revert Hc. destruct Hs as [c input c' _ Hi Hs|c g ev c' Hs]; intros Hc.
  - by apply (conn_step_prims c input).
  - apply rtc_once. by apply (relay_turn_prim c g ev).
Qed.
End steps.

(** ** The invariant of the connection *)

(** Incarnations persist with their stream id. *)
Definition keeps (rs rs' : list Relay) : Prop :=
  forall g r, rs !! g = Some r -> exists r', rs' !! g = Some r' /\ stream r' = stream r.

Lemma keeps_insert rs g r r' :
  rs !! g = Some r -> stream r' = stream r -> keeps rs (<[g := r']> rs).
Proof.
  intros Hr Hst g' x Hx. destruct (decide (g = g')) as [<-|Hne].
  - exists r'. rewrite list_lookup_insert_eq by (by eapply lookup_lt_Some). by simplify_eq.
  - exists x. by rewrite list_lookup_insert_ne.
Qed.

Lemma keeps_app rs r : keeps rs (rs ++ [r]).
Proof. intros g x Hx. exists x. by rewrite (lookup_app_l_Some _ _ _ x). Qed.

Lemma keeps_end rs rs' :
  Forall2 (fun r r' => r' = r \/ r' = abort r) rs rs' -> keeps rs rs'.
Proof.
  intros HF g r Hr. destruct (Forall2_lookup_l _ _ _ _ _ HF Hr) as (r' & Hr' & [-> | ->]); eauto.
Qed.

Lemma core_keeps c c' :
  conn_core c -> keeps (relays c) (relays c') ->
  Forall relay_inv (relays c') ->
  (forall id h, streams c' !! id = Some h -> streams c !! id = Some h \/
     exists r, relays c' !! h_gen h = Some r /\ stream r = id) ->
  (forall g f, WFrame (Some g) f ∈ wire c' -> WFrame (Some g) f ∈ wire c \/ (g, f) ∈ outq c \/
     exists r, relays c' !! g = Some r /\ frame_stream_id f = stream r) ->
  (forall g f, (g, f) ∈ outq c' -> (g, f) ∈ outq c \/
     exists r, relays c' !! g = Some r /\ frame_stream_id f = stream r) ->
  budget c' + sum_with held (relays c') = budget c + sum_with held (relays c) ->
  0 <= budget c' -> conn_core c'.
Proof.
  intros [_ Hh Hw Ho Hb _] Hk Hr Hh' Hw' Ho' Hb' Hp.
  assert (forall g s, (exists r, relays c !! g = Some r /\ s = stream r) ->
    exists r, relays c' !! g = Some r /\ s = stream r) as Hup.
  { intros g s (r & Hg & ->). destruct (Hk g r Hg) as (r' & ? & ?). by exists r'. }
  split; [done| | | |by rewrite Hb'|done].
  - intros id h [(r & Hg & Hid)%Hh|Hnew]%Hh'; [|done].
    destruct (Hup (h_gen h) id) as (r' & ? & ?); [by exists r|]. by exists r'.
  - intros g f [?|[?|?]]%Hw'; [..|done]; apply Hup; auto.
  - intros g f [?|?]%Ho'; [|done]. apply Hup; auto.
Qed.

Lemma fresh_frames r r' fs :
  relay_next r r' fs -> relay_inv r -> Forall (fun f => frame_stream_id f = stream r') fs.
Proof.
  intros (_ & Hem & Hinv) Hr. destruct (ri_conv _ (Hinv Hr)) as (_ & _ & _ & Hids).
  rewrite Hem in Hids. apply Forall_app in Hids as [Hids _]. by apply Forall_app in Hids as [_ ?].
Qed.

Lemma core_prim limits c c' : conn_core c -> prim limits c c' -> conn_core c'.
Proof.
  intros Hc Hp. revert Hc. destruct Hp as
    [c g r r' fs rs q b Hg Hn -> -> Hb H0|c id port Hrej|c w Hw|c g f q h Hq Hs Hg|c g f q Hq Hd
    |c id h Hs|c id|c rs q HF Hsuf]; intros Hc; pose proof (cc_relays _ Hc) as HR;
    pose proof (cc_permits _ Hc) as HB.
  - assert (relay_inv r) as Hr by (by eapply Forall_lookup_1).
    pose proof (fresh_frames _ _ _ Hn Hr) as Hids. destruct Hn as (Hst & Hem & Hinv).
    eapply (core_keeps c); simpl; try done; auto.
    + by eapply keeps_insert.
    + apply Forall_insert; auto.
    + intros g' f [?|Hf]%elem_of_app; [by left|]. right.
      apply list_elem_of_fmap in Hf as (f' & [= -> ->] & Hf). exists r'.
      rewrite list_lookup_insert_eq by (by eapply lookup_lt_Some). split; [done|].
      by eapply Forall_forall in Hids.
    + rewrite (sum_with_insert held _ _ r) by done. lia.
  - eapply (core_keeps c); simpl; try done; auto.
    + apply keeps_app.
    + apply Forall_app. split; [done|]. constructor; [apply new_relay_inv|constructor].
    + intros id' h. rewrite lookup_insert. destruct (decide (id = id')) as [<-|]; [|by left].
      intros [= <-]. right. exists (new_relay id). split; [|done]. simpl.
      by rewrite lookup_app_r, Nat.sub_diag by lia.
    + rewrite sum_with_app. simpl. unfold held. simpl. lia.
  - eapply (core_keeps c); simpl; try done; auto; [by intros g r ?; exists r|].
    intros g f [?|Heq%list_elem_of_singleton]%elem_of_app; [by left|]. by destruct (Hw g f).
  - eapply (core_keeps c); simpl; try done; auto; [by intros ? r ?; exists r| | |].
    + intros id h'. destruct (is_terminal f); [|by left]. rewrite lookup_delete_Some. naive_solver.
    + intros g' f' [?|[= -> ->]%list_elem_of_singleton]%elem_of_app; [by left|].
      right. left. rewrite Hq. by left.
    + intros g' f' ?. left. rewrite Hq. by right.
  - eapply (core_keeps c); simpl; try done; auto; [by intros ? r ?; exists r|].
    intros g' f' ?. left. rewrite Hq. by right.
  - eapply (core_keeps c); simpl; try done; auto; [by intros ? r ?; exists r| |].
    + intros id' h'. rewrite lookup_delete_Some. naive_solver.
    + intros g' f' [?|[= -> ->]%list_elem_of_singleton]%elem_of_app; [by left|].
      right. right. destruct (cc_handles _ Hc _ _ Hs) as (r & Hr & Hid). by exists r.
  - eapply (core_keeps c); simpl; try done; auto; [by intros ? r ?; exists r|].
    intros id' h'. rewrite lookup_delete_Some. naive_solver.
  - eapply (core_keeps c); simpl; try done; auto.
    + by apply keeps_end.
    + clear -HR HF. induction HF as [|r r' rs rs' Hr HF IH]; [constructor|].
      apply Forall_cons in HR as [Hi HR]. constructor; [|auto].
      destruct Hr as [-> | ->]; [done|by apply relay_inv_abort].
    + intros g f Hin. left. destruct Hsuf as [pre ->]. by apply elem_of_app; right.
    + assert (sum_with held rs = sum_with held (relays c)) as ->; [|done].
      clear -HF. induction HF as [|r r' rs rs' Hr HF IH]; simpl; [done|].
      rewrite IH. destruct Hr as [-> | ->]; done.
Qed.

(** ** What the client sees of one incarnation *)

Definition tagged (g : nat) (w : WireItem) : option Frame :=
  match w with
  | WFrame (Some g') f => if decide (g' = g) then Some f else None
  | _ => None
  end.

Definition frames_of (g : nat) (l : list WireItem) : list Frame := omap (tagged g) l.

Definition queued_of (g : nat) (q : list (nat * Frame)) : list Frame :=
  omap (fun gf => if decide (gf.1 = g) then Some gf.2 else None) q.

(** The incarnation [g] holds its stream id. *)
Definition live (c : Conn) (g : nat) (r : Relay) : Prop :=
  exists h, streams c !! stream r = Some h /\ h_gen h = g.

Definition wire_ok (frames queued : list Frame) (r : Relay) (lv : Prop) : Prop :=
  is_Some (conv frames) /\
  (exists pre, pre `prefix_of` emitted (hist r) /\
     (frames = pre \/ frames = pre ++ [Close (stream r)])) /\
  (lv -> frames ++ queued = emitted (hist r) /\ conv frames <> Some CEnded).

Definition wire_inv (c : Conn) : Prop :=
  forall g r, relays c !! g = Some r ->
    wire_ok (frames_of g (wire c)) (queued_of g (outq c)) r (live c g r).

Lemma wire_ok_mono frames q q' r r' fs (lv lv' : Prop) :
  wire_ok frames q r lv -> stream r' = stream r -> emitted (hist r') = emitted (hist r) ++ fs ->
  (lv' -> lv /\ q' = q ++ fs) -> wire_ok frames q' r' lv'.
Proof.
  intros (Hc & (pre & Hpre & Hf) & Hl) Hst Hem Hlv. split; [done|]. split.
  - exists pre. rewrite Hem, Hst. split; [by apply prefix_app_r|done].
  - intros [H ->]%Hlv. destruct (Hl H) as [He ?]. by rewrite Hem, <- He, app_assoc.
Qed.

Lemma frames_of_app g l l' : frames_of g (l ++ l') = frames_of g l ++ frames_of g l'.
Proof. apply omap_app. Qed.

Lemma queued_of_app g l l' : queued_of g (l ++ l') = queued_of g l ++ queued_of g l'.
Proof. apply omap_app. Qed.

Lemma queued_of_pair g fs : queued_of g (map (pair g) fs) = fs.
Proof. induction fs as [|f fs IH]; simpl; [done|]. rewrite decide_True by done. by rewrite IH. Qed.

Lemma queued_of_other g g' fs : g' <> g -> queued_of g (map (pair g') fs) = [].
Proof. intros Hne. induction fs as [|f fs IH]; simpl; [done|]. by rewrite decide_False. Qed.

Lemma frames_of_item g w : (forall g f, w <> WFrame (Some g) f) -> frames_of g [w] = [].
Proof. intros Hw. destruct w as [[g'|] f| | |]; try done. by destruct (Hw g' f). Qed.

Lemma frames_of_one g g' f : frames_of g [WFrame (Some g') f] = if decide (g' = g) then [f] else [].
Proof. unfold frames_of. simpl. by destruct (decide (g' = g)). Qed.

Lemma conv_prefix fs fs' : is_Some (conv (fs ++ fs')) -> is_Some (conv fs).
Proof.
  unfold conv. rewrite foldl_app. destruct (foldl _ (Some CIdle) fs) as [c|]; [done|].
  induction fs' as [|f fs' IH]; simpl; [done|apply IH].
Qed.

Lemma conv_emitted r : relay_inv r -> is_Some (conv (emitted (hist r))).
Proof.
  intros Hr. destruct (ri_conv _ Hr) as (Hc & _). destruct (phase r); try done;
    try (destruct Hc as (-> & _); done); by rewrite Hc.
Qed.

Lemma conv_ended fs f : conv (fs ++ [f]) = Some CEnded -> is_terminal f = true.
Proof.
  rewrite conv_snoc. intros (c & _ & H)%bind_Some. by destruct c, f.
Qed.

Lemma conv_close fs id c : conv fs = Some c -> c <> CEnded -> is_Some (conv (fs ++ [Close id])).
Proof. intros Hc Hne. rewrite conv_snoc, Hc. by destruct c. Qed.

(** A frame of the outbound queue reaches the client. *)
Lemma wire_ok_out frames f q r (lv lv' : Prop) :
  relay_inv r -> wire_ok frames (f :: q) r lv -> lv ->
  (lv' -> is_terminal f = false) -> wire_ok (frames ++ [f]) q r lv'.
Proof.
  intros Hr (_ & _ & Hl) Hlv Hlv'. destruct (Hl Hlv) as [He _].
  assert ((frames ++ [f]) ++ q = emitted (hist r)) as He' by (by rewrite <- app_assoc).
  split; [|split].
  - eapply conv_prefix. rewrite He'. by apply conv_emitted.
  - exists (frames ++ [f]). split; [|by left]. rewrite <- He'. by apply prefix_app_r.
  - intros Ht%Hlv'. split; [done|]. intros Hend%conv_ended. congruence.
Qed.

(** The connection closes the stream itself. *)
Lemma wire_ok_close frames q q' r (lv lv' : Prop) :
  wire_ok frames q r lv -> lv -> ~ lv' -> wire_ok (frames ++ [Close (stream r)]) q' r lv'.
Proof.
  intros ([c Hc] & _ & Hl) Hlv Hno. destruct (Hl Hlv) as [He Hne]. split; [|split; [|done]].
  - eapply conv_close; [done|]. intros ->. by rewrite Hc in Hne.
  - exists frames. split; [|by right]. rewrite <- He. by apply prefix_app_r.
Qed.

Lemma no_frames c g : conn_core c -> (length (relays c) <= g)%nat ->
  frames_of g (wire c) = [] /\ queued_of g (outq c) = [].
Proof.
  intros Hc Hg. split.
  - unfold frames_of. pose proof (cc_wire _ Hc) as Hw. induction (wire c) as [|w l IH]; simpl; [done|].
    assert (tagged g w = None) as ->; [|apply IH; intros; apply Hw; by right].
    destruct w as [[g'|] f| | |]; simpl; try done. destruct (decide (g' = g)) as [->|]; [|done].
    destruct (Hw g f ltac:(by left)) as (r & Hr & _). apply lookup_lt_Some in Hr. lia.
  - unfold queued_of. pose proof (cc_outq _ Hc) as Hw. induction (outq c) as [|[g' f] l IH]; simpl; [done|].
    destruct (decide (g' = g)) as [->|]; [|apply IH; intros; apply Hw; by right].
    destruct (Hw g f ltac:(by left)) as (r & Hr & _). apply lookup_lt_Some in Hr. lia.
Qed.

Lemma wire_prim_sub c c' :
  wire_inv c -> relays c' = relays c -> wire c' = wire c -> outq c' = outq c ->
  (forall id h, streams c' !! id = Some h -> streams c !! id = Some h) -> wire_inv c'.
Proof.
  intros Hw Hr Hwi Ho Hs g r. rewrite Hr, Hwi, Ho. intros Hg.
  eapply (wire_ok_mono _ _ _ r r []); [by apply Hw|done|by rewrite app_nil_r|].
  intros (h & Hh & Hgen). rewrite app_nil_r. split; [|done]. exists h. auto.
Qed.

Lemma wire_prim limits c c' : conn_core c -> wire_inv c -> prim limits c c' -> wire_inv c'.
Proof.
  intros Hc Hw Hp. revert Hc Hw. destruct Hp as
    [c g r r' fs rs q b Hg Hn -> -> Hb H0|c id port Hrej|c w Hi|c g f q h Hq Hs Hg|c g f q Hq Hd
    |c id h Hs|c id|c rs q HF Hsuf]; intros Hc Hw.
  - destruct Hn as (Hst & Hem & _). intros g0 x. simpl. intros Hx. rewrite queued_of_app.
    destruct (decide (g = g0)) as [<-|Hne].
    + rewrite list_lookup_insert_eq in Hx by (by eapply lookup_lt_Some). injection Hx as <-.
      rewrite queued_of_pair. eapply wire_ok_mono; [by apply Hw|done|done|].
      unfold live. simpl. by rewrite Hst.
    + rewrite list_lookup_insert_ne in Hx by done. rewrite queued_of_other, app_nil_r by done.
      by apply Hw.
  - intros g0 x Hx. simpl in *. destruct (decide (g0 < length (relays c))%nat) as [Hlt|Hge].
    + rewrite lookup_app_l in Hx by done.
      eapply (wire_ok_mono _ _ _ x x []); [by apply Hw|done|by rewrite app_nil_r|].
      intros (h & Hh & Hgen). rewrite app_nil_r. split; [|done]. exists h. split; [|done].
      simpl in Hh. rewrite lookup_insert in Hh. destruct (decide (id = stream x)); [|done].
      injection Hh as <-. simpl in Hgen. lia.
    + destruct (no_frames c g0 Hc ltac:(lia)) as [-> ->].
      assert (g0 = length (relays c)) as ->.
      { apply lookup_lt_Some in Hx. rewrite length_app in Hx. simpl in Hx. lia. }
      rewrite lookup_app_r, Nat.sub_diag in Hx by lia. injection Hx as <-.
      split; [done|]. split; [exists []; by split; [apply prefix_nil|left]|done].
  - intros g0 x Hx. simpl. rewrite frames_of_app, frames_of_item, app_nil_r by done. by apply Hw.
  - destruct (cc_outq _ Hc g f) as (r & Hr & Hid); [rewrite Hq; by left|].
    intros g0 x Hx. simpl in *. rewrite frames_of_app, frames_of_one.
    pose proof (Hw g0 x Hx) as Hok. rewrite Hq in Hok. simpl in Hok.
    destruct (decide (g = g0)) as [Heq|Hne].
    + subst g0. rewrite Hr in Hx. injection Hx as <-.
      eapply wire_ok_out; [|exact Hok| |].
      * eapply Forall_lookup_1; [apply (cc_relays _ Hc)|done].
      * exists h. by rewrite <- Hid.
      * unfold live. simpl. destruct (is_terminal f); [|done]. rewrite <- Hid.
        intros (h' & Hh' & _). by rewrite lookup_delete_eq in Hh'.
    + rewrite app_nil_r.
      eapply (wire_ok_mono _ _ _ x x []); [exact Hok|done|by rewrite app_nil_r|].
      rewrite app_nil_r. intros (h' & Hh' & Hg'). split; [|done]. exists h'. split; [|done]. simpl in Hh'.
      destruct (is_terminal f); [|done]. by apply lookup_delete_Some in Hh' as [_ ?].
  - destruct (cc_outq _ Hc g f) as (r & Hr & Hid); [rewrite Hq; by left|].
    intros g0 x Hx. simpl in *. pose proof (Hw g0 x Hx) as Hok. rewrite Hq in Hok. simpl in Hok.
    eapply (wire_ok_mono _ _ _ x x []); [exact Hok|done|by rewrite app_nil_r|].
    rewrite app_nil_r. intros (h' & Hh' & Hg'). split; [by exists h'|].
    destruct (decide (g = g0)) as [Heq|]; [|done]. subst g0. rewrite Hr in Hx. injection Hx as <-.
    simpl in Hh'. rewrite <- Hid in Hh'. by destruct (Hd h').
  - destruct (cc_handles _ Hc _ _ Hs) as (r & Hr & Hid).
    intros g0 x Hx. simpl in *. rewrite frames_of_app, frames_of_one.
    destruct (decide (h_gen h = g0)) as [Heq|Hne].
    + subst g0. rewrite Hr in Hx. injection Hx as <-. rewrite <- Hid.
      eapply wire_ok_close; [by apply Hw|exists h; by rewrite Hid|].
      intros (h' & Hh' & _). simpl in Hh'. by rewrite Hid, lookup_delete_eq in Hh'.
    + rewrite app_nil_r. eapply (wire_ok_mono _ _ _ x x []); [by apply Hw|done|by rewrite app_nil_r|].
      rewrite app_nil_r. intros (h' & Hh' & Hg'). split; [|done]. exists h'. split; [|done].
      simpl in Hh'. by apply lookup_delete_Some in Hh' as [_ ?].
  - eapply wire_prim_sub; [exact Hw|done|done|done|].
    intros id' h' Hh'. simpl in Hh'. by apply lookup_delete_Some in Hh' as [_ ?].
  - intros g x Hx. simpl in *. destruct (Forall2_lookup_r _ _ _ _ _ HF Hx) as (r & Hr & Hrel).
    eapply (wire_ok_mono _ _ _ r x []); [by apply Hw| | |].
    + by destruct Hrel as [-> | ->].
    + rewrite app_nil_r. by destruct Hrel as [-> | ->].
    + intros (h & Hh & _). simpl in Hh. by rewrite lookup_empty in Hh.
Qed.

(** ** One conversation after another *)

(** The incarnations of the frames sent for a stream id, in order. *)
Definition tag_of (id : Z) (w : WireItem) : option nat :=
  match w with
  | WFrame (Some g) f => if decide (frame_stream_id f = id) then Some g else None
  | _ => None
  end.

Definition tags_of (id : Z) (l : list WireItem) : list nat := omap (tag_of id) l.

Definition order_inv (c : Conn) : Prop :=
  forall id, StronglySorted le (tags_of id (wire c)) /\
    forall h, streams c !! id = Some h -> Forall (fun g => (g <= h_gen h)%nat) (tags_of id (wire c)).

Lemma sorted_snoc l g :
  StronglySorted le l -> Forall (fun g' => (g' <= g)%nat) l -> StronglySorted le (l ++ [g]).
Proof.
  induction 1 as [|x l Hs IH Hf]; simpl; intros HF; [by repeat constructor|].
  apply Forall_cons in HF as [Hx HF]. constructor; [auto|]. apply Forall_app. split; [done|].
  by repeat constructor.
Qed.

Lemma tags_of_snoc id l w :
  tags_of id (l ++ [w]) = tags_of id l ++ match tag_of id w with Some g => [g] | None => [] end.
Proof. unfold tags_of. rewrite omap_app. simpl. by destruct (tag_of id w). Qed.

Lemma order_sub c c' :
  order_inv c -> wire c' = wire c ->
  (forall id h, streams c' !! id = Some h -> streams c !! id = Some h) -> order_inv c'.
Proof.
  intros Ho Hw Hs id. rewrite Hw. destruct (Ho id) as [Hso Hh]. split; [done|]. intros h Hh'.
  apply Hh. by apply Hs.
Qed.

(** Sending a frame of the incarnation that holds the id. *)
Lemma order_send c c' id h f :
  order_inv c -> streams c !! id = Some h -> frame_stream_id f = id ->
  wire c' = wire c ++ [WFrame (Some (h_gen h)) f] ->
  (forall id h, streams c' !! id = Some h -> streams c !! id = Some h) -> order_inv c'.
Proof.
  intros Ho Hs Hid Hw Hsub id'. rewrite Hw, tags_of_snoc. simpl. destruct (Ho id') as [Hso Hh].
  destruct (decide (frame_stream_id f = id')) as [Heq|]; [|rewrite app_nil_r; split; auto].
  assert (id' = id) as -> by congruence. specialize (Hh h Hs). split; [by apply sorted_snoc|].
  intros h' Hh'%Hsub. rewrite Hs in Hh'. injection Hh' as <-. apply Forall_app. split; [done|].
  by repeat constructor.
Qed.

Lemma order_prim limits c c' : conn_core c -> order_inv c -> prim limits c c' -> order_inv c'.
Proof.
  intros Hc Ho Hp. revert Hc Ho. destruct Hp as
    [c g r r' fs rs q b Hg Hn -> -> Hb H0|c id port Hrej|c w Hi|c g f q h Hq Hs Hg|c g f q Hq Hd
    |c id h Hs|c id|c rs q HF Hsuf]; intros Hc Ho.
  - by eapply order_sub.
  - intros id'. simpl. destruct (Ho id') as [Hso Hh]. split; [done|]. intros h.
    rewrite lookup_insert. destruct (decide (id = id')) as [<-|]; [|by apply Hh]. intros [= <-]. simpl.
    apply Forall_forall. intros g Hg. apply list_elem_of_omap in Hg as (w & Hw & Ht).
    destruct w as [[g'|] f| | |]; simpl in Ht; try done. destruct (decide _); [|done]. injection Ht as ->.
    destruct (cc_wire _ Hc g f Hw) as (r & Hr & _). apply lookup_lt_Some in Hr. lia.
  - intros id. simpl. rewrite tags_of_snoc. destruct (Ho id) as [Hso Hh].
    assert (tag_of id w = None) as ->; [|by rewrite app_nil_r].
    destruct w as [[g|] f| | |]; try done. by destruct (Hi g f).
  - subst g. eapply (order_send c _ _ h f); [done|exact Hs|done|done|]. simpl. intros id h'.
    destruct (is_terminal f); [|done]. by intros [_ ?]%lookup_delete_Some.
  - by eapply order_sub.
  - eapply (order_send c _ id h (Close id)); [done|done|done|done|]. simpl.
    by intros id' h' [_ ?]%lookup_delete_Some.
  - eapply order_sub; [exact Ho|done|]. simpl. by intros id' h' [_ ?]%lookup_delete_Some.
  - eapply order_sub; [exact Ho|done|]. simpl. intros id' h'. by rewrite lookup_empty.
Qed.

(** ** Admission *)

Definition caps_inv (limits : TunnelLimits) (c : Conn) : Prop :=
  Z.of_nat (size (streams c)) <= Z.max 0 (max_streams limits) /\
  forall port, port_count port (streams c) <= Z.max 0 (max_streams_per_port limits).

Lemma caps_sub limits c c' :
  caps_inv limits c -> streams c' ⊆ streams c -> caps_inv limits c'.
Proof.
  intros [Hn Hp] Hsub. split.
  - apply map_subseteq_size in Hsub. lia.
  - intros port. specialize (Hp port). unfold port_count in *.
    assert (filter (fun kv => h_port kv.2 = port) (streams c') ⊆
            filter (fun kv => h_port kv.2 = port) (streams c)) as Hf
      by (by apply map_filter_subseteq_mono).
    apply map_subseteq_size in Hf. lia.
Qed.

Lemma caps_open limits c id port :
  caps_inv limits c -> reject limits c id port = None ->
  caps_inv limits (set_streams (<[id := mkHandle port (length (relays c))]> (streams c)) c).
Proof.
  intros [Hn Hp]. unfold reject. case_bool_decide as Hd; [done|].
  destruct (max_streams limits <=? _) eqn:E1; [done|].
  destruct (max_streams_per_port limits <=? _) eqn:E2; [done|]. case_tests. intros _.
  apply eq_None_not_Some in Hd. split; simpl.
  - rewrite map_size_insert_None by done. lia.
  - intros p. specialize (Hp p). unfold port_count in *. rewrite map_filter_insert. simpl.
    destruct (decide (port = p)) as [->|].
    + rewrite map_size_insert_None; [lia|]. rewrite map_lookup_filter_None. by left.
    + by rewrite delete_id.
Qed.

Lemma caps_prim limits c c' : caps_inv limits c -> prim limits c c' -> caps_inv limits c'.
Proof.
  intros Hc Hp. revert Hc. destruct Hp as
    [c g r r' fs rs q b Hg Hn -> -> Hb H0|c id port Hrej|c w Hi|c g f q h Hq Hs Hg|c g f q Hq Hd
    |c id h Hs|c id|c rs q HF Hsuf]; intros Hc; try (eapply caps_sub; [exact Hc|]; simpl; done).
  - by apply (caps_open limits c).
  - eapply caps_sub; [exact Hc|]. simpl. destruct (is_terminal f); [apply delete_subseteq|done].
  - eapply caps_sub; [exact Hc|]. simpl. apply delete_subseteq.
  - eapply caps_sub; [exact Hc|]. simpl. apply delete_subseteq.
  - eapply caps_sub; [exact Hc|]. simpl. apply map_empty_subseteq.
Qed.

(** ** The reachable connections *)

Record conn_inv (limits : TunnelLimits) (c : Conn) : Prop := mkConnInv {
  ci_core : conn_core c;
  ci_wire : wire_inv c;
  ci_order : order_inv c;
  ci_caps : caps_inv limits c }.

Lemma new_conn_inv limits : conn_inv limits new_conn.
Proof.
  split.
  - split; simpl; try done; intros *; try (by rewrite lookup_empty); by intros ?%elem_of_nil.
  - intros g r. simpl. by rewrite lookup_nil.
  - intros id. split; [constructor|]. intros h. simpl. by rewrite lookup_empty.
  - split; simpl; [rewrite map_size_empty; lia|]. intros port. unfold port_count. simpl.
    rewrite map_filter_empty, map_size_empty. lia.
Qed.

Lemma prim_inv limits c c' : conn_inv limits c -> prim limits c c' -> conn_inv limits c'.
Proof.
  intros [? ? ? ?] ?. split; [by eapply core_prim|by eapply wire_prim|by eapply order_prim|by eapply caps_prim].
Qed.

Lemma prims_inv limits c c' : conn_inv limits c -> rtc (prim limits) c c' -> conn_inv limits c'.
Proof. intros Hc. induction 1 as [|c c1 c2 Hp _ IH]; [done|]. apply IH. by eapply prim_inv. Qed.

Lemma reachable_inv limits c : reachable limits c -> conn_inv limits c.
Proof.
  unfold reachable. generalize (new_conn_inv limits). generalize new_conn as c0.
  intros c0 H0 Hr. induction Hr as [|c0 c1 c2 Hs _ IH]; [done|]. apply IH.
  eapply prims_inv; [exact H0|]. apply step_prims; [by destruct H0|done].
Qed.

(** ** Consequences *)

Lemma conv_eof_state fs s c : Eof s ∈ fs -> conv fs = Some c -> c = CHalf \/ c = CEnded.
Proof.
  revert c. induction fs as [|f fs IH] using rev_ind; intros c; [by intros ?%elem_of_nil|].
  rewrite elem_of_app, list_elem_of_singleton, conv_snoc. intros Hin (c0 & Hc0 & Hs)%bind_Some.
  destruct Hin as [Hin| <-]; [|destruct c0; naive_solver].
  destruct (IH c0 Hin Hc0) as [-> | ->]; destruct f; naive_solver.
Qed.

(** No data after a half-close. *)
Lemma conv_after_eof fs rest s : Eof s ∈ fs -> is_Some (conv (fs ++ rest)) -> data_of rest = [].
Proof.
  intros Hin. induction rest as [|f rest IH] using rev_ind; [done|]. intros Hc.
  rewrite app_assoc in Hc. pose proof (conv_prefix _ _ Hc) as [c Hpre].
  rewrite data_of_app, IH by (by exists c).
  rewrite conv_snoc, Hpre in Hc. assert (Eof s ∈ fs ++ rest) as Hin' by (apply elem_of_app; by left).
  destruct (conv_eof_state _ _ _ Hin' Hpre) as [-> | ->]; by destruct f, Hc.
Qed.

Lemma client_data_prefix ms ms' : ms `prefix_of` ms' -> client_data ms `prefix_of` client_data ms'.
Proof.
  intros [k ->]. induction ms as [|[bs|] ms IH]; simpl; [apply prefix_nil| |done]. by apply prefix_app.
Qed.

Lemma wire_data frames q r lv :
  relay_inv r -> wire_ok frames q r lv ->
  data_of frames `prefix_of` loop_in (hist r) /\
  ((exists s, Eof s ∈ frames) -> data_of frames = loop_in (hist r)).
Proof.
  intros Hr (_ & (pre & [rest Hpre] & Hf) & _).
  destruct (relay_inv_prefixes r Hr) as (_ & _ & Hd & He).
  assert (data_of frames = data_of pre) as ->.
  { destruct Hf as [-> | ->]; [done|]. by rewrite data_of_app, app_nil_r. }
  rewrite Hpre, data_of_app in Hd, He. split; [by eapply prefix_app_l|].
  intros [s Hs]. assert (Eof s ∈ pre) as Hin.
  { destruct Hf as [-> | ->]; [done|]. by apply elem_of_app in Hs as [?|?%list_elem_of_singleton]. }
  assert (data_of rest = []) as Hrest.
  { eapply conv_after_eof; [exact Hin|]. rewrite <- Hpre. by apply conv_emitted. }
  rewrite Hrest, app_nil_r in He. apply He. exists s. apply elem_of_app. by left.
Qed.

(** ** Executable runs *)

Inductive Move :=
| MConn (input : Input)
| MRelay (g : nat) (ev : Event).

Definition bytes_ok (input : Input) : bool :=
  match input with
  | InBinary bytes _ _ => forallb (fun b => (0 <=? b) && (b <=? u8_max)) bytes
  | _ => true
  end.

Definition move (limits : TunnelLimits) (c : Conn) (m : Move) : option Conn :=
  match m with
  | MConn input => if ended c || negb (bytes_ok input) then None else conn_step limits c input
  | MRelay g ev => relay_turn c g ev
  end.

Fixpoint run (limits : TunnelLimits) (c : Conn) (ms : list Move) : option Conn :=
  match ms with
  | [] => Some c
  | m :: ms' => c' ← move limits c m; run limits c' ms'
  end.

Lemma bytes_ok_spec input : bytes_ok input = true -> input_bytes input.
Proof.
  destruct input; simpl; try done. intros H. apply Forall_forall. intros b Hb.
  rewrite forallb_forall in H. specialize (H b (proj1 (list_elem_of_In _ _) Hb)).
  case_tests. by split.
Qed.

Lemma move_step limits c m c' : move limits c m = Some c' -> step limits c c'.
Proof.
  destruct m as [input|g ev]; simpl; [|by apply StepRelay].
  destruct (ended c) eqn:He; [done|]. simpl. destruct (bytes_ok input) eqn:Hb; [|done]. simpl.
  apply StepConn; [done|by apply bytes_ok_spec].
Qed.

Lemma run_steps limits c ms c' : run limits c ms = Some c' -> rtc (step limits) c c'.
Proof.
  revert c. induction ms as [|m ms IH]; intros c; simpl; [by intros [= ->]|].
  intros (c1 & Hm & Hr)%bind_Some. eapply rtc_l; [by eapply move_step|auto].
Qed.

(** ** Properties *)

(** [C0] What a client sees of a tunnel stream is always a well-formed
    conversation: an incarnation answers with [OPEN_ERR] and nothing else, or
    with [OPEN_OK], then data, at most one [EOF] with no data after it, and a
    final [C1] (which also ends a stream the client closed early) with
    nothing after it; all its frames carry its stream id, and frames of
    different incarnations of one id never interleave, so output buffered for a
    retired stream never reaches its successor. *)
Theorem tunnel_conversations (limits : TunnelLimits) (c : Conn) :
  reachable limits c ->
  (forall g r, relays c !! g = Some r ->
     is_Some (conv (frames_of g (wire c))) /\
     Forall (fun f => frame_stream_id f = stream r) (frames_of g (wire c))) /\
  (forall id, StronglySorted le (tags_of id (wire c))).
Proof.
  intros [Hc Hw Ho _]%reachable_inv. split; [|intros id; apply Ho].
  intros g r Hr. split; [by eapply Hw|]. apply Forall_forall. intros f Hf.
  apply list_elem_of_omap in Hf as ([[g'|] f'| | |] & Hin & Ht); try done. simpl in Ht.
  destruct (decide (g' = g)) as [->|]; [|done]. injection Ht as ->.
  destruct (cc_wire _ Hc g f Hin) as (r' & Hr' & Hid). congruence.
Qed.

(** A stream opened, answered, fed, half-closed and closed. *)
Definition demo : list Move :=
  [MConn (InBinary (encode (Open 7 8080)) true true);
   MRelay 0 (EvConnect (Ok tt)); MRelay 0 (EvSend true);
   MConn (InBinary (encode (Data 7 [104; 105])) true true);
   MRelay 0 EvObserve; MRelay 0 EvRecv;
   MRelay 0 EvObserve; MRelay 0 (EvWrite (Some 2));
   MRelay 0 EvObserve; MRelay 0 (EvRead (Some [1; 2; 3]));
   MRelay 0 EvObserve; MRelay 0 (EvReserve true);
   MConn (InOutbound true); MConn (InOutbound true);
   MConn (InBinary (encode (Credit 7 10)) true true);
   MConn (InBinary (encode (Close 7)) true true)].

Definition demo_conn : Conn :=
  match run default_limits new_conn demo with Some c => c | None => new_conn end.

Lemma demo_reachable : reachable default_limits demo_conn.
Proof. apply (run_steps _ _ demo). vm_compute. reflexivity. Qed.

Lemma tunnel_conversations_witness :
  frames_of 0 (wire demo_conn) = [OpenOk 7; Data 7 [1; 2; 3]; Close 7] /\
  (forall g r, relays demo_conn !! g = Some r ->
     is_Some (conv (frames_of g (wire demo_conn))) /\
     Forall (fun f => frame_stream_id f = stream r) (frames_of g (wire demo_conn))) /\
  (forall id, StronglySorted le (tags_of id (wire demo_conn))).
Proof.
  split; [vm_compute; reflexivity|]. apply (tunnel_conversations default_limits). apply demo_reachable.
Defined.

(** [C25] Daemon-to-client data is complete, in order and within credit: the
    payload bytes sent for an incarnation are a prefix of the bytes read from
    its loopback socket, all of them once its [EOF] was sent; and the bytes
    read together with the credit still open never exceed the initial window
    plus the credit the client granted, so the unsigned window never wraps. *)
Theorem tunnel_flow_control (limits : TunnelLimits) (c : Conn) (g : nat) (r : Relay) :
  reachable limits c -> relays c !! g = Some r ->
  data_of (frames_of g (wire c)) `prefix_of` loop_in (hist r) /\
  ((exists s, Eof s ∈ frames_of g (wire c)) -> data_of (frames_of g (wire c)) = loop_in (hist r)) /\
  0 <= window (shared r) <= u32_max /\
  window (shared r) + len (loop_in (hist r)) <= TUNNEL_INITIAL_CREDIT_BYTES + granted (hist r) /\
  len (data_of (frames_of g (wire c))) <= TUNNEL_INITIAL_CREDIT_BYTES + granted (hist r).
Proof.
  intros [Hc Hw _ _]%reachable_inv Hr.
  assert (relay_inv r) as Hi by (eapply Forall_lookup_1; [apply (cc_relays _ Hc)|done]).
  destruct (wire_data _ _ _ _ Hi (Hw g r Hr)) as [Hd He]. destruct (ri_credit _ Hi) as (Hwin & Hg & _).
  split_and!; try done; try lia. destruct Hd as [k Hk]. rewrite Hk, len_app in Hg.
  pose proof (len_nonneg k). lia.
Qed.

Lemma tunnel_flow_control_witness :
  exists r, relays demo_conn !! 0%nat = Some r /\ loop_in (hist r) = [1; 2; 3] /\
  data_of (frames_of 0 (wire demo_conn)) `prefix_of` loop_in (hist r) /\
  ((exists s, Eof s ∈ frames_of 0 (wire demo_conn)) ->
     data_of (frames_of 0 (wire demo_conn)) = loop_in (hist r)) /\
  0 <= window (shared r) <= u32_max /\
  window (shared r) + len (loop_in (hist r)) <= TUNNEL_INITIAL_CREDIT_BYTES + granted (hist r) /\
  len (data_of (frames_of 0 (wire demo_conn))) <= TUNNEL_INITIAL_CREDIT_BYTES + granted (hist r).
Proof.
  eexists. split; [vm_compute; reflexivity|]. split; [reflexivity|].
  apply (tunnel_flow_control default_limits demo_conn 0); [apply demo_reachable|vm_compute; reflexivity].
Defined.

(** [C36] Client-to-daemon data is delivered in order and its buffering is
    bounded: the bytes written to an incarnation's loopback socket are a prefix
    of the data the connection admitted for it before its half-close; its queue
    never exceeds its bound; and over all streams, the bytes queued or in flight
    and the free permits always add up to the shared budget. *)
Theorem tunnel_inbound_bounded (limits : TunnelLimits) (c : Conn) :
  reachable limits c ->
  (forall g r, relays c !! g = Some r ->
     loop_out (hist r) `prefix_of` client_data (accepted (hist r)) /\
     len (queue (shared r)) <= STREAM_QUEUE_FRAMES) /\
  budget c + sum_with held (relays c) = INBOUND_BYTES_PER_CONNECTION /\
  0 <= budget c.
Proof.
  intros [Hc _ _ _]%reachable_inv. split; [|split; [apply (cc_budget _ Hc)|apply (cc_permits _ Hc)]].
  intros g r Hr. assert (relay_inv r) as Hi by (eapply Forall_lookup_1; [apply (cc_relays _ Hc)|done]).
  destruct (relay_inv_prefixes r Hi) as (Hacc & Hout & _). split.
  - etrans; [exact Hout|]. by apply client_data_prefix.
  - by destruct (ri_inbound _ Hi) as (? & _).
Qed.

Lemma tunnel_inbound_bounded_witness :
  budget demo_conn = INBOUND_BYTES_PER_CONNECTION /\
  (forall g r, relays demo_conn !! g = Some r ->
     loop_out (hist r) `prefix_of` client_data (accepted (hist r)) /\
     len (queue (shared r)) <= STREAM_QUEUE_FRAMES) /\
  budget demo_conn + sum_with held (relays demo_conn) = INBOUND_BYTES_PER_CONNECTION /\
  0 <= budget demo_conn.
Proof.
  split; [vm_compute; reflexivity|]. apply (tunnel_inbound_bounded default_limits). apply demo_reachable.
Defined.

(** Admission: a connection never holds more streams than its cap, nor more
    than the per-port cap to any one port. *)
Theorem tunnel_stream_caps (limits : TunnelLimits) (c : Conn) :
  reachable limits c ->
  Z.of_nat (size (streams c)) <= Z.max 0 (max_streams limits) /\
  forall port, port_count port (streams c) <= Z.max 0 (max_streams_per_port limits).
Proof. intros [_ _ _ Hcap]%reachable_inv. exact Hcap. Qed.

Lemma tunnel_stream_caps_witness :
  exists c, run (mkLimits 1 1) new_conn
      [MConn (InBinary (encode (Open 1 80)) true true); MConn (InBinary (encode (Open 2 81)) true true)]
    = Some c /\
  Z.of_nat (size (streams c)) <= Z.max 0 1 /\
  forall port, port_count port (streams c) <= Z.max 0 1.
Proof.
  eexists. split; [vm_compute; reflexivity|]. apply (tunnel_stream_caps (mkLimits 1 1)).
  apply (run_steps _ _
    [MConn (InBinary (encode (Open 1 80)) true true); MConn (InBinary (encode (Open 2 81)) true true)]).
  vm_compute. reflexivity.
Defined.

(** The connection loop never panics: in every reachable state, every input
    made of bytes is handled, except taking a frame from an empty outbound
    queue, which is simply not ready. *)
Theorem tunnel_loop_total (limits : TunnelLimits) (c : Conn) (input : Input) :
  reachable limits c -> conn_step limits c input = None ->
  outq c = [] /\ exists ok, input = InOutbound ok.
Proof.
  intros [Hc _ _ _]%reachable_inv.
  assert (forall c m id ok, (forall h, streams c !! id = Some h -> is_Some (relays c !! h_gen h)) ->
    forward_to_stream c id m ok <> None) as Hfw.
  { intros c0 m id ok Hh. unfold forward_to_stream. destruct (streams c0 !! id) as [h|]; [|done].
    destruct (Hh h eq_refl) as [r ->]. simpl. by destruct (try_send r). }
  assert (forall id h, streams c !! id = Some h -> is_Some (relays c !! h_gen h)) as Hlive.
  { intros id h Hh. destruct (cc_handles _ Hc id h Hh) as (r & Hr & _). by exists r. }
  destruct input as [own ok|cap ok|bytes member ok|ok| | |ok| |ok|ok|ok|]; simpl; try done.
  - destruct (decode bytes) as [[f|e]|] eqn:Hd; simpl; try done.
    + destruct (is_open f && negb member); [done|].
      destruct (handle_frame limits c f ok) eqn:Hh; [done|]. exfalso. revert Hh. unfold handle_frame.
      destruct f as [id port|id|id m|id p|id|id|id cr]; try done.
      * by destruct (reject limits c id port).
      * destruct (_ <? _); [done|]. destruct (streams c !! id) eqn:Hs; [|done].
        destruct (_ <? _); [done|]. apply Hfw. simpl. apply Hlive.
      * apply Hfw. apply Hlive.
      * by destruct (streams c !! id).
      * by destruct (streams c !! id).
    + by destruct (decode_total bytes).
  - destruct (outq c) as [|[g f] q]; [by split; [|exists ok]|done].
Qed.

Lemma tunnel_loop_total_witness :
  outq new_conn = [] /\ exists ok, InOutbound true = InOutbound ok.
Proof. apply (tunnel_loop_total default_limits); [apply rtc_refl|reflexivity]. Defined.


Definition open_conn : Conn :=
  match run default_limits new_conn (take 5 demo) with Some c => c | None => new_conn end.

Definition open_relay : Relay :=
  match relays open_conn !! 0%nat with Some r => r | None => new_relay 0 end.

