(* ===== verification/Diff.v ===== *)
(** * Diffs ([similar::capture_diff_slices])

    The diff of the [similar] crate, as the note merge and the line attribution use
    it: the operations it returns, a class with the one law both rely on, that the
    operations are an edit script from the old slice to the new one, and two
    instances, one that compares position by position and one that keeps a longest
    common subsequence. *)
From stdpp Require Import prelude.
From S2P Require Import Prelude.

Inductive DiffOp :=
| DEqual (old_index new_index n : Z)
| DDelete (old_index old_len new_index : Z)
| DInsert (old_index new_index new_len : Z)
| DReplace (old_index old_len new_index new_len : Z).

Class Similar (A : Type) := { capture_diff : list A -> list A -> list DiffOp }.

(** [a[i..j)]. *)
Definition seg {A} (a : list A) (i j : Z) : list A := ztake (j - i) (zdrop i a).

(** [ops] is an edit script from [a] to [b], from positions [i] and [j] on. *)
Fixpoint script {A} (a b : list A) (i j : Z) (ops : list DiffOp) : Prop :=
  match ops with
  | [] => i = len a /\ j = len b
  | DEqual oi nj n :: ops' =>
      oi = i /\ nj = j /\ 0 <= n /\ i + n <= len a /\ j + n <= len b /\
      seg a i (i + n) = seg b j (j + n) /\ script a b (i + n) (j + n) ops'
  | DDelete oi n nj :: ops' =>
      oi = i /\ nj = j /\ 0 <= n /\ i + n <= len a /\ script a b (i + n) j ops'
  | DInsert oi nj n :: ops' =>
      oi = i /\ nj = j /\ 0 <= n /\ j + n <= len b /\ script a b i (j + n) ops'
  | DReplace oi n nj m :: ops' =>
      oi = i /\ nj = j /\ 0 <= n /\ i + n <= len a /\ 0 <= m /\ j + m <= len b /\
      script a b (i + n) (j + m) ops'
  end.

Class SimilarLaws (A : Type) `{!Similar A} : Prop := {
  capture_diff_script (a b : list A) : script a b 0 0 (capture_diff a b) }.

(** ** Segments *)

Section segments.
Context {A : Type} (a : list A).

Lemma seg_slice i j : 0 <= i <= j -> j <= len a -> slice a i j = Some (seg a i j).
Proof. intros. by apply slice_ok. Qed.

Lemma seg_app i j k : 0 <= i <= j -> j <= k -> seg a i k = seg a i j ++ seg a j k.
Proof.
  intros. unfold seg. rewrite (ztake_split (j - i) (k - i)) by lia.
  rewrite zdrop_zdrop by lia.
  replace (k - i - (j - i)) with (k - j) by lia. by replace (i + (j - i)) with j by lia.
Qed.

Lemma seg_all : seg a 0 (len a) = a.
Proof. unfold seg. rewrite zdrop_le0, ztake_all by lia. done. Qed.

Lemma seg_to_end i : i <= len a -> seg a i (len a) = zdrop i a.
Proof. intros. unfold seg. apply ztake_all. rewrite len_zdrop. pose proof (len_nonneg a). lia. Qed.

Lemma seg_nil i : seg a i i = [].
Proof. unfold seg. apply ztake_le0. lia. Qed.

Lemma len_seg i j : 0 <= i <= j -> j <= len a -> len (seg a i j) = j - i.
Proof. intros. unfold seg. rewrite len_ztake, len_zdrop. lia. Qed.
End segments.

(** ** A diff that compares position by position *)

Section positional.
Context `{EqDecision A}.

Fixpoint position_ops (i : Z) (a b : list A) : list DiffOp :=
  match a, b with
  | [], [] => []
  | [], _ => [DInsert i i (len b)]
  | _, [] => [DDelete i (len a) i]
  | x :: a', y :: b' =>
      (if decide (x = y) then DEqual i i 1 else DReplace i 1 i 1) :: position_ops (i + 1) a' b'
  end.

Definition positional : Similar A := {| capture_diff := position_ops 0 |}.

(** ** A diff that keeps a longest common subsequence *)

Definition edits (ops : list DiffOp) : Z :=
  sum_with (fun op => match op with
    | DEqual _ _ _ => 0
    | DDelete _ n _ => n
    | DInsert _ _ n => n
    | DReplace _ n _ m => n + m
    end) ops.

Fixpoint lcs_ops (a : list A) : Z -> Z -> list A -> list DiffOp :=
  match a with
  | [] => fun i j b => match b with [] => [] | _ => [DInsert i j (len b)] end
  | x :: a' => fun i => fix go (j : Z) (b : list A) : list DiffOp :=
      match b with
      | [] => [DDelete i (len a) j]
      | y :: b' =>
          if decide (x = y) then DEqual i j 1 :: lcs_ops a' (i + 1) (j + 1) b'
          else
            let del := DDelete i 1 j :: lcs_ops a' (i + 1) j b in
            let ins := DInsert i j 1 :: go (j + 1) b' in
            if edits del <=? edits ins then del else ins
      end
  end.

Definition longest_common : Similar A := {| capture_diff a b := lcs_ops a 0 0 b |}.

Lemma len_snoc (l : list A) x : len (l ++ [x]) = len l + 1.
Proof. by rewrite len_app, len_cons. Qed.

Lemma seg_one p x (a : list A) : seg (p ++ x :: a) (len p) (len p + 1) = [x].
Proof.
  unfold seg. rewrite zdrop_app, zdrop_all, Z.sub_diag, zdrop_le0 by lia.
  by replace (len p + 1 - len p) with 1 by lia.
Qed.

Lemma position_ops_script a : forall b p q, len p = len q ->
  script (p ++ a) (q ++ b) (len p) (len q) (position_ops (len p) a b).
Proof.
  induction a as [|x a IH]; intros [|y b] p q Hpq.
  - simpl. by rewrite !app_nil_r.
  - pose proof (len_nonneg b). simpl. rewrite app_nil_r, len_app, len_cons. lia.
  - pose proof (len_nonneg a). simpl. rewrite app_nil_r, len_app, len_cons. lia.
  - pose proof (len_nonneg a). pose proof (len_nonneg b).
    pose proof (IH b (p ++ [x]) (q ++ [y])) as Hs. rewrite !len_app, !len_cons, len_nil, <- !app_assoc in Hs.
    specialize (Hs ltac:(lia)). simpl in Hs. rewrite !Z.add_0_r in Hs.
    cbn [position_ops]. destruct (decide (x = y)) as [<-|]; cbn [script]; rewrite !len_app, !len_cons.
    + rewrite !seg_one. split_and!; done || lia.
    + split_and!; done || lia.
Qed.

Lemma lcs_ops_script a : forall b p q,
  script (p ++ a) (q ++ b) (len p) (len q) (lcs_ops a (len p) (len q) b).
Proof.
  induction a as [|x a IHa]; intros b.
  { intros p q. destruct b as [|y b]; simpl; [by rewrite !app_nil_r|].
    pose proof (len_nonneg b). rewrite app_nil_r, len_app, len_cons. lia. }
  induction b as [|y b IHb]; intros p q; pose proof (len_nonneg a).
  { simpl. rewrite app_nil_r, len_app, len_cons. lia. }
  pose proof (len_nonneg b).
  pose proof (IHa b (p ++ [x]) (q ++ [y])) as H1. pose proof (IHa (y :: b) (p ++ [x]) q) as H2.
  pose proof (IHb p (q ++ [y])) as H3.
  rewrite !len_snoc, <- !app_assoc in H1. rewrite !len_snoc, <- !app_assoc in H2.
  rewrite !len_snoc, <- !app_assoc in H3. cbn [app] in H1, H2, H3.
  cbn [lcs_ops] in H3 |- *. destruct (decide (x = y)) as [<-|].
  - cbn [script]. rewrite !seg_one, !len_app, !len_cons. split_and!; done || lia.
  - match goal with |- script _ _ _ _ (if ?t then _ else _) => destruct t end;
      cbn [script]; split_and!; try done; rewrite ?len_app, ?len_cons; lia.
Qed.
End positional.

#[global] Instance positional_laws `{EqDecision A} : @SimilarLaws A positional.
Proof. split. intros a b. exact (position_ops_script a b [] [] eq_refl). Qed.

#[global] Instance longest_common_laws `{EqDecision A} : @SimilarLaws A longest_common.
Proof. split. intros a b. exact (lcs_ops_script a b [] []). Qed.
