(* ===== verification/NoteMerge.v ===== *)
(** * Three-way note merge ([crates/intent-services/src/note_merge.rs])

    The character merge behind [note.setContent] and the checkbox repair that
    follows it.  Texts are lists of Unicode scalar values; the diffs are those of
    [Diff]. *)
From stdpp Require Import prelude sorting.
From S2P Require Import Prelude.
From S2P Require Import Text.
From S2P Require Import Diff.

(** ** Hunks *)

Inductive Side := Current | Incoming.

#[global] Instance Side_eq_dec : EqDecision Side.
Proof. solve_decision. Defined.

Record Hunk := mkHunk {
  start : Z;
  end_ : Z;
  side : Side;
  replacement : list Z }.

(** The [filter_map] of [hunks]; [None] where a slice is out of range. *)
Fixpoint hunks_of (other : list Z) (s : Side) (ops : list DiffOp) : option (list Hunk) :=
  match ops with
  | [] => Some []
  | DEqual _ _ _ :: ops' => hunks_of other s ops'
  | DDelete oi n _ :: ops' =>
      hs ← hunks_of other s ops'; Some (mkHunk oi (oi + n) s [] :: hs)
  | DInsert oi nj n :: ops' =>
      r ← slice other nj (nj + n);
      hs ← hunks_of other s ops'; Some (mkHunk oi oi s r :: hs)
  | DReplace oi n nj m :: ops' =>
      r ← slice other nj (nj + m);
      hs ← hunks_of other s ops'; Some (mkHunk oi (oi + n) s r :: hs)
  end.

Definition hunks `{!Similar Z} (base other : list Z) (s : Side) : option (list Hunk) :=
  hunks_of other s (capture_diff base other).

Definition side_le (a b : Side) : bool :=
  match a, b with Incoming, Current => false | _, _ => true end.

(** The order of the sort key [(start, end, side)]. *)
Definition key_le (h k : Hunk) : bool :=
  (start h <? start k) ||
  ((start h =? start k) &&
   ((end_ h <? end_ k) || ((end_ h =? end_ k) && side_le (side h) (side k)))).

(** [sort_by_key], a stable sort. *)
Fixpoint insert_hunk (h : Hunk) (l : list Hunk) : list Hunk :=
  match l with
  | [] => [h]
  | k :: l' => if key_le h k then h :: l else k :: insert_hunk h l'
  end.

Definition sort_hunks (l : list Hunk) : list Hunk := foldr insert_hunk [] l.

(** ** The merge *)

Definition of_side (s : Side) (cluster : list Hunk) : list Hunk :=
  filter (fun h => side h = s) cluster.

(** The loop of [variant] over one side's hunks. *)
Fixpoint variant_loop (base : list Z) (hs : list Hunk) (cursor e : Z) : option (list Z) :=
  match hs with
  | [] => slice base cursor e
  | h :: hs' =>
      kept ← slice base cursor (start h);
      rest ← variant_loop base hs' (end_ h) e;
      Some (kept ++ replacement h ++ rest)
  end.

Definition variant (cluster : list Hunk) (s : Side) (base : list Z) (st e : Z) : option (list Z) :=
  variant_loop base (of_side s cluster) st e.

Definition has_side (s : Side) (cluster : list Hunk) : bool :=
  existsb (fun h => bool_decide (side h = s)) cluster.

(** The inner loop: the cluster that starts at [st], its end, and what is left. *)
Fixpoint grow (st e : Z) (cluster rest : list Hunk) : list Hunk * Z * list Hunk :=
  match rest with
  | [] => (cluster, e, [])
  | h :: rest' =>
      let overlaps := start h <? e in
      let continues := (start h =? e) && has_side (side h) cluster in
      let same_offset_insertion := (start h =? st) && (end_ h =? st) && (e =? st) in
      if overlaps || continues || same_offset_insertion
      then grow st (Z.max e (end_ h)) (cluster ++ [h]) rest'
      else (cluster, e, rest)
  end.

(** What one cluster contributes, with whether it counts as a conflict. *)
Definition render_cluster (base : list Z) (cluster : list Hunk) (st e : Z) :
    option (list Z * bool) :=
  match has_side Current cluster, has_side Incoming cluster with
  | true, true =>
      cur ← variant cluster Current base st e;
      inc ← variant cluster Incoming base st e;
      if decide (cur = inc) then Some (cur, false) else Some (cur ++ inc, st <? e)
  | true, false => cur ← variant cluster Current base st e; Some (cur, false)
  | false, _ => inc ← variant cluster Incoming base st e; Some (inc, false)
  end.

(** The outer loop; [conflicts] are character ranges of [out].  The fuel bounds
    the number of clusters; the number of hunks is enough. *)
Fixpoint merge_loop (fuel : nat) (base : list Z) (all : list Hunk) (copied : Z)
    (out : list Z) (conflicts : list (Z * Z)) : option (list Z * list (Z * Z)) :=
  match all with
  | [] => tail ← slice base copied (len base); Some (out ++ tail, conflicts)
  | h :: rest =>
      match fuel with
      | O => None
      | S fuel' =>
          let '(cluster, e, rest') := grow (start h) (end_ h) [h] rest in
          kept ← slice base copied (start h);
          let out := out ++ kept in
          '(text, conflict) ← render_cluster base cluster (start h) e;
          merge_loop fuel' base rest' e (out ++ text)
            (if conflict : bool then conflicts ++ [(len out, len out + len text)] else conflicts)
      end
  end.

(** [byte_at]: the byte offset of every character boundary. *)
Fixpoint byte_at (bytes : Z) (out : list Z) : list Z :=
  match out with
  | [] => [bytes]
  | c :: out' => bytes :: byte_at (bytes + len_utf8 c) out'
  end.

Fixpoint byte_ranges (offsets : list Z) (ranges : list (Z * Z)) : option (list (Z * Z)) :=
  match ranges with
  | [] => Some []
  | (a, b) :: ranges' =>
      x ← znth offsets a; y ← znth offsets b;
      rest ← byte_ranges offsets ranges'; Some ((x, y) :: rest)
  end.

Record MergeOutcome := mkOutcome {
  text : list Z;
  conflicting_spans : Z;
  conflict_ranges : list (Z * Z) }.

Definition three_way_merge `{!Similar Z} (base current incoming : list Z) : option MergeOutcome :=
  if decide (base = current \/ current = incoming) then Some (mkOutcome incoming 0 [])
  else if decide (base = incoming) then Some (mkOutcome current 0 [])
  else
    cur ← hunks base current Current;
    inc ← hunks base incoming Incoming;
    let all := sort_hunks (cur ++ inc) in
    '(out, conflicts) ← merge_loop (length all) base all 0 [] [];
    ranges ← byte_ranges (byte_at 0 out) conflicts;
    Some (mkOutcome out (len conflicts) ranges).

(** ** Checkbox markers *)

Definition is_js_space_char (c : Z) : bool :=
  (c =? 0x20) || (c =? 0x09) || (c =? 0x0a) || (c =? 0x0d) || (c =? 0x0b) || (c =? 0x0c).

(** [' ' | 'x' | 'X' | '/'] *)
Definition is_marker_char (c : Z) : bool :=
  (c =? 0x20) || (c =? 0x78) || (c =? 0x58) || (c =? 0x2f).

(** The characters skipped by a [peek] loop, and the rest. *)
Fixpoint skip_spaces (l : list Z) : list Z * list Z :=
  match l with
  | [] => ([], [])
  | c :: l' =>
      if is_js_space_char c then let '(s, r) := skip_spaces l' in (c :: s, r) else ([], l)
  end.

(** The loop up to the closing bracket: the further markers and the rest. *)
Fixpoint scan_close (l : list Z) : option (list Z * list Z) :=
  match l with
  | [] => None
  | c :: l' =>
      if c =? 0x5d then Some ([], l')
      else if is_marker_char c then '(ms, r) ← scan_close l'; Some (c :: ms, r)
      else None
  end.

Definition collapse_marker (line : list Z) : option (list Z * (Z * Z)) :=
  let '(s1, r1) := skip_spaces line in
  match r1 with
  | [] => None
  | b :: r2 =>
      if (b =? 0x2d) || (b =? 0x2a) then
        let '(s2, r3) := skip_spaces r2 in
        match r3 with
        | o :: first :: r4 =>
            if negb (o =? 0x5b) then None
            else if negb (is_marker_char first) then None
            else
              '(ms, post) ← scan_close r4;
              if len ms + 1 <? 2 then None
              else
                let pre := s1 ++ [b] ++ s2 in
                let box_start := utf8_len pre in
                let close := box_start + utf8_len ([o; first] ++ ms) in
                Some (pre ++ [0x5b; first; 0x5d] ++ post, (box_start, close + 1))
        | _ => None
        end
      else None
  end.

Definition overlaps (run c : Z * Z) : bool := (c.1 <? run.2) && (run.1 <? c.2).

Fixpoint repair_lines (conflicts : list (Z * Z)) (line_start : Z) (lines : list (list Z)) :
    list (list Z) * Z :=
  match lines with
  | [] => ([], 0)
  | line :: lines' =>
      let '(ls, n) := repair_lines conflicts (line_start + utf8_len line + 1) lines' in
      match collapse_marker line with
      | Some (fixed, (a, b)) =>
          if existsb (overlaps (line_start + a, line_start + b)) conflicts
          then (fixed :: ls, n + 1) else (line :: ls, n)
      | None => (line :: ls, n)
      end
  end.

Definition repair_checkbox_markers (merged : list Z) (conflicts : list (Z * Z)) : list Z * Z :=
  match conflicts with
  | [] => (merged, 0)
  | _ =>
      let '(ls, n) := repair_lines conflicts 0 (split_lines merged) in (join_lines ls, n)
  end.

(** ** Hunk lists of one side *)

(** [hs] are disjoint changes of [p..n), in order. *)
Fixpoint chain (p : Z) (hs : list Hunk) (n : Z) : Prop :=
  match hs with
  | [] => p <= n
  | h :: hs' => p <= start h /\ start h <= end_ h /\ chain (end_ h) hs' n
  end.

(** [base[p..n)] with the changes applied. *)
Fixpoint patch (base : list Z) (p : Z) (hs : list Hunk) (n : Z) : list Z :=
  match hs with
  | [] => seg base p n
  | h :: hs' => seg base p (start h) ++ replacement h ++ patch base (end_ h) hs' n
  end.

Lemma chain_bounds p hs n :
  chain p hs n -> p <= n /\ Forall (fun h => p <= start h /\ start h <= end_ h /\ end_ h <= n) hs.
Proof.
  revert p. induction hs as [|h hs IH]; intros p; simpl; [done|].
  intros (Hp & Hh & Hc). destruct (IH _ Hc) as [Hn Hf]. split; [lia|].
  constructor; [lia|]. eapply Forall_impl; [exact Hf|]. simpl. lia.
Qed.

Lemma chain_within p C R n st e :
  chain p (C ++ R) n -> Forall (fun h => st <= start h /\ end_ h <= e) C -> st <= e -> chain st C e.
Proof.
  revert p st. induction C as [|h C IH]; intros p st; simpl; [done|].
  intros (Hp & Hh & Hc) [Hst HC]%Forall_cons Hle. split_and!; [lia|done|].
  eapply IH; [exact Hc| |lia]. apply chain_bounds in Hc as [_ Hf]. apply Forall_app in Hf as [Hf _].
  clear -HC Hf. induction HC as [|k C Hk HC IH]; [constructor|]. apply Forall_cons in Hf as [? ?].
  constructor; [lia|auto].
Qed.

Lemma chain_rest p C R n e :
  chain p (C ++ R) n -> Forall (fun h => e <= start h) R -> e <= n -> chain e R n.
Proof.
  revert p. induction C as [|h C IH]; intros p; simpl.
  - destruct R as [|h R]; simpl; [done|]. intros (_ & ? & ?) [? _]%Forall_cons _. done.
  - intros (_ & _ & Hc). by eapply IH.
Qed.

Lemma variant_patch base hs p n :
  chain p hs n -> 0 <= p -> n <= len base -> variant_loop base hs p n = Some (patch base p hs n).
Proof.
  revert p. induction hs as [|h hs IH]; intros p; simpl.
  - intros. apply seg_slice; lia.
  - intros (Hp & Hh & Hc) H0 Hn. pose proof (chain_bounds _ _ _ Hc) as [? _].
    rewrite seg_slice by lia. simpl. by rewrite IH by (done || lia).
Qed.

Lemma patch_app base p C R e n :
  chain p C e -> chain e R n -> 0 <= p -> patch base p (C ++ R) n = patch base p C e ++ patch base e R n.
Proof.
  revert p. induction C as [|h C IH]; intros p; simpl.
  - intros Hpe HR H0. pose proof (chain_bounds _ _ _ HR) as [Hn Hf].
    destruct R as [|h R]; simpl in *; [by apply seg_app|].
    rewrite (seg_app base p e (start h)) by lia. by rewrite <- app_assoc.
  - intros (Hp & Hh & Hc) HR H0. rewrite (IH (end_ h)) by (done || lia). by rewrite <- !app_assoc.
Qed.

Lemma patch_split base p st e n C R :
  0 <= p -> p <= st -> chain st C e -> chain e R n ->
  patch base p (C ++ R) n = seg base p st ++ patch base st C e ++ patch base e R n.
Proof.
  intros H0 Hp HC HR. rewrite <- patch_app by (done || lia).
  pose proof (chain_bounds _ _ _ HC) as [? _]. pose proof (chain_bounds _ _ _ HR) as [? HF].
  destruct C as [|h C]; simpl in *.
  - destruct R as [|h R]; simpl in *; [apply seg_app; lia|].
    rewrite (seg_app base p st) by lia. by rewrite <- app_assoc.
  - rewrite (seg_app base p st) by lia. by rewrite <- app_assoc.
Qed.

(** The hunks of an edit script rebuild the other text. *)
Lemma hunks_script a b s ops i j :
  script a b i j ops -> 0 <= i -> 0 <= j -> i <= len a ->
  exists hs, hunks_of b s ops = Some hs /\ chain i hs (len a) /\
    Forall (fun h => side h = s) hs /\ patch a i hs (len a) = zdrop j b.
Proof.
  revert i j. induction ops as [|op ops IH]; intros i j Hs Hi Hj Ha.
  - destruct Hs as [-> ->]. exists []. simpl. rewrite seg_nil, zdrop_all by lia. by repeat split.
  - destruct op as [oi nj n|oi n nj|oi nj n|oi n nj m]; simpl in Hs.
    + destruct Hs as (_ & _ & Hn & Hia & Hjb & Heq & Hs). cbn [hunks_of].
      destruct (IH _ _ Hs) as (hs & -> & Hc & Hsd & Hp); [lia..|]. exists hs. split; [done|].
      split; [|split; [done|]].
      { destruct hs as [|h hs]; simpl in *; [lia|]. split; [lia|]. tauto. }
      change hs with ([] ++ hs).
      rewrite (patch_split a i (i + n) (i + n)) by (simpl; done || lia).
      simpl. rewrite seg_nil, Hp, Heq. simpl.
      rewrite <- !seg_to_end by lia. symmetry. apply seg_app; lia.
    + destruct Hs as (-> & -> & Hn & Hia & Hs). cbn [hunks_of].
      destruct (IH _ _ Hs) as (hs & -> & Hc & Hsd & Hp); [lia..|]. simpl. eexists. split; [done|].
      split_and!; simpl; [split_and!; [lia|lia|done]|by constructor|]. by rewrite seg_nil.
    + destruct Hs as (-> & -> & Hn & Hjb & Hs). cbn [hunks_of]. rewrite seg_slice by lia.
      destruct (IH _ _ Hs) as (hs & -> & Hc & Hsd & Hp); [lia..|]. simpl. eexists. split; [done|].
      split_and!; simpl; [split_and!; [lia|lia|done]|by constructor|]. rewrite seg_nil, Hp. simpl.
      rewrite <- !seg_to_end by lia. symmetry. apply seg_app; lia.
    + destruct Hs as (-> & -> & Hn & Hia & Hm & Hjb & Hs). cbn [hunks_of]. rewrite seg_slice by lia.
      destruct (IH _ _ Hs) as (hs & -> & Hc & Hsd & Hp); [lia..|]. simpl. eexists. split; [done|].
      split_and!; simpl; [split_and!; [lia|lia|done]|by constructor|]. rewrite seg_nil, Hp. simpl.
      rewrite <- !seg_to_end by lia. symmetry. apply seg_app; lia.
Qed.

(** ** The stable sort *)

Definition hunk_le (h k : Hunk) : Prop := key_le h k = true.

Ltac key_cases :=
  unfold hunk_le, key_le in *;
  repeat match goal with
  | H : (_ || _)%bool = true |- _ => apply orb_true_iff in H as [H|H]
  | H : (_ || _)%bool = false |- _ => apply orb_false_iff in H as [? H]
  | H : (_ && _)%bool = true |- _ => apply andb_true_iff in H as [? H]
  | H : (_ && _)%bool = false |- _ => apply andb_false_iff in H as [H|H]
  end; case_tests.

Lemma hunk_le_intro h k :
  (start h < start k \/ start h = start k /\ (end_ h < end_ k \/ end_ h = end_ k /\ side_le (side h) (side k) = true)) ->
  hunk_le h k.
Proof.
  intros [H|[H1 [H|[H2 H3]]]]; unfold hunk_le, key_le; apply orb_true_iff.
  - left. by apply Z.ltb_lt.
  - right. apply andb_true_iff. split; [by apply Z.eqb_eq|]. apply orb_true_iff. left. by apply Z.ltb_lt.
  - right. apply andb_true_iff. split; [by apply Z.eqb_eq|]. apply orb_true_iff. right.
    rewrite H3, andb_true_r. by apply Z.eqb_eq.
Qed.

Lemma hunk_le_trans h k l : hunk_le h k -> hunk_le k l -> hunk_le h l.
Proof.
  intros H1 H2. apply hunk_le_intro. key_cases; try lia.
  right. split; [lia|]. right. split; [lia|]. by destruct (side h), (side k), (side l).
Qed.

Lemma hunk_le_total h k : key_le h k = false -> hunk_le k h.
Proof.
  intros H. apply hunk_le_intro. key_cases; try lia. destruct (side h), (side k); simpl in *; try done; lia.
Qed.

Lemma hunk_le_start h k : hunk_le h k -> start h <= start k.
Proof. intros H. key_cases; lia. Qed.

Lemma insert_sorted h l : StronglySorted hunk_le l -> StronglySorted hunk_le (insert_hunk h l).
Proof.
  induction 1 as [|k l Hs IH Hf]; simpl; [by repeat constructor|].
  destruct (key_le h k) eqn:E.
  - constructor; [by constructor|]. constructor; [done|].
    eapply Forall_impl; [exact Hf|]. intros x Hx. by eapply hunk_le_trans.
  - constructor; [done|]. apply hunk_le_total in E. clear -Hf E.
    induction l as [|x l IH]; simpl; [by constructor|]. apply Forall_cons in Hf as [Hx Hf].
    destruct (key_le h x); [by repeat constructor|]. constructor; auto.
Qed.

Lemma sort_sorted l : StronglySorted hunk_le (sort_hunks l).
Proof. induction l as [|h l IH]; simpl; [constructor|by apply insert_sorted]. Qed.

Lemma insert_head h l : Forall (hunk_le h) l -> insert_hunk h l = h :: l.
Proof. destruct 1 as [|k l Hk _]; simpl; [done|]. unfold hunk_le in Hk. by rewrite Hk. Qed.

Lemma of_side_insert s h l :
  StronglySorted hunk_le l ->
  of_side s (insert_hunk h l) =
  if decide (side h = s) then insert_hunk h (of_side s l) else of_side s l.
Proof.
  unfold of_side. induction 1 as [|k l Hs IH Hf]; simpl.
  { rewrite filter_cons. by destruct (decide (side h = s)). }
  destruct (key_le h k) eqn:E.
  - rewrite (filter_cons _ h). destruct (decide (side h = s)); [|done].
    symmetry. apply insert_head.
    assert (Forall (hunk_le h) (k :: l)) as Hh.
    { constructor; [done|]. eapply Forall_impl; [exact Hf|]. intros x Hx. by eapply hunk_le_trans. }
    apply Forall_forall. intros x [_ Hx]%list_elem_of_filter. by eapply Forall_forall in Hh.
  - rewrite !(filter_cons _ k), IH. destruct (decide (side k = s)), (decide (side h = s)); try done.
    simpl. by rewrite E.
Qed.

Lemma of_side_sort s l : of_side s (sort_hunks l) = sort_hunks (of_side s l).
Proof.
  induction l as [|h l IH]; simpl; [done|]. rewrite of_side_insert by apply sort_sorted.
  rewrite IH. unfold of_side. rewrite (filter_cons _ h). by destruct (decide (side h = s)).
Qed.

Lemma sort_id l : StronglySorted hunk_le l -> sort_hunks l = l.
Proof. induction 1 as [|h l Hs IH Hf]; simpl; [done|]. rewrite IH. by apply insert_head. Qed.

Lemma chain_sorted s p hs n :
  chain p hs n -> Forall (fun h => side h = s) hs -> StronglySorted hunk_le hs.
Proof.
  revert p. induction hs as [|h hs IH]; intros p; simpl; [constructor|].
  intros (Hp & Hh & Hc) [Hs HF]%Forall_cons. constructor; [by eapply IH|].
  apply chain_bounds in Hc as [_ Hb]. clear IH. induction Hb as [|k hs Hk Hb IH]; [constructor|].
  apply Forall_cons in HF as [Hsk HF]. constructor; [|auto].
  apply hunk_le_intro. rewrite Hs, Hsk. destruct s; simpl; lia.
Qed.

Lemma of_side_all s hs : Forall (fun h => side h = s) hs -> of_side s hs = hs.
Proof.
  unfold of_side. induction 1 as [|h hs Hh _ IH]; [done|]. rewrite filter_cons_True by done. by rewrite IH.
Qed.

Lemma of_side_none s s' hs : s <> s' -> Forall (fun h => side h = s') hs -> of_side s hs = [].
Proof.
  intros Hne. unfold of_side. induction 1 as [|h hs Hh _ IH]; [done|].
  rewrite filter_cons_False by congruence. done.
Qed.

Lemma elem_of_sort h l : h ∈ sort_hunks l -> h ∈ l.
Proof.
  assert (forall k m, h ∈ insert_hunk k m -> h = k \/ h ∈ m) as Hi.
  { intros k m. induction m as [|x m IH]; simpl; [set_solver|]. destruct (key_le k x); set_solver. }
  induction l as [|k l IH]; simpl; [done|]. intros [-> | Hh]%Hi; set_solver.
Qed.

(** ** Clusters *)

Lemma grow_spec rest : forall st e cluster cl' e' rest',
  grow st e cluster rest = (cl', e', rest') ->
  StronglySorted hunk_le rest ->
  Forall (fun h => st <= start h /\ start h <= end_ h) rest ->
  Forall (fun h => st <= start h /\ end_ h <= e) cluster -> st <= e ->
  exists taken, rest = taken ++ rest' /\ cl' = cluster ++ taken /\ e <= e' /\
    Forall (fun h => st <= start h /\ end_ h <= e') cl' /\
    Forall (fun h => e' <= start h) rest' /\
    (forall n, e <= n -> Forall (fun h => end_ h <= n) rest -> e' <= n).
Proof.
  induction rest as [|h rest IH]; intros st e cluster cl' e' rest' Hg Hs Hb Hc Hse; cbn [grow] in Hg.
  - injection Hg as <- <- <-. exists []. rewrite !app_nil_r. split_and!; try done; try lia; try constructor.
  - inversion_clear Hs as [|? ? Hs' Hf]. apply Forall_cons in Hb as [Hh Hb].
    destruct (_ || _ || _) eqn:Et.
    + apply IH in Hg as (taken & -> & -> & He & Hin & Hout & Hmax); [|done|done| |lia].
      * exists (h :: taken). rewrite <- app_assoc. split_and!; try done; try lia; [by rewrite <- app_assoc in Hin|].
        intros n Hn [Hhn Hr]%Forall_cons. apply Hmax; [lia|done].
      * apply Forall_app. split; [|constructor; [lia|constructor]].
        eapply Forall_impl; [exact Hc|]. simpl. lia.
    + injection Hg as <- <- <-. exists []. rewrite !app_nil_r.
      apply orb_false_iff in Et as [[Eo _]%orb_false_iff _]. case_tests.
      split_and!; try done; try lia. constructor; [done|].
      eapply Forall_impl; [exact Hf|]. intros k Hk%hunk_le_start. simpl in *. lia.
Qed.

(** No edit of one writer touches an edit of the other. *)
Definition apart (hs : list Hunk) : Prop :=
  forall h k, h ∈ hs -> k ∈ hs -> side h <> side k -> end_ h < start k \/ end_ k < start h.

Lemma grow_apart s rest : forall st e cluster cl' e' rest',
  grow st e cluster rest = (cl', e', rest') ->
  StronglySorted hunk_le rest -> Forall (fun h => start h <= end_ h) rest ->
  Forall (fun k => side k = s /\ Forall (fun h => start k <= start h) rest) cluster ->
  (exists k, k ∈ cluster /\ end_ k = e) -> apart (cluster ++ rest) ->
  Forall (fun k => side k = s) cl'.
Proof.
  induction rest as [|h rest IH]; intros st e cluster cl' e' rest' Hg Hs Hb Hc (k & Hk & Hke) Hap; cbn [grow] in Hg.
  - injection Hg as <- <- <-. eapply Forall_impl; [exact Hc|]. by intros ? [].
  - inversion_clear Hs as [|? ? Hs' Hf]. apply Forall_cons in Hb as [Hh Hb].
    destruct (_ || _ || _) eqn:Et.
    + assert (start h <= e) as Hle.
      { apply orb_true_iff in Et as [[Et|Et]%orb_true_iff|Et]; case_tests; lia. }
      assert (side k = s /\ start k <= start h) as [Hks Hkh].
      { eapply Forall_forall in Hc as [Hks Hkh%Forall_cons]; [|exact Hk]. naive_solver. }
      assert (side h = s) as Hhs.
      { destruct (decide (side h = s)) as [|Hn]; [done|]. exfalso.
        destruct (Hap k h); [set_solver|set_solver|congruence|lia|lia]. }
      eapply IH; [exact Hg|done|done| | |by rewrite <- app_assoc].
      * apply Forall_app. split.
        -- eapply Forall_impl; [exact Hc|]. by intros ? [? [_ ?]%Forall_cons].
        -- constructor; [|constructor]. split; [done|]. eapply Forall_impl; [exact Hf|]. intros ? ?%hunk_le_start. done.
      * destruct (Z.max_spec e (end_ h)) as [[_ ->]|[_ ->]]; [exists h|exists k]; set_solver.
    + injection Hg as <- <- <-. eapply Forall_impl; [exact Hc|]. by intros ? [].
Qed.

Lemma has_side_side s hs : Forall (fun k => side k = s) hs -> forall s', has_side s' hs = true -> s' = s.
Proof.
  intros Hf s' (h & Hh & Hd)%existsb_exists. apply bool_decide_eq_true in Hd.
  eapply Forall_forall in Hf; [|by apply list_elem_of_In]. congruence.
Qed.

Lemma has_side_false s hs : has_side s hs = false -> of_side s hs = [].
Proof.
  unfold has_side, of_side. induction hs as [|h hs IH]; simpl; [done|].
  intros [H1 H2]%orb_false_iff. apply bool_decide_eq_false in H1.
  rewrite filter_cons_False by done. by apply IH.
Qed.

(** ** Pieces: what the merge does, span by span *)

Inductive Kind := Keep | CurOnly | IncOnly | Both.

(** A span of the base and what each writer made of it. *)
Record Piece := mkPiece {
  p_kind : Kind;
  p_base : list Z;
  p_cur : list Z;
  p_inc : list Z }.

Definition piece_ok (p : Piece) : Prop :=
  match p_kind p with
  | Keep => p_cur p = p_base p /\ p_inc p = p_base p
  | CurOnly => p_inc p = p_base p
  | IncOnly => p_cur p = p_base p
  | Both => True
  end.

Definition render (p : Piece) : list Z :=
  match p_kind p with
  | Keep => p_base p
  | CurOnly => p_cur p
  | IncOnly => p_inc p
  | Both => if decide (p_cur p = p_inc p) then p_cur p else p_cur p ++ p_inc p
  end.

Definition conflict (p : Piece) : bool :=
  match p_kind p with
  | Both => bool_decide (p_cur p <> p_inc p) && bool_decide (p_base p <> [])
  | _ => false
  end.

(** Where the renderings of the conflicting pieces lie, measured by [w]. *)
Fixpoint conflict_spans (w : list Z -> Z) (pos : Z) (ps : list Piece) : list (Z * Z) :=
  match ps with
  | [] => []
  | p :: ps' =>
      let pos' := pos + w (render p) in
      (if conflict p then [(pos, pos')] else []) ++ conflict_spans w pos' ps'
  end.

Definition bases (ps : list Piece) : list Z := ps ≫= p_base.
Definition curs (ps : list Piece) : list Z := ps ≫= p_cur.
Definition incs (ps : list Piece) : list Z := ps ≫= p_inc.
Definition rendered (ps : list Piece) : list Z := ps ≫= render.

Definition side_text (s : Side) (p : Piece) : list Z :=
  match s with Current => p_cur p | Incoming => p_inc p end.

(** One cluster is one piece. *)
Lemma render_cluster_piece base cluster st e :
  (forall s, chain st (of_side s cluster) e) -> cluster <> [] -> 0 <= st <= e -> e <= len base ->
  exists p, piece_ok p /\ p_base p = seg base st e /\
    (forall s, side_text s p = patch base st (of_side s cluster) e) /\
    (p_kind p = Both -> forall s, has_side s cluster = true) /\
    render_cluster base cluster st e = Some (render p, conflict p).
Proof.
  intros Hch Hne Hst He.
  set (cur := patch base st (of_side Current cluster) e).
  set (inc := patch base st (of_side Incoming cluster) e).
  assert (forall s, has_side s cluster = false -> patch base st (of_side s cluster) e = seg base st e) as Hno
    by (intros s Hs; by rewrite (has_side_false _ _ Hs)).
  assert (forall s, variant cluster s base st e = Some (patch base st (of_side s cluster) e)) as Hv
    by (intros s; apply variant_patch; [done|lia|done]).
  unfold render_cluster. rewrite !Hv. fold cur inc. simpl.
  destruct (has_side Current cluster) eqn:Ec, (has_side Incoming cluster) eqn:Ei; simpl.
  - exists (mkPiece Both (seg base st e) cur inc). split_and!; [done|done|by intros []|by intros _ []|].
    unfold render, conflict. simpl. destruct (decide (cur = inc)) as [Heq|Hne'].
    + rewrite bool_decide_eq_false_2 by naive_solver. done.
    + rewrite bool_decide_eq_true_2 by done. simpl. do 2 f_equal.
      pose proof (len_seg base st e ltac:(lia) He) as Hl.
      destruct (st <? e) eqn:E; case_tests.
      * symmetry. apply bool_decide_eq_true. intros Hn. rewrite Hn, len_nil in Hl. lia.
      * symmetry. apply bool_decide_eq_false. intros []. apply len_zero_nil. lia.
  - exists (mkPiece CurOnly (seg base st e) cur inc).
    split_and!; [by unfold piece_ok; simpl; apply (Hno Incoming)|done|by intros []|done|done].
  - exists (mkPiece IncOnly (seg base st e) cur inc).
    split_and!; [by unfold piece_ok; simpl; apply (Hno Current)|done|by intros []|done|done].
  - exfalso. destruct cluster as [|h cluster]; [done|]. unfold has_side in Ec, Ei. simpl in Ec, Ei.
    by destruct (side h).
Qed.

Lemma seg_piece base p st : piece_ok (mkPiece Keep (seg base p st) (seg base p st) (seg base p st)).
Proof. done. Qed.

(** The merge loop, from base position [copied] on. *)
Lemma merge_loop_pieces base fuel : forall all copied out conflicts,
  (length all <= fuel)%nat -> StronglySorted hunk_le all ->
  (forall s, chain copied (of_side s all) (len base)) -> 0 <= copied ->
  exists ps,
    merge_loop fuel base all copied out conflicts =
      Some (out ++ rendered ps, conflicts ++ conflict_spans len (len out) ps) /\
    Forall piece_ok ps /\ bases ps = seg base copied (len base) /\
    (forall s, (ps ≫= side_text s) = patch base copied (of_side s all) (len base)) /\
    (apart all -> Forall (fun p => p_kind p <> Both) ps).
Proof.
  induction fuel as [|fuel IH]; intros [|h rest] copied out conflicts Hf Hs Hch H0; simpl in Hf; try lia.
  1,2: simpl; pose proof (Hch Current) as Hc; simpl in Hc; rewrite seg_slice by lia; simpl;
    exists [mkPiece Keep (seg base copied (len base)) (seg base copied (len base)) (seg base copied (len base))];
    unfold rendered, bases; simpl; rewrite !app_nil_r;
    (split_and!; [done|by constructor|done|by intros []; simpl; rewrite app_nil_r|by repeat constructor]).
  simpl. destruct (grow (start h) (end_ h) [h] rest) as [[cluster e] rest'] eqn:Eg.
  inversion_clear Hs as [|? ? Hs' Hle].
  assert (Forall (fun k => copied <= start k /\ start k <= end_ k /\ end_ k <= len base) (h :: rest)) as Hb.
  { apply Forall_forall. intros k Hk. destruct (chain_bounds _ _ _ (Hch (side k))) as [_ Hb].
    eapply Forall_forall in Hb; [exact Hb|]. by apply list_elem_of_filter. }
  apply Forall_cons in Hb as [Hhb Hb].
  assert (apart (h :: rest) -> Forall (fun k => side k = side h) cluster) as Hone.
  { intros Hap. eapply (grow_apart (side h)); [exact Eg|done| | | |exact Hap].
    - eapply Forall_impl; [exact Hb|]. simpl. lia.
    - constructor; [|constructor]. split; [done|]. eapply Forall_impl; [exact Hle|]. by intros ? ?%hunk_le_start.
    - exists h. split; [by left|done]. }
  apply grow_spec in Eg as (taken & -> & -> & He & Hin & Hout & Hmax); [|done| | |lia].
  2: { apply Forall_forall. intros k Hk. eapply Forall_forall in Hb; [|exact Hk].
       eapply Forall_forall in Hle; [|exact Hk]. apply hunk_le_start in Hle. lia. }
  2: { constructor; [lia|constructor]. }
  assert (e <= len base) as Hen.
  { apply Hmax; [lia|]. eapply Forall_impl; [exact Hb|]. simpl. lia. }
  assert (forall s, of_side s (h :: taken ++ rest') = of_side s (h :: taken) ++ of_side s rest') as Hsplit
    by (intros s; unfold of_side; by rewrite <- filter_app).
  assert (forall s (P : Hunk -> Prop) l, Forall P l -> Forall P (of_side s l)) as Hfilt.
  { intros s P l HP. apply Forall_forall. intros k [_ Hk]%list_elem_of_filter. by eapply Forall_forall in HP. }
  assert (forall s, chain (start h) (of_side s (h :: taken)) e) as HC.
  { intros s. eapply (chain_within copied _ (of_side s rest') (len base)); [|by apply Hfilt|lia].
    rewrite <- Hsplit. apply Hch. }
  assert (forall s, chain e (of_side s rest') (len base)) as HR.
  { intros s. eapply (chain_rest copied (of_side s (h :: taken))); [|by apply Hfilt|done].
    rewrite <- Hsplit. apply Hch. }
  rewrite seg_slice by lia. simpl.
  destruct (render_cluster_piece base (h :: taken) (start h) e HC) as (p & Hp & Hpb & Hps & Hpk & ->); [done|lia|done|].
  simpl. destruct (IH rest' e ((out ++ seg base copied (start h)) ++ render p)
    (if conflict p then conflicts ++ [(len (out ++ seg base copied (start h)),
       len (out ++ seg base copied (start h)) + len (render p))] else conflicts))
    as (ps & -> & Hok & Hbs & Hsd & Hkd); [rewrite length_app in Hf; lia| |done|lia|].
  { clear -Hs'. induction taken as [|k taken IHt]; [done|]. inversion_clear Hs' as [|? ? Hs0 _]. auto. }
  exists (mkPiece Keep (seg base copied (start h)) (seg base copied (start h)) (seg base copied (start h)) :: p :: ps).
  unfold rendered, bases in *. rewrite !bind_cons. split_and!.
  - f_equal. f_equal; [by rewrite <- !app_assoc|]. cbn [conflict_spans]. simpl.
    unfold render at 2 4. simpl. rewrite !len_app. destruct (conflict p); by rewrite <- ?app_assoc.
  - constructor; [done|]. by constructor.
  - simpl. rewrite Hpb, Hbs, <- (seg_app base (start h) e) by lia. symmetry. apply seg_app; lia.
  - intros s. rewrite !bind_cons, Hsd, Hps, Hsplit, (patch_split base copied (start h) e) by (done || lia).
    by destruct s.
  - intros Hap. constructor; [done|]. constructor.
    + intros HB. pose proof (has_side_side _ _ (Hone Hap)) as Hsd'.
      pose proof (Hsd' Current (Hpk HB Current)). pose proof (Hsd' Incoming (Hpk HB Incoming)). congruence.
    + apply Hkd. intros k l Hk Hl. apply Hap; set_solver.
Qed.

(** ** Byte offsets *)

Lemma byte_at_nth bytes l k :
  znth (byte_at bytes (l ++ k)) (len l) = Some (bytes + utf8_len l).
Proof.
  revert bytes. induction l as [|c l IH]; intros bytes.
  - rewrite len_nil. unfold utf8_len. simpl. rewrite Z.add_0_r. by destruct k.
  - change (byte_at bytes ((c :: l) ++ k)) with ([bytes] ++ byte_at (bytes + len_utf8 c) (l ++ k)).
    rewrite znth_app_r by (rewrite !len_cons; pose proof (len_nonneg l); rewrite len_nil; lia).
    rewrite !len_cons, len_nil. replace (1 + len l - (1 + 0)) with (len l) by lia.
    rewrite IH. unfold utf8_len. simpl. f_equal. lia.
Qed.

Lemma byte_ranges_spans pre ps rest :
  byte_ranges (byte_at 0 (pre ++ rendered ps ++ rest)) (conflict_spans len (len pre) ps) =
  Some (conflict_spans utf8_len (utf8_len pre) ps).
Proof.
  revert pre. induction ps as [|p ps IH]; intros pre; [done|].
  unfold rendered. rewrite bind_cons. fold (rendered ps). cbn [conflict_spans].
  specialize (IH (pre ++ render p)). rewrite len_app, utf8_len_app, <- !app_assoc in IH.
  rewrite <- app_assoc. destruct (conflict p); [|exact IH]. simpl.
  rewrite (byte_at_nth 0 pre). simpl.
  pose proof (byte_at_nth 0 (pre ++ render p) (rendered ps ++ rest)) as Hn.
  rewrite len_app, utf8_len_app, <- app_assoc in Hn. rewrite Hn. simpl. rewrite IH. done.
Qed.

(** ** The merge as a whole *)

(** [ps] cuts the three texts into corresponding spans, and [o] renders it. *)
Record merged_as (base current incoming : list Z) (o : MergeOutcome) (ps : list Piece) : Prop := {
  ma_ok : Forall piece_ok ps;
  ma_base : bases ps = base;
  ma_cur : curs ps = current;
  ma_inc : incs ps = incoming;
  ma_text : text o = rendered ps;
  ma_ranges : conflict_ranges o = conflict_spans utf8_len 0 ps;
  ma_count : conflicting_spans o = len (conflict_ranges o) }.

Lemma merged_single base current incoming k :
  piece_ok (mkPiece k base current incoming) -> conflict (mkPiece k base current incoming) = false ->
  merged_as base current incoming (mkOutcome (render (mkPiece k base current incoming)) 0 [])
    [mkPiece k base current incoming].
Proof.
  intros Hok Hc. split; try done; unfold bases, curs, incs, rendered; simpl; rewrite ?app_nil_r; try done.
  - by constructor.
  - by rewrite Hc.
Qed.

Lemma conflict_spans_len (w v : list Z -> Z) ps : forall p q, len (conflict_spans w p ps) = len (conflict_spans v q ps).
Proof.
  induction ps as [|x ps IH]; intros p q; [done|]. cbn [conflict_spans].
  rewrite !len_app, (IH _ (q + v (render x))). by destruct (conflict x).
Qed.

Section merge.
Context `{!Similar Z, !SimilarLaws Z}.

Lemma hunks_chain base other s :
  exists hs, hunks base other s = Some hs /\ chain 0 hs (len base) /\ Forall (fun h => side h = s) hs /\
    patch base 0 hs (len base) = other.
Proof.
  pose proof (len_nonneg base). pose proof (len_nonneg other).
  destruct (hunks_script base other s (capture_diff base other) 0 0) as (hs & Hh & Hc & Hs & Hp);
    [apply capture_diff_script|lia..|].
  exists hs. split_and!; [done|done|done|]. by rewrite Hp, zdrop_le0.
Qed.

Lemma sorted_sides (base : list Z) hc hi :
  chain 0 hc (len base) -> Forall (fun h => side h = Current) hc ->
  chain 0 hi (len base) -> Forall (fun h => side h = Incoming) hi ->
  forall s, of_side s (sort_hunks (hc ++ hi)) = match s with Current => hc | Incoming => hi end.
Proof.
  intros Hcc Hsc Hci Hsi s. rewrite of_side_sort. unfold of_side. rewrite filter_app.
  fold (of_side s hc) (of_side s hi). destruct s.
  - rewrite (of_side_all Current hc), (of_side_none Current Incoming hi), app_nil_r by done.
    apply sort_id. by eapply chain_sorted.
  - rewrite (of_side_none Incoming Current hc), (of_side_all Incoming hi) by done. simpl.
    apply sort_id. by eapply chain_sorted.
Qed.

Lemma merge_pieces base current incoming :
  base <> current -> current <> incoming -> base <> incoming ->
  exists o ps hc hi, three_way_merge base current incoming = Some o /\ merged_as base current incoming o ps /\
    hunks base current Current = Some hc /\ hunks base incoming Incoming = Some hi /\
    (apart (hc ++ hi) -> Forall (fun p => p_kind p <> Both) ps).
Proof.
  intros H1 H2 H3. unfold three_way_merge. rewrite decide_False, decide_False by naive_solver.
  destruct (hunks_chain base current Current) as (hc & Hhc & Hcc & Hsc & Hpc).
  destruct (hunks_chain base incoming Incoming) as (hi & Hhi & Hci & Hsi & Hpi).
  rewrite Hhc, Hhi. cbn [mbind option_bind]. cbv zeta. pose proof (sorted_sides base hc hi Hcc Hsc Hci Hsi) as Hside.
  set (all := sort_hunks (hc ++ hi)) in *.
  destruct (merge_loop_pieces base (length all) all 0 [] []) as (ps & Hm & Hok & Hb & Hs & Hk);
    [done|apply sort_sorted| |done|]; [intros s; rewrite Hside; by destruct s|].
  pose proof (byte_ranges_spans [] ps []) as Hr. rewrite app_nil_r in Hr.
  cbn [mbind option_bind app] in *. rewrite Hm. cbn [mbind option_bind app]. rewrite len_nil in *. rewrite Hr.
  eexists _, ps, hc, hi. split; [done|]. split_and!; [|done|done|].
  - pose proof (Hs Current) as Hcur. pose proof (Hs Incoming) as Hinc. rewrite Hside in Hcur, Hinc.
    split; simpl; try done.
    + by rewrite Hb, seg_all.
    + by rewrite <- Hpc.
    + by rewrite <- Hpi.
    + apply conflict_spans_len.
  - intros Hap. apply Hk. intros h k Hh Hk'. apply Hap; by apply elem_of_sort.
Qed.
End merge.

(** ** Checkbox repair *)

Lemma skip_spaces_app l s r :
  skip_spaces l = (s, r) ->
  l = s ++ r /\ Forall (fun c => is_js_space_char c = true) s /\
  match r with c :: _ => is_js_space_char c = false | [] => True end.
Proof.
  revert s r. induction l as [|c l IH]; intros s r; simpl; [by intros [= <- <-]|].
  destruct (is_js_space_char c) eqn:E; [|intros [= <- <-]; done].
  destruct (skip_spaces l) as [s' r'] eqn:Es. intros [= <- <-].
  destruct (IH _ _ eq_refl) as (-> & Hf & Hr). split; [done|]. split; [by constructor|done].
Qed.

Lemma skip_spaces_intro s r :
  Forall (fun c => is_js_space_char c = true) s ->
  match r with c :: _ => is_js_space_char c = false | [] => True end -> skip_spaces (s ++ r) = (s, r).
Proof.
  induction 1 as [|c s Hc _ IH]; intros Hr; simpl.
  - destruct r as [|c r]; simpl; [done|]. by rewrite Hr.
  - by rewrite Hc, (IH Hr).
Qed.

Lemma scan_close_app l ms r :
  scan_close l = Some (ms, r) -> l = ms ++ 0x5d :: r /\ Forall (fun c => is_marker_char c = true) ms.
Proof.
  revert ms. induction l as [|c l IH]; intros ms; simpl; [done|]. destruct (c =? 0x5d) eqn:E.
  - case_tests. intros [= <- <-]. subst. split; [done|constructor].
  - destruct (is_marker_char c) eqn:Em; [|done]. intros ([ms' r'] & Hs & [= <- <-])%bind_Some.
    destruct (IH _ Hs) as [-> Hf]. split; [done|by constructor].
Qed.

(** A line with a doubled marker, and the line it is reduced to. *)
Record doubled (line fixed : list Z) (run : Z * Z) (pre : list Z) (first : Z) (ms post : list Z) : Prop := {
  db_line : line = pre ++ [0x5b; first] ++ ms ++ [0x5d] ++ post;
  db_pre : exists s1 b s2, pre = s1 ++ [b] ++ s2 /\ (b = 0x2d \/ b = 0x2a) /\
    Forall (fun c => is_js_space_char c = true) (s1 ++ s2);
  db_markers : Forall (fun c => is_marker_char c = true) (first :: ms);
  db_many : ms <> [];
  db_fixed : fixed = pre ++ [0x5b; first; 0x5d] ++ post;
  db_run : run = (utf8_len pre, utf8_len (pre ++ [0x5b; first] ++ ms ++ [0x5d])) }.

Lemma collapse_doubled line fixed run :
  collapse_marker line = Some (fixed, run) ->
  exists pre first ms post, doubled line fixed run pre first ms post.
Proof.
  unfold collapse_marker. destruct (skip_spaces line) as [s1 r1] eqn:E1.
  apply skip_spaces_app in E1 as (-> & Hs1 & _). destruct r1 as [|b r2]; [done|].
  destruct ((b =? 0x2d) || (b =? 0x2a)) eqn:Eb; [|done].
  destruct (skip_spaces r2) as [s2 r3] eqn:E2. apply skip_spaces_app in E2 as (-> & Hs2 & _).
  destruct r3 as [|o [|first r4]]; try done. destruct (o =? 0x5b) eqn:Eo; [|done]. simpl.
  destruct (is_marker_char first) eqn:Ef; [|done]. simpl.
  intros ([ms post] & Hsc & H)%bind_Some. apply scan_close_app in Hsc as [-> Hms].
  destruct (len ms + 1 <? 2) eqn:El; [done|]. case_tests. subst o. injection H as <- <-.
  exists (s1 ++ [b] ++ s2), first, ms, post. split.
  - by rewrite <- !app_assoc.
  - exists s1, b, s2. split; [done|]. split; [|by apply Forall_app].
    apply orb_true_iff in Eb as [?|?]; case_tests; auto.
  - by constructor.
  - intros ->. rewrite len_nil in El. lia.
  - by rewrite <- !app_assoc.
  - rewrite !utf8_len_app. unfold utf8_len. simpl. change (len_utf8 93) with 1. f_equal; lia.
Qed.

Lemma marker_scan l : Forall (fun c => is_marker_char c = true) l -> forall c, c ∈ l -> (c =? 0x5d) = false.
Proof.
  intros Hl c Hc. eapply Forall_forall in Hl; [|exact Hc]. destruct (c =? 0x5d) eqn:E; [|done].
  case_tests. by subst.
Qed.

Lemma doubled_fixed_point line fixed run pre first ms post :
  doubled line fixed run pre first ms post -> collapse_marker fixed = None.
Proof.
  intros [_ (s1 & b & s2 & -> & Hb & [Hs1 Hs2]%Forall_app) [Hf _]%Forall_cons _ -> _].
  unfold collapse_marker. rewrite <- !app_assoc.
  rewrite (skip_spaces_intro s1) by (done || by destruct Hb as [-> | ->]). simpl.
  assert ((b =? 0x2d) || (b =? 0x2a) = true) as -> by (by destruct Hb as [-> | ->]).
  rewrite (skip_spaces_intro s2) by done. simpl. by rewrite Hf.
Qed.

Lemma collapse_intro line fixed run pre first ms post :
  doubled line fixed run pre first ms post -> collapse_marker line = Some (fixed, run).
Proof.
  intros [-> (s1 & b & s2 & -> & Hb & [Hs1 Hs2]%Forall_app) [Hf Hms]%Forall_cons Hmany -> ->].
  unfold collapse_marker. rewrite <- !app_assoc.
  rewrite (skip_spaces_intro s1) by (done || by destruct Hb as [-> | ->]). simpl.
  assert ((b =? 0x2d) || (b =? 0x2a) = true) as -> by (by destruct Hb as [-> | ->]).
  rewrite (skip_spaces_intro s2) by done. simpl. rewrite Hf. simpl.
  assert (scan_close (ms ++ 0x5d :: post) = Some (ms, post)) as ->.
  { clear Hmany. induction Hms as [|c ms Hc Hms IH]; simpl; [done|].
    assert ((c =? 0x5d) = false) as -> by (eapply (marker_scan [c]); [by constructor|by left]).
    by rewrite Hc, IH. }
  simpl. assert (2 <= len ms + 1).
  { destruct ms; [done|]. rewrite len_cons. pose proof (len_nonneg ms). lia. }
  solve_test. rewrite !utf8_len_app. unfold utf8_len. simpl. rewrite sum_with_app. simpl.
  rewrite <- !app_assoc. f_equal. f_equal. rewrite sum_with_app. simpl. change (len_utf8 93) with 1. f_equal; lia.
Qed.

(** What the repair makes of a line that starts at byte [pos]. *)
Definition line_repair (conflicts : list (Z * Z)) (pos : Z) (line line' : list Z) : Prop :=
  (line' = line /\
   forall fixed run pre first ms post, doubled line fixed run pre first ms post ->
     Forall (fun c => overlaps (pos + run.1, pos + run.2) c = false) conflicts) \/
  (line' <> line /\ collapse_marker line' = None /\
   exists run pre first ms post, doubled line line' run pre first ms post /\
     Exists (fun c => overlaps (pos + run.1, pos + run.2) c = true) conflicts).

Definition changed (p : list Z * list Z) : bool := negb (bool_decide (p.1 = p.2)).

Lemma doubled_changes line fixed run pre first ms post :
  doubled line fixed run pre first ms post -> fixed <> line.
Proof.
  intros [-> _ _ Hm -> _] Heq. apply app_inv_head in Heq. injection Heq as Heq.
  apply (f_equal length) in Heq. rewrite length_app in Heq. simpl in Heq.
  destruct ms; [done|]. simpl in Heq. lia.
Qed.

Lemma repair_line conflicts pos line ls n :
  let '(r, m) := match collapse_marker line with
    | Some (fixed, (a, b)) =>
        if existsb (overlaps (pos + a, pos + b)) conflicts
        then (fixed :: ls, n + 1) else (line :: ls, n)
    | None => (line :: ls, n)
    end in
  exists line', r = line' :: ls /\ line_repair conflicts pos line line' /\
    m = n + if changed (line, line') then 1 else 0.
Proof.
  unfold changed. simpl.
  destruct (collapse_marker line) as [[fixed [a b]]|] eqn:Ec; [destruct (existsb _ conflicts) eqn:Ex|].
  - apply collapse_doubled in Ec as (pre & first & ms & post & Hd). exists fixed.
    pose proof (doubled_changes _ _ _ _ _ _ _ Hd). rewrite bool_decide_eq_false_2 by done.
    split_and!; [done| |done]. right. split_and!; [done|by eapply doubled_fixed_point|].
    exists (a, b), pre, first, ms, post. split; [done|]. apply Exists_exists.
    apply existsb_exists in Ex as (c & Hc & Ho). exists c. by rewrite list_elem_of_In.
  - exists line. rewrite bool_decide_eq_true_2 by done. split_and!; [done| |simpl; lia]. left. split; [done|].
    intros * Hd%collapse_intro. rewrite Ec in Hd. injection Hd as <- <-.
    apply Forall_forall. intros c Hc. apply not_true_iff_false. intros Ho.
    apply not_true_iff_false in Ex. apply Ex, existsb_exists. exists c. by rewrite <- list_elem_of_In.
  - exists line. rewrite bool_decide_eq_true_2 by done. split_and!; [done| |simpl; lia]. left. split; [done|].
    intros * Hd%collapse_intro. congruence.
Qed.

Lemma repair_lines_spec conflicts lines : forall pos,
  let '(ls, n) := repair_lines conflicts pos lines in
  length ls = length lines /\ n = count changed (zip lines ls) /\
  forall i line, lines !! i = Some line -> exists line', ls !! i = Some line' /\
    line_repair conflicts (pos + utf8_len (before (take i lines))) line line'.
Proof.
  induction lines as [|line lines IH]; intros pos; cbn [repair_lines]; [by split_and!|].
  specialize (IH (pos + utf8_len line + 1)).
  destruct (repair_lines conflicts (pos + utf8_len line + 1) lines) as [ls n].
  destruct IH as (Hl & Hn & Hi). pose proof (repair_line conflicts pos line ls n) as Hr.
  destruct (match collapse_marker line with Some _ => _ | None => _ end) as [r m].
  destruct Hr as (line' & -> & Hrep & ->). split_and!.
  - simpl. by rewrite Hl.
  - rewrite Hn. unfold count. simpl. destruct (changed (line, line')); [rewrite len_cons|]; lia.
  - intros [|i] l; cbn [lookup list_lookup take].
    + intros [= <-]. exists line'. split; [done|]. unfold utf8_len. simpl. by rewrite Z.add_0_r.
    + intros H. destruct (Hi _ _ H) as (l' & H' & Hlr). exists l'. split; [done|].
      rewrite before_cons, !utf8_len_app.
      replace (utf8_len [0x0a]) with 1 by done. by rewrite !Z.add_assoc.
Qed.

Lemma repair_lines_nil lines : forall pos, repair_lines [] pos lines = (lines, 0).
Proof.
  induction lines as [|l lines IH]; intros pos; cbn [repair_lines]; [done|]. rewrite IH.
  by destruct (collapse_marker l) as [[? [? ?]]|].
Qed.

Lemma no_both_no_conflict w ps : forall pos,
  Forall (fun p => p_kind p <> Both) ps -> conflict_spans w pos ps = [].
Proof.
  induction ps as [|p ps IH]; intros pos; [done|]. intros [Hp Hps]%Forall_cons. cbn [conflict_spans].
  rewrite IH by done. unfold conflict. by destruct (p_kind p).
Qed.

(** * Properties *)



(** Where no edit of one writer touches an edit of the other, the merge is clean:
    every span of the three texts is kept or takes the one writer's change, so both
    writers' edits are applied in full, and nothing is reported as a conflict. *)
Theorem three_way_merge_disjoint `{!Similar Z, !SimilarLaws Z} (base current incoming : list Z) (hc hi : list Hunk) :
  current <> incoming -> hunks base current Current = Some hc -> hunks base incoming Incoming = Some hi ->
  apart (hc ++ hi) ->
  exists o ps, three_way_merge base current incoming = Some o /\ merged_as base current incoming o ps /\
    Forall (fun p => p_kind p <> Both) ps /\ conflict_ranges o = [] /\ conflicting_spans o = 0.
Proof.
  intros Hne Hc Hi Hap.
  assert (exists o ps, three_way_merge base current incoming = Some o /\ merged_as base current incoming o ps /\
    Forall (fun p => p_kind p <> Both) ps) as (o & ps & Hm & Ha & Hk).
  { destruct (decide (base = current)) as [->|]; [|destruct (decide (base = incoming)) as [->|]].
    - eexists _, [mkPiece IncOnly current current incoming].
      split; [|split; [by apply merged_single|by repeat constructor]].
      unfold three_way_merge. by rewrite decide_True by auto.
    - eexists _, [mkPiece CurOnly incoming current incoming].
      split; [|split; [by apply merged_single|by repeat constructor]].
      unfold three_way_merge. by rewrite decide_False, decide_True by naive_solver.
    - destruct (merge_pieces base current incoming) as (o & ps & hc' & hi' & Hm & Ha & Hc' & Hi' & Hk); [done..|].
      exists o, ps. split_and!; [done|done|]. apply Hk.
      rewrite Hc in Hc'. rewrite Hi in Hi'. by simplify_eq. }
  exists o, ps. destruct Ha. assert (conflict_ranges o = []) as Hr by (rewrite ma_ranges0; by apply no_both_no_conflict).
  split_and!; [done|done|done|done|]. by rewrite ma_count0, Hr.
Qed.

Lemma three_way_merge_disjoint_witness :
  exists o ps, @three_way_merge positional [1; 2; 3] [9; 2; 3] [1; 2; 8] = Some o /\
    merged_as [1; 2; 3] [9; 2; 3] [1; 2; 8] o ps /\
    Forall (fun p => p_kind p <> Both) ps /\ conflict_ranges o = [] /\ conflicting_spans o = 0.
Proof.
  eapply (@three_way_merge_disjoint positional positional_laws [1; 2; 3] [9; 2; 3] [1; 2; 8]
    [mkHunk 0 1 Current [9]] [mkHunk 2 3 Incoming [8]]); [done|reflexivity|reflexivity|].
  intros h k Hh Hk. simpl in Hh, Hk.
  apply list_elem_of_In in Hh, Hk. destruct Hh as [<-|[<-|[]]], Hk as [<-|[<-|[]]]; simpl; (done || lia || auto with lia).
Defined.

(** The checkbox repair works line by line: a line is rewritten exactly when it is
    a bullet whose box holds two or more marker characters and whose box overlaps a
    conflict; it then keeps the first marker, needs no further repair, and every other
    line is untouched.  The count is the number of rewritten lines. *)
Theorem repair_checkbox_markers_lines (merged : list Z) (conflicts : list (Z * Z)) :
  exists ls n, repair_checkbox_markers merged conflicts = (join_lines ls, n) /\
    length ls = length (split_lines merged) /\
    n = count changed (zip (split_lines merged) ls) /\
    forall i line, split_lines merged !! i = Some line -> exists pre post line',
      merged = pre ++ line ++ post /\ ls !! i = Some line' /\
      line_repair conflicts (utf8_len pre) line line'.
Proof.
  destruct (split_join merged) as [Hj _].
  assert (exists ls n, repair_checkbox_markers merged conflicts = (join_lines ls, n) /\
    repair_lines conflicts 0 (split_lines merged) = (ls, n)) as (ls & n & Hr & Hl).
  { unfold repair_checkbox_markers. destruct conflicts as [|c conflicts].
    - exists (split_lines merged), 0. rewrite Hj. split; [done|]. apply repair_lines_nil.
    - destruct (repair_lines _ 0 _) as [ls n]. by eexists _, _. }
  exists ls, n. pose proof (repair_lines_spec conflicts (split_lines merged) 0) as Hs. rewrite Hl in Hs.
  destruct Hs as (Hlen & Hn & Hi). split_and!; [done|done|done|].
  intros i line H. destruct (Hi _ _ H) as (line' & Hl' & Hlr). destruct (before_line _ _ _ H) as [post Hp].
  exists (before (take i (split_lines merged))), post, line'. split_and!; [by rewrite <- Hp|done|exact Hlr].
Qed.
