(* ===== verification/LineAttribution.v ===== *)
(** * Line attribution ([crates/intent-services/src/line_attribution.rs])

    Which stored version of a note last changed each of its lines, and the payload
    [compute_and_persist_line_attribution] ([lib.rs]) makes of it.  Texts are lists of
    Unicode scalar values; the line diff is that of [Diff], on trimmed lines.  The
    loops over versions and lines are proved equal to a declarative reading of the
    diffs. *)
From stdpp Require Import prelude gmap strings.
From S2P Require Import Prelude.
From S2P Require Import Text.
From S2P Require Import Json.
From S2P Require Import Diff.

(** ** Versions and attributions *)

Record NoteVersionAuthor := mkAuthor {
  author_id : string;
  name : string;
  author_type : string }.

Record NoteVersion := mkVersion {
  entry_type : string;
  v : Z;
  date : string;
  author : NoteVersionAuthor;
  title : string;
  content : list Z }.

Record LineAttribution := mkLine {
  line_number : Z;
  line_content : list Z;
  version : option NoteVersion;
  is_whitespace_only : bool }.

(** ** Aligning two contents *)

Definition split_lines_js (s : list Z) : list (list Z) := split_lines s.

Definition normalize (content : list Z) : list Z :=
  match content with
  | [] => []
  | _ => if decide (last content = Some 0x0a) then content else content ++ [0x0a]
  end.

(** The locals of the loop of [build_line_mapping]. *)
Record Cursor := mkCursor {
  mapping : list (option Z);
  version_idx : Z;
  current_idx : Z }.

(** [if current_idx < mapping.len() { mapping[current_idx] = x }] *)
Definition set_mapping (c : Cursor) (x : option Z) : list (option Z) :=
  if current_idx c <? len (mapping c)
  then <[Z.to_nat (current_idx c) := x]> (mapping c) else mapping c.

Fixpoint equal_run (n : nat) (c : Cursor) : Cursor :=
  match n with
  | O => c
  | S n' =>
      equal_run n' (mkCursor (set_mapping c (Some (version_idx c + 1)))
                             (version_idx c + 1) (current_idx c + 1))
  end.

Fixpoint insert_run (n : nat) (c : Cursor) : Cursor :=
  match n with
  | O => c
  | S n' => insert_run n' (mkCursor (set_mapping c None) (version_idx c) (current_idx c + 1))
  end.

Definition mapping_op (c : Cursor) (op : DiffOp) : Cursor :=
  match op with
  | DEqual _ _ n => equal_run (Z.to_nat n) c
  | DDelete _ n _ => mkCursor (mapping c) (version_idx c + n) (current_idx c)
  | DInsert _ _ n => insert_run (Z.to_nat n) c
  | DReplace _ n _ m => insert_run (Z.to_nat m) (mkCursor (mapping c) (version_idx c + n) (current_idx c))
  end.

Definition build_line_mapping `{!Similar (list Z)} (version_content current_content : list Z) : list (option Z) :=
  let v_lines := split_lines_js (normalize version_content) in
  let c_lines := split_lines_js (normalize current_content) in
  let ops := capture_diff (trim <$> v_lines) (trim <$> c_lines) in
  mapping (foldl mapping_op (mkCursor (replicate (length c_lines) None) 0 0) ops).

Definition is_whitespace_only_change (version_line current_line : list Z) : bool :=
  bool_decide (trim version_line = trim current_line) && negb (bool_decide (version_line = current_line)).

(** ** Walking the versions *)

(** [m.get(i).copied().flatten()] *)
Definition get_flat (m : list (option Z)) (i : Z) : option Z := mjoin (znth m i).

(** [lines.get(n.saturating_sub(1)).copied().unwrap_or("")] *)
Definition get_line (lines : list (list Z)) (n : Z) : list Z :=
  default [] (znth lines (saturating_sub n 1)).

(** [was_changed_in_this_version] and [is_whitespace_change]; [None] where
    [version_line_num - 1] underflows. *)
Definition changed (prev_version : option NoteVersion) (version_to_prev : option (list (option Z)))
    (prev_version_lines : list (list Z)) (version_line_num : Z) (version_line : list Z) : option (bool * bool) :=
  match prev_version with
  | None => Some (true, false)
  | Some _ =>
      match version_to_prev with
      | None => Some (false, false)
      | Some v2p =>
          k ← checked_sub version_line_num 1;
          match get_flat v2p k with
          | None => Some (true, false)
          | Some pl =>
              let prev_line := get_line prev_version_lines pl in
              if decide (version_line = prev_line) then Some (false, false)
              else if decide (trim version_line = trim prev_line) then Some (false, true)
              else Some (true, false)
          end
      end
  end.

(** The body of the loop over [current_lines], at index [i]. *)
Definition attribute_line (ver : NoteVersion) (prev_version : option NoteVersion)
    (current_to_version : list (option Z)) (version_to_prev : option (list (option Z)))
    (version_lines prev_version_lines : list (list Z)) (i : Z) (current_line : list Z)
    (a : LineAttribution) : option LineAttribution :=
  if decide (is_Some (version a)) then Some a
  else
    match get_flat current_to_version i with
    | None => Some a
    | Some version_line_num =>
        let version_line := get_line version_lines version_line_num in
        '(was_changed, whitespace) ←
          changed prev_version version_to_prev prev_version_lines version_line_num version_line;
        Some (if (was_changed : bool) then mkLine (line_number a) (line_content a) (Some ver) (is_whitespace_only a)
              else if whitespace && bool_decide (version a = None)
              then mkLine (line_number a) (line_content a) (version a) true
              else if bool_decide (prev_version = None) && bool_decide (version a = None)
              then mkLine (line_number a) (line_content a) (Some ver)
                     (is_whitespace_only_change version_line current_line)
              else a)
    end.

Fixpoint visit_lines (body : Z -> list Z -> LineAttribution -> option LineAttribution) (i : Z)
    (current_lines : list (list Z)) (attributions : list LineAttribution) : option (list LineAttribution) :=
  match current_lines, attributions with
  | l :: ls, a :: as_ =>
      a' ← body i l a; rest ← visit_lines body (i + 1) ls as_; Some (a' :: rest)
  | _, _ => Some attributions
  end.

(** [for v in (0..versions.len()).rev()]: the versions newest first, each with the one
    before it. *)
Fixpoint walk_versions `{!Similar (list Z)} (current_content : list Z) (current_lines : list (list Z))
    (newest_first : list NoteVersion) (attributions : list LineAttribution) : option (list LineAttribution) :=
  match newest_first with
  | [] => Some attributions
  | ver :: older =>
      let prev_version := head older in
      let current_to_version := build_line_mapping (content ver) current_content in
      let version_to_prev := (fun pv => build_line_mapping (content pv) (content ver)) <$> prev_version in
      let version_lines := split_lines_js (content ver) in
      let prev_version_lines := default [] ((fun pv => split_lines_js (content pv)) <$> prev_version) in
      attributions' ←
        visit_lines (attribute_line ver prev_version current_to_version version_to_prev
                       version_lines prev_version_lines) 0 current_lines attributions;
      walk_versions current_content current_lines older attributions'
  end.

Definition attribute_lines `{!Similar (list Z)} (current_content : list Z) (versions : list NoteVersion)
    : option (list LineAttribution) :=
  let current_lines := split_lines_js current_content in
  if bool_decide (current_lines = []) ||
     ((len current_lines =? 1) && bool_decide (head current_lines = Some [])) then Some []
  else
    let attributions := imap (fun i line => mkLine (Z.of_nat i + 1) line None false) current_lines in
    match versions with
    | [] => Some attributions
    | _ => walk_versions current_content current_lines (reverse versions) attributions
    end.

(** ** The payload *)

Record LineAttributionAuthor := mkLineAuthor {
  la_id : string;
  la_name : string;
  la_author_type : string;
  turn_number : option Z }.

Record LineAttributionInfo := mkInfo {
  timestamp : Z;
  info_author : option LineAttributionAuthor }.

(** The nanoseconds [parse_iso] (the [time] crate) reads from a timestamp. *)
Class ParseIso := { parse_iso_nanos : string -> option Z }.

Definition i64_max : Z := 2 ^ 63 - 1.

Definition iso_to_epoch_ms `{!ParseIso} (iso : string) : Z :=
  default 0 (ns ← parse_iso_nanos iso;
             let ms := Z.quot ns 1000000 in
             if (- i64_max - 1 <=? ms) && (ms <=? i64_max) then Some ms else None).

(** [line_number.to_string()] *)
Definition line_key (n : Z) : string := dec_string (Z.to_N n).

(** The [LineAttributionInfo] of a version. *)
Definition version_info `{!ParseIso} (ver : NoteVersion) : LineAttributionInfo :=
  mkInfo (iso_to_epoch_ms (date ver))
    (Some (mkLineAuthor (author_id (author ver)) (name (author ver)) (author_type (author ver)) None)).

(** The loop that fills [map], a [BTreeMap]. *)
Definition attribution_entry `{!ParseIso} (map : gmap string LineAttributionInfo) (attr : LineAttribution)
    : gmap string LineAttributionInfo :=
  match version attr with
  | None => map
  | Some ver => <[line_key (line_number attr) := version_info ver]> map
  end.

(** [compute_and_persist_line_attribution] between the reads of the store and its
    writes. *)
Definition compute_attributions `{!Similar (list Z), !ParseIso} (note_content : list Z) (versions : list NoteVersion)
    : option (gmap string LineAttributionInfo) :=
  attributions ← attribute_lines note_content versions;
  Some (foldl attribution_entry ∅ attributions).

(** ** The declarative reading *)

(** The operation of a script that keeps position [i] of the new slice, and the
    position of the old slice it keeps there. *)
Fixpoint aligned (ops : list DiffOp) (i : Z) : option Z :=
  match ops with
  | [] => None
  | DEqual oi nj n :: ops' =>
      if (nj <=? i) && (i <? nj + n) then Some (oi + (i - nj)) else aligned ops' i
  | _ :: ops' => aligned ops' i
  end.

(** The line of [old] that line [i] of [new] (both from 0) is, by their diff. *)
Definition kept_as `{!Similar (list Z)} (old new : list Z) (i : Z) : option Z :=
  aligned (capture_diff (trim <$> split_lines (normalize old)) (trim <$> split_lines (normalize new))) i.

(** Line [j] of a content; past the end, the empty line after a final newline. *)
Definition line_at (text : list Z) (j : Z) : list Z := default [] (znth (split_lines text) j).

(** Version [k] has line [i] of the content, and the version before it does not have
    that line of version [k]. *)
Definition introduces `{!Similar (list Z)} (versions : list NoteVersion) (text : list Z) (i : Z) (k : nat)
    (ver : NoteVersion) : Prop :=
  versions !! k = Some ver /\
  exists j, kept_as (content ver) text i = Some j /\
    forall p prev, k = S p -> versions !! p = Some prev -> kept_as (content prev) (content ver) j = None.

(** Version [k] has line [i] of the content and took it, re-indented, from the version
    before it. *)
Definition reindents `{!Similar (list Z)} (versions : list NoteVersion) (text : list Z) (i : Z) (k : nat) : Prop :=
  exists ver p prev j j', k = S p /\ versions !! k = Some ver /\ versions !! p = Some prev /\
    kept_as (content ver) text i = Some j /\ kept_as (content prev) (content ver) j = Some j' /\
    line_at (content ver) j <> line_at (content prev) j'.

(** ** Scripts and cursors *)

Lemma set_mapping_spec c x :
  0 <= current_idx c < len (mapping c) ->
  len (set_mapping c x) = len (mapping c) /\
  forall i, znth (set_mapping c x) i = if i =? current_idx c then Some x else znth (mapping c) i.
Proof.
  intros Hc. unfold set_mapping. solve_tests. unfold len. rewrite length_insert. split; [done|].
  intros i. unfold znth, len in *. destruct (Z.eqb_spec i (current_idx c)) as [->|Hne].
  - solve_tests. apply list_lookup_insert_eq. lia.
  - destruct (0 <=? i) eqn:E; [|done]. case_tests. rewrite list_lookup_insert_ne by lia. done.
Qed.

Lemma equal_run_spec n : forall c,
  0 <= current_idx c -> current_idx c + Z.of_nat n <= len (mapping c) ->
  let c' := equal_run n c in
  len (mapping c') = len (mapping c) /\ version_idx c' = version_idx c + Z.of_nat n /\
  current_idx c' = current_idx c + Z.of_nat n /\
  forall i, znth (mapping c') i =
    if (current_idx c <=? i) && (i <? current_idx c + Z.of_nat n)
    then Some (Some (version_idx c + (i - current_idx c) + 1)) else znth (mapping c) i.
Proof.
  induction n as [|n IH]; intros c H0 Hn; cbn [equal_run].
  - split_and!; [done|lia|lia|]. intros i. destruct (_ && _) eqn:E; [case_tests; lia|done].
  - destruct (set_mapping_spec c (Some (version_idx c + 1)) ltac:(lia)) as [Hl Hs].
    destruct (IH (mkCursor (set_mapping c (Some (version_idx c + 1))) (version_idx c + 1) (current_idx c + 1)))
      as (Hl' & Hv & Hi & Hz); [cbn; lia..|]. cbn in Hl', Hv, Hi, Hz.
    split_and!; [congruence|rewrite Hv; lia|rewrite Hi; lia|]. intros i. rewrite Hz, Hs.
    destruct (Z.eqb_spec i (current_idx c)) as [->|]; [solve_tests; do 2 f_equal; lia|].
    destruct (_ && _) eqn:E; case_tests.
    + solve_tests. do 2 f_equal. lia.
    + destruct ((current_idx c <=? i) && _) eqn:E'; [|done]. exfalso.
      apply andb_false_iff in E as [E|E]; case_tests; lia.
Qed.

Lemma insert_run_spec n : forall c,
  0 <= current_idx c -> current_idx c + Z.of_nat n <= len (mapping c) ->
  let c' := insert_run n c in
  len (mapping c') = len (mapping c) /\ version_idx c' = version_idx c /\
  current_idx c' = current_idx c + Z.of_nat n /\
  forall i, znth (mapping c') i =
    if (current_idx c <=? i) && (i <? current_idx c + Z.of_nat n) then Some None else znth (mapping c) i.
Proof.
  induction n as [|n IH]; intros c H0 Hn; cbn [insert_run].
  - split_and!; [done|lia|lia|]. intros i. destruct (_ && _) eqn:E; [case_tests; lia|done].
  - destruct (set_mapping_spec c None ltac:(lia)) as [Hl Hs].
    destruct (IH (mkCursor (set_mapping c None) (version_idx c) (current_idx c + 1)))
      as (Hl' & Hv & Hi & Hz); [cbn; lia..|]. cbn in Hl', Hv, Hi, Hz.
    split_and!; [congruence|done|rewrite Hi; lia|]. intros i. rewrite Hz, Hs.
    destruct (Z.eqb_spec i (current_idx c)) as [->|]; [by solve_tests|].
    destruct (_ && _) eqn:E; case_tests; [by solve_tests|].
    destruct ((current_idx c <=? i) && _) eqn:E'; [|done]. exfalso.
    apply andb_false_iff in E as [E|E]; case_tests; lia.
Qed.

(** A script mentions no position it starts after. *)
Lemma aligned_before {A} (a b : list A) i : forall ops vi ci,
  script a b vi ci ops -> i < ci -> aligned ops i = None.
Proof.
  induction ops as [|[oi nj n|oi n nj|oi nj n|oi n nj m] ops IH]; intros vi ci Hs Hi; [done|..];
    cbn [script aligned] in *; destruct_and! Hs; subst; [solve_tests; simpl|..]; eapply IH; eauto; lia.
Qed.

Lemma znth_seg {A} (a : list A) i j m : 0 <= i <= j -> 0 <= m < j - i -> znth (seg a i j) m = znth a (i + m).
Proof.
  intros. unfold znth, seg, ztake, zdrop. solve_tests. rewrite lookup_take_lt, lookup_drop by lia.
  f_equal. lia.
Qed.

Lemma aligned_same {A} (a b : list A) i k : forall ops vi ci,
  script a b vi ci ops -> 0 <= vi -> 0 <= ci -> aligned ops i = Some k ->
  0 <= k < len a /\ 0 <= i < len b /\ znth a k = znth b i.
Proof.
  induction ops as [|[oi nj n|oi n nj|oi nj n|oi n nj m] ops IH]; intros vi ci Hs H0 H1 Hi; [done|..];
    cbn [script aligned] in *; destruct_and! Hs; subst; [|eapply IH; eauto; lia..].
  destruct (_ && _) eqn:E; [|eapply IH; eauto; lia].
  case_tests. injection Hi as <-. split_and!; try lia.
  rewrite <- (znth_seg a vi (vi + n)) by lia. replace i with (ci + (i - ci)) at 2 by lia.
  rewrite <- (znth_seg b ci (ci + n)) by lia. congruence.
Qed.

Lemma mapping_fold {A} (a b : list A) : forall ops c,
  script a b (version_idx c) (current_idx c) ops -> 0 <= version_idx c -> 0 <= current_idx c ->
  len (mapping c) = len b ->
  forall i, znth (mapping (foldl mapping_op c ops)) i =
    if i <? current_idx c then znth (mapping c) i
    else if i <? len b then Some ((fun k => k + 1) <$> aligned ops i) else None.
Proof.
  induction ops as [|op ops IH]; intros c Hs H0 H1 Hl i; cbn [foldl].
  { destruct Hs as [_ Hc]. rewrite Hc. destruct (Z.ltb_spec i (len b)); [done|]. apply znth_None. lia. }
  destruct op as [oi nj n|oi n nj|oi nj n|oi n nj m]; cbn [script aligned mapping_op] in *; destruct_and! Hs; subst.
  - destruct (equal_run_spec (Z.to_nat n) c) as (Hl' & Hv & Hi & Hz); [lia..|].
    rewrite Z2Nat.id in Hv, Hi, Hz by lia.
    rewrite IH; rewrite ?Hv, ?Hi; try done; try lia. rewrite Hz.
    destruct (Z.ltb_spec i (current_idx c)).
    + by solve_tests.
    + destruct (Z.ltb_spec i (current_idx c + n)); [|by solve_tests].
      solve_tests. done.
  - rewrite IH; cbn; try done; lia.
  - destruct (insert_run_spec (Z.to_nat n) c) as (Hl' & Hv & Hi & Hz); [lia..|].
    rewrite Z2Nat.id in Hi, Hz by lia.
    rewrite IH; rewrite ?Hv, ?Hi; try done; try lia. rewrite Hz.
    destruct (Z.ltb_spec i (current_idx c)); [by solve_tests|].
    destruct (Z.ltb_spec i (current_idx c + n)); solve_tests; [|done].
    by erewrite aligned_before by (done || lia).
  - set (c1 := mkCursor (mapping c) (version_idx c + n) (current_idx c)).
    destruct (insert_run_spec (Z.to_nat m) c1) as (Hl' & Hv & Hi & Hz); [cbn; lia..|].
    rewrite Z2Nat.id in Hi, Hz by lia. cbn in Hl', Hv, Hi, Hz.
    rewrite IH; rewrite ?Hv, ?Hi; try done; try lia. rewrite Hz.
    destruct (Z.ltb_spec i (current_idx c)); [by solve_tests|].
    destruct (Z.ltb_spec i (current_idx c + m)); solve_tests; [|done].
    by erewrite aligned_before by (done || lia).
Qed.

(** ** Lines of normalized contents *)

Lemma split_lines_snoc text : split_lines (text ++ [0x0a]) = split_lines text ++ [[]].
Proof.
  induction text as [|c text IH]; [done|]. cbn [app split_lines]. rewrite IH.
  destruct (c =? 0x0a); [done|]. pose proof (proj2 (split_join text)).
  by destruct (split_lines text).
Qed.

Lemma normalized_lines text :
  split_lines (normalize text) = split_lines text \/ split_lines (normalize text) = split_lines text ++ [[]].
Proof.
  unfold normalize. destruct text; [by left|]. destruct (decide _); [by left|right]. apply split_lines_snoc.
Qed.

Lemma line_at_normalized text j l : znth (split_lines (normalize text)) j = Some l -> line_at text j = l.
Proof.
  unfold line_at. destruct (normalized_lines text) as [->| ->]; [by intros ->|].
  destruct (Z.lt_ge_cases j (len (split_lines text))) as [Hj|Hj].
  - rewrite znth_app_l by done. by intros ->.
  - rewrite znth_app_r by done. rewrite (proj2 (znth_None (split_lines text) j)) by lia.
    unfold znth. destruct (0 <=? _); [|done]. destruct (Z.to_nat _) as [|[|]]; by intros [= <-].
Qed.

Section diffs.
Context `{!Similar (list Z), !SimilarLaws (list Z)}.
Implicit Types (old new text : list Z) (versions older : list NoteVersion) (ver prev w : NoteVersion).

Lemma build_line_mapping_spec old new i :
  get_flat (build_line_mapping old new) i = (fun k => k + 1) <$> kept_as old new i.
Proof.
  unfold get_flat, build_line_mapping, kept_as, split_lines_js.
  pose proof (capture_diff_script (trim <$> split_lines (normalize old)) (trim <$> split_lines (normalize new))) as Hs.
  set (a := trim <$> split_lines (normalize old)) in *.
  set (b := trim <$> split_lines (normalize new)) in *. set (ops := capture_diff a b) in *.
  rewrite (mapping_fold a b _ (mkCursor _ 0 0)); cbn; try done.
  2: { unfold len, b. by rewrite length_replicate, length_fmap. }
  destruct (Z.ltb_spec i 0).
  - erewrite aligned_before by done. rewrite (proj2 (znth_None _ _)) by lia. done.
  - destruct (Z.ltb_spec i (len b)); [done|].
    destruct (aligned ops i) eqn:E; [|done]. eapply (aligned_same a b) in E; [lia|done..].
Qed.

Lemma kept_same old new i j :
  kept_as old new i = Some j -> 0 <= j /\ trim (line_at old j) = trim (line_at new i).
Proof.
  unfold kept_as. intros Hk. eapply aligned_same in Hk as (Hj & Hi & He); [|apply capture_diff_script|done..].
  split; [lia|]. destruct (znth_ok _ _ Hi) as [x Hx]. rewrite Hx in He.
  assert (forall text k y, znth (trim <$> split_lines (normalize text)) k = Some y -> trim (line_at text k) = y) as Hat.
  { intros text k y. unfold znth. destruct (0 <=? k) eqn:Ek; [|done]. rewrite list_lookup_fmap.
    destruct (_ !! _) as [l|] eqn:El; [|done]. intros [= <-]. f_equal. apply line_at_normalized.
    unfold znth. by rewrite Ek. }
  by rewrite (Hat _ _ _ He), (Hat _ _ _ Hx).
Qed.

(** ** One line through the versions *)

(** What [attribute_line] does with the line at [i], on the diffs themselves. *)
Definition blame_step (ver : NoteVersion) (older : list NoteVersion) (text : list Z) (i : Z)
    (a : LineAttribution) : LineAttribution :=
  let found := mkLine (line_number a) (line_content a) (Some ver) (is_whitespace_only a) in
  match version a, kept_as (content ver) text i with
  | Some _, _ | _, None => a
  | None, Some j =>
      match head older with
      | None => found
      | Some prev =>
          match kept_as (content prev) (content ver) j with
          | None => found
          | Some j' =>
              if decide (line_at (content ver) j = line_at (content prev) j') then a
              else mkLine (line_number a) (line_content a) None true
          end
      end
  end.

Fixpoint blame (newest_first : list NoteVersion) (text : list Z) (i : Z) (a : LineAttribution) : LineAttribution :=
  match newest_first with
  | [] => a
  | ver :: older => blame older text i (blame_step ver older text i a)
  end.

Lemma get_line_at text j : 0 <= j -> get_line (split_lines text) (j + 1) = line_at text j.
Proof. intros. unfold get_line, line_at, saturating_sub. do 2 f_equal. lia. Qed.

Lemma attribute_line_step ver older text i line a :
  attribute_line ver (head older) (build_line_mapping (content ver) text)
    ((fun pv => build_line_mapping (content pv) (content ver)) <$> head older) (split_lines_js (content ver))
    (default [] ((fun pv => split_lines_js (content pv)) <$> head older)) i line a =
  Some (blame_step ver older text i a).
Proof.
  unfold attribute_line, blame_step. destruct a as [n l [w|] ws]; cbn [version line_number line_content is_whitespace_only].
  { by rewrite decide_True by eauto. }
  rewrite decide_False by (intros []; done). rewrite build_line_mapping_spec.
  destruct (kept_as (content ver) text i) as [j|] eqn:Hj; [|done]. cbn [fmap option_fmap option_map].
  destruct (kept_same _ _ _ _ Hj) as [Hj0 _]. unfold split_lines_js. rewrite get_line_at by done.
  destruct (head older) as [prev|]; cbn [changed fmap option_fmap option_map default]; [|done].
  unfold checked_sub. solve_tests. replace (j + 1 - 1) with j by lia.
  rewrite build_line_mapping_spec. destruct (kept_as (content prev) (content ver) j) as [j'|] eqn:Hj'; [|done].
  cbn [fmap option_fmap option_map]. destruct (kept_same _ _ _ _ Hj') as [Hj0' Ht]. rewrite get_line_at by done.
  destruct (decide _); [done|]. by rewrite decide_True by done.
Qed.


Lemma visit_lines_total body f : (forall i l a, body i l a = Some (f i a)) ->
  forall ls attrs i, length ls = length attrs ->
  visit_lines body i ls attrs = Some (imap (fun n a => f (i + Z.of_nat n) a) attrs).
Proof.
  intros Hb. induction ls as [|l ls IH]; intros [|a attrs] i Hl; try done.
  cbn [visit_lines]. rewrite Hb. cbn. rewrite IH by (simpl in Hl; lia). cbn.
  rewrite Z.add_0_r. do 2 f_equal. apply imap_ext. intros n x _. cbn. f_equal. lia.
Qed.

Lemma walk_versions_blame text lines newest_first : forall attrs,
  length lines = length attrs ->
  walk_versions text lines newest_first attrs = Some (imap (fun n a => blame newest_first text (Z.of_nat n) a) attrs).
Proof.
  induction newest_first as [|ver older IH]; intros attrs Hl; cbn [walk_versions blame].
  { f_equal. apply list_eq. intros n. rewrite list_lookup_imap. by destruct (attrs !! n). }
  erewrite visit_lines_total by (done || intros; apply attribute_line_step). cbn [mbind option_bind].
  rewrite IH by (rewrite length_imap; done). f_equal.
  apply list_eq. intros n. rewrite !list_lookup_imap. by destruct (attrs !! n).
Qed.

Lemma blame_found newest_first text i : forall a, is_Some (version a) -> blame newest_first text i a = a.
Proof.
  induction newest_first as [|ver older IH]; intros a Ha; cbn [blame]; [done|].
  assert (blame_step ver older text i a = a) as ->; [|by apply IH].
  unfold blame_step. by destruct Ha as [w ->].
Qed.

Lemma attribute_lines_blame text versions : text <> [] ->
  attribute_lines text versions =
  Some (imap (fun n a => blame (reverse versions) text (Z.of_nat n) a)
          (imap (fun i line => mkLine (Z.of_nat i + 1) line None false) (split_lines text))).
Proof.
  intros Hne. unfold attribute_lines, split_lines_js. pose proof (split_join text) as [Hj Hl].
  rewrite bool_decide_eq_false_2 by done.
  assert ((len (split_lines text) =? 1) && bool_decide (head (split_lines text) = Some []) = false) as ->.
  { apply andb_false_iff. destruct (split_lines text) as [|l [|l' ls]]; [done|right|left].
    - apply bool_decide_eq_false. intros [= ->]. by apply Hne.
    - rewrite !len_cons. pose proof (len_nonneg ls). lia. }
  cbn [orb]. rewrite <- (walk_versions_blame text (split_lines text)) by (by rewrite length_imap). by destruct versions.
Qed.

(** ** Versions with one more at the end *)

(** No version from index [k] on introduces the line. *)
Definition none_from (versions : list NoteVersion) (text : list Z) (i : Z) (k : nat) : Prop :=
  forall k' w, (k <= k')%nat -> ~ introduces versions text i k' w.

Lemma introduces_bound versions text i k ver : introduces versions text i k ver -> (k < length versions)%nat.
Proof. intros [H _]. by apply lookup_lt_Some in H. Qed.

Lemma introduces_older versions text i k ver w : (k < length versions)%nat ->
  introduces (versions ++ [w]) text i k ver <-> introduces versions text i k ver.
Proof.
  intros Hk. unfold introduces. rewrite lookup_app_l by done.
  assert (forall p prev, k = S p -> (versions ++ [w]) !! p = Some prev <-> versions !! p = Some prev) as Hp.
  { intros p prev ->. by rewrite lookup_app_l by lia. }
  split; intros (Hv & j & Hj & Hn); (split; [done|]; exists j; split; [done|]); intros p prev Hkp Hl;
    eapply Hn; eauto; by eapply Hp.
Qed.

Lemma introduces_newest versions text i ver w :
  introduces (versions ++ [w]) text i (length versions) ver <->
  ver = w /\ exists j, kept_as (content w) text i = Some j /\
    forall prev, last versions = Some prev -> kept_as (content prev) (content w) j = None.
Proof.
  unfold introduces. rewrite list_lookup_middle by done. split.
  - intros ([= <-] & j & Hj & Hn). split; [done|]. exists j. split; [done|]. intros prev Hl.
    rewrite last_lookup in Hl. pose proof (lookup_lt_Some _ _ _ Hl).
    apply (Hn (pred (length versions))); [lia|]. by rewrite lookup_app_l by done.
  - intros (-> & j & Hj & Hn). split; [done|]. exists j. split; [done|]. intros p prev Hp Hl.
    apply Hn. rewrite last_lookup, Hp. rewrite lookup_app_l in Hl by lia. done.
Qed.

Lemma reindents_older versions text i k w : (k < length versions)%nat ->
  reindents (versions ++ [w]) text i k <-> reindents versions text i k.
Proof.
  intros Hk. unfold reindents. setoid_rewrite (lookup_app_l versions [w] k Hk).
  split; intros (ver & p & prev & j & j' & -> & Hv & Hp & H); exists ver, p, prev, j, j';
    (split_and!; [done|done| |apply H..]); rewrite lookup_app_l in * by lia; done.
Qed.

Lemma reindents_newest versions text i w :
  reindents (versions ++ [w]) text i (length versions) <->
  exists prev j j', last versions = Some prev /\ kept_as (content w) text i = Some j /\
    kept_as (content prev) (content w) j = Some j' /\ line_at (content w) j <> line_at (content prev) j'.
Proof.
  unfold reindents. rewrite list_lookup_middle by done. split.
  - intros (ver & p & prev & j & j' & Hk & [= <-] & Hp & H). exists prev, j, j'. split; [|done].
    rewrite last_lookup, Hk. rewrite lookup_app_l in Hp by lia. done.
  - intros (prev & j & j' & Hl & H). rewrite last_lookup in Hl. pose proof (lookup_lt_Some _ _ _ Hl).
    exists w, (pred (length versions)), prev, j, j'. split_and!; [lia|done| |apply H..].
    by rewrite lookup_app_l by done.
Qed.

Lemma reindents_bound versions text i k : reindents versions text i k -> (k < length versions)%nat.
Proof. intros (ver & _ & _ & _ & _ & _ & H & _). by apply lookup_lt_Some in H. Qed.

Lemma none_from_older versions text i k w :
  (forall ver, ~ introduces (versions ++ [w]) text i (length versions) ver) ->
  none_from (versions ++ [w]) text i k <-> none_from versions text i k.
Proof.
  intros Hno. split; intros H k' ver Hk' Hi.
  - pose proof (introduces_bound _ _ _ _ _ Hi). eapply H; [done|]. by apply introduces_older.
  - pose proof (introduces_bound _ _ _ _ _ Hi) as Hb. rewrite length_app in Hb. simpl in Hb.
    destruct (decide (k' = length versions)) as [->|]; [by eapply Hno|].
    eapply H; [done|]. eapply introduces_older; [lia|done].
Qed.

Lemma blame_step_cases versions text i w a : version a = None ->
  let a' := blame_step w (reverse versions) text i a in
  (introduces (versions ++ [w]) text i (length versions) w /\
   a' = mkLine (line_number a) (line_content a) (Some w) (is_whitespace_only a)) \/
  ((forall ver, ~ introduces (versions ++ [w]) text i (length versions) ver) /\
   version a' = None /\ line_number a' = line_number a /\ line_content a' = line_content a /\
   (is_whitespace_only a' = true <->
    is_whitespace_only a = true \/ reindents (versions ++ [w]) text i (length versions))).
Proof.
  intros Ha. unfold blame_step. rewrite Ha, head_reverse. setoid_rewrite introduces_newest.
  rewrite reindents_newest. destruct (kept_as (content w) text i) as [j|] eqn:Hj; [|right; naive_solver].
  destruct (last versions) as [prev|]; [|left; naive_solver].
  destruct (kept_as (content prev) (content w) j) as [j'|] eqn:Hj'; [|left; naive_solver].
  right. destruct (decide _); naive_solver.
Qed.

Lemma blame_spec text i versions : forall a, version a = None ->
  let a' := blame (reverse versions) text i a in
  line_number a' = line_number a /\ line_content a' = line_content a /\
  match version a' with
  | Some ver => exists k, introduces versions text i k ver /\ none_from versions text i (S k)
  | None => none_from versions text i 0
  end /\
  (is_whitespace_only a' = true <->
   is_whitespace_only a = true \/ exists k, reindents versions text i k /\ none_from versions text i k).
Proof.
  induction versions as [|w versions IH] using rev_ind; intros a Ha a'; subst a'.
  { cbn. rewrite Ha. split_and!; [done|done|by intros k w _ [? _]|].
    split; [by left|]. intros [?|(k & Hr & _)]; [done|]. by apply reindents_bound in Hr; simpl in Hr; lia. }
  rewrite reverse_snoc. cbn [blame].
  destruct (blame_step_cases versions text i w a Ha) as [[Hi Hs]|(Hno & Hv & Hn & Hc & Hw)].
  - rewrite Hs, blame_found by done. cbn. split_and!; [done|done| |].
    + exists (length versions). split; [done|]. intros k' ver Hk Hi'. apply introduces_bound in Hi'.
      rewrite length_app in Hi'. simpl in Hi'. lia.
    + split; [by left|]. intros [?|(k & Hr & Hnf)]; [done|]. apply reindents_bound in Hr.
      rewrite length_app in Hr. simpl in Hr. exfalso. eapply Hnf; [|done]. lia.
  - destruct (IH _ Hv) as (IHn & IHc & IHv & IHw). rewrite IHn, IHc. split_and!; [done|done| |].
    + destruct (version (blame _ _ _ _)) as [ver|].
      * destruct IHv as (k & Hi & Hnf). exists k. rewrite none_from_older by done. split; [|done].
        apply introduces_older; [|done]. by apply introduces_bound in Hi.
      * by rewrite none_from_older by done.
    + rewrite IHw, Hw. setoid_rewrite (fun k => none_from_older versions text i k w Hno). split.
      * intros [[?|Hr]|(k & Hr & Hnf)]; [by left|right..].
        -- exists (length versions). split; [done|]. intros k' ver Hk Hi. apply introduces_bound in Hi. lia.
        -- exists k. split; [|done]. apply reindents_older; [|done]. by apply reindents_bound in Hr.
      * intros [?|(k & Hr & Hnf)]; [by left; left|]. destruct (decide (k = length versions)) as [->|]; [by left; right|].
        right. exists k. split; [|done]. pose proof (reindents_bound _ _ _ _ Hr) as Hb. rewrite length_app in Hb.
        simpl in Hb. eapply reindents_older; [lia|done].
Qed.
End diffs.

(** ** The payload *)

Lemma line_key_inj a b : 0 <= a -> 0 <= b -> line_key a = line_key b -> a = b.
Proof.
  intros Ha Hb E. pose proof (dec_parse_string (Z.max a b) (Z.to_N a) ltac:(lia)) as Pa.
  pose proof (dec_parse_string (Z.max a b) (Z.to_N b) ltac:(lia)) as Pb.
  unfold line_key in E. rewrite E in Pa. rewrite Pa in Pb. injection Pb. lia.
Qed.

Lemma payload_lookup `{!ParseIso} attrs key info : forall m n0,
  (forall i a, attrs !! i = Some a -> line_number a = n0 + Z.of_nat i) -> 0 <= n0 ->
  (forall n, n0 <= n -> m !! line_key n = None) ->
  foldl attribution_entry m attrs !! key = Some info <->
  m !! key = Some info \/
  exists i a ver, attrs !! i = Some a /\ version a = Some ver /\ key = line_key (n0 + Z.of_nat i) /\ info = version_info ver.
Proof.
  induction attrs as [|a attrs IH]; intros m n0 Hn H0 Hm; cbn [foldl].
  { split; [by left|]. intros [?|(i & ? & ? & [=] & _)]. done. }
  pose proof (Hn 0%nat a eq_refl) as Ha. rewrite Z.add_0_r in Ha.
  rewrite (IH _ (n0 + 1)); [|intros i b Hb; rewrite (Hn (S i) b Hb); lia|lia|].
  2: { intros n Hln. unfold attribution_entry. destruct (version a); [|apply Hm; lia].
       rewrite lookup_insert_ne; [apply Hm; lia|]. rewrite Ha. intros E. apply line_key_inj in E; lia. }
  assert (attribution_entry m a !! key = Some info <->
    m !! key = Some info \/ exists ver, version a = Some ver /\ key = line_key n0 /\ info = version_info ver) as ->.
  { unfold attribution_entry. destruct (version a) as [ver|]; [|naive_solver]. rewrite Ha, lookup_insert_Some.
    pose proof (Hm n0 ltac:(lia)). naive_solver. }
  split.
  - intros [[?|(ver & Hv & Hk & Hi)]|(i & b & ver & Hb & Hv & Hk & Hi)]; [by left|right..].
    + exists 0%nat, a, ver. rewrite Z.add_0_r. done.
    + exists (S i), b, ver. split_and!; try done. rewrite Hk. f_equal. lia.
  - intros [?|([|i] & b & ver & Hb & Hv & Hk & Hi)]; [by left; left|..].
    + injection Hb as <-. rewrite Z.add_0_r in Hk. left; right. eauto.
    + right. exists i, b, ver. split_and!; try done. rewrite Hk. f_equal. lia.
Qed.

(** ** Histories for the witnesses *)

Definition snapshot (k : Z) (text : list Z) : NoteVersion :=
  mkVersion "snapshot" k "2024-01-01T10:00:00Z" (mkAuthor "user-1" "Test User" "user") "Test Note" text.

Definition no_dates : ParseIso := {| parse_iso_nanos _ := None |}.

(** "a", then "a" and "b", then the first line indented. *)
Definition history : list NoteVersion :=
  [snapshot 1 [97]; snapshot 2 [97; 0x0a; 98]; snapshot 3 [0x20; 97; 0x0a; 98]].

(** The version numbers and flags of the lines. *)
Definition verdicts (text : list Z) (versions : list NoteVersion) : option (list (option Z * bool)) :=
  option_map (map (fun a => (option_map v (version a), is_whitespace_only a)))
    (@attribute_lines longest_common text versions).

(** * Properties *)

(** [C19] [attribute_lines] never panics and blames the right version, whatever edit
    scripts the diff finds.  It returns one record per line, in order.  A line's version
    is the newest one that introduces it: the diff finds the line in that version, equal
    up to surrounding whitespace, and does not find it in the version before (or there is
    none); a line no version introduces stays unattributed.  The whitespace flag is set
    exactly when a version newer than every introduction re-indented the line.  The
    payload has one entry per attributed line, under its number, with its version's
    author and time. *)
Theorem line_attribution_blames `{!Similar (list Z), !SimilarLaws (list Z), !ParseIso}
    (text : list Z) (versions : list NoteVersion) :
  text <> [] ->
  exists out payload,
    attribute_lines text versions = Some out /\ compute_attributions text versions = Some payload /\
    length out = length (split_lines text) /\
    (forall i line, split_lines text !! i = Some line ->
      exists a, out !! i = Some a /\ line_number a = Z.of_nat i + 1 /\ line_content a = line /\
        match version a with
        | Some ver =>
            exists k j, introduces versions text (Z.of_nat i) k ver /\
              (forall k' w, (k < k')%nat -> ~ introduces versions text (Z.of_nat i) k' w) /\
              kept_as (content ver) text (Z.of_nat i) = Some j /\ trim (line_at (content ver) j) = trim line
        | None => forall k w, ~ introduces versions text (Z.of_nat i) k w
        end /\
        (is_whitespace_only a = true <->
         exists k, reindents versions text (Z.of_nat i) k /\
           forall k' w, (k <= k')%nat -> ~ introduces versions text (Z.of_nat i) k' w)) /\
    (forall key info, payload !! key = Some info <->
      exists i a ver, out !! i = Some a /\ version a = Some ver /\
        key = line_key (Z.of_nat i + 1) /\ info = version_info ver).
Proof.
  intros Hne. set (lines := split_lines text).
  set (attrs := imap (fun i line => mkLine (Z.of_nat i + 1) line None false) lines).
  set (out := imap (fun n a => blame (reverse versions) text (Z.of_nat n) a) attrs).
  assert (attribute_lines text versions = Some out) as Hout by (by apply attribute_lines_blame).
  assert (forall i line, lines !! i = Some line ->
    out !! i = Some (blame (reverse versions) text (Z.of_nat i) (mkLine (Z.of_nat i + 1) line None false))) as Hat.
  { intros i line Hl. unfold out, attrs. by rewrite !list_lookup_imap, Hl. }
  exists out, (foldl attribution_entry ∅ out). split_and!; [done|by unfold compute_attributions; rewrite Hout| | |].
  - unfold out, attrs. by rewrite !length_imap.
  - intros i line Hl. eexists. split; [by apply Hat|].
    destruct (blame_spec text (Z.of_nat i) versions (mkLine (Z.of_nat i + 1) line None false) eq_refl)
      as (Hn & Hc & Hv & Hw). split_and!; [done|done| |].
    + destruct (version _) as [ver|]; [|intros k w; apply Hv; lia]. destruct Hv as (k & Hi & Hnf).
      destruct (proj2 Hi) as (j & Hj & _). exists k, j. split_and!; [done|intros ???; apply Hnf; lia|done|].
      destruct (kept_same _ _ _ _ Hj) as [_ ->]. unfold line_at. rewrite znth_lookup. fold lines. by rewrite Hl.
    + rewrite Hw. split; [by intros [?|?]|by right].
  - intros key info. rewrite (payload_lookup out key info ∅ 1); [|..].
    + rewrite lookup_empty. setoid_rewrite (Z.add_comm 1). split; [by intros [?|?]|by right].
    + intros i a Ha. unfold out, attrs in Ha. rewrite !list_lookup_imap in Ha.
      destruct (lines !! i) as [line|] eqn:El; [|done]. injection Ha as <-.
      destruct (blame_spec text (Z.of_nat i) versions (mkLine (Z.of_nat i + 1) line None false) eq_refl) as (-> & _).
      cbn. lia.
    + lia.
    + done.
Qed.

(** The history of "a", "b" and the indentation: the first line stays with version 1
    and is flagged, the second belongs to version 2. *)
Lemma line_attribution_blames_witness :
  exists out payload,
    @attribute_lines longest_common [0x20; 97; 0x0a; 98] history = Some out /\
    @compute_attributions longest_common no_dates [0x20; 97; 0x0a; 98] history = Some payload /\
    length out = 2%nat /\
    ((fun a => (v <$> version a, is_whitespace_only a)) <$> out) = [(Some 1, true); (Some 2, false)].
Proof.
  destruct (@line_attribution_blames longest_common longest_common_laws no_dates [0x20; 97; 0x0a; 98] history ltac:(done))
    as (out & payload & Ho & Hp & Hl & _). exists out, payload. split_and!; [done|done|done|].
  assert (Some out = @attribute_lines longest_common [0x20; 97; 0x0a; 98] history) as E by done.
  vm_compute in E. by injection E as ->.
Defined.

(** The flag is not the comparison with the attributed version: a line that was indented
    and brought back equals its version and is flagged, and one that differs from its
    version only by an indentation made after the last version is not. *)
Example whitespace_flag_history :
  verdicts [97] [snapshot 1 [97]; snapshot 2 [0x20; 97]; snapshot 3 [97]] = Some [(Some 1, true)] /\
  verdicts [0x20; 97] [snapshot 1 [97]] = Some [(Some 1, false)].
Proof. by vm_compute. Qed.

(** A line that every retained version has can stay unattributed: the diffs with the
    second and the third version keep the line "x", so neither introduces it, and the
    diff with the first keeps "p" and "q" instead. *)
Example unattributed_retained_line :
  let x := 120 in let p := 112 in let q := 113 in
  verdicts [p; 0x0a; q; 0x0a; x]
    [snapshot 1 [x; 0x0a; p; 0x0a; q]; snapshot 2 [x]; snapshot 3 [p; 0x0a; q; 0x0a; x]] =
  Some [(Some 3, false); (Some 3, false); (None, false)].
Proof. by vm_compute. Qed.
