(* ===== verification/DeleteGrace.v ===== *)
(** * Delete grace windows ([crates/intent-services/src/delete_grace.rs])

    The registry of pending deletions as a concurrent machine: callers
    ([schedule_owned], [take_for_cascade], [cancel_owned],
    [take_for_immediate_delete]) and timer tasks advance one lock region or one
    channel operation at a time, in any order, and any caller may be dropped
    between two of its steps.  Results of the store, of spawning and of the
    clocks are part of the event. *)
From stdpp Require Import prelude strings gmap.
From S2P Require Import Prelude.

Definition MAX_UNDO_DELAY_MS : Z := 60000.

Definition clamp_undo_delay_ms (ms : Z) : Z := Z.min ms MAX_UNDO_DELAY_MS.

(** ** Subjects and keys *)

Inductive PendingDeleteSubject :=
| SubjWorkspace (workspace_id : string)
| SubjAgent (workspace_id agent_id : string).

Inductive OwnedKey :=
| KeyWorkspace (workspace_id : string)
| KeyAgent (agent_id : string).

#[global] Instance subject_eq_dec : EqDecision PendingDeleteSubject.
Proof. solve_decision. Defined.

#[global] Instance key_eq_dec : EqDecision OwnedKey.
Proof. solve_decision. Defined.

#[global] Instance key_countable : Countable OwnedKey.
Proof.
  refine (inj_countable'
    (fun k => match k with KeyWorkspace i => inl i | KeyAgent i => inr i end)
    (fun s => match s with inl i => KeyWorkspace i | inr i => KeyAgent i end) _).
  by intros [].
Defined.

Definition subject_key (s : PendingDeleteSubject) : OwnedKey :=
  match s with
  | SubjWorkspace i => KeyWorkspace i
  | SubjAgent _ i => KeyAgent i
  end.

(** ** Attempts, entries, claims

    An attempt, its guard and its timer task are named by the caller that
    created them: a caller creates at most one of each. *)

Inductive PreparationStatus :=
| StPreparing
| StArmed (delete_at : Z)
| StAbandoned.

Record Attempt := mkAttempt {
  subject : PendingDeleteSubject;
  ready : PreparationStatus }.

Record OwnedArmed := mkArmed {
  a_attempt : nat;
  a_delete_at : Z;
  a_guard : option nat;
  a_handle : nat }.

Inductive OwnedEntry :=
| EPreparing (attempt : nat)
| EArmed (armed : OwnedArmed).

Definition entry_attempt (e : OwnedEntry) : nat :=
  match e with EPreparing a => a | EArmed m => a_attempt m end.

Record PendingDeleteClaim := mkClaim {
  c_subject : PendingDeleteSubject;
  c_guard : nat }.

Record PreparationOwner := mkOwner {
  o_attempt : nat;
  o_guard : option nat;
  o_timer : option nat;
  o_armed : bool }.

(** ** Callers *)

Inductive TakeKind := Cascade | Cancel | Immediate.

Inductive DError := DifferentSubject | DidNotArm | AdmissionClosed | StoreError.

Inductive Response :=
| RScheduled (delete_at : Z) (newly_armed : bool)
| RClaim (c : option PendingDeleteClaim)
| RCancelled (b : bool)
| RError (e : DError).

(** Where a caller is suspended. *)
Inductive Task :=
| JWait (attempt : nat)
| PBegin (o : PreparationOwner) (delay : Z)
| PSpawn (o : PreparationOwner) (delay : Z)
| PArm (o : PreparationOwner) (delay : Z)
| PPublish (o : PreparationOwner) (delete_at timer_deadline : Z)
| PMark (o : PreparationOwner) (delete_at timer_deadline : Z)
| PStart (o : PreparationOwner) (delete_at timer_deadline : Z)
| CWait (k : TakeKind) (s : PendingDeleteSubject) (attempt : nat)
| CTake (k : TakeKind) (s : PendingDeleteSubject) (attempt : nat)
| CSettle (c : PendingDeleteClaim)
| CBegin (s : PendingDeleteSubject)
| Finished (r : Response)
| Dropped.

(** ** Timer tasks *)

Inductive StartChannel := Unsent | Sent (deadline : Z) | SenderDropped.

Inductive TimerPhase :=
| PhStarted
| PhSleep (deadline : Z)
| PhClaim
| PhDelete (c : PendingDeleteClaim)
| PhEnd.

Record Timer := mkTimer {
  t_phase : TimerPhase;
  t_start : StartChannel;
  t_aborted : bool }.

(** ** The registry with its callers and timers; [hist] records what happened. *)

Inductive Who := ByTimer | ByTask (tid : nat).

Inductive Ev :=
| HArmed (a : nat) (delete_at timer_deadline : Z)
| HFired (a : nat) (now : Z)
| HClaimed (a : nat) (by_ : Who)
| HSettled (guard : nat)
| HReleased (guard : nat).

Record Registry := mkRegistry {
  entries : gmap OwnedKey OwnedEntry;
  attempts : gmap nat Attempt;
  timers : gmap nat Timer;
  tasks : gmap nat Task;
  next : nat;
  hist : list Ev }.

Definition init : Registry := mkRegistry ∅ ∅ ∅ ∅ 0 [].

Definition set_entries f r := mkRegistry (f (entries r)) (attempts r) (timers r) (tasks r) (next r) (hist r).
Definition set_attempts f r := mkRegistry (entries r) (f (attempts r)) (timers r) (tasks r) (next r) (hist r).
Definition set_timers f r := mkRegistry (entries r) (attempts r) (f (timers r)) (tasks r) (next r) (hist r).
Definition set_task tid t r := mkRegistry (entries r) (attempts r) (timers r) (<[tid := t]> (tasks r)) (next r) (hist r).
Definition log evs r := mkRegistry (entries r) (attempts r) (timers r) (tasks r) (next r) (hist r ++ evs).
Definition spawn_call t r := mkRegistry (entries r) (attempts r) (timers r) (<[next r := t]> (tasks r)) (S (next r)) (hist r).

Definition abort_timer (h : nat) : Registry -> Registry :=
  set_timers (alter (fun t => mkTimer (t_phase t) (t_start t) true) h).

Definition send_replace (a : nat) (s : PreparationStatus) : Registry -> Registry :=
  set_attempts (alter (fun x => mkAttempt (subject x) s) a).

Definition set_phase (a : nat) (p : TimerPhase) : Registry -> Registry :=
  set_timers (alter (fun t => mkTimer p (t_start t) (t_aborted t)) a).

Definition set_start (a : nat) (s : StartChannel) : Registry -> Registry :=
  set_timers (alter (fun t => mkTimer (t_phase t) s (t_aborted t)) a).

(** [OwnedInner::take_armed] for attempt [a]. *)
Definition take_armed (a : nat) (r : Registry) : option (PendingDeleteClaim * nat * Registry) :=
  att ← attempts r !! a;
  let key := subject_key (subject att) in
  match entries r !! key with
  | Some (EArmed m) =>
      if decide (a_attempt m = a) then
        guard ← a_guard m;
        Some (mkClaim (subject att) guard, a_handle m, set_entries (delete key) r)
      else None
  | _ => None
  end.

Definition released (guard : option nat) : list Ev :=
  match guard with Some g => [HReleased g] | None => [] end.

(** The part of [PreparationOwner::drop] that takes the attempt out of the map. *)
Definition drop_entry (a : nat) (att : Attempt) (r : Registry) : Registry :=
  let key := subject_key (subject att) in
  match entries r !! key with
  | Some e =>
      if decide (entry_attempt e = a) then
        let r := set_entries (delete key) r in
        match e with
        | EArmed m => log (released (a_guard m)) (abort_timer (a_handle m) r)
        | EPreparing _ => r
        end
      else r
  | None => r
  end.

(** [PreparationOwner::drop], with the caller's [start] sender. *)
Definition drop_owner (o : PreparationOwner) (r : Registry) : Registry :=
  if o_armed o then r
  else
    match attempts r !! o_attempt o with
    | None => r
    | Some att =>
        let r := drop_entry (o_attempt o) att r in
        let r := match o_timer o with Some h => abort_timer h r | None => r end in
        let r := send_replace (o_attempt o) StAbandoned r in
        set_start (o_attempt o) SenderDropped (log (released (o_guard o)) r)
    end.

(** ** Calls *)

Definition check_subject (att : Attempt) (s : PendingDeleteSubject) : bool :=
  bool_decide (subject att = s).

(** The first lock region of [schedule_owned]. *)
Definition schedule (s : PendingDeleteSubject) (delay : Z) (r : Registry) : Registry :=
  match entries r !! subject_key s ≫= (fun e => attempts r !! entry_attempt e ≫= fun att => Some (e, att)) with
  | Some (e, att) =>
      if check_subject att s then spawn_call (JWait (entry_attempt e)) r
      else spawn_call (Finished (RError DifferentSubject)) r
  | None =>
      let a := next r in
      spawn_call (PBegin (mkOwner a None None false) delay)
        (set_entries <[subject_key s := EPreparing a]>
          (set_attempts <[a := mkAttempt s StPreparing]> r))
  end.

(** What a take that found no claim does next. *)
Definition no_claim (k : TakeKind) (s : PendingDeleteSubject) : Task :=
  match k with
  | Cascade => Finished (RClaim None)
  | Cancel => Finished (RCancelled false)
  | Immediate => CBegin s
  end.

(** [original_attempt] at the start of [take_for_cascade]. *)
Definition start_take (k : TakeKind) (s : PendingDeleteSubject) (r : Registry) : Registry :=
  match entries r !! subject_key s ≫= (fun e => attempts r !! entry_attempt e ≫= fun att => Some (e, att)) with
  | Some (e, att) =>
      if check_subject att s then spawn_call (CWait k s (entry_attempt e)) r
      else spawn_call (Finished (RError DifferentSubject)) r
  | None => spawn_call (no_claim k s) r
  end.

(** [deadline]. *)
Definition deadline (s : PendingDeleteSubject) (r : Registry) : Result (option Z) DError :=
  match entries r !! subject_key s ≫= (fun e => attempts r !! entry_attempt e ≫= fun att => Some (e, att)) with
  | Some (e, att) =>
      if check_subject att s then
        Ok (match e with EPreparing _ => None | EArmed m => Some (a_delete_at m) end)
      else Err DifferentSubject
  | None => Ok None
  end.

(** ** Steps *)

Inductive Outcome := Stuck | Panic | Next (r : Registry).

Inductive Input := Done | Failed | Clock (wall mono : Z).

(** The lock region that arms the entry. *)
Definition arm (tid : nat) (o : PreparationOwner) (delay wall mono : Z) (r : Registry) : Outcome :=
  match attempts r !! o_attempt o with
  | None => Panic
  | Some att =>
      let key := subject_key (subject att) in
      match entries r !! key with
      | Some e =>
          if decide (entry_attempt e = o_attempt o) then
            match o_timer o with
            | None => Panic
            | Some h =>
                let delay := clamp_undo_delay_ms delay in
                let delete_at := wall + delay in
                let timer_deadline := mono + delay in
                Next (set_task tid (PPublish (mkOwner (o_attempt o) None None false) delete_at timer_deadline)
                  (log [HArmed (o_attempt o) delete_at timer_deadline]
                    (set_entries <[key := EArmed (mkArmed (o_attempt o) delete_at (o_guard o) h)]> r)))
            end
          else Panic
      | None => Panic
      end
  end.

(** What a caller that took the claim does with it. *)
Definition claimed (k : TakeKind) (c : PendingDeleteClaim) : Task :=
  match k with
  | Cancel => CSettle c
  | _ => Finished (RClaim (Some c))
  end.

Definition resume (tid : nat) (i : Input) (r : Registry) : Outcome :=
  match tasks r !! tid with
  | Some (JWait a) =>
      match ready <$> attempts r !! a with
      | Some (StArmed d) => Next (set_task tid (Finished (RScheduled d false)) r)
      | Some StAbandoned => Next (set_task tid (Finished (RError DidNotArm)) r)
      | _ => Stuck
      end
  | Some (PBegin o delay) =>
      match i with
      | Done => Next (set_task tid (PSpawn (mkOwner (o_attempt o) (Some tid) (o_timer o) (o_armed o)) delay) r)
      | Failed => Next (set_task tid (Finished (RError StoreError)) (drop_owner o r))
      | _ => Stuck
      end
  | Some (PSpawn o delay) =>
      match i with
      | Done =>
          Next (set_task tid (PArm (mkOwner (o_attempt o) (o_guard o) (Some tid) (o_armed o)) delay)
            (set_timers <[tid := mkTimer PhStarted Unsent false]> r))
      | Failed => Next (set_task tid (Finished (RError AdmissionClosed)) (drop_owner o r))
      | _ => Stuck
      end
  | Some (PArm o delay) =>
      match i with Clock wall mono => arm tid o delay wall mono r | _ => Stuck end
  | Some (PPublish o d t) => Next (set_task tid (PMark o d t) (send_replace (o_attempt o) (StArmed d) r))
  | Some (PMark o d t) =>
      Next (set_task tid (PStart (mkOwner (o_attempt o) (o_guard o) (o_timer o) true) d t) r)
  | Some (PStart o d t) =>
      Next (set_task tid (Finished (RScheduled d true)) (drop_owner o (set_start tid (Sent t) r)))
  | Some (CWait k s a) =>
      match ready <$> attempts r !! a with
      | Some (StArmed _) => Next (set_task tid (CTake k s a) r)
      | Some StAbandoned => Next (set_task tid (no_claim k s) r)
      | _ => Stuck
      end
  | Some (CTake k s a) =>
      match take_armed a r with
      | Some (c, h, r') => Next (set_task tid (claimed k c) (log [HClaimed a (ByTask tid)] (abort_timer h r')))
      | None => Next (set_task tid (no_claim k s) r)
      end
  | Some (CSettle c) =>
      match i with
      | Done => Next (set_task tid (Finished (RCancelled true)) (log [HSettled (c_guard c)] r))
      | Failed => Next (set_task tid (Finished (RError StoreError)) (log [HReleased (c_guard c)] r))
      | _ => Stuck
      end
  | Some (CBegin s) =>
      match i with
      | Done => Next (set_task tid (Finished (RClaim (Some (mkClaim s tid)))) r)
      | Failed => Next (set_task tid (Finished (RError StoreError)) r)
      | _ => Stuck
      end
  | _ => Stuck
  end.

(** A caller's future is dropped, or unwinds. *)
Definition drop_call (tid : nat) (r : Registry) : Outcome :=
  match tasks r !! tid with
  | Some (PBegin o _ | PSpawn o _ | PArm o _ | PPublish o _ _ | PMark o _ _) =>
      Next (set_task tid Dropped (drop_owner o r))
  | Some (CSettle c) => Next (set_task tid Dropped (log [HReleased (c_guard c)] r))
  | Some (JWait _ | CWait _ _ _ | CTake _ _ _ | CBegin _) => Next (set_task tid Dropped r)
  | _ => Stuck
  end.

Inductive TimerInput := TStep | TTick (now : Z) | TStopping | TUpgradeFailed | TAbort | TDeleted (confirmed : bool).

(** The task spawned by [schedule_owned]. *)
Definition timer_step (a : nat) (i : TimerInput) (r : Registry) : Outcome :=
  match timers r !! a with
  | None => Stuck
  | Some t =>
      match t_phase t, i with
      | PhStarted, TStep =>
          match t_start t with
          | Unsent => Stuck
          | Sent d => Next (set_phase a (PhSleep d) r)
          | SenderDropped => Next (set_phase a PhEnd r)
          end
      | PhSleep d, TStopping => Next (set_phase a PhEnd r)
      | PhSleep d, TTick now =>
          if d <=? now then Next (log [HFired a now] (set_phase a PhClaim r)) else Stuck
      | PhClaim, TUpgradeFailed => Next (set_phase a PhEnd r)
      | PhClaim, TStep =>
          match take_armed a r with
          | Some (c, _, r') => Next (log [HClaimed a ByTimer] (set_phase a (PhDelete c) r'))
          | None => Next (set_phase a PhEnd r)
          end
      | PhDelete c, TDeleted confirmed =>
          Next (log [if confirmed then HSettled (c_guard c) else HReleased (c_guard c)] (set_phase a PhEnd r))
      | (PhStarted | PhSleep _), TAbort => if t_aborted t then Next (set_phase a PhEnd r) else Stuck
      | PhDelete c, TAbort =>
          if t_aborted t then Next (log [HReleased (c_guard c)] (set_phase a PhEnd r)) else Stuck
      | _, _ => Stuck
      end
  end.

Inductive Event :=
| ESchedule (s : PendingDeleteSubject) (delay : Z)
| ETake (k : TakeKind) (s : PendingDeleteSubject)
| EResume (tid : nat) (i : Input)
| EDrop (tid : nat)
| ETimer (a : nat) (i : TimerInput).

Definition step (r : Registry) (e : Event) : Outcome :=
  match e with
  | ESchedule s delay => Next (schedule s delay r)
  | ETake k s => Next (start_take k s r)
  | EResume tid i => resume tid i r
  | EDrop tid => drop_call tid r
  | ETimer a i => timer_step a i r
  end.

(** An interleaving of callers and timers; events that are not enabled are skipped. *)
Fixpoint run (r : Registry) (es : list Event) : option Registry :=
  match es with
  | [] => Some r
  | e :: es' =>
      match step r e with
      | Panic => None
      | Stuck => run r es'
      | Next r' => run r' es'
      end
  end.

(** ** What the history says of one attempt *)

Definition armed_of (a : nat) (h : list Ev) : list (Z * Z) :=
  omap (fun e => match e with HArmed b d t => if decide (a = b) then Some (d, t) else None | _ => None end) h.

Definition claims_of (a : nat) (h : list Ev) : list Who :=
  omap (fun e => match e with HClaimed b w => if decide (a = b) then Some w else None | _ => None end) h.

Definition fired_of (a : nat) (h : list Ev) : list Z :=
  omap (fun e => match e with HFired b n => if decide (a = b) then Some n else None | _ => None end) h.

(** The entry of attempt [a], if the map holds it. *)
Definition slot (r : Registry) (a : nat) : option OwnedEntry :=
  match attempts r !! a with
  | None => None
  | Some att =>
      match entries r !! subject_key (subject att) with
      | Some e => if decide (entry_attempt e = a) then Some e else None
      | None => None
      end
  end.

(** ** The life of one attempt *)

Definition live_task (a : nat) (d t : Z) (started : bool) (k : Task) : Prop :=
  match k with
  | PMark o d' t' => o = mkOwner a None None false /\ d' = d /\ t' = t /\ started = false
  | PStart o d' t' => o = mkOwner a None None true /\ d' = d /\ t' = t /\ started = false
  | Finished (RScheduled d' true) => d' = d /\ started = true
  | _ => False
  end.

Definition custody (a : nat) (d : Z) (sl : option OwnedEntry) (cl : list Who) : Prop :=
  (sl = Some (EArmed (mkArmed a d (Some a) a)) /\ cl = []) \/ (sl = None /\ exists w, cl = [w]).

Definition timer_ok (a : nat) (t : Z) (started : bool) (tm : Timer) (cl : list Who) (fi : list Z) : Prop :=
  t_start tm = (if started then Sent t else Unsent) /\
  (t_aborted tm = true -> exists tid, cl = [ByTask tid]) /\
  (started = false -> fi = [] /\ (ByTimer ∉ cl)) /\
  match t_phase tm with
  | PhStarted => fi = [] /\ (ByTimer ∉ cl)
  | PhSleep d => started = true /\ d = t /\ fi = [] /\ (ByTimer ∉ cl)
  | PhClaim => started = true /\ (ByTimer ∉ cl) /\ exists n, fi = [n] /\ t <= n
  | PhDelete c => started = true /\ c_guard c = a /\ cl = [ByTimer] /\ exists n, fi = [n] /\ t <= n
  | PhEnd => (fi = [] /\ (ByTimer ∉ cl)) \/ (exists n, fi = [n] /\ t <= n)
  end.

Definition dead_task (k : Task) : Prop :=
  match k with Dropped | Finished (RError _) => True | _ => False end.

Definition dead_timer (tm : option Timer) : Prop :=
  match tm with
  | None => True
  | Some t => t_start t = SenderDropped /\ (t_phase t = PhStarted \/ t_phase t = PhEnd)
  end.

Inductive local (a : nat) :
    option Task -> PreparationStatus -> option OwnedEntry -> option Timer ->
    list (Z * Z) -> list Who -> list Z -> Prop :=
| L_begin delay :
    local a (Some (PBegin (mkOwner a None None false) delay)) StPreparing (Some (EPreparing a)) None [] [] []
| L_spawn delay :
    local a (Some (PSpawn (mkOwner a (Some a) None false) delay)) StPreparing (Some (EPreparing a)) None [] [] []
| L_arm delay :
    local a (Some (PArm (mkOwner a (Some a) (Some a) false) delay)) StPreparing (Some (EPreparing a))
      (Some (mkTimer PhStarted Unsent false)) [] [] []
| L_publish d t :
    local a (Some (PPublish (mkOwner a None None false) d t)) StPreparing
      (Some (EArmed (mkArmed a d (Some a) a))) (Some (mkTimer PhStarted Unsent false)) [(d, t)] [] []
| L_live k d t started sl tm cl fi :
    live_task a d t started k -> custody a d sl cl -> timer_ok a t started tm cl fi ->
    local a (Some k) (StArmed d) sl (Some tm) [(d, t)] cl fi
| L_dead k tm ar cl :
    dead_task k -> dead_timer tm -> (cl = [] \/ exists tid, cl = [ByTask tid]) ->
    local a (Some k) StAbandoned None tm ar cl [].

(** What is true of a caller, of the history and of the attempts it saw. *)
Definition client (r : Registry) (tid : nat) (k : Task) : Prop :=
  match k with
  | JWait a | CWait _ _ a => is_Some (attempts r !! a)
  | CTake _ _ a => exists att, attempts r !! a = Some att /\ ready att <> StPreparing
  | CSettle c => ByTask tid ∈ claims_of (c_guard c) (hist r)
  | Finished (RScheduled d true) => exists t, (d, t) ∈ armed_of tid (hist r)
  | Finished (RScheduled d false) => exists a t, (d, t) ∈ armed_of a (hist r)
  | Finished (RClaim (Some c)) =>
      ByTask tid ∈ claims_of (c_guard c) (hist r) \/ c_guard c = tid /\ attempts r !! tid = None
  | Finished (RCancelled true) => exists g, ByTask tid ∈ claims_of g (hist r) /\ HSettled g ∈ hist r
  | PBegin _ _ | PSpawn _ _ | PArm _ _ | PPublish _ _ _ | PMark _ _ _ | PStart _ _ _ => is_Some (attempts r !! tid)
  | _ => True
  end.

Definition good (r : Registry) (x : nat) : Prop :=
  match attempts r !! x with
  | Some att => local x (tasks r !! x) (ready att) (slot r x) (timers r !! x)
                  (armed_of x (hist r)) (claims_of x (hist r)) (fired_of x (hist r))
  | None => timers r !! x = None /\ armed_of x (hist r) = [] /\ claims_of x (hist r) = [] /\ fired_of x (hist r) = []
  end /\
  match tasks r !! x with Some k => client r x k | None => True end.

Record inv (r : Registry) : Prop := {
  inv_entry k e : entries r !! k = Some e ->
    exists att, attempts r !! entry_attempt e = Some att /\ subject_key (subject att) = k;
  inv_good x : good r x;
  inv_fresh x : (next r <= x)%nat -> tasks r !! x = None /\ attempts r !! x = None }.

(** ** Frames *)

Record same (r r' : Registry) (b : nat) : Prop := {
  same_attempt : attempts r' !! b = attempts r !! b;
  same_task : tasks r' !! b = tasks r !! b;
  same_slot : slot r' b = slot r b;
  same_timer : timers r' !! b = timers r !! b;
  same_armed : armed_of b (hist r') = armed_of b (hist r);
  same_claims : claims_of b (hist r') = claims_of b (hist r);
  same_fired : fired_of b (hist r') = fired_of b (hist r) }.

Record ext (r r' : Registry) : Prop := {
  ext_attempts a att : attempts r !! a = Some att ->
    exists att', attempts r' !! a = Some att' /\ subject att' = subject att /\
      (ready att <> StPreparing -> ready att' <> StPreparing);
  ext_hist : exists evs, hist r' = hist r ++ evs }.

Lemma of_app {B} (f : Ev -> option B) h evs x : x ∈ omap f h -> x ∈ omap f (h ++ evs).
Proof. rewrite omap_app. set_solver. Qed.

Lemma client_ext r r' tid k :
  ext r r' -> attempts r' !! tid = attempts r !! tid -> client r tid k -> client r' tid k.
Proof.
  intros [Ha [evs Hh]] Htid.
  assert (forall a, is_Some (attempts r !! a) -> is_Some (attempts r' !! a)) as Hs.
  { intros a [att Hatt]. destruct (Ha _ _ Hatt) as (? & ? & _). eauto. }
  destruct k as [a|o d|o d|o d|o d t|o d t|o d t|k s a|k s a|c|s|[d []|[c|]|[]|e]|]; simpl;
    rewrite ?Htid, ?Hh; unfold armed_of, claims_of; eauto.
  - intros (att & Hatt & Hr). destruct (Ha _ _ Hatt) as (att' & ? & _ & Hr'). eauto.
  - apply of_app.
  - intros [t Ht]. eauto using of_app.
  - intros (a & t & Ht). eauto using of_app.
  - intros [Hc|?]; eauto using of_app.
  - intros (g & Hg & Hs'). exists g. split; [by apply of_app|set_solver].
Qed.

Lemma good_same r r' b : ext r r' -> same r r' b -> good r b -> good r' b.
Proof.
  intros He [Ha Ht Hs Hti Har Hc Hf] [Hl Hcl]. unfold good. rewrite Ha, Ht, Hs, Hti, Har, Hc, Hf.
  split; [done|]. destruct (tasks r !! b); [|done]. by eapply client_ext.
Qed.

Lemma inv_intro r r' (touched : list nat) :
  inv r -> ext r r' -> (forall b, b ∉ touched -> same r r' b) -> (forall x, x ∈ touched -> good r' x) ->
  (forall k e, entries r' !! k = Some e -> entries r !! k = Some e \/
     exists att, attempts r' !! entry_attempt e = Some att /\ subject_key (subject att) = k) ->
  (next r <= next r')%nat -> (forall x, x ∈ touched -> (x < next r')%nat) -> inv r'.
Proof.
  intros [He Hg Hf] Hext Hsame Ht Hent Hn Htn. split.
  - intros k e [Hk|]%Hent; [|done]. destruct (He _ _ Hk) as (att & Ha & Hkey).
    destruct (ext_attempts _ _ Hext _ _ Ha) as (att' & Ha' & Hs & _). exists att'. split; [done|congruence].
  - intros x. destruct (decide (x ∈ touched)) as [Hx|Hx]; [by apply Ht|].
    eapply good_same; [done|by apply Hsame|apply Hg].
  - intros x Hx. destruct (decide (x ∈ touched)) as [Ht'%Htn|Ht']; [lia|].
    destruct (Hsame x Ht') as [-> -> _ _ _ _ _]. apply Hf. lia.
Qed.

(** What a step does to the ids it does not name in [T]: nothing. *)
Record frame (T : list nat) (r r' : Registry) : Prop := {
  fr_ext : ext r r';
  fr_same b : b ∉ T -> same r r' b;
  fr_entries k e : entries r' !! k = Some e -> entries r !! k = Some e \/
    exists att, attempts r' !! entry_attempt e = Some att /\ subject_key (subject att) = k;
  fr_next : (next r <= next r')%nat }.

Lemma ext_refl r : ext r r.
Proof. split; [eauto|]. exists []. by rewrite app_nil_r. Qed.

Lemma ext_same r r' : attempts r' = attempts r -> hist r' = hist r -> ext r r'.
Proof. intros Ha Hh. split; [rewrite Ha; eauto|]. exists []. by rewrite app_nil_r. Qed.

Lemma frame_refl T r : frame T r r.
Proof. split; [apply ext_refl|by split|auto|done]. Qed.

Lemma frame_trans T r1 r2 r3 : frame T r1 r2 -> frame T r2 r3 -> frame T r1 r3.
Proof.
  intros [[Ha1 [e1 Hh1]] Hs1 He1 Hn1] [[Ha2 [e2 Hh2]] Hs2 He2 Hn2]. split; [split| | |lia].
  - intros a att (att1 & H1 & Hs & Hr)%Ha1. destruct (Ha2 _ _ H1) as (att2 & H2 & Hs' & Hr').
    exists att2. split_and!; [done|congruence|auto].
  - exists (e1 ++ e2). by rewrite Hh2, Hh1, app_assoc.
  - intros b Hb. destruct (Hs1 b Hb), (Hs2 b Hb). split; congruence.
  - intros k e [[H1|(att & H1 & Hk)]%He1|H2]%He2; [by left| |by right].
    right. destruct (Ha2 _ _ H1) as (att2 & H2 & Hs' & _). exists att2. split; [done|congruence].
Qed.

Lemma frame_inv T r r' :
  inv r -> frame T r r' -> (forall x, x ∈ T -> good r' x) -> (forall x, x ∈ T -> (x < next r')%nat) -> inv r'.
Proof. intros Hi [? ? ? ?] ? ?. by eapply inv_intro. Qed.

Lemma frame_task T tid k r : tid ∈ T -> frame T r (set_task tid k r).
Proof.
  intros Ht. split; [by apply ext_same| |by left|done]. intros b Hb. split; try done. simpl.
  apply lookup_insert_ne. congruence.
Qed.

Definition about (T : list nat) (e : Ev) : Prop :=
  match e with HArmed a _ _ | HFired a _ | HClaimed a _ => a ∈ T | _ => True end.

Lemma frame_log T evs r : Forall (about T) evs -> frame T r (log evs r).
Proof.
  intros Hev. split; [split; [eauto|by exists evs]| |by left|done]. intros b Hb.
  assert (armed_of b evs = [] /\ claims_of b evs = [] /\ fired_of b evs = []) as (Ha & Hc & Hf).
  { unfold armed_of, claims_of, fired_of. induction Hev as [|e evs He _ IH]; [done|].
    destruct e; simpl in *; try done; destruct (decide (b = a)) as [->|]; done. }
  split; try done; simpl; unfold armed_of, claims_of, fired_of in *; rewrite omap_app.
  - by rewrite Ha, app_nil_r.
  - by rewrite Hc, app_nil_r.
  - by rewrite Hf, app_nil_r.
Qed.

Lemma frame_alter T f a r : a ∈ T -> frame T r (set_timers (alter f a) r).
Proof.
  intros Ha. split; [by apply ext_same| |by left|done]. intros b Hb. split; try done. simpl.
  apply lookup_alter_ne. congruence.
Qed.

Lemma frame_timer T t a r : a ∈ T -> frame T r (set_timers <[a := t]> r).
Proof.
  intros Ha. split; [by apply ext_same| |by left|done]. intros b Hb. split; try done. simpl.
  apply lookup_insert_ne. congruence.
Qed.

Lemma lookup_send r a s b :
  attempts (send_replace a s r) !! b = (if decide (a = b) then fun x => mkAttempt (subject x) s else id) <$> attempts r !! b.
Proof.
  simpl. destruct (decide (a = b)) as [->|]; [by rewrite lookup_alter_eq|].
  rewrite lookup_alter_ne by done. by destruct (attempts r !! b).
Qed.

Lemma slot_send r a s b : slot (send_replace a s r) b = slot r b.
Proof.
  unfold slot. rewrite lookup_send. destruct (attempts r !! b); [|done]. simpl. by destruct (decide (a = b)).
Qed.

Lemma frame_send T a s r : a ∈ T -> s <> StPreparing -> frame T r (send_replace a s r).
Proof.
  intros Ha Hs. split; [split| |by left|done].
  - intros b att Hb. rewrite lookup_send, Hb. simpl. eexists. split; [done|]. by destruct (decide (a = b)).
  - exists []. by rewrite app_nil_r.
  - intros b Hb. split; try done; [|by rewrite slot_send].
    rewrite lookup_send, decide_False by congruence. by destruct (attempts r !! b).
Qed.

Lemma frame_delete T k r :
  (forall e, entries r !! k = Some e -> entry_attempt e ∈ T) -> frame T r (set_entries (delete k) r).
Proof.
  intros Hk. split; [by apply ext_same| | |done].
  - intros b Hb. split; try done. unfold slot. simpl. destruct (attempts r !! b) as [att|]; [|done].
    destruct (decide (k = subject_key (subject att))) as [->|]; [|by rewrite lookup_delete_ne].
    rewrite lookup_delete_eq. destruct (entries r !! _) as [e|]; [|done].
    rewrite decide_False; [done|]. intros <-. by apply Hb, Hk.
  - simpl. intros k' e [_ He]%lookup_delete_Some. by left.
Qed.

Lemma frame_insert T k e r :
  (forall e', entries r !! k = Some e' -> entry_attempt e' ∈ T) -> entry_attempt e ∈ T ->
  (exists att, attempts r !! entry_attempt e = Some att /\ subject_key (subject att) = k) ->
  frame T r (set_entries <[k := e]> r).
Proof.
  intros Hk He Hatt. split; [by apply ext_same| | |done].
  - intros b Hb. split; try done. unfold slot. simpl. destruct (attempts r !! b) as [att|]; [|done].
    destruct (decide (k = subject_key (subject att))) as [->|]; [|by rewrite lookup_insert_ne].
    rewrite lookup_insert_eq, decide_False by congruence. destruct (entries r !! _) as [e'|]; [|done].
    rewrite decide_False; [done|]. intros <-. by apply Hb, Hk.
  - simpl. intros k' e' [[<- <-]|[_ He']]%lookup_insert_Some; [by right|by left].
Qed.

Lemma frame_attempt T a att r :
  a ∈ T -> attempts r !! a = None -> frame T r (set_attempts <[a := att]> r).
Proof.
  intros Ha Hn. split; [split| |by left|done].
  - intros b x Hb. simpl. rewrite lookup_insert_ne by congruence. eauto.
  - exists []. by rewrite app_nil_r.
  - intros b Hb. split; try done; unfold slot; simpl; rewrite lookup_insert_ne; congruence.
Qed.

Lemma frame_spawn T k r : next r ∈ T -> frame T r (spawn_call k r).
Proof.
  intros Ht. split; [by apply ext_same| |by left|simpl; lia]. intros b Hb. split; try done. simpl.
  apply lookup_insert_ne. congruence.
Qed.

#[local] Hint Resolve frame_refl frame_task frame_alter frame_timer frame_send frame_spawn : core.

Ltac frame_chain :=
  repeat match goal with
  | |- frame _ _ (set_task _ _ _) => eapply frame_trans; [|apply frame_task; set_solver]
  | |- frame _ _ (log _ _) => eapply frame_trans; [|apply frame_log; repeat constructor; simpl; set_solver]
  | |- frame _ _ (abort_timer _ _) => eapply frame_trans; [|apply frame_alter; set_solver]
  | |- frame _ _ (set_phase _ _ _) => eapply frame_trans; [|apply frame_alter; set_solver]
  | |- frame _ _ (set_start _ _ _) => eapply frame_trans; [|apply frame_alter; set_solver]
  | |- frame _ _ (send_replace _ _ _) => eapply frame_trans; [|apply frame_send; [set_solver|done]]
  | |- frame _ ?r ?r => apply frame_refl
  end.

(** ** Attempts and their slots *)

Lemma slot_some r a e :
  slot r a = Some e -> exists att, attempts r !! a = Some att /\ entries r !! subject_key (subject att) = Some e /\ entry_attempt e = a.
Proof.
  unfold slot. destruct (attempts r !! a) as [att|]; [|done]. destruct (entries r !! _) as [e'|] eqn:E; [|done].
  destruct (decide _); [|done]. intros [= ->]. eauto.
Qed.

Lemma slot_intro r a att e :
  attempts r !! a = Some att -> entries r !! subject_key (subject att) = Some e -> entry_attempt e = a ->
  slot r a = Some e.
Proof. unfold slot. intros -> -> <-. by rewrite decide_True. Qed.

Lemma slot_deleted r a att :
  attempts r !! a = Some att -> slot (set_entries (delete (subject_key (subject att))) r) a = None.
Proof. unfold slot. simpl. intros ->. by rewrite lookup_delete_eq. Qed.

Lemma slot_inserted r a att e :
  attempts r !! a = Some att -> entry_attempt e = a ->
  slot (set_entries <[subject_key (subject att) := e]> r) a = Some e.
Proof. unfold slot. simpl. intros -> <-. by rewrite lookup_insert_eq, decide_True. Qed.

Lemma take_armed_some r a c h r' :
  take_armed a r = Some (c, h, r') ->
  exists att m, attempts r !! a = Some att /\ slot r a = Some (EArmed m) /\ a_guard m = Some (c_guard c) /\
    c_subject c = subject att /\ h = a_handle m /\ r' = set_entries (delete (subject_key (subject att))) r.
Proof.
  unfold take_armed. intros (att & Ha & H)%bind_Some. destruct (entries r !! _) as [[|m]|] eqn:E; [done| |done].
  destruct (decide _) as [Hd|]; [|done]. apply bind_Some in H as (g & Hg & [= <- <- <-]).
  exists att, m. split_and!; try done. by eapply slot_intro.
Qed.

Lemma take_armed_frame T r a c h r' : a ∈ T -> take_armed a r = Some (c, h, r') -> frame T r r'.
Proof.
  intros Ha (att & m & Hat & Hs & _ & _ & _ & ->)%take_armed_some. apply frame_delete.
  intros e He. apply slot_some in Hs as (att' & Hat' & He' & Hm). simplify_eq. set_solver.
Qed.

(** ** Steps of callers *)

Lemma inv_task_next r tid k : inv r -> tasks r !! tid = Some k -> (tid < next r)%nat.
Proof. intros Hi Ht. destruct (decide (next r <= tid)%nat) as [H|]; [|lia]. destruct (inv_fresh r Hi tid H). congruence. Qed.

Lemma inv_attempt_next r a att : inv r -> attempts r !! a = Some att -> (a < next r)%nat.
Proof. intros Hi Ht. destruct (decide (next r <= a)%nat) as [H|]; [|lia]. destruct (inv_fresh r Hi a H). congruence. Qed.

(** The state of attempt [a]. *)
Lemma inv_local r a att :
  inv r -> attempts r !! a = Some att ->
  local a (tasks r !! a) (ready att) (slot r a) (timers r !! a)
    (armed_of a (hist r)) (claims_of a (hist r)) (fired_of a (hist r)).
Proof. intros Hi Ha. destruct (inv_good r Hi a) as [Hl _]. by rewrite Ha in Hl. Qed.

Definition is_client (k : Task) : Prop :=
  match k with
  | JWait _ | CWait _ _ _ | CTake _ _ _ | CSettle _ | CBegin _ => True
  | _ => False
  end.

Lemma client_no_attempt r tid k : inv r -> tasks r !! tid = Some k -> is_client k -> attempts r !! tid = None.
Proof.
  intros Hi Ht Hk. destruct (attempts r !! tid) as [att|] eqn:Ha; [|done].
  pose proof (inv_local r tid att Hi Ha) as Hl. rewrite Ht in Hl. inversion Hl; subst; try done.
  - by destruct k.
  - by destruct k.
Qed.

Lemma inv_client r tid k : inv r -> tasks r !! tid = Some k -> client r tid k.
Proof. intros Hi Ht. destruct (inv_good r Hi tid) as [_ Hc]. by rewrite Ht in Hc. Qed.

(** A caller that owns no attempt moves on. *)
Lemma good_client r tid k :
  attempts r !! tid = None -> timers r !! tid = None -> armed_of tid (hist r) = [] ->
  claims_of tid (hist r) = [] -> fired_of tid (hist r) = [] -> client r tid k -> good (set_task tid k r) tid.
Proof.
  intros Ha Ht H1 H2 H3 Hc. unfold good. simpl. rewrite Ha, lookup_insert_eq. by split.
Qed.

Lemma inv_client_step r tid k :
  inv r -> (tid < next r)%nat -> attempts r !! tid = None -> client r tid k -> inv (set_task tid k r).
Proof.
  intros Hi Hn Ha Hc. eapply (frame_inv [tid]); [done|frame_chain| |set_solver].
  intros x ->%list_elem_of_singleton. destruct (inv_good r Hi tid) as [Hg _]. rewrite Ha in Hg.
  destruct Hg as (? & ? & ? & ?). by apply good_client.
Qed.

Lemma good_log_other r evs x :
  Forall (fun e => match e with HSettled _ | HReleased _ => True | _ => False end) evs ->
  good r x -> good (log evs r) x.
Proof.
  intros Hev Hg. eapply good_same; [| |exact Hg].
  - split; [eauto|by exists evs].
  - eapply (fr_same []); [|set_solver]. apply frame_log. eapply Forall_impl; [exact Hev|]. by intros [].
Qed.

Lemma inv_log_other r evs :
  Forall (fun e => match e with HSettled _ | HReleased _ => True | _ => False end) evs -> inv r -> inv (log evs r).
Proof.
  intros Hev Hi. eapply (frame_inv []); [done| |set_solver|set_solver].
  apply frame_log. eapply Forall_impl; [exact Hev|]. by intros [].
Qed.

Lemma inv_spawn r k :
  inv r -> client r (next r) k -> inv (spawn_call k r).
Proof.
  intros Hi Hc. destruct (inv_fresh r Hi (next r)) as [Ht Ha]; [done|].
  eapply (frame_inv [next r]); [done|apply frame_spawn; set_solver| |simpl; set_solver by lia].
  intros x ->%list_elem_of_singleton. destruct (inv_good r Hi (next r)) as [Hg _]. rewrite Ha in Hg.
  unfold good. simpl. rewrite Ha, lookup_insert_eq. by split.
Qed.

Lemma no_claim_client r tid k s : client r tid (no_claim k s).
Proof. by destruct k. Qed.

Lemma inv_entry_lookup r s e att :
  (entries r !! subject_key s ≫= fun e => attempts r !! entry_attempt e ≫= fun att => Some (e, att)) = Some (e, att) ->
  entries r !! subject_key s = Some e /\ attempts r !! entry_attempt e = Some att.
Proof. intros (e' & He & (att' & Ha & [= -> ->])%bind_Some)%bind_Some. done. Qed.

Lemma inv_entry_none r s :
  inv r -> (entries r !! subject_key s ≫= fun e => attempts r !! entry_attempt e ≫= fun att => Some (e, att)) = None ->
  entries r !! subject_key s = None.
Proof.
  intros Hi H. destruct (entries r !! subject_key s) as [e|] eqn:E; [|done].
  destruct (inv_entry r Hi _ _ E) as (att & Ha & _). simpl in H. by rewrite Ha in H.
Qed.

Lemma inv_schedule r s delay : inv r -> inv (schedule s delay r).
Proof.
  intros Hi. unfold schedule. destruct (_ ≫= _) as [[e att]|] eqn:E.
  - apply inv_entry_lookup in E as [He Ha]. destruct (check_subject att s); apply inv_spawn; simpl; eauto.
  - apply inv_entry_none in E; [|done]. destruct (inv_fresh r Hi (next r)) as [Ht Ha]; [done|].
    set (r1 := set_attempts _ r).
    assert (frame [next r] r (spawn_call (PBegin (mkOwner (next r) None None false) delay)
      (set_entries <[subject_key s := EPreparing (next r)]> r1))) as Hf.
    { eapply frame_trans; [eapply (frame_attempt _ (next r)); [set_solver|exact Ha]|].
      eapply frame_trans; [|apply frame_spawn; simpl; set_solver]. apply frame_insert; simpl.
      - rewrite E. done.
      - set_solver.
      - rewrite lookup_insert_eq. eauto. }
    eapply (frame_inv [next r]); [done|exact Hf| |simpl; set_solver by lia].
    intros x ->%list_elem_of_singleton. destruct (inv_good r Hi (next r)) as [Hg _]. rewrite Ha in Hg.
    destruct Hg as (Hti & H1 & H2 & H3). unfold good, slot. simpl. rewrite !lookup_insert_eq. simpl.
    rewrite lookup_insert_eq, decide_True, Hti, H1, H2, H3 by done. split; [constructor|eauto].
Qed.

Lemma inv_start_take r k s : inv r -> inv (start_take k s r).
Proof.
  intros Hi. unfold start_take. destruct (_ ≫= _) as [[e att]|] eqn:E.
  - apply inv_entry_lookup in E as [He Ha]. destruct (check_subject att s); apply inv_spawn; simpl; eauto.
  - apply inv_spawn; [done|apply no_claim_client].
Qed.

(** The armed status an attempt shows was recorded. *)
Lemma ready_armed r a att d :
  inv r -> attempts r !! a = Some att -> ready att = StArmed d -> exists t, (d, t) ∈ armed_of a (hist r).
Proof.
  intros Hi Ha Hr. pose proof (inv_local r a att Hi Ha) as Hl. rewrite Hr in Hl.
  inversion Hl as [| | | |? ? t ? ? ? ? ? Hk Hcu Hti|]; subst. exists t. set_solver.
Qed.

(** ** Giving up a preparation *)

Lemma timer_dropped (tm : Timer) :
  t_phase tm = PhStarted \/ t_phase tm = PhEnd -> forall b, dead_timer (Some (mkTimer (t_phase tm) SenderDropped b)).
Proof. intros H b. by split. Qed.

Lemma drop_owner_armed o r : o_armed o = true -> drop_owner o r = r.
Proof. unfold drop_owner. by intros ->. Qed.

(** [r'] only differs from [r] in the entry, the channels and the abort flag of [a]. *)
Record quiet (a : nat) (r r' : Registry) : Prop := {
  q_frame : frame [a] r r';
  q_armed : armed_of a (hist r') = armed_of a (hist r);
  q_claims : claims_of a (hist r') = claims_of a (hist r);
  q_fired : fired_of a (hist r') = fired_of a (hist r);
  q_tasks : tasks r' = tasks r;
  q_next : next r' = next r;
  q_timer tm : timers r' !! a = Some tm ->
    exists tm0, timers r !! a = Some tm0 /\ t_phase tm = t_phase tm0 }.

Lemma quiet_trans a r1 r2 r3 : quiet a r1 r2 -> quiet a r2 r3 -> quiet a r1 r3.
Proof.
  intros [F1 A1 C1 X1 T1 N1 M1] [F2 A2 C2 X2 T2 N2 M2]. split; try congruence.
  - by eapply frame_trans.
  - intros tm (tm2 & H2 & Hp2)%M2. apply M1 in H2 as (tm1 & H1 & Hp1). exists tm1. split; [done|congruence].
Qed.

Lemma quiet_delete a k r :
  (forall e, entries r !! k = Some e -> entry_attempt e = a) -> quiet a r (set_entries (delete k) r).
Proof. intros Hk. split; try done; eauto. apply frame_delete. set_solver. Qed.

Lemma quiet_alter a f r : (forall tm, t_phase (f tm) = t_phase tm) -> quiet a r (set_timers (alter f a) r).
Proof.
  intros Hf. split; try done; eauto; [apply frame_alter; set_solver|]. simpl. rewrite lookup_alter_eq.
  intros tm (tm0 & H0 & ->)%fmap_Some. eauto.
Qed.

Lemma quiet_abort a r : quiet a r (abort_timer a r).
Proof. by apply quiet_alter. Qed.

Lemma quiet_start a s r : quiet a r (set_start a s r).
Proof. by apply quiet_alter. Qed.

Lemma quiet_released a g r : quiet a r (log (released g) r).
Proof.
  split; simpl; eauto; unfold armed_of, claims_of, fired_of, released.
  - apply frame_log. destruct g; repeat constructor.
  - rewrite omap_app. destruct g; simpl; by rewrite app_nil_r.
  - rewrite omap_app. destruct g; simpl; by rewrite app_nil_r.
  - rewrite omap_app. destruct g; simpl; by rewrite app_nil_r.
Qed.

Lemma quiet_refl a r : quiet a r r.
Proof. split; try done; eauto. Qed.

Lemma quiet_send a s r : s <> StPreparing -> quiet a r (send_replace a s r).
Proof. intros Hs. split; try done; eauto. apply frame_send; [set_solver|done]. Qed.

Lemma drop_entry_spec r a att :
  attempts r !! a = Some att -> (forall m, slot r a = Some (EArmed m) -> a_handle m = a) ->
  quiet a r (drop_entry a att r) /\ attempts (drop_entry a att r) = attempts r /\ slot (drop_entry a att r) a = None.
Proof.
  intros Ha Hh. unfold drop_entry.
  destruct (entries r !! subject_key (subject att)) as [e|] eqn:E; [destruct (decide _) as [Hd|Hd]|].
  - assert (quiet a r (set_entries (delete (subject_key (subject att))) r)) as Hq
      by (apply quiet_delete; intros e' He'; by simplify_eq).
    destruct e as [b|m]; [split_and!; [done|done|by apply slot_deleted]|].
    assert (a_handle m = a) as -> by (apply Hh; by eapply slot_intro).
    split_and!; [|done|by apply slot_deleted].
    eapply quiet_trans; [exact Hq|]. eapply quiet_trans; [apply quiet_abort|apply quiet_released].
  - split_and!; [apply quiet_refl|done|unfold slot; by rewrite Ha, E, decide_False].
  - split_and!; [apply quiet_refl|done|unfold slot; by rewrite Ha, E].
Qed.

Lemma drop_owner_spec r o att :
  o_armed o = false -> attempts r !! o_attempt o = Some att ->
  (forall m, slot r (o_attempt o) = Some (EArmed m) -> a_handle m = o_attempt o) ->
  (forall h, o_timer o = Some h -> h = o_attempt o) ->
  quiet (o_attempt o) r (drop_owner o r) /\
  attempts (drop_owner o r) !! o_attempt o = Some (mkAttempt (subject att) StAbandoned) /\
  slot (drop_owner o r) (o_attempt o) = None /\
  (forall tm, timers (drop_owner o r) !! o_attempt o = Some tm -> t_start tm = SenderDropped).
Proof.
  intros Harm Ha Hh Ht. unfold drop_owner. rewrite Harm, Ha. cbv zeta.
  destruct (drop_entry_spec r (o_attempt o) att Ha Hh) as (Hq & Hat & Hsl).
  set (r1 := drop_entry _ _ _) in *. clearbody r1.
  set (r2 := match o_timer o with Some h => abort_timer h r1 | None => r1 end).
  assert (quiet (o_attempt o) r1 r2 /\ attempts r2 = attempts r1 /\ slot r2 (o_attempt o) = None) as (Hq2 & Hat2 & Hsl2).
  { subst r2. destruct (o_timer o) as [h|]; [|split_and!; [apply quiet_refl|done|done]].
    rewrite (Ht h eq_refl). split_and!; [apply quiet_abort|done|done]. }
  clearbody r2. split_and!.
  - eapply quiet_trans; [exact Hq|]. eapply quiet_trans; [exact Hq2|].
    eapply quiet_trans; [by apply (quiet_send _ StAbandoned)|]. eapply quiet_trans; [apply quiet_released|apply quiet_start].
  - simpl. by rewrite lookup_alter_eq, Hat2, Hat, Ha.
  - change (slot (send_replace (o_attempt o) StAbandoned r2) (o_attempt o) = None). by rewrite slot_send.
  - simpl. rewrite lookup_alter_eq. by intros tm (tm2 & H0 & ->)%fmap_Some.
Qed.

(** An owner that gives up leaves a dead attempt. *)
Lemma inv_drop r a att o k :
  inv r -> attempts r !! a = Some att -> o_attempt o = a -> o_armed o = false -> dead_task k ->
  (forall h, o_timer o = Some h -> h = a) ->
  (forall m, slot r a = Some (EArmed m) -> a_handle m = a) ->
  (forall tm, timers r !! a = Some tm -> t_phase tm = PhStarted \/ t_phase tm = PhEnd) ->
  (claims_of a (hist r) = [] \/ exists tid, claims_of a (hist r) = [ByTask tid]) -> fired_of a (hist r) = [] ->
  inv (set_task a k (drop_owner o r)).
Proof.
  intros Hi Ha <- Harm Hk Ht Hm Htm Hcl Hfi.
  destruct (drop_owner_spec r o att Harm Ha Hm Ht) as ([Hf H1 H2 H3 H4 H5 H6] & Hat & Hsl & Hst).
  set (r1 := drop_owner o r) in *. clearbody r1.
  eapply (frame_inv [o_attempt o]); [exact Hi| | |].
  - eapply frame_trans; [exact Hf|frame_chain].
  - intros x ->%list_elem_of_singleton. unfold good. simpl. rewrite lookup_insert_eq, Hat.
    change (slot (set_task (o_attempt o) k r1) (o_attempt o)) with (slot r1 (o_attempt o)).
    rewrite Hsl, H1, H2, H3, Hfi. simpl. split; [|by destruct k as [| | | | | | | | | | |[]|]].
    apply L_dead; [done| |done]. destruct (timers r1 !! o_attempt o) as [tm|] eqn:Et; [|done].
    destruct (H6 tm eq_refl) as (tm0 & H0 & Hp). split; [by apply Hst|]. rewrite Hp. by eapply Htm.
  - simpl. intros x ->%list_elem_of_singleton. rewrite H5. by eapply inv_attempt_next.
Qed.

(** ** Steps of the preparing caller *)

Ltac use_view :=
  repeat match goal with
  | H : _ = ready _ |- _ => rewrite <- H
  | H : _ = timers _ !! _ |- _ => rewrite <- H
  | H : _ = slot _ _ |- _ => rewrite <- H
  | H : _ = armed_of _ _ |- _ => rewrite <- H
  | H : _ = claims_of _ _ |- _ => rewrite <- H
  | H : _ = fired_of _ _ |- _ => rewrite <- H
  end.

Ltac view_eq :=
  let x := fresh in let Hx := fresh in intros x Hx;
  match goal with
  | H : _ = slot _ _ |- a_handle _ = _ => rewrite Hx in H; simplify_eq; simpl; auto
  | H : _ = timers _ !! _ |- _ => rewrite Hx in H; simplify_eq; simpl; auto
  end.

Lemma inv_own r a k r' :
  inv r -> frame [a] r r' -> next r' = next r -> tasks r !! a = Some k -> good r' a -> inv r'.
Proof.
  intros Hi Hf Hn Ht Hg. eapply (frame_inv [a]); [done|done| |].
  - by intros x ->%list_elem_of_singleton.
  - intros x ->%list_elem_of_singleton. rewrite Hn. by eapply inv_task_next.
Qed.

Lemma owner_local r a k :
  inv r -> tasks r !! a = Some k -> is_Some (attempts r !! a) ->
  exists att, attempts r !! a = Some att /\
    local a (Some k) (ready att) (slot r a) (timers r !! a)
      (armed_of a (hist r)) (claims_of a (hist r)) (fired_of a (hist r)).
Proof.
  intros Hi Ht [att Ha]. exists att. split; [done|]. rewrite <- Ht. by apply inv_local.
Qed.

Lemma good_set_task r a k att :
  attempts r !! a = Some att ->
  local a (Some k) (ready att) (slot r a) (timers r !! a)
    (armed_of a (hist r)) (claims_of a (hist r)) (fired_of a (hist r)) ->
  client r a k -> good (set_task a k r) a.
Proof. intros Ha Hl Hc. unfold good. simpl. rewrite lookup_insert_eq, Ha. by split. Qed.

Lemma inv_begin r a o delay :
  inv r -> tasks r !! a = Some (PBegin o delay) ->
  inv (set_task a (PSpawn (mkOwner (o_attempt o) (Some a) (o_timer o) (o_armed o)) delay) r).
Proof.
  intros Hi Ht. destruct (owner_local r a _ Hi Ht (inv_client r a _ Hi Ht)) as (att & Ha & Hl).
  inversion Hl; subst; [|done..]. eapply (inv_own r a); [done|frame_chain|done|done|].
  eapply good_set_task; [done| |simpl; eauto]. use_view. simpl. constructor.
Qed.

Lemma inv_spawned r a o delay :
  inv r -> tasks r !! a = Some (PSpawn o delay) ->
  inv (set_task a (PArm (mkOwner (o_attempt o) (o_guard o) (Some a) (o_armed o)) delay)
        (set_timers <[a := mkTimer PhStarted Unsent false]> r)).
Proof.
  intros Hi Ht. destruct (owner_local r a _ Hi Ht (inv_client r a _ Hi Ht)) as (att & Ha & Hl).
  inversion Hl; subst; [|done..]. eapply (inv_own r a); [done| |done|done|].
  - frame_chain. apply frame_timer. set_solver.
  - eapply good_set_task; [done| |simpl; eauto]. simpl. rewrite lookup_insert_eq.
    change (slot (set_timers _ r) a) with (slot r a). use_view. constructor.
Qed.

Lemma hist_armed a h d t : armed_of a (h ++ [HArmed a d t]) = armed_of a h ++ [(d, t)].
Proof. unfold armed_of. rewrite omap_app. simpl. by rewrite decide_True. Qed.

Lemma hist_armed_other a h d t b :
  claims_of a (h ++ [HArmed b d t]) = claims_of a h /\ fired_of a (h ++ [HArmed b d t]) = fired_of a h.
Proof. unfold claims_of, fired_of. rewrite !omap_app. simpl. by rewrite !app_nil_r. Qed.

Lemma inv_arm r a o delay wall mono :
  inv r -> tasks r !! a = Some (PArm o delay) ->
  exists r', arm a o delay wall mono r = Next r' /\ inv r'.
Proof.
  intros Hi Ht. destruct (owner_local r a _ Hi Ht (inv_client r a _ Hi Ht)) as (att & Ha & Hl).
  inversion Hl; subst; [|done..]. pose proof (slot_some r a (EPreparing a)) as Hs.
  destruct Hs as (att' & Ha' & He & _); [done|]. simplify_eq. unfold arm. simpl. rewrite Ha, He. simpl.
  rewrite decide_True by done. eexists. split; [done|]. set (e := EArmed _).
  eapply (inv_own r a); [done| |done|done|].
  - frame_chain. apply frame_insert; [|subst e; simpl; set_solver|subst e; simpl; eauto].
    intros e' He'. simplify_eq. simpl. set_solver.
  - eapply good_set_task; [done| |simpl; eauto]. cbn [log set_entries hist timers attempts].
    rewrite hist_armed. destruct (hist_armed_other a (hist r) (wall + clamp_undo_delay_ms delay)
      (mono + clamp_undo_delay_ms delay) a) as [-> ->].
    change (slot (log _ ?x) a) with (slot x a). rewrite slot_inserted by done. use_view. constructor.
Qed.

Lemma inv_publish r a o d t :
  inv r -> tasks r !! a = Some (PPublish o d t) ->
  inv (set_task a (PMark o d t) (send_replace (o_attempt o) (StArmed d) r)).
Proof.
  intros Hi Ht. destruct (owner_local r a _ Hi Ht (inv_client r a _ Hi Ht)) as (att & Ha & Hl).
  inversion Hl; subst; [|done..]. simpl. eapply (inv_own r a); [done|frame_chain|done|done|].
  eapply (good_set_task _ _ _ (mkAttempt (subject att) (StArmed d))).
  - rewrite lookup_send, Ha, decide_True by done. done.
  - rewrite slot_send. cbn [send_replace set_attempts timers hist ready]. use_view.
    eapply (L_live a _ d t false); [done|by left|]. split_and!; simpl; (done || set_solver).
  - cbn [client]. rewrite lookup_send, Ha. by eexists.
Qed.

Lemma inv_mark r a o d t :
  inv r -> tasks r !! a = Some (PMark o d t) ->
  inv (set_task a (PStart (mkOwner (o_attempt o) (o_guard o) (o_timer o) true) d t) r).
Proof.
  intros Hi Ht. destruct (owner_local r a _ Hi Ht (inv_client r a _ Hi Ht)) as (att & Ha & Hl).
  inversion Hl as [| | | |k0 d0 t0 st sl tm cl fi Hk Hcu Hti|]; subst; [|done].
  destruct Hk as (-> & -> & -> & ->). eapply (inv_own r a); [done|frame_chain|done|done|].
  eapply good_set_task; [done| |simpl; eauto]. use_view. by eapply (L_live a _ _ _ false).
Qed.

Lemma timer_ok_start a t tm cl fi :
  timer_ok a t false tm cl fi -> timer_ok a t true (mkTimer (t_phase tm) (Sent t) (t_aborted tm)) cl fi.
Proof. intros (Hs & Hab & Hf & Hp). split; [done|]. split; [done|]. split; [done|]. simpl. destruct (t_phase tm); naive_solver. Qed.

Lemma inv_start r a o d t :
  inv r -> tasks r !! a = Some (PStart o d t) ->
  inv (set_task a (Finished (RScheduled d true)) (drop_owner o (set_start a (Sent t) r))).
Proof.
  intros Hi Ht. destruct (owner_local r a _ Hi Ht (inv_client r a _ Hi Ht)) as (att & Ha & Hl).
  inversion Hl as [| | | |k0 d0 t0 st sl tm cl fi Hk Hcu Hti|]; subst; [|done].
  destruct Hk as (-> & -> & -> & ->). rewrite drop_owner_armed by done.
  eapply (inv_own r a); [done|frame_chain|done|done|]. eapply good_set_task; [done| |].
  - cbn [set_start set_timers timers hist]. change (slot (mkRegistry _ _ _ _ _ _) a) with (slot r a).
    rewrite lookup_alter_eq. use_view. simpl. eapply (L_live a _ _ _ true); [done|done|by apply timer_ok_start].
  - simpl. use_view. exists t0. set_solver.
Qed.

(** The preparing caller gives up, at any of its steps. *)
Lemma inv_give_up r a k o k' :
  inv r -> tasks r !! a = Some k -> dead_task k' ->
  match k with
  | PBegin o' _ | PSpawn o' _ | PArm o' _ | PPublish o' _ _ | PMark o' _ _ => o' = o
  | _ => False
  end ->
  inv (set_task a k' (drop_owner o r)).
Proof.
  intros Hi Ht Hk' Hko.
  assert (is_Some (attempts r !! a)) as Hsome by (pose proof (inv_client r a _ Hi Ht); by destruct k).
  destruct (owner_local r a _ Hi Ht Hsome) as (att & Ha & Hl).
  inversion Hl as [| | |d t|k0 d t st sl tm cl fi Hk Hcu Hti|]; subst; try done.
  1-4: subst o; eapply (inv_drop r a att); [done|done|done|done|done|simpl; congruence|view_eq| | |];
    [view_eq|use_view; auto|by use_view].
  - destruct k as [| | | | | | | | | | |[? []| | |]|]; try done. subst o. destruct Hk as (-> & -> & -> & ->).
    destruct Hti as (_ & _ & Hns & Hph). destruct Hns as [Hfi Hns]; [done|].
    eapply inv_drop; [done|done|done|done|done|done| | | |done].
    + intros m Hm. destruct Hcu as [[Hs _]|[Hs _]]; rewrite Hs in Hm; by simplify_eq.
    + intros tm' Htm. assert (tm' = tm) as -> by congruence. destruct (t_phase tm); naive_solver.
    + destruct Hcu as [[_ Hc]|[_ [[|tid] Hc]]]; rewrite Hc in *; [by left|set_solver|eauto].
  - by destruct k as [| | | | | | | | | | |[]|].
Qed.

(** ** Taking the claim *)

Lemma hist_claim a h w :
  armed_of a (h ++ [HClaimed a w]) = armed_of a h /\ claims_of a (h ++ [HClaimed a w]) = claims_of a h ++ [w] /\
  fired_of a (h ++ [HClaimed a w]) = fired_of a h.
Proof.
  unfold armed_of, claims_of, fired_of. rewrite !omap_app. simpl. by rewrite decide_True, !app_nil_r.
Qed.

(** An entry that can be taken belongs to a live attempt nobody claimed. *)
Lemma take_armed_live r a att c h r' :
  inv r -> attempts r !! a = Some att -> ready att <> StPreparing -> take_armed a r = Some (c, h, r') ->
  c_guard c = a /\ h = a /\ r' = set_entries (delete (subject_key (subject att))) r /\
  exists k d t started tm fi, tasks r !! a = Some k /\ ready att = StArmed d /\ live_task a d t started k /\
    timers r !! a = Some tm /\ armed_of a (hist r) = [(d, t)] /\ claims_of a (hist r) = [] /\
    fired_of a (hist r) = fi /\ timer_ok a t started tm [] fi.
Proof.
  intros Hi Ha Hr (att' & m & Ha' & Hs & Hg & Hsub & -> & ->)%take_armed_some. simplify_eq.
  pose proof (inv_local r a att Hi Ha) as Hl. rewrite Hs in Hl.
  inversion Hl as [| | |d t|k d t st sl tm cl fi Hk Hcu Hti|]; subst; try congruence.
  destruct Hcu as [[[= ->] Hc]|[? _]]; [|done]. simpl in *. injection Hg as <-. rewrite Hc in Hti.
  split_and!; [done|done|done|]. exists k, d, t, st, tm, (fired_of a (hist r)). by split_and!.
Qed.

Lemma timer_ok_claimed a t started tm fi tid :
  timer_ok a t started tm [] fi ->
  timer_ok a t started (mkTimer (t_phase tm) (t_start tm) true) [ByTask tid] fi.
Proof.
  intros (Hs & _ & Hf & Hp). split; [done|]. split; [eauto|]. simpl.
  assert (ByTimer ∉ [ByTask tid]) by set_solver. split; [naive_solver|].
  destruct (t_phase tm); naive_solver.
Qed.

Lemma inv_claimed_by r a att c h r1 tid :
  inv r -> attempts r !! a = Some att -> ready att <> StPreparing -> take_armed a r = Some (c, h, r1) ->
  inv (log [HClaimed a (ByTask tid)] (abort_timer h r1)).
Proof.
  intros Hi Ha Hr E. pose proof (take_armed_frame [a] r a c h r1 ltac:(set_solver) E) as Hf1.
  destruct (take_armed_live r a att c h r1 Hi Ha Hr E)
    as (Hcg & -> & -> & k' & d & t & st & tm & fi & Htk & Hrd & Hk & Htm & H1 & H2 & H3 & Hti).
  destruct (hist_claim a (hist r) (ByTask tid)) as (E1 & E2 & E3).
  pose proof (slot_deleted r a att Ha) as Hsl.
  assert (frame [a] r (log [HClaimed a (ByTask tid)]
    (abort_timer a (set_entries (delete (subject_key (subject att))) r)))) as Hf
    by (eapply frame_trans; [exact Hf1|frame_chain]).
  eapply (inv_own r a); [done|done|done|done|]. split.
  - cbn [log abort_timer set_timers set_entries attempts tasks timers hist].
    rewrite Ha, Htk, lookup_alter_eq, Htm, E1, E2, E3, H1, H2, H3, Hrd.
    change (slot (log _ _) a) with (slot (set_entries (delete (subject_key (subject att))) r) a). rewrite Hsl.
    eapply (L_live a _ d t st); [done|by right; eauto|by apply timer_ok_claimed].
  - simpl. rewrite Htk. eapply client_ext; [apply (fr_ext _ _ _ Hf)|done|by eapply inv_client].
Qed.

Lemma claimed_client r tid k c :
  ByTask tid ∈ claims_of (c_guard c) (hist r) -> client r tid (claimed k c).
Proof. intros H. destruct k; simpl; auto. Qed.

Lemma inv_take r tid k s a :
  inv r -> tasks r !! tid = Some (CTake k s a) ->
  match take_armed a r with
  | Some (c, h, r') => inv (set_task tid (claimed k c) (log [HClaimed a (ByTask tid)] (abort_timer h r')))
  | None => inv (set_task tid (no_claim k s) r)
  end.
Proof.
  intros Hi Ht. destruct (inv_client r tid _ Hi Ht) as (att & Ha & Hr).
  assert (attempts r !! tid = None) as Hnone by (by eapply client_no_attempt).
  pose proof (inv_task_next r tid _ Hi Ht) as Hn. destruct (take_armed a r) as [[[c h] r1]|] eqn:E.
  - pose proof (inv_claimed_by r a att c h r1 tid Hi Ha Hr E) as Hi'.
    destruct (take_armed_live r a att c h r1 Hi Ha Hr E) as (Hcg & -> & -> & _).
    apply inv_client_step; [done|done|done|]. apply claimed_client. rewrite Hcg.
    destruct (hist_claim a (hist r) (ByTask tid)) as (_ & E2 & _). cbn [log hist]. 
    change (hist (abort_timer _ _)) with (hist r). rewrite E2. set_solver.
  - apply inv_client_step; [done|done|done|apply no_claim_client].
Qed.

(** ** Timer steps *)

Lemma inv_timer r a tm :
  inv r -> timers r !! a = Some tm -> exists att k, attempts r !! a = Some att /\ tasks r !! a = Some k /\
    local a (Some k) (ready att) (slot r a) (Some tm)
      (armed_of a (hist r)) (claims_of a (hist r)) (fired_of a (hist r)).
Proof.
  intros Hi Ht. destruct (inv_good r Hi a) as [Hg _]. destruct (attempts r !! a) as [att|] eqn:Ha.
  - rewrite Ht in Hg. destruct (tasks r !! a) as [k|] eqn:Hk; [|by inversion Hg]. eauto.
  - destruct Hg as [? _]. congruence.
Qed.

(** The timer moves to phase [p]. *)
Lemma inv_phase r a tm att k p evs :
  inv r -> timers r !! a = Some tm -> attempts r !! a = Some att -> tasks r !! a = Some k -> Forall (about [a]) evs ->
  local a (Some k) (ready att) (slot r a) (Some (mkTimer p (t_start tm) (t_aborted tm)))
    (armed_of a (hist r ++ evs)) (claims_of a (hist r ++ evs)) (fired_of a (hist r ++ evs)) ->
  inv (log evs (set_phase a p r)).
Proof.
  intros Hi Htm Ha Hk Hev Hl.
  assert (frame [a] r (log evs (set_phase a p r))) as Hf.
  { eapply frame_trans; [|by apply frame_log]. frame_chain. }
  eapply (inv_own r a); [done|done|done|done|]. split.
  - cbn [log set_phase set_timers attempts tasks timers hist].
    rewrite Ha, Hk, lookup_alter_eq, Htm. exact Hl.
  - simpl. rewrite Hk. eapply client_ext; [apply (fr_ext _ _ _ Hf)|done|by eapply inv_client].
Qed.

Lemma log_nil r : log [] r = r.
Proof. destruct r. unfold log. simpl. by rewrite app_nil_r. Qed.

Lemma hist_fired a h n :
  armed_of a (h ++ [HFired a n]) = armed_of a h /\ claims_of a (h ++ [HFired a n]) = claims_of a h /\
  fired_of a (h ++ [HFired a n]) = fired_of a h ++ [n].
Proof.
  unfold armed_of, claims_of, fired_of. rewrite !omap_app. simpl. by rewrite decide_True, !app_nil_r.
Qed.

(** A timer that ends. *)
Lemma inv_timer_end r a tm :
  inv r -> timers r !! a = Some tm ->
  match t_phase tm with
  | PhStarted => t_start tm <> Unsent \/ t_aborted tm = true
  | _ => True
  end -> inv (set_phase a PhEnd r).
Proof.
  intros Hi Htm Hph. destruct (inv_timer r a tm Hi Htm) as (att & k & Ha & Hk & Hl).
  rewrite <- (log_nil (set_phase a PhEnd r)). eapply inv_phase; [done..|constructor|].
  rewrite !app_nil_r. inversion Hl as [| | |d t|k0 d t st sl tm0 cl fi Hlt Hcu Hti|k0 tm0 ar cl Hdt Hdm Hcl]; subst.
  - simpl in Hph. naive_solver.
  - simpl in Hph. naive_solver.
  - use_view. eapply (L_live a _ d t st); [done|done|]. destruct Hti as (Hs & Hab & Hf & Hp).
    split; [done|]. split; [done|]. split; [done|]. simpl. destruct (t_phase tm); naive_solver.
  - use_view. apply L_dead; [done| |done]. destruct Hdm as [Hs _]. split; [done|by right].
Qed.

Lemma inv_timer_sleep r a tm d :
  inv r -> timers r !! a = Some tm -> t_phase tm = PhStarted -> t_start tm = Sent d -> inv (set_phase a (PhSleep d) r).
Proof.
  intros Hi Htm Hph Hst. destruct (inv_timer r a tm Hi Htm) as (att & k & Ha & Hk & Hl).
  rewrite <- (log_nil (set_phase a (PhSleep d) r)). eapply inv_phase; [done..|constructor|].
  rewrite !app_nil_r. inversion Hl as [| | |d' t|k0 d' t st sl tm0 cl fi Hlt Hcu Hti|k0 tm0 ar cl Hdt Hdm Hcl]; subst; try done.
  - use_view. eapply (L_live a _ d' t st); [done|done|]. destruct Hti as (Hs & Hab & Hf & Hp). rewrite Hph in Hp.
    destruct st; [|congruence]. assert (d = t) as -> by congruence. destruct Hp. by split_and!.
  - destruct Hdm. congruence.
Qed.

Lemma inv_timer_fire r a tm d now :
  inv r -> timers r !! a = Some tm -> t_phase tm = PhSleep d -> d <= now ->
  inv (log [HFired a now] (set_phase a PhClaim r)).
Proof.
  intros Hi Htm Hph Hd. destruct (inv_timer r a tm Hi Htm) as (att & k & Ha & Hk & Hl).
  eapply inv_phase; [done..|repeat constructor|]. destruct (hist_fired a (hist r) now) as (-> & -> & ->).
  inversion Hl as [| | |d' t|k0 d' t st sl tm0 cl fi Hlt Hcu Hti|k0 tm0 ar cl Hdt Hdm Hcl]; subst; try done.
  - use_view. eapply (L_live a _ d' t st); [done|done|]. destruct Hti as (Hs & Hab & Hf & Hp). rewrite Hph in Hp.
    destruct Hp as (-> & -> & Hfi & Hnt). rewrite Hfi. split; [done|]. split; [done|]. split; [done|]. simpl. eauto.
  - destruct Hdm as [_ [?|?]]; congruence.
Qed.

Lemma inv_timer_claim r a tm :
  inv r -> timers r !! a = Some tm -> t_phase tm = PhClaim ->
  match take_armed a r with
  | Some (c, _, r') => inv (log [HClaimed a ByTimer] (set_phase a (PhDelete c) r'))
  | None => inv (set_phase a PhEnd r)
  end.
Proof.
  intros Hi Htm Hph. destruct (take_armed a r) as [[[c h] r1]|] eqn:E;
    [|by eapply inv_timer_end; [..|rewrite Hph]].
  destruct (inv_timer r a tm Hi Htm) as (att & k & Ha & Hk & Hl).
  assert (ready att <> StPreparing) as Hr by (inversion Hl; subst; simpl in Hph; congruence).
  pose proof (take_armed_frame [a] r a c h r1 ltac:(set_solver) E) as Hf1.
  destruct (take_armed_live r a att c h r1 Hi Ha Hr E)
    as (Hcg & -> & -> & k' & d & t & st & tm' & fi & Htk & Hrd & Hlt & Htm' & H1 & H2 & H3 & Hti).
  assert (k' = k) as -> by congruence. assert (tm' = tm) as -> by congruence.
  destruct (hist_claim a (hist r) ByTimer) as (E1 & E2 & E3). pose proof (slot_deleted r a att Ha) as Hsl.
  assert (frame [a] r (log [HClaimed a ByTimer]
    (set_phase a (PhDelete c) (set_entries (delete (subject_key (subject att))) r)))) as Hf
    by (eapply frame_trans; [exact Hf1|frame_chain]).
  eapply (inv_own r a); [done|done|done|done|]. split.
  - cbn [log set_phase set_timers set_entries attempts tasks timers hist].
    rewrite Ha, Hk, lookup_alter_eq, Htm, E1, E2, E3, H1, H2, H3, Hrd.
    change (slot (log _ _) a) with (slot (set_entries (delete (subject_key (subject att))) r) a). rewrite Hsl.
    eapply (L_live a _ d t st); [done|by right; eauto|]. destruct Hti as (Hs & Hab & Hns & Hp). rewrite Hph in Hp.
    destruct Hp as (-> & _ & Hn). split; [done|]. simpl. split_and!; try done.
    intros Hab'. destruct (Hab Hab') as [? ?]. done.
  - simpl. rewrite Hk. eapply client_ext; [apply (fr_ext _ _ _ Hf)|done|by eapply inv_client].
Qed.

(** ** Every step *)

Lemma inv_drop_call r tid r' : inv r -> drop_call tid r = Next r' -> inv r'.
Proof.
  intros Hi. unfold drop_call. destruct (tasks r !! tid) as [k|] eqn:Ht; [|done].
  pose proof (inv_task_next r tid k Hi Ht) as Hn. pose proof (client_no_attempt r tid k Hi Ht) as Hc.
  destruct k; try done; intros [= <-]; try (eapply inv_give_up; done).
  all: try (apply inv_client_step; [done|done|by apply Hc|done]).
  apply inv_client_step; [by apply inv_log_other; [repeat constructor|]|done|by apply Hc|done].
Qed.

Lemma inv_timer_step r a i r' : inv r -> timer_step a i r = Next r' -> inv r'.
Proof.
  intros Hi. unfold timer_step. destruct (timers r !! a) as [tm|] eqn:Htm; [|done].
  pose proof (inv_timer_end r a tm Hi Htm) as Hend.
  destruct (t_phase tm) eqn:Hph, i; try done.
  - destruct (t_start tm) eqn:Hst; [done| |]; intros [= <-]; [by eapply inv_timer_sleep|]. apply Hend. by left.
  - destruct (t_aborted tm); [|done]. intros [= <-]. apply Hend. by right.
  - destruct (_ <=? _) eqn:E; [|done]. case_tests. intros [= <-]. by eapply inv_timer_fire.
  - intros [= <-]. by apply Hend.
  - destruct (t_aborted tm); [|done]. intros [= <-]. by apply Hend.
  - pose proof (inv_timer_claim r a tm Hi Htm Hph) as Hcl.
    destruct (take_armed a r) as [[[c h] r1]|]; intros [= <-]; done.
  - intros [= <-]. by apply Hend.
  - destruct (t_aborted tm); [|done]. intros [= <-]. apply inv_log_other; [repeat constructor|by apply Hend].
  - intros [= <-]. apply inv_log_other; [destruct confirmed; repeat constructor|by apply Hend].
Qed.

Lemma inv_resume r tid i : inv r ->
  match resume tid i r with Panic => False | Stuck => True | Next r' => inv r' end.
Proof.
  intros Hi. unfold resume. destruct (tasks r !! tid) as [k|] eqn:Ht; [|done].
  pose proof (inv_task_next r tid k Hi Ht) as Hn. pose proof (client_no_attempt r tid k Hi Ht) as Hc.
  pose proof (inv_client r tid k Hi Ht) as Hcl.
  destruct k as [a|o d|o d|o d|o d t|o d t|o d t|k s a|k s a|c|s|rs|]; try done; simpl in Hcl.
  - destruct Hcl as [att Ha]. rewrite Ha. simpl. destruct (ready att) eqn:Er; [done| |];
      (apply inv_client_step; [done|done|by apply Hc|]); [|done].
    destruct (ready_armed r a att _ Hi Ha Er). simpl. eauto.
  - destruct i; [by apply inv_begin|by eapply inv_give_up|done].
  - destruct i; [by apply inv_spawned|by eapply inv_give_up|done].
  - destruct i as [| |wall mono]; [done..|]. destruct (inv_arm r tid o d wall mono Hi Ht) as (r' & -> & ?). done.
  - by apply inv_publish.
  - by apply inv_mark.
  - by apply inv_start.
  - destruct Hcl as [att Ha]. rewrite Ha. simpl. destruct (ready att) eqn:Er; [done| |].
    + apply inv_client_step; [done|done|by apply Hc|]. exists att. split; [done|congruence].
    + apply inv_client_step; [done|done|by apply Hc|apply no_claim_client].
  - pose proof (inv_take r tid k s a Hi Ht) as Htk. destruct (take_armed a r) as [[[c h] r1]|]; exact Htk.
  - destruct i; [| |done]; (apply inv_client_step; [by apply inv_log_other; [repeat constructor|]|done|by apply Hc|]); [|done].
    exists (c_guard c). simpl. split; [by apply of_app|set_solver].
  - destruct i; [| |done]; (apply inv_client_step; [done|done|by apply Hc|]); [|done]. simpl. right. auto.
Qed.

Lemma inv_step r e : inv r ->
  match step r e with Panic => False | Stuck => True | Next r' => inv r' end.
Proof.
  intros Hi. destruct e as [s delay|k s|tid i|tid|a i]; simpl.
  - by apply inv_schedule.
  - by apply inv_start_take.
  - by apply inv_resume.
  - destruct (drop_call tid r) eqn:E; [done| |by eapply inv_drop_call].
    unfold drop_call in E. destruct (tasks r !! tid) as [[]|]; done.
  - destruct (timer_step a i r) eqn:E; [done| |by eapply inv_timer_step].
    unfold timer_step in E. destruct (timers r !! a) as [tm|]; [|done].
    revert E. destruct (t_phase tm), i; try done; repeat split_match; done.
Qed.

Lemma inv_init : inv init.
Proof. split; [intros k e; unfold init; simpl; by rewrite lookup_empty|intros x; split; simpl; by rewrite ?lookup_empty|done]. Qed.

Lemma run_inv es : forall r, inv r -> exists r', run r es = Some r' /\ inv r'.
Proof.
  induction es as [|e es IH]; intros r Hi; simpl; [eauto|].
  pose proof (inv_step r e Hi) as Hs. destruct (step r e) as [| |r']; [by apply IH|done|by apply IH].
Qed.

Lemma inv_claims_unique r : inv r -> forall a, claims_of a (hist r) = [] \/ exists w, claims_of a (hist r) = [w].
Proof.
  intros Hi a. destruct (inv_good r Hi a) as [Hg _]. destruct (attempts r !! a) as [att|].
  - inversion Hg as [| | | |k0 d t st sl tm0 cl fi Hlt [[_ Hc]|[_ Hc]] Hti|k0 tm0 ar cl Hdt Hdm [Hc|[tid Hc]]]; subst;
      eauto.
  - destruct Hg as (_ & _ & Hc & _). by left.
Qed.

(** An attempt in preparation has a caller that can take its next step. *)
Lemma preparing_enabled r a att :
  inv r -> attempts r !! a = Some att -> ready att = StPreparing -> exists i r', resume a i r = Next r'.
Proof.
  intros Hi Ha Hr. pose proof (inv_local r a att Hi Ha) as Hl. rewrite Hr in Hl.
  inversion Hl; unfold resume.
  - exists Done. eexists. match goal with H : _ = tasks r !! a |- _ => by rewrite <- H end.
  - exists Done. eexists. match goal with H : _ = tasks r !! a |- _ => by rewrite <- H end.
  - exists (Clock 0 0). match goal with H : _ = tasks r !! a |- _ => symmetry in H; rewrite H end.
    destruct (inv_arm r a (mkOwner a (Some a) (Some a) false) delay 0 0 Hi) as (r' & -> & _); [done|eauto].
  - exists Done. eexists. match goal with H : _ = tasks r !! a |- _ => by rewrite <- H end.
Qed.

Lemma timer_claim_fired r a :
  inv r -> ByTimer ∈ claims_of a (hist r) ->
  exists d t n, armed_of a (hist r) = [(d, t)] /\ fired_of a (hist r) = [n] /\ t <= n.
Proof.
  intros Hi Hc. assert (claims_of a (hist r) <> []) as Hne by (intros H; rewrite H in Hc; by apply not_elem_of_nil in Hc).
  destruct (inv_good r Hi a) as [Hg _]. destruct (attempts r !! a) as [att|]; [|naive_solver].
  inversion Hg as [| | | |k0 d t st sl tm0 cl fi Hlt Hcu Hti|k0 tm0 ar cl Hdt Hdm [Hcl|[tid Hcl]]]; try congruence.
  - subst. exists d, t. destruct Hti as (_ & Hab & Hns & Hp).
    destruct (t_phase tm0); try (exfalso; by destruct_and?); [|destruct Hp as [[_ ?]|?]; [done|]]; naive_solver.
  - subst cl. rewrite Hcl in Hc. by apply list_elem_of_singleton in Hc.
Qed.

Lemma armed_entry r a att m d :
  inv r -> attempts r !! a = Some att -> entries r !! subject_key (subject att) = Some (EArmed m) ->
  a_attempt m = a -> ready att = StArmed d ->
  m = mkArmed a d (Some a) a /\ claims_of a (hist r) = [] /\ exists tm, timers r !! a = Some tm.
Proof.
  intros Hi Ha He Hm Hrd. pose proof (inv_local r a att Hi Ha) as Hl.
  rewrite (slot_intro r a att _ Ha He Hm), Hrd in Hl.
  inversion Hl as [| | | |k0 d0 t st sl tm0 cl fi Hlt [[[= Hm'] Hc]|[? _]] Hti|]; try done.
  split_and!; [congruence|congruence|eauto].
Qed.

(** * Properties *)

(** [C7] Whatever the interleaving of callers, timers, dropped callers and aborts, the
    registry never panics and every pending deletion is claimed at most once: by its
    timer or by one caller.  A delete closure that runs holds the only claim and is
    never aborted; a cancel that reported [true] holds the only claim, has settled it,
    and so the deletion it cancelled never runs. *)
Theorem pending_delete_exclusive (es : list Event) :
  exists r, run init es = Some r /\
    (forall a, claims_of a (hist r) = [] \/ exists w, claims_of a (hist r) = [w]) /\
    (forall a tm c, timers r !! a = Some tm -> t_phase tm = PhDelete c ->
       claims_of a (hist r) = [ByTimer] /\ c_guard c = a /\ t_aborted tm = false) /\
    (forall tid, tasks r !! tid = Some (Finished (RCancelled true)) ->
       exists g, claims_of g (hist r) = [ByTask tid] /\ HSettled g ∈ hist r) /\
    (forall tid c, tasks r !! tid = Some (Finished (RClaim (Some c))) ->
       claims_of (c_guard c) (hist r) = [ByTask tid] \/ c_guard c = tid /\ claims_of tid (hist r) = []).
Proof.
  destruct (run_inv es init inv_init) as (r & Hr & Hi). exists r. split; [done|].
  pose proof (inv_claims_unique r Hi) as Hu.
  assert (forall g w, w ∈ claims_of g (hist r) -> claims_of g (hist r) = [w]) as Hone.
  { intros g w Hw. destruct (Hu g) as [H|[w' H]]; rewrite H in *; [by apply not_elem_of_nil in Hw|].
    by apply list_elem_of_singleton in Hw as ->. }
  split_and!; [done| | |].
  - intros a tm c Htm Hph. destruct (inv_timer r a tm Hi Htm) as (att & k & Ha & Hk & Hl).
    inversion Hl as [| | | |k0 d t st sl tm0 cl fi Hlt Hcu Hti|k0 tm0 ar cl Hdt Hdm Hcl]; subst; try done.
    + destruct Hti as (_ & Hab & _ & Hp). rewrite Hph in Hp. destruct Hp as (_ & Hg & Hc & _).
      split_and!; [done|done|]. destruct (t_aborted tm); [|done]. destruct (Hab eq_refl). congruence.
    + destruct Hdm as [_ [?|?]]; congruence.
  - intros tid Ht. destruct (inv_client r tid _ Hi Ht) as (g & Hg & Hs). eauto.
  - intros tid c Ht. destruct (inv_client r tid _ Hi Ht) as [Hg|[Hg Hn]]; [left; by apply Hone|right].
    split; [done|]. destruct (inv_good r Hi tid) as [H _]. rewrite Hn in H. naive_solver.
Qed.

(** A timer only runs the deletion after the grace window: the deadline it waited
    for is the one set when the entry was armed, at most [MAX_UNDO_DELAY_MS] after the
    clock reading then, and is the window reported to the caller. *)
Theorem pending_delete_deadline (es : list Event) (r : Registry) :
  run init es = Some r ->
  (forall a, ByTimer ∈ claims_of a (hist r) ->
     exists d t n, armed_of a (hist r) = [(d, t)] /\ fired_of a (hist r) = [n] /\ t <= n) /\
  (forall tid d newly, tasks r !! tid = Some (Finished (RScheduled d newly)) ->
     exists a t, (d, t) ∈ armed_of a (hist r) /\ (newly = true -> a = tid)) /\
  (forall tid o delay wall mono r', arm tid o delay wall mono r = Next r' ->
     exists w, w <= MAX_UNDO_DELAY_MS /\ w <= delay /\
       hist r' = hist r ++ [HArmed (o_attempt o) (wall + w) (mono + w)]).
Proof.
  intros Hr. destruct (run_inv es init inv_init) as (r' & Hr' & Hi). simplify_eq. split_and!.
  - intros a. by apply timer_claim_fired.
  - intros tid d newly Ht. pose proof (inv_client r tid _ Hi Ht) as Hc. destruct newly; simpl in Hc.
    + destruct Hc as [t Ht']. exists tid, t. auto.
    + destruct Hc as (a & t & Ht'). exists a, t. by split.
  - intros tid o delay wall mono r'. unfold arm, clamp_undo_delay_ms.
    destruct (attempts r !! o_attempt o) as [att|]; [|done]. destruct (entries r !! _) as [e|]; [|done].
    destruct (decide _); [|done]. destruct (o_timer o); [|done]. intros [= <-].
    exists (Z.min delay MAX_UNDO_DELAY_MS). split_and!; [lia|lia|done].
Qed.

Definition subject_a : PendingDeleteSubject := SubjWorkspace "w"%string.

(** Schedules, arms and publishes one deletion. *)
Definition armed_run : list Event :=
  [ESchedule subject_a 5000; EResume 0 Done; EResume 0 Done; EResume 0 (Clock 100 7);
   EResume 0 Done; EResume 0 Done; EResume 0 Done].

Lemma pending_delete_deadline_witness :
  exists r, run init (armed_run ++ [ETimer 0 TStep; ETimer 0 (TTick 5007); ETimer 0 TStep]) = Some r /\
    claims_of 0 (hist r) = [ByTimer] /\
    exists d t n, armed_of 0 (hist r) = [(d, t)] /\ fired_of 0 (hist r) = [n] /\ t <= n.
Proof.
  eexists. split; [vm_compute; reflexivity|]. split; [vm_compute; reflexivity|].
  eapply (proj1 (pending_delete_deadline
    (armed_run ++ [ETimer 0 TStep; ETimer 0 (TTick 5007); ETimer 0 TStep]) _ ltac:(vm_compute; reflexivity))).
  apply list_elem_of_In. vm_compute. by left.
Defined.

(** Nobody waits for a preparation that cannot finish: a caller suspended on an
    attempt can go on, or the caller preparing that attempt can take its next step; and
    an entry of the map is being prepared by a live caller, or is armed with its guard
    and the timer that will claim it. *)
Theorem pending_delete_progress (es : list Event) (r : Registry) :
  run init es = Some r ->
  (forall tid a k s, tasks r !! tid = Some (JWait a) \/ tasks r !! tid = Some (CWait k s a) ->
     (exists r', resume tid Done r = Next r') \/ (exists i r', resume a i r = Next r')) /\
  (forall k e, entries r !! k = Some e ->
     match e with
     | EPreparing a => exists i r', resume a i r = Next r'
     | EArmed m => a_guard m = Some (a_attempt m) /\ a_handle m = a_attempt m /\
         exists tm, timers r !! a_attempt m = Some tm /\ forall c, t_phase tm <> PhDelete c
     end).
Proof.
  intros Hr. destruct (run_inv es init inv_init) as (r' & Hr' & Hi). simplify_eq. split.
  - intros tid a k s Ht.
    assert (is_Some (attempts r !! a)) as [att Ha] by (destruct Ht as [Ht|Ht]; apply (inv_client r tid _ Hi Ht)).
    destruct (ready att) eqn:Er; [right; by eapply preparing_enabled|left..];
      destruct Ht as [Ht|Ht]; unfold resume; rewrite Ht, Ha; simpl; rewrite Er; eauto.
  - intros k e He. destruct (inv_entry r Hi k e He) as (att & Ha & <-).
    pose proof (slot_intro r _ att e Ha He eq_refl) as Hs. pose proof (inv_local r _ att Hi Ha) as Hl. rewrite Hs in Hl.
    destruct e as [a|m]; simpl in *.
    + assert (ready att = StPreparing) as Er.
      { inversion Hl as [| | | |? ? ? ? ? ? ? ? ? Hcu ?|]; subst; try done. by destruct Hcu as [[? _]|[? _]]. }
      by eapply preparing_enabled.
    + inversion Hl as [| | |d t|k0 d t st sl tm0 cl fi Hlt Hcu Hti|]; subst; simpl.
      * split_and!; [done|done|]. eexists. split; [done|]. done.
      * destruct Hcu as [[[= ->] Hc]|[? _]]; [|done]. simpl in *. split_and!; [done|done|]. exists tm0. split; [done|].
        intros c Hph. destruct Hti as (_ & _ & _ & Hp). rewrite Hph, Hc in Hp. naive_solver.
Qed.

Lemma pending_delete_progress_witness :
  exists r, run init [ESchedule subject_a 5000; ESchedule subject_a 10] = Some r /\
    tasks r !! 1%nat = Some (JWait 0) /\
    ((exists r', resume 1 Done r = Next r') \/ (exists i r', resume 0 i r = Next r')).
Proof.
  eexists. split; [vm_compute; reflexivity|]. split; [vm_compute; reflexivity|].
  eapply (proj1 (pending_delete_progress [ESchedule subject_a 5000; ESchedule subject_a 10] _
    ltac:(vm_compute; reflexivity)) 1%nat 0%nat Cascade subject_a).
  left. vm_compute. reflexivity.
Defined.

(** Cancelling an armed deletion that nobody claimed, undisturbed, takes the entry
    out of the registry, aborts its timer, settles the claim and reports [true]. *)
Theorem cancel_owned_succeeds (es : list Event) (r : Registry) (s : PendingDeleteSubject) (m : OwnedArmed) (att : Attempt) (d : Z) :
  run init es = Some r -> entries r !! subject_key s = Some (EArmed m) ->
  attempts r !! a_attempt m = Some att -> subject att = s -> ready att = StArmed d ->
  exists r', run r [ETake Cancel s; EResume (next r) Done; EResume (next r) Done; EResume (next r) Done] = Some r' /\
    tasks r' !! next r = Some (Finished (RCancelled true)) /\ entries r' = delete (subject_key s) (entries r) /\
    claims_of (a_attempt m) (hist r') = [ByTask (next r)] /\ HSettled (a_attempt m) ∈ hist r' /\
    t_aborted <$> timers r' !! a_attempt m = Some true.
Proof.
  intros Hr He Ha <- Hrd. destruct (run_inv es init inv_init) as (r0 & Hr0 & Hi). simplify_eq.
  destruct (armed_entry r _ att m d Hi Ha He eq_refl Hrd) as (Hm & Hcl & tm & Htm).
  set (a := a_attempt m) in *. clearbody a. subst m. set (n := next r) in *.
  cbn [run step]. unfold start_take at 1. rewrite He. simpl. rewrite Ha. simpl.
  unfold check_subject at 1. rewrite bool_decide_eq_true_2 by done. unfold spawn_call at 1. fold n.
  unfold resume at 1. simpl. rewrite lookup_insert_eq, Ha. simpl. rewrite Hrd.
  unfold resume at 1. simpl. rewrite lookup_insert_eq. unfold take_armed at 1. simpl.
  rewrite Ha. simpl. rewrite He, decide_True by done. simpl.
  unfold resume at 1. simpl. rewrite lookup_insert_eq. eexists. split; [done|]. simpl.
  rewrite lookup_insert_eq. split; [done|]. split; [done|]. split.
  - unfold claims_of in *. rewrite !omap_app, Hcl. simpl. by rewrite decide_True.
  - split; [set_solver|]. by rewrite lookup_alter_eq, Htm.
Qed.

Definition armed_registry : Registry := default init (run init armed_run).

Lemma cancel_owned_succeeds_witness :
  exists r', run armed_registry [ETake Cancel subject_a; EResume 1 Done; EResume 1 Done; EResume 1 Done] = Some r' /\
    tasks r' !! 1%nat = Some (Finished (RCancelled true)) /\ HSettled 0 ∈ hist r'.
Proof.
  destruct (cancel_owned_succeeds armed_run armed_registry subject_a (mkArmed 0 5100 (Some 0%nat) 0)
    (mkAttempt subject_a (StArmed 5100)) 5100) as (r' & H1 & H2 & _ & _ & H3 & _); [vm_compute; reflexivity..|].
  exists r'. split; [exact H1|]. split; [exact H2|exact H3].
Defined.

(** * The standalone registry [PendingDeletes] *)

Module Legacy.

Record Pending := mkPending { delete_at : string; generation : Z }.

Record PendingDeletes := mkPD { inner : gmap string Pending; next_generation : Z }.

Definition empty : PendingDeletes := mkPD ∅ 0.

Definition deadline (key : string) (p : PendingDeletes) : option string := delete_at <$> inner p !! key.

(** [schedule]: the deadline already pending, or the generation given to the new timer. *)
Definition schedule (key at_ : string) (p : PendingDeletes) : string + Z * PendingDeletes :=
  match inner p !! key with
  | Some existing => inl (delete_at existing)
  | None =>
      let g := next_generation p in
      inr (g, mkPD (<[key := mkPending at_ g]> (inner p)) (wrapping_add u64_max g 1))
  end.

Definition claim (key : string) (g : Z) (p : PendingDeletes) : bool * PendingDeletes :=
  match inner p !! key with
  | Some x => if generation x =? g then (true, mkPD (delete key (inner p)) (next_generation p)) else (false, p)
  | None => (false, p)
  end.

(** [cancel]; aborting the removed entry's timer is not part of this state. *)
Definition cancel (key : string) (p : PendingDeletes) : bool * PendingDeletes :=
  match inner p !! key with
  | Some _ => (true, mkPD (delete key (inner p)) (next_generation p))
  | None => (false, p)
  end.

Inductive Op := OSchedule (key at_ : string) | OClaim (key : string) (g : Z) | OCancel (key : string).

Definition apply_op (o : Op) (p : PendingDeletes) : PendingDeletes :=
  match o with
  | OSchedule key at_ => match schedule key at_ p with inl _ => p | inr (_, p') => p' end
  | OClaim key g => (claim key g p).2
  | OCancel key => (cancel key p).2
  end.

Fixpoint ops (os : list Op) (p : PendingDeletes) : PendingDeletes :=
  match os with [] => p | o :: os' => ops os' (apply_op o p) end.

(** No timer of generation below [n] owns the entry of [key]. *)
Definition stale (key : string) (n : Z) (p : PendingDeletes) : Prop :=
  0 <= n <= next_generation p /\ forall x, inner p !! key = Some x -> n <= generation x.

Lemma stale_op key n o p :
  stale key n p -> next_generation p < u64_max ->
  stale key n (apply_op o p) /\ next_generation (apply_op o p) <= next_generation p + 1.
Proof.
  intros [Hn Hx] Hmax. destruct o as [k at_|k g|k]; simpl.
  - unfold schedule. destruct (inner p !! k) as [e|] eqn:E; [split; [by split|lia]|].
    assert (wrapping_add u64_max (next_generation p) 1 = next_generation p + 1) as Hw
      by (unfold wrapping_add, u64_max in *; rewrite Z.mod_small; lia).
    unfold stale. simpl. rewrite Hw. split; [split; [lia|]|lia].
    intros x [[<- <-]|[_ Hl]]%lookup_insert_Some; simpl; [lia|by apply Hx].
  - unfold claim. destruct (inner p !! k) as [e|]; [|split; [by split|simpl; lia]].
    destruct (generation e =? g); simpl; (split; [split; [simpl; lia|]|simpl; lia]); [|done].
    simpl. intros x [_ Hl]%lookup_delete_Some. by apply Hx.
  - unfold cancel. destruct (inner p !! k) as [e|]; simpl; (split; [split; [simpl; lia|]|simpl; lia]); [|done].
    simpl. intros x [_ Hl]%lookup_delete_Some. by apply Hx.
Qed.

Lemma stale_ops key n os : forall p,
  stale key n p -> next_generation p + len os <= u64_max -> stale key n (ops os p).
Proof.
  induction os as [|o os IH]; intros p Hs Hm; [done|]. rewrite len_cons in Hm. pose proof (len_nonneg os).
  destruct (stale_op key n o p Hs) as [Hs' Hn']; [lia|]. simpl. apply IH; [done|lia].
Qed.

Lemma generation_op o p :
  0 <= next_generation p < u64_max -> 0 <= next_generation (apply_op o p) <= next_generation p + 1.
Proof.
  intros Hp. destruct o as [k at_|k g|k]; simpl.
  - unfold schedule. destruct (inner p !! k); simpl; [lia|]. unfold wrapping_add, u64_max in *. rewrite Z.mod_small; lia.
  - unfold claim. destruct (inner p !! k); [destruct (_ =? _)|]; simpl; lia.
  - unfold cancel. destruct (inner p !! k); simpl; lia.
Qed.

Lemma generation_ops os : forall p, 0 <= next_generation p -> next_generation p + len os <= u64_max ->
  0 <= next_generation (ops os p) <= next_generation p + len os.
Proof.
  induction os as [|o os IH]; intros p H0 Hm; simpl; [rewrite len_nil; lia|].
  rewrite len_cons in *. pose proof (len_nonneg os). pose proof (generation_op o p).
  specialize (IH (apply_op o p)). lia.
Qed.

Lemma generation_bound os : len os <= u64_max -> 0 <= next_generation (ops os empty) <= len os.
Proof. intros Hm. apply (generation_ops os empty); simpl; lia. Qed.

(** A timer whose entry was cancelled can never commit the deletion: its claim is
    refused for ever after, also when the same key is scheduled again meanwhile, as
    long as the 64-bit generation counter does not wrap. *)
Theorem cancelled_timer_never_claims (before after : list Op) (key : string) (g : Z) :
  g < next_generation (ops before empty) -> (cancel key (ops before empty)).1 = true ->
  len before + len after <= u64_max ->
  (claim key g (ops after (cancel key (ops before empty)).2)).1 = false.
Proof.
  intros Hg Hc Hlen. pose proof (len_nonneg before). pose proof (len_nonneg after).
  assert (0 <= next_generation (ops before empty) <= len before) as Hb by (apply generation_bound; lia).
  set (p := ops before empty) in *. clearbody p.
  assert (stale key (next_generation p) (cancel key p).2) as Hs.
  { unfold cancel in *. destruct (inner p !! key); [|done]. split; [simpl; lia|]. simpl. by rewrite lookup_delete_eq. }
  apply (stale_ops key (next_generation p) after) in Hs as [_ Hs].
  2: { unfold cancel in *. destruct (inner p !! key); simpl; [lia|done]. }
  unfold claim. destruct (inner _ !! key) as [x|]; [|done].
  assert ((generation x =? g) = false) as -> by (specialize (Hs x eq_refl); lia). done.
Qed.

Lemma cancelled_timer_never_claims_witness :
  (claim "k"%string 0 (ops [OSchedule "k"%string "t2"%string]
    (cancel "k"%string (ops [OSchedule "k"%string "t"%string] empty)).2)).1 = false.
Proof.
  apply (cancelled_timer_never_claims [OSchedule "k"%string "t"%string] [OSchedule "k"%string "t2"%string] "k"%string 0);
    vm_compute; done.
Defined.

End Legacy.
