(* ===== verification/GitStatus.v ===== *)
(** * Working-tree status cache
    ([crates/intent-services/src/git_status_cache.rs],
    [crates/intent-services/src/git_status_singleflight.rs])

    The event-invalidated cache of working-tree scans and the single flight it
    scans through, as one machine.  Callers of [get] and [get_fresh] advance one
    lock region or one channel operation at a time, interleaved with
    invalidations, evictions, cancelled callers and the passing of time.  What a
    scan finds is part of the event that ends it. *)
From stdpp Require Import prelude strings gmap.
From S2P Require Import Prelude.

(** Five seconds, in nanoseconds. *)
Definition STATUS_CACHE_TTL : Z := 5 * 10 ^ 9.

(** [status_key]: the canonical path. *)
Definition StatusKey : Type := string.

(** A scanned status; [started] is history, the step at which its scan started. *)
Record GitStatus := mkStatus { payload : Z; started : nat }.

(** [intent_core::Error], as far as the cache looks at it. *)
Inductive Error :=
| Internal (msg : string)
| OtherError (display : string).

Definition SharedStatusResult : Type := Result GitStatus string.

(** The cache entry of a worktree; the stamp is when the status was stored. *)
Record Slot := mkSlot { generation : Z; cached : option (GitStatus * Z) }.

Definition default_slot : Slot := mkSlot 0 None.

(** A flight is identified by its index; [retired] also says that its channels
    are closed.  [f_started] is history. *)
Record Flight := mkFlight {
  f_key : StatusKey;
  f_generation : Z;
  result : option SharedStatusResult;
  retired : bool;
  f_started : nat;
}.

(** ** Callers *)

(** What a leader does once its guard is gone. *)
Inductive After :=
| Return (r : Result GitStatus Error)
| Again
| Vanish.

(** Where a call stands; every constructor but the last four waits for a lock or
    publishes, the others wait for a scan, for a channel or for nothing. *)
Inductive Pc :=
| Enter
| Snapshot
| JoinWith (candidate_generation : Z)
| Store (f : nat) (status : GitStatus)
| Publish (f : nat) (r : SharedStatusResult) (k : After)
| Unregister (f : nat) (k : After)
| Retire (f : nat) (k : After)
| Accept (f : nat) (r : SharedStatusResult)
| Scan (f : nat)
| Follow (f : nat)
| AwaitRetired (f : nat)
| Returned (hit : bool) (r : Result GitStatus Error)
| Gone.

(** [c_fresh] tells [get_fresh] from [get].  History: the step of the call's
    first lock region, and the last invalidation before it. *)
Record Caller := mkCaller {
  c_key : StatusKey;
  c_fresh : bool;
  minimum_generation : option Z;
  c_called : nat;
  c_seen : option nat;
  c_pc : Pc;
}.

Definition set_pc (pc : Pc) (c : Caller) : Caller :=
  mkCaller (c_key c) (c_fresh c) (minimum_generation c) (c_called c) (c_seen c) pc.

(** ** State *)

Record GitStatusCache := mkCache {
  slots : gmap StatusKey Slot;
  inflight : gmap StatusKey nat;
  flights : list Flight;
  callers : list Caller;
  now : Z;
  (** history: steps taken, and the step of the last invalidation of a key *)
  tick : nat;
  invalidated : gmap StatusKey nat;
}.

Definition new_cache : GitStatusCache := mkCache ∅ ∅ [] [] 0 0 ∅.

Definition set_slot (k : StatusKey) (sl : Slot) (s : GitStatusCache) : GitStatusCache :=
  mkCache (<[k := sl]> (slots s)) (inflight s) (flights s) (callers s) (now s) (tick s) (invalidated s).
Definition set_inflight (m : gmap StatusKey nat) (s : GitStatusCache) : GitStatusCache :=
  mkCache (slots s) m (flights s) (callers s) (now s) (tick s) (invalidated s).
Definition set_flights (fs : list Flight) (s : GitStatusCache) : GitStatusCache :=
  mkCache (slots s) (inflight s) fs (callers s) (now s) (tick s) (invalidated s).
Definition set_callers (cs : list Caller) (s : GitStatusCache) : GitStatusCache :=
  mkCache (slots s) (inflight s) (flights s) cs (now s) (tick s) (invalidated s).
Definition note_invalidated (k : StatusKey) (s : GitStatusCache) : GitStatusCache :=
  mkCache (slots s) (inflight s) (flights s) (callers s) (now s) (tick s) (<[k := tick s]> (invalidated s)).

Definition put (i : nat) (c : Caller) (s : GitStatusCache) : GitStatusCache :=
  set_callers (<[i := c]> (callers s)) s.

(** [slots.entry(key).or_default()]. *)
Definition slot_of (s : GitStatusCache) (k : StatusKey) : Slot := default default_slot (slots s !! k).

Definition next_generation (sl : Slot) : Z := wrapping_add u64_max (generation sl) 1.

(** [GitStatusCache::invalidate]: nothing happens without a slot. *)
Definition invalidate (k : StatusKey) (s : GitStatusCache) : GitStatusCache :=
  note_invalidated k
    match slots s !! k with
    | Some sl => set_slot k (mkSlot (next_generation sl) None) s
    | None => s
    end.

(** [GitStatusCache::evict]. *)
Definition evict (k : StatusKey) (s : GitStatusCache) : GitStatusCache :=
  mkCache (delete k (slots s)) (inflight s) (flights s) (callers s) (now s) (tick s) (invalidated s).

(** The first lock region of [get]: a live hit, or the way to [scan]; an expired
    status is dropped. *)
Definition get_enter (c : Caller) (s : GitStatusCache) : Caller * GitStatusCache :=
  let k := c_key c in
  let sl := slot_of s k in
  let at_ pc := mkCaller k false None (tick s) (invalidated s !! k) pc in
  match cached sl with
  | Some (status, stored_at) =>
      if now s - stored_at <? STATUS_CACHE_TTL then (at_ (Returned true (Ok status)), set_slot k sl s)
      else (at_ Snapshot, set_slot k (mkSlot (generation sl) None) s)
  | None => (at_ Snapshot, set_slot k sl s)
  end.

(** The first lock region of [get_fresh]: its own invalidation. *)
Definition get_fresh_enter (c : Caller) (s : GitStatusCache) : Caller * GitStatusCache :=
  let k := c_key c in
  let g := next_generation (slot_of s k) in
  (mkCaller k true (Some g) (tick s) (invalidated s !! k) Snapshot,
   note_invalidated k (set_slot k (mkSlot g None) s)).

(** [StatusSingleFlight::join]. *)
Definition join (k : StatusKey) (candidate : Z) (s : GitStatusCache) : Pc * GitStatusCache :=
  match inflight s !! k with
  | Some f => (Follow f, s)
  | None =>
      let f := length (flights s) in
      (Scan f, set_inflight (<[k := f]> (inflight s))
                 (set_flights (flights s ++ [mkFlight k candidate None false (tick s)]) s))
  end.

(** [GitStatusCache::store]: whether the slot took the status. *)
Definition store (k : StatusKey) (g : Z) (status : GitStatus) (s : GitStatusCache) : bool * GitStatusCache :=
  let sl := slot_of s k in
  if generation sl =? g then (true, set_slot k (mkSlot (generation sl) (Some (status, now s))) s)
  else (false, set_slot k sl s).

(** What the leader does after a scan that succeeded. *)
Definition leader_after (c : Caller) (g : Z) (stored : bool) (status : GitStatus) : After :=
  match minimum_generation c with
  | Some minimum => if (g <? minimum) || negb stored then Again else Return (Ok status)
  | None => Return (Ok status)
  end.

Definition publish (f : nat) (r : SharedStatusResult) (s : GitStatusCache) : GitStatusCache :=
  set_flights (alter (fun fl => mkFlight (f_key fl) (f_generation fl) (Some r) (retired fl) (f_started fl)) f (flights s)) s.

(** The two halves of [FlightGuard]'s [drop]. *)
Definition unregister (k : StatusKey) (f : nat) (s : GitStatusCache) : GitStatusCache :=
  if decide (inflight s !! k = Some f) then set_inflight (delete k (inflight s)) s else s.

Definition retire (f : nat) (s : GitStatusCache) : GitStatusCache :=
  set_flights (alter (fun fl => mkFlight (f_key fl) (f_generation fl) (result fl) true (f_started fl)) f (flights s)) s.

Definition after_pc (k : After) : Pc :=
  match k with Return r => Returned false r | Again => Snapshot | Vanish => Gone end.

(** How a follower reads the shared result. *)
Definition from_shared (r : SharedStatusResult) : Result GitStatus Error :=
  match r with Ok status => Ok status | Err msg => Err (Internal msg) end.

(** How a leader shares its error. *)
Definition shared_error (e : Error) : string :=
  match e with Internal msg => msg | OtherError display => display end.

(** The test of a follower on a published result; the slot is read, and created,
    only for a forced call whose flight is recent enough. *)
Definition accept (c : Caller) (f : nat) (g : Z) (r : SharedStatusResult) (s : GitStatusCache) : Pc * GitStatusCache :=
  match minimum_generation c with
  | None => (Returned false (from_shared r), s)
  | Some minimum =>
      if g <? minimum then (AwaitRetired f, s)
      else
        let sl := slot_of s (c_key c) in
        (if generation sl =? g then Returned false (from_shared r) else AwaitRetired f,
         set_slot (c_key c) sl s)
  end.

(** [FlightFollower::result], one poll: pending, closed without a result, or the
    published result. *)
Definition follower_result (fl : Flight) : option (option SharedStatusResult) :=
  match result fl with
  | Some r => Some (Some r)
  | None => if retired fl then Some None else None
  end.

(** [FlightFollower::wait_for_retirement], one poll. *)
Definition wait_for_retirement (fl : Flight) : option unit := if retired fl then Some tt else None.

(** ** Steps *)

(** One step of a caller that is not waiting for its scan. *)
Definition resume (c : Caller) (s : GitStatusCache) : option (Caller * GitStatusCache) :=
  let k := c_key c in
  let go pc s := Some (set_pc pc c, s) in
  match c_pc c with
  | Enter => Some (if c_fresh c then get_fresh_enter c s else get_enter c s)
  | Snapshot => go (JoinWith (generation (slot_of s k))) (set_slot k (slot_of s k) s)
  | JoinWith candidate => let '(pc, s') := join k candidate s in go pc s'
  | Store f status =>
      fl ← flights s !! f;
      let '(stored, s') := store k (f_generation fl) status s in
      go (Publish f (Ok status) (leader_after c (f_generation fl) stored status)) s'
  | Publish f r k' => go (Unregister f k') (publish f r s)
  | Unregister f k' => go (Retire f k') (unregister k f s)
  | Retire f k' => go (after_pc k') (retire f s)
  | Follow f =>
      fl ← flights s !! f;
      published ← follower_result fl;
      match published with
      | Some r => go (Accept f r) s
      | None => go Snapshot s
      end
  | Accept f r => fl ← flights s !! f; let '(pc, s') := accept c f (f_generation fl) r s in go pc s'
  | AwaitRetired f => fl ← flights s !! f; _ ← wait_for_retirement fl; go Snapshot s
  | Scan _ | Returned _ _ | Gone => None
  end.

(** How the blocking scan ends. *)
Inductive ScanOutcome :=
| Scanned (value : Z)
| ScanFailed (e : Error)
| TaskFailed (msg : string).

Definition scan_done (c : Caller) (o : ScanOutcome) (s : GitStatusCache) : option Caller :=
  match c_pc c with
  | Scan f =>
      fl ← flights s !! f;
      Some (set_pc
        match o with
        | Scanned v => Store f (mkStatus v (f_started fl))
        | ScanFailed e => Publish f (Err (shared_error e)) (Return (Err e))
        | TaskFailed msg => Unregister f (Return (Err (Internal ("git status scan task failed: " +:+ msg))))
        end c)
  | _ => None
  end.

(** The caller's future is dropped at one of its awaits. *)
Definition cancel (c : Caller) : option Caller :=
  match c_pc c with
  | Scan f => Some (set_pc (Unregister f Vanish) c)
  | Enter | Follow _ | AwaitRetired _ => Some (set_pc Gone c)
  | _ => None
  end.

Inductive Event :=
| Call (k : StatusKey) (fresh : bool)
| Resume (i : nat)
| ScanDone (i : nat) (o : ScanOutcome)
| Cancel (i : nat)
| Invalidate (k : StatusKey)
| Evict (k : StatusKey)
| Advance (d : N).

Definition do_event (s : GitStatusCache) (e : Event) : option GitStatusCache :=
  match e with
  | Call k fresh => Some (set_callers (callers s ++ [mkCaller k fresh None (tick s) None Enter]) s)
  | Resume i => c ← callers s !! i; '(c', s') ← resume c s; Some (put i c' s')
  | ScanDone i o => c ← callers s !! i; c' ← scan_done c o s; Some (put i c' s)
  | Cancel i => c ← callers s !! i; c' ← cancel c; Some (put i c' s)
  | Invalidate k => Some (invalidate k s)
  | Evict k => Some (evict k s)
  | Advance d =>
      Some (mkCache (slots s) (inflight s) (flights s) (callers s) (now s + Z.of_N d) (tick s) (invalidated s))
  end.

Definition ticked (s : GitStatusCache) : GitStatusCache :=
  mkCache (slots s) (inflight s) (flights s) (callers s) (now s) (S (tick s)) (invalidated s).

(** [None] when the event is not possible in this state. *)
Definition step (s : GitStatusCache) (e : Event) : option GitStatusCache :=
  s' ← do_event s e; Some (ticked s').

(** The states reached by events that satisfy [allowed]. *)
Inductive reachable (allowed : Event -> Prop) : GitStatusCache -> Prop :=
| reach_new : reachable allowed new_cache
| reach_step s e s' : reachable allowed s -> allowed e -> step s e = Some s' -> reachable allowed s'.

Definition not_evict (e : Event) : Prop := match e with Evict _ => False | _ => True end.

(** An executable run; events that are not possible are skipped. *)
Fixpoint run (s : GitStatusCache) (es : list Event) : GitStatusCache :=
  match es with
  | [] => s
  | e :: es' => run (default s (step s e)) es'
  end.

(** ** Structure of the flights

    Which flight a caller's position names: as its registered leader, as the
    owner of its guard, or at all. *)
Definition leads (pc : Pc) : option nat :=
  match pc with
  | Scan f | Store f _ | Publish f _ _ | Unregister f _ => Some f
  | _ => None
  end.

Definition holds (pc : Pc) : option nat :=
  match pc with Retire f _ => Some f | _ => leads pc end.

Definition names (pc : Pc) : option nat :=
  match pc with
  | Follow f | Accept f _ | AwaitRetired f => Some f
  | _ => holds pc
  end.

Lemma leads_holds pc f : leads pc = Some f -> holds pc = Some f.
Proof. by destruct pc. Qed.

Lemma holds_names pc f : holds pc = Some f -> names pc = Some f.
Proof. by destruct pc. Qed.

Record flights_ok (s : GitStatusCache) : Prop := {
  registered_led k f : inflight s !! k = Some f ->
    exists i c, callers s !! i = Some c /\ leads (c_pc c) = Some f /\ c_key c = k;
  led_registered i c f : callers s !! i = Some c -> leads (c_pc c) = Some f ->
    inflight s !! c_key c = Some f;
  one_holder i j c d f : callers s !! i = Some c -> callers s !! j = Some d ->
    holds (c_pc c) = Some f -> holds (c_pc d) = Some f -> i = j;
  named_flight i c f : callers s !! i = Some c -> names (c_pc c) = Some f ->
    exists fl, flights s !! f = Some fl /\ f_key fl = c_key c;
  flight_held f fl : flights s !! f = Some fl -> retired fl = false ->
    exists i c, callers s !! i = Some c /\ holds (c_pc c) = Some f;
}.

(** Flights keep what identifies them; new ones only come at the end. *)
Definition same_flight (fl fl' : Flight) : Prop :=
  f_key fl = f_key fl' /\ f_generation fl = f_generation fl' /\ f_started fl = f_started fl'.

Definition flights_kept (fs fs' : list Flight) : Prop :=
  forall f fl, fs !! f = Some fl -> exists fl', fs' !! f = Some fl' /\ same_flight fl fl'.

Lemma flights_kept_refl fs : flights_kept fs fs.
Proof. intros f fl ?. by exists fl. Qed.

Lemma flights_kept_alter fs f g :
  (forall fl, same_flight fl (g fl)) -> flights_kept fs (alter g f fs).
Proof.
  intros Hg j fl Hj. destruct (decide (f = j)) as [->|].
  - exists (g fl). by rewrite list_lookup_alter_eq, Hj.
  - exists fl. by rewrite list_lookup_alter_ne.
Qed.

Lemma flights_kept_app fs fs' : flights_kept fs (fs ++ fs').
Proof. intros f fl Hf. exists fl. split; [by apply lookup_app_l_Some|done]. Qed.

(** A caller moves without touching the registrations. *)
Lemma flights_ok_move s s' i c c' :
  flights_ok s -> callers s !! i = Some c -> c_key c' = c_key c ->
  inflight s' = inflight s -> callers s' = <[i := c']> (callers s) ->
  leads (c_pc c') = leads (c_pc c) -> holds (c_pc c') = holds (c_pc c) ->
  flights_kept (flights s) (flights s') ->
  (forall f fl', flights s' !! f = Some fl' -> retired fl' = false ->
     exists fl, flights s !! f = Some fl /\ retired fl = false) ->
  (forall f, names (c_pc c') = Some f -> exists fl, flights s !! f = Some fl /\ f_key fl = c_key c) ->
  flights_ok s'.
Proof.
  intros [R L O N H] Hi Hk Hin Hcs Hl Hh Hkept Hret Hn.
  assert (forall j d, callers s' !! j = Some d -> exists d0, callers s !! j = Some d0 /\ c_key d = c_key d0 /\
    leads (c_pc d) = leads (c_pc d0) /\ holds (c_pc d) = holds (c_pc d0) /\ (j <> i -> d = d0)) as Hback.
  { intros j d Hj. rewrite Hcs in Hj. destruct (decide (i = j)) as [<-|].
    - rewrite list_lookup_insert_eq in Hj by (by eapply lookup_lt_Some). injection Hj as <-. by exists c.
    - rewrite list_lookup_insert_ne in Hj by done. by exists d. }
  assert (forall j d, callers s !! j = Some d -> exists d', callers s' !! j = Some d' /\ c_key d' = c_key d /\
    leads (c_pc d') = leads (c_pc d) /\ holds (c_pc d') = holds (c_pc d)) as Hforth.
  { intros j d Hj. rewrite Hcs. destruct (decide (i = j)) as [<-|].
    - exists c'. rewrite list_lookup_insert_eq by (by eapply lookup_lt_Some). naive_solver.
    - exists d. by rewrite list_lookup_insert_ne. }
  split.
  - intros k f Hkf. rewrite Hin in Hkf. destruct (R _ _ Hkf) as (j & d & Hj & Hd & <-).
    destruct (Hforth _ _ Hj) as (d' & ? & ? & ? & _). exists j, d'. naive_solver congruence.
  - intros j d f Hj Hd. destruct (Hback _ _ Hj) as (d0 & Hj0 & -> & Hd0 & _). rewrite Hin.
    apply (L j d0); [done|congruence].
  - intros j j' d d' f Hj Hj' Hd Hd'.
    destruct (Hback _ _ Hj) as (d0 & ? & _ & _ & ? & _), (Hback _ _ Hj') as (d0' & ? & _ & _ & ? & _).
    apply (O j j' d0 d0' f); congruence.
  - intros j d f Hj Hd. destruct (Hback _ _ Hj) as (d0 & Hj0 & Hkey & _ & _ & Hne). rewrite Hkey.
    assert (exists fl, flights s !! f = Some fl /\ f_key fl = c_key d0) as (fl & Hf & <-).
    { destruct (decide (i = j)) as [<-|]; [|rewrite (Hne ltac:(done)) in Hd; by apply (N j d0)].
      assert (d = c') as -> by (rewrite Hcs, list_lookup_insert_eq in Hj by (by eapply lookup_lt_Some); congruence).
      destruct (Hn _ Hd) as (fl & ? & ?). exists fl. split; [done|congruence]. }
    destruct (Hkept _ _ Hf) as (fl' & ? & ? & _). exists fl'. naive_solver congruence.
  - intros f fl' Hf Hr. destruct (Hret _ _ Hf Hr) as (fl & Hf0 & Hr0).
    destruct (H _ _ Hf0 Hr0) as (j & d & Hj & Hd). destruct (Hforth _ _ Hj) as (d' & ? & _ & _ & ?).
    exists j, d'. naive_solver congruence.
Qed.

Lemma flights_ok_fields s s' :
  inflight s' = inflight s -> flights s' = flights s -> callers s' = callers s ->
  flights_ok s -> flights_ok s'.
Proof. intros Hi Hf Hc [R L O N H]. split; rewrite ?Hi, ?Hf, ?Hc; assumption. Qed.

(** A caller whose position names no flight is never disturbed. *)
Lemma flights_ok_call s c :
  flights_ok s -> names (c_pc c) = None -> holds (c_pc c) = None -> leads (c_pc c) = None ->
  flights_ok (set_callers (callers s ++ [c]) s).
Proof.
  intros [R L O N H] Hn Hh Hl.
  assert (forall j d, (callers s ++ [c]) !! j = Some d -> callers s !! j = Some d \/ d = c) as Hback.
  { intros j d [Hj|[_ Hj]]%lookup_app_Some; [by left|right]. by apply list_lookup_singleton_Some in Hj as [_ ->]. }
  assert (forall j d, callers s !! j = Some d -> (callers s ++ [c]) !! j = Some d) as Hforth.
  { intros j d ?. by apply lookup_app_l_Some. }
  split; simpl.
  - intros k f (j & d & ? & ? & ?)%R. exists j, d. auto.
  - intros j d f [Hj| ->]%Hback Hd; [by apply (L j)|congruence].
  - intros j j' d d' f [Hj| ->]%Hback [Hj'| ->]%Hback Hd Hd'; [by apply (O j j' d d' f)|congruence..].
  - intros j d f [Hj| ->]%Hback Hd; [by apply (N j)|congruence].
  - intros f fl Hf Hr. destruct (H f fl Hf Hr) as (j & d & ? & ?). exists j, d. auto.
Qed.

Lemma flights_ok_lead s i c candidate :
  flights_ok s -> callers s !! i = Some c -> c_pc c = JoinWith candidate ->
  inflight s !! c_key c = None ->
  flights_ok (put i (set_pc (Scan (length (flights s))) c)
    (set_inflight (<[c_key c := length (flights s)]> (inflight s))
      (set_flights (flights s ++ [mkFlight (c_key c) candidate None false (tick s)]) s))).
Proof.
  intros [R L O N H] Hi Hpc Hnone. set (f0 := length (flights s)). set (c' := set_pc (Scan f0) c).
  assert (<[i := c']> (callers s) !! i = Some c') as Hnew by (by eapply lookup_inserted).
  assert (forall j d f, callers s !! j = Some d -> names (c_pc d) = Some f -> (f < f0)%nat) as Hlt.
  { intros j d f Hj Hd. destruct (N j d f Hj Hd) as (fl & Hf & _). by eapply lookup_lt_Some. }
  split; simpl; fold f0 c'.
  - intros k f [[<- <-]|[Hne Hk]]%lookup_insert_Some; [by exists i, c'|].
    destruct (R _ _ Hk) as (j & d & Hj & Hd & Hkey). exists j, d. rewrite list_lookup_insert_ne; [done|].
    intros ->. rewrite Hi in Hj. injection Hj as <-. by rewrite Hpc in Hd.
  - intros j d f [[-> ->]|[Hne Hj]]%insert_cases Hd; [injection Hd as <-; apply lookup_insert_eq|].
    pose proof (L j d f Hj Hd) as Hreg. rewrite lookup_insert_ne; [done|]. intros Heq. rewrite <- Heq in Hreg. congruence.
  - intros j j' d d' f [[-> ->]|[Hne Hj]]%insert_cases [[-> ->]|[Hne' Hj']]%insert_cases Hd Hd'; [done|..|by apply (O j j' d d' f)].
    + injection Hd as <-. pose proof (Hlt _ _ _ Hj' (holds_names _ _ Hd')). lia.
    + injection Hd' as <-. pose proof (Hlt _ _ _ Hj (holds_names _ _ Hd)). lia.
  - intros j d f [[-> ->]|[Hne Hj]]%insert_cases Hd.
    + injection Hd as <-. eexists. split; [apply list_lookup_middle; done|done].
    + destruct (N j d f Hj Hd) as (fl & Hf & Hk). exists fl. split; [by apply lookup_app_l_Some|done].
  - intros f fl [Hf|[Hge Hf]]%lookup_app_Some Hr.
    + destruct (H f fl Hf Hr) as (j & d & Hj & Hd). exists j, d. rewrite list_lookup_insert_ne; [done|].
      intros ->. rewrite Hi in Hj. injection Hj as <-. by rewrite Hpc in Hd.
    + apply list_lookup_singleton_Some in Hf as [Hf _]. exists i, c'. split; [done|]. simpl. f_equal. lia.
Qed.

Lemma flights_ok_unregister s i c f k :
  flights_ok s -> callers s !! i = Some c -> c_pc c = Unregister f k ->
  flights_ok (put i (set_pc (Retire f k) c) (unregister (c_key c) f s)).
Proof.
  intros [R L O N H] Hi Hpc. set (c' := set_pc (Retire f k) c).
  pose proof (L i c f Hi ltac:(by rewrite Hpc)) as Hreg.
  unfold unregister. rewrite decide_True by done.
  assert (<[i := c']> (callers s) !! i = Some c') as Hnew by (by eapply lookup_inserted).
  split; simpl; fold c'.
  - intros k' f' [Hne Hk]%lookup_delete_Some. destruct (R _ _ Hk) as (j & d & Hj & Hd & Hkey). exists j, d.
    rewrite list_lookup_insert_ne; [done|]. intros ->. rewrite Hi in Hj. injection Hj as <-. congruence.
  - intros j d f' [[-> ->]|[Hne Hj]]%insert_cases Hd; [done|]. pose proof (L j d f' Hj Hd) as Hr.
    rewrite lookup_delete_ne; [done|]. intros Heq. rewrite <- Heq, Hreg in Hr. injection Hr as <-.
    apply Hne. apply (O j i d c f); [done|done|by apply leads_holds|by rewrite Hpc].
  - intros j j' d d' f' [[-> ->]|[Hne Hj]]%insert_cases [[-> ->]|[Hne' Hj']]%insert_cases Hd Hd'; [done|..|by apply (O j j' d d' f')].
    + injection Hd as <-. by apply (O i j' c d' f); [|..|rewrite Hpc|].
    + injection Hd' as <-. by apply (O j i d c f); [|..|rewrite Hpc].
  - intros j d f' [[-> ->]|[Hne Hj]]%insert_cases Hd; [|by apply (N j)].
    injection Hd as <-. apply (N i c f Hi). by rewrite Hpc.
  - intros f' fl Hf Hr. destruct (H f' fl Hf Hr) as (j & d & Hj & Hd). destruct (decide (j = i)) as [->|].
    + exists i, c'. rewrite Hi in Hj. injection Hj as <-. split; [done|]. by rewrite Hpc in Hd.
    + exists j, d. by rewrite list_lookup_insert_ne.
Qed.

Lemma flights_ok_retire s i c f k :
  flights_ok s -> callers s !! i = Some c -> c_pc c = Retire f k ->
  flights_ok (put i (set_pc (after_pc k) c) (retire f s)).
Proof.
  intros [R L O N H] Hi Hpc. set (c' := set_pc (after_pc k) c).
  assert (leads (c_pc c') = None /\ holds (c_pc c') = None /\ names (c_pc c') = None) as (Hl & Hh & Hn) by (by destruct k).
  split; simpl; fold c'.
  - intros k' f' Hk. destruct (R _ _ Hk) as (j & d & Hj & Hd & Hkey). exists j, d.
    rewrite list_lookup_insert_ne; [done|]. intros ->. rewrite Hi in Hj. injection Hj as <-. by rewrite Hpc in Hd.
  - intros j d f' [[-> ->]|[Hne Hj]]%insert_cases Hd; [congruence|by apply (L j)].
  - intros j j' d d' f' [[-> ->]|[Hne Hj]]%insert_cases [[-> ->]|[Hne' Hj']]%insert_cases Hd Hd'; [done|congruence..|by apply (O j j' d d' f')].
  - intros j d f' [[-> ->]|[Hne Hj]]%insert_cases Hd; [congruence|]. destruct (N j d f' Hj Hd) as (fl & Hf & Hk).
    assert (flights_kept (flights s) (flights (retire f s))) as Hkept by (by apply flights_kept_alter).
    destruct (Hkept _ _ Hf) as (fl' & ? & ? & _). exists fl'. split; [done|congruence].
  - intros f' fl Hf Hr. destruct (decide (f = f')) as [<-|Hne].
    + rewrite list_lookup_alter_eq in Hf. destruct (flights s !! f) as [fl0|]; [|done]. injection Hf as <-. done.
    + rewrite list_lookup_alter_ne in Hf by done. destruct (H f' fl Hf Hr) as (j & d & Hj & Hd).
      exists j, d. rewrite list_lookup_insert_ne; [done|]. intros ->. rewrite Hi in Hj. injection Hj as <-.
      rewrite Hpc in Hd. by injection Hd as <-.
Qed.

(** Steps of a caller that leave the registrations alone. *)
Definition quiet (s s' : GitStatusCache) : Prop :=
  inflight s' = inflight s /\ callers s' = callers s /\ flights s' = flights s.

Lemma quiet_move s s' i c c' :
  flights_ok s -> callers s !! i = Some c -> quiet s s' -> c_key c' = c_key c ->
  leads (c_pc c') = leads (c_pc c) -> holds (c_pc c') = holds (c_pc c) ->
  (forall f, names (c_pc c') = Some f -> exists fl, flights s !! f = Some fl /\ f_key fl = c_key c) ->
  flights_ok (put i c' s').
Proof.
  intros Hok Hi (Hin & Hcs & Hfl) Hk Hl Hh Hn. apply (flights_ok_move s _ i c c'); simpl; try done.
  - by rewrite Hcs.
  - rewrite Hfl. apply flights_kept_refl.
  - rewrite Hfl. eauto.
Qed.

Lemma publish_move s i c f r k :
  flights_ok s -> callers s !! i = Some c -> c_pc c = Publish f r k ->
  flights_ok (put i (set_pc (Unregister f k) c) (publish f r s)).
Proof.
  intros Hok Hi Hpc. apply (flights_ok_move s _ i c (set_pc (Unregister f k) c)); simpl; rewrite ?Hpc; try done.
  - by apply flights_kept_alter.
  - intros f' fl' Hf Hr. destruct (decide (f = f')) as [<-|]; [|rewrite list_lookup_alter_ne in Hf by done; eauto].
    rewrite list_lookup_alter_eq in Hf. destruct (flights s !! f) as [fl|]; [|done]. injection Hf as <-. eauto.
  - intros f' [= <-]. apply (named_flight s Hok i c f Hi). by rewrite Hpc.
Qed.

Lemma resume_flights_ok s i c c' s' :
  flights_ok s -> callers s !! i = Some c -> resume c s = Some (c', s') -> flights_ok (put i c' s').
Proof.
  intros Hok Hi Hr. pose proof (named_flight s Hok i c) as Hnamed.
  unfold resume in Hr. revert Hnamed. destruct (c_pc c) as [| |candidate|f st|f r k|f k|f k|f r|f|f|f|hit r|] eqn:Hpc; intros Hnamed; simpl in *; try done.
  - injection Hr as Hr. destruct (c_fresh c); unfold get_fresh_enter, get_enter in Hr; repeat case_match; injection Hr as <- <-;
      by eapply quiet_move; [exact Hok|exact Hi|..]; simpl; rewrite ?Hpc.
  - injection Hr as <- <-. by eapply quiet_move; [exact Hok|exact Hi|..]; simpl; rewrite ?Hpc.
  - unfold join in Hr. destruct (inflight s !! c_key c) as [f|] eqn:Hf; injection Hr as <- <-.
    + eapply quiet_move; [exact Hok|exact Hi|..]; simpl; rewrite ?Hpc; try done. intros ? [= <-].
      destruct (registered_led s Hok _ _ Hf) as (j & d & Hj & Hd & Hk). rewrite <- Hk.
      apply (named_flight s Hok j d f Hj). by apply holds_names, leads_holds.
    + by apply (flights_ok_lead s i c candidate).
  - apply bind_Some in Hr as (fl & Hf & Hr). unfold store in Hr. repeat case_match; simplify_eq/=;
      eapply quiet_move; [exact Hok|exact Hi|..]; simpl; rewrite ?Hpc; try done; intros ? [= <-]; by apply Hnamed.
  - injection Hr as <- <-. by apply (publish_move s i c f r k).
  - injection Hr as <- <-. by apply (flights_ok_unregister s i c f k).
  - injection Hr as <- <-. by apply (flights_ok_retire s i c f k).
  - apply bind_Some in Hr as (fl & Hf & Hr). unfold accept in Hr. repeat case_match; simplify_eq/=;
      eapply quiet_move; [exact Hok|exact Hi|..]; simpl; rewrite ?Hpc; try done; intros ? [= <-]; by apply Hnamed.
  - apply bind_Some in Hr as (fl & Hf & Hr). unfold follower_result in Hr. repeat (case_match; simplify_eq/=);
      eapply quiet_move; [exact Hok|exact Hi|..]; simpl; rewrite ?Hpc; try done; intros ? [= <-]; by apply Hnamed.
  - apply bind_Some in Hr as (fl & Hf & Hr). unfold wait_for_retirement in Hr. case_match; simplify_eq/=. by eapply quiet_move; [exact Hok|exact Hi|..]; simpl; rewrite ?Hpc.
Qed.

Lemma step_flights_ok s e s' : flights_ok s -> step s e = Some s' -> flights_ok s'.
Proof.
  intros Hok (s1 & He & [= <-])%bind_Some. apply (flights_ok_fields s1); [done..|].
  destruct e as [k fresh|i|i o|i|k|k|d]; simpl in He.
  - injection He as <-. by apply flights_ok_call.
  - apply bind_Some in He as (c & Hi & He). apply bind_Some in He as ([c' s2] & Hr & [= <-]).
    by apply (resume_flights_ok s i c).
  - apply bind_Some in He as (c & Hi & He). apply bind_Some in He as (c' & Hr & [= <-]).
    unfold scan_done in Hr. destruct (c_pc c) eqn:Hpc; try done. apply bind_Some in Hr as (fl & Hf & [= <-]).
    pose proof (named_flight s Hok i c) as Hnamed. rewrite Hpc in Hnamed.
    destruct o; apply (quiet_move s s i c); simpl; rewrite ?Hpc; try done; intros ? [= <-]; by apply Hnamed.
  - apply bind_Some in He as (c & Hi & He). apply bind_Some in He as (c' & Hr & [= <-]).
    pose proof (named_flight s Hok i c) as Hnamed. unfold cancel in Hr.
    destruct (c_pc c) eqn:Hpc; simplify_eq/=; apply (quiet_move s s i c); simpl; rewrite ?Hpc; try done.
    intros ? [= <-]. by apply Hnamed.
  - injection He as <-. apply (flights_ok_fields s); [..|done]; unfold invalidate; simpl; by destruct (slots s !! k).
  - injection He as <-. by apply (flights_ok_fields s).
  - injection He as <-. by apply (flights_ok_fields s).
Qed.

Lemma reachable_flights_ok allowed s : reachable allowed s -> flights_ok s.
Proof.
  induction 1 as [|s e s' _ IH _ Hs]; [|by eapply step_flights_ok].
  split; simpl; intros *; rewrite ?lookup_empty, ?lookup_nil; done.
Qed.

(** ** Freshness

    Without evictions, and below 2^64 steps, the generation of a slot counts the
    invalidations of its worktree. *)
Definition gen (s : GitStatusCache) (k : StatusKey) : Z := generation (slot_of s k).

Definition after_invalidation (s : GitStatusCache) (k : StatusKey) (t : nat) : Prop :=
  forall u, invalidated s !! k = Some u -> (u < t)%nat.

Definition slot_fresh (s : GitStatusCache) (k : StatusKey) (sl : Slot) : Prop :=
  0 <= generation sl <= Z.of_nat (tick s) /\
  (forall status at_, cached sl = Some (status, at_) -> after_invalidation s k (started status)).

Definition flight_fresh (s : GitStatusCache) (fl : Flight) : Prop :=
  is_Some (slots s !! f_key fl) /\ (f_started fl < tick s)%nat /\
  f_generation fl <= gen s (f_key fl) /\
  (f_generation fl = gen s (f_key fl) -> after_invalidation s (f_key fl) (f_started fl)) /\
  (forall status, result fl = Some (Ok status) -> started status = f_started fl).

(** What a result of the caller has to satisfy. *)
Definition result_fresh (c : Caller) (r : Result GitStatus Error) : Prop :=
  forall status, r = Ok status -> c_fresh c = true -> (c_called c < started status)%nat.

Definition after_fresh (c : Caller) (k : After) : Prop :=
  match k with Return r => result_fresh c r | _ => True end.

(** A forced call accepts only flights that started after it. *)
Definition minimum_fresh (s : GitStatusCache) (c : Caller) : Prop :=
  (c_called c < tick s)%nat /\
  match minimum_generation c with
  | Some m =>
      m <= gen s (c_key c) /\
      forall f fl, flights s !! f = Some fl -> f_key fl = c_key c -> m <= f_generation fl ->
        (c_called c < f_started fl)%nat
  | None => c_fresh c = false
  end.

Definition led_fresh (s : GitStatusCache) (c : Caller) (f : nat) (status : option GitStatus) : Prop :=
  exists fl, flights s !! f = Some fl /\ f_key fl = c_key c /\ (c_called c < f_started fl)%nat /\
    (forall st, status = Some st -> started st = f_started fl).

Definition shared_status (r : SharedStatusResult) : option GitStatus :=
  match r with Ok status => Some status | Err _ => None end.

Definition pc_fresh (s : GitStatusCache) (c : Caller) : Prop :=
  match c_pc c with
  | JoinWith candidate => candidate <= gen s (c_key c)
  | Scan f => led_fresh s c f None
  | Store f status => led_fresh s c f (Some status)
  | Publish f r k => led_fresh s c f (shared_status r) /\ after_fresh c k
  | Unregister _ k | Retire _ k => after_fresh c k
  | Accept f r => exists fl, flights s !! f = Some fl /\ f_key fl = c_key c /\
      (forall status, r = Ok status -> started status = f_started fl)
  | Returned hit r => result_fresh c r /\
      (hit = true -> forall status u, r = Ok status -> c_seen c = Some u -> (u < started status)%nat)
  | _ => True
  end.

(** The call has run its first region and was not dropped. *)
Definition engaged (pc : Pc) : bool := match pc with Enter | Gone => false | _ => true end.

Definition caller_fresh (s : GitStatusCache) (c : Caller) : Prop :=
  engaged (c_pc c) = true -> is_Some (slots s !! c_key c) /\ minimum_fresh s c /\ pc_fresh s c.

Record fresh_ok (s : GitStatusCache) : Prop := {
  slots_fresh k sl : slots s !! k = Some sl -> slot_fresh s k sl;
  flights_fresh f fl : flights s !! f = Some fl -> flight_fresh s fl;
  callers_fresh i c : callers s !! i = Some c -> caller_fresh s c;
  past_invalidations k u : invalidated s !! k = Some u -> (u < tick s)%nat;
}.

(** What every step but an eviction does to the shared state, seen by the others:
    slots stay, generations grow, an invalidation of a slot moves its generation,
    flights keep their identity and new ones start now. *)
Record evolves (s s' : GitStatusCache) : Prop := {
  ev_tick : tick s' = S (tick s);
  ev_slot k : is_Some (slots s !! k) -> is_Some (slots s' !! k);
  ev_gen k : gen s k <= gen s' k;
  ev_invalid k : invalidated s' !! k = invalidated s !! k \/
    (invalidated s' !! k = Some (tick s) /\ (is_Some (slots s !! k) -> gen s k < gen s' k));
  ev_kept : flights_kept (flights s) (flights s');
  ev_new f fl' : flights s' !! f = Some fl' ->
    (exists fl, flights s !! f = Some fl /\ same_flight fl fl') \/ f_started fl' = tick s;
}.

Lemma led_evolves s s' c f o : evolves s s' -> led_fresh s c f o -> led_fresh s' c f o.
Proof.
  intros E (fl & Hf & Hk & Hc & Ho). destruct (ev_kept _ _ E _ _ Hf) as (fl' & Hf' & Hk' & _ & Hs).
  exists fl'. split_and!; [done|congruence|lia|]. intros st Hst. rewrite (Ho _ Hst). done.
Qed.

Lemma minimum_evolves s s' c : evolves s s' -> minimum_fresh s c -> minimum_fresh s' c.
Proof.
  intros E [Hc Hm]. split; [rewrite (ev_tick _ _ E); lia|]. destruct (minimum_generation c) as [m|]; [|done].
  destruct Hm as [Hle Hm]. pose proof (ev_gen _ _ E (c_key c)). split; [lia|]. intros f fl' Hf' Hk Hg.
  destruct (ev_new _ _ E _ _ Hf') as [(fl & Hf & Hk' & Hg' & Hs)|Hs]; [|lia].
  rewrite <- Hs. apply (Hm f fl); [done|congruence|lia].
Qed.

Lemma caller_evolves s s' c : evolves s s' -> caller_fresh s c -> caller_fresh s' c.
Proof.
  intros E Hc Hpc. destruct (Hc Hpc) as (Hs & Hm & Hp).
  split; [by apply (ev_slot _ _ E)|split; [by eapply minimum_evolves|]].
  unfold pc_fresh in *. pose proof (ev_gen _ _ E (c_key c)). destruct (c_pc c); try done.
  - lia.
  - by eapply led_evolves.
  - destruct Hp. split; [by eapply led_evolves|done].
  - destruct Hp as (fl & Hf & Hk & Ho). destruct (ev_kept _ _ E _ _ Hf) as (fl' & Hf' & Hk' & _ & Hst).
    exists fl'. split_and!; [done|congruence|]. intros st Hst'. rewrite (Ho _ Hst'). done.
  - by eapply led_evolves.
Qed.

Lemma flight_evolves s s' fl fl' :
  evolves s s' -> flight_fresh s fl -> same_flight fl fl' ->
  (forall status, result fl' = Some (Ok status) -> started status = f_started fl') -> flight_fresh s' fl'.
Proof.
  intros E (Hs & Ht & Hg & Hi & _) (Hk & Hge & Hst) Hr. unfold flight_fresh. rewrite <- Hk, <- Hge, <- Hst in *.
  split_and!; [by apply (ev_slot _ _ E)|rewrite (ev_tick _ _ E); lia|pose proof (ev_gen _ _ E (f_key fl)); lia| |done].
  intros Heq. pose proof (ev_gen _ _ E (f_key fl)).
  destruct (ev_invalid _ _ E (f_key fl)) as [Hsame|[_ Hlt]]; [|specialize (Hlt Hs); lia].
  unfold after_invalidation. rewrite Hsame. apply Hi. lia.
Qed.

Lemma fresh_ok_intro s s' :
  fresh_ok s -> evolves s s' ->
  (forall k sl, slots s' !! k = Some sl ->
     (slots s !! k = Some sl /\ invalidated s' !! k = invalidated s !! k) \/ slot_fresh s' k sl) ->
  (forall f fl', flights s' !! f = Some fl' ->
     (exists fl, flights s !! f = Some fl /\ same_flight fl fl' /\
        (forall status, result fl' = Some (Ok status) -> result fl = Some (Ok status) \/ started status = f_started fl)) \/
     flight_fresh s' fl') ->
  (forall i c, callers s' !! i = Some c -> callers s !! i = Some c \/ caller_fresh s' c) ->
  fresh_ok s'.
Proof.
  intros [S F C P] E Hslots Hflights Hcallers. split.
  - intros k sl [[Hk Hi]|Hfresh]%Hslots; [|done]. destruct (S k sl Hk) as [Hg Hc].
    split; [rewrite (ev_tick _ _ E); lia|]. unfold after_invalidation. by rewrite Hi.
  - intros f fl' [(fl & Hf & Hsame & Hr)|Hfresh]%Hflights; [|done]. pose proof (F f fl Hf) as Hfl.
    apply (flight_evolves s s' fl); [done..|]. intros st Hst. destruct Hsame as (_ & _ & <-).
    destruct (Hr _ Hst) as [Hr'|]; [by apply Hfl|done].
  - intros i c [Hi|]%Hcallers; [|done]. apply (caller_evolves s); [done|by apply (C i)].
  - intros k u Hu. rewrite (ev_tick _ _ E). destruct (ev_invalid _ _ E k) as [Hs|[Hs _]]; rewrite Hs in Hu.
    + pose proof (P _ _ Hu). lia.
    + injection Hu as <-. lia.
Qed.

Lemma slot_of_set k sl s k' : slot_of (set_slot k sl s) k' = if decide (k = k') then sl else slot_of s k'.
Proof.
  unfold slot_of. simpl. destruct (decide (k = k')) as [->|]; [by rewrite lookup_insert_eq|by rewrite lookup_insert_ne].
Qed.

(** Steps that move no generation and invalidate nothing. *)
Lemma evolves_calm s s' :
  tick s' = S (tick s) -> invalidated s' = invalidated s ->
  (forall k, is_Some (slots s !! k) -> is_Some (slots s' !! k)) -> (forall k, gen s' k = gen s k) ->
  flights_kept (flights s) (flights s') ->
  (forall f fl', flights s' !! f = Some fl' ->
    (exists fl, flights s !! f = Some fl /\ same_flight fl fl') \/ f_started fl' = tick s) ->
  evolves s s'.
Proof. intros Ht Hi Hs Hg Hk Hn. split; try done; intros k; [by rewrite Hg|left; by rewrite Hi]. Qed.

(** A caller's step on the slot of its own worktree. *)
Lemma fresh_slot_move s i c c' k sl n :
  fresh_ok s -> callers s !! i = Some c -> generation sl = gen s k -> 0 <= gen s k <= Z.of_nat (tick s) ->
  (forall status at_, cached sl = Some (status, at_) -> after_invalidation s k (started status)) ->
  let s' := ticked (put i c' (mkCache (<[k := sl]> (slots s)) (inflight s) (flights s) (callers s) n (tick s) (invalidated s))) in
  (evolves s s' -> caller_fresh s' c') -> fresh_ok s'.
Proof.
  intros Hok Hi Hg Hb Hst s' Hc.
  assert (evolves s s') as E.
  { apply evolves_calm; [done|done|..].
    - intros k' Hk'. simpl. destruct (decide (k = k')) as [->|]; [rewrite lookup_insert_eq; eauto|by rewrite lookup_insert_ne].
    - intros k'. unfold gen, slot_of, s'. simpl. destruct (decide (k = k')) as [->|]; [by rewrite lookup_insert_eq|by rewrite lookup_insert_ne].
    - apply flights_kept_refl.
    - intros f fl' Hf. left. by exists fl'. }
  apply (fresh_ok_intro s); [done|done|..].
  - intros k' sl' Hk'. change (<[k := sl]> (slots s) !! k' = Some sl') in Hk'.
    apply lookup_insert_Some in Hk' as [[<- <-]|[Hne Hk']]; [right|by left].
    split; [rewrite Hg; simpl; lia|done].
  - intros f fl' Hf. left. exists fl'. split_and!; [done|done|by left].
  - intros j d Hj. change (<[i := c']> (callers s) !! j = Some d) in Hj.
    apply insert_cases in Hj as [[-> ->]|[Hne Hj]]; [right; by apply Hc|by left].
Qed.

(** A caller's step that leaves the slots alone. *)
Lemma fresh_flight_move s s' i c c' :
  fresh_ok s -> callers s !! i = Some c ->
  slots s' = slots s -> invalidated s' = invalidated s -> tick s' = S (tick s) -> callers s' = <[i := c']> (callers s) ->
  flights_kept (flights s) (flights s') ->
  (forall f fl', flights s' !! f = Some fl' ->
     (exists fl, flights s !! f = Some fl /\ same_flight fl fl' /\
        (forall status, result fl' = Some (Ok status) -> result fl = Some (Ok status) \/ started status = f_started fl)) \/
     (flight_fresh s' fl' /\ f_started fl' = tick s)) ->
  (evolves s s' -> caller_fresh s' c') -> fresh_ok s'.
Proof.
  intros Hok Hi Hs Hin Ht Hcs Hk Hn Hc.
  assert (evolves s s') as E.
  { apply evolves_calm; [done|done|by rewrite Hs|intros k; unfold gen, slot_of; by rewrite Hs|done|].
    intros f fl' Hf. destruct (Hn f fl' Hf) as [(fl & ? & ? & _)|[_ ?]]; eauto. }
  apply (fresh_ok_intro s); [done|done|..].
  - intros k sl Hsl. left. rewrite Hs in Hsl. by rewrite Hin.
  - intros f fl' Hf. destruct (Hn f fl' Hf) as [?|[? _]]; auto.
  - intros j d Hj. rewrite Hcs in Hj. destruct (insert_cases _ _ _ _ _ Hj) as [[-> ->]|[Hne ?]]; [right; by apply Hc|by left].
Qed.

Lemma gen_bounds s k : fresh_ok s -> 0 <= gen s k <= Z.of_nat (tick s).
Proof.
  intros Hok. unfold gen, slot_of. destruct (slots s !! k) as [sl|] eqn:Hk; simpl; [|lia].
  by apply (slots_fresh s Hok k).
Qed.

Lemma slot_cached s k status at_ :
  fresh_ok s -> cached (slot_of s k) = Some (status, at_) -> after_invalidation s k (started status).
Proof.
  intros Hok. unfold slot_of. destruct (slots s !! k) as [sl|] eqn:Hk; simpl; [|done].
  intros Hc. destruct (slots_fresh s Hok k sl Hk) as [_ Hf]. by apply (Hf status at_).
Qed.

Lemma next_generation_small s k :
  fresh_ok s -> Z.of_nat (tick s) < u64_max -> next_generation (slot_of s k) = gen s k + 1.
Proof.
  intros Hok Ht. pose proof (gen_bounds s k Hok). unfold next_generation, wrapping_add, gen in *.
  apply Z.mod_small. lia.
Qed.

Lemma gen_insert k sl m a b c d e f : gen (mkCache (<[k := sl]> m) a b c d e f) k = generation sl.
Proof. unfold gen, slot_of. simpl. by rewrite lookup_insert_eq. Qed.

(** An invalidation of a slot, with what it does to a caller. *)
Lemma fresh_bump s cs k :
  fresh_ok s ->
  let s' := mkCache (<[k := mkSlot (gen s k + 1) None]> (slots s)) (inflight s) (flights s) cs (now s)
              (S (tick s)) (<[k := tick s]> (invalidated s)) in
  (evolves s s' -> forall i c, cs !! i = Some c -> callers s !! i = Some c \/ caller_fresh s' c) -> fresh_ok s'.
Proof.
  intros Hok s' Hc. pose proof (gen_bounds s k Hok).
  assert (gen s' k = gen s k + 1) as Hg by apply gen_insert.
  assert (evolves s s') as E.
  { split; simpl; [done|..].
    - intros k' Hk'. destruct (decide (k = k')) as [->|]; [rewrite lookup_insert_eq; eauto|by rewrite lookup_insert_ne].
    - intros k'. destruct (decide (k = k')) as [<-|]; [lia|]. unfold gen, slot_of. simpl. by rewrite lookup_insert_ne.
    - intros k'. destruct (decide (k = k')) as [<-|]; [right|left; by rewrite lookup_insert_ne].
      rewrite lookup_insert_eq. split; [done|lia].
    - apply flights_kept_refl.
    - intros f fl' Hf. left. by exists fl'. }
  apply (fresh_ok_intro s); [done|done|..|by apply Hc]; simpl.
  - intros k' sl [[<- <-]|[Hne Hk']]%lookup_insert_Some; [right|left; by rewrite lookup_insert_ne].
    split; simpl; [lia|done].
  - intros f fl' Hf. left. exists fl'. split_and!; [done|done|by left].
Qed.

(** Positions that carry no promise keep the caller's promises. *)
Lemma caller_fresh_pc s c pc :
  is_Some (slots s !! c_key c) -> minimum_fresh s c -> pc_fresh s (set_pc pc c) -> caller_fresh s (set_pc pc c).
Proof. by intros ??? _. Qed.

Lemma get_fresh_enter_ok s i c c' s1 :
  fresh_ok s -> Z.of_nat (tick s) < u64_max -> callers s !! i = Some c ->
  get_fresh_enter c s = (c', s1) -> fresh_ok (ticked (put i c' s1)).
Proof.
  intros Hok Ht Hi. unfold get_fresh_enter. rewrite (next_generation_small s) by done. intros [= <- <-].
  apply (fresh_bump s); [done|]. intros E j d [[-> ->]|[Hne Hj]]%insert_cases; [right|by left].
  intros _. simpl. rewrite lookup_insert_eq. split_and!; [eauto| |done]. split; simpl; [lia|].
  rewrite gen_insert. split; [simpl; lia|]. intros f fl Hf Hk Hg.
  destruct (flights_fresh s Hok f fl Hf) as (_ & _ & Hle & _). rewrite Hk in Hle. lia.
Qed.

Lemma get_enter_ok s i c c' s1 :
  fresh_ok s -> callers s !! i = Some c -> get_enter c s = (c', s1) -> fresh_ok (ticked (put i c' s1)).
Proof.
  intros Hok Hi He. pose proof (gen_bounds s (c_key c) Hok) as Hg. unfold get_enter in He.
  destruct (cached (slot_of s (c_key c))) as [[status at_]|] eqn:Hc; [destruct (now s - at_ <? _)|]; injection He as <- <-;
    (apply (fresh_slot_move s i c); [done|done|done|done| |]);
    try (simpl; rewrite ?Hc; intros ?? [=]; simplify_eq; by eapply slot_cached);
    intros _ _; simpl; rewrite lookup_insert_eq; (split_and!; [eauto|split; simpl; [lia|done]|try done]).
  split; [intros ? _ [=]|]. simpl. intros _ ? u [= <-] Hu. by apply (slot_cached s (c_key c) status at_).
Qed.

(** The two schemas for a caller that is past its first region. *)
Lemma slot_move s i c pc sl :
  fresh_ok s -> callers s !! i = Some c -> engaged (c_pc c) = true -> generation sl = gen s (c_key c) ->
  (forall status at_, cached sl = Some (status, at_) -> after_invalidation s (c_key c) (started status)) ->
  let s' := ticked (put i (set_pc pc c) (set_slot (c_key c) sl s)) in
  (evolves s s' -> pc_fresh s' (set_pc pc c)) -> fresh_ok s'.
Proof.
  intros Hok Hi Hpc Hg Hst s' Hp. destruct (callers_fresh s Hok i c Hi Hpc) as (Hs & Hm & _).
  apply (fresh_slot_move s i c (set_pc pc c) (c_key c) sl (now s)); [done|done|done|by apply gen_bounds|done|].
  intros E. apply caller_fresh_pc; [by apply (ev_slot _ _ E)|by apply (minimum_evolves s)|by apply Hp].
Qed.

Lemma flight_move s s' i c pc :
  fresh_ok s -> callers s !! i = Some c -> engaged (c_pc c) = true ->
  slots s' = slots s -> invalidated s' = invalidated s -> tick s' = S (tick s) ->
  callers s' = <[i := set_pc pc c]> (callers s) ->
  flights_kept (flights s) (flights s') ->
  (forall f fl', flights s' !! f = Some fl' ->
     (exists fl, flights s !! f = Some fl /\ same_flight fl fl' /\
        (forall status, result fl' = Some (Ok status) -> result fl = Some (Ok status) \/ started status = f_started fl)) \/
     (flight_fresh s' fl' /\ f_started fl' = tick s)) ->
  (evolves s s' -> pc_fresh s' (set_pc pc c)) -> fresh_ok s'.
Proof.
  intros Hok Hi Hpc Hs Hin Ht Hcs Hk Hn Hp. destruct (callers_fresh s Hok i c Hi Hpc) as (Hsl & Hm & _).
  apply (fresh_flight_move s s' i c (set_pc pc c)); [done..|].
  intros E. apply caller_fresh_pc; [by apply (ev_slot _ _ E)|by apply (minimum_evolves s)|by apply Hp].
Qed.

Lemma still_move s i c pc :
  fresh_ok s -> callers s !! i = Some c -> engaged (c_pc c) = true ->
  (evolves s (ticked (put i (set_pc pc c) s)) -> pc_fresh (ticked (put i (set_pc pc c) s)) (set_pc pc c)) ->
  fresh_ok (ticked (put i (set_pc pc c) s)).
Proof.
  intros Hok Hi Hpc Hp. apply (flight_move s _ i c pc); [done..|apply flights_kept_refl| |done].
  intros f fl' Hf. left. exists fl'. split_and!; [done|done|by left].
Qed.

Lemma altered_flights s f g :
  (forall fl, same_flight fl (g fl)) ->
  (forall fl status, flights s !! f = Some fl -> result (g fl) = Some (Ok status) ->
     result fl = Some (Ok status) \/ started status = f_started fl) ->
  forall f' fl', alter g f (flights s) !! f' = Some fl' ->
  exists fl, flights s !! f' = Some fl /\ same_flight fl fl' /\
    (forall status, result fl' = Some (Ok status) -> result fl = Some (Ok status) \/ started status = f_started fl).
Proof.
  intros Hg Hr f' fl' Hf. destruct (decide (f = f')) as [<-|].
  - rewrite list_lookup_alter_eq in Hf. destruct (flights s !! f) as [fl|] eqn:Hfl; [|done]. injection Hf as <-.
    exists fl. split_and!; [done|done|]. intros st. by apply Hr.
  - rewrite list_lookup_alter_ne in Hf by done. exists fl'. split_and!; [done|done|by left].
Qed.

(** A result accepted by a follower satisfies the follower's promise. *)
Lemma accepted_fresh s c f fl r :
  minimum_fresh s c -> flights s !! f = Some fl -> f_key fl = c_key c ->
  (forall m, minimum_generation c = Some m -> m <= f_generation fl) ->
  (forall status, r = Ok status -> started status = f_started fl) -> result_fresh c (from_shared r).
Proof.
  intros [_ Hm] Hf Hk Hg Hr status Hst Hfr. destruct r as [st|]; [|done]. injection Hst as <-.
  rewrite (Hr st eq_refl). destruct (minimum_generation c) as [m|]; [|congruence].
  apply (proj2 Hm f fl Hf Hk). by apply Hg.
Qed.

Lemma join_fresh s i c candidate pc s1 :
  fresh_ok s -> callers s !! i = Some c -> c_pc c = JoinWith candidate ->
  join (c_key c) candidate s = (pc, s1) -> fresh_ok (ticked (put i (set_pc pc c) s1)).
Proof.
  intros Hok Hi Hpc Hj. destruct (callers_fresh s Hok i c Hi) as (Hs & Hm & Hp); [by rewrite Hpc|].
  unfold pc_fresh in Hp. rewrite Hpc in Hp. unfold join in Hj.
  destruct (inflight s !! c_key c); injection Hj as <- <-; [by apply still_move; rewrite ?Hpc|].
  set (fl := mkFlight (c_key c) candidate None false (tick s)).
  apply (flight_move s _ i c (Scan (length (flights s)))); simpl; rewrite ?Hpc; [done..|apply flights_kept_app| |].
  - intros f fl' [Hf|[Hge Hf]]%lookup_app_Some.
    + left. exists fl'. split_and!; [done|done|by left].
    + right. apply list_lookup_singleton_Some in Hf as [_ <-]. split; [|done].
      split_and!; simpl; [done|lia|done| |done]. intros _ u Hu. by apply (past_invalidations s Hok (c_key c)).
  - intros _. exists fl. simpl. split_and!; [by apply list_lookup_middle|done|apply Hm|done].
Qed.

Lemma resume_fresh s i c c' s1 :
  fresh_ok s -> flights_ok s -> Z.of_nat (tick s) < u64_max -> callers s !! i = Some c ->
  resume c s = Some (c', s1) -> fresh_ok (ticked (put i c' s1)).
Proof.
  intros Hok Hfl Ht Hi Hr. unfold resume in Hr.
  destruct (c_pc c) as [| |candidate|f st|f r k|f k|f k|f r|f|f|f|hit r|] eqn:Hpc; simpl in Hr; try done.
  { injection Hr as Hr. destruct (c_fresh c); [by apply (get_fresh_enter_ok s i c)|by apply (get_enter_ok s i c)]. }
  all: destruct (callers_fresh s Hok i c Hi) as (Hs & Hm & Hp); [by rewrite Hpc|]; unfold pc_fresh in Hp; rewrite Hpc in Hp.
  - injection Hr as <- <-. apply (slot_move s i c); rewrite ?Hpc; [done..|intros ??; by apply slot_cached|].
    intros _. unfold pc_fresh. simpl. apply Z.eq_le_incl. symmetry. apply gen_insert.
  - destruct (join (c_key c) candidate s) as [pc s2] eqn:Hj. injection Hr as <- <-. by apply (join_fresh s i c candidate).
  - apply bind_Some in Hr as (fl & Hf & Hr). destruct Hp as (fl0 & Hf0 & Hk & Hc & Hst).
    rewrite Hf in Hf0. injection Hf0 as <-. specialize (Hst st eq_refl).
    assert (forall b, after_fresh c (leader_after c (f_generation fl) b st)) as Hafter.
    { intros b. unfold leader_after. repeat case_match; simpl; try done; intros ? [= <-] _; lia. }
    unfold store in Hr. destruct (generation (slot_of s (c_key c)) =? f_generation fl) eqn:Hg; case_tests;
      injection Hr as <- <-; (apply (slot_move s i c); rewrite ?Hpc; [done|done|done|done| |]);
      try (intros E; split; [apply (led_evolves s); [done|]; exists fl; split_and!; [done..|by intros ? [= <-]]|apply Hafter]).
    + simpl. intros ?? [= <- <-]. rewrite Hst, <- Hk. apply (flights_fresh s Hok f fl Hf). unfold gen. by rewrite Hk.
    + intros ??. by apply slot_cached.
  - injection Hr as <- <-. destruct Hp as [(fl & Hf & Hk & Hc & Hst) Ha].
    eapply (flight_move s _ i c); rewrite ?Hpc; [done..|by apply flights_kept_alter| |done].
    intros f' fl' Hf'. left. revert f' fl' Hf'. apply altered_flights; [done|].
    intros fl0 status Hf0 [= ->]. right. rewrite Hf in Hf0. injection Hf0 as <-. by apply Hst.
  - injection Hr as <- <-. assert (unregister (c_key c) f s = set_inflight (inflight (unregister (c_key c) f s)) s) as ->.
    { unfold unregister. case_decide; [done|]. by destruct s. }
    eapply (flight_move s _ i c); rewrite ?Hpc; [done..|apply flights_kept_refl| |done].
    intros f' fl' Hf'. left. exists fl'. split_and!; [done|done|by left].
  - injection Hr as <- <-. eapply (flight_move s _ i c); rewrite ?Hpc; [done..|by apply flights_kept_alter| |].
    + intros f' fl' Hf'. left. revert f' fl' Hf'. apply altered_flights; [done|]. by left.
    + intros _. destruct k; simpl in *; done.
  - apply bind_Some in Hr as (fl & Hf & Hr). destruct Hp as (fl0 & Hf0 & Hk & Hst).
    rewrite Hf in Hf0. injection Hf0 as <-. unfold accept in Hr.
    destruct (minimum_generation c) as [m|] eqn:Hmin.
    + destruct (f_generation fl <? m) eqn:Hlt; [injection Hr as <- <-; by apply still_move; rewrite ?Hpc|]. case_tests.
      injection Hr as <- <-. apply (slot_move s i c); rewrite ?Hpc; [done..|intros ??; by apply slot_cached|].
      intros _. unfold pc_fresh. simpl. destruct (_ =? _); [split; [|done]|done].
      apply (accepted_fresh s c f fl); [done..| |done]. intros m' Hm'. rewrite Hmin in Hm'. injection Hm' as <-. lia.
    + injection Hr as <- <-. apply still_move; rewrite ?Hpc; [done..|]. intros _. split; [|done].
      apply (accepted_fresh s c f fl); [done..|congruence|done].
  - apply bind_Some in Hr as (fl & Hf & Hr).
    destruct (named_flight s Hfl i c f Hi) as (fl0 & Hf0 & Hk); [by rewrite Hpc|]. rewrite Hf in Hf0. injection Hf0 as <-.
    unfold follower_result in Hr. destruct (result fl) as [r|] eqn:Hres; simpl in Hr.
    + injection Hr as <- <-. apply still_move; rewrite ?Hpc; [done..|]. intros _. exists fl. split_and!; [done..|].
      intros status ->. by apply (flights_fresh s Hok f fl Hf).
    + destruct (retired fl); [|done]. injection Hr as <- <-. by apply still_move; rewrite ?Hpc.
  - apply bind_Some in Hr as (fl & Hf & Hr). unfold wait_for_retirement in Hr. destruct (retired fl); [|done]. injection Hr as <- <-. by apply still_move; rewrite ?Hpc.
Qed.

Lemma scan_done_fresh s i c o c' :
  fresh_ok s -> callers s !! i = Some c -> scan_done c o s = Some c' -> fresh_ok (ticked (put i c' s)).
Proof.
  intros Hok Hi Hs. unfold scan_done in Hs. destruct (c_pc c) as [| | | | | | | |f| | | |] eqn:Hpc; try done.
  apply bind_Some in Hs as (fl & Hf & [= <-]).
  destruct (callers_fresh s Hok i c Hi) as (_ & _ & Hp); [by rewrite Hpc|]. unfold pc_fresh in Hp. rewrite Hpc in Hp.
  destruct Hp as (fl0 & Hf0 & Hk & Hc & _). rewrite Hf in Hf0. injection Hf0 as <-.
  apply still_move; rewrite ?Hpc; [done..|]. intros E.
  assert (forall o', (forall st, o' = Some st -> started st = f_started fl) ->
    led_fresh (ticked (put i (set_pc (c_pc c) c) s)) c f o') as Hled by (intros o' Ho; by exists fl).
  destruct o; unfold pc_fresh; simpl.
  - exists fl. split_and!; [done..|]. by intros ? [= <-].
  - split; [by exists fl|done].
  - done.
Qed.

Lemma cancel_fresh s i c c' :
  fresh_ok s -> callers s !! i = Some c -> cancel c = Some c' -> fresh_ok (ticked (put i c' s)).
Proof.
  intros Hok Hi Hs. unfold cancel in Hs. destruct (engaged (c_pc c)) eqn:Hpc.
  - destruct (c_pc c) eqn:Hpc'; simplify_eq/=; by apply still_move; rewrite ?Hpc'.
  - destruct (c_pc c); simplify_eq/=.
    apply (fresh_flight_move s _ i c (set_pc Gone c)); [done..|apply flights_kept_refl| |done].
    intros f fl' Hf. left. exists fl'. split_and!; [done|done|by left].
Qed.

(** Steps that add a caller without a promise, or that only pass time. *)
Lemma fresh_calls s cs n :
  fresh_ok s -> (forall i c, cs !! i = Some c -> callers s !! i = Some c \/ engaged (c_pc c) = false) ->
  fresh_ok (mkCache (slots s) (inflight s) (flights s) cs n (S (tick s)) (invalidated s)).
Proof.
  intros Hok Hcs. set (s' := mkCache _ _ _ _ _ _ _).
  assert (evolves s s') as E.
  { apply evolves_calm; [done..|apply flights_kept_refl|]. intros f fl' Hf. left. by exists fl'. }
  apply (fresh_ok_intro s); [done|done|by left|..].
  - intros f fl' Hf. left. exists fl'. split_and!; [done|done|by left].
  - intros i c Hi. destruct (Hcs i c Hi) as [|He]; [by left|right]. intros Hc. congruence.
Qed.

(** Invalidating a worktree without a slot concerns nobody. *)
Lemma fresh_unknown s k :
  fresh_ok s -> slots s !! k = None ->
  fresh_ok (mkCache (slots s) (inflight s) (flights s) (callers s) (now s) (S (tick s)) (<[k := tick s]> (invalidated s))).
Proof.
  intros Hok Hk. set (s' := mkCache _ _ _ _ _ _ _).
  assert (evolves s s') as E.
  { split; simpl; [done|done|done|..].
    - intros k'. destruct (decide (k = k')) as [<-|]; [right|left; by rewrite lookup_insert_ne].
      rewrite lookup_insert_eq, Hk. split; [done|]. by intros [? [=]].
    - apply flights_kept_refl.
    - intros f fl' Hf. left. by exists fl'. }
  apply (fresh_ok_intro s); [done|done|..|by left].
  - intros k' sl Hsl. left. simpl in *. rewrite lookup_insert_ne; [done|]. intros ->. congruence.
  - intros f fl' Hf. left. exists fl'. split_and!; [done|done|by left].
Qed.

Lemma step_fresh s e s' :
  fresh_ok s -> flights_ok s -> not_evict e -> Z.of_nat (tick s) < u64_max -> step s e = Some s' -> fresh_ok s'.
Proof.
  intros Hok Hfl He Ht (s1 & Hd & [= <-])%bind_Some. destruct e as [k fresh|i|i o|i|k|k|d]; simpl in Hd; try done.
  - injection Hd as <-. apply (fresh_calls s); [done|].
    intros i c [?|[_ Hc]]%lookup_app_Some; [by left|right]. by apply list_lookup_singleton_Some in Hc as [_ <-].
  - apply bind_Some in Hd as (c & Hi & Hd). apply bind_Some in Hd as ([c' s2] & Hr & [= <-]). by apply (resume_fresh s i c).
  - apply bind_Some in Hd as (c & Hi & Hd). apply bind_Some in Hd as (c' & Hr & [= <-]). by apply (scan_done_fresh s i c o).
  - apply bind_Some in Hd as (c & Hi & Hd). apply bind_Some in Hd as (c' & Hr & [= <-]). by apply (cancel_fresh s i c).
  - injection Hd as <-. unfold invalidate. destruct (slots s !! k) as [sl|] eqn:Hk; [|by apply (fresh_unknown s k)].
    assert (slot_of s k = sl) as <- by (unfold slot_of; by rewrite Hk).
    rewrite (next_generation_small s) by done. apply (fresh_bump s (callers s) k); [done|by left].
  - injection Hd as <-. apply (fresh_calls s); [done|by left].
Qed.

Lemma do_event_tick s e s' : do_event s e = Some s' -> tick s' = tick s.
Proof.
  destruct e as [k fresh|i|i o|i|k|k|d]; simpl; try (by intros [= <-]).
  - intros (c & _ & ([c' s2] & Hr & [= <-])%bind_Some)%bind_Some. simpl.
    unfold resume, get_fresh_enter, get_enter, join, store, accept, unregister, follower_result, wait_for_retirement in Hr.
    repeat (case_match; simplify_eq/=; try (apply bind_Some in Hr as (? & _ & Hr))); simplify_eq/=; try done.
    all: repeat case_match; by simplify_eq/=.
  - by intros (c & _ & (c' & _ & [= <-])%bind_Some)%bind_Some.
  - by intros (c & _ & (c' & _ & [= <-])%bind_Some)%bind_Some.
  - unfold invalidate. intros [= <-]. simpl. by destruct (slots s !! k).
Qed.

Lemma reachable_fresh s : reachable not_evict s -> Z.of_nat (tick s) <= u64_max -> fresh_ok s.
Proof.
  induction 1 as [|s e s' Hr IH He Hs]; intros Ht.
  - split; simpl; intros *; rewrite ?lookup_empty, ?lookup_nil; done.
  - pose proof Hs as (s1 & Hd%do_event_tick & [= <-])%bind_Some. simpl in Ht.
    apply (step_fresh s e); [apply IH; lia|by eapply reachable_flights_ok|done|lia|done].
Qed.

(** ** Properties *)

(** [C16] A status served by the cache is as fresh as the call may expect.  As
    long as no slot is evicted, in every interleaving of reads, forced reads,
    invalidations, failing and cancelled scans: a forced read returns a status
    whose scan started after the read did; a cache hit returns a status whose
    scan started after the last invalidation of the worktree before the read;
    and what a slot holds is always newer than the last invalidation, so a scan
    that an invalidation overtook is never stored. *)
Theorem git_status_fresh (s : GitStatusCache) :
  reachable not_evict s -> Z.of_nat (tick s) <= u64_max ->
  (forall i c hit status, callers s !! i = Some c -> c_pc c = Returned hit (Ok status) ->
     (c_fresh c = true -> (c_called c < started status)%nat) /\
     (hit = true -> forall u, c_seen c = Some u -> (u < started status)%nat)) /\
  (forall k sl status at_, slots s !! k = Some sl -> cached sl = Some (status, at_) ->
     after_invalidation s k (started status)).
Proof.
  intros Hr Ht. pose proof (reachable_fresh s Hr Ht) as Hok. split.
  - intros i c hit status Hi Hpc. destruct (callers_fresh s Hok i c Hi) as (_ & _ & Hp); [by rewrite Hpc|].
    unfold pc_fresh in Hp. rewrite Hpc in Hp. destruct Hp as [Hres Hhit].
    split; [by apply Hres|]. intros Hh u. by apply Hhit.
  - intros k sl status at_ Hk. by apply (slots_fresh s Hok k sl Hk).
Qed.

(** Executable runs only visit reachable states. *)
Lemma run_reachable allowed es s : Forall allowed es -> reachable allowed s -> reachable allowed (run s es).
Proof.
  intros Hes. revert s. induction Hes as [|e es He _ IH]; intros s Hs; [done|]. simpl.
  destruct (step s e) as [s'|] eqn:Hst; simpl; apply IH; [by eapply reach_step|done].
Qed.

(** A read leads a scan, an invalidation overtakes it, a forced read waits for the
    old flight to retire, scans again and fills the slot; a last read hits. *)
Definition overtaken : list Event :=
  [Call "w" false; Resume 0; Resume 0; Resume 0; Invalidate "w"; Call "w" true; Resume 1; Resume 1; Resume 1;
   ScanDone 0 (Scanned 7); Resume 0; Resume 0; Resume 1; Resume 1; Resume 0; Resume 0; Resume 1;
   Resume 1; Resume 1; ScanDone 1 (Scanned 8); Resume 1; Resume 1; Resume 1; Resume 1;
   Call "w" false; Resume 2].

Lemma git_status_fresh_witness :
  exists c2 status, callers (run new_cache overtaken) !! 2%nat = Some c2 /\
    c_pc c2 = Returned true (Ok status) /\ payload status = 8 /\ c_seen c2 = Some 6%nat /\ (6 < started status)%nat.
Proof.
  pose proof (git_status_fresh (run new_cache overtaken)) as H.
  destruct H as [H _]; [apply run_reachable; [by repeat constructor|constructor]|vm_compute; discriminate|].
  eexists _, _. split_and!; [vm_compute; reflexivity|vm_compute; reflexivity|reflexivity|reflexivity|].
  eapply (H 2%nat); [vm_compute; reflexivity|vm_compute; reflexivity|done|done].
Defined.

(** The caller has a step of its own, or its scan may end. *)
Definition can_move (s : GitStatusCache) (i : nat) : Prop :=
  is_Some (step s (Resume i)) \/ exists o, is_Some (step s (ScanDone i o)).

Definition finished (pc : Pc) : bool := match pc with Returned _ _ | Gone => true | _ => false end.

Lemma resume_moves s i c : callers s !! i = Some c -> is_Some (resume c s) -> can_move s i.
Proof. intros Hi [[c' s'] Hr]. left. unfold step. simpl. rewrite Hi. simpl. rewrite Hr. by eexists. Qed.

Lemma holder_moves s i c f : flights_ok s -> callers s !! i = Some c -> holds (c_pc c) = Some f -> can_move s i.
Proof.
  intros Hok Hi Hh. destruct (named_flight s Hok i c f Hi (holds_names _ _ Hh)) as (fl & Hf & _).
  destruct (c_pc c) as [| | |f' st|f' r k|f' k|f' k| |f'| | | |] eqn:Hpc; try done; injection Hh as ->.
  1-4: apply (resume_moves s i c Hi); unfold resume; rewrite Hpc; simpl; try by eexists.
  - rewrite Hf. simpl. destruct (store _ _ _ _). by eexists.
  - right. exists (Scanned 0). unfold step. simpl. rewrite Hi. simpl. unfold scan_done. rewrite Hpc, Hf. by eexists.
Qed.

(** Only a follower of a flight that is not retired can be unable to move. *)
Lemma unblocked_moves s i c :
  flights_ok s -> callers s !! i = Some c -> finished (c_pc c) = false -> holds (c_pc c) = None ->
  (forall f fl, names (c_pc c) = Some f -> flights s !! f = Some fl -> retired fl = true) -> can_move s i.
Proof.
  intros Hok Hi Hfin Hh Hret. apply (resume_moves s i c Hi). unfold resume.
  pose proof (named_flight s Hok i c) as Hnamed. revert Hnamed Hret.
  destruct (c_pc c) as [| |candidate| | | | |f r| |f|f| |]; try done; intros Hnamed Hret; simpl.
  - destruct (join _ _ _). by eexists.
  - destruct (Hnamed f Hi eq_refl) as (fl & Hf & _). rewrite Hf. simpl. destruct (accept _ _ _ _ _). by eexists.
  - destruct (Hnamed f Hi eq_refl) as (fl & Hf & _). rewrite Hf. simpl.
    unfold follower_result. rewrite (Hret f fl eq_refl Hf). destruct (result fl); by eexists.
  - destruct (Hnamed f Hi eq_refl) as (fl & Hf & _). rewrite Hf. simpl. unfold wait_for_retirement. rewrite (Hret f fl eq_refl Hf). by eexists.
Qed.

(** Single flight without deadlock, evictions and cancelled callers included:
    no two callers ever lead a scan of the same worktree; and a call that has not
    finished can take a step, or waits for a flight that is still owned by a
    leader who can, so no follower waits for a result, for the end of a vanished
    scan or for a retirement that never comes. *)
Theorem git_status_single_flight (s : GitStatusCache) :
  reachable (fun _ => True) s ->
  (forall i j c d f g, callers s !! i = Some c -> callers s !! j = Some d ->
     leads (c_pc c) = Some f -> leads (c_pc d) = Some g -> c_key c = c_key d -> i = j) /\
  (forall i c, callers s !! i = Some c -> finished (c_pc c) = false ->
     can_move s i \/
     exists f j d, names (c_pc c) = Some f /\ callers s !! j = Some d /\ holds (c_pc d) = Some f /\ can_move s j).
Proof.
  intros Hr. pose proof (reachable_flights_ok _ s Hr) as Hok. split.
  - intros i j c d f g Hi Hj Hc Hd Hk. pose proof (led_registered s Hok i c f Hi Hc) as Hf.
    pose proof (led_registered s Hok j d g Hj Hd) as Hg. rewrite Hk, Hg in Hf. injection Hf as ->.
    by apply (one_holder s Hok i j c d f); [..|apply leads_holds|apply leads_holds].
  - intros i c Hi Hfin. destruct (holds (c_pc c)) as [f|] eqn:Hh; [left; by eapply holder_moves|].
    destruct (names (c_pc c)) as [f|] eqn:Hn; [|left; apply (unblocked_moves s i c); congruence].
    destruct (named_flight s Hok i c f Hi Hn) as (fl & Hf & _). destruct (retired fl) eqn:Hret.
    + left. apply (unblocked_moves s i c); [done..|]. intros f' fl' Hn' Hf'. congruence.
    + right. destruct (flight_held s Hok f fl Hf Hret) as (j & d & Hj & Hd). exists f, j, d.
      split_and!; [done..|by eapply holder_moves].
Qed.

Lemma git_status_single_flight_witness :
  let s := run new_cache (take 9 overtaken) in
  exists c, callers s !! 1%nat = Some c /\ c_pc c = Follow 0 /\
    (can_move s 1 \/ exists f j d, names (c_pc c) = Some f /\ callers s !! j = Some d /\ holds (c_pc d) = Some f /\ can_move s j).
Proof.
  pose proof (git_status_single_flight (run new_cache (take 9 overtaken))) as H.
  destruct H as [_ H]; [apply run_reachable; [by repeat constructor|constructor]|].
  eexists. split; [vm_compute; reflexivity|split; [reflexivity|]]. eapply (H 1%nat); [vm_compute; reflexivity|reflexivity].
Defined.

(** One turn of the loop of [scan] by a leader whose scan succeeds. *)
Definition leader_turn (value : Z) : list Event :=
  [Resume 0; Resume 0; ScanDone 0 (Scanned value); Resume 0; Resume 0; Resume 0; Resume 0].

(** A forced read at the top of its loop, its slot reset below its minimum. *)
Definition reset_below (s : GitStatusCache) (k : StatusKey) (minimum : Z) : Prop :=
  gen s k = 0 /\ inflight s !! k = None /\
  exists c, callers s = [c] /\ c_key c = k /\ c_fresh c = true /\ minimum_generation c = Some minimum /\ c_pc c = Snapshot.

Lemma run_step s e s' es : step s e = Some s' -> run s (e :: es) = run s' es.
Proof. intros H. simpl. by rewrite H. Qed.

Lemma leader_turn_again s k minimum value :
  0 < minimum -> reset_below s k minimum ->
  let s' := run s (leader_turn value) in
  reset_below s' k minimum /\ length (flights s') = S (length (flights s)).
Proof.
  intros Hm (Hg & Hin & c & Hcs & Hk & Hfr & Hmin & Hpc) s'.
  destruct s as [sl infl fs cs n t inv], c as [k' fresh mg called seen pc].
  cbn in Hin, Hcs, Hk, Hfr, Hmin, Hpc. subst k' fresh mg pc cs. unfold gen, slot_of in Hg. cbn [slots] in Hg.
  set (f := length fs) in *. set (C := mkCaller k true (Some minimum) called seen).
  set (sl1 := <[k := default default_slot (sl !! k)]> sl).
  set (fl := mkFlight k 0 None false (S t)). set (st := mkStatus value (S t)).
  assert ((fs ++ [fl]) !! f = Some fl) as Hl by (by apply list_lookup_middle).
  set (pub := fun fl : Flight => mkFlight (f_key fl) (f_generation fl) (Some (Ok st)) (retired fl) (f_started fl)).
  set (ret := fun fl : Flight => mkFlight (f_key fl) (f_generation fl) (result fl) true (f_started fl)).
  set (slots' := <[k := mkSlot 0 (Some (st, n))]> sl1). set (inf := <[k := f]> infl).
  assert (s' = mkCache slots' (delete k inf) (alter ret f (alter pub f (fs ++ [fl]))) [C Snapshot] n (7 + t) inv) as ->.
  { subst s'. unfold leader_turn.
    rewrite (run_step _ _ (mkCache sl1 infl fs [C (JoinWith 0)] n (S t) inv)) by (unfold step; simpl; unfold resume, slot_of; simpl; by rewrite Hg).
    rewrite (run_step _ _ (mkCache sl1 inf (fs ++ [fl]) [C (Scan f)] n (2 + t) inv)) by (unfold step; cbn; unfold join; cbn; by rewrite Hin).
    rewrite (run_step _ _ (mkCache sl1 inf (fs ++ [fl]) [C (Store f st)] n (3 + t) inv)) by (unfold step; cbn; unfold scan_done; cbn; by rewrite Hl).
    rewrite (run_step _ _ (mkCache slots' inf (fs ++ [fl]) [C (Publish f (Ok st) Again)] n (4 + t) inv)).
    2: { unfold step. cbn. unfold resume. cbn. rewrite Hl. cbn. unfold store, slot_of, leader_after. simpl.
         unfold sl1 at 1 2. rewrite lookup_insert_eq. simpl. rewrite Hg. simpl.
         by rewrite (proj2 (Z.ltb_lt 0 minimum) Hm). }
    rewrite (run_step _ _ (mkCache slots' inf (alter pub f (fs ++ [fl])) [C (Unregister f Again)] n (5 + t) inv)) by done.
    rewrite (run_step _ _ (mkCache slots' (delete k inf) (alter pub f (fs ++ [fl])) [C (Retire f Again)] n (6 + t) inv)).
    2: { unfold step. cbn. unfold resume. cbn. unfold unregister. cbn. unfold inf at 1. by rewrite decide_True by apply lookup_insert_eq. }
    by rewrite (run_step _ _ (mkCache slots' (delete k inf) (alter ret f (alter pub f (fs ++ [fl]))) [C Snapshot] n (7 + t) inv)) by done. }
  split; [|cbn [flights]; rewrite !length_alter, length_app; cbn; lia].
  split; [apply gen_insert|]. split; [apply lookup_delete_eq|by eexists].
Qed.

Lemma run_app s es fs : run s (es ++ fs) = run (run s es) fs.
Proof. revert s. induction es as [|e es IH]; intros s; [done|]. simpl. apply IH. Qed.

Lemma leader_turns values s k minimum :
  0 < minimum -> reset_below s k minimum ->
  let s' := run s (values ≫= leader_turn) in
  reset_below s' k minimum /\ length (flights s') = (length values + length (flights s))%nat.
Proof.
  intros Hm. revert s. induction values as [|v values IH]; intros s Hs; [done|].
  destruct (leader_turn_again s k minimum v Hm Hs) as [Hs' Hl]. rewrite bind_cons, run_app.
  destruct (IH _ Hs') as [Hs'' Hl'']. split; [done|]. rewrite Hl'', Hl. cbn [length]. lia.
Qed.


(** An eviction also lets a slot outlive an invalidation: the invalidation finds no
    slot, the scan it should have overtaken recreates one at generation 0 and
    stores into it, and the next read is a hit on a status older than the
    invalidation. *)
Example evicted_slot_serves_stale :
  let s := run new_cache
    [Call "w" false; Resume 0; Resume 0; Resume 0; Evict "w"; Invalidate "w"; ScanDone 0 (Scanned 7);
     Resume 0; Resume 0; Resume 0; Resume 0; Call "w" false; Resume 1] in
  exists c status u, callers s !! 1%nat = Some c /\ c_pc c = Returned true (Ok status) /\
    c_seen c = Some u /\ (started status < u)%nat.
Proof. eexists _, _, _. split_and!; [vm_compute; reflexivity..|vm_compute; lia]. Qed.

(** A plain read that follows an invalidation may still coalesce onto a scan that
    started before it. *)
Example read_after_invalidation_coalesces :
  let s := run new_cache
    [Call "w" false; Resume 0; Resume 0; Resume 0; Invalidate "w"; Call "w" false; Resume 1; Resume 1; Resume 1;
     ScanDone 0 (Scanned 7); Resume 0; Resume 0; Resume 1; Resume 1] in
  exists c status u, callers s !! 1%nat = Some c /\ c_pc c = Returned false (Ok status) /\
    c_seen c = Some u /\ (started status < u)%nat.
Proof. eexists _, _, _. split_and!; [vm_compute; reflexivity..|vm_compute; lia]. Qed.
