(* ===== verification/DeliveryTasks.v ===== *)
(** * Delivery task registry ([crates/intent-services/src/delivery_tasks.rs])

    The registry that owns background deliveries until shutdown, as a machine:
    tasks run and end, calls of [drain_finite] and [shutdown] advance one lock
    region or one await at a time, [close], [spawn_owned] and waiters of [closed]
    interleave with them, and any call may be dropped at an await.  A call knows
    the task it runs on, if any.  A panic inside the lock poisons it. *)
From stdpp Require Import prelude.
From S2P Require Import Prelude.

(** ** State *)

(** A spawned future runs, then drops its completion sender, then is finished for
    the runtime.  An abort only asks the runtime to end it. *)
Inductive TaskPhase := Running | Signalled | Finished.

Record Task := mkTask { finish_on_shutdown : bool; phase : TaskPhase; aborted : bool }.

Definition running (t : Task) : bool := match phase t with Running => true | _ => false end.

Definition is_finished (t : Task) : bool := match phase t with Finished => true | _ => false end.

(** [closed]: registered, checked, parked; the flag is a notification received. *)
Inductive Waiter := WaitEnabled (notified : bool) | WaitParked (notified : bool) | WaitReturned.

(** Where a call stands. *)
Inductive Pc :=
| DrainCheck
| DrainLock
| DrainTop
| DrainAwait (tasks : list nat)
| DrainClear
| ShutdownClose
| ShutdownTake
| ShutdownAbort (tasks : list nat)
| ShutdownAwait (tasks : list nat)
| DrainReturned
| ShutdownReturned
| Panicked
| Gone.

Record Call := mkCall { current : option nat; pc : Pc }.

(** [tasks] and [draining] name tasks of the pool by their id; [drainer] is the
    call that holds the drain lock.  [taken] is history: what each call of
    [shutdown] removed from the registry. *)
Record DeliveryTasks := mkState {
  closed : bool;
  tasks : list nat;
  draining : list nat;
  cancellation_flag : bool;
  poisoned : bool;
  drainer : option nat;
  pool : list Task;
  calls : list Call;
  waiters : list Waiter;
  taken : list (nat * nat);
}.

Definition empty : DeliveryTasks := mkState false [] [] false false None [] [] [] [].

Definition set_tasks ts d s :=
  mkState (closed s) ts d (cancellation_flag s) (poisoned s) (drainer s) (pool s) (calls s) (waiters s) (taken s).
Definition set_drainer o s :=
  mkState (closed s) (tasks s) (draining s) (cancellation_flag s) (poisoned s) o (pool s) (calls s) (waiters s) (taken s).
Definition set_pool p s :=
  mkState (closed s) (tasks s) (draining s) (cancellation_flag s) (poisoned s) (drainer s) p (calls s) (waiters s) (taken s).
Definition set_calls cs s :=
  mkState (closed s) (tasks s) (draining s) (cancellation_flag s) (poisoned s) (drainer s) (pool s) cs (waiters s) (taken s).
Definition set_waiters ws s :=
  mkState (closed s) (tasks s) (draining s) (cancellation_flag s) (poisoned s) (drainer s) (pool s) (calls s) ws (taken s).
Definition note_taken i ts s :=
  mkState (closed s) (tasks s) (draining s) (cancellation_flag s) (poisoned s) (drainer s) (pool s) (calls s) (waiters s)
    (map (pair i) ts ++ taken s).
Definition poison s :=
  mkState (closed s) (tasks s) (draining s) (cancellation_flag s) true (drainer s) (pool s) (calls s) (waiters s) (taken s).

(** ** Operations under the lock *)

Definition notify (w : Waiter) : Waiter :=
  match w with WaitEnabled _ => WaitEnabled true | WaitParked _ => WaitParked true | WaitReturned => WaitReturned end.

(** [state.closed = true], the flag and [notify_waiters]. *)
Definition mark_closed (flag : bool) (s : DeliveryTasks) : DeliveryTasks :=
  mkState true (tasks s) (draining s) (flag || cancellation_flag s) (poisoned s) (drainer s) (pool s) (calls s)
    (notify <$> waiters s) (taken s).

Definition task (s : DeliveryTasks) (t : nat) : Task := default (mkTask true Finished false) (pool s !! t).

Definition abort (t : Task) : Task := mkTask (finish_on_shutdown t) (phase t) true.

(** [task.abort.abort()] for the cancellable tasks of [ts] but [current]. *)
Definition abort_cancellable (current : option nat) (ts : list nat) (s : DeliveryTasks) : DeliveryTasks :=
  set_pool (imap (fun t x =>
    if bool_decide (t ∈ ts) && negb (finish_on_shutdown x) && bool_decide (Some t <> current) then abort x else x) (pool s)) s.

(** [spawn_owned]; [None] is the refusal after closing. *)
Definition spawn_owned (finish : bool) (s : DeliveryTasks) : option DeliveryTasks :=
  if closed s then None
  else
    let kept := filter (fun t => is_finished (task s t) = false) (tasks s) in
    Some (set_tasks (kept ++ [length (pool s)]) (draining s) (set_pool (pool s ++ [mkTask finish Running false]) s)).

(** [close]. *)
Definition close (current : option nat) (s : DeliveryTasks) : DeliveryTasks :=
  abort_cancellable current (tasks s) (mark_closed true s).

(** The check of [drain_finite] that its caller is not one of the tasks. *)
Definition is_owned (current : option nat) (s : DeliveryTasks) : bool :=
  match current with Some t => bool_decide (t ∈ tasks s ++ draining s) | None => false end.

(** One turn of the drain loop under the lock. *)
Inductive DrainTurn := TurnPanic | TurnReturn (s : DeliveryTasks) | TurnAwait (ts : list nat) (s : DeliveryTasks).

Definition drain_turn (s : DeliveryTasks) : DrainTurn :=
  match draining s, tasks s with
  | _ :: _, _ => TurnPanic
  | [], [] => TurnReturn (mark_closed true s)
  | [], ts =>
      if forallb (fun t => finish_on_shutdown (task s t)) ts then TurnAwait ts (set_tasks [] ts s) else TurnPanic
  end.

(** The second region of [shutdown]: the tasks it takes, its own task stays. *)
Definition shutdown_take (i : nat) (current : option nat) (s : DeliveryTasks) : list nat * DeliveryTasks :=
  let callers := filter (fun t => Some t = current) (tasks s) in
  let others := filter (fun t => Some t <> current) (tasks s) in
  (others, note_taken i others (set_tasks callers (draining s) (mark_closed false s))).

(** ** Steps *)

Definition put (i : nat) (pc : Pc) (c : Call) (s : DeliveryTasks) : DeliveryTasks :=
  set_calls (<[i := mkCall (current c) pc]> (calls s)) s.

(** A call that takes the state lock panics when it is poisoned. *)
Definition locked (i : nat) (c : Call) (s : DeliveryTasks) (k : DeliveryTasks) : DeliveryTasks :=
  if poisoned s then put i Panicked c s else k.

(** The drain lock is released when its holder ends. *)
Definition release (i : nat) (s : DeliveryTasks) : DeliveryTasks :=
  if decide (drainer s = Some i) then set_drainer None s else s.

(** [drain_finite]. *)
Definition drain_step (i : nat) (c : Call) (s : DeliveryTasks) : option DeliveryTasks :=
  match pc c with
  | DrainCheck => Some (locked i c s (put i (if is_owned (current c) s then Panicked else DrainLock) c s))
  | DrainLock =>
      match drainer s with
      | None => Some (put i DrainTop c (set_drainer (Some i) s))
      | Some _ => None
      end
  | DrainTop =>
      Some (if poisoned s then put i Panicked c (release i s)
            else match drain_turn s with
                 | TurnPanic => put i Panicked c (release i (poison s))
                 | TurnReturn s' => put i DrainReturned c (release i s')
                 | TurnAwait ts s' => put i (DrainAwait ts) c s'
                 end)
  | DrainAwait (t :: ts) => if running (task s t) then None else Some (put i (DrainAwait ts) c s)
  | DrainAwait [] => Some (put i DrainClear c s)
  | DrainClear =>
      Some (if poisoned s then put i Panicked c (release i s) else put i DrainTop c (set_tasks (tasks s) [] s))
  | _ => None
  end.

(** [shutdown]. *)
Definition shutdown_step (i : nat) (c : Call) (s : DeliveryTasks) : option DeliveryTasks :=
  match pc c with
  | ShutdownClose => Some (locked i c s (put i ShutdownTake c (close (current c) s)))
  | ShutdownTake =>
      Some (locked i c s (let '(ts, s') := shutdown_take i (current c) s in put i (ShutdownAbort ts) c s'))
  | ShutdownAbort ts => Some (put i (ShutdownAwait ts) c (abort_cancellable None ts s))
  | ShutdownAwait (t :: ts) => if running (task s t) then None else Some (put i (ShutdownAwait ts) c s)
  | ShutdownAwait [] => Some (put i ShutdownReturned c s)
  | _ => None
  end.

Definition resume (i : nat) (c : Call) (s : DeliveryTasks) : option DeliveryTasks :=
  match pc c with
  | DrainCheck | DrainLock | DrainTop | DrainAwait _ | DrainClear => drain_step i c s
  | _ => shutdown_step i c s
  end.

(** The call's future is dropped at an await. *)
Definition cancel (i : nat) (c : Call) (s : DeliveryTasks) : option DeliveryTasks :=
  match pc c with
  | DrainCheck | DrainLock | DrainAwait (_ :: _) | ShutdownClose | ShutdownAwait (_ :: _) =>
      Some (put i Gone c (release i s))
  | _ => None
  end.

(** One step of [closed]. *)
Definition wait_step (s : DeliveryTasks) (w : Waiter) : option Waiter :=
  match w with
  | WaitEnabled n => if poisoned s then None else Some (if closed s then WaitReturned else WaitParked n)
  | WaitParked n => if n then Some WaitReturned else None
  | WaitReturned => None
  end.

(** A task ends: first its sender goes, then the runtime knows. *)
Definition end_task (t : Task) : option Task :=
  match phase t with
  | Running => Some (mkTask (finish_on_shutdown t) Signalled (aborted t))
  | Signalled => Some (mkTask (finish_on_shutdown t) Finished (aborted t))
  | Finished => None
  end.

Inductive Event :=
| Spawn (finish : bool)
| TaskEnds (t : nat)
| Close (current : option nat)
| CallDrain (current : option nat)
| CallShutdown (current : option nat)
| Resume (i : nat)
| Cancel (i : nat)
| CallClosed
| Wait (w : nat).

(** [None] when the event is not possible in this state. *)
Definition step (s : DeliveryTasks) (e : Event) : option DeliveryTasks :=
  match e with
  | Spawn finish => if poisoned s then None else spawn_owned finish s
  | TaskEnds t => x ← pool s !! t; x' ← end_task x; Some (set_pool (<[t := x']> (pool s)) s)
  | Close current => if poisoned s then None else Some (close current s)
  | CallDrain current => Some (set_calls (calls s ++ [mkCall current DrainCheck]) s)
  | CallShutdown current => Some (set_calls (calls s ++ [mkCall current ShutdownClose]) s)
  | Resume i => c ← calls s !! i; resume i c s
  | Cancel i => c ← calls s !! i; cancel i c s
  | CallClosed => Some (set_waiters (waiters s ++ [WaitEnabled false]) s)
  | Wait j => w ← waiters s !! j; w' ← wait_step s w; Some (set_waiters (<[j := w']> (waiters s)) s)
  end.

Inductive reachable : DeliveryTasks -> Prop :=
| reach_empty : reachable empty
| reach_step s e s' : reachable s -> step s e = Some s' -> reachable s'.

Fixpoint run (s : DeliveryTasks) (es : list Event) : DeliveryTasks :=
  match es with [] => s | e :: es' => run (default s (step s e)) es' end.

(** ** Invariant *)

Definition live (s : DeliveryTasks) (t : nat) : Prop := running (task s t) = true.

(** The call has removed tasks from the registry. *)
Definition has_taken (p : Pc) : bool :=
  match p with ShutdownAbort _ | ShutdownAwait _ | ShutdownReturned | Gone => true | _ => false end.

(** What [shutdown] waits for, and that it will end. *)
Definition shutdown_waits (s : DeliveryTasks) (i : nat) (c : Call) (ts : list nat) : Prop :=
  closed s = true /\ (forall t, t ∈ tasks s -> Some t = current c) /\
  forall t, (i, t) ∈ taken s -> t ∈ ts \/ ~ live s t.

Definition pc_ok (s : DeliveryTasks) (i : nat) (c : Call) : Prop :=
  match pc c with
  | DrainTop => drainer s = Some i
  | DrainAwait ts => drainer s = Some i /\ forall t, t ∈ draining s -> t ∈ ts \/ ~ live s t
  | DrainClear => drainer s = Some i /\ forall t, t ∈ draining s -> ~ live s t
  | DrainReturned => closed s = true /\ forall t, live s t -> exists j, (j, t) ∈ taken s
  | ShutdownTake => closed s = true
  | ShutdownAbort ts => shutdown_waits s i c ts
  | ShutdownAwait ts => shutdown_waits s i c ts /\
      forall t, t ∈ ts -> finish_on_shutdown (task s t) = true \/ aborted (task s t) = true
  | ShutdownReturned => shutdown_waits s i c []
  | _ => True
  end.

Definition call_ok (s : DeliveryTasks) (i : nat) (c : Call) : Prop :=
  pc_ok s i c /\ (has_taken (pc c) = false -> forall t, (i, t) ∉ taken s).

Record registry_ok (s : DeliveryTasks) : Prop := {
  live_owned t : live s t -> t ∈ tasks s \/ t ∈ draining s \/ exists i, (i, t) ∈ taken s;
  ids_known t : t ∈ tasks s \/ t ∈ draining s \/ (exists i, (i, t) ∈ taken s) -> (t < length (pool s))%nat;
  takers_known i t : (i, t) ∈ taken s -> (i < length (calls s))%nat;
  calls_ok i c : calls s !! i = Some c -> call_ok s i c;
  finite_kept t : aborted (task s t) = true -> finish_on_shutdown (task s t) = false;
  waiters_woken j w : closed s = true -> waiters s !! j = Some w -> w <> WaitParked false;
}.

(** What a step of call [i], or of nobody, does to the state the others see. *)
Record evolves (i : nat) (s s' : DeliveryTasks) : Prop := {
  ev_closed : closed s = true -> closed s' = true;
  ev_live t : (t < length (pool s))%nat -> live s' t -> live s t;
  ev_frozen : closed s = true -> length (pool s') = length (pool s) /\ forall t, t ∈ tasks s' -> t ∈ tasks s;
  ev_drainer j : j <> i -> drainer s = Some j -> drainer s' = Some j /\ draining s' = draining s;
  ev_taken j t : (j, t) ∈ taken s -> (j, t) ∈ taken s';
  ev_taker j t : (j, t) ∈ taken s' -> (j, t) ∈ taken s \/ j = i;
  ev_abort t : (t < length (pool s))%nat -> finish_on_shutdown (task s' t) = finish_on_shutdown (task s t) /\
    (aborted (task s t) = true -> aborted (task s' t) = true);
}.

Lemma not_live_beyond s t : (length (pool s) <= t)%nat -> ~ live s t.
Proof. intros Hle. unfold live, task. rewrite lookup_ge_None_2 by done. done. Qed.

Lemma live_bound s t : live s t -> (t < length (pool s))%nat.
Proof. intros Hl. destruct (decide (t < length (pool s))%nat); [done|]. destruct (not_live_beyond s t); [lia|done]. Qed.

Lemma waits_evolves i j s s' c ts :
  registry_ok s -> evolves i s s' -> i <> j -> shutdown_waits s j c ts -> shutdown_waits s' j c ts.
Proof.
  intros Hok E Hne (Hc & Ht & Hw). split; [by apply (ev_closed _ _ _ E)|]. destruct (ev_frozen _ _ _ E Hc) as [Hlen Hsub].
  split; [intros t Hin; by apply Ht, Hsub|]. intros t [Hin|Heq]%(ev_taker _ _ _ E); [|done].
  destruct (Hw t Hin) as [|Hd]; [by left|right]. intros Hl. apply Hd, (ev_live _ _ _ E); [|done].
  apply (ids_known s Hok). eauto.
Qed.

Lemma call_evolves i j s s' c :
  registry_ok s -> evolves i s s' -> i <> j -> call_ok s j c -> call_ok s' j c.
Proof.
  intros Hok E Hne [Hp Ht]. split.
  - assert (forall t, t ∈ draining s -> (t < length (pool s))%nat) as Hd by (intros; apply (ids_known s Hok); auto).
    unfold pc_ok in *. destruct (pc c) eqn:Hpc; try done.
    + by apply (ev_drainer _ _ _ E).
    + destruct Hp as [Hdr Hp]. destruct (ev_drainer _ _ _ E j ltac:(done) Hdr) as [Hdr' Hdd]. split; [done|].
      rewrite Hdd. intros t Hin. destruct (Hp t Hin) as [|Hnl]; [by left|right]. intros Hl. apply Hnl, (ev_live _ _ _ E); auto.
    + destruct Hp as [Hdr Hp]. destruct (ev_drainer _ _ _ E j ltac:(done) Hdr) as [Hdr' Hdd]. split; [done|].
      rewrite Hdd. intros t Hin Hl. apply (Hp t Hin), (ev_live _ _ _ E); auto.
    + by apply (ev_closed _ _ _ E).
    + by apply (waits_evolves i j s).
    + destruct Hp as [Hw Ha]. split; [by apply (waits_evolves i j s)|]. intros t Hin.
      destruct (decide (t < length (pool s))%nat) as [Hlt|Hge].
      * destruct (ev_abort _ _ _ E t Hlt) as [-> Hab]. destruct (Ha t Hin); auto.
      * left. destruct Hw as (Hc & _). destruct (ev_frozen _ _ _ E Hc) as [Hlen _].
        unfold task. rewrite lookup_ge_None_2 by lia. done.
    + destruct Hp as [Hc Hp]. split; [by apply (ev_closed _ _ _ E)|]. intros t Hl.
      destruct (ev_frozen _ _ _ E Hc) as [Hlen _]. pose proof (live_bound _ _ Hl).
      destruct (Hp t) as [k Hk]; [apply (ev_live _ _ _ E); [lia|done]|]. exists k. by apply (ev_taken _ _ _ E).
    + by apply (waits_evolves i j s).
  - intros Hh t [Hin|Heq]%(ev_taker _ _ _ E); [by apply (Ht Hh t)|done].
Qed.

Lemma registry_intro i s s' :
  registry_ok s -> evolves i s s' ->
  (forall t, live s' t -> t ∈ tasks s' \/ t ∈ draining s' \/ exists i, (i, t) ∈ taken s') ->
  (forall t, t ∈ tasks s' \/ t ∈ draining s' \/ (exists i, (i, t) ∈ taken s') -> (t < length (pool s'))%nat) ->
  (forall j t, (j, t) ∈ taken s' -> (j < length (calls s'))%nat) ->
  (forall j c, calls s' !! j = Some c -> (calls s !! j = Some c /\ i <> j) \/ call_ok s' j c) ->
  (forall t, aborted (task s' t) = true -> finish_on_shutdown (task s' t) = false) ->
  (forall j w, closed s' = true -> waiters s' !! j = Some w -> w <> WaitParked false) ->
  registry_ok s'.
Proof.
  intros Hok E Hlive Hids Htak Hcalls Hfin Hwait. split; try done.
  intros j c Hj. destruct (Hcalls j c Hj) as [[Hj' Hne]|]; [|done].
  apply (call_evolves i j s); [done..|]. by apply (calls_ok s Hok).
Qed.

Lemma task_aborted cur ts s t :
  task (abort_cancellable cur ts s) t =
  if bool_decide (t ∈ ts) && negb (finish_on_shutdown (task s t)) && bool_decide (Some t <> cur)
  then abort (task s t) else task s t.
Proof.
  unfold abort_cancellable, task. simpl. rewrite list_lookup_imap. destruct (pool s !! t); simpl; [done|].
  by destruct (bool_decide (t ∈ ts)).
Qed.

Lemma live_aborted cur ts s t : live (abort_cancellable cur ts s) t <-> live s t.
Proof. unfold live. rewrite task_aborted. by case_match. Qed.

Lemma length_aborted cur ts s : length (pool (abort_cancellable cur ts s)) = length (pool s).
Proof. simpl. apply length_imap. Qed.

Lemma aborted_finite cur ts s t :
  (forall t, aborted (task s t) = true -> finish_on_shutdown (task s t) = false) ->
  aborted (task (abort_cancellable cur ts s) t) = true -> finish_on_shutdown (task (abort_cancellable cur ts s) t) = false.
Proof.
  intros H. rewrite task_aborted. destruct (_ && _) eqn:Hc; [|apply H]. simpl. case_tests. done.
Qed.

(** Steps of a call that change only its own position. *)
Lemma move_ok i c p s :
  registry_ok s -> calls s !! i = Some c ->
  (has_taken (pc c) = true -> has_taken p = true) ->
  pc_ok s i (mkCall (current c) p) -> registry_ok (put i p c s).
Proof.
  intros Hok Hi Hh Hp. apply (registry_intro i s); [done| |apply (live_owned s Hok)|apply (ids_known s Hok)| | |apply (finite_kept s Hok)|apply (waiters_woken s Hok)].
  - split; simpl; auto.
  - intros j t Hj. simpl. rewrite length_insert. by apply (takers_known s Hok j t).
  - intros j d [[-> ->]|[Hne Hj]]%insert_cases; [right|by left; split; [|congruence]].
    split; [exact Hp|]. simpl. intros Hf t Hin. destruct (calls_ok s Hok i c Hi) as [_ Ht].
    apply (Ht ltac:(destruct (has_taken (pc c)); [specialize (Hh eq_refl); congruence|done]) t Hin).
Qed.

(** Operations that no call's position depends on. *)
Lemma shared_ok s s' :
  registry_ok s -> evolves (length (calls s)) s s' -> calls s' = calls s -> taken s' = taken s ->
  (forall t, live s' t -> t ∈ tasks s' \/ t ∈ draining s' \/ exists i, (i, t) ∈ taken s') ->
  (forall t, t ∈ tasks s' \/ t ∈ draining s' \/ (exists i, (i, t) ∈ taken s') -> (t < length (pool s'))%nat) ->
  (forall t, aborted (task s' t) = true -> finish_on_shutdown (task s' t) = false) ->
  (forall j w, closed s' = true -> waiters s' !! j = Some w -> w <> WaitParked false) ->
  registry_ok s'.
Proof.
  intros Hok E Hcalls Htaken Hl Hi Hf Hw. apply (registry_intro (length (calls s)) s); try done.
  - intros j t. rewrite Htaken, Hcalls. apply (takers_known s Hok).
  - intros j c Hj. rewrite Hcalls in Hj. left. split; [done|]. apply lookup_lt_Some in Hj. lia.
Qed.

Lemma mark_closed_ok flag s : registry_ok s -> registry_ok (mark_closed flag s).
Proof.
  intros Hok. apply (shared_ok s); [done|split; simpl; auto|done|done|apply (live_owned s Hok)|apply (ids_known s Hok)|apply (finite_kept s Hok)|].
  simpl. intros j w _ Hj. rewrite list_lookup_fmap in Hj. destruct (waiters s !! j) as [w0|]; [|done].
  injection Hj as <-. by destruct w0.
Qed.

Lemma abort_ok cur ts s : registry_ok s -> registry_ok (abort_cancellable cur ts s).
Proof.
  intros Hok. apply (shared_ok s); [done| |done|done| | | |apply (waiters_woken s Hok)].
  - split; auto.
    + intros t _. apply live_aborted.
    + intros _. split; [apply length_aborted|auto].
    + intros t _. rewrite task_aborted. split; [by case_match|]. case_match; simpl; auto.
  - intros t Hl%live_aborted. by apply (live_owned s Hok).
  - intros t Ht. rewrite length_aborted. by apply (ids_known s Hok).
  - intros t. apply aborted_finite, (finite_kept s Hok).
Qed.

Lemma task_spawned finish s t :
  task (set_pool (pool s ++ [mkTask finish Running false]) s) t =
  if decide (t = length (pool s)) then mkTask finish Running false else task s t.
Proof.
  unfold task. simpl. destruct (decide (t = length (pool s))) as [->|Hne]; [by rewrite list_lookup_middle|].
  destruct (decide (t < length (pool s))%nat); [by rewrite lookup_app_l|].
  rewrite !lookup_ge_None_2; [done|lia|rewrite length_app; simpl; lia].
Qed.

Lemma spawn_ok finish s s' : registry_ok s -> spawn_owned finish s = Some s' -> registry_ok s'.
Proof.
  intros Hok. unfold spawn_owned. destruct (closed s) eqn:Hc; [done|]. intros [= <-].
  set (s' := set_tasks _ _ _).
  assert (forall t, task s' t = if decide (t = length (pool s)) then mkTask finish Running false else task s t) as Htask
    by apply task_spawned.
  apply (shared_ok s); [done| |done|done| | | |simpl; by rewrite Hc].
  - split; auto.
    + intros t Hlt. unfold live. rewrite Htask, decide_False by lia. done.
    + by rewrite Hc.
    + intros t Hlt. rewrite Htask, decide_False by lia. done.
  - intros t. unfold live. rewrite Htask. destruct (decide (t = length (pool s))) as [->|Hne]; [simpl; set_solver|].
    intros Hl. destruct (live_owned s Hok t Hl) as [Hin|[Hin|Hin]]; [left|auto..].
    apply elem_of_app. left. apply list_elem_of_filter. split; [|done]. unfold live, running, is_finished in *. by destruct (phase _).
  - simpl. intros t Ht. rewrite length_app. simpl. assert (t < length (pool s) \/ t = length (pool s))%nat; [|lia].
    destruct Ht as [[Hin|Hin]%elem_of_app|Ht]; [left|set_solver|left; apply (ids_known s Hok); auto].
    apply (ids_known s Hok). left. by apply list_elem_of_filter in Hin as [_ ?].
  - intros t. rewrite Htask. case_decide; [done|apply (finite_kept s Hok)].
Qed.

Lemma end_ok t x x' s :
  registry_ok s -> pool s !! t = Some x -> end_task x = Some x' -> registry_ok (set_pool (<[t := x']> (pool s)) s).
Proof.
  intros Hok Hx He.
  assert (running x' = false /\ finish_on_shutdown x' = finish_on_shutdown x /\ aborted x' = aborted x) as (Hr & Hfs & Hab).
  { unfold end_task in He. destruct x as [fs [] ab]; simplify_eq/=; done. }
  assert (forall u, task (set_pool (<[t := x']> (pool s)) s) u = if decide (u = t) then x' else task s u) as Htask.
  { intros u. unfold task. simpl. case_decide; [subst; by rewrite (lookup_inserted _ _ _ x)|by rewrite list_lookup_insert_ne]. }
  assert (task s t = x) as Hts by (unfold task; by rewrite Hx).
  apply (shared_ok s); simpl; [done| |done|done| | | |apply (waiters_woken s Hok)].
  - split; simpl; auto.
    + intros u _. unfold live. rewrite Htask. case_decide; [by rewrite Hr|done].
    + intros _. by rewrite length_insert.
    + intros u _. rewrite Htask. case_decide; [subst; split; congruence|done].
  - intros u. unfold live. rewrite Htask. case_decide; [by rewrite Hr|]. apply (live_owned s Hok).
  - intros u Hu. rewrite length_insert. by apply (ids_known s Hok).
  - intros u. rewrite Htask. case_decide; [subst; rewrite Hfs, Hab; apply (finite_kept s Hok)|apply (finite_kept s Hok)].
Qed.

(** The drainer takes the registered tasks, or forgets the drained ones. *)
Lemma drain_lists_ok i c s ts ds :
  registry_ok s -> calls s !! i = Some c -> drainer s = Some i ->
  pc_ok (set_tasks ts ds s) i c -> (forall t, t ∈ ts -> t ∈ tasks s) -> (forall t, t ∈ ds -> t ∈ tasks s \/ t ∈ draining s) ->
  (forall t, live s t -> t ∈ tasks s \/ t ∈ draining s -> t ∈ ts \/ t ∈ ds) ->
  registry_ok (set_tasks ts ds s).
Proof.
  intros Hok Hi Hd Hp Hts Hds Hl.
  apply (registry_intro i s); simpl; [done| | | |apply (takers_known s Hok)| |apply (finite_kept s Hok)|apply (waiters_woken s Hok)].
  - split; simpl; auto. intros j Hne Hj. congruence.
  - intros t Hlive. destruct (live_owned s Hok t Hlive) as [Hin|[Hin|Hin]]; [destruct (Hl t Hlive); auto..|auto].
  - intros t [Hin|[Hin|Hin]]; apply (ids_known s Hok); [auto|destruct (Hds t Hin); auto|auto].
  - intros j d Hj. destruct (decide (i = j)) as [<-|]; [right|by left].
    rewrite Hi in Hj. injection Hj as <-. split; [done|]. apply (calls_ok s Hok i c Hi).
Qed.

Lemma drainer_ok i c o s :
  registry_ok s -> calls s !! i = Some c -> drainer s = None \/ drainer s = Some i ->
  pc_ok (set_drainer o s) i c -> registry_ok (set_drainer o s).
Proof.
  intros Hok Hi Hd Hp.
  apply (registry_intro i s); simpl; [done| |apply (live_owned s Hok)|apply (ids_known s Hok)|apply (takers_known s Hok)| |apply (finite_kept s Hok)|apply (waiters_woken s Hok)].
  - split; simpl; auto. intros j Hne Hj. destruct Hd; congruence.
  - intros j d Hj. destruct (decide (i = j)) as [<-|]; [right|by left].
    rewrite Hi in Hj. injection Hj as <-. split; [done|]. apply (calls_ok s Hok i c Hi).
Qed.

Definition holds_drain (p : Pc) : bool :=
  match p with DrainTop | DrainAwait _ | DrainClear => true | _ => false end.

(** A call ends and lets go of the drain lock. *)
Lemma finish_ok i c p s :
  registry_ok s -> calls s !! i = Some c -> (has_taken (pc c) = true -> has_taken p = true) ->
  holds_drain p = false -> pc_ok s i (mkCall (current c) p) -> registry_ok (put i p c (release i s)).
Proof.
  intros Hok Hi Hh Hn Hp. pose proof (move_ok i c p s Hok Hi Hh Hp) as Hm.
  unfold release. case_decide as Hd; [|done].
  apply (drainer_ok i (mkCall (current c) p) None (put i p c s)); [done|by eapply lookup_inserted|by right|].
  unfold pc_ok in *. simpl in *. by destruct p.
Qed.

Lemma poison_ok s : registry_ok s -> registry_ok (poison s).
Proof. intros []. by split. Qed.

Lemma drain_top_ok i c s :
  registry_ok s -> calls s !! i = Some c -> pc c = DrainTop ->
  registry_ok match drain_turn s with
              | TurnPanic => put i Panicked c (release i (poison s))
              | TurnReturn s' => put i DrainReturned c (release i s')
              | TurnAwait ts s' => put i (DrainAwait ts) c s'
              end.
Proof.
  intros Hok Hi Hpc. destruct (calls_ok s Hok i c Hi) as [Hd _]. unfold pc_ok in Hd. rewrite Hpc in Hd.
  unfold drain_turn. destruct (draining s) as [|d ds] eqn:Hdr;
    [|by apply finish_ok; rewrite ?Hpc; [apply poison_ok|..]].
  destruct (tasks s) as [|t ts] eqn:Hts.
  - apply finish_ok; rewrite ?Hpc; [by apply mark_closed_ok|done..|].
    split; [done|]. intros t Hl. destruct (live_owned s Hok t Hl) as [Hin|[Hin|Hin]]; [|..|done].
    + rewrite Hts in Hin. set_solver.
    + rewrite Hdr in Hin. set_solver.
  - destruct (forallb _ _); [|by apply finish_ok; rewrite ?Hpc; [apply poison_ok|..]].
    assert (registry_ok (set_tasks [] (t :: ts) s)) as Hok'.
    { apply (drain_lists_ok i c); [done..| | | |]; unfold pc_ok; rewrite ?Hpc, ?Hts, ?Hdr; [done|set_solver|auto|].
      intros u _ [Hin|Hin]; [by right|set_solver]. }
    apply (move_ok i c); rewrite ?Hpc; [done..|]. split; simpl; [done|auto].
Qed.

Lemma shutdown_take_ok i c s :
  registry_ok s -> calls s !! i = Some c -> pc c = ShutdownTake ->
  registry_ok (let '(ts, s') := shutdown_take i (current c) s in put i (ShutdownAbort ts) c s').
Proof.
  intros Hok0 Hi Hpc. destruct (calls_ok s Hok0 i c Hi) as [_ Hnone]. rewrite Hpc in Hnone. specialize (Hnone eq_refl).
  unfold shutdown_take. set (s1 := mark_closed false s). assert (registry_ok s1) as Hok by (by apply mark_closed_ok).
  set (others := filter (fun t => Some t <> current c) (tasks s)).
  set (mine := filter (fun t => Some t = current c) (tasks s)).
  assert (forall j t, (j, t) ∈ map (pair i) others ++ taken s <-> (j = i /\ t ∈ others) \/ (j, t) ∈ taken s) as Htaken.
  { intros j t. rewrite elem_of_app. split; (intros [H|H]; [left|by right]).
    - apply list_elem_of_fmap in H as (? & [= -> ->] & ?). done.
    - destruct H as [-> H]. by apply (list_elem_of_fmap_2 (pair i)). }
  assert (forall t, t ∈ tasks s -> t ∈ mine \/ t ∈ others) as Hsplit.
  { intros t Ht. unfold mine, others. rewrite !list_elem_of_filter. destruct (decide (Some t = current c)); auto. }
  assert (forall t, t ∈ mine \/ t ∈ others -> t ∈ tasks s) as Hback.
  { intros t [Ht|Ht]; by apply list_elem_of_filter in Ht as [_ ?]. }
  apply (registry_intro i s1); simpl; [done| | | | | |apply (finite_kept s1 Hok)|apply (waiters_woken s1 Hok)].
  - split; simpl; auto.
    + intros j t Hj. apply Htaken. auto.
    + intros j t [[-> _]|]%Htaken; auto.
  - intros t Hl. destruct (live_owned s1 Hok t Hl) as [Hin|[Hin|[j Hin]]].
    + destruct (Hsplit t Hin); [by left|]. right; right. exists i. apply Htaken. by left.
    + by right; left.
    + right; right. exists j. apply Htaken. by right.
  - intros t [Hin|[Hin|[j [[-> Hin]|Hin]%Htaken]]]; apply (ids_known s1 Hok); simpl; eauto.
  - intros j t [[-> _]|Hin]%Htaken; rewrite length_insert; [by eapply lookup_lt_Some|by apply (takers_known s1 Hok j t)].
  - intros j d [[-> ->]|[Hne Hj]]%insert_cases; [right|by left]. split; [|done].
    split; [done|]. simpl. split; [by intros t [? _]%list_elem_of_filter|].
    intros t [[_ Hin]|Hin]%Htaken; [by left|]. by destruct (Hnone t).
Qed.

(** The next task of an await is over. *)
Lemma awaited_ok i c s t ts :
  registry_ok s -> calls s !! i = Some c -> running (task s t) = false ->
  (pc c = DrainAwait (t :: ts) -> registry_ok (put i (DrainAwait ts) c s)) /\
  (pc c = ShutdownAwait (t :: ts) -> registry_ok (put i (ShutdownAwait ts) c s)).
Proof.
  intros Hok Hi Hr. destruct (calls_ok s Hok i c Hi) as [Hp _]. unfold pc_ok in Hp.
  assert (forall u, u ∈ t :: ts -> u ∈ ts \/ ~ live s u) as Hrest.
  { intros u [->|Hu]%elem_of_cons; [right|by left]. unfold live. congruence. }
  split; intros Hpc; rewrite Hpc in Hp; (apply (move_ok i c); [done|done|by rewrite ?Hpc|]).
  - destruct Hp as [Hd Hp]. split; [done|]. intros u Hu. destruct (Hp u Hu); [by apply Hrest|by right].
  - destruct Hp as [(Hc & Ht & Hw) Ha]. split; [split; [done|split; [done|]]|].
    + intros u Hu. destruct (Hw u Hu); [by apply Hrest|by right].
    + intros u Hu. apply Ha. by right.
Qed.

Lemma resume_ok i c s s' : registry_ok s -> calls s !! i = Some c -> resume i c s = Some s' -> registry_ok s'.
Proof.
  intros Hok Hi Hr. destruct (calls_ok s Hok i c Hi) as [Hp _]. unfold pc_ok in Hp. unfold resume, drain_step, shutdown_step, locked in Hr.
  destruct (pc c) as [| | |[|t ts]| | | |ts|[|t ts]| | | |] eqn:Hpc; try done.
  - injection Hr as <-. destruct (poisoned s); [|destruct (is_owned _ _)]; by apply move_ok; rewrite ?Hpc.
  - destruct (drainer s) eqn:Hd; [done|]. injection Hr as <-.
    apply (move_ok i c); [|done|by rewrite Hpc|done]. apply (drainer_ok i c); [done|done|by left|]. unfold pc_ok. by rewrite Hpc.
  - injection Hr as <-. destruct (poisoned s); [by apply finish_ok; rewrite ?Hpc|by apply drain_top_ok].
  - injection Hr as <-. apply (move_ok i c); rewrite ?Hpc; [done..|]. destruct Hp as [Hd Hp]. split; [done|].
    intros u Hu. destruct (Hp u Hu) as [?%not_elem_of_nil|]; done.
  - destruct (running (task s t)) eqn:Ht; [done|]. injection Hr as <-. by apply (awaited_ok i c s t ts).
  - injection Hr as <-. destruct (poisoned s); [by apply finish_ok; rewrite ?Hpc|]. destruct Hp as [Hd Hp].
    apply (move_ok i c); rewrite ?Hpc; [|done..]. apply (drain_lists_ok i c); [done..| | | |].
    + unfold pc_ok. rewrite Hpc. split; [done|]. simpl. set_solver.
    + auto.
    + set_solver.
    + intros u Hl [|Hu]; [by left|]. by destruct (Hp u Hu).
  - injection Hr as <-. destruct (poisoned s); [by apply move_ok; rewrite ?Hpc|].
    apply (move_ok i c); [|done|by rewrite Hpc|done]. unfold close. by apply abort_ok, mark_closed_ok.
  - injection Hr as <-. destruct (poisoned s); [by apply move_ok; rewrite ?Hpc|]. by apply (shutdown_take_ok i c).
  - injection Hr as <-. pose proof (abort_ok None ts s Hok) as Hok'. apply (move_ok i c); [done|done|by rewrite Hpc|].
    destruct (calls_ok _ Hok' i c Hi) as [Hp' _]. unfold pc_ok in Hp'. rewrite Hpc in Hp'. split; [done|].
    intros t Ht. rewrite task_aborted, bool_decide_true by done. destruct (finish_on_shutdown (task s t)) eqn:Hf; simpl; [by left|by right].
  - injection Hr as <-. apply (move_ok i c); rewrite ?Hpc; [done..|]. by destruct Hp.
  - destruct (running (task s t)) eqn:Ht; [done|]. injection Hr as <-. by apply (awaited_ok i c s t ts).
Qed.

Lemma call_new_ok s c :
  registry_ok s -> pc c = DrainCheck \/ pc c = ShutdownClose -> registry_ok (set_calls (calls s ++ [c]) s).
Proof.
  intros Hok Hpc.
  apply (registry_intro (length (calls s)) s); simpl; [done|split; simpl; auto|apply (live_owned s Hok)|apply (ids_known s Hok)| | |apply (finite_kept s Hok)|apply (waiters_woken s Hok)].
  - intros j t Hj. rewrite length_app. pose proof (takers_known s Hok j t Hj). simpl. lia.
  - intros j d [Hj|[Hge Hj]]%lookup_app_Some.
    + left. split; [done|]. apply lookup_lt_Some in Hj. lia.
    + right. apply list_lookup_singleton_Some in Hj as [Hj <-]. split; [unfold pc_ok; by destruct Hpc as [-> | ->]|].
      intros _ t Ht. pose proof (takers_known s Hok j t Ht). lia.
Qed.

Lemma wait_ok s j w w' :
  registry_ok s -> waiters s !! j = Some w -> wait_step s w = Some w' -> registry_ok (set_waiters (<[j := w']> (waiters s)) s).
Proof.
  intros Hok Hj Hw.
  apply (shared_ok s); simpl; [done|split; simpl; auto|done|done|apply (live_owned s Hok)|apply (ids_known s Hok)|apply (finite_kept s Hok)|].
  intros k v Hc [[-> ->]|[Hne Hk]]%insert_cases; [|by apply (waiters_woken s Hok k)].
  unfold wait_step in Hw. rewrite Hc in Hw. repeat case_match; by simplify_eq.
Qed.

Lemma step_ok s e s' : registry_ok s -> step s e = Some s' -> registry_ok s'.
Proof.
  intros Hok Hs. destruct e as [finish|t|cur|cur|cur|i|i| |j]; simpl in Hs.
  - destruct (poisoned s); [done|]. by eapply spawn_ok.
  - apply bind_Some in Hs as (x & Hx & Hs). apply bind_Some in Hs as (x' & He & [= <-]). by eapply end_ok.
  - destruct (poisoned s); [done|]. injection Hs as <-. by apply abort_ok, mark_closed_ok.
  - injection Hs as <-. apply call_new_ok; auto.
  - injection Hs as <-. apply call_new_ok; auto.
  - apply bind_Some in Hs as (c & Hi & Hs). by eapply resume_ok.
  - apply bind_Some in Hs as (c & Hi & Hs). unfold cancel in Hs.
    destruct (pc c) as [| | |[|t ts]| | | |ts|[|t ts]| | | |] eqn:Hpc; simplify_eq; by apply finish_ok; rewrite ?Hpc.
  - injection Hs as <-. apply (shared_ok s); simpl; [done|split; simpl; auto|done|done|apply (live_owned s Hok)|apply (ids_known s Hok)|apply (finite_kept s Hok)|].
    intros j w Hc [Hj|[_ Hj]]%lookup_app_Some; [by apply (waiters_woken s Hok j)|]. by apply list_lookup_singleton_Some in Hj as [_ <-].
  - apply bind_Some in Hs as (w & Hw & Hs). apply bind_Some in Hs as (w' & Hst & [= <-]). by eapply wait_ok.
Qed.

Lemma reachable_ok s : reachable s -> registry_ok s.
Proof.
  induction 1 as [|s e s' _ IH Hs]; [|by eapply step_ok].
  split; simpl; try done; set_solver.
Qed.

(** ** Properties *)

(** A returned drain is final.  Whatever was spawned, closed, cancelled or
    shut down around it, once a call of [drain_finite] has returned, the registry
    refuses every further task, and every task it ever owned has ended, except
    those a concurrent [shutdown] took over; without such a call no task is left
    running. *)
Theorem delivery_drain_complete (s : DeliveryTasks) (i : nat) (c : Call) :
  reachable s -> calls s !! i = Some c -> pc c = DrainReturned ->
  (forall finish, step s (Spawn finish) = None) /\
  (forall t x, pool s !! t = Some x -> running x = true -> exists j, (j, t) ∈ taken s) /\
  (taken s = [] -> Forall (fun x => running x = false) (pool s)).
Proof.
  intros Hr Hi Hpc. pose proof (reachable_ok s Hr) as Hok. destruct (calls_ok s Hok i c Hi) as [Hp _].
  unfold pc_ok in Hp. rewrite Hpc in Hp. destruct Hp as [Hc Hp].
  assert (forall t x, pool s !! t = Some x -> running x = true -> exists j, (j, t) ∈ taken s) as Hrun.
  { intros t x Hx Hrx. apply Hp. unfold live, task. by rewrite Hx. }
  split_and!; [|done|].
  - intros finish. simpl. unfold spawn_owned. rewrite Hc. by destruct (poisoned s).
  - intros Ht. apply Forall_lookup. intros t x Hx. destruct (running x) eqn:Hrx; [|done].
    destruct (Hrun t x Hx Hrx) as [j Hj]. rewrite Ht in Hj. set_solver.
Qed.

Lemma registry_run_reachable s es : reachable s -> reachable (run s es).
Proof.
  revert s. induction es as [|e es IH]; intros s Hs; [done|]. simpl.
  destruct (step s e) as [s'|] eqn:He; simpl; apply IH; [by eapply reach_step|done].
Qed.

(** A parent registers a child while it is being drained. *)
Definition drained_family : list Event :=
  [Spawn true; CallDrain None; Resume 0; Resume 0; Resume 0; Spawn true; TaskEnds 0; TaskEnds 0;
   Resume 0; Resume 0; Resume 0; Resume 0; TaskEnds 1; Resume 0; Resume 0; Resume 0; Resume 0].

Lemma delivery_drain_complete_witness :
  let s := run empty drained_family in
  length (pool s) = 2%nat /\ Forall (fun x => running x = false) (pool s).
Proof.
  split; [reflexivity|].
  apply (delivery_drain_complete (run empty drained_family) 0 (mkCall None DrainReturned));
    [apply registry_run_reachable; constructor|vm_compute; reflexivity|reflexivity|vm_compute; reflexivity].
Defined.

(** Shutdown is orderly.  No task that was registered to finish is ever
    aborted.  A [shutdown] that waits has closed the registry and waits only for
    tasks that finish by themselves or have been aborted; once it returned, every
    task still running is the one it was called from, or is owned by a drain or by
    another shutdown.  And once the registry is closed, no waiter of [closed] is
    parked without its wake-up. *)
Theorem delivery_shutdown_orderly (s : DeliveryTasks) :
  reachable s ->
  (forall t x, pool s !! t = Some x -> finish_on_shutdown x = true -> aborted x = false) /\
  (forall i c ts t, calls s !! i = Some c -> pc c = ShutdownAwait ts -> t ∈ ts ->
     closed s = true /\ (finish_on_shutdown (task s t) = true \/ aborted (task s t) = true)) /\
  (forall i c t x, calls s !! i = Some c -> pc c = ShutdownReturned -> pool s !! t = Some x -> running x = true ->
     Some t = current c \/ t ∈ draining s \/ exists j, j <> i /\ (j, t) ∈ taken s) /\
  (closed s = true -> WaitParked false ∉ waiters s).
Proof.
  intros Hr. pose proof (reachable_ok s Hr) as Hok.
  assert (forall t x, pool s !! t = Some x -> task s t = x) as Htask by (intros t x Hx; unfold task; by rewrite Hx).
  split_and!.
  - intros t x Hx Hf. destruct (aborted x) eqn:Ha; [|done]. rewrite <- (Htask t x Hx) in *.
    by rewrite (finite_kept s Hok t) in Hf.
  - intros i c ts t Hi Hpc Ht. destruct (calls_ok s Hok i c Hi) as [Hp _]. unfold pc_ok in Hp. rewrite Hpc in Hp.
    destruct Hp as [(Hc & _) Ha]. auto.
  - intros i c t x Hi Hpc Hx Hrx. destruct (calls_ok s Hok i c Hi) as [Hp _]. unfold pc_ok in Hp. rewrite Hpc in Hp.
    destruct Hp as (_ & Ht & Hw). assert (live s t) as Hl by (unfold live; by rewrite (Htask t x Hx)).
    destruct (live_owned s Hok t Hl) as [Hin|[Hin|[j Hin]]]; [left; by apply Ht|by right; left|].
    right; right. exists j. split; [|done]. intros ->. destruct (Hw t Hin) as [?%not_elem_of_nil|]; done.
  - intros Hc [j Hj]%list_elem_of_lookup. by apply (waiters_woken s Hok j (WaitParked false)).
Qed.

(** A shutdown aborts the scheduler, waits for the finite task, and returns. *)
Definition shut_down : list Event :=
  [Spawn false; Spawn true; CallClosed; Wait 0; CallShutdown None; Resume 0; Resume 0; Resume 0; Wait 0].

Lemma delivery_shutdown_orderly_witness :
  let s := run empty shut_down in
  map aborted (pool s) = [true; false] /\ closed s = true /\ WaitParked false ∉ waiters s.
Proof.
  split; [reflexivity|]. split; [reflexivity|].
  apply (delivery_shutdown_orderly (run empty shut_down)); [apply registry_run_reachable; constructor|reflexivity].
Defined.
