(* ===== verification/RateLimit.v ===== *)
(** * Forge rate-limit gate ([crates/intent-services/src/rate_limit.rs])

    The pause arithmetic, the shared pause gate of the background sweeps and its
    metered quota probe.  Durations and instants are nanoseconds; every clock
    reading of the code is an argument. *)
From stdpp Require Import prelude strings.
From S2P Require Import Prelude.

Definition NANOS : Z := 1000000000.
Definition DURATION_MAX : Z := u64_max * NANOS + 999999999.

Definition from_secs (s : Z) : Z := s * NANOS.

Definition RATE_LIMIT_FALLBACK_PAUSE : Z := from_secs (5 * 60).
Definition RATE_LIMIT_RESET_MARGIN : Z := from_secs 30.
Definition RATE_LIMIT_MIN_PAUSE : Z := from_secs 60.
Definition RATE_LIMIT_MAX_PAUSE : Z := from_secs (2 * 60 * 60).
Definition RATE_LIMIT_LIFT_MIN_REMAINING : Z := 500.

Definition clamp (x lo hi : Z) : Z := if x <? lo then lo else if hi <? x then hi else x.

Definition pause_duration (reset_unix : option Z) (now_unix : Z) : Z :=
  let base := match reset_unix with
              | Some reset => Z.min (from_secs (saturating_sub reset now_unix) + RATE_LIMIT_RESET_MARGIN) DURATION_MAX
              | None => RATE_LIMIT_FALLBACK_PAUSE
              end in
  clamp base RATE_LIMIT_MIN_PAUSE RATE_LIMIT_MAX_PAUSE.

Definition lift_floor (limit : option Z) : Z :=
  Z.max RATE_LIMIT_LIFT_MIN_REMAINING (default 0 limit / 10).

Definition quota_recovered (remaining limit : option Z) : bool :=
  match remaining with Some r => lift_floor limit <=? r | None => false end.

Record RateLimitStatus := mkStatus {
  s_remaining : option Z;
  s_limit : option Z;
  s_reset_at : option Z }.

(** The part of [pause_sweeps_for_rate_limit] that turns the probe's answer into a
    pause and whether it may be lifted early. *)
Definition pause_decision (status : option RateLimitStatus) (now_unix : Z) : Z * bool :=
  let allow_early_lift :=
    negb (match status with Some s => quota_recovered (s_remaining s) (s_limit s) | None => false end) in
  let reset_unix := if allow_early_lift then s ← status; s_reset_at s else None in
  (pause_duration reset_unix now_unix, allow_early_lift).

(** ** The gate *)

Record PauseDeadline := mkDeadline {
  at_ : Z;
  wall : Z;
  allow_early_lift : bool }.

Definition active_deadline (slot : option PauseDeadline) (now : Z) : option PauseDeadline :=
  d ← slot; if now <? at_ d then Some d else None.

Definition paused_remaining (slot : option PauseDeadline) (now now' : Z) : option Z :=
  d ← active_deadline slot now;
  let remaining := Z.max 0 (at_ d - now') in
  if 0 <? remaining then Some remaining else None.

Definition paused_until (slot : option PauseDeadline) (now : Z) : option Z :=
  wall <$> active_deadline slot now.

Definition allows_early_lift (slot : option PauseDeadline) (now : Z) : bool :=
  match active_deadline slot now with Some d => allow_early_lift d | None => false end.

Definition pause_for (slot : option PauseDeadline) (now wall_now duration : Z) (allow : bool) :
    bool * option PauseDeadline :=
  let deadline := mkDeadline (now + duration) (wall_now + duration) allow in
  match slot with
  | Some existing =>
      if now <? at_ existing then
        let merged := if at_ existing <? at_ deadline then deadline else existing in
        (false, Some (mkDeadline (at_ merged) (wall merged)
          (allow_early_lift merged && (allow_early_lift existing && allow))))
      else (true, Some deadline)
  | None => (true, Some deadline)
  end.

Definition lift (slot : option PauseDeadline) (now : Z) : bool * option PauseDeadline :=
  (match slot with Some d => now <? at_ d | None => false end, None).

(** A use of the gate. *)
Inductive GateOp :=
| Pause (now wall_now duration : Z) (allow : bool)
| Lift (now : Z).

Definition gate_op (slot : option PauseDeadline) (o : GateOp) : bool * option PauseDeadline :=
  match o with
  | Pause now w d allow => pause_for slot now w d allow
  | Lift now => lift slot now
  end.

Fixpoint gate_run (slot : option PauseDeadline) (os : list GateOp) : option PauseDeadline :=
  match os with [] => slot | o :: os' => gate_run (gate_op slot o).2 os' end.

(** ** The quota probe *)

Record QuotaProbe := mkProbe {
  q_at : Z;
  q_provider : string;
  q_status : option RateLimitStatus }.

(** The probe slot; [in_flight] names the provider being asked while the slot is locked. *)
Record Prober := mkProber {
  quota_probe : option QuotaProbe;
  in_flight : option string }.

Inductive ProbeEvent :=
| ProbeCall (now : Z) (provider : string)
| ProbeDone (now : Z) (status : option RateLimitStatus)
| ProbeCancelled.

Inductive ProbeOut :=
| Reused (status : option RateLimitStatus)
| Asked
| Answered (status : option RateLimitStatus)
| NoProbe.

(** [probe_status], with the forge's [rate_limit_probe_interval]; a call waits for the
    lock while another one is in flight. *)
Definition probe_step (interval : string -> Z) (p : Prober) (e : ProbeEvent) : ProbeOut * Prober :=
  match e with
  | ProbeCall now provider =>
      match in_flight p with
      | Some _ => (NoProbe, p)
      | None =>
          let ask := (Asked, mkProber (Some (mkProbe now provider None)) (Some provider)) in
          match quota_probe p with
          | Some q =>
              if bool_decide (q_provider q = provider) && (Z.max 0 (now - q_at q) <? interval provider)
              then (Reused (q_status q), p) else ask
          | None => ask
          end
      end
  | ProbeDone now status =>
      match in_flight p with
      | Some provider => (Answered status, mkProber (Some (mkProbe now provider status)) None)
      | None => (NoProbe, p)
      end
  | ProbeCancelled =>
      match in_flight p with
      | Some _ => (NoProbe, mkProber (quota_probe p) None)
      | None => (NoProbe, p)
      end
  end.

(** The metered requests made, as (provider, start), oldest first. *)
Fixpoint asked (interval : string -> Z) (p : Prober) (es : list ProbeEvent) : list (string * Z) :=
  match es with
  | [] => []
  | e :: es' =>
      let '(out, p') := probe_step interval p e in
      match e, out with
      | ProbeCall now provider, Asked => (provider, now) :: asked interval p' es'
      | _, _ => asked interval p' es'
      end
  end.

(** ** The pauses in force *)

Definition op_time (o : GateOp) : Z := match o with Pause now _ _ _ => now | Lift now => now end.

(** The deadlines requested since the last lift, newest first. *)
Fixpoint requested (os : list GateOp) (acc : list (Z * bool)) : list (Z * bool) :=
  match os with
  | [] => acc
  | Pause now _ d allow :: os' => requested os' ((now + d, allow) :: acc)
  | Lift _ :: os' => requested os' []
  end.

(** Times of the operations do not go back. *)
Fixpoint ordered (from : Z) (os : list GateOp) : Prop :=
  match os with
  | [] => True
  | o :: os' => from <= op_time o /\ ordered (op_time o) os'
  end.

Definition last_time (from : Z) (os : list GateOp) : Z := foldl (fun _ o => op_time o) from os.

(** [slot] at time [now] says what the requests [reqs] ask for. *)
Definition gate_spec (slot : option PauseDeadline) (reqs : list (Z * bool)) (now : Z) : Prop :=
  forall t, now <= t ->
    match active_deadline slot t with
    | Some d =>
        (exists a, (at_ d, a) ∈ reqs) /\ (forall r, r ∈ reqs -> r.1 <= at_ d) /\
        (allow_early_lift d = true -> forall r, r ∈ reqs -> t < r.1 -> r.2 = true) /\
        ((forall r, r ∈ reqs -> r.2 = true) -> allow_early_lift d = true)
    | None => forall r, r ∈ reqs -> r.1 <= t
    end.

Lemma active_some slot t d : active_deadline slot t = Some d <-> slot = Some d /\ t < at_ d.
Proof.
  unfold active_deadline. destruct slot as [d'|]; simpl; [|naive_solver].
  destruct (t <? at_ d') eqn:E; case_tests; split; [intros [= ->]; auto|intros [[= ->] _]; done|done|intros [[= ->] ?]; lia].
Qed.

Lemma active_none slot t : active_deadline slot t = None <-> forall d, slot = Some d -> at_ d <= t.
Proof.
  unfold active_deadline. destruct slot as [d'|]; simpl; [|naive_solver].
  destruct (t <? at_ d') eqn:E; case_tests; split; try done.
  - intros H. specialize (H d' eq_refl). lia.
  - intros _ d [= <-]. lia.
Qed.

Lemma active_later slot t t' d : t' <= t -> active_deadline slot t = Some d -> active_deadline slot t' = Some d.
Proof. intros Ht [-> H]%active_some. apply active_some. split; [done|lia]. Qed.

Lemma gate_spec_later slot reqs now now' : now <= now' -> gate_spec slot reqs now -> gate_spec slot reqs now'.
Proof. intros Hn H t Ht. apply H. lia. Qed.

(** ** One operation keeps the gate to its specification *)

Lemma spec_cons (D : PauseDeadline) reqs now req :
  (exists a, (at_ D, a) ∈ req :: reqs) -> (forall r, r ∈ req :: reqs -> r.1 <= at_ D) ->
  (allow_early_lift D = true -> req.2 = true /\ forall r, r ∈ reqs -> now < r.1 -> r.2 = true) ->
  ((forall r, r ∈ req :: reqs -> r.2 = true) -> allow_early_lift D = true) ->
  gate_spec (Some D) (req :: reqs) now.
Proof.
  intros Hin Hmax Hall Hex t Ht. unfold active_deadline. simpl.
  destruct (t <? at_ D) eqn:Et; case_tests.
  - split_and!; [done|done| |done]. intros Ha r Hr Htr. destruct (Hall Ha) as [H1 H2].
    apply elem_of_cons in Hr as [->|Hr]; [done|]. apply H2; [done|lia].
  - intros r Hr. specialize (Hmax r Hr). lia.
Qed.

Lemma pause_for_active e now w d allow :
  now < at_ e -> exists D, pause_for (Some e) now w d allow = (false, Some D) /\
    at_ D = Z.max (at_ e) (now + d) /\ allow_early_lift D = allow_early_lift e && allow.
Proof.
  intros He. unfold pause_for. rewrite (proj2 (Z.ltb_lt _ _) He). simpl. eexists. split; [done|]. simpl.
  destruct (at_ e <? now + d) eqn:E; case_tests; simpl; (split; [lia|]); by destruct (allow_early_lift e), allow.
Qed.

Lemma pause_for_open slot now w d allow :
  active_deadline slot now = None ->
  pause_for slot now w d allow = (true, Some (mkDeadline (now + d) (w + d) allow)).
Proof.
  intros Ha. unfold pause_for. destruct slot as [e|]; [|done].
  pose proof (proj1 (active_none _ _) Ha e eq_refl). by rewrite (proj2 (Z.ltb_ge now (at_ e))) by lia.
Qed.

Lemma pause_spec slot reqs now w d allow :
  0 <= d -> gate_spec slot reqs now ->
  gate_spec (pause_for slot now w d allow).2 ((now + d, allow) :: reqs) now /\
  ((pause_for slot now w d allow).1 = true <-> forall r, r ∈ reqs -> r.1 <= now).
Proof.
  intros Hd Hs. pose proof (Hs now (Z.le_refl now)) as Hnow.
  destruct (active_deadline slot now) as [e|] eqn:Ea.
  - apply active_some in Ea as [-> He]. destruct Hnow as ([a Hin] & Hmax & Hall & Hex).
    destruct (pause_for_active e now w d allow He) as (D & -> & HD & HaD). simpl. split.
    + apply spec_cons.
      * destruct (Z.max_spec (at_ e) (now + d)) as [[_ Hm]|[_ Hm]]; rewrite HD, Hm; [exists allow; by left|exists a; by right].
      * intros r [-> |Hr]%elem_of_cons; simpl; [lia|]. specialize (Hmax r Hr). lia.
      * rewrite HaD. intros [Hae ->]%andb_true_iff. split; [done|]. by apply Hall.
      * intros Hr. rewrite HaD. apply andb_true_iff. split; [|by apply (Hr (now + d, allow)); left].
        apply Hex. intros r ?. apply Hr. by right.
    + split; [done|]. intros H. specialize (H _ Hin). simpl in H. lia.
  - rewrite (pause_for_open slot now w d allow Ea). simpl. split; [|done]. apply spec_cons; simpl.
    + exists allow. by left.
    + intros r [-> |Hr]%elem_of_cons; simpl; [lia|]. specialize (Hnow r Hr). lia.
    + intros ->. split; [done|]. intros r Hr Hlt. specialize (Hnow r Hr). lia.
    + intros Hr. by apply (Hr (now + d, allow)); left.
Qed.

Definition nonneg_op (o : GateOp) : Prop := match o with Pause _ _ d _ => 0 <= d | Lift _ => True end.

Lemma gate_run_spec os : forall slot reqs from,
  gate_spec slot reqs from -> ordered from os -> Forall nonneg_op os ->
  gate_spec (gate_run slot os) (requested os reqs) (last_time from os).
Proof.
  induction os as [|o os IH]; intros slot reqs from Hs Ho Hd; [done|].
  destruct Ho as [Hle Ho]. apply Forall_cons in Hd as [Hd0 Hd].
  pose proof (gate_spec_later _ _ _ _ Hle Hs) as Hs'. destruct o as [now w d allow|now]; simpl in *.
  - apply IH; [by apply pause_spec|done|done].
  - apply IH; [|done|done]. intros t Ht. simpl. intros r Hr. by apply not_elem_of_nil in Hr.
Qed.

Lemma gate_spec_init from : gate_spec None [] from.
Proof. intros t Ht r Hr. by apply not_elem_of_nil in Hr. Qed.

Lemma in_force slot reqs now t :
  gate_spec slot reqs now -> now <= t -> is_Some (active_deadline slot t) <-> exists r, r ∈ reqs /\ t < r.1.
Proof.
  intros Hs Ht. specialize (Hs t Ht). destruct (active_deadline slot t) as [d|] eqn:Ea.
  - split; [|done]. intros _. apply active_some in Ea as [_ Hlt]. destruct Hs as ([a Ha] & _). by exists (at_ d, a).
  - split; [by intros []|]. intros (r & Hr & Hlt). specialize (Hs r Hr). lia.
Qed.

(** ** The probe *)

Fixpoint sorted_times (from : Z) (es : list ProbeEvent) : Prop :=
  match es with
  | [] => True
  | (ProbeCall now _ | ProbeDone now _) :: es' => from <= now /\ sorted_times now es'
  | ProbeCancelled :: es' => sorted_times from es'
  end.

(** Two requests in a row to one provider are an interval apart. *)
Fixpoint spaced (interval : string -> Z) (prev : option (string * Z)) (l : list (string * Z)) : Prop :=
  match l with
  | [] => True
  | (p, t) :: l' =>
      match prev with Some (p0, t0) => p0 = p -> t0 + interval p <= t | None => True end /\
      spaced interval (Some (p, t)) l'
  end.

(** The slot remembers the last request. *)
Definition remembers (p : Prober) (prev : option (string * Z)) (from : Z) : Prop :=
  match prev with
  | Some (pr, t) => exists q, quota_probe p = Some q /\ q_provider q = pr /\ t <= q_at q <= from
  | None => quota_probe p = None
  end /\
  match in_flight p with
  | Some pr => match prev with Some (pr', _) => pr' = pr | None => False end
  | None => True
  end.

Lemma remembers_later p prev from now : from <= now -> remembers p prev from -> remembers p prev now.
Proof.
  intros Hle [Hq Hf]. split; [|done]. destruct prev as [[pr0 t0]|]; [|done].
  destruct Hq as (q & ? & ? & ?). exists q. split_and!; [done|done|lia|lia].
Qed.

Lemma remembers_asked now pr : remembers (mkProber (Some (mkProbe now pr None)) (Some pr)) (Some (pr, now)) now.
Proof. split; [|done]. eexists. split; [done|]. simpl. split_and!; [done|lia|lia]. Qed.

Lemma asked_spaced interval es : forall p prev from,
  (forall pr, 0 < interval pr) -> remembers p prev from -> sorted_times from es ->
  spaced interval prev (asked interval p es).
Proof.
  induction es as [|e es IH]; intros p prev from Hi Hr Hs; [done|].
  destruct e as [now pr|now st|]; cbn [asked probe_step] in *.
  - destruct Hs as [Hle Hs]. pose proof (IH p prev now Hi (remembers_later _ _ _ _ Hle Hr) Hs) as Hkeep.
    pose proof (IH _ _ now Hi (remembers_asked now pr) Hs) as Hask.
    destruct (in_flight p) as [x|]; [done|]. destruct (quota_probe p) as [q|] eqn:Eq; [destruct (bool_decide _ && _) eqn:Et|].
    + done.
    + simpl. split; [|done]. destruct prev as [[p0 t0]|]; [|done]. intros ->.
      destruct Hr as [(q' & Hq' & Hpr & Hat) _]. rewrite Eq in Hq'. injection Hq' as <-. specialize (Hi pr).
      rewrite bool_decide_eq_true_2 in Et by done. simpl in Et. case_tests. lia.
    + simpl. split; [|done]. destruct prev as [[p0 t0]|]; [|done]. destruct Hr as [(q' & Hq' & _) _]. congruence.
  - destruct Hs as [Hle Hs]. destruct (in_flight p) as [x|] eqn:Ef; simpl.
    + eapply (IH _ prev now); [done| |done]. destruct Hr as [Hq Hf]. rewrite Ef in Hf. destruct prev as [[pr0 t0]|]; [|done].
      subst. destruct Hq as (q & ? & ? & ?). split; [|done]. eexists. split; [done|]. simpl. split_and!; [done|lia|lia].
    + eapply (IH p prev now); [done|by eapply remembers_later|done].
  - destruct (in_flight p) as [x|] eqn:Ef; simpl; eapply (IH _ prev from); try done.
    destruct Hr as [Hq Hf]. by split.
Qed.

Lemma clamp_bounds x lo hi : lo <= hi -> lo <= clamp x lo hi <= hi.
Proof. intros H. unfold clamp. destruct (x <? lo) eqn:E1; [lia|]. destruct (hi <? x) eqn:E2; case_tests; lia. Qed.

(** * Properties *)

(** [C31] The gate is the union of the pauses requested since the last lift: it is closed
    at a time exactly when one of them reaches beyond it, until the furthest of them; it
    may be lifted early only if none still in force forbids it, and may if none did.  A
    pause reports a new window exactly when none was in force, and a lift reports one
    exactly when one was. *)
Theorem rate_gate_refines (t0 : Z) (os : list GateOp) (n w d : Z) (allow : bool) :
  ordered t0 os -> Forall nonneg_op os -> last_time t0 os <= n ->
  let slot := gate_run None os in
  gate_spec slot (requested os []) (last_time t0 os) /\
  (is_Some (active_deadline slot n) <-> exists r, r ∈ requested os [] /\ n < r.1) /\
  ((pause_for slot n w d allow).1 = false <-> exists r, r ∈ requested os [] /\ n < r.1) /\
  ((lift slot n).1 = true <-> exists r, r ∈ requested os [] /\ n < r.1).
Proof.
  intros Ho Hd Hn slot. pose proof (gate_run_spec os None [] t0 (gate_spec_init t0) Ho Hd) as Hs. fold slot in Hs.
  pose proof (in_force slot _ _ n Hs Hn) as Hf. split_and!; [done|done| |]; rewrite <- Hf.
  - destruct (active_deadline slot n) as [e|] eqn:Ea.
    + apply active_some in Ea as [-> He]. destruct (pause_for_active e n w d allow He) as (D & -> & _). by split.
    + rewrite (pause_for_open slot n w d allow Ea). split; [done|by intros []].
  - unfold lift, active_deadline. simpl. destruct slot as [e|]; simpl; [|split; [done|by intros []]].
    destruct (n <? at_ e); split; [done|done|done|by intros []].
Qed.

Lemma rate_gate_refines_witness :
  (pause_for (gate_run None [Pause 10 0 60 true; Pause 20 0 100 false]) 50 0 5 true).1 = false.
Proof.
  refine (proj2 (proj1 (proj2 (proj2 (rate_gate_refines 0 [Pause 10 0 60 true; Pause 20 0 100 false] 50 0 5 true _ _ _)))) _).
  - simpl. lia.
  - repeat constructor; simpl; lia.
  - simpl. lia.
  - exists (120, false). split; [by left|simpl; lia].
Defined.

(** Every pause lies between one minute and two hours, whatever the forge reports; it
    reaches 30 s past the reported reset when that fits.  Counters that already look
    healthy give the five-minute fallback and no early lift. *)
Theorem pause_decision_bounds (status : option RateLimitStatus) (now_unix : Z) :
  let '(pause, allow) := pause_decision status now_unix in
  RATE_LIMIT_MIN_PAUSE <= pause <= RATE_LIMIT_MAX_PAUSE /\
  (allow = false -> pause = RATE_LIMIT_FALLBACK_PAUSE /\
     exists s r, status = Some s /\ s_remaining s = Some r /\ lift_floor (s_limit s) <= r) /\
  (allow = true -> forall s reset, status = Some s -> s_reset_at s = Some reset ->
     now_unix + 30 <= reset -> reset - now_unix <= 2 * 60 * 60 - 30 -> pause = from_secs (reset - now_unix + 30)).
Proof.
  unfold pause_decision.
  assert (forall r, RATE_LIMIT_MIN_PAUSE <= pause_duration r now_unix <= RATE_LIMIT_MAX_PAUSE) as Hb.
  { intros r. apply clamp_bounds. done. }
  destruct status as [s|]; simpl.
  - destruct (quota_recovered (s_remaining s) (s_limit s)) eqn:Eq; simpl; (split; [apply Hb|]); split; try done.
    + intros _. split; [reflexivity|]. unfold quota_recovered in Eq. destruct (s_remaining s) as [r|] eqn:Er; [|done].
      case_tests. eauto.
    + intros _ s' reset [= <-] -> H1 H2. unfold pause_duration, clamp, saturating_sub.
      unfold RATE_LIMIT_MIN_PAUSE, RATE_LIMIT_MAX_PAUSE, RATE_LIMIT_RESET_MARGIN, DURATION_MAX, from_secs, NANOS, u64_max in *.
      rewrite (Z.max_r 0), Z.min_l by lia. repeat split_match; case_tests; lia.
  - split; [apply Hb|]. split; [done|]. intros _ s reset. done.
Qed.

(** The quota probe is metered: two requests in a row to one provider start at least
    that provider's interval apart, across every caller, also when a request failed or
    its caller was cancelled. *)
Theorem quota_probe_metered (interval : string -> Z) (from : Z) (es : list ProbeEvent) :
  (forall pr, 0 < interval pr) -> sorted_times from es ->
  spaced interval None (asked interval (mkProber None None) es).
Proof. intros Hi Hs. by eapply asked_spaced. Qed.

Lemma quota_probe_metered_witness :
  spaced (fun _ => 60) None
    (asked (fun _ => 60) (mkProber None None)
      [ProbeCall 0 "github"%string; ProbeCancelled; ProbeCall 30 "github"%string; ProbeCall 61 "github"%string]) /\
  asked (fun _ => 60) (mkProber None None)
      [ProbeCall 0 "github"%string; ProbeCancelled; ProbeCall 30 "github"%string; ProbeCall 61 "github"%string] =
  [("github"%string, 0); ("github"%string, 61)].
Proof.
  split; [|vm_compute; reflexivity]. apply (quota_probe_metered (fun _ => 60) 0); [intros; lia|simpl; lia].
Defined.
