(* ===== verification/Placement.v ===== *)
(** * Agent placement ([crates/intent-core/src/placement.rs])

    The placement request: its closed wire object, its validity rules and what it
    asks for; platforms, the discovery data made of them, and the
    [placement-unavailable] refusal with its message and error data. *)
From stdpp Require Import prelude strings sorting.
From S2P Require Import Prelude.
From S2P Require Import Json.

Local Open Scope string_scope.
Local Open Scope Z_scope.

(** Text between double quotes. *)
Definition dquoted (s : string) : string :=
  let q := String (Ascii.ascii_of_N 34) EmptyString in q ++ s ++ q.

(** ** The request *)

Definition MAX_NODE_ID_BYTES : Z := 128.
Definition MAX_CLOUD_MACHINE_ID_BYTES : Z := 64.

Inductive NodeOs := Linux | Macos.
Inductive NodeArch := X86_64 | Aarch64.
Inductive PlacementTarget := Local_ | Remote | E2b.
Inductive PlacementCheckout := Shared | Worktree | Isolated.

#[global] Instance NodeOs_eq_dec : EqDecision NodeOs.
Proof. solve_decision. Defined.
#[global] Instance NodeArch_eq_dec : EqDecision NodeArch.
Proof. solve_decision. Defined.
#[global] Instance PlacementTarget_eq_dec : EqDecision PlacementTarget.
Proof. solve_decision. Defined.
#[global] Instance PlacementCheckout_eq_dec : EqDecision PlacementCheckout.
Proof. solve_decision. Defined.

Record AgentPlacement := mkPlacement {
  target : option PlacementTarget;
  checkout : option PlacementCheckout;
  os : option NodeOs;
  arch : option NodeArch;
  node_id : option string;
  exclusive : option bool;
  cloud_machine_id : option string }.

#[global] Instance AgentPlacement_eq_dec : EqDecision AgentPlacement.
Proof. solve_decision. Defined.

Definition default_placement : AgentPlacement := mkPlacement None None None None None None None.

Definition effective_checkout (p : AgentPlacement) : PlacementCheckout :=
  default Isolated (checkout p).

(** [Option::is_some_and] and [Option::is_none_or]. *)
Definition is_some_and {A} (o : option A) (f : A -> bool) : bool :=
  match o with Some x => f x | None => false end.

Definition is_none_or {A} (o : option A) (f : A -> bool) : bool :=
  match o with Some x => f x | None => true end.

Definition validate (p : AgentPlacement) : Result unit string :=
  if is_some_and (node_id p) (fun id => (slen id =? 0) || (MAX_NODE_ID_BYTES <? slen id)) then
    Err "placement.nodeId must contain 1-128 UTF-8 bytes"
  else if is_some_and (cloud_machine_id p) (fun _ => negb (bool_decide (target p = Some E2b))) then
    Err ("placement.cloudMachineId needs placement.target " ++ dquoted "e2b")
  else if is_some_and (cloud_machine_id p) (fun entry => MAX_CLOUD_MACHINE_ID_BYTES <? slen entry) then
    Err "placement.cloudMachineId must contain at most 64 UTF-8 bytes"
  else if bool_decide (target p = Some Remote) && negb (bool_decide (effective_checkout p = Isolated)) then
    Err "remote placement requires isolated checkout"
  else if bool_decide (target p = Some E2b)
          && (bool_decide (is_Some (os p)) || bool_decide (is_Some (arch p)) || bool_decide (is_Some (node_id p))) then
    Err ("placement.target " ++ dquoted "e2b" ++ " takes no os, arch or nodeId")
  else if bool_decide (target p = Some E2b) && bool_decide (is_Some (exclusive p)) then
    Err ("placement.target " ++ dquoted "e2b" ++ " takes no exclusive")
  else if bool_decide (target p = Some E2b) && negb (bool_decide (effective_checkout p = Isolated)) then
    Err "remote placement requires isolated checkout"
  else if bool_decide (exclusive p = Some true)
          && (bool_decide (target p = Some Local_) || negb (bool_decide (effective_checkout p = Isolated))) then
    Err "exclusive placement requires remote isolated checkout"
  else Ok tt.

Definition is_e2b (p : AgentPlacement) : bool := bool_decide (target p = Some E2b).

(** [Error::InvalidParams] with its text. *)
Definition runs_on_backend (p : AgentPlacement) : Result bool string :=
  if bool_decide (target p <> Some Local_) then Ok false
  else if bool_decide (p <> mkPlacement (Some Local_) None None None None None None) then
    Err ("placement.target " ++ dquoted "local" ++ " runs the agent on the backend; omit os, arch, nodeId, checkout and exclusive")
  else Ok true.

Definition check_remote_supported (p : AgentPlacement) : Result unit string :=
  match validate p with
  | Err reason => Err reason
  | Ok _ =>
      if bool_decide (target p = Some Local_) then
        Err ("remote launch requires placement.target " ++ dquoted "remote" ++ ", not " ++ dquoted "local")
      else if negb (bool_decide (effective_checkout p = Isolated)) then
        Err "remote placement requires isolated checkout"
      else if bool_decide (exclusive p = Some true) then
        Err "placement.exclusive is not supported yet; omit it or set it to false"
      else Ok tt
  end.

(** ** The wire object *)

Definition os_name (o : NodeOs) : string :=
  match o with Linux => "linux" | Macos => "macos" end.

Definition arch_name (a : NodeArch) : string :=
  match a with X86_64 => "x86_64" | Aarch64 => "aarch64" end.

Definition target_name (t : PlacementTarget) : string :=
  match t with Local_ => "local" | Remote => "remote" | E2b => "e2b" end.

Definition checkout_name (c : PlacementCheckout) : string :=
  match c with Shared => "shared" | Worktree => "worktree" | Isolated => "isolated" end.

(** The derived reader of an enum of unit variants takes the variant's name, or
    an object with the name as its only member and null as its value. *)
Definition read_variant {A} (name : A -> string) (variants : list A) (v : json) : option A :=
  let named s := List.find (fun x => bool_decide (name x = s)) variants in
  match v with
  | JString s => named s
  | JObject [(s, JNull)] => named s
  | _ => None
  end.

Inductive WireError :=
| NotAnObject
| UnknownField (k : string)
| DuplicateField (k : string)
| InvalidMember (k : string)
| InvalidPlacement (reason : string).

(** One member of the object: [present] reads the member's own type, so a null
    is refused like any other value of a wrong type. *)
Definition set_once {A} (k : string) (old : option A) (read : option A)
    (set : option A -> AgentPlacement) : Result AgentPlacement WireError :=
  match old with
  | Some _ => Err (DuplicateField k)
  | None => match read with Some x => Ok (set (Some x)) | None => Err (InvalidMember k) end
  end.

Definition read_member (p : AgentPlacement) (k : string) (v : json) : Result AgentPlacement WireError :=
  let 'mkPlacement t c o a n e m := p in
  if bool_decide (k = "target") then
    set_once k t (read_variant target_name [Local_; Remote; E2b] v) (fun x => mkPlacement x c o a n e m)
  else if bool_decide (k = "checkout") then
    set_once k c (read_variant checkout_name [Shared; Worktree; Isolated] v) (fun x => mkPlacement t x o a n e m)
  else if bool_decide (k = "os") then
    set_once k o (read_variant os_name [Linux; Macos] v) (fun x => mkPlacement t c x a n e m)
  else if bool_decide (k = "arch") then
    set_once k a (read_variant arch_name [X86_64; Aarch64] v) (fun x => mkPlacement t c o x n e m)
  else if bool_decide (k = "nodeId") then
    set_once k n (as_str v) (fun x => mkPlacement t c o a x e m)
  else if bool_decide (k = "exclusive") then
    set_once k e (as_bool v) (fun x => mkPlacement t c o a n x m)
  else if bool_decide (k = "cloudMachineId") then
    set_once k m (as_str v) (fun x => mkPlacement t c o a n e x)
  else Err (UnknownField k).

Fixpoint read_members (p : AgentPlacement) (members : list (string * json)) :
    Result AgentPlacement WireError :=
  match members with
  | [] => Ok p
  | (k, v) :: rest =>
      match read_member p k v with
      | Ok p' => read_members p' rest
      | Err e => Err e
      end
  end.

Definition try_from (wire : AgentPlacement) : Result AgentPlacement WireError :=
  match validate wire with
  | Ok _ => Ok wire
  | Err reason => Err (InvalidPlacement reason)
  end.

(** [AgentPlacement]'s [Deserialize]. *)
Definition deserialize (v : json) : Result AgentPlacement WireError :=
  match v with
  | JObject members =>
      match read_members default_placement members with
      | Ok wire => try_from wire
      | Err e => Err e
      end
  | _ => Err NotAnObject
  end.

Definition member {A} (k : string) (write : A -> json) (o : option A) : list (string * json) :=
  match o with Some x => [(k, write x)] | None => [] end.

(** [AgentPlacement]'s [Serialize]. *)
Definition serialize (p : AgentPlacement) : json :=
  JObject ((member "target" (fun t => JString (target_name t)) (target p)
    ++ member "checkout" (fun c => JString (checkout_name c)) (checkout p)
    ++ member "os" (fun o => JString (os_name o)) (os p)
    ++ member "arch" (fun a => JString (arch_name a)) (arch p)
    ++ member "nodeId" JString (node_id p)
    ++ member "exclusive" JBool (exclusive p)
    ++ member "cloudMachineId" JString (cloud_machine_id p))%list).

(** ** Platforms and discovery *)

Record AgentPlatform := mkPlatform {
  p_os : NodeOs;
  p_arch : NodeArch }.

#[global] Instance AgentPlatform_eq_dec : EqDecision AgentPlatform.
Proof. solve_decision. Defined.

Definition matches_platform (p : AgentPlacement) (platform : AgentPlatform) : bool :=
  is_none_or (os p) (fun o => bool_decide (o = p_os platform))
  && is_none_or (arch p) (fun a => bool_decide (a = p_arch platform)).

(** [AgentPlatform::of]. *)
Definition platform_of (os_ arch_ : string) : option AgentPlatform :=
  o ← List.find (fun o => bool_decide (os_name o = os_)) [Linux; Macos];
  a ← List.find (fun a => bool_decide (arch_name a = arch_)) [X86_64; Aarch64];
  Some (mkPlatform o a).

Definition sort_key (p : AgentPlatform) : string * string := (os_name (p_os p), arch_name (p_arch p)).

(** A pair's [Ord]. *)
Definition key_leb (a b : string * string) : bool :=
  match String.compare a.1 b.1 with
  | Lt => true
  | Eq => str_leb a.2 b.2
  | Gt => false
  end.

Definition platform_leb (p q : AgentPlatform) : bool := key_leb (sort_key p) (sort_key q).

Definition sorted_platforms (platforms : list AgentPlatform) : list AgentPlatform :=
  dedup (sort_by platform_leb platforms).

Record PlatformAvailability := mkAvailability {
  available_platforms : list AgentPlatform;
  supported_platforms : list AgentPlatform;
  available_os : list NodeOs;
  av_observed_at : string }.

Definition os_leb (o q : NodeOs) : bool := str_leb (os_name o) (os_name q).

(** [PlatformAvailability::new]. *)
Definition new_availability (supported available : list AgentPlatform) (observed_at : string) :
    PlatformAvailability :=
  let available_platforms := sorted_platforms available in
  mkAvailability available_platforms (sorted_platforms supported)
    (dedup (sort_by os_leb (p_os <$> available_platforms))) observed_at.

Definition none_available (observed_at : string) : PlatformAvailability :=
  new_availability [] [] observed_at.

(** ** The refusal *)

Inductive PlacementUnavailableReason :=
| UnsupportedPlatform
| NoCapacity
| MachineUnreachable
| MachineUnknown
| MachineRevoked.

Definition retryable (r : PlacementUnavailableReason) : bool :=
  match r with NoCapacity | MachineUnreachable => true | _ => false end.

Inductive CapacityRefusal :=
| Count (running_agents agent_cap : Z)
| Memory (charged_memory_bytes memory_budget_bytes : Z).

Record MachineRef := mkRef {
  ref_node_id : string;
  ref_name : string }.

Record MachineCapacityRefusal := mkMachineRefusal {
  mr_node_id : string;
  mr_refusal : CapacityRefusal }.

Record PlacementUnavailable := mkUnavailable {
  requested : AgentPlacement;
  reason : PlacementUnavailableReason;
  availability_of : PlatformAvailability;
  machine : option MachineRef;
  capacity_limit : option CapacityRefusal;
  full_machines : list MachineCapacityRefusal;
  hint : option string }.

(** [PlatformAvailability::unavailable]. *)
Definition unavailable (av : PlatformAvailability) (req : AgentPlacement) : PlacementUnavailable :=
  let supported := existsb (matches_platform req) (supported_platforms av) in
  mkUnavailable req (if supported then NoCapacity else UnsupportedPlatform) av None None [] None.

(** [PlatformAvailability::machine_unavailable]. *)
Definition machine_unavailable (av : PlatformAvailability) (req : AgentPlacement)
    (why : PlacementUnavailableReason) (m : MachineRef) (limit : option CapacityRefusal) :
    PlacementUnavailable :=
  mkUnavailable req why av (Some m) limit [] None.

(** [PlacementUnavailable { reason, ..failure }], [with_machines], [with_hint]. *)
Definition with_reason (f : PlacementUnavailable) (why : PlacementUnavailableReason) : PlacementUnavailable :=
  mkUnavailable (requested f) why (availability_of f) (machine f) (capacity_limit f) (full_machines f) (hint f).

Definition with_machines (f : PlacementUnavailable) (machines : list MachineCapacityRefusal) : PlacementUnavailable :=
  mkUnavailable (requested f) (reason f) (availability_of f) (machine f) (capacity_limit f) machines (hint f).

Definition with_hint (f : PlacementUnavailable) (h : string) : PlacementUnavailable :=
  mkUnavailable (requested f) (reason f) (availability_of f) (machine f) (capacity_limit f) (full_machines f) (Some h).

(** *** Its message *)

Definition num (z : Z) : string := dec_string (Z.to_N z).

Definition MIB : Z := 1024 * 1024.

Definition show_refusal (r : CapacityRefusal) : string :=
  match r with
  | Count running cap => num running ++ " of " ++ num cap ++ " agents running"
  | Memory charged budget =>
      num (charged / MIB) ++ " of " ++ num (budget / MIB) ++ " MiB agent memory in use"
  end.

Definition show_platform (p : AgentPlatform) : string :=
  os_name (p_os p) ++ "/" ++ arch_name (p_arch p).

Definition platform_list (l : list AgentPlatform) : string :=
  match l with [] => "none" | _ => String.concat ", " (show_platform <$> l) end.

Definition bare_message (f : PlacementUnavailable) : string :=
  let asked :=
    match os (requested f), arch (requested f) with
    | Some o, Some a => os_name o ++ "/" ++ arch_name a
    | Some o, None => os_name o
    | None, Some a => arch_name a
    | None, None => "any platform"
    end in
  match machine f with
  | Some m =>
      let name := ref_name m in
      match reason f with
      | NoCapacity =>
          match capacity_limit f with
          | Some limit => "No capacity on " ++ name ++ ": " ++ show_refusal limit
          | None => "No capacity on " ++ name
          end
      | UnsupportedPlatform => name ++ " does not run " ++ asked
      | MachineUnreachable => name ++ " is unreachable"
      | MachineUnknown => "No machine " ++ ref_node_id m ++ " is exposed to this backend"
      | MachineRevoked => name ++ " revoked this backend's access"
      end
  | None =>
      let lead := match reason f with
                  | NoCapacity => "No capacity for"
                  | UnsupportedPlatform => "Unsupported"
                  | MachineUnreachable => "No reachable machine for"
                  | MachineUnknown => "No exposed machine for"
                  | MachineRevoked => "No machine accepts this backend for"
                  end in
      lead ++ " " ++ asked ++ "; available: " ++ platform_list (available_platforms (availability_of f))
        ++ "; supported: " ++ platform_list (supported_platforms (availability_of f))
  end.

Definition message (f : PlacementUnavailable) : string :=
  match hint f with
  | Some h => bare_message f ++ " " ++ h
  | None => bare_message f
  end.

(** *** Its error data *)

Definition reason_name (r : PlacementUnavailableReason) : string :=
  match r with
  | UnsupportedPlatform => "unsupported-platform"
  | NoCapacity => "no-capacity"
  | MachineUnreachable => "machine-unreachable"
  | MachineUnknown => "machine-unknown"
  | MachineRevoked => "machine-revoked"
  end.

Definition jint (z : Z) : json := JNumber (PosInt (Z.to_N z)).

Definition platform_json (p : AgentPlatform) : json :=
  JObject [("os", JString (os_name (p_os p))); ("arch", JString (arch_name (p_arch p)))].

Definition availability_members (a : PlatformAvailability) : list (string * json) :=
  [("availablePlatforms", JArray (platform_json <$> available_platforms a));
   ("supportedPlatforms", JArray (platform_json <$> supported_platforms a));
   ("availableOs", JArray ((fun o => JString (os_name o)) <$> available_os a));
   ("observedAt", JString (av_observed_at a))].

Definition refusal_members (r : CapacityRefusal) : list (string * json) :=
  match r with
  | Count running cap =>
      [("limit", JString "count"); ("runningAgents", jint running); ("agentCap", jint cap)]
  | Memory charged budget =>
      [("limit", JString "memory"); ("chargedMemoryBytes", jint charged); ("memoryBudgetBytes", jint budget)]
  end.

Definition machine_refusal_json (m : MachineCapacityRefusal) : json :=
  JObject (("nodeId", JString (mr_node_id m)) :: refusal_members (mr_refusal m)).

(** [Map::extend]. *)
Definition extend (m : list (string * json)) (more : list (string * json)) : list (string * json) :=
  foldl (fun acc kv => map_insert acc kv.1 kv.2) m more.

Definition data (f : PlacementUnavailable) : list (string * json) :=
  let base := [("code", JString "placement-unavailable");
               ("requested", serialize (requested f));
               ("reason", JString (reason_name (reason f)));
               ("retryable", JBool (retryable (reason f)))] in
  let d := extend base (availability_members (availability_of f)) in
  let d := match machine f with
           | Some m => map_insert d "nodeId" (JString (ref_node_id m))
           | None => d
           end in
  let d := match capacity_limit f with
           | Some limit => extend d (refusal_members limit)
           | None => d
           end in
  match full_machines f with
  | [] => d
  | ms => map_insert d "machines" (JArray (machine_refusal_json <$> ms))
  end.

(** ** Validity *)

(** The documented rules, as one statement. *)
Record Valid (p : AgentPlacement) : Prop := mkValid {
  valid_node_id : forall id, node_id p = Some id -> 1 <= slen id <= MAX_NODE_ID_BYTES;
  valid_entry : forall e, cloud_machine_id p = Some e ->
    target p = Some E2b /\ slen e <= MAX_CLOUD_MACHINE_ID_BYTES;
  valid_remote : target p = Some Remote \/ target p = Some E2b -> effective_checkout p = Isolated;
  valid_e2b : target p = Some E2b ->
    os p = None /\ arch p = None /\ node_id p = None /\ exclusive p = None;
  valid_exclusive : exclusive p = Some true ->
    target p <> Some Local_ /\ effective_checkout p = Isolated }.

Lemma if_err_ok {A} (b : bool) (e : string) (r : Result A string) x :
  (if b then Err e else r) = Ok x <-> b = false /\ r = Ok x.
Proof. destruct b; naive_solver. Qed.

Lemma is_some_and_false {A} (o : option A) f :
  is_some_and o f = false <-> forall x, o = Some x -> f x = false.
Proof. destruct o; simpl; naive_solver. Qed.

Lemma validate_spec p : validate p = Ok tt <-> Valid p.
Proof.
  unfold validate.
  rewrite !if_err_ok, !is_some_and_false, !andb_false_iff, !orb_false_iff.
  split.
  - intros (Hn & He & Hl & Hr & Hp & Hx & Hc & Hex & _).
    rewrite negb_false_iff in Hr, Hc, Hex. split.
    + intros id E. specialize (Hn id E). case_tests. pose proof (slen_nonneg id). lia.
    + intros e E. specialize (He e E). specialize (Hl e E). case_tests.
      rewrite bool_decide_eq_true in He. auto.
    + rewrite !bool_decide_eq_false, !bool_decide_eq_true in *. naive_solver.
    + rewrite !bool_decide_eq_false, <-!eq_None_not_Some in *. naive_solver.
    + rewrite !bool_decide_eq_false, !bool_decide_eq_true in *. naive_solver.
  - intros [Hn He Hr He2 Hex].
    split_and!; rewrite ?negb_false_iff, ?bool_decide_eq_false, ?bool_decide_eq_true,
      <-?eq_None_not_Some; try done.
    + intros id E. specialize (Hn id E). by solve_tests.
    + intros e E. apply negb_false_iff, bool_decide_eq_true, (He e E).
    + intros e E. destruct (He e E). by solve_tests.
    + destruct (decide (target p = Some Remote)); auto.
    + destruct (decide (target p = Some E2b)); naive_solver.
    + destruct (decide (target p = Some E2b)); naive_solver.
    + destruct (decide (target p = Some E2b)); naive_solver.
    + destruct (decide (exclusive p = Some true)); naive_solver.
Qed.

(** ** What the wire object is *)

Definition field_names : list string :=
  ["target"; "checkout"; "os"; "arch"; "nodeId"; "exclusive"; "cloudMachineId"].

(** The members give a field its value: absent, it stays as it was; present, it
    was not set and the member reads. *)
Definition reads {A} (members : list (string * json)) (k : string) (read : json -> option A)
    (old new : option A) : Prop :=
  match map_get members k with
  | None => new = old
  | Some v => old = None /\ new = read v /\ is_Some new
  end.

Record Reads (members : list (string * json)) (old new : AgentPlacement) : Prop := mkReads {
  r_target : reads members "target" (read_variant target_name [Local_; Remote; E2b]) (target old) (target new);
  r_checkout : reads members "checkout" (read_variant checkout_name [Shared; Worktree; Isolated]) (checkout old) (checkout new);
  r_os : reads members "os" (read_variant os_name [Linux; Macos]) (os old) (os new);
  r_arch : reads members "arch" (read_variant arch_name [X86_64; Aarch64]) (arch old) (arch new);
  r_node_id : reads members "nodeId" as_str (node_id old) (node_id new);
  r_exclusive : reads members "exclusive" as_bool (exclusive old) (exclusive new);
  r_entry : reads members "cloudMachineId" as_str (cloud_machine_id old) (cloud_machine_id new) }.

Lemma map_get_None m k : map_get m k = None <-> k ∉ m.*1.
Proof.
  induction m as [|[k' v] m IH]; csimpl; [set_solver|].
  case_decide as D; [set_solver|]. rewrite IH. set_solver.
Qed.

Lemma set_once_ok {A} k (old rd : option A) set p' :
  set_once k old rd set = Ok p' <-> old = None /\ exists x, rd = Some x /\ p' = set (Some x).
Proof. unfold set_once. destruct old, rd; naive_solver. Qed.

Lemma reads_other {A} m k k' v (read : json -> option A) old new :
  k <> k' -> reads ((k, v) :: m) k' read old new <-> reads m k' read old new.
Proof. intros. unfold reads. simpl. by rewrite decide_False by done. Qed.

Lemma reads_set {A} m k (read : json -> option A) x new :
  reads m k read (Some x) new <-> (k ∉ m.*1) /\ new = Some x.
Proof.
  unfold reads. rewrite <- map_get_None. destruct (map_get m k); naive_solver.
Qed.

Lemma reads_cons {A} m k v (read : json -> option A) old new :
  k ∉ m.*1 -> reads ((k, v) :: m) k read old new <-> old = None /\ new = read v /\ is_Some new.
Proof. intros Hk. unfold reads. simpl. by rewrite decide_True by done. Qed.

(** The member's own field is set by it, the six others by the rest. *)
Ltac step_field :=
  split;
  [ intros (p' & Hp & HR); apply set_once_ok in Hp as (-> & y & Hy & ->);
    destruct HR as [R1 R2 R3 R4 R5 R6 R7]; simpl in *;
    repeat match goal with H : reads _ _ _ (Some _) _ |- _ => apply reads_set in H as [? H] end;
    split; [set_solver|split; [done|]]; split; simpl;
    first [apply reads_other; [done|assumption] | apply reads_cons; [done|]; split_and!; [done|congruence|eexists; eassumption]]
  | intros (_ & Hk & HR); destruct HR as [R1 R2 R3 R4 R5 R6 R7]; simpl in *;
    repeat match goal with H : reads ((?k, _) :: _) ?k _ _ _ |- _ =>
      apply reads_cons in H as (-> & H & [y Hy]); [|done] end;
    repeat match goal with H : reads (_ :: _) _ _ _ _ |- _ => apply reads_other in H; [|done] end;
    eexists; split; [apply set_once_ok; split; [done|]; eexists; split; [|done];
      etrans; [symmetry; eassumption|eassumption]|];
    split; simpl; first [assumption | apply reads_set; split; [done|congruence]] ].

Lemma read_member_ok old k v m new :
  (exists p', read_member old k v = Ok p' /\ Reads m p' new) <->
  k ∈ field_names /\ (k ∉ m.*1) /\ Reads ((k, v) :: m) old new.
Proof.
  destruct old as [t c o a n e mid]. unfold read_member.
  repeat case_bool_decide; subst; [step_field..|].
  unfold field_names. split; [naive_solver|]. set_solver.
Qed.

Lemma read_members_ok members old new :
  read_members old members = Ok new <->
  NoDup members.*1 /\ (forall k, k ∈ members.*1 -> k ∈ field_names) /\ Reads members old new.
Proof.
  revert old. induction members as [|[k v] m IH]; intros old; csimpl.
  { split; [|intros (_ & _ & [R1 R2 R3 R4 R5 R6 R7])].
    - intros [= ->]. split; [apply NoDup_nil_2|]. split; [set_solver|]. by split.
    - destruct old, new. simpl in *. unfold reads in *. simpl in *. congruence. }
  trans (exists p', read_member old k v = Ok p' /\ read_members p' m = Ok new).
  { destruct (read_member old k v); naive_solver. }
  setoid_rewrite IH. rewrite NoDup_cons.
  pose proof (read_member_ok old k v m new). set_solver.
Qed.

Lemma read_members_written p :
  exists members, serialize p = JObject members /\ read_members default_placement members = Ok p.
Proof.
  eexists. split; [done|]. destruct p as [t c o a n e m]. unfold default_placement.
  trans (read_members (mkPlacement t None None None None None None) (
    (member "checkout" (fun c => JString (checkout_name c)) c
    ++ member "os" (fun o => JString (os_name o)) o
    ++ member "arch" (fun a => JString (arch_name a)) a
    ++ member "nodeId" JString n ++ member "exclusive" JBool e
    ++ member "cloudMachineId" JString m)%list)); [by destruct t as [[]|]|].
  trans (read_members (mkPlacement t c o None None None None) (
    (member "arch" (fun a => JString (arch_name a)) a
    ++ member "nodeId" JString n ++ member "exclusive" JBool e
    ++ member "cloudMachineId" JString m)%list)); [by destruct c as [[]|], o as [[]|]|].
  trans (read_members (mkPlacement t c o a n None None) (
    (member "exclusive" JBool e ++ member "cloudMachineId" JString m)%list)).
  { by destruct a as [[]|], n. }
  by destruct e, m.
Qed.

Lemma try_from_ok p q : try_from p = Ok q <-> p = q /\ Valid q.
Proof.
  unfold try_from. pose proof (validate_spec p) as Hv.
  destruct (validate p) as [[]|r]; split; naive_solver.
Qed.

(** [C35] The placement object is exact.  A JSON value is accepted as the
    placement [p] exactly when it is an object without duplicate or unknown
    members, each present member reads as the field's type (so never null) and
    gives [p] its value, the absent ones are absent in [p], and [p] keeps every
    documented rule; and writing a placement and reading it back gives the same
    placement exactly when it is a valid one. *)
Theorem placement_wire_exact :
  (forall v p, deserialize v = Ok p <->
     exists members, v = JObject members /\ NoDup members.*1 /\
       (forall k, k ∈ members.*1 -> k ∈ field_names) /\
       Reads members default_placement p /\ Valid p) /\
  (forall p, deserialize (serialize p) = Ok p <-> Valid p).
Proof.
  split.
  - intros v p. split.
    + destruct v as [| | | | |ms]; try done. simpl.
      destruct (read_members default_placement ms) as [w|] eqn:E; [|done].
      intros [-> Hv]%try_from_ok. apply read_members_ok in E. naive_solver.
    + intros (ms & -> & Hn & Hk & HR & Hv). simpl.
      rewrite (proj2 (read_members_ok ms default_placement p)) by done. by apply try_from_ok.
  - intros p. destruct (read_members_written p) as (ms & -> & E). simpl. rewrite E, try_from_ok.
    naive_solver.
Qed.

(** What the remote launch takes, on the documented rules. *)
Lemma check_remote_supported_spec p :
  check_remote_supported p = Ok tt <->
  Valid p /\ target p <> Some Local_ /\ effective_checkout p = Isolated /\ exclusive p <> Some true.
Proof.
  unfold check_remote_supported. pose proof (validate_spec p) as Hv.
  destruct (validate p) as [[]|r]; [|naive_solver].
  rewrite !if_err_ok, negb_false_iff, !bool_decide_eq_false, bool_decide_eq_true. naive_solver.
Qed.

(** ** Discovery data *)

Lemma platform_leb_total p q : platform_leb p q = false -> platform_leb q p = true.
Proof. by destruct p as [[] []], q as [[] []]. Qed.

Lemma platform_leb_trans p q r : platform_leb p q = true -> platform_leb q r = true -> platform_leb p r = true.
Proof. by destruct p as [[] []], q as [[] []], r as [[] []]. Qed.

Lemma platform_leb_anti p q : platform_leb p q -> platform_leb q p -> p = q.
Proof. by destruct p as [[] []], q as [[] []]. Qed.

Lemma elem_of_sorted_platforms l x : x ∈ sorted_platforms l <-> x ∈ l.
Proof. unfold sorted_platforms. by rewrite elem_of_dedup, sort_by_perm. Qed.

Lemma sorted_platforms_sorted l :
  StronglySorted platform_leb (sorted_platforms l) /\ NoDup (sorted_platforms l).
Proof.
  apply dedup_sorted; [apply platform_leb_anti|].
  apply sort_by_sorted; [apply platform_leb_total|apply platform_leb_trans].
Qed.

Lemma elem_of_available_os s a at_ x :
  x ∈ available_os (new_availability s a at_) <-> exists p, p ∈ a /\ p_os p = x.
Proof.
  simpl. rewrite elem_of_dedup, sort_by_perm, list_elem_of_fmap.
  setoid_rewrite elem_of_sorted_platforms. naive_solver.
Qed.

(** The error data says what the refusal says: no part overwrites another's
    members. *)
Lemma data_members f :
  map_get (data f) "code" = Some (JString "placement-unavailable") /\
  map_get (data f) "requested" = Some (serialize (requested f)) /\
  map_get (data f) "reason" = Some (JString (reason_name (reason f))) /\
  map_get (data f) "retryable" = Some (JBool (retryable (reason f))) /\
  map_get (data f) "nodeId" = (m ← machine f; Some (JString (ref_node_id m))) /\
  (is_Some (map_get (data f) "limit") <-> is_Some (capacity_limit f)) /\
  (is_Some (map_get (data f) "machines") <-> full_machines f <> []).
Proof.
  destruct f as [r w av [m|] [[]|] [|x l] h]; (split_and!; [done..| |]).
  all: cbn; split; try done; by intros [].
Qed.
