(* ===== verification/MachineSelection.v ===== *)
(** * Placing an agent across machines ([crates/intent-core/src/machine_selection.rs])

    Which of the machines exposed to a backend can take an agent, in which order,
    and the refusal when none can.  The machine list, the answers of the on-demand
    refresh, the clock and the timestamp parser are arguments; instants are
    nanoseconds. *)
From stdpp Require Import prelude strings sorting.
From S2P Require Import Prelude.
From S2P Require Import Json.
From S2P Require Import Placement.

Local Open Scope string_scope.
Local Open Scope Z_scope.

(** ** Reports *)

Inductive ProviderStatus :=
| SignedIn | SignedOut | AuthFailed | CliMissing | PrerequisiteMissing | Disabled | Unknown.

#[global] Instance ProviderStatus_eq_dec : EqDecision ProviderStatus.
Proof. solve_decision. Defined.

Record ProviderCapability := mkProvider {
  pc_id : string;
  visible : bool;
  pc_status : ProviderStatus;
  models : list string;
  models_stale : bool }.

Record MachineCapacity := mkCapacity {
  running_agents : Z;
  agent_cap : Z;
  charged_memory_bytes : Z;
  memory_budget_bytes : option Z }.

Record MachineCapabilities := mkCapabilities {
  cap_platform : AgentPlatform;
  intentd_version : string;
  capacity : MachineCapacity;
  providers : list ProviderCapability;
  disabled_providers : list string;
  cap_observed_at : string }.

Inductive RemoteMachineState := Connected | Disconnected | Unreachable | Revoked | UpdateRequired.

#[global] Instance RemoteMachineState_eq_dec : EqDecision RemoteMachineState.
Proof. solve_decision. Defined.

(** The fields placement reads; routes, pin and credential are carried along. *)
Record ExposedMachine := mkMachine {
  m_id : string;
  m_name : string;
  m_platform : option AgentPlatform;
  capabilities : option MachineCapabilities;
  m_observed_at : option string;
  m_state : RemoteMachineState;
  last_connected_at : option string }.

Inductive UpdateSide := UpdateMachine | UpdateBackend.

Record MachineUpdateRequired := mkUpdateRequired {
  machine_name : string;
  machine_version : string;
  backend_version : string;
  update : UpdateSide;
  mu_hint : option string;
  mu_reason : option string }.

Inductive RefreshFailure :=
| FUnreachable
| FRevoked
| FUpdateRequired (update : MachineUpdateRequired)
| FSlow.

Record PlacementRequest := mkRequest {
  placement : AgentPlacement;
  provider : string;
  model : option string;
  with_profile : bool }.

(** ** Refusals *)

Definition MODEL_UNAVAILABLE_MAX_MODELS : Z := 50.

Record MachineModels := mkModels {
  mm_node_id : string;
  mm_name : string;
  mm_platform : AgentPlatform;
  mm_status : ProviderStatus;
  mm_models : list string;
  mm_observed_at : string }.

Record ModelUnavailable := mkModelUnavailable {
  mu_provider : string;
  mu_model : string;
  mu_machines : list MachineModels;
  mu_retryable : bool;
  mod_hint : option string }.

(** [ModelUnavailable::new]. *)
Definition new_model_unavailable (prov mdl : string) (machines : list MachineModels) (retry : bool) :
    ModelUnavailable :=
  let cap m := mkModels (mm_node_id m) (mm_name m) (mm_platform m) (mm_status m)
                 (ztake MODEL_UNAVAILABLE_MAX_MODELS (mm_models m)) (mm_observed_at m) in
  mkModelUnavailable prov mdl (cap <$> machines) retry None.

Inductive SelectError :=
| EModelUnavailable (e : ModelUnavailable)
| EUpdateRequired (e : MachineUpdateRequired)
| EUnavailable (e : PlacementUnavailable).

(** ** Model names *)

Definition byte_of (c : Ascii.ascii) : Z := Z.of_N (Ascii.N_of_ascii c).

Definition is_ascii_alphanumeric (c : Ascii.ascii) : bool :=
  let b := byte_of c in
  ((48 <=? b) && (b <=? 57)) || ((65 <=? b) && (b <=? 90)) || ((97 <=? b) && (b <=? 122)).

Definition to_ascii_lowercase (c : Ascii.ascii) : Ascii.ascii :=
  let b := byte_of c in
  if (65 <=? b) && (b <=? 90) then Ascii.ascii_of_N (Z.to_N (b + 32)) else c.

Definition lower (s : list Ascii.ascii) : list Ascii.ascii := to_ascii_lowercase <$> s.

(** [str::split] at the characters that are no ASCII letter or digit; the bytes
    of a wider character split into more empty pieces, dropped like the rest. *)
Fixpoint pieces (word : list Ascii.ascii) (s : list Ascii.ascii) : list (list Ascii.ascii) :=
  match s with
  | [] => [word]
  | c :: s' =>
      if is_ascii_alphanumeric c then pieces (word ++ [c])%list s'
      else word :: pieces [] s'
  end.

Definition words (id : string) : list (list Ascii.ascii) :=
  lower <$> List.filter (fun w => negb (bool_decide (w = []))) (pieces [] (String.list_ascii_of_string id)).

(** [slice::windows(n)] for a positive [n]. *)
Fixpoint windows {A} (n : nat) (l : list A) : list (list A) :=
  match l with
  | [] => []
  | _ :: l' => if (n <=? length l)%nat then take n l :: windows n l' else []
  end.

Definition eq_ignore_ascii_case (a b : string) : bool :=
  bool_decide (lower (String.list_ascii_of_string a) = lower (String.list_ascii_of_string b)).

Definition model_listed (listed requested : string) : bool :=
  if eq_ignore_ascii_case listed requested then true
  else
    let l := words listed in
    let r := words requested in
    negb (bool_decide (r = [])) && existsb (fun w => bool_decide (w = r)) (windows (length r) l).

(** ** Judging a machine *)

Definition provider_of (row : ExposedMachine) (id : string) : option ProviderCapability :=
  caps ← capabilities row;
  List.find (fun c => bool_decide (pc_id c = id)) (providers caps).

Definition provider_usable (status : ProviderStatus) (profile : bool) : bool :=
  match status with
  | CliMissing | PrerequisiteMissing | Disabled => false
  | SignedOut | AuthFailed => profile
  | SignedIn | Unknown => true
  end.

Definition offers (row : ExposedMachine) (req : PlacementRequest) : bool :=
  is_some_and (provider_of row (provider req)) (fun p =>
    provider_usable (pc_status p) (with_profile req)
    && is_none_or (model req) (fun m => existsb (fun l => model_listed l m) (models p))).

Definition models_pending (row : ExposedMachine) (req : PlacementRequest) : bool :=
  is_some_and (model req) (fun m =>
    is_some_and (provider_of row (provider req)) (fun p =>
      models_stale p && negb (existsb (fun l => model_listed l m) (models p)))).

Definition not_observed (caps : MachineCapabilities) : bool :=
  bool_decide (providers caps = []) && bool_decide (disabled_providers caps = []).

Definition unlisted_status (caps : option MachineCapabilities) (id : string) : ProviderStatus :=
  match caps with
  | Some c =>
      if existsb (fun d => bool_decide (d = id)) (disabled_providers c) then Disabled
      else if negb (not_observed c) then CliMissing
      else Unknown
  | None => Unknown
  end.

Definition machine_models (row : ExposedMachine) (id : string) : option MachineModels :=
  let offered := provider_of row id in
  platform ← m_platform row;
  Some (mkModels (m_id row) (m_name row) platform
          (match offered with Some p => pc_status p | None => unlisted_status (capabilities row) id end)
          (match offered with Some p => models p | None => [] end)
          (default EmptyString (m_observed_at row))).

Definition capacity_refusal (row : ExposedMachine) : option CapacityRefusal :=
  caps ← capabilities row;
  let c := capacity caps in
  if agent_cap c <=? running_agents c then Some (Count (running_agents c) (agent_cap c))
  else
    budget ← memory_budget_bytes c;
    if budget <=? charged_memory_bytes c then Some (Memory (charged_memory_bytes c) budget) else None.

Definition machine_ref (row : ExposedMachine) : MachineRef := mkRef (m_id row) (m_name row).

Definition machine_error (p : AgentPlacement) (why : PlacementUnavailableReason) (m : MachineRef)
    (av : PlatformAvailability) : SelectError :=
  EUnavailable (machine_unavailable av p why m None).

Definition no_capacity (p : AgentPlacement) (refusals : list (ExposedMachine * CapacityRefusal))
    (av : PlatformAvailability) : PlacementUnavailable :=
  match refusals with
  | [(row, refusal)] => machine_unavailable av p NoCapacity (machine_ref row) (Some refusal)
  | _ =>
      with_machines (with_reason (unavailable av p) NoCapacity)
        ((fun '(row, refusal) => mkMachineRefusal (m_id row) refusal) <$> refusals)
  end.

Definition availability (reported : list ExposedMachine)
    (failed : list (ExposedMachine * RefreshFailure)) (observed : string) : PlatformAvailability :=
  new_availability
    (omap m_platform (reported ++ failed.*1)%list)
    (omap m_platform (List.filter (fun row => bool_decide (capacity_refusal row = None)) reported))
    observed.

(** The first failures of each kind, and the refusal they make. *)
Definition is_unreachable (f : RefreshFailure) : bool :=
  match f with FUnreachable | FSlow => true | _ => false end.

Definition is_revoked (f : RefreshFailure) : bool :=
  match f with FRevoked => true | _ => false end.

Fixpoint find_update (failed : list (ExposedMachine * RefreshFailure)) : option MachineUpdateRequired :=
  match failed with
  | [] => None
  | (_, FUpdateRequired u) :: _ => Some u
  | _ :: rest => find_update rest
  end.

Definition no_platform (p : AgentPlacement) (named : option ExposedMachine)
    (failed : list (ExposedMachine * RefreshFailure)) (av : PlatformAvailability) : SelectError :=
  let refuse why (row : option ExposedMachine) :=
    match row with
    | Some row => machine_error p why (machine_ref row) av
    | None => EUnavailable (with_reason (unavailable av p) why)
    end in
  let failed_row row := match named with Some _ => Some row | None => None end in
  match List.find (fun f => is_unreachable f.2) failed with
  | Some (row, _) => refuse MachineUnreachable (failed_row row)
  | None =>
      match find_update failed with
      | Some u => EUpdateRequired u
      | None =>
          match List.find (fun f => is_revoked f.2) failed with
          | Some (row, _) => refuse MachineRevoked (failed_row row)
          | None => refuse UnsupportedPlatform named
          end
      end
  end.

(** ** Selection *)

(** The [time] crate's reading of an RFC 3339 timestamp, and its writer. *)
Class Rfc3339 := {
  parse_rfc3339 : string -> option Z;
  format_rfc3339 : Z -> option string }.

Definition REPORT_MAX_AGE : Z := 60 * 60 * 1000000000.

(** The rows visited so far: those with a report, the failed ones, and whether a
    refresh was slow. *)
Record Refreshed := mkRefreshed {
  reported : list ExposedMachine;
  failed : list (ExposedMachine * RefreshFailure);
  slow : bool }.

Section select.
Context {TIME : Rfc3339}.

Definition report_is_stale (observed_at : option string) (now : Z) : bool :=
  is_none_or (at_ ← observed_at; parse_rfc3339 at_) (fun at_ => REPORT_MAX_AGE <? now - at_).

Definition now_text (now : Z) : string := default EmptyString (format_rfc3339 now).

(** [named.is_none]'s branches: the rows to consider, or the early refusal. *)
Definition candidates (rows : list ExposedMachine) (p : AgentPlacement) (observed : string) :
    Result (list ExposedMachine) SelectError :=
  match node_id p with
  | Some id =>
      match List.find (fun row => bool_decide (m_id row = id)) rows with
      | None => Err (machine_error p MachineUnknown (mkRef id id) (none_available observed))
      | Some row =>
          if bool_decide (m_state row = Revoked)
          then Err (machine_error p MachineRevoked (machine_ref row) (none_available observed))
          else Ok [row]
      end
  | None =>
      match List.filter (fun row => bool_decide (m_state row <> Revoked)) rows with
      | [] =>
          let failure := unavailable (none_available observed) p in
          Err (EUnavailable (match rows with
                             | [] => failure
                             | _ => with_reason failure MachineRevoked
                             end))
      | rows' => Ok rows'
      end
  end.

Definition must_refresh (row : ExposedMachine) (req : PlacementRequest) (now : Z) : bool :=
  is_none_or (capabilities row) not_observed
  || bool_decide (m_state row = UpdateRequired)
  || report_is_stale (m_observed_at row) now
  || models_pending row req.

Definition maybe_matches (row : ExposedMachine) (p : AgentPlacement) : bool :=
  is_none_or (m_platform row) (matches_platform p).

(** The row after a successful refresh. *)
Definition with_report (row : ExposedMachine) (caps : MachineCapabilities) : ExposedMachine :=
  mkMachine (m_id row) (m_name row) (Some (cap_platform caps)) (Some caps) (Some (cap_observed_at caps))
    (if bool_decide (m_state row = Connected) then Connected else Disconnected) (last_connected_at row).

Definition keep_reported (acc : Refreshed) (row : ExposedMachine) : Refreshed :=
  match capabilities row with
  | Some _ => mkRefreshed (reported acc ++ [row])%list (failed acc) (slow acc)
  | None => acc
  end.

(** One candidate; [answer] is what [source.refresh] answers for it. *)
Definition refresh_row (req : PlacementRequest) (now : Z)
    (refresh : string -> Result MachineCapabilities RefreshFailure) (acc : Refreshed) (row : ExposedMachine) :
    Refreshed :=
  if maybe_matches row (placement req) && must_refresh row req now then
    match refresh (m_id row), capabilities row with
    | Ok caps, _ => keep_reported acc (with_report row caps)
    | Err FSlow, Some _ => keep_reported (mkRefreshed (reported acc) (failed acc) true) row
    | Err failure, _ => mkRefreshed (reported acc) (failed acc ++ [(row, failure)])%list (slow acc)
    end
  else keep_reported acc row.

Definition refresh_all (req : PlacementRequest) (now : Z)
    (refresh : string -> Result MachineCapabilities RefreshFailure) : list ExposedMachine -> Refreshed :=
  foldl (refresh_row req now refresh) (mkRefreshed [] [] false).

(** [(running, Reverse(used))]: fewest running agents first, then most recently
    used; a machine never used comes last. *)
Definition running_of (row : ExposedMachine) : Z :=
  match capabilities row with Some caps => running_agents (capacity caps) | None => u32_max end.

Definition used_at (row : ExposedMachine) : option Z := at_ ← last_connected_at row; parse_rfc3339 at_.

Definition opt_leb (a b : option Z) : bool :=
  match a, b with
  | None, _ => true
  | Some x, Some y => x <=? y
  | Some _, None => false
  end.

Definition rank_leb (a b : ExposedMachine) : bool :=
  (running_of a <? running_of b)
  || ((running_of a =? running_of b) && opt_leb (used_at b) (used_at a)).

(** The part after the refresh. *)
Definition decide_rows (req : PlacementRequest) (observed : string) (r : Refreshed) :
    Result (list ExposedMachine) SelectError :=
  let p := placement req in
  let av := availability (reported r) (failed r) observed in
  let matching := List.filter (fun row => is_some_and (m_platform row) (matches_platform p)) (reported r) in
  match matching with
  | [] =>
      let first := match head (reported r) with Some row => Some row | None => head (failed r).*1 end in
      let named_row := match node_id p with Some _ => first | None => None end in
      Err (no_platform p named_row (failed r) av)
  | _ =>
      let offering := List.filter (fun row => offers row req) matching in
      match offering with
      | [] =>
          let retry := slow r || negb (bool_decide (failed r = []))
            || existsb (fun row => is_some_and (provider_of row (provider req)) models_stale) matching in
          Err (EModelUnavailable (new_model_unavailable (provider req) (default EmptyString (model req))
                 (omap (fun row => machine_models row (provider req)) matching) retry))
      | _ =>
          let free := List.filter (fun row => bool_decide (capacity_refusal row = None)) offering in
          match free with
          | [] =>
              let refusals := omap (fun row => refusal ← capacity_refusal row; Some (row, refusal)) offering in
              Err (EUnavailable (no_capacity p refusals av))
          | _ => Ok (sort_by rank_leb free)
          end
      end
  end.

Definition select_machines (rows : list ExposedMachine)
    (refresh : string -> Result MachineCapabilities RefreshFailure) (req : PlacementRequest) (now : Z) :
    Result (list ExposedMachine) SelectError :=
  let observed := now_text now in
  match candidates rows (placement req) observed with
  | Err e => Err e
  | Ok rows' => decide_rows req observed (refresh_all req now refresh rows')
  end.

Definition check_switch_on_machine (rows : list ExposedMachine) (id : string) (req : PlacementRequest)
    (now : Z) : Result unit SelectError :=
  let observed := now_text now in
  match List.find (fun row => bool_decide (m_id row = id)) rows with
  | None => Err (machine_error (placement req) MachineUnknown (mkRef id id) (none_available observed))
  | Some row =>
      if bool_decide (m_state row = Revoked)
      then Err (machine_error (placement req) MachineRevoked (machine_ref row) (none_available observed))
      else if offers row req then Ok tt
      else
        let retry := is_some_and (provider_of row (provider req)) models_stale in
        Err (EModelUnavailable (new_model_unavailable (provider req) (default EmptyString (model req))
               (option_list (machine_models row (provider req))) retry))
  end.
End select.

(** ** The backend's rows ([crates/intent-svc-remote/src/launch.rs]) *)

(** Each stored report's running count is raised to the agents this backend has
    attached there since. *)
Definition raise_running (attached : string -> Z) (row : ExposedMachine) : ExposedMachine :=
  let raise caps :=
    let c := capacity caps in
    mkCapabilities (cap_platform caps) (intentd_version caps)
      (mkCapacity (Z.max (running_agents c) (Z.min (attached (m_id row)) u32_max)) (agent_cap c)
         (charged_memory_bytes c) (memory_budget_bytes c))
      (providers caps) (disabled_providers caps) (cap_observed_at caps) in
  mkMachine (m_id row) (m_name row) (m_platform row) (raise <$> capabilities row) (m_observed_at row)
    (m_state row) (last_connected_at row).

Definition exposed_rows (attached : string -> Z) (stored : list ExposedMachine) : list ExposedMachine :=
  raise_running attached <$> stored.

(** ** The discovery text *)

Definition HELP_MAX_MACHINES : Z := 8.
Definition HELP_MAX_MODELS : Z := 10.
Definition HELP_MAX_BYTES : Z := 4096.

Definition newline : string := String (Ascii.ascii_of_N 10) EmptyString.

Definition status_name (s : ProviderStatus) : string :=
  match s with
  | SignedIn => "signed-in"
  | SignedOut => "signed-out"
  | AuthFailed => "auth-failed"
  | CliMissing => "cli-missing"
  | PrerequisiteMissing => "prerequisite-missing"
  | Disabled => "disabled"
  | Unknown => "unknown"
  end.

Definition help_provider (p : ProviderCapability) : string :=
  let shown := Z.min (len (models p)) HELP_MAX_MODELS in
  let text := String.concat ", " (ztake shown (models p)) in
  let text := if shown <? len (models p)
              then text ++ ", +" ++ num (len (models p) - shown) ++ " more" else text in
  let text := if slen text =? 0 then "no models listed" else text in
  pc_id p ++ " " ++ status_name (pc_status p) ++ " [" ++ text ++ "]".

Definition help_state (row : ExposedMachine) (connected : bool) : string :=
  if connected then "connected"
  else
    match m_state row with
    | UpdateRequired => "needs an Intent update"
    | Unreachable => "unreachable"
    | _ => match last_connected_at row with
           | None => "not connected yet"
           | Some at_ => "last seen " ++ at_
           end
    end.

Definition help_line (row : ExposedMachine) (connected : bool) : string :=
  let platform := match m_platform row with None => "platform unknown" | Some p => show_platform p end in
  let line := "- " ++ dquoted (m_name row) ++ " (nodeId `" ++ m_id row ++ "`, " ++ platform ++ ", "
                ++ help_state row connected in
  let line := match m_observed_at row with Some at_ => line ++ ", report " ++ at_ | None => line end in
  let line := line ++ ")" in
  let listed := match capabilities row with Some caps => providers caps | None => [] end in
  let usable := List.filter (fun p => visible p
                  && negb (bool_decide (pc_status p = CliMissing) || bool_decide (pc_status p = PrerequisiteMissing)))
                  listed in
  let line := match usable with
              | [] => line ++ ": no usable providers reported"
              | _ => line ++ ": " ++ String.concat "; " (help_provider <$> usable)
              end in
  line ++ newline.

(** The loop over the listed machines: the text so far and how many it shows. *)
Fixpoint help_lines (connected : string -> bool) (lines : string) (shown : Z) (rows : list ExposedMachine) :
    string * Z :=
  match rows with
  | [] => (lines, shown)
  | row :: rest =>
      let line := help_line row (connected (m_id row)) in
      if (shown =? HELP_MAX_MACHINES) || (HELP_MAX_BYTES <? slen lines + slen line) then (lines, shown)
      else help_lines connected (lines ++ line) (shown + 1) rest
  end.

(** The constant end of the text. *)
Definition help_closing : string :=
  "To run an agent on one, pass `placement: { target: "
  ++ dquoted "remote"
  ++ " }` (optionally `nodeId`, `os`, `arch`) in the options of `ws.agent.create` or `ws.agent.delegate`, or as `ws.agent.wakeOrCreate(taskNoteId, contextMessage, model, messageMetadata, reasoningEffort, { create: { placement } })`. Without `nodeId` the backend picks a machine that runs the platform, has the provider signed in (or unknown) and the model listed, with free capacity. When none lists the model the call fails with `model-unavailable`; other refusals are `placement-unavailable` or `machine-update-required`. A remote agent's own sub-agents (`ws.agent.create`, `ws.agent.delegate`, `ws.agent.wakeOrCreate`) run on its machine when no `placement` is given, with the same checks and no fallback; pass `placement: { target: "
  ++ dquoted "local"
  ++ " }` to run one on the backend. A batch `ws.agent.delegate({ tasks })` takes one `placement` for all its tasks, and an object entry `{ taskNoteId, placement }` its own."
  ++ newline
  ++ "A remote agent starts from the workspace's last commit (uncommitted changes are not carried), runs with the selected provider profile's environment (an API key or other settings; a profile or Default that sets an account folder such as `CODEX_HOME` / `CLAUDE_CONFIG_DIR` is refused with `profile-not-remote-compatible`), or with the machine's own provider login when no profile is selected, and pushes its work to `refs/intent/ws/<workspaceId>/agents/<agentId>/head` (commits) and `.../wip` (its working tree). `ws.agent.setModel` can switch it to another model or remote-compatible profile its machine offers; its next turn relaunches it there with the conversation history.".

Definition exposed_machines_help (machines : list ExposedMachine)
    (connected : string -> bool) : option string :=
  match List.filter (fun row => bool_decide (m_state row <> Revoked)) machines with
  | [] => None
  | listed =>
      let '(lines, shown) := help_lines connected EmptyString 0 listed in
      let text := "Remote placement (experimental): machines exposed to this backend ("
                    ++ num (len listed) ++ "):" ++ newline ++ lines in
      let text := if shown <? len listed
                  then text ++ "- … " ++ num (len listed - shown)
                    ++ " more not shown; a `model-unavailable` error lists every machine's models." ++ newline
                  else text in
      Some (text ++ help_closing)
  end.

(** ** What selection promises *)

Section promise.
Context {TIME : Rfc3339}.
Context (rows : list ExposedMachine) (refresh : string -> Result MachineCapabilities RefreshFailure).
Context (req : PlacementRequest) (now : Z).

(** The machines the request may use: the one it names, or all, revoked ones
    apart. *)
Definition considered : list ExposedMachine :=
  match node_id (placement req) with
  | Some id =>
      List.filter (fun row => bool_decide (m_state row <> Revoked))
        (option_list (List.find (fun row => bool_decide (m_id row = id)) rows))
  | None => List.filter (fun row => bool_decide (m_state row <> Revoked)) rows
  end.

Definition needs_refresh (row : ExposedMachine) : bool :=
  maybe_matches row (placement req) && must_refresh row req now.

(** The row with the report it is judged on: its own when that will do, else the
    refreshed one, else its own again while the machine is only slow. *)
Definition judged (row : ExposedMachine) : option ExposedMachine :=
  if needs_refresh row then
    match refresh (m_id row) with
    | Ok caps => Some (with_report row caps)
    | Err FSlow => _ ← capabilities row; Some row
    | Err _ => None
    end
  else _ ← capabilities row; Some row.

(** Why a row that needed a refresh has no report to judge. *)
Definition refused (row : ExposedMachine) : option RefreshFailure :=
  if needs_refresh row then
    match refresh (m_id row) with
    | Ok _ => None
    | Err FSlow => match capabilities row with Some _ => None | None => Some FSlow end
    | Err f => Some f
    end
  else None.

(** Judged on an old report because the machine was slow. *)
Definition was_slow (row : ExposedMachine) : bool :=
  needs_refresh row
  && match refresh (m_id row), capabilities row with Err FSlow, Some _ => true | _, _ => false end.

Definition matching (row : ExposedMachine) : bool :=
  is_some_and (m_platform row) (matches_platform (placement req)).

Definition fits_request (row : ExposedMachine) : bool := matching row && offers row req.

Definition eligible (row : ExposedMachine) : bool :=
  fits_request row && bool_decide (capacity_refusal row = None).

Definition judgements : list ExposedMachine := omap judged considered.

Definition refusals : list (ExposedMachine * RefreshFailure) :=
  omap (fun row => f ← refused row; Some (row, f)) considered.

(** The situation each refusal reports. *)
Definition explains (e : SelectError) : Prop :=
  match e with
  | EModelUnavailable u =>
      (exists row, row ∈ judgements /\ matching row = true) /\
      (forall row, row ∈ judgements -> fits_request row = false) /\
      mm_node_id <$> mu_machines u = m_id <$> List.filter matching judgements /\
      Forall (fun m => len (mm_models m) <= MODEL_UNAVAILABLE_MAX_MODELS) (mu_machines u) /\
      (mu_retryable u = true <->
         refusals <> [] \/
         (exists row, row ∈ considered /\ was_slow row = true) \/
         exists row p, row ∈ judgements /\ matching row = true /\
           provider_of row (provider req) = Some p /\ models_stale p = true)
  | EUpdateRequired u =>
      (forall row, row ∈ judgements -> matching row = false) /\
      (exists row, (row, FUpdateRequired u) ∈ refusals) /\
      forall row f, (row, f) ∈ refusals -> is_unreachable f = false
  | EUnavailable f =>
      requested f = placement req /\
      match reason f with
      | NoCapacity =>
          (exists row, row ∈ judgements /\ fits_request row = true) /\
          (forall row, row ∈ judgements -> fits_request row = true ->
             exists limit, capacity_refusal row = Some limit /\
               ((machine f = Some (machine_ref row) /\ capacity_limit f = Some limit) \/
                mkMachineRefusal (m_id row) limit ∈ full_machines f))
      | MachineUnknown =>
          exists id, node_id (placement req) = Some id /\ forall row, row ∈ rows -> m_id row <> id
      | MachineRevoked =>
          (considered = [] /\ exists row, row ∈ rows /\ m_state row = Revoked) \/
          (forall row, row ∈ judgements -> matching row = false) /\
          (exists row, (row, FRevoked) ∈ refusals) /\
          forall row g, (row, g) ∈ refusals -> g = FRevoked
      | MachineUnreachable =>
          (forall row, row ∈ judgements -> matching row = false) /\
          exists row g, (row, g) ∈ refusals /\ is_unreachable g = true
      | UnsupportedPlatform =>
          (forall row, row ∈ judgements -> matching row = false) /\ refusals = []
      end
  end.

(** *** The refresh loop *)

Lemma refresh_row_spec acc row :
  refresh_row req now refresh acc row =
  mkRefreshed (reported acc ++ option_list (judged row))%list
    (failed acc ++ option_list (f ← refused row; Some (row, f)))%list
    (slow acc || was_slow row).
Proof.
  unfold refresh_row, judged, refused, was_slow. fold (needs_refresh row).
  destruct (needs_refresh row); [destruct (refresh (m_id row)) as [caps|[]]|];
    unfold keep_reported; destruct (capabilities row) eqn:E, acc;
    simpl; rewrite ?app_nil_r, ?orb_false_r, ?orb_true_r, ?E; done.
Qed.

Lemma refresh_all_spec :
  refresh_all req now refresh considered =
  mkRefreshed judgements refusals (existsb was_slow considered).
Proof.
  unfold refresh_all, judgements, refusals.
  enough (forall l acc, foldl (refresh_row req now refresh) acc l =
    mkRefreshed (reported acc ++ omap judged l)%list
      (failed acc ++ omap (fun row => f ← refused row; Some (row, f)) l)%list
      (slow acc || existsb was_slow l)) as H by apply H.
  induction l as [|row l IH]; intros acc; csimpl.
  { destruct acc. simpl. by rewrite !app_nil_r, orb_false_r. }
  rewrite IH, refresh_row_spec. simpl. rewrite orb_assoc. f_equal.
  - destruct (judged row); simpl; by rewrite <- app_assoc.
  - destruct (refused row); simpl; by rewrite <- app_assoc.
Qed.

(** *** The candidates *)

Lemma candidates_spec observed :
  match candidates rows (placement req) observed with
  | Ok l => l = considered
  | Err e => considered = [] /\ explains e
  end.
Proof.
  unfold candidates, explains, judgements, refusals, considered. destruct (node_id (placement req)) as [id|] eqn:En.
  - destruct (List.find _ rows) as [row|] eqn:Ef; simpl.
    + apply find_some in Ef as [Hin _]. apply list_elem_of_In in Hin.
      case_bool_decide as Hr; [|by rewrite bool_decide_true].
      rewrite bool_decide_false by auto. naive_solver.
    + split; [done|]. split; [done|]. exists id. split; [done|]. intros row Hin Hid.
      apply list_elem_of_In in Hin. by eapply find_none, bool_decide_eq_false in Ef.
  - destruct (List.filter _ rows) as [|row l] eqn:Ef; [|done]. split; [done|].
    destruct rows as [|row l]; simpl.
    { split; [done|]. split; [|done]. by intros ? ?%not_elem_of_nil. }
    split; [done|]. left. split; [done|]. exists row. split; [by left|].
    simpl in Ef. by case_bool_decide.
Qed.

(** *** The decision *)

Lemma filter_nil_iff {A} (f : A -> bool) l :
  List.filter f l = [] <-> forall x, x ∈ l -> f x = false.
Proof.
  induction l as [|x l IH]; simpl; [set_solver|]. destruct (f x) eqn:E; [|set_solver].
  split; [done|]. intros H. rewrite (H x) in E by (by left). done.
Qed.

Lemma filter_fuse {A} (f g : A -> bool) l :
  List.filter g (List.filter f l) = List.filter (fun x => f x && g x) l.
Proof.
  induction l as [|x l IH]; simpl; [done|]. destruct (f x); simpl; [|done].
  destruct (g x); by rewrite IH.
Qed.

Lemma elem_of_filter_bool {A} (f : A -> bool) l x : x ∈ List.filter f l <-> x ∈ l /\ f x = true.
Proof. by rewrite !list_elem_of_In, filter_In. Qed.

Lemma filter_some {A} (f : A -> bool) l : List.filter f l <> [] -> exists x, x ∈ l /\ f x = true.
Proof.
  destruct (List.filter f l) as [|x k] eqn:E; [done|]. intros _. exists x.
  apply elem_of_filter_bool. rewrite E. by left.
Qed.

Lemma find_update_spec l :
  match find_update l with
  | Some u => exists row, (row, FUpdateRequired u) ∈ l
  | None => forall row u, (row, FUpdateRequired u) ∉ l
  end.
Proof.
  induction l as [|[row []] l IH]; simpl.
  { intros ???%not_elem_of_nil. done. }
  all: destruct (find_update l); setoid_rewrite elem_of_cons; naive_solver.
Qed.

Lemma find_failed (q : RefreshFailure -> bool) l :
  match List.find (fun f : ExposedMachine * RefreshFailure => q f.2) l with
  | Some (row, f) => (row, f) ∈ l /\ q f = true
  | None => forall row f, (row, f) ∈ l -> q f = false
  end.
Proof.
  destruct (List.find _ l) as [[row f]|] eqn:E.
  - apply find_some in E as [Hin Hq]. by apply list_elem_of_In in Hin.
  - intros row f Hin. apply list_elem_of_In in Hin. by apply (find_none _ _ E) in Hin.
Qed.

Lemma no_platform_spec named av :
  (forall row, row ∈ judgements -> matching row = false) ->
  explains (no_platform (placement req) named refusals av).
Proof.
  intros Hm. unfold no_platform.
  pose proof (find_failed is_unreachable refusals) as Hu.
  destruct (List.find (fun f => is_unreachable f.2) refusals) as [[row f]|].
  { destruct named; simpl; naive_solver. }
  pose proof (find_update_spec refusals) as Hup.
  destruct (find_update refusals) as [u|]; [done|].
  pose proof (find_failed is_revoked refusals) as Hr.
  assert (forall row f, (row, f) ∈ refusals -> f = FRevoked) as Hall.
  { intros row [] Hin; [by apply Hu in Hin|done|by apply Hup in Hin|by apply Hu in Hin]. }
  destruct (List.find (fun f => is_revoked f.2) refusals) as [[row f]|].
  - destruct Hr as [Hin Hf]. rewrite (Hall _ _ Hin) in Hin.
    destruct named; simpl; (split; [done|]; right; naive_solver).
  - assert (refusals = []) as Hnil.
    { destruct refusals as [|[row f] l]; [done|].
      pose proof (Hall row f ltac:(by left)). pose proof (Hr row f ltac:(by left)). by subst. }
    destruct named; simpl; done.
Qed.

Lemma no_capacity_spec av :
  let offering := List.filter fits_request judgements in
  offering <> [] ->
  (forall row, row ∈ judgements -> eligible row = false) ->
  explains (EUnavailable (no_capacity (placement req)
    (omap (fun row => refusal ← capacity_refusal row; Some (row, refusal)) offering) av)).
Proof.
  intros offering Hne Hfull.
  assert (forall row, row ∈ judgements -> fits_request row = true ->
    exists limit, capacity_refusal row = Some limit) as Hlim.
  { intros row Hin Hfit. specialize (Hfull row Hin). unfold eligible in Hfull.
    rewrite Hfit in Hfull. apply bool_decide_eq_false in Hfull.
    destruct (capacity_refusal row); [eauto|done]. }
  assert (forall row limit, row ∈ judgements -> fits_request row = true ->
    capacity_refusal row = Some limit ->
    (row, limit) ∈ omap (fun row => refusal ← capacity_refusal row; Some (row, refusal)) offering) as Hin.
  { intros row limit Hr Hf Hl. apply list_elem_of_omap. exists row. split; [|by rewrite Hl].
    by apply elem_of_filter_bool. }
  destruct (filter_some _ _ Hne) as (row0 & Hr0 & Hf0).
  unfold no_capacity. set (l := omap _ offering) in *.
  destruct l as [|[row1 limit1] [|x l']] eqn:El; simpl.
  - destruct (Hlim row0 Hr0 Hf0) as [limit Hl]. by eapply not_elem_of_nil in Hin.
  - split; [done|]. split; [by exists row0|]. intros row Hr Hf.
    destruct (Hlim row Hr Hf) as [limit Hl]. exists limit. split; [done|]. left.
    specialize (Hin row limit Hr Hf Hl). apply list_elem_of_singleton in Hin as [= -> ->]. done.
  - split; [done|]. split; [by exists row0|]. intros row Hr Hf.
    destruct (Hlim row Hr Hf) as [limit Hl]. exists limit. split; [done|]. right.
    exact (list_elem_of_fmap_2 (fun '(row, refusal) => mkMachineRefusal (m_id row) refusal)
             _ _ (Hin row limit Hr Hf Hl)).
Qed.

Lemma models_listed l :
  (forall row, row ∈ l -> matching row = true) ->
  let machines := mu_machines (new_model_unavailable (provider req) (default EmptyString (model req))
    (omap (fun row => machine_models row (provider req)) l) false) in
  mm_node_id <$> machines = m_id <$> l /\
  Forall (fun m => len (mm_models m) <= MODEL_UNAVAILABLE_MAX_MODELS) machines.
Proof.
  intros Hl. simpl. split.
  - induction l as [|row l IH]; [done|]. csimpl.
    assert (is_Some (m_platform row)) as [p Hp].
    { pose proof (Hl row ltac:(by left)) as H. unfold matching in H.
      destruct (m_platform row); [eauto|done]. }
    unfold machine_models at 1. rewrite Hp. csimpl. f_equal. apply IH.
    intros row' Hr. apply Hl. by right.
  - apply Forall_fmap, Forall_true. intros m. simpl. rewrite len_ztake.
    unfold MODEL_UNAVAILABLE_MAX_MODELS. lia.
Qed.

Lemma decide_rows_spec observed :
  match decide_rows req observed (mkRefreshed judgements refusals (existsb was_slow considered)) with
  | Ok l => l <> [] /\ l = sort_by rank_leb (List.filter eligible judgements)
  | Err e => List.filter eligible judgements = [] /\ explains e
  end.
Proof.
  unfold decide_rows. cbn [reported failed slow].
  change (fun row => is_some_and (m_platform row) (matches_platform (placement req))) with matching.
  assert (List.filter (fun row => offers row req) (List.filter matching judgements) =
    List.filter fits_request judgements) as -> by by rewrite filter_fuse.
  assert (List.filter (fun row => bool_decide (capacity_refusal row = None))
    (List.filter fits_request judgements) = List.filter eligible judgements) as ->
    by by rewrite filter_fuse.
  assert (forall row, eligible row = true -> fits_request row = true) as Hfits.
  { intros row. unfold eligible. intros H. by apply andb_true_iff in H as [? _]. }
  destruct (List.filter matching judgements) as [|m ms] eqn:Em.
  { rewrite filter_nil_iff in Em. split; [|by apply no_platform_spec].
    apply filter_nil_iff. intros row Hr. unfold eligible, fits_request. by rewrite Em. }
  destruct (List.filter fits_request judgements) as [|o os] eqn:Eo.
  { rewrite filter_nil_iff in Eo. split.
    { apply filter_nil_iff. intros row Hr. unfold eligible. by rewrite Eo. }
    assert (forall row, row ∈ m :: ms <-> row ∈ judgements /\ matching row = true) as Hms.
    { intros row. by rewrite <- Em, elem_of_filter_bool. }
    destruct (models_listed (m :: ms)) as [Hids Hlen]; [naive_solver|].
    split; [exists m; by apply Hms; left|]. split; [done|].
    rewrite Em. split; [exact Hids|]. split; [exact Hlen|].
    cbn [mu_retryable new_model_unavailable].
    rewrite !orb_true_iff, negb_true_iff, bool_decide_eq_false, !existsb_exists.
    setoid_rewrite <- list_elem_of_In. setoid_rewrite Hms.
    split.
    - intros [[(row & ? & ?)|?]|(row & [? ?] & Hs)]; [eauto|eauto|].
      destruct (provider_of row (provider req)) as [p|] eqn:Ep; [|done]. naive_solver.
    - intros [?|[(row & ? & ?)|(row & p & ? & ? & Ep & ?)]]; [eauto|eauto|].
      right. exists row. by rewrite Ep. }
  destruct (List.filter eligible judgements) as [|f fs] eqn:Ef.
  { split; [done|]. rewrite <- Eo. apply no_capacity_spec; [by rewrite Eo|]. by apply filter_nil_iff. }
  split; [|done]. intros Hnil. pose proof (sort_by_perm rank_leb (f :: fs)) as Hp.
  rewrite Hnil in Hp. by apply Permutation_nil in Hp.
Qed.

Lemma rank_leb_total a b : rank_leb a b = false -> rank_leb b a = true.
Proof.
  unfold rank_leb. destruct (Z.ltb_spec (running_of a) (running_of b)); [done|]. simpl.
  destruct (Z.eqb_spec (running_of a) (running_of b)) as [->|]; simpl.
  - rewrite Z.ltb_irrefl, Z.eqb_refl. simpl. destruct (used_at a), (used_at b); simpl; try done. lia.
  - intros _. by solve_tests.
Qed.

Lemma rank_leb_trans a b c : rank_leb a b = true -> rank_leb b c = true -> rank_leb a c = true.
Proof.
  unfold rank_leb. rewrite !orb_true_iff, !andb_true_iff, !Z.ltb_lt, !Z.eqb_eq.
  assert (opt_leb (used_at b) (used_at a) = true -> opt_leb (used_at c) (used_at b) = true ->
    opt_leb (used_at c) (used_at a) = true).
  { destruct (used_at a), (used_at b), (used_at c); simpl; try done. lia. }
  intros [|[??]] [|[??]]; [left; lia..|]. right. split; [lia|auto].
Qed.
End promise.


(** A switch on a machine follows the same rules, on the machine's own report. *)
Lemma check_switch_spec `{Rfc3339} rows id req now :
  match check_switch_on_machine rows id req now with
  | Ok _ => exists row, List.find (fun row => bool_decide (m_id row = id)) rows = Some row /\
      m_state row <> Revoked /\ offers row req = true
  | Err (EModelUnavailable _) =>
      exists row, List.find (fun row => bool_decide (m_id row = id)) rows = Some row /\
        m_state row <> Revoked /\ offers row req = false
  | Err (EUnavailable f) =>
      (reason f = MachineUnknown /\ forall row, row ∈ rows -> m_id row <> id) \/
      (reason f = MachineRevoked /\ exists row, row ∈ rows /\ m_id row = id /\ m_state row = Revoked)
  | Err (EUpdateRequired _) => False
  end.
Proof.
  unfold check_switch_on_machine. destruct (List.find _ rows) as [row|] eqn:Ef.
  - pose proof (find_some _ _ Ef) as [Hin Hid]. apply list_elem_of_In in Hin.
    rewrite bool_decide_eq_true in Hid.
    case_bool_decide; [right; naive_solver|]. destruct (offers row req) eqn:Eo; eauto.
  - left. split; [done|]. intros row Hin Hid. apply list_elem_of_In in Hin.
    by eapply find_none, bool_decide_eq_false in Ef.
Qed.

(** *** Model aliases *)

Lemma elem_of_windows {A} (w l : list A) :
  w <> [] -> w ∈ windows (length w) l <-> exists a b, l = (a ++ w ++ b)%list.
Proof.
  intros Hw. assert (0 < length w)%nat as Hpos by (destruct w; simpl; [done|lia]).
  induction l as [|x l IH].
  { split; [by intros ?%not_elem_of_nil|]. intros (a & b & E).
    apply (f_equal length) in E. rewrite !length_app in E. simpl in E. lia. }
  cbn [windows]. destruct (Nat.leb_spec (length w) (length (x :: l))) as [Hle|Hlt].
  - rewrite elem_of_cons, IH. split.
    + intros [E|(a & b & ->)]; [|by exists (x :: a), b].
      exists [], (drop (length w) (x :: l)). simpl app at 1. rewrite E at 1. by rewrite take_drop.
    + intros ([|y a] & b & E).
      * left. simpl in E. rewrite E. by rewrite take_app_length.
      * right. injection E as -> E. eauto.
  - split; [by intros ?%not_elem_of_nil|]. intros (a & b & E).
    apply (f_equal length) in E. rewrite !length_app in E. lia.
Qed.

(** A requested name stands for a listed model exactly when they are equal but
    for case or the words of the one follow each other in the other. *)
Lemma model_listed_spec listed requested :
  model_listed listed requested = true <->
  lower (String.list_ascii_of_string listed) = lower (String.list_ascii_of_string requested) \/
  (words requested <> [] /\ exists a b, words listed = a ++ words requested ++ b)%list.
Proof.
  unfold model_listed, eq_ignore_ascii_case. case_bool_decide as E; [naive_solver|].
  rewrite andb_true_iff, negb_true_iff, bool_decide_eq_false, existsb_exists.
  setoid_rewrite <- list_elem_of_In. setoid_rewrite bool_decide_eq_true. split.
  - intros (Hne & w & Hw & ->). right. split; [done|]. by apply elem_of_windows.
  - intros [?|[Hne Hw]]; [done|]. split; [done|]. eexists. split; [|done]. by apply elem_of_windows.
Qed.

(** ** The discovery text is bounded *)

Lemma sapp_nil_r s : s ++ EmptyString = s.
Proof. induction s as [|c s IH]; [done|]. exact (f_equal (String c) IH). Qed.

(** The lines shown for the first machines. *)
Definition shown_lines (connected : string -> bool) (rows : list ExposedMachine) : string :=
  foldr (fun row text => help_line row (connected (m_id row)) ++ text) EmptyString rows.

Lemma shown_lines_cons connected row rows :
  shown_lines connected (row :: rows) = help_line row (connected (m_id row)) ++ shown_lines connected rows.
Proof. done. Qed.

Lemma help_lines_spec connected rows lines shown :
  0 <= shown <= HELP_MAX_MACHINES -> slen lines <= HELP_MAX_BYTES ->
  exists n, help_lines connected lines shown rows = (lines ++ shown_lines connected (take n rows), shown + Z.of_nat n) /\
    (n <= length rows)%nat /\ shown + Z.of_nat n <= HELP_MAX_MACHINES /\
    slen (lines ++ shown_lines connected (take n rows)) <= HELP_MAX_BYTES /\
    (n = length rows \/ shown + Z.of_nat n = HELP_MAX_MACHINES \/
     HELP_MAX_BYTES < slen (lines ++ shown_lines connected (take (S n) rows))).
Proof.
  revert lines shown. induction rows as [|row rest IH]; intros lines shown Hs Hb.
  { exists 0%nat. simpl. rewrite sapp_nil_r, Z.add_0_r. repeat split; auto; lia. }
  cbn [help_lines]. set (line := help_line row (connected (m_id row))).
  destruct (orb _ _) eqn:E.
  - exists 0%nat. simpl. rewrite !sapp_nil_r, Z.add_0_r.
    split_and!; [done|lia|lia|done|]. right.
    apply orb_true_iff in E as [E|E]; case_tests; [by left|]. right.
    rewrite slen_app. fold line. lia.
  - case_tests.
    destruct (IH (lines ++ line) (shown + 1)) as (n & -> & Hn & Hm & Hl & Hmax);
      [lia|rewrite slen_app; lia|].
    exists (S n). change (take (S n) (row :: rest)) with (row :: take n rest).
    rewrite shown_lines_cons. fold line. rewrite !sapp_assoc.
    split_and!; [f_equal; lia|simpl; lia|lia|done|].
    destruct Hmax as [-> | [?|?]]; [by left|right; left; lia|right; right].
    change (take (S (S n)) (row :: rest)) with (row :: take (S n) rest).
    rewrite shown_lines_cons. fold line. by rewrite sapp_assoc.
Qed.

(** The discovery text is bounded and maximal.  With no machine left but
    revoked ones there is none.  Otherwise it has one line for each of the first
    machines that are not revoked, at most eight lines of together at most 4096
    bytes, stopping early only where the next line would exceed one of the two;
    it counts all of those machines and, when some are left out, how many. *)
Theorem discovery_text_bounded machines connected :
  let listed := List.filter (fun row => bool_decide (m_state row <> Revoked)) machines in
  match exposed_machines_help machines connected with
  | None => listed = []
  | Some text =>
      exists n, (n <= length listed)%nat /\ (n <= 8)%nat /\
        slen (shown_lines connected (take n listed)) <= HELP_MAX_BYTES /\
        (n = length listed \/ n = 8%nat \/
         HELP_MAX_BYTES < slen (shown_lines connected (take (S n) listed))) /\
        text = "Remote placement (experimental): machines exposed to this backend ("
          ++ num (len listed) ++ "):" ++ newline ++ shown_lines connected (take n listed)
          ++ (if bool_decide (n = length listed) then EmptyString
              else "- … " ++ num (len listed - Z.of_nat n)
                ++ " more not shown; a `model-unavailable` error lists every machine's models." ++ newline)
          ++ help_closing
  end.
Proof.
  intros listed. unfold exposed_machines_help. fold listed.
  destruct listed as [|row l] eqn:El; [done|]. rewrite <- El. generalize help_closing as closing. intros closing.
  destruct (help_lines_spec connected listed EmptyString 0) as (n & -> & Hn & Hm & Hl & Hmax);
    [unfold HELP_MAX_MACHINES; lia|unfold HELP_MAX_BYTES, slen; simpl; lia|].
  unfold HELP_MAX_MACHINES in *. exists n. simpl in Hl, Hmax.
  split_and!; [done|lia|done|destruct Hmax as [?|[?|?]]; auto; right; left; lia|].
  rewrite Z.add_0_l. case_bool_decide as D.
  - unfold len at 1. rewrite D, Z.ltb_irrefl. by rewrite !sapp_assoc, !sapp_nil_r.
  - assert (Z.of_nat n < len listed) by (unfold len; lia). solve_tests.
    by rewrite !sapp_assoc, !sapp_nil_r.
Qed.

(** A run: a named platform, one machine full, one on a stale report that the
    refresh brings up to date, one busy and one idle. *)
Definition decimal_time : Rfc3339 :=
  {| parse_rfc3339 s := Z.of_N <$> dec_parse u64_max s; format_rfc3339 z := Some (num z) |}.

Definition example_report (running : Z) (at_ : string) : MachineCapabilities :=
  mkCapabilities (mkPlatform Linux X86_64) "1.0" (mkCapacity running 4 0 None)
    [mkProvider "codex" true SignedIn ["gpt-5-codex"] false] [] at_.

Definition example_row (id : string) (running : Z) (at_ : string) : ExposedMachine :=
  mkMachine id id (Some (mkPlatform Linux X86_64)) (Some (example_report running at_)) (Some at_) Disconnected None.

Example selection_run :
  let hour := "3600000000001" in
  let rows := [example_row "full" 4 hour; example_row "old" 0 "0"; example_row "busy" 2 hour; example_row "idle" 0 hour] in
  let refresh id := if bool_decide (id = "old") then Ok (example_report 1 hour) else Err FUnreachable in
  let req := mkRequest (mkPlacement (Some Remote) None (Some Linux) None None None None) "codex" (Some "GPT-5") false in
  match select_machines (TIME := decimal_time) rows refresh req 3600000000001 with
  | Ok chosen => m_id <$> chosen = ["idle"; "old"; "busy"]
  | Err _ => False
  end.
Proof. vm_compute. reflexivity. Qed.
