(* ===== verification/AgentLocks.v ===== *)
(** * Agent locks ([crates/intent-services/src/agent_locks.rs])

    Which agents' files a user must not stage or revert, computed from the tracked
    changes, the agents' sessions and the git status, and the loop that publishes a
    workspace's locks when they change.  What the store, git and the settings answer
    are arguments. *)
From stdpp Require Import prelude strings gmap sorting.
From S2P Require Import Prelude.
From S2P Require Import Json.

(** ** The snapshot *)

Record AgentLockSnapshot := mkSnapshot {
  auto_commit_enabled : bool;
  locked_agent_ids : list string;
  locked_file_paths : list string }.

#[global] Instance AgentLockSnapshot_eq_dec : EqDecision AgentLockSnapshot.
Proof. solve_decision. Defined.

Definition to_result_value (s : AgentLockSnapshot) : json :=
  JObject [("autoCommitEnabled", JBool (auto_commit_enabled s));
           ("lockedAgentIds", JArray (JString <$> locked_agent_ids s));
           ("lockedFilePaths", JArray (JString <$> locked_file_paths s))].

Inductive AgentStatus :=
| Pending | Active | RuntimeIdle | Error | Deleted | Idle | Waiting | Completed | Processing.

#[global] Instance AgentStatus_eq_dec : EqDecision AgentStatus.
Proof. solve_decision. Defined.

Definition is_running_turn (s : AgentStatus) : bool :=
  match s with Pending | Active | Processing => true | _ => false end.

Inductive TaskStatus :=
| NotStarted | TaskWaiting | DiscussionNeeded | Blocked | InProgress | ReviewRequired | Complete | Cancelled.

Record AgentSession := mkSession {
  a_id : string;
  a_retired : bool;
  a_status : AgentStatus;
  task_note_id : option string;
  sandbox_path : option string }.

Record TrackedChange := mkChange {
  c_stage : string;
  c_agent_id : option string;
  c_path : string }.

(** What the rest of the daemon answers while a snapshot is computed.  A note is
    there with its task's status, if it is a task; a failed read is [None]. *)
Record Answers (Status : Type) := mkAnswers {
  workspace_auto_commit : option (option bool);
  global_auto_commit : bool;
  tracked_changes : option (list TrackedChange);
  sessions : option (list AgentSession);
  get_note : string -> option (option TaskStatus);
  workspace : option (bool * option string);
  git_status : string -> option Status;
  git_lockable : string -> Status -> list string -> option (gset string) }.
Arguments mkAnswers {Status}.
Arguments workspace_auto_commit {Status}.
Arguments global_auto_commit {Status}.
Arguments tracked_changes {Status}.
Arguments sessions {Status}.
Arguments get_note {Status}.
Arguments workspace {Status}.
Arguments git_status {Status}.
Arguments git_lockable {Status}.

Section locks.
Context {Status : Type}.
Implicit Types a : Answers Status.

Definition effective_auto_commit (a : Answers Status) : bool :=
  match workspace_auto_commit a with
  | Some (Some enabled) => enabled
  | _ => global_auto_commit a
  end.

Definition is_actively_working (a : Answers Status) (session : AgentSession) : bool :=
  if a_retired session || bool_decide (a_status session = Deleted) then false
  else if is_running_turn (a_status session) then true
  else
    match task_note_id session with
    | None => false
    | Some note_id =>
        match get_note a note_id with
        | Some (Some (Complete | Cancelled)) => false
        | Some (Some _) => true
        | Some None | None => false
        end
    end.

(** A [BTreeSet] read out in order. *)
Definition in_order (X : gset string) : list string := sort_by str_leb (elements X).

(** Working-stage rows by owning agent. *)
Definition add_change (m : gmap string (gset string)) (row : TrackedChange) : gmap string (gset string) :=
  if bool_decide (c_stage row <> "unstaged") && bool_decide (c_stage row <> "staged") then m
  else
    match c_agent_id row with
    | None => m
    | Some agent => <[agent := {[c_path row]} ∪ default ∅ (m !! agent)]> m
    end.

Definition paths_by_agent (rows : list TrackedChange) : gmap string (gset string) :=
  foldl add_change ∅ rows.

(** A [HashMap] collected from pairs: the last of a key stays. *)
Definition by_id (l : list AgentSession) : gmap string AgentSession :=
  foldl (fun m s => <[a_id s := s]> m) ∅ l.

Definition is_active (a : Answers Status) (ids : gmap string AgentSession) (agent : string) : bool :=
  match ids !! agent with Some s => is_actively_working a s | None => false end.

Definition active_agents (a : Answers Status) (ids : gmap string AgentSession) (m : gmap string (gset string)) :
    gmap string (gset string) :=
  filter (fun kv => is_active a ids kv.1 = true) m.

(** Without a sandbox of its own, so that the worktree's status can judge it. *)
Definition is_judged (ids : gmap string AgentSession) (agent : string) : bool :=
  match ids !! agent with Some s => bool_decide (sandbox_path s = None) | None => false end.

(** [Services::lockable_paths]. *)
Definition lockable_paths (a : Answers Status) (judged : gmap string (gset string)) : option (gset string) :=
  if bool_decide (judged = ∅) then None
  else
    ws ← workspace a;
    if ws.1 : bool then None
    else
      worktree ← ws.2;
      status ← git_status a worktree;
      git_lockable a worktree status (in_order (⋃ (map_to_list judged).*2)).

(** The loop's body: the paths an agent keeps. *)
Definition kept_paths (lockable : option (gset string)) (ids : gmap string AgentSession) (agent : string)
    (paths : gset string) : gset string :=
  match lockable with
  | Some l => if is_judged ids agent then paths ∩ l else paths
  | None => paths
  end.

Definition compute_agent_locks (a : Answers Status) : AgentLockSnapshot :=
  let enabled := effective_auto_commit a in
  let empty := mkSnapshot enabled [] [] in
  if negb enabled then empty
  else
    match tracked_changes a with
    | None => empty
    | Some rows =>
        let paths := paths_by_agent rows in
        if bool_decide (paths = ∅) then empty
        else
          match sessions a with
          | None => empty
          | Some l =>
              let ids := by_id l in
              let active := active_agents a ids paths in
              let judged := filter (fun kv => is_judged ids kv.1 = true) active in
              let lockable := lockable_paths a judged in
              let kept := filter (fun kv => kv.2 <> ∅) (map_imap (fun k p => Some (kept_paths lockable ids k p)) active) in
              mkSnapshot enabled (in_order (dom kept)) (in_order (⋃ (map_to_list kept).*2))
          end
    end.

(** ** What the locks are *)

(** A row that locks. *)
Definition works_on (row : TrackedChange) (agent path : string) : Prop :=
  (c_stage row = "unstaged" \/ c_stage row = "staged") /\ c_agent_id row = Some agent /\ c_path row = path.

(** The agent works on the file and a user could stage it. *)
Definition locks (a : Answers Status) (agent path : string) : Prop :=
  effective_auto_commit a = true /\
  exists rows l, tracked_changes a = Some rows /\ sessions a = Some l /\
    (exists row, row ∈ rows /\ works_on row agent path) /\
    (exists session, by_id l !! agent = Some session /\ is_actively_working a session = true /\
       (sandbox_path session = None ->
        forall ok, lockable_paths a (filter (fun kv => is_judged (by_id l) kv.1 = true)
                                       (active_agents a (by_id l) (paths_by_agent rows))) = Some ok -> path ∈ ok)).

Lemma elem_of_in_order X x : x ∈ in_order X <-> x ∈ X.
Proof. unfold in_order. by rewrite sort_by_perm, elem_of_elements. Qed.

Lemma in_order_sorted X : StronglySorted str_leb (in_order X) /\ NoDup (in_order X).
Proof.
  unfold in_order. split; [apply sort_by_sorted; [apply str_leb_total|apply str_leb_trans]|].
  rewrite sort_by_perm. apply NoDup_elements.
Qed.

Definition files (m : gmap string (gset string)) (agent : string) : gset string := default ∅ (m !! agent).

Lemma files_add_change m row agent path :
  path ∈ files (add_change m row) agent <-> path ∈ files m agent \/ works_on row agent path.
Proof.
  unfold add_change, works_on. destruct (bool_decide (c_stage row <> "unstaged") && _) eqn:E.
  { apply andb_true_iff in E as [?%bool_decide_eq_true ?%bool_decide_eq_true]. naive_solver. }
  assert (c_stage row = "unstaged" \/ c_stage row = "staged") as Hst.
  { apply andb_false_iff in E as [E|E]; apply bool_decide_eq_false, dec_stable in E; auto. }
  destruct (c_agent_id row) as [ag|]; [|naive_solver].
  unfold files. destruct (decide (ag = agent)) as [->|Hne].
  - rewrite lookup_insert_eq. simpl. set_solver.
  - rewrite lookup_insert_ne by done. naive_solver.
Qed.

Lemma paths_by_agent_spec rows agent path :
  path ∈ files (paths_by_agent rows) agent <-> exists row, row ∈ rows /\ works_on row agent path.
Proof.
  unfold paths_by_agent. induction rows as [|row rows IH] using rev_ind.
  { unfold files. simpl. rewrite lookup_empty. set_solver. }
  rewrite foldl_snoc, files_add_change, IH. setoid_rewrite elem_of_app.
  setoid_rewrite list_elem_of_singleton. naive_solver.
Qed.

Lemma elem_of_values (m : gmap string (gset string)) path :
  path ∈ ⋃ (map_to_list m).*2 <-> exists agent X, m !! agent = Some X /\ path ∈ X.
Proof.
  rewrite elem_of_union_list. setoid_rewrite list_elem_of_fmap. split.
  - intros (X & ([k Y] & -> & Hk%elem_of_map_to_list) & Hp). eauto.
  - intros (k & X & Hk%elem_of_map_to_list & Hp). exists X. split; [|done]. by exists (k, X).
Qed.

(** The agents with the files they keep. *)
Lemma kept_spec a rows l agent path :
  effective_auto_commit a = true -> tracked_changes a = Some rows -> sessions a = Some l ->
  let active := active_agents a (by_id l) (paths_by_agent rows) in
  let lockable := lockable_paths a (filter (fun kv => is_judged (by_id l) kv.1 = true) active) in
  (exists X, map_imap (fun k p => Some (kept_paths lockable (by_id l) k p)) active !! agent = Some X /\ path ∈ X) <->
  locks a agent path.
Proof.
  intros He Hr Hl active lockable. unfold locks. rewrite He, Hr, Hl.
  trans (exists Y, active !! agent = Some Y /\ path ∈ kept_paths lockable (by_id l) agent Y).
  { setoid_rewrite map_lookup_imap. destruct (active !! agent); naive_solver. }
  trans (path ∈ files (paths_by_agent rows) agent /\ is_active a (by_id l) agent = true /\
         (is_judged (by_id l) agent = true -> forall ok, lockable = Some ok -> path ∈ ok)).
  { unfold active, active_agents, files, kept_paths. setoid_rewrite map_lookup_filter_Some.
    destruct (paths_by_agent rows !! agent) as [Y|]; simpl; [|set_solver].
    destruct lockable as [ok|], (is_judged (by_id l) agent); set_solver. }
  rewrite paths_by_agent_spec. unfold is_active, is_judged.
  destruct (by_id l !! agent) as [session|] eqn:Es; [|naive_solver].
  rewrite bool_decide_eq_true. unfold lockable, active. naive_solver.
Qed.

Lemma nothing_locked a b :
  (forall agent path, ~ locks a agent path) ->
  let s := mkSnapshot b [] [] in
  auto_commit_enabled s = b /\
  (forall agent, agent ∈ locked_agent_ids s <-> exists path, locks a agent path) /\
  (forall path, path ∈ locked_file_paths s <-> exists agent, locks a agent path) /\
  StronglySorted str_leb (locked_agent_ids s) /\ NoDup (locked_agent_ids s) /\
  StronglySorted str_leb (locked_file_paths s) /\ NoDup (locked_file_paths s).
Proof.
  intros Hn. split_and!; try done; try constructor; try by intros ?%not_elem_of_nil.
  - intros [path H]. by apply Hn in H.
  - intros [agent H]. by apply Hn in H.
Qed.

(** The locks are exactly what the rule says.  With automatic commits on, an
    agent is locked with a file when it owns a tracked change of it at the unstaged or
    staged stage, is actively working, and git would still stage the file (an agent in
    a sandbox, or a workspace whose status cannot be read, is not judged by git).  The
    snapshot lists exactly the agents that lock some file and the files some agent
    locks, each once and in order; with automatic commits off, or when the store does
    not answer, nothing is locked. *)
Theorem agent_locks_exact a :
  let s := compute_agent_locks a in
  auto_commit_enabled s = effective_auto_commit a /\
  (forall agent, agent ∈ locked_agent_ids s <-> exists path, locks a agent path) /\
  (forall path, path ∈ locked_file_paths s <-> exists agent, locks a agent path) /\
  StronglySorted str_leb (locked_agent_ids s) /\ NoDup (locked_agent_ids s) /\
  StronglySorted str_leb (locked_file_paths s) /\ NoDup (locked_file_paths s).
Proof.
  unfold compute_agent_locks. destruct (effective_auto_commit a) eqn:He; simpl negb; cbv iota.
  2: { apply nothing_locked. intros ag p [H _]. congruence. }
  destruct (tracked_changes a) as [rows|] eqn:Hr.
  2: { apply nothing_locked. intros ag p (_ & rows & l & H & _). congruence. }
  case_bool_decide as Hempty.
  { apply nothing_locked. intros ag p (_ & rows' & l & H & _ & Hrow & _).
    rewrite Hr in H. injection H as <-. apply paths_by_agent_spec in Hrow.
    unfold files in Hrow. rewrite Hempty, lookup_empty in Hrow. set_solver. }
  destruct (sessions a) as [l|] eqn:Hl.
  2: { apply nothing_locked. intros ag p (_ & rows' & l & _ & H & _). congruence. }
  pose proof (fun ag p => kept_spec a rows l ag p He Hr Hl) as Hk. cbv zeta in Hk.
  set (active := active_agents a (by_id l) (paths_by_agent rows)) in *.
  set (lockable := lockable_paths a _) in *. set (all := map_imap _ active) in *.
  cbn [locked_agent_ids locked_file_paths].
  split_and!; [done|..]; try apply in_order_sorted; intros x.
  - rewrite elem_of_in_order, elem_of_dom. unfold is_Some. setoid_rewrite map_lookup_filter_Some. simpl.
    setoid_rewrite <- Hk. split.
    + intros (X & HX & Hne). apply set_choose_L in Hne as [p Hp]. eauto.
    + intros (p & X & HX & Hp). exists X. split; [done|]. set_solver.
  - rewrite elem_of_in_order, elem_of_values. setoid_rewrite map_lookup_filter_Some. simpl.
    setoid_rewrite <- Hk. split; [naive_solver|]. intros (ag & X & HX & Hp). exists ag, X. set_solver.
Qed.
End locks.

(** ** The publishing loop *)

Definition WORKSPACE_UPDATED : string := "workspace:updated".
Definition SETTINGS_CHANGED : string := "settings:changed".

Record Event := mkEvent {
  event_type : string;
  workspace_id : string;
  event_data : json }.

(** [touched]: a settings change that names the automatic commit. *)
Definition touches_auto_commit (data : json) : bool :=
  match jget data "changes" ≫= as_array with
  | Some arr => existsb (fun ch => bool_decide ((jget ch "path" ≫= as_str) = Some "git.autoCommit")) arr
  | None => false
  end.

(** The workspaces an event makes dirty, and whether it makes all of them so. *)
Definition mark_dirty (acc : gset string * bool) (e : Event) : gset string * bool :=
  if bool_decide (event_type e = WORKSPACE_UPDATED) then
    match jget (event_data e) "changes" ≫= fun c => jget c "autoCommitEnabled" with
    | Some _ => ({[workspace_id e]} ∪ acc.1, acc.2)
    | None => acc
    end
  else if bool_decide (event_type e = SETTINGS_CHANGED) then
    (acc.1, touches_auto_commit (event_data e) || acc.2)
  else ({[workspace_id e]} ∪ acc.1, acc.2).

(** One delivery of the debounced subscription, with what the daemon answers while it
    is handled: the active workspaces, each workspace's snapshot and kind. *)
Record Batch := mkBatch {
  b_events : list Event;
  b_active : option (list string);
  b_snapshot : string -> AgentLockSnapshot;
  b_plain_folder : string -> bool }.

Definition dirty (b : Batch) : gset string :=
  let '(d, all) := foldl mark_dirty (∅, false) (b_events b) in
  if all : bool then match b_active b with Some l => list_to_set l ∪ d | None => d end else d.

(** The loop's baseline and the events it published. *)
Record Loop := mkLoop {
  last_seen : gmap string AgentLockSnapshot;
  published : list (string * AgentLockSnapshot) }.

(** [refresh_agent_locks] and the insertion that follows it. *)
Definition refresh (b : Batch) (s : Loop) (ws : string) : Loop :=
  if bool_decide (ws = EmptyString) then s
  else
    let snap := b_snapshot b ws in
    let publish := bool_decide (last_seen s !! ws <> Some snap) && negb (b_plain_folder b ws) in
    mkLoop (<[ws := snap]> (last_seen s)) (if publish then published s ++ [(ws, snap)] else published s).

Definition handle_batch (s : Loop) (b : Batch) : Loop := foldl (refresh b) s (in_order (dirty b)).

Definition run_loop : list Batch -> Loop := foldl handle_batch (mkLoop ∅ []).

(** *** What clients see *)

(** A workspace's published snapshots, in order. *)
Definition seen_by_clients (ws : string) (s : Loop) : list AgentLockSnapshot :=
  omap (fun e => if bool_decide (e.1 = ws) then Some e.2 else None) (published s).

(** The snapshot of the last batch that concerned the workspace. *)
Definition current (ws : string) (bs : list Batch) : option AgentLockSnapshot :=
  foldl (fun acc b => if bool_decide (ws ∈ dirty b /\ ws <> EmptyString) then Some (b_snapshot b ws) else acc) None bs.

Fixpoint no_repeat (l : list AgentLockSnapshot) : Prop :=
  match l with
  | x :: (y :: _) as l' => x <> y /\ no_repeat l'
  | _ => True
  end.

(** Publications of the workspace follow its baseline. *)
Record Faithful (ws : string) (s : Loop) : Prop := mkFaithful {
  fa_last : last (seen_by_clients ws s) = last_seen s !! ws;
  fa_change : no_repeat (seen_by_clients ws s) }.

Lemma no_repeat_snoc l x : no_repeat l -> last l <> Some x -> no_repeat (l ++ [x]).
Proof.
  induction l as [|y [|z l] IH]; intros Hl Hx; [done|simpl in *; naive_solver|].
  destruct Hl as [Hyz Hl]. split; [done|]. apply IH; [done|]. exact Hx.
Qed.

Lemma seen_snoc ws s ws' snap m :
  seen_by_clients ws (mkLoop m (published s ++ [(ws', snap)])) =
  seen_by_clients ws s ++ (if bool_decide (ws' = ws) then [snap] else []).
Proof. unfold seen_by_clients. simpl. rewrite omap_app. simpl. by case_bool_decide. Qed.

Lemma refresh_faithful b s ws ws' :
  b_plain_folder b ws = false -> Faithful ws s -> Faithful ws (refresh b s ws').
Proof.
  intros Hp [Hl Hc]. unfold refresh. case_bool_decide; [done|].
  destruct (decide (ws' = ws)) as [->|Hne].
  - rewrite Hp, andb_true_r. case_bool_decide as Hd.
    + split; rewrite seen_snoc, bool_decide_true by done; simpl.
      * by rewrite last_snoc, lookup_insert_eq.
      * apply no_repeat_snoc; [done|by rewrite Hl].
    + split; [|done]. simpl. rewrite lookup_insert_eq, <- Hd. exact Hl.
  - destruct (_ && _); split; rewrite ?seen_snoc, ?bool_decide_false, ?app_nil_r by done;
      simpl; rewrite ?lookup_insert_ne by done; done.
Qed.

Lemma refresh_last b s ws l :
  last_seen (foldl (refresh b) s l) !! ws =
  if bool_decide (ws ∈ l /\ ws <> EmptyString) then Some (b_snapshot b ws) else last_seen s !! ws.
Proof.
  revert s. induction l as [|x l IH]; intros s; cbn [foldl].
  { rewrite bool_decide_false; [done|]. intros [H _]. by apply not_elem_of_nil in H. }
  rewrite IH. destruct (decide (ws ∈ l /\ ws <> EmptyString)) as [H1|H1].
  { destruct H1. rewrite !bool_decide_true; [done| |done]. split; [by right|done]. }
  rewrite (bool_decide_false (ws ∈ l /\ _)) by done. unfold refresh.
  destruct (decide (ws = x /\ ws <> EmptyString)) as [[-> Hx]|H2].
  - rewrite (bool_decide_false (x = EmptyString)), (bool_decide_true (x ∈ x :: l /\ _)) by (try split; try left; done).
    simpl. by rewrite lookup_insert_eq.
  - rewrite (bool_decide_false (ws ∈ x :: l /\ _)) by (intros [[->|?]%elem_of_cons ?]; naive_solver).
    destruct (decide (x = EmptyString)) as [->|]; [by rewrite bool_decide_true|].
    rewrite (bool_decide_false (x = EmptyString)) by done. cbn [last_seen].
    apply lookup_insert_ne. naive_solver.
Qed.


(** A workspace's first snapshot, empty, is published; the same one again is not; a
    lock is. *)
Definition tick (snap : AgentLockSnapshot) : Batch :=
  mkBatch [mkEvent "agent:idle" "w" JNull] None (fun _ => snap) (fun _ => false).

Definition unlocked : AgentLockSnapshot := mkSnapshot true [] [].
Definition locked_one : AgentLockSnapshot := mkSnapshot true ["agent"] ["src/main.rs"].


(** A run of the computation: one file locked, one that git no longer lists, and a
    sandboxed agent's file, which git does not judge. *)
Example locks_of_three :
  let change agent path := mkChange "unstaged" (Some agent) path in
  let a := mkAnswers (Status := unit) (Some None) true
    (Some [change "b" "kept"; change "b" "gone"; change "a" "boxed"; mkChange "committed" (Some "c") "done"])
    (Some [mkSession "a" false Idle (Some "note") (Some "/box"); mkSession "b" false Processing None None;
           mkSession "c" false Active None None])
    (fun _ => Some (Some InProgress)) (Some (false, Some "/w")) (fun _ => Some tt)
    (fun _ _ l => Some (list_to_set (List.filter (fun p => bool_decide (p = "kept")) l))) in
  compute_agent_locks a = mkSnapshot true ["a"; "b"] ["boxed"; "kept"].
Proof. vm_compute. reflexivity. Qed.
