(* ===== verification/TrackedChanges.v ===== *)
(** * Tracked changes ([crates/intent-store/src/tracked_changes_repo.rs] and
      [crates/intent-services/src/file_tracking.rs])

    The table of who changed which file at which git stage: its statements, one
    definition each, the path normal form of its writer, and the lines a recording
    counts.  The table is the list of its rows in the order of insertion.  Paths are
    strings of UTF-8 bytes; the characters that matter to a path are ASCII. *)
From stdpp Require Import prelude strings.
From S2P Require Import Prelude.
From S2P Require Import Json.

(** ** Paths *)

Definition slash : Ascii.ascii := Ascii.ascii_of_N 47.
Definition backslash : Ascii.ascii := Ascii.ascii_of_N 92.
Definition dot : Ascii.ascii := Ascii.ascii_of_N 46.

Abbreviation chars := String.list_ascii_of_string.
Abbreviation text := String.string_of_list_ascii.

(** [str::trim_start_matches] and [trim_end_matches] of one character. *)
Fixpoint trim_start (c : Ascii.ascii) (l : list Ascii.ascii) : list Ascii.ascii :=
  match l with
  | x :: l' => if bool_decide (x = c) then trim_start c l' else l
  | [] => []
  end.

Definition trim_end (c : Ascii.ascii) (l : list Ascii.ascii) : list Ascii.ascii :=
  reverse (trim_start c (reverse l)).

(** The loop of [normalize_path]: a slash after a slash is not pushed. *)
Fixpoint collapse (prev_slash : bool) (l : list Ascii.ascii) : list Ascii.ascii :=
  match l with
  | [] => []
  | ch :: l' =>
      if bool_decide (ch = slash) then
        (if prev_slash then [] else [slash]) ++ collapse true l'
      else ch :: collapse false l'
  end.

Definition unify (l : list Ascii.ascii) : list Ascii.ascii :=
  (fun c => if bool_decide (c = backslash) then slash else c) <$> l.

Definition strip_dot (l : list Ascii.ascii) : list Ascii.ascii :=
  match l with
  | a :: b :: l' => if bool_decide (a = dot) && bool_decide (b = slash) then l' else l
  | _ => l
  end.

Definition normalize_path (path : string) : string :=
  if bool_decide (path = EmptyString) then EmptyString
  else text (strip_dot (trim_end slash (trim_start slash (collapse false (unify (chars path)))))).

(** ** The table *)

Record NewTrackedChange := mkNew {
  n_workspace_id : string;
  n_path : string;
  n_stage : string;
  n_status : string;
  n_agent_id : option string;
  n_session_id : option string;
  n_turn : option Z;
  n_commit_hash : option string;
  n_old_blob_sha : option string;
  n_new_blob_sha : option string;
  n_additions : Z;
  n_deletions : Z }.

Record TrackedChangeRow := mkRow {
  row_id : string;
  workspace_id : string;
  path : string;
  stage : string;
  status : string;
  agent_id : option string;
  session_id : option string;
  turn : option Z;
  commit_hash : option string;
  old_blob_sha : option string;
  new_blob_sha : option string;
  additions : Z;
  deletions : Z;
  created_at : string;
  updated_at : string }.

#[global] Instance TrackedChangeRow_eq_dec : EqDecision TrackedChangeRow.
Proof. solve_decision. Defined.

Implicit Types (table : list TrackedChangeRow) (r : TrackedChangeRow).

(** The rows of a workspace, a path and a stage. *)
Definition at_stage (ws p st : string) (r : TrackedChangeRow) : Prop :=
  workspace_id r = ws /\ path r = p /\ stage r = st.

#[global] Instance at_stage_dec ws p st r : Decision (at_stage ws p st r).
Proof. unfold at_stage. apply _. Defined.

(** The lookup of [upsert_tracked_change]; [agent_id IS ?] is equality of options. *)
Definition same_quad (c : NewTrackedChange) (r : TrackedChangeRow) : Prop :=
  at_stage (n_workspace_id c) (n_path c) (n_stage c) r /\ agent_id r = n_agent_id c.

#[global] Instance same_quad_dec (c : NewTrackedChange) r : Decision (same_quad c r).
Proof. unfold same_quad. apply _. Defined.

Definition update_row (c : NewTrackedChange) (now : string) (r : TrackedChangeRow) : TrackedChangeRow :=
  mkRow (row_id r) (workspace_id r) (path r) (stage r) (n_status c) (n_agent_id c) (n_session_id c) (n_turn c)
    (n_commit_hash c) (n_old_blob_sha c) (n_new_blob_sha c) (n_additions c) (n_deletions c) (created_at r) now.

Definition new_row (c : NewTrackedChange) (key now : string) : TrackedChangeRow :=
  mkRow key (n_workspace_id c) (n_path c) (n_stage c) (n_status c) (n_agent_id c) (n_session_id c) (n_turn c)
    (n_commit_hash c) (n_old_blob_sha c) (n_new_blob_sha c) (n_additions c) (n_deletions c) now now.

(** [UPDATE ... WHERE id = ?]. *)
Definition update_tracked_change (c : NewTrackedChange) (now key : string) (table : list TrackedChangeRow) :
    list TrackedChangeRow :=
  (fun r => if decide (row_id r = key) then update_row c now r else r) <$> table.

(** [INSERT]; the id is the primary key, so one that is there is refused. *)
Definition insert_tracked_change (c : NewTrackedChange) (now key : string) (table : list TrackedChangeRow) :
    option (list TrackedChangeRow) :=
  if decide (key ∈ row_id <$> table) then None else Some (table ++ [new_row c key now]).

Definition set_tracked_change_stage (ws p from_stage to_stage now : string) (table : list TrackedChangeRow) :
    list TrackedChangeRow :=
  (fun r =>
     if decide (at_stage ws p from_stage r) then
       mkRow (row_id r) (workspace_id r) (path r) to_stage (status r) (agent_id r) (session_id r) (turn r)
         (commit_hash r) (old_blob_sha r) (new_blob_sha r) (additions r) (deletions r) (created_at r) now
     else r) <$> table.

Definition working (r : TrackedChangeRow) : Prop := stage r = "unstaged" \/ stage r = "staged".

#[global] Instance working_dec r : Decision (working r).
Proof. unfold working. apply _. Defined.

Definition RowKey : Type := string * string.
Definition row_key (r : TrackedChangeRow) : RowKey := (row_id r, updated_at r).

(** One [DELETE] of [delete_unchanged_working_tracked_changes]. *)
Definition doomed (ws : string) (keys : list RowKey) (r : TrackedChangeRow) : Prop :=
  workspace_id r = ws /\ working r /\ row_key r ∈ keys.

#[global] Instance doomed_dec ws keys r : Decision (doomed ws keys r).
Proof. unfold doomed. apply _. Defined.

Definition delete_chunk (ws : string) (keys : list RowKey) (table : list TrackedChangeRow) :
    list TrackedChangeRow * Z :=
  (filter (fun r => ~ doomed ws keys r) table, len (filter (doomed ws keys) table)).

Definition CHUNK : nat := 400.

(** [slice::chunks]. *)
Fixpoint chunks_from {A} (fuel n : nat) (l : list A) : list (list A) :=
  match fuel, l with
  | O, _ | _, [] => []
  | S fuel', _ => take n l :: chunks_from fuel' n (drop n l)
  end.

Definition chunks {A} (n : nat) (l : list A) : list (list A) := chunks_from (length l) n l.

Fixpoint delete_chunks (ws : string) (cs : list (list RowKey)) (table : list TrackedChangeRow) :
    list TrackedChangeRow * Z :=
  match cs with
  | [] => (table, 0)
  | keys :: cs' =>
      let (table', n) := delete_chunk ws keys table in
      let (table'', m) := delete_chunks ws cs' table' in
      (table'', n + m)
  end.

Definition delete_unchanged_working_tracked_changes (ws : string) (rows : list RowKey)
    (table : list TrackedChangeRow) : list TrackedChangeRow * Z :=
  delete_chunks ws (chunks CHUNK rows) table.

Definition list_tracked_changes (ws : string) (table : list TrackedChangeRow) : list TrackedChangeRow :=
  sort_by (fun a b => str_leb (created_at a) (created_at b)) (filter (fun r => workspace_id r = ws) table).

Definition list_workspaces_with_working_tracked_changes (table : list TrackedChangeRow) : list string :=
  dedup (sort_by str_leb (workspace_id <$> filter working table)).

(** ** The lines a recording counts *)

Definition i64_max : Z := 2 ^ 63 - 1.

(** Subtraction of [i64], which panics out of range. *)
Definition i64_sub (a b : Z) : option Z :=
  if decide (- i64_max - 1 <= a - b <= i64_max) then Some (a - b) else None.

(** [MAX] over no rows is [NULL]. *)
Fixpoint sql_max (l : list Z) : option Z :=
  match l with
  | [] => None
  | x :: l' => Some (match sql_max l' with Some m => Z.max x m | None => x end)
  end.

Definition sibling (ws p st : string) (agent : option string) (r : TrackedChangeRow) : Prop :=
  at_stage ws p st r /\ agent_id r <> agent.

#[global] Instance sibling_dec ws p st agent r : Decision (sibling ws p st agent r).
Proof. unfold sibling. apply _. Defined.

Definition max_sibling_tracked_change_counters (ws p st : string) (agent : option string)
    (table : list TrackedChangeRow) : option (Z * Z) :=
  let siblings := filter (sibling ws p st agent) table in
  match sql_max (additions <$> siblings), sql_max (deletions <$> siblings) with
  | Some a, Some d => Some (a, d)
  | _, _ => None
  end.

Inductive StoreError := LookupFailed | UpdateFailed | InsertFailed | SiblingsFailed.

(** What the database answers: which row a lookup without an order fetches, and which
    statements of a recording go through. *)
Record Database := mkDatabase {
  fetch_optional : list TrackedChangeRow -> option TrackedChangeRow;
  lookup_ok : bool;
  write_ok : bool;
  siblings_ok : bool }.

Definition upsert_tracked_change (db : Database) (c : NewTrackedChange) (now key : string)
    (table : list TrackedChangeRow) : list TrackedChangeRow * Result (option (Z * Z)) StoreError :=
  if lookup_ok db then
    match fetch_optional db (filter (same_quad c) table) with
    | Some r =>
        if write_ok db then (update_tracked_change c now (row_id r) table, Ok (Some (additions r, deletions r)))
        else (table, Err UpdateFailed)
    | None =>
        match (if write_ok db then insert_tracked_change c now key table else None) with
        | Some table' => (table', Ok None)
        | None => (table, Err InsertFailed)
        end
    end
  else (table, Err LookupFailed).

Definition normalized (c : NewTrackedChange) : NewTrackedChange :=
  mkNew (n_workspace_id c) (normalize_path (n_path c)) (n_stage c) (n_status c) (n_agent_id c) (n_session_id c)
    (n_turn c) (n_commit_hash c) (n_old_blob_sha c) (n_new_blob_sha c) (n_additions c) (n_deletions c).

(** [None] is a panic of the subtraction. *)
Definition track_change (db : Database) (change : NewTrackedChange) (now key : string)
    (table : list TrackedChangeRow) : option (list TrackedChangeRow * Result (Z * Z) StoreError) :=
  let c := normalized change in
  match upsert_tracked_change db c now key table with
  | (table', Err e) => Some (table', Err e)
  | (table', Ok prev) =>
      let (own_additions, own_deletions) := default (0, 0) prev in
      if (n_additions c <=? own_additions) && (n_deletions c <=? own_deletions) then Some (table', Ok (0, 0))
      else if siblings_ok db then
        let (sibling_additions, sibling_deletions) :=
          default (0, 0)
            (max_sibling_tracked_change_counters (n_workspace_id c) (n_path c) (n_stage c) (n_agent_id c) table') in
        a ← i64_sub (n_additions c) (Z.max own_additions sibling_additions);
        d ← i64_sub (n_deletions c) (Z.max own_deletions sibling_deletions);
        Some (table', Ok (Z.max a 0, Z.max d 0))
      else Some (table', Err SiblingsFailed)
  end.

(** ** Normal paths *)

Definition double_slash (l : list Ascii.ascii) : Prop :=
  exists i, l !! i = Some slash /\ l !! S i = Some slash.

(** Forward slashes only, single ones, none at the ends. *)
Definition normal_path (p : string) : Prop :=
  (backslash ∉ chars p) /\ head (chars p) <> Some slash /\ last (chars p) <> Some slash /\ ~ double_slash (chars p).

(** [str::split]. *)
Fixpoint split_on (c : Ascii.ascii) (l : list Ascii.ascii) : list (list Ascii.ascii) :=
  match l with
  | [] => [[]]
  | x :: l' =>
      if bool_decide (x = c) then [] :: split_on c l'
      else match split_on c l' with p :: ps => (x :: p) :: ps | [] => [[x]] end
  end.

(** The names on a path, empty ones and [.] left out. *)
Definition is_name (p : list Ascii.ascii) : bool := negb (bool_decide (p = [])) && negb (bool_decide (p = [dot])).

Definition names (l : list Ascii.ascii) : list (list Ascii.ascii) := List.filter is_name (split_on slash l).

Lemma split_on_cons c l : exists p ps, split_on c l = p :: ps.
Proof. destruct l as [|x l]; simpl; [eauto|]. case_bool_decide; [eauto|]. case_match; eauto. Qed.

Lemma names_slash l : names (slash :: l) = names l.
Proof. done. Qed.

Lemma split_on_snoc c l : split_on c (l ++ [c]) = split_on c l ++ [[]].
Proof.
  induction l as [|x l IH]; simpl; [by rewrite bool_decide_true|].
  case_bool_decide; [by rewrite IH|]. rewrite IH.
  destruct (split_on_cons c l) as (p & ps & ->). done.
Qed.

Lemma names_snoc_slash l : names (l ++ [slash]) = names l.
Proof. unfold names. rewrite split_on_snoc, List.filter_app. simpl. by rewrite app_nil_r. Qed.

Lemma names_trim_start l : names (trim_start slash l) = names l.
Proof.
  induction l as [|x l IH]; simpl; [done|]. case_bool_decide as Hx; [|done].
  subst. by rewrite IH, names_slash.
Qed.

Lemma trim_end_snoc c l x : trim_end c (l ++ [x]) = if bool_decide (x = c) then trim_end c l else l ++ [x].
Proof.
  unfold trim_end. rewrite reverse_snoc. simpl. case_bool_decide; [done|].
  by rewrite reverse_cons, reverse_involutive.
Qed.

Lemma names_trim_end l : names (trim_end slash l) = names l.
Proof.
  induction l as [|x l IH] using rev_ind; [done|]. rewrite trim_end_snoc.
  case_bool_decide; [|done]. subst. by rewrite IH, names_snoc_slash.
Qed.

Lemma names_strip_dot l : names (strip_dot l) = names l.
Proof.
  destruct l as [|a [|b l]]; [done..|]. simpl. case_bool_decide; [|done]. case_bool_decide; [|done].
  by subst.
Qed.

(** A slash that is dropped only separates empty names. *)
Lemma split_collapse l :
  (head (split_on slash (collapse false l)) = head (split_on slash l) /\
   List.filter is_name (tail (split_on slash (collapse false l))) = List.filter is_name (tail (split_on slash l))) /\
  names (collapse true l) = names l.
Proof.
  induction l as [|x l [[IHh IHt] IHn]]; [done|]. simpl. destruct (decide (x = slash)) as [->|Hx].
  - by rewrite names_slash.
  - rewrite !(bool_decide_false (x = slash)) by done. unfold names. simpl. rewrite !(bool_decide_false (x = slash)) by done.
    destruct (split_on_cons slash (collapse false l)) as (p & ps & Hp), (split_on_cons slash l) as (q & qs & Hq).
    rewrite Hp, Hq in *. simpl in *. simplify_eq. by rewrite IHt.
Qed.

Lemma names_collapse l : names (collapse false l) = names l.
Proof.
  destruct (split_collapse l) as [[Hh Ht] _]. unfold names.
  destruct (split_on_cons slash (collapse false l)) as (p & ps & Hp), (split_on_cons slash l) as (q & qs & Hq).
  rewrite Hp, Hq in *. simpl in *. simplify_eq. by rewrite Ht.
Qed.

(** Normalizing only respells a path: the names on it are those between slashes of
    either kind. *)
Lemma normalize_path_names p : names (chars (normalize_path p)) = names (unify (chars p)).
Proof.
  unfold normalize_path. case_bool_decide; [by subst|].
  by rewrite String.list_ascii_of_string_of_list_ascii, names_strip_dot, names_trim_end, names_trim_start, names_collapse.
Qed.

Lemma double_slash_cons x l : double_slash (x :: l) <-> (x = slash /\ head l = Some slash) \/ double_slash l.
Proof.
  split.
  - intros ([|i] & Hi & Hj); simpl in *; [left|right; by exists i].
    simplify_eq. destruct l; simpl in *; by simplify_eq.
  - intros [[-> Hh]|(i & Hi & Hj)]; [exists 0%nat|by exists (S i)]. destruct l; simpl in *; by simplify_eq.
Qed.

Lemma collapse_single b l : (b = true -> head (collapse b l) <> Some slash) /\ ~ double_slash (collapse b l).
Proof.
  revert b. induction l as [|x l IH]; intros b; simpl; [split; [done|by intros (i & ? & ?)]|].
  destruct (IH true) as [IHh IHd], (IH false) as [_ IHf]. case_bool_decide.
  - destruct b; simpl; [auto|]. rewrite double_slash_cons. naive_solver.
  - simpl. rewrite double_slash_cons. naive_solver.
Qed.

Lemma unify_no_backslash l : backslash ∉ unify l.
Proof. unfold unify. rewrite list_elem_of_fmap. intros (x & Hx & _). case_bool_decide; [by vm_compute in Hx|congruence]. Qed.

Lemma collapse_sub b l x : x ∈ collapse b l -> x ∈ l.
Proof.
  revert b. induction l as [|y l IH]; intros b; simpl; [done|].
  case_bool_decide; destruct b; simpl; set_solver.
Qed.

Lemma trim_start_suffix c l : exists k, l = k ++ trim_start c l.
Proof.
  induction l as [|x l [k IH]]; simpl; [by exists []|].
  case_bool_decide; [exists (x :: k); simpl; congruence|by exists []].
Qed.

Lemma trim_start_head c l : head (trim_start c l) <> Some c.
Proof. induction l as [|x l IH]; simpl; [done|]. case_bool_decide; [done|]. simpl. congruence. Qed.

Lemma trim_end_prefix c l : exists k, l = trim_end c l ++ k.
Proof.
  unfold trim_end. destruct (trim_start_suffix c (reverse l)) as [k Hk]. exists (reverse k).
  by rewrite <- reverse_app, <- Hk, reverse_involutive.
Qed.

Lemma trim_end_last c l : last (trim_end c l) <> Some c.
Proof. unfold trim_end. rewrite last_reverse. apply trim_start_head. Qed.

Lemma double_slash_app l k : double_slash l \/ double_slash k -> double_slash (l ++ k).
Proof.
  intros [(i & Hi & Hj)|(i & Hi & Hj)].
  - exists i. by rewrite !lookup_app_l by (eapply lookup_lt_Some; eauto).
  - exists (length l + i)%nat. rewrite !lookup_app_r by lia. by replace (S (length l + i) - length l)%nat with (S i) by lia;
      replace (length l + i - length l)%nat with i by lia.
Qed.

Lemma head_app_prefix {A} (l k : list A) x : head l = Some x -> head (l ++ k) = Some x.
Proof. by destruct l. Qed.

(** The normal form is one, up to a second [./]. *)
Lemma normalize_path_normal p : normal_path (normalize_path p).
Proof.
  unfold normalize_path. case_bool_decide; [unfold normal_path; simpl; split_and!; [set_solver|done..|by intros (i & ? & ?)]|].
  unfold normal_path. rewrite String.list_ascii_of_string_of_list_ascii.
  set (l0 := collapse false (unify (chars p))).
  destruct (collapse_single false (unify (chars p))) as [_ Hd0]. fold l0 in Hd0.
  assert (Hb0 : backslash ∉ l0) by (intros ?%collapse_sub; by eapply unify_no_backslash).
  destruct (trim_start_suffix slash l0) as [k1 Hk1]. pose proof (trim_start_head slash l0) as Hh1.
  set (l1 := trim_start slash l0) in *.
  destruct (trim_end_prefix slash l1) as [k2 Hk2]. pose proof (trim_end_last slash l1) as Hl2.
  set (l2 := trim_end slash l1) in *.
  assert (Hd2 : ~ double_slash l2).
  { intros ?. apply Hd0. rewrite Hk1, Hk2. apply double_slash_app. right. apply double_slash_app. by left. }
  assert (Hb2 : backslash ∉ l2) by (rewrite Hk1, Hk2 in Hb0; set_solver).
  assert (Hh2 : head l2 <> Some slash) by (intros ?; apply Hh1; rewrite Hk2; by apply head_app_prefix).
  clearbody l2. clear -Hd2 Hb2 Hh2 Hl2. destruct l2 as [|a [|b l]]; [done..|]. cbn [strip_dot].
  case_bool_decide; [|done]. case_bool_decide as Hb; [|done]. simpl. subst.
  rewrite !double_slash_cons in Hd2. destruct l as [|x l]; [done|].
  split_and!; [set_solver|naive_solver|done|naive_solver].
Qed.

(** ** The table's invariant *)

Definition counter_ok (z : Z) : Prop := 0 <= z <= i64_max.

Record table_ok (table : list TrackedChangeRow) : Prop := {
  ids_unique : NoDup (row_id <$> table);
  paths_normal : Forall (fun r => normal_path (path r)) table;
  counters_in_range : Forall (fun r => counter_ok (additions r) /\ counter_ok (deletions r)) table }.

(** A lookup fetches a row that matches, if there is one. *)
Definition fetches (db : Database) : Prop :=
  forall l, match fetch_optional db l with Some r => r ∈ l | None => l = [] end.

Definition change_ok (c : NewTrackedChange) : Prop := counter_ok (n_additions c) /\ counter_ok (n_deletions c).

(** Everything that writes to the table. *)
Inductive Write :=
| Track (db : Database) (change : NewTrackedChange) (now key : string)
| SetStage (ws p from_stage to_stage now : string)
| DeleteUnchanged (ws : string) (rows : list RowKey)
| DeleteWorkspace (ws : string).

Definition write_valid (w : Write) : Prop :=
  match w with Track db change _ _ => fetches db /\ change_ok change | _ => True end.

Definition apply_write (w : Write) (table : list TrackedChangeRow) : option (list TrackedChangeRow) :=
  match w with
  | Track db change now key => fst <$> track_change db change now key table
  | SetStage ws p from_stage to_stage now => Some (set_tracked_change_stage ws p from_stage to_stage now table)
  | DeleteUnchanged ws rows => Some (delete_unchanged_working_tracked_changes ws rows table).1
  | DeleteWorkspace ws => Some (filter (fun r => workspace_id r <> ws) table)
  end.

Fixpoint apply_writes (writes : list Write) (table : list TrackedChangeRow) : option (list TrackedChangeRow) :=
  match writes with
  | [] => Some table
  | w :: writes' => table' ← apply_write w table; apply_writes writes' table'
  end.

Lemma table_ok_filter (P : TrackedChangeRow -> Prop) `{!forall r, Decision (P r)} table :
  table_ok table -> table_ok (filter P table).
Proof.
  intros [Hi Hp Hc]. rewrite Forall_forall in Hp, Hc.
  split; [|apply Forall_forall; intros r [_ ?]%list_elem_of_filter; auto..].
  eapply sublist_NoDup; [done|apply fmap_sublist, sublist_filter].
Qed.

Lemma table_ok_map (f : TrackedChangeRow -> TrackedChangeRow) table :
  (forall r, r ∈ table -> row_id (f r) = row_id r /\ path (f r) = path r) ->
  (forall r, r ∈ table -> counter_ok (additions r) /\ counter_ok (deletions r) ->
     counter_ok (additions (f r)) /\ counter_ok (deletions (f r))) ->
  table_ok table -> table_ok (f <$> table).
Proof.
  intros Hf Hg [Hi Hp Hc]. rewrite Forall_forall in *. split.
  - rewrite <- list_fmap_compose.
    replace (row_id ∘ f <$> table) with (row_id <$> table); [done|].
    apply list_fmap_ext. intros i r Hr%list_elem_of_lookup_2. simpl. by rewrite (proj1 (Hf r Hr)).
  - apply Forall_forall. intros ? (r & -> & Hr)%list_elem_of_fmap. rewrite (proj2 (Hf r Hr)). auto.
  - apply Forall_forall. intros ? (r & -> & Hr)%list_elem_of_fmap. auto.
Qed.

Lemma table_ok_update c now key table : change_ok c -> table_ok table -> table_ok (update_tracked_change c now key table).
Proof.
  intros Hc. apply table_ok_map; intros r _; case_decide; [done|done| |done]. intros _. apply Hc.
Qed.

Lemma table_ok_insert c now key table table' :
  change_ok c -> normal_path (n_path c) -> insert_tracked_change c now key table = Some table' ->
  table_ok table -> table_ok table'.
Proof.
  unfold insert_tracked_change. case_decide as Hk; [done|]. intros Hc Hn [= <-] [Hi Hp Hg]. split.
  - rewrite fmap_app. apply NoDup_app. split_and!; [done| |apply NoDup_singleton]. simpl. set_solver.
  - apply Forall_app. auto.
  - apply Forall_app. auto.
Qed.

Lemma table_ok_upsert db c now key table :
  change_ok c -> normal_path (n_path c) -> table_ok table -> table_ok (upsert_tracked_change db c now key table).1.
Proof.
  intros Hc Hn Ht. unfold upsert_tracked_change. repeat case_match; simpl; try done.
  - by apply table_ok_update.
  - simplify_eq. by eapply table_ok_insert.
Qed.

Lemma table_ok_stage ws p from_stage to_stage now table :
  table_ok table -> table_ok (set_tracked_change_stage ws p from_stage to_stage now table).
Proof. apply table_ok_map; intros r _; by case_decide. Qed.

Lemma table_ok_delete ws rows table :
  table_ok table -> table_ok (delete_unchanged_working_tracked_changes ws rows table).1.
Proof.
  unfold delete_unchanged_working_tracked_changes. generalize (chunks CHUNK rows) as cs.
  intros cs. revert table. induction cs as [|keys cs IH]; intros table Ht; simpl; [done|].
  specialize (IH (filter (fun r => ~ doomed ws keys r) table) (table_ok_filter _ _ Ht)).
  by destruct (delete_chunks _ _ _).
Qed.

(** ** Recordings *)

Lemma i64_sub_ok a b : counter_ok a -> counter_ok b -> i64_sub a b = Some (a - b).
Proof. unfold i64_sub, counter_ok. intros ??. by rewrite decide_True by lia. Qed.

(** The highest of a column over some rows, 0 without any. *)
Definition highest (f : TrackedChangeRow -> Z) (rows : list TrackedChangeRow) : Z := foldr Z.max 0 (f <$> rows).

Lemma highest_sql f rows :
  Forall (fun r => counter_ok (f r)) rows -> default 0 (sql_max (f <$> rows)) = highest f rows /\ counter_ok (highest f rows).
Proof.
  unfold highest, counter_ok. induction 1 as [|r rows Hr _ [IH1 IH2]]; [done|].
  rewrite !fmap_cons. cbn [foldr sql_max default]. split; [|lia]. destruct (sql_max (f <$> rows)); simpl in *; subst; lia.
Qed.

Lemma highest_app f k l : highest f (k ++ l) = Z.max (highest f k) (highest f l).
Proof.
  assert (0 <= highest f l) by (clear; unfold highest; induction l; cbn; lia).
  unfold highest in *. induction k as [|r k IH]; [cbn [app fmap list_fmap foldr]; lia|].
  rewrite <- app_comm_cons, !fmap_cons. cbn [foldr]. lia.
Qed.

(** The siblings' counters, in one pair. *)
Lemma siblings_highest ws p st agent table :
  table_ok table ->
  default (0, 0) (max_sibling_tracked_change_counters ws p st agent table) =
    (highest additions (filter (sibling ws p st agent) table), highest deletions (filter (sibling ws p st agent) table)) /\
  counter_ok (highest additions (filter (sibling ws p st agent) table)) /\
  counter_ok (highest deletions (filter (sibling ws p st agent) table)).
Proof.
  intros [_ _ Hc]%(table_ok_filter (sibling ws p st agent)). apply Forall_and in Hc as [Ha Hd].
  destruct (highest_sql _ _ Ha) as [Ea ?], (highest_sql _ _ Hd) as [Ed ?]. split; [|done].
  rewrite <- Ea, <- Ed. unfold max_sibling_tracked_change_counters.
  by destruct (filter _ table).
Qed.

(** The counters of the row a recording replaces. *)
Definition own_counters (db : Database) (c : NewTrackedChange) (table : list TrackedChangeRow) : Z * Z :=
  match fetch_optional db (filter (same_quad c) table) with
  | Some r => (additions r, deletions r)
  | None => (0, 0)
  end.

Lemma own_counters_ok db c table :
  fetches db -> table_ok table -> counter_ok (own_counters db c table).1 /\ counter_ok (own_counters db c table).2.
Proof.
  intros Hf [_ _ Hc]. unfold own_counters. specialize (Hf (filter (same_quad c) table)).
  destruct (fetch_optional _ _) as [r|]; [|by unfold counter_ok, i64_max]. rewrite Forall_forall in Hc.
  apply list_elem_of_filter in Hf as [_ ?]. by apply Hc.
Qed.

(** The shortcut changes nothing: what is returned is the growth over the replaced row
    and over the siblings. *)
Lemma track_change_result db change now key table table' prev :
  fetches db -> siblings_ok db = true -> change_ok change -> table_ok table ->
  upsert_tracked_change db (normalized change) now key table = (table', Ok prev) ->
  let c := normalized change in
  let siblings := filter (sibling (n_workspace_id c) (n_path c) (n_stage c) (n_agent_id c)) table' in
  let own := own_counters db c table in
  track_change db change now key table =
    Some (table', Ok (Z.max 0 (n_additions c - Z.max own.1 (highest additions siblings)),
                      Z.max 0 (n_deletions c - Z.max own.2 (highest deletions siblings)))).
Proof.
  intros Hf Hs Hc Ht Hu. cbn zeta. set (c := normalized change) in *.
  assert (Hn : change_ok c /\ normal_path (n_path c)) by (split; [done|apply normalize_path_normal]).
  pose proof (table_ok_upsert db c now key table (proj1 Hn) (proj2 Hn) Ht) as Ht'. rewrite Hu in Ht'. simpl in Ht'.
  destruct (siblings_highest (n_workspace_id c) (n_path c) (n_stage c) (n_agent_id c) _ Ht') as (Es & Hsa & Hsd).
  destruct (own_counters_ok db c table Hf Ht) as [Hoa Hod].
  assert (Ho : own_counters db c table = default (0, 0) prev).
  { revert Hu. unfold upsert_tracked_change, own_counters. clear. repeat case_match; intros; by simplify_eq. }
  destruct Hn as [[Hca Hcd] _]. unfold track_change. fold c. rewrite Hu, <- Ho, Hs, Es.
  destruct (own_counters db c table) as [oa od]. simpl in *. clear -Hsa Hsd Hoa Hod Hca Hcd.
  set (sa := highest additions _) in *. set (sd := highest deletions _) in *. clearbody sa sd.
  unfold counter_ok in *. destruct (_ && _) eqn:Hshort.
  - apply andb_true_iff in Hshort. do 3 f_equal; f_equal; lia.
  - rewrite !i64_sub_ok by (unfold counter_ok; lia). simpl. do 3 f_equal; f_equal; lia.
Qed.

Lemma track_change_total db change now key table :
  fetches db -> change_ok change -> table_ok table ->
  exists table' res, track_change db change now key table = Some (table', res) /\ table_ok table'.
Proof.
  intros Hf Hc Ht.
  pose proof (table_ok_upsert db (normalized change) now key table Hc (normalize_path_normal _) Ht) as Ht'.
  destruct (upsert_tracked_change db (normalized change) now key table) as [table' [prev|e]] eqn:Hu; simpl in Ht'.
  - destruct (siblings_ok db) eqn:Hs.
    + eexists _, _. split; [by eapply track_change_result|done].
    + unfold track_change. rewrite Hu, Hs. destruct (default (0, 0) prev). case_match; eauto.
  - unfold track_change. rewrite Hu. eauto.
Qed.


(** ** Counting lines once *)

Definition quad (r : TrackedChangeRow) : string * string * string * option string :=
  (workspace_id r, path r, stage r, agent_id r).

(** One row per agent, file and stage. *)
Definition quads_unique (table : list TrackedChangeRow) : Prop := NoDup (quad <$> table).

(** A file at a stage, and the highest counter its rows carry. *)
Definition StageKey : Type := string * string * string.
Definition key_of (c : NewTrackedChange) : StageKey := (n_workspace_id c, n_path c, n_stage c).
Definition at_key (k : StageKey) (r : TrackedChangeRow) : Prop := at_stage k.1.1 k.1.2 k.2 r.

#[global] Instance at_key_dec k r : Decision (at_key k r).
Proof. unfold at_key. apply _. Defined.

Definition high (f : TrackedChangeRow -> Z) (k : StageKey) (table : list TrackedChangeRow) : Z :=
  highest f (filter (at_key k) table).

Lemma highest_nonneg f rows : 0 <= highest f rows.
Proof. unfold highest. induction rows; cbn; lia. Qed.

Lemma highest_split f (P Q R : TrackedChangeRow -> Prop) `{!forall r, Decision (P r), !forall r, Decision (Q r),
    !forall r, Decision (R r)} (rows : list TrackedChangeRow) :
  (forall r, P r <-> Q r \/ R r) ->
  highest f (filter P rows) = Z.max (highest f (filter Q rows)) (highest f (filter R rows)).
Proof.
  intros HP. induction rows as [|r rows IH]; [done|]. rewrite !filter_cons. specialize (HP r).
  repeat case_decide; try tauto; unfold highest in *; rewrite ?fmap_cons; cbn [foldr]; lia.
Qed.

Lemma filter_empty (P : TrackedChangeRow -> Prop) `{!forall r, Decision (P r)} (rows : list TrackedChangeRow) :
  filter P rows = [] <-> Forall (fun r => ~ P r) rows.
Proof.
  rewrite Forall_forall. split.
  - intros E r Hr HP. by eapply filter_nil_not_elem_of.
  - intros Hn. destruct (filter P rows) as [|r l] eqn:E; [done|].
    assert (Hr : r ∈ filter P rows) by (rewrite E; set_solver). apply list_elem_of_filter in Hr as [??]. naive_solver.
Qed.

Lemma same_quad_spec c r : same_quad c r <-> quad r = (n_workspace_id c, n_path c, n_stage c, n_agent_id c).
Proof.
  unfold same_quad, at_stage, quad. split; [by intros [(-> & -> & ->) ->]|]. by intros [= -> -> -> ->].
Qed.

Lemma own_row_single c table :
  quads_unique table -> filter (same_quad c) table = [] \/ exists r, filter (same_quad c) table = [r].
Proof.
  unfold quads_unique. induction table as [|r table IH]; [by left|]. rewrite fmap_cons, NoDup_cons, filter_cons.
  intros [Hr Ht]. case_decide as Hc; [right|auto]. exists r. f_equal. apply filter_empty, Forall_forall.
  intros r' Hr' Hc'. apply Hr. rewrite same_quad_spec in Hc, Hc'. rewrite Hc, <- Hc'. by apply list_elem_of_fmap_2.
Qed.

(** What a recording leaves: its own row with the new counters, and the others. *)
Definition recorded (c : NewTrackedChange) (table table' : list TrackedChangeRow) : Prop :=
  (exists r', filter (same_quad c) table' = [r'] /\ additions r' = n_additions c /\ deletions r' = n_deletions c) /\
  filter (fun r => ~ same_quad c r) table' = filter (fun r => ~ same_quad c r) table.

Lemma filter_none (P : TrackedChangeRow -> Prop) `{!forall r, Decision (P r)} (rows : list TrackedChangeRow) :
  Forall (fun r => ~ P r) rows -> filter P rows = [] /\ filter (fun r => ~ P r) rows = rows.
Proof.
  intros Hn. split; [by apply filter_empty|]. induction Hn; [done|]. rewrite filter_cons, decide_True by done.
  by f_equal.
Qed.

(** The only row of a lookup, and the rows around it. *)
Lemma own_row_split c r table :
  filter (same_quad c) table = [r] ->
  same_quad c r /\ exists pre post, table = pre ++ r :: post /\
    Forall (fun r => ~ same_quad c r) pre /\ Forall (fun r => ~ same_quad c r) post.
Proof.
  induction table as [|x table IH]; [done|]. rewrite filter_cons. case_decide as Hx.
  - intros [= -> H]. rewrite filter_empty in H. split; [done|]. by exists [], table.
  - intros (Hr & pre & post & -> & Hpre & Hpost)%IH. split; [done|]. exists (x :: pre), post. auto.
Qed.

Lemma fmap_untouched {A} (f : A -> A) (l : list A) : (forall x, x ∈ l -> f x = x) -> f <$> l = l.
Proof.
  induction l as [|x l IH]; intros Hf; [done|]. rewrite fmap_cons, IH by (intros; apply Hf; set_solver).
  f_equal. apply Hf. set_solver.
Qed.

Lemma update_split c now r pre post :
  NoDup (row_id <$> pre ++ r :: post) ->
  update_tracked_change c now (row_id r) (pre ++ r :: post) = pre ++ update_row c now r :: post.
Proof.
  rewrite fmap_app, fmap_cons, NoDup_app, NoDup_cons. intros (_ & Hpre & Hpost & _).
  unfold update_tracked_change. rewrite fmap_app, fmap_cons, decide_True by done.
  f_equal; [|f_equal]; apply fmap_untouched; intros x Hx; (rewrite decide_False; [done|]); intros E.
  - apply (Hpre (row_id x)); [by apply list_elem_of_fmap_2|rewrite E; set_solver].
  - apply Hpost. rewrite <- E. by apply list_elem_of_fmap_2.
Qed.

Lemma recorded_around c pre post r' rest :
  Forall (fun r => ~ same_quad c r) pre -> Forall (fun r => ~ same_quad c r) post -> same_quad c r' ->
  additions r' = n_additions c -> deletions r' = n_deletions c ->
  filter (fun r => ~ same_quad c r) rest = pre ++ post ->
  recorded c rest (pre ++ r' :: post).
Proof.
  intros Hpre Hpost Hr Ha Hd Hrest. unfold recorded.
  destruct (filter_none (same_quad c) pre Hpre) as [Epre Npre], (filter_none (same_quad c) post Hpost) as [Epost Npost].
  rewrite !filter_app, !filter_cons, Epre, Npre, Epost, Npost, (decide_True (P := same_quad c r')) by done.
  rewrite decide_False by tauto. split; [by exists r'|done].
Qed.

Lemma update_recorded c now r table :
  NoDup (row_id <$> table) -> filter (same_quad c) table = [r] ->
  recorded c table (update_tracked_change c now (row_id r) table) /\
  quad <$> update_tracked_change c now (row_id r) table = quad <$> table.
Proof.
  intros Hi (Hr & pre & post & -> & Hpre & Hpost)%own_row_split. rewrite update_split by done.
  pose proof Hr as [_ Ha]. split.
  - apply recorded_around; try done.
    + destruct Hr as [Hs _]. by split.
    + rewrite filter_app, filter_cons, (decide_False (P := ~ same_quad c r)) by tauto.
      by rewrite (proj2 (filter_none _ _ Hpre)), (proj2 (filter_none _ _ Hpost)).
  - rewrite !fmap_app, !fmap_cons. do 2 f_equal. unfold quad. simpl. by rewrite Ha.
Qed.

Lemma insert_recorded c now key table table' :
  filter (same_quad c) table = [] -> insert_tracked_change c now key table = Some table' ->
  recorded c table table' /\ (quads_unique table -> quads_unique table').
Proof.
  rewrite filter_empty. intros Hn. unfold insert_tracked_change. case_decide; [done|]. intros [= <-]. split.
  - apply recorded_around; try done. rewrite app_nil_r. by apply filter_none.
  - unfold quads_unique. rewrite fmap_app, NoDup_app. intros Hq. split_and!; [done| |apply NoDup_singleton].
    intros q (r & -> & Hr)%list_elem_of_fmap Hin. rewrite Forall_forall in Hn. apply (Hn r Hr).
    rewrite same_quad_spec. cbn in Hin. by apply list_elem_of_singleton in Hin.
Qed.

Definition goes_through (db : Database) : Prop :=
  lookup_ok db = true /\ write_ok db = true /\ siblings_ok db = true.

Lemma upsert_recorded db c now key table :
  fetches db -> goes_through db -> table_ok table -> quads_unique table -> key ∉ row_id <$> table ->
  exists table' prev, upsert_tracked_change db c now key table = (table', Ok prev) /\ recorded c table table' /\
    quads_unique table' /\ row_id <$> table' ⊆ key :: (row_id <$> table).
Proof.
  intros Hf (Hl & Hw & _) [Hi _ _] Hq Hk. unfold upsert_tracked_change. rewrite Hl, Hw.
  pose proof (Hf (filter (same_quad c) table)) as Hfetch.
  destruct (own_row_single c table Hq) as [E|[r E]]; rewrite E in *.
  - destruct (fetch_optional db []); [set_solver|]. unfold insert_tracked_change in *.
    destruct (decide (key ∈ row_id <$> table)) as [|Hd] eqn:Hkd; [done|]. eexists _, _. split; [done|].
    destruct (insert_recorded c now key table (table ++ [new_row c key now]) E) as [? Hu];
      [unfold insert_tracked_change; by rewrite Hkd|].
    split_and!; [done|auto|]. rewrite fmap_app. simpl. set_solver.
  - destruct (fetch_optional db [r]) as [r'|]; [|done]. apply list_elem_of_singleton in Hfetch as ->.
    eexists _, _. split; [done|]. destruct (update_recorded c now r table Hi E) as [? Hu].
    split_and!; [done|by unfold quads_unique; rewrite Hu|]. unfold update_tracked_change. rewrite <- list_fmap_compose.
    replace (row_id ∘ _ <$> table) with (row_id <$> table); [set_solver|].
    apply list_fmap_ext. intros i x _. simpl. by case_decide.
Qed.

Definition siblings_of (c : NewTrackedChange) (table : list TrackedChangeRow) : list TrackedChangeRow :=
  filter (sibling (n_workspace_id c) (n_path c) (n_stage c) (n_agent_id c)) table.

Lemma high_split f c table :
  high f (key_of c) table = Z.max (highest f (filter (same_quad c) table)) (highest f (siblings_of c table)).
Proof.
  apply highest_split. intros r. unfold at_key, key_of, same_quad, sibling. cbn.
  destruct (decide (agent_id r = n_agent_id c)); tauto.
Qed.

Lemma other_key_rest k c r : k <> key_of c -> at_key k r -> ~ same_quad c r.
Proof.
  destruct k as [[ws p] st]. unfold at_key, at_stage, same_quad, key_of. cbn.
  intros Hk (<- & <- & <-) [(E1 & E2 & E3) _]. apply Hk. unfold at_stage in *. congruence.
Qed.

(** A recording changes what is highest at its own key only, and there to the higher of
    its counter and the siblings'. *)
Lemma recorded_high f n c table table' :
  0 <= n -> recorded c table table' -> (forall r', filter (same_quad c) table' = [r'] -> f r' = n) ->
  siblings_of c table' = siblings_of c table /\
  high f (key_of c) table' = Z.max n (highest f (siblings_of c table)) /\
  (forall k, k <> key_of c -> high f k table' = high f k table).
Proof.
  intros Hn [(r' & E & _) Hrest] Hf. specialize (Hf _ E).
  assert (Hsub : forall (P : TrackedChangeRow -> Prop) `{!forall r, Decision (P r)},
    (forall r, P r -> ~ same_quad c r) -> filter P table' = filter P table).
  { intros P HP Himp. by rewrite <- (list_filter_filter_l P (fun r => ~ same_quad c r) table' Himp), Hrest, list_filter_filter_l. }
  assert (Hs : siblings_of c table' = siblings_of c table) by (apply Hsub; intros r [_ ?] [_ ?]; done).
  split_and!; [done| |].
  - rewrite high_split, E, Hs. unfold highest at 1. cbn. lia.
  - intros k Hk. unfold high. f_equal. apply Hsub. intros r. by apply other_key_rest.
Qed.

(** The two counters, in a row, in a change and in what is counted. *)
Inductive Column := Added | Removed.

Definition in_row (col : Column) : TrackedChangeRow -> Z := match col with Added => additions | Removed => deletions end.
Definition in_change (col : Column) : NewTrackedChange -> Z := match col with Added => n_additions | Removed => n_deletions end.
Definition in_delta (col : Column) : Z * Z -> Z := match col with Added => fst | Removed => snd end.

Lemma own_counters_highest db c table col :
  fetches db -> table_ok table -> quads_unique table ->
  in_delta col (own_counters db c table) = highest (in_row col) (filter (same_quad c) table).
Proof.
  intros Hf Ht Hq. destruct (own_counters_ok db c table Hf Ht) as [Ha Hd]. revert Ha Hd. unfold own_counters.
  specialize (Hf (filter (same_quad c) table)).
  destruct (own_row_single c table Hq) as [E|[r E]]; rewrite E in *.
  - destruct (fetch_optional db []); [set_solver|]. by destruct col.
  - destruct (fetch_optional db [r]) as [r'|]; [|done]. apply list_elem_of_singleton in Hf as ->.
    unfold highest, counter_ok. destruct col; cbn; lia.
Qed.

Lemma track_step db change now key table :
  let c := normalized change in
  fetches db -> goes_through db -> change_ok change -> table_ok table -> quads_unique table -> key ∉ row_id <$> table ->
  exists table' d, track_change db change now key table = Some (table', Ok d) /\
    table_ok table' /\ quads_unique table' /\ row_id <$> table' ⊆ key :: (row_id <$> table) /\
    forall col,
      in_delta col d = Z.max 0 (in_change col c - high (in_row col) (key_of c) table) /\
      in_change col c <= high (in_row col) (key_of c) table' <= Z.max (in_change col c) (high (in_row col) (key_of c) table) /\
      forall k, k <> key_of c -> high (in_row col) k table' = high (in_row col) k table.
Proof.
  intros c Hf Hg Hc Ht Hq Hk.
  destruct (upsert_recorded db c now key table Hf Hg Ht Hq Hk) as (table' & prev & Hu & Hr & Hq' & Hi').
  eexists table', _. split; [eapply track_change_result; [done|apply Hg|done..]|]. fold c.
  assert (Ht' : table_ok (upsert_tracked_change db c now key table).1)
    by (by apply table_ok_upsert; [|apply normalize_path_normal|]).
  rewrite Hu in Ht'. split_and!; [done..|]. intros col.
  destruct (recorded_high (in_row col) (in_change col c) c table table') as (Es & Eh & Ho); [|done| |].
  { destruct Hc as [[??] [??]]. by destruct col. }
  { destruct Hr as [(r & E & ? & ?) _]. intros r'. rewrite E. intros [= <-]. by destruct col. }
  fold (siblings_of c table'). rewrite Es, Eh, high_split.
  pose proof (own_counters_highest db c table Added Hf Ht Hq) as Ea.
  pose proof (own_counters_highest db c table Removed Hf Ht Hq) as Er. cbn in Ea, Er. rewrite Ea, Er.
  split_and!; [by destruct col|lia|lia|done].
Qed.

Record Recording := mkRecording { change_of : NewTrackedChange; at_ : string; row_id_of : string }.

(** Recordings one after another, with what each returned. *)
Fixpoint track_all (db : Database) (recs : list Recording) (table : list TrackedChangeRow) :
    option (list TrackedChangeRow * list (Result (Z * Z) StoreError)) :=
  match recs with
  | [] => Some (table, [])
  | rec :: recs' =>
      '(table', res) ← track_change db (change_of rec) (at_ rec) (row_id_of rec) table;
      '(table'', results) ← track_all db recs' table';
      Some (table'', res :: results)
  end.

Definition recorded_key (rec : Recording) : StageKey := key_of (normalized (change_of rec)).

(** The lines counted for a file at a stage. *)
Definition counted_one (col : Column) (k : StageKey) (x : Recording * Result (Z * Z) StoreError) : Z :=
  if decide (recorded_key x.1 = k) then match x.2 with Ok d => in_delta col d | Err _ => 0 end else 0.

Definition counted (col : Column) (k : StageKey) (recs : list Recording) (results : list (Result (Z * Z) StoreError)) : Z :=
  sum_with (counted_one col k) (zip recs results).

(** The recorded counters of a file at a stage never fall. *)
Fixpoint growing (h : Z) (l : list Z) : Prop :=
  match l with [] => True | n :: l' => h <= n /\ growing n l' end.

Definition counters_at (col : Column) (k : StageKey) (recs : list Recording) : list Z :=
  in_change col ∘ change_of <$> filter (fun rec => recorded_key rec = k) recs.

Definition is_ok {A E} (r : Result A E) : Prop := match r with Ok _ => True | Err _ => False end.

Lemma in_change_normalized col c : in_change col (normalized c) = in_change col c.
Proof. by destruct col. Qed.

Lemma counted_cons col k rec d recs results :
  counted col k (rec :: recs) (Ok d :: results) =
    (if decide (recorded_key rec = k) then in_delta col d else 0) + counted col k recs results.
Proof. done. Qed.

Lemma counters_at_cons col k rec recs :
  counters_at col k (rec :: recs) =
    if decide (recorded_key rec = k) then in_change col (change_of rec) :: counters_at col k recs
    else counters_at col k recs.
Proof. unfold counters_at. rewrite filter_cons. by case_decide. Qed.


(** ** Runs *)

Definition sqlite : Database := mkDatabase head true true true.

Lemma sqlite_fetches : fetches sqlite.
Proof. intros [|r l]; simpl; [done|set_solver]. Qed.

Definition edit (agent p : string) (added removed : Z) : NewTrackedChange :=
  mkNew "w" p "unstaged" "modified" (Some agent) None None None None None added removed.

Definition shared_file : list Recording :=
  [mkRecording (edit "a" "./src\main.rs" 10 2) "t1" "r1"; mkRecording (edit "b" "src//main.rs" 12 2) "t2" "r2";
   mkRecording (edit "a" "src/main.rs" 12 3) "t3" "r3"].

Lemma edit_ok agent p added removed : counter_ok added -> counter_ok removed -> change_ok (edit agent p added removed).
Proof. by split. Qed.



(** Twelve lines, not thirty-four. *)
Example shared_file_counts :
  option_map snd (track_all sqlite shared_file []) = Some [Ok (10, 2); Ok (2, 0); Ok (0, 1)].
Proof. reflexivity. Qed.

(** Staging a file, editing it and unstaging it leaves an agent two rows for the file at
    one stage: a move does not merge with the row that is there. *)
Definition stage_edit_unstage : list Write :=
  [Track sqlite (edit "a" "f" 10 0) "t1" "r1"; SetStage "w" "f" "unstaged" "staged" "t2";
   Track sqlite (edit "a" "f" 15 0) "t3" "r2"; SetStage "w" "f" "staged" "unstaged" "t4"].

Example unstage_duplicates :
  exists table', apply_writes stage_edit_unstage [] = Some table' /\ ~ quads_unique table' /\
    (row_key <$> filter (same_quad (edit "a" "f" 15 0)) table') = [("r1", "t4"); ("r2", "t3")].
Proof.
  eexists. split; [reflexivity|]. split; [|reflexivity].
  unfold quads_unique. apply (bool_decide_unpack _). vm_compute. done.
Qed.

(** The next edit replaces one of them and is counted against that one only. *)
Example unstage_counts_again :
  option_map snd
    (table' ← apply_writes stage_edit_unstage []; track_change sqlite (edit "a" "f" 15 0) "t5" "r3" table') =
  Some (Ok (5, 0)).
Proof. reflexivity. Qed.
