(* ===== verification/Attribution.v ===== *)
(** * Path attribution ([crates/intent-git/src/attribution.rs])

    Which repository of a worktree with submodules owns a path, whether git still sees a
    change there, and which tracked paths stay locked.  What libgit2 and the file system
    answer is a [Disk], fixed while one call runs; the caches of opened repositories and
    of scans are threaded as the code threads them. *)
From stdpp Require Import prelude strings gmap.
From S2P Require Import Prelude.
From S2P Require Import TrackedChanges.

(** ** Repositories and the disk *)

(** An opened repository: its index and its [HEAD] tree, where there are any, map a path
    to a mode. *)
Record RepoView := mkView {
  v_index : option (string -> option Z);
  v_head : option (string -> option Z);
  is_path_ignored : string -> option bool;
  ignore_case : bool }.

(** What is read of a file's status. *)
Record FileStatus := mkFile { f_path : string; f_mode : option string }.

Inductive GitError := OpenFailed | ScanFailed.

Record Disk := mkDisk {
  git_open : string -> option RepoView;
  files_without_renames : string -> Result (list FileStatus) GitError;
  path_exists : string -> bool;
  symlink_metadata : string -> bool;
  to_lowercase : string -> string }.

Definition GITLINK_MODE : Z := 57344.
Definition MAX_SUBMODULE_NESTING : nat := 10.

(** [u32::try_from] of an [i32]. *)
Definition u32_try_from (z : Z) : option Z := if decide (0 <= z) then Some z else None.

Definition modes (v : RepoView) (rel : string) : option Z * option Z :=
  (i ← v_index v; i rel, t ← v_head v; mode ← t rel; u32_try_from mode).

Definition is_gitlink (v : RepoView) (rel : string) : bool :=
  bool_decide ((modes v rel).1 = Some GITLINK_MODE) || bool_decide ((modes v rel).2 = Some GITLINK_MODE).

Definition is_tracked (v : RepoView) (rel : string) : bool :=
  bool_decide (is_Some (modes v rel).1) || bool_decide (is_Some (modes v rel).2).

Definition view_is_ignored_untracked (v : RepoView) (rel : string) : bool :=
  negb (bool_decide (rel = EmptyString)) && default false (is_path_ignored v rel) && negb (is_tracked v rel).

(** ** Paths *)

(** [parts.join("/")]. *)
Fixpoint join (parts : list string) : string :=
  match parts with
  | [] => EmptyString
  | [p] => p
  | p :: parts' => p +:+ "/" +:+ join parts'
  end.

(** [Path::join] on Unix. *)
Definition join_dir (base rel : string) : string :=
  if bool_decide (head (chars rel) = Some slash) || bool_decide (base = EmptyString) then rel
  else if bool_decide (last (chars base) = Some slash) then base +:+ rel
  else base +:+ "/" +:+ rel.

Definition components (rel : string) : option (list string) :=
  if bool_decide (head (chars rel) = Some slash) then None
  else
    let parts := (fun p => text p) <$> names (chars rel) in
    if bool_decide (parts = []) || bool_decide (".." ∈ parts) then None else Some parts.

Section disk.
Variable disk : Disk.
Implicit Types (views : gmap string (option RepoView)).

(** The loop of [inside_nested_repo], over all parts but the last. *)
Fixpoint nested_from (dir : string) (parts : list string) : bool :=
  match parts with
  | [] | [_] => false
  | part :: parts' =>
      let dir' := join_dir dir part in
      if path_exists disk (join_dir dir' ".git") then true else nested_from dir' parts'
  end.

Definition inside_nested_repo (workdir rel : string) : bool :=
  match components rel with None => false | Some parts => nested_from workdir parts end.

(** ** The owner of a path *)

Record Owner := mkOwner { prefix : string; workdir : string; inner : string }.

(** [Resolver::view]: a repository is opened once. *)
Definition view (wd : string) (views : gmap string (option RepoView)) :
    gmap string (option RepoView) * option RepoView :=
  match views !! wd with
  | Some v => (views, v)
  | None => (<[wd := git_open disk wd]> views, git_open disk wd)
  end.

Definition first_gitlink (v : RepoView) (parts : list string) : option nat :=
  List.find (fun n => is_gitlink v (join (take n parts))) (seq 1 (length parts - 1)).

Fixpoint owner_loop (rounds : nat) (wd pre : string) (parts : list string)
    (views : gmap string (option RepoView)) : gmap string (option RepoView) * option Owner :=
  match rounds with
  | O => (views, None)
  | S rounds' =>
      match view wd views with
      | (views', None) => (views', None)
      | (views', Some v) =>
          match first_gitlink v parts with
          | None => (views', Some (mkOwner pre wd (join parts)))
          | Some n =>
              let sm := join (take n parts) in
              owner_loop rounds' (join_dir wd sm)
                (if bool_decide (pre = EmptyString) then sm else pre +:+ "/" +:+ sm) (drop n parts) views'
          end
      end
  end.

Definition owner (worktree rel_path : string) (views : gmap string (option RepoView)) :
    gmap string (option RepoView) * option Owner :=
  match components rel_path with
  | None => (views, None)
  | Some parts => owner_loop (S MAX_SUBMODULE_NESTING) worktree EmptyString parts views
  end.

Definition is_ignored_untracked (worktree rel_path : string) : bool :=
  match owner worktree rel_path ∅ with
  | (_, None) => false
  | (views, Some o) =>
      match (view (workdir o) views).2 with
      | Some v => view_is_ignored_untracked v (inner o)
      | None => false
      end
  end.

(** [file_tracking::is_ignored_write]; [joined] says that the blocking task did not fail. *)
Definition is_ignored_write (joined : bool) (worktree rel_path : string) : bool :=
  let rel := normalize_path rel_path in
  if bool_decide (rel = EmptyString) then false
  else if joined then is_ignored_untracked worktree rel else false.

(** ** Classifying paths *)

Inductive PathState := Dirty | Clean | Unknown.

#[global] Instance PathState_eq_dec : EqDecision PathState.
Proof. solve_decision. Defined.

Definition fold_case (path : string) (ic : bool) : string := if ic then to_lowercase disk path else path.

Definition dirty_set (wd : string) (ic : bool) : Result (gset string) GitError :=
  match files_without_renames disk wd with
  | Ok files => Ok (list_to_set ((fun f => fold_case (f_path f) ic) <$> files))
  | Err e => Err e
  end.

Definition ok {A E} (r : Result A E) : option A := match r with Ok a => Some a | Err _ => None end.

Record Caches := mkCaches {
  views_of : gmap string (option RepoView);
  scans_of : gmap string (option (gset string)) }.

(** The scan of a repository, done once per prefix. *)
Definition scan (pre wd : string) (ic : bool) (scans : gmap string (option (gset string))) :
    gmap string (option (gset string)) * option (gset string) :=
  match scans !! pre with
  | Some s => (scans, s)
  | None => let s := ok (dirty_set wd ic) in (<[pre := s]> scans, s)
  end.

(** One round of the loop of [classify_paths]. *)
Definition classify_one (worktree path : string) (cs : Caches) : Caches * PathState :=
  match owner worktree path (views_of cs) with
  | (views, None) => (mkCaches views (scans_of cs), Unknown)
  | (views, Some o) =>
      match view (workdir o) views with
      | (views', None) => (mkCaches views' (scans_of cs), Unknown)
      | (views', Some v) =>
          let (scans', set) := scan (prefix o) (workdir o) (ignore_case v) (scans_of cs) in
          (mkCaches views' scans',
           match set with
           | None => Unknown
           | Some set =>
               if bool_decide (fold_case (inner o) (ignore_case v) ∈ set) then Dirty
               else if view_is_ignored_untracked v (inner o) then Clean
               else if inside_nested_repo (workdir o) (inner o) then Unknown
               else Clean
           end)
      end
  end.

Fixpoint classify_loop (worktree : string) (rel_paths : list string) (cs : Caches) : list PathState :=
  match rel_paths with
  | [] => []
  | path :: rel_paths' =>
      let (cs', state) := classify_one worktree path cs in
      state :: classify_loop worktree rel_paths' cs'
  end.

Definition classify_paths (worktree : string) (rel_paths : list string) : Result (list PathState) GitError :=
  match git_open disk worktree with
  | None => Err OpenFailed
  | Some v =>
      match dirty_set worktree (ignore_case v) with
      | Err e => Err e
      | Ok top => Ok (classify_loop worktree rel_paths (mkCaches ∅ {[EmptyString := Some top]}))
      end
  end.

(** ** Lockable paths *)

(** One path the status does not list. *)
Definition keeps (worktree : string) (v : RepoView) (folded : gset string) (dirty_gitlinks : list string)
    (path : string) : bool :=
  let submodule :=
    parts ← components path; (fun n => join (take n parts)) <$> first_gitlink v parts in
  match submodule with
  | Some sm => bool_decide (sm ∈ dirty_gitlinks)
  | None =>
      (ignore_case v && bool_decide (to_lowercase disk path ∈ folded)) ||
      (if negb (symlink_metadata disk (join_dir worktree path)) then is_tracked v path
       else negb (view_is_ignored_untracked v path) && inside_nested_repo worktree path)
  end.

Definition lockable_paths (worktree : string) (status : list FileStatus) (rel_paths : list string) : gset string :=
  let listed : gset string := list_to_set (f_path <$> status) in
  let out : gset string := list_to_set (filter (fun p => p ∈ listed) rel_paths) in
  let unlisted := filter (fun p => p ∉ listed) rel_paths in
  match unlisted with
  | [] => out
  | _ =>
      match git_open disk worktree with
      | None => out ∪ list_to_set unlisted
      | Some v =>
          let folded : gset string :=
            if ignore_case v then list_to_set ((fun p => to_lowercase disk p) <$> elements listed) else ∅ in
          let dirty_gitlinks := f_path <$> filter (fun f => f_mode f = Some "160000") status in
          out ∪ list_to_set (List.filter (keeps worktree v folded dirty_gitlinks) unlisted)
      end
  end.

End disk.

(** ** Which repository owns a path *)

Section spec.
Variable disk : Disk.
Implicit Types (views : gmap string (option RepoView)) (o : Owner) (v : RepoView).

(** The first prefix of a path, not all of it, that is a submodule. *)
Definition submodule_at (v : RepoView) (parts : list string) (n : nat) : Prop :=
  (1 <= n < length parts)%nat /\ is_gitlink v (join (take n parts)) = true /\
  forall m, (1 <= m < n)%nat -> is_gitlink v (join (take m parts)) = false.

Definition no_submodule (v : RepoView) (parts : list string) : Prop :=
  forall m, (1 <= m < length parts)%nat -> is_gitlink v (join (take m parts)) = false.

(** [Owns k wd pre parts o]: from the repository at [wd], reached as [pre], the path
    [parts] leads to the owner [o] through fewer than [k] submodules, every repository on
    the way open. *)
Inductive Owns : nat -> string -> string -> list string -> Owner -> Prop :=
| owns_here k wd pre parts v :
    git_open disk wd = Some v -> no_submodule v parts ->
    Owns (S k) wd pre parts (mkOwner pre wd (join parts))
| owns_below k wd pre parts v n o :
    git_open disk wd = Some v -> submodule_at v parts n ->
    Owns k (join_dir wd (join (take n parts)))
      (if bool_decide (pre = EmptyString) then join (take n parts) else pre +:+ "/" +:+ join (take n parts))
      (drop n parts) o ->
    Owns (S k) wd pre parts o.

Definition owns (worktree path : string) (o : Owner) : Prop :=
  exists parts, components path = Some parts /\ Owns (S MAX_SUBMODULE_NESTING) worktree EmptyString parts o.

Lemma first_gitlink_some v parts n : first_gitlink v parts = Some n <-> submodule_at v parts n.
Proof.
  unfold first_gitlink, submodule_at. generalize (length parts) as len_. intros len_.
  enough (H : forall a k, List.find (fun n => is_gitlink v (join (take n parts))) (seq a k) = Some n <->
    (a <= n < a + k)%nat /\ is_gitlink v (join (take n parts)) = true /\
    forall m, (a <= m < n)%nat -> is_gitlink v (join (take m parts)) = false).
  { rewrite H. destruct len_; [split; intros (? & _); lia|]. replace (1 + (S len_ - 1))%nat with (S len_) by lia. done. }
  intros a k. revert a. induction k as [|k IH]; intros a; simpl; [split; [done|intros (? & _); lia]|].
  destruct (is_gitlink v (join (take a parts))) eqn:Ha.
  - split; [intros [= ->]; split_and!; [lia|lia|done|intros; lia]|]. intros (Hn & Hl & Hm). f_equal.
    destruct (decide (a = n)); [done|]. rewrite Hm in Ha by lia. done.
  - rewrite IH. split; intros (Hn & Hl & Hm); split_and!; try done; try lia.
    + intros m ?. destruct (decide (m = a)); [by subst|apply Hm; lia].
    + destruct (decide (a = n)); [congruence|lia].
    + intros m ?. apply Hm. lia.
Qed.

Lemma first_gitlink_none v parts : first_gitlink v parts = None <-> no_submodule v parts.
Proof.
  split.
  - intros E m Hm. unfold first_gitlink in E. apply (List.find_none _ _ E). apply in_seq. lia.
  - intros Hn. destruct (first_gitlink v parts) as [n|] eqn:E; [|done].
    apply first_gitlink_some in E as (? & Hl & _). rewrite Hn in Hl by done. done.
Qed.

Lemma owns_functional k wd pre parts o1 o2 : Owns k wd pre parts o1 -> Owns k wd pre parts o2 -> o1 = o2.
Proof.
  intros H1. revert o2. induction H1 as [k wd pre parts v Ho Hn|k wd pre parts v n o1 Ho Hn _ IH]; intros o2 H2;
    inversion H2 as [k' wd' pre' parts' v' Ho' Hn'|k' wd' pre' parts' v' n' o' Ho' Hn' Hrest]; subst; simplify_eq;
    rewrite <- ?first_gitlink_none, <- ?first_gitlink_some in *; try congruence.
  apply IH. by replace n with n' by congruence.
Qed.

(** ** Caches *)

(** The resolver only holds what opening a repository answers. *)
Definition views_ok (views : gmap string (option RepoView)) : Prop :=
  forall wd w, views !! wd = Some w -> w = git_open disk wd.

Lemma view_spec wd views :
  views_ok views -> views_ok (view disk wd views).1 /\ (view disk wd views).2 = git_open disk wd.
Proof.
  intros Hv. unfold view. destruct (views !! wd) as [v|] eqn:E; simpl; [split; [done|by apply Hv]|].
  split; [|done]. intros wd' v'. rewrite lookup_insert_Some. intros [[-> <-]|[_ ?]]; [done|by apply Hv].
Qed.

Lemma owner_loop_spec k wd pre parts views :
  views_ok views ->
  views_ok (owner_loop disk k wd pre parts views).1 /\
  forall o, (owner_loop disk k wd pre parts views).2 = Some o <-> Owns k wd pre parts o.
Proof.
  revert wd pre parts views. induction k as [|k IH]; intros wd pre parts views Hv; simpl.
  { split; [done|]. intros o. split; [done|]. by inversion 1. }
  destruct (view_spec wd views Hv) as [Hv' E]. destruct (view disk wd views) as [views' w]. simpl in *. subst w.
  destruct (git_open disk wd) as [v|] eqn:Ho; simpl.
  2:{ split; [done|]. intros o. split; [done|]. inversion 1; simplify_eq. }
  destruct (first_gitlink v parts) as [n|] eqn:En; simpl.
  - destruct (IH (join_dir wd (join (take n parts)))
      (if bool_decide (pre = EmptyString) then join (take n parts) else pre +:+ "/" +:+ join (take n parts))
      (drop n parts) views' Hv') as [Hv'' Hiff]. split; [done|]. intros o. rewrite Hiff. split.
    + intros. apply first_gitlink_some in En. by eapply owns_below.
    + inversion 1; simplify_eq.
      * rewrite <- first_gitlink_none in *. congruence.
      * rewrite <- first_gitlink_some in *. by simplify_eq.
  - split; [done|]. intros o. split.
    + intros [= <-]. apply first_gitlink_none in En. by eapply owns_here.
    + inversion 1; simplify_eq; [done|]. rewrite <- first_gitlink_some in *. congruence.
Qed.

Lemma owner_spec worktree path views :
  views_ok views ->
  views_ok (owner disk worktree path views).1 /\
  forall o, (owner disk worktree path views).2 = Some o <-> owns worktree path o.
Proof.
  intros Hv. unfold owner, owns. destruct (components path) as [parts|].
  - destruct (owner_loop_spec (S MAX_SUBMODULE_NESTING) worktree EmptyString parts views Hv) as [? H].
    split; [done|]. intros o. rewrite H. split; [eauto|]. by intros (parts' & [= <-] & ?).
  - split; [done|]. intros o. split; [done|]. by intros (parts' & ? & _).
Qed.

Lemma owns_open worktree path o : owns worktree path o -> exists v, git_open disk (workdir o) = Some v.
Proof. intros (parts & _ & H). induction H; simpl; eauto. Qed.

(** ** An owner's directory and path *)

Definition clean_part (p : string) : Prop := p <> EmptyString /\ slash ∉ chars p.

(** A relative path that begins and ends with a name. *)
Definition relative (p : string) : Prop :=
  p <> EmptyString /\ head (chars p) <> Some slash /\ last (chars p) <> Some slash.

Lemma append_cons x (a b : string) : String x a +:+ b = String x (a +:+ b).
Proof. done. Qed.

Lemma chars_append a b : chars (a +:+ b) = chars a ++ chars b.
Proof. induction a as [|x a IH]; [done|]. rewrite append_cons. cbn. by rewrite IH. Qed.

Lemma append_assoc (a b c : string) : (a +:+ b) +:+ c = a +:+ b +:+ c.
Proof. induction a as [|x a IH]; [done|]. by rewrite !append_cons, IH. Qed.

Lemma chars_nil p : chars p = [] <-> p = EmptyString.
Proof. by destruct p. Qed.

Lemma split_on_clean c l p : p ∈ split_on c l -> c ∉ p.
Proof.
  revert p. induction l as [|x l IH]; intros p; simpl.
  { intros ->%list_elem_of_singleton. apply not_elem_of_nil. }
  case_bool_decide as Hx.
  - rewrite elem_of_cons. intros [->|?]; [apply not_elem_of_nil|auto].
  - destruct (split_on_cons c l) as (q & qs & E). rewrite E in *. rewrite elem_of_cons. intros [->|?].
    + assert (c ∉ q) by (apply IH; set_solver). set_solver.
    + apply IH. set_solver.
Qed.

Lemma components_clean rel parts : components rel = Some parts -> parts <> [] /\ Forall clean_part parts.
Proof.
  unfold components. case_bool_decide; [done|]. case_bool_decide as Hn; [done|]. case_bool_decide; [done|].
  intros [= <-]. split; [done|]. apply Forall_forall. intros ? (p & -> & Hp)%list_elem_of_fmap.
  unfold names in Hp. apply list_elem_of_In, filter_In in Hp as [Hp Hname]. apply list_elem_of_In in Hp. split.
  - intros E. rewrite <- chars_nil, String.list_ascii_of_string_of_list_ascii in E. by subst.
  - rewrite String.list_ascii_of_string_of_list_ascii. by eapply split_on_clean.
Qed.

Lemma clean_relative p : clean_part p -> relative p.
Proof.
  intros [Hn Hs]. split_and!; [done|..].
  - intros H%head_Some_elem_of. done.
  - intros H%last_Some_elem_of. done.
Qed.

Lemma relative_join_two p q : relative p -> relative q -> relative (p +:+ "/" +:+ q).
Proof.
  intros (Hp & Hph & Hpl) (Hq & Hqh & Hql). rewrite <- chars_nil in Hp, Hq. unfold relative.
  rewrite <- chars_nil, !chars_append. destruct (chars p) as [|x l]; [done|]. split_and!; [done..|].
  rewrite app_assoc, last_app. destruct (last (chars q)) eqn:E; [done|]. by apply last_None in E.
Qed.

Lemma join_relative parts : parts <> [] -> Forall clean_part parts -> relative (join parts).
Proof.
  intros Hn H. induction H as [|p parts Hp H IH]; [done|]. apply clean_relative in Hp.
  destruct parts as [|q parts]; [done|]. apply relative_join_two; auto.
Qed.

Lemma join_take_drop n parts :
  (1 <= n < length parts)%nat -> join parts = join (take n parts) +:+ "/" +:+ join (drop n parts).
Proof.
  revert n. induction parts as [|p parts IH]; intros n Hn; simpl in *; [lia|]. destruct n as [|n]; [lia|].
  destruct parts as [|q parts]; simpl in *; [lia|]. destruct n as [|n]; [done|].
  rewrite (IH (S n)) by lia. cbn [take drop]. destruct (take (S n) (q :: parts)) eqn:E; [done|].
  cbn in E. simplify_eq. by rewrite !append_assoc.
Qed.

(** Where a repository reached as [pre] lies, and a path below it. *)
Definition dir_of (worktree pre : string) : string :=
  if bool_decide (pre = EmptyString) then worktree else join_dir worktree pre.

Definition below (pre rel : string) : string :=
  if bool_decide (pre = EmptyString) then rel else pre +:+ "/" +:+ rel.

Definition reached (pre : string) : Prop := pre = EmptyString \/ relative pre.

Lemma join_dir_relative base rel :
  relative rel ->
  exists base', join_dir base rel = base' +:+ rel /\ forall rel', relative rel' -> join_dir base rel' = base' +:+ rel'.
Proof.
  intros (_ & Hh & _). unfold join_dir. rewrite bool_decide_false by done. simpl. repeat case_bool_decide.
  1-2: exists EmptyString. 3: exists base. 4: exists (base +:+ "/").
  all: split; [by rewrite ?append_assoc|]; intros rel' (_ & Hh' & _); rewrite bool_decide_false by done; simpl;
    by rewrite ?append_assoc.
Qed.

Lemma join_dir_below worktree pre sm :
  relative pre -> relative sm -> join_dir worktree (pre +:+ "/" +:+ sm) = join_dir (join_dir worktree pre) sm.
Proof.
  intros Hp Hs. destruct (join_dir_relative worktree pre Hp) as (base & -> & Hb).
  rewrite Hb by (by apply relative_join_two). destruct Hp as (Hn & _ & Hl), Hs as (_ & Hh & _).
  unfold join_dir. rewrite (bool_decide_false (head _ = _)) by done. rewrite <- chars_nil in Hn.
  rewrite (bool_decide_false (base +:+ pre = _)).
  2:{ rewrite <- chars_nil, chars_append. by destruct (chars base), (chars pre). }
  rewrite bool_decide_false; [simpl; by rewrite append_assoc|].
  rewrite chars_append, last_app. destruct (last (chars pre)) eqn:E; [done|]. by apply last_None in E.
Qed.

Lemma reached_below worktree pre sm :
  reached pre -> relative sm -> dir_of worktree (below pre sm) = join_dir (dir_of worktree pre) sm /\ reached (below pre sm).
Proof.
  intros Hp Hs. unfold dir_of, below. destruct Hp as [->|Hp].
  - rewrite !(bool_decide_true (EmptyString = EmptyString)) by done. rewrite bool_decide_false by apply Hs. split; [done|by right].
  - rewrite !(bool_decide_false (pre = _)) by apply Hp. pose proof (relative_join_two _ _ Hp Hs) as Hj.
    rewrite bool_decide_false by apply Hj. split; [by apply join_dir_below|by right].
Qed.

(** An owner is where its prefix says, and prefix and inner path spell the path. *)
Lemma owns_place worktree k wd pre parts o :
  Owns k wd pre parts o -> reached pre -> wd = dir_of worktree pre -> parts <> [] -> Forall clean_part parts ->
  workdir o = dir_of worktree (prefix o) /\ below (prefix o) (inner o) = below pre (join parts).
Proof.
  induction 1 as [k wd pre parts v _ _|k wd pre parts v n o _ (Hn & _) _ IH]; intros Hr -> Hne Hc; [done|].
  assert (Hs : relative (join (take n parts))).
  { apply join_relative; [intros E%(f_equal length); rewrite length_take in E; simpl in E; lia|by apply Forall_take]. }
  destruct (reached_below worktree pre _ Hr Hs) as [Hd Hr'].
  destruct IH as [Hw Hb]; [exact Hr'|by rewrite <- Hd| |by apply Forall_drop|].
  { intros E%(f_equal length). rewrite length_drop in E. simpl in E. lia. }
  split; [done|]. rewrite Hb, (join_take_drop n parts Hn). fold (below pre (join (take n parts))).
  unfold below. destruct Hr as [->|Hp].
  - rewrite (bool_decide_true (EmptyString = EmptyString)) by done. by rewrite bool_decide_false by apply Hs.
  - rewrite (bool_decide_false (pre = _)) by apply Hp.
    rewrite bool_decide_false by (apply relative_join_two; [apply Hp|apply Hs]). by rewrite !append_assoc.
Qed.

Lemma owns_dir worktree path o : owns worktree path o -> workdir o = dir_of worktree (prefix o).
Proof.
  intros (parts & [Hne Hc]%components_clean & Ho). by eapply owns_place; [done|by left|..].
Qed.

(** ** The verdict on a path *)

Definition listed_in (v : RepoView) (files : list FileStatus) (path : string) : Prop :=
  exists f, f ∈ files /\ fold_case disk (f_path f) (ignore_case v) = fold_case disk path (ignore_case v).

(** What [PathState] means: the owner's status lists the path; or it does not, and the
    path is ignored or no repository of its own lies above it; or nobody can tell. *)
Inductive Judged (worktree path : string) : PathState -> Prop :=
| judged_dirty o v files :
    owns worktree path o -> git_open disk (workdir o) = Some v ->
    files_without_renames disk (workdir o) = Ok files -> listed_in v files (inner o) ->
    Judged worktree path Dirty
| judged_clean o v files :
    owns worktree path o -> git_open disk (workdir o) = Some v ->
    files_without_renames disk (workdir o) = Ok files -> ~ listed_in v files (inner o) ->
    view_is_ignored_untracked v (inner o) = true \/ inside_nested_repo disk (workdir o) (inner o) = false ->
    Judged worktree path Clean
| judged_nested o v files :
    owns worktree path o -> git_open disk (workdir o) = Some v ->
    files_without_renames disk (workdir o) = Ok files -> ~ listed_in v files (inner o) ->
    view_is_ignored_untracked v (inner o) = false -> inside_nested_repo disk (workdir o) (inner o) = true ->
    Judged worktree path Unknown
| judged_unscanned o e :
    owns worktree path o -> files_without_renames disk (workdir o) = Err e -> Judged worktree path Unknown
| judged_unowned : (forall o, ~ owns worktree path o) -> Judged worktree path Unknown.

Lemma owns_unique worktree path o1 o2 : owns worktree path o1 -> owns worktree path o2 -> o1 = o2.
Proof. intros (parts & E & H1) (parts' & E' & H2). simplify_eq. by eapply owns_functional. Qed.

Lemma judged_unique worktree path s1 s2 : Judged worktree path s1 -> Judged worktree path s2 -> s1 = s2.
Proof.
  destruct 1; destruct 1; try done; try (exfalso; by eauto);
    repeat match goal with
      | H1 : owns _ _ ?o1, H2 : owns _ _ ?o2 |- _ =>
          first [constr_eq o1 o2; fail 1|pose proof (owns_unique _ _ _ _ H1 H2); subst]
      end; simplify_eq; first [intuition congruence|naive_solver].
Qed.

Definition scans_ok (worktree : string) (scans : gmap string (option (gset string))) : Prop :=
  forall pre s v, scans !! pre = Some s -> git_open disk (dir_of worktree pre) = Some v ->
    s = ok (dirty_set disk (dir_of worktree pre) (ignore_case v)).

Lemma scan_spec worktree pre v scans :
  scans_ok worktree scans -> git_open disk (dir_of worktree pre) = Some v ->
  scans_ok worktree (scan disk pre (dir_of worktree pre) (ignore_case v) scans).1 /\
  (scan disk pre (dir_of worktree pre) (ignore_case v) scans).2 =
    ok (dirty_set disk (dir_of worktree pre) (ignore_case v)).
Proof.
  intros Hs Hv. unfold scan. destruct (scans !! pre) as [s|] eqn:E; simpl; [split; [done|by eapply Hs]|].
  split; [|done]. intros pre' s' v'. rewrite lookup_insert_Some. intros [[-> <-]|[_ ?]] ?; [by simplify_eq|by eapply Hs].
Qed.

Lemma dirty_set_listed wd v files path set :
  files_without_renames disk wd = Ok files -> dirty_set disk wd (ignore_case v) = Ok set ->
  fold_case disk path (ignore_case v) ∈ set <-> listed_in v files path.
Proof.
  unfold dirty_set, listed_in. intros -> [= <-]. rewrite elem_of_list_to_set, list_elem_of_fmap. naive_solver.
Qed.

Lemma classify_one_spec worktree path cs :
  views_ok (views_of cs) -> scans_ok worktree (scans_of cs) ->
  views_ok (views_of (classify_one disk worktree path cs).1) /\
  scans_ok worktree (scans_of (classify_one disk worktree path cs).1) /\
  Judged worktree path (classify_one disk worktree path cs).2.
Proof.
  intros Hv Hs. unfold classify_one. destruct (owner_spec worktree path _ Hv) as [Hv1 Ho].
  destruct (owner disk worktree path (views_of cs)) as [views [o|]]; simpl in *.
  2:{ split_and!; [done..|]. apply judged_unowned. intros o H%Ho. done. }
  assert (Hown : owns worktree path o) by (by apply Ho). destruct (owns_open _ _ _ Hown) as [v Hopen].
  destruct (view_spec (workdir o) views Hv1) as [Hv2 Ev]. destruct (view disk (workdir o) views) as [views' w].
  simpl in *. subst w. rewrite Hopen. pose proof (owns_dir _ _ _ Hown) as Hd.
  destruct (scan_spec worktree (prefix o) v (scans_of cs) Hs) as [Hs1 Es]; [by rewrite <- Hd|]. rewrite <- Hd in *.
  destruct (scan disk (prefix o) (workdir o) (ignore_case v) (scans_of cs)) as [scans' set]. simpl in *. subst set.
  split_and!; [done..|]. destruct (files_without_renames disk (workdir o)) as [files|e] eqn:Ef.
  2:{ unfold dirty_set. rewrite Ef. by eapply judged_unscanned. }
  destruct (dirty_set disk (workdir o) (ignore_case v)) as [set|e] eqn:Eset; [|unfold dirty_set in Eset; by rewrite Ef in Eset].
  simpl. pose proof (dirty_set_listed _ _ _ (inner o) _ Ef Eset) as Hl. case_bool_decide as Hin.
  { eapply judged_dirty; try done. by apply Hl. }
  rewrite Hl in Hin. destruct (view_is_ignored_untracked v (inner o)) eqn:Ei; [eapply judged_clean; eauto|].
  destruct (inside_nested_repo disk (workdir o) (inner o)) eqn:En; [eapply judged_nested; eauto|eapply judged_clean; eauto].
Qed.

Lemma classify_loop_spec worktree paths cs :
  views_ok (views_of cs) -> scans_ok worktree (scans_of cs) ->
  Forall2 (Judged worktree) paths (classify_loop disk worktree paths cs).
Proof.
  revert cs. induction paths as [|path paths IH]; intros cs Hv Hs; simpl; [done|].
  destruct (classify_one_spec worktree path cs Hv Hs) as (Hv' & Hs' & Hj).
  destruct (classify_one disk worktree path cs) as [cs' state]. simpl in *. auto.
Qed.

Lemma classify_paths_judged worktree paths states :
  classify_paths disk worktree paths = Ok states -> Forall2 (Judged worktree) paths states.
Proof.
  unfold classify_paths. destruct (git_open disk worktree) as [v|] eqn:Ho; [|done].
  destruct (dirty_set disk worktree (ignore_case v)) as [top|e] eqn:Ed; [|done]. intros [= <-]. apply classify_loop_spec.
  - intros wd w. cbn [views_of]. by rewrite lookup_empty.
  - intros pre s v'. cbn [scans_of]. rewrite lookup_singleton_Some. intros [<- <-]. unfold dir_of.
    rewrite bool_decide_true by done. intros ?. simplify_eq. by rewrite Ed.
Qed.

(** [C10] Paths are classified by the repository that owns them.  Unless the worktree
    cannot be opened or scanned, which is an error, every path gets the one verdict of its
    own: dirty exactly when its owner, found by descending through the first submodule on
    the path again and again, lists it up to case where case does not count; clean when
    the owner was scanned, does not list it and it is ignored or under no repository of
    its own; and unknown when it has no owner, the owner cannot be scanned, or the path is
    inside a repository the owner does not track.  Neither the cache of repositories nor
    the one of scans is ever wrong for a later path. *)
Theorem classify_paths_exact (worktree : string) (paths : list string) :
  match classify_paths disk worktree paths with
  | Ok states =>
      (exists v files, git_open disk worktree = Some v /\ files_without_renames disk worktree = Ok files) /\
      Forall2 (fun path state => forall s, Judged worktree path s <-> s = state) paths states
  | Err _ => git_open disk worktree = None \/ exists e, files_without_renames disk worktree = Err e
  end.
Proof.
  pose proof (classify_paths_judged worktree paths) as Hj. revert Hj.
  unfold classify_paths. destruct (git_open disk worktree) as [v|] eqn:Ho; [|by left].
  unfold dirty_set. destruct (files_without_renames disk worktree) as [files|e] eqn:Ef; [|intros _; right; eauto].
  intros Hj. split; [by exists v, files|]. eapply Forall2_impl; [by apply Hj|].
  intros path state Hs s. split; [intros ?; by eapply judged_unique|by intros ->].
Qed.

(** ** Lockable paths *)

(** How a status that detects renames relates to scans that do not: a change is listed,
    unless it is the old side of a rename, a tracked path that is gone from the disk; and
    a submodule with changes inside is listed as a changed gitlink. *)
Record status_covers (worktree : string) (v : RepoView) (status : list FileStatus) : Prop := {
  covers_changes files f :
    files_without_renames disk worktree = Ok files -> f ∈ files ->
    (exists g, g ∈ status /\ f_path g = f_path f) \/
    (is_tracked v (f_path f) = true /\ symlink_metadata disk (join_dir worktree (f_path f)) = false);
  covers_submodules parts n o files f :
    submodule_at v parts n -> Owns (S MAX_SUBMODULE_NESTING) worktree EmptyString parts o ->
    files_without_renames disk (workdir o) = Ok files -> f ∈ files ->
    exists g, g ∈ status /\ f_path g = join (take n parts) /\ f_mode g = Some "160000" }.

(** Spelled with its names only, as tracked paths are. *)
Definition spelled (path : string) (parts : list string) : Prop := components path = Some parts /\ path = join parts.

Definition folded_of (v : RepoView) (status : list FileStatus) : gset string :=
  if ignore_case v then
    list_to_set ((fun p => to_lowercase disk p) <$> elements (list_to_set (f_path <$> status) : gset string))
  else ∅.

Definition gitlinks_of (status : list FileStatus) : list string :=
  f_path <$> filter (fun f => f_mode f = Some "160000") status.

Lemma lockable_paths_elem worktree status paths path v :
  git_open disk worktree = Some v ->
  path ∈ lockable_paths disk worktree status paths <->
    path ∈ paths /\ (path ∈ f_path <$> status \/ keeps disk worktree v (folded_of v status) (gitlinks_of status) path = true).
Proof.
  intros Ho. unfold lockable_paths. rewrite Ho. fold (folded_of v status) (gitlinks_of status).
  destruct (filter (fun p => p ∉ (list_to_set (f_path <$> status) : gset string)) paths) as [|q qs] eqn:E.
  - rewrite elem_of_list_to_set, list_elem_of_filter, elem_of_list_to_set. split; [tauto|].
    intros [Hp _]. split; [|done]. apply dec_stable. intros Hn.
    refine (filter_nil_not_elem_of _ _ path E _ Hp). by rewrite elem_of_list_to_set.
  - rewrite elem_of_union, !elem_of_list_to_set, list_elem_of_filter, elem_of_list_to_set.
    rewrite <- E. rewrite (list_elem_of_In (List.filter _ _)), filter_In, <- list_elem_of_In, list_elem_of_filter, elem_of_list_to_set.
    destruct (decide (path ∈ f_path <$> status)); tauto.
Qed.

Lemma lockable_unopened worktree status paths path :
  git_open disk worktree = None -> path ∈ paths -> path ∈ lockable_paths disk worktree status paths.
Proof.
  intros Ho Hin. unfold lockable_paths. rewrite Ho. set (listed := list_to_set _ : gset string).
  destruct (filter (fun p => p ∉ listed) paths) as [|q qs] eqn:E.
  - rewrite elem_of_list_to_set, list_elem_of_filter. split; [|done]. apply dec_stable. intros Hn.
    exact (filter_nil_not_elem_of _ _ path E Hn Hin).
  - rewrite <- E, elem_of_union, !elem_of_list_to_set, !list_elem_of_filter. destruct (decide (path ∈ listed)); tauto.
Qed.

Lemma keeps_submodule worktree v folded links path parts n :
  components path = Some parts -> submodule_at v parts n -> join (take n parts) ∈ links ->
  keeps disk worktree v folded links path = true.
Proof.
  unfold keeps. intros -> Hn%first_gitlink_some Hl. simpl. rewrite Hn. simpl. by rewrite bool_decide_true.
Qed.

Lemma keeps_top worktree v folded links path parts :
  components path = Some parts -> no_submodule v parts ->
  keeps disk worktree v folded links path =
    (ignore_case v && bool_decide (to_lowercase disk path ∈ folded)) ||
    (if negb (symlink_metadata disk (join_dir worktree path)) then is_tracked v path
     else negb (view_is_ignored_untracked v path) && inside_nested_repo disk worktree path).
Proof. unfold keeps. intros -> Hn%first_gitlink_none. simpl. by rewrite Hn. Qed.

(** The old side of a rename, spelled in another case. *)
Definition renamed_in_other_case (worktree : string) (v : RepoView) (path : string) : Prop :=
  ignore_case v = true /\
  exists files f, files_without_renames disk worktree = Ok files /\ f ∈ files /\ f_path f <> path /\
    to_lowercase disk (f_path f) = to_lowercase disk path /\
    is_tracked v (f_path f) = true /\ symlink_metadata disk (join_dir worktree (f_path f)) = false.

Lemma top_change_kept worktree v status files path parts :
  status_covers worktree v status -> spelled path parts -> no_submodule v parts ->
  files_without_renames disk worktree = Ok files -> listed_in v files path ->
  path ∈ f_path <$> status \/ keeps disk worktree v (folded_of v status) (gitlinks_of status) path = true \/
  renamed_in_other_case worktree v path.
Proof.
  intros Hcov [Hc Hj] Hn Hf (f & Hin & Hfold). rewrite (keeps_top _ _ _ _ _ _ Hc Hn). unfold fold_case in Hfold.
  destruct (covers_changes _ _ _ Hcov files f Hf Hin) as [(g & Hg & Eg)|[Ht Hm]].
  - destruct (ignore_case v) eqn:Hic; [right; left|left; rewrite <- Hfold, <- Eg; by apply list_elem_of_fmap_2].
    simpl. rewrite bool_decide_true; [done|]. unfold folded_of. rewrite Hic, elem_of_list_to_set, <- Hfold, <- Eg.
    apply (list_elem_of_fmap_2 (fun p => to_lowercase disk p)).
    by apply elem_of_elements, elem_of_list_to_set, list_elem_of_fmap_2.
  - destruct (decide (f_path f = path)) as [E|E].
    + right. left. rewrite <- E, Hm, Ht. by destruct (_ && _).
    + right. right. destruct (ignore_case v) eqn:Hic; [|done]. split; [done|]. by exists files, f.
Qed.

(** No agent loses the lock on a change.  Let the cached status cover the scans, as a
    git status with rename detection does.  Then a tracked path that classification calls
    dirty, in the worktree or in a submodule at any depth, is lockable, the one exception
    being the old side of a rename recorded in another case where case does not count; so
    is a path that exists inside a repository the worktree does not track; and when the
    worktree cannot be opened every path is. *)
Lemma lockable_keeps_dirty (worktree path : string) (parts paths : list string) (status : list FileStatus) :
  path ∈ paths -> spelled path parts ->
  match git_open disk worktree with
  | None => path ∈ lockable_paths disk worktree status paths
  | Some v =>
      (status_covers worktree v status -> Judged worktree path Dirty ->
       path ∈ lockable_paths disk worktree status paths \/ renamed_in_other_case worktree v path) /\
      (no_submodule v parts -> symlink_metadata disk (join_dir worktree path) = true ->
       view_is_ignored_untracked v path = false -> inside_nested_repo disk worktree path = true ->
       path ∈ lockable_paths disk worktree status paths)
  end.
Proof.
  intros Hin Hsp. destruct (git_open disk worktree) as [v|] eqn:Ho.
  2: by apply lockable_unopened.
  rewrite (lockable_paths_elem _ _ _ _ _ Ho). split.
  - intros Hcov Hj. inversion Hj as [o v' files (parts' & Hc & Hown) Hv Hf Hl| | | |]; subst.
    destruct Hsp as [Hc' Hsp]. simplify_eq. inversion Hown as [k wd pre ps w Hw Hn|k wd pre ps w n o' Hw Hn Hrest]; subst; simpl in *.
    + simplify_eq. destruct (top_change_kept worktree v status files (join parts) parts) as [?|[?|?]]; auto. by split.
    + simplify_eq. left. split; [done|]. right. destruct Hl as (f & Hfin & _).
      destruct (covers_submodules _ _ _ Hcov parts n o files f Hn Hown Hf Hfin) as (g & Hg & Eg & Em).
      eapply keeps_submodule; [done..|]. rewrite <- Eg. apply list_elem_of_fmap_2. by apply list_elem_of_filter.
  - intros Hn Hm Hi Hnest. destruct Hsp as [Hc _]. split; [done|]. right.
    rewrite (keeps_top _ _ _ _ _ _ Hc Hn), Hm, Hi, Hnest. by destruct (_ && _).
Qed.

(** ** Ignored writes *)

Lemma views_ok_empty : views_ok ∅.
Proof. intros wd w. by rewrite lookup_empty. Qed.

Lemma is_ignored_untracked_spec worktree path :
  is_ignored_untracked disk worktree path = true <->
  exists o v, owns worktree path o /\ git_open disk (workdir o) = Some v /\ view_is_ignored_untracked v (inner o) = true.
Proof.
  unfold is_ignored_untracked. destruct (owner_spec worktree path ∅ views_ok_empty) as [Hv Ho].
  destruct (owner disk worktree path ∅) as [views [o|]]; simpl in *.
  - rewrite (proj2 (view_spec (workdir o) views Hv)). assert (Hown : owns worktree path o) by (by apply Ho). split.
    + case_match; [|done]. eauto.
    + intros (o' & v & Hown' & E & Hi). rewrite (owns_unique _ _ _ _ Hown Hown'), E. done.
  - split; [done|]. by intros (o & v & H%Ho & _).
Qed.

(** A write that is not recorded is one the sweep would prune: git never lists an ignored
    path it does not track. *)
Lemma ignored_write_clean joined worktree path :
  (forall wd v files p, git_open disk wd = Some v -> files_without_renames disk wd = Ok files ->
     view_is_ignored_untracked v p = true -> ~ listed_in v files p) ->
  is_ignored_write disk joined worktree path = true ->
  Judged worktree (normalize_path path) Clean \/
  exists o e, owns worktree (normalize_path path) o /\ files_without_renames disk (workdir o) = Err e.
Proof.
  intros Hgit. unfold is_ignored_write. case_bool_decide; [done|]. destruct joined; [|done].
  rewrite is_ignored_untracked_spec. intros (o & v & Hown & Hv & Hi).
  destruct (files_without_renames disk (workdir o)) as [files|e] eqn:E; [left|right; eauto].
  eapply judged_clean; [done..| |by left]. by eapply Hgit.
Qed.

End spec.

(** ** A worktree with a rename and a dirty submodule *)

Definition modes_of (l : list (string * Z)) (p : string) : option Z := (list_to_map l : gmap string Z) !! p.

Definition super_view : RepoView :=
  mkView (Some (modes_of [("sub", 57344); ("new.rs", 33188)])) (Some (modes_of [("sub", 57344); ("old.rs", 33188)]))
    (fun _ => Some false) false.

Definition sub_view : RepoView :=
  mkView (Some (modes_of [("lib.rs", 33188)])) (Some (modes_of [("lib.rs", 33188)])) (fun _ => Some false) false.

Definition example_disk : Disk :=
  mkDisk
    (fun wd => if bool_decide (wd = "/w") then Some super_view else if bool_decide (wd = "/w/sub") then Some sub_view else None)
    (fun wd => if bool_decide (wd = "/w") then Ok [mkFile "old.rs" None; mkFile "new.rs" None; mkFile "sub" (Some "160000")]
               else if bool_decide (wd = "/w/sub") then Ok [mkFile "lib.rs" None] else Err OpenFailed)
    (fun _ => false) (fun p => negb (bool_decide (p = "/w/old.rs"))) (fun p => p).

Definition example_status : list FileStatus := [mkFile "new.rs" None; mkFile "sub" (Some "160000")].

Example classify_example :
  classify_paths example_disk "/w" ["old.rs"; "sub/lib.rs"; "sub/main.rs"; "README.md"; "../x"; "gone/x"] =
  Ok [Dirty; Dirty; Clean; Clean; Unknown; Clean].
Proof. reflexivity. Qed.

Lemma super_gitlink p : is_gitlink super_view p = true -> p = "sub".
Proof.
  unfold is_gitlink, modes, super_view, modes_of. cbn [v_index v_head mbind option_bind fst snd].
  rewrite orb_true_iff, !bool_decide_eq_true. cbn [list_to_map foldr curry uncurry].
  intros [H|H]; [|destruct (_ !! p) as [m|] eqn:E in H; [|done]; rename E into Hm;
    cbn in H; unfold u32_try_from in H; case_decide; [|done]; injection H as ->; rename Hm into H];
    repeat (rewrite lookup_insert_Some in H; destruct H as [[<- ?]|[_ H]]; [done|]); by rewrite lookup_empty in H.
Qed.

Lemma example_covers : status_covers example_disk "/w" super_view example_status.
Proof.
  split.
  - intros files f [= <-] Hf. repeat (apply elem_of_cons in Hf as [->|Hf]); [right| | |by apply not_elem_of_nil in Hf].
    + done.
    + left. exists (mkFile "new.rs" None). split; [set_solver|done].
    + left. exists (mkFile "sub" (Some "160000")). split; [set_solver|done].
  - intros parts n o files f (_ & Hl & _) _ _ _. exists (mkFile "sub" (Some "160000")).
    split_and!; [set_solver| |done]. by rewrite (super_gitlink _ Hl).
Qed.

Lemma example_dirty : Judged example_disk "/w" "sub/lib.rs" Dirty.
Proof.
  apply (judged_dirty example_disk "/w" "sub/lib.rs" (mkOwner "sub" "/w/sub" "lib.rs") sub_view [mkFile "lib.rs" None]).
  - apply (proj2 (owner_spec example_disk "/w" "sub/lib.rs" ∅ (views_ok_empty _))). reflexivity.
  - reflexivity.
  - reflexivity.
  - exists (mkFile "lib.rs" None). split; [set_solver|done].
Qed.

Example lockable_example :
  bool_decide (lockable_paths example_disk "/w" example_status ["old.rs"; "sub/lib.rs"; "README.md"] = {["old.rs"; "sub/lib.rs"]}) =
  true.
Proof. vm_compute. reflexivity. Qed.

(** The old side of a rename is looked up in [HEAD] by its exact spelling, so in a worktree
    without case a row in another case loses its lock while it still counts as dirty. *)
Definition folding_disk : Disk :=
  mkDisk
    (fun _ => Some (mkView (Some (modes_of [("new.rs", 33188)])) (Some (modes_of [("Old.rs", 33188)])) (fun _ => Some false) true))
    (fun _ => Ok [mkFile "Old.rs" None; mkFile "new.rs" None])
    (fun _ => false) (fun p => bool_decide (p = "/w/new.rs"))
    (fun p => if bool_decide (p = "Old.rs") then "old.rs" else p).

Example renamed_in_other_case_unlocked :
  classify_paths folding_disk "/w" ["old.rs"] = Ok [Dirty] /\
  bool_decide (lockable_paths folding_disk "/w" [mkFile "new.rs" None] ["old.rs"] = ∅) = true.
Proof. by vm_compute. Qed.
