(* ===== verification/LockedChanges.v ===== *)
(** * Locks on changes: agent locks over path attribution

    [AgentLocks] takes git's answer to which paths are lockable as an argument;
    [Attribution] is what answers it.  Here the two are put together, as
    [Services::lockable_paths] does. *)
From stdpp Require Import prelude strings gmap.
From S2P Require Import Prelude.
From S2P Require Import TrackedChanges.
From S2P Require Import Attribution.
From S2P Require Import AgentLocks.

(** The daemon's answers, with git asked about the paths on a disk. *)
Definition with_git (disk : Disk) (a : Answers (list FileStatus)) : Answers (list FileStatus) :=
  mkAnswers (workspace_auto_commit a) (global_auto_commit a) (tracked_changes a) (sessions a) (get_note a) (workspace a)
    (git_status a) (fun worktree status paths => Some (Attribution.lockable_paths disk worktree status paths)).

(** The worktree whose cached status judges the paths. *)
Definition judged_by (a : Answers (list FileStatus)) (worktree : string) (status : list FileStatus) : Prop :=
  workspace a = Some (false, Some worktree) /\ git_status a worktree = Some status.

(** The agent is at work and tracks a change of the file at a working stage. *)
Definition at_work_on (a : Answers (list FileStatus)) (agent path : string) : Prop :=
  effective_auto_commit a = true /\
  exists rows l row session, tracked_changes a = Some rows /\ sessions a = Some l /\
    row ∈ rows /\ works_on row agent path /\ by_id l !! agent = Some session /\ is_actively_working a session = true.

(** The paths that are judged include those of every active agent without a sandbox. *)
Lemma judged_candidates a rows l agent path session row :
  row ∈ rows -> works_on row agent path -> by_id l !! agent = Some session -> is_actively_working a session = true ->
  sandbox_path session = None ->
  path ∈ in_order (⋃ (map_to_list (filter (fun kv => is_judged (by_id l) kv.1 = true)
                                     (active_agents (Status := list FileStatus) a (by_id l) (paths_by_agent rows)))).*2).
Proof.
  intros Hrow Hw Hs Ha Hb. rewrite elem_of_in_order, elem_of_values.
  assert (Hf : path ∈ files (paths_by_agent rows) agent) by (apply paths_by_agent_spec; eauto).
  unfold files in Hf. destruct (paths_by_agent rows !! agent) as [X|] eqn:E; [|set_solver].
  exists agent, X. split; [|done]. unfold active_agents. rewrite !map_lookup_filter_Some. simpl.
  unfold is_active, is_judged. rewrite Hs. split_and!; try done. by rewrite bool_decide_true.
Qed.


(** An agent at work in a submodule. *)
Definition submodule_agent : Answers (list FileStatus) :=
  mkAnswers (Some (Some true)) false (Some [mkChange "unstaged" (Some "agent") "sub/lib.rs"])
    (Some [mkSession "agent" false Active None None]) (fun _ => None) (Some (false, Some "/w"))
    (fun _ => Some example_status) (fun _ _ _ => None).


Example submodule_agent_locks :
  compute_agent_locks (with_git example_disk submodule_agent) = mkSnapshot true ["agent"] ["sub/lib.rs"].
Proof. vm_compute. reflexivity. Qed.
