(* ===== verification/ChangeSweep.v ===== *)
(** * The sweep of stale tracked changes ([crates/intent-services/src/tracked_changes_sweep.rs])

    The background loop that deletes tracked changes git reports clean in two passes in a
    row, next to everything else that writes to the table.  A phase is an await of the
    loop or of the prune task it waits for; an event is what resumes it, a statement of
    another writer, or time passing.  A recording is two events, as its lookup and its
    write are two statements.  The log is only there to be reasoned about. *)
From stdpp Require Import prelude strings gmap.
From S2P Require Import Prelude.
From S2P Require Import Json.
From S2P Require Import TrackedChanges.
From S2P Require Import Attribution.

Definition SWEEP_INITIAL_DELAY : Z := 120.
Definition SWEEP_INTERVAL : Z := 30 * 60.

Definition CleanRows : Type := gset RowKey.

(** The variables of [sweep_stale_tracked_changes]; the head of [todo] is the workspace of
    the round. *)
Record Pass := mkPass {
  todo : list string;
  previous : gmap string CleanRows;
  total : Z }.

(** What a workspace's row says of its checkout, and whether it is there. *)
Record Checkout := mkCheckout { is_remote : bool; worktree_path : option string; present : bool }.

Inductive Phase :=
| Sleeping (until_ : Z)
| Listing
| Round (p : Pass)
| GetWorkspace (p : Pass) (ws : string) (prior : CleanRows)
| ListSessions (p : Pass) (ws : string) (prior : CleanRows) (worktree : string)
| ListRows (p : Pass) (ws : string) (prior : CleanRows) (worktree : string) (sandboxed : gset string)
| Scanning (p : Pass) (ws : string) (prior : CleanRows) (worktree : string) (rows : list TrackedChangeRow)
| Deleting (p : Pass) (ws : string) (clean : CleanRows) (chunks_left : list (list RowKey)) (deleted : Z)
| Metrics (p : Pass) (ws : string) (clean : CleanRows) (deleted : Z)
| Ended.

(** A row judged clean, and a row deleted. *)
Inductive Entry :=
| Marked (pass : nat) (ws : string) (r : TrackedChangeRow) (at_ : Z) (disk : Disk) (worktree : string)
| Removed (pass : nat) (ws : string) (r : TrackedChangeRow) (at_ : Z).

Record State := mkState {
  table : list TrackedChangeRow;
  memory : gmap string CleanRows;
  phase : Phase;
  recordings : list (option string * NewTrackedChange);
  clock : Z;
  pass : nat;
  log : list Entry }.

Definition set_phase (ph : Phase) (s : State) : State :=
  mkState (table s) (memory s) ph (recordings s) (clock s) (pass s) (log s).
Definition set_table (t : list TrackedChangeRow) (s : State) : State :=
  mkState t (memory s) (phase s) (recordings s) (clock s) (pass s) (log s).
Definition set_memory (m : gmap string CleanRows) (s : State) : State :=
  mkState (table s) m (phase s) (recordings s) (clock s) (pass s) (log s).
Definition set_recordings (l : list (option string * NewTrackedChange)) (s : State) : State :=
  mkState (table s) (memory s) (phase s) l (clock s) (pass s) (log s).
Definition logged (es : list Entry) (s : State) : State :=
  mkState (table s) (memory s) (phase s) (recordings s) (clock s) (pass s) (log s ++ es).

Inductive Event :=
| Elapse (d : Z)
| Closed
| Wake
| WorkspacesListed (ok_ : bool)
| Spawned (accepted : bool)
| GotWorkspace (answer : option Checkout)
| GotSessions (answer : option (list (string * option string)))
| RowsListed (ok_ : bool)
| Scanned (answer : option Disk)
| ChunkDeleted (ok_ : bool)
| MetricsPublished
| TaskFailed
| Lookup (c : NewTrackedChange)
| WriteBack (i : nat) (now key : string)
| StageMoved (ws p from_stage to_stage now : string)
| WorkspaceDropped (ws : string).

(** ** The sweep *)

(** The pass ends, or breaks off; the loop sleeps again. *)
Definition end_pass (s : State) : State := set_phase (Sleeping (clock s + SWEEP_INTERVAL)) s.

Definition next_round (p : Pass) (s : State) : State :=
  match todo p with [] => end_pass s | _ => set_phase (Round p) s end.

(** [prune_stale_tracked_changes] returned; [clean] and [deleted] are its outcome. *)
Definition prune_done (p : Pass) (ws : string) (clean : CleanRows) (deleted : Z) (s : State) : State :=
  next_round (mkPass (todo p) (previous p) (total p + deleted))
    (if bool_decide (clean = ∅) then s else set_memory (<[ws := clean]> (memory s)) s).

Definition nothing_pruned (p : Pass) (ws : string) : State -> State := prune_done p ws ∅ 0.

Definition prune_failed (p : Pass) : State -> State := next_round p.

Definition workspaces_listed (ok_ : bool) (s : State) : State :=
  if ok_ then
    next_round (mkPass (list_workspaces_with_working_tracked_changes (table s)) (memory s) 0)
      (mkState (table s) ∅ (phase s) (recordings s) (clock s) (S (pass s)) (log s))
  else end_pass s.

Definition spawned (accepted : bool) (p : Pass) (s : State) : State :=
  match todo p with
  | [] => end_pass s
  | ws :: rest =>
      let prior := default ∅ (previous p !! ws) in
      if accepted then set_phase (GetWorkspace (mkPass rest (delete ws (previous p)) (total p)) ws prior) s
      else end_pass s
  end.

Definition got_workspace (answer : option Checkout) (p : Pass) (ws : string) (prior : CleanRows) (s : State) : State :=
  match answer with
  | None => prune_failed p s
  | Some checkout =>
      if is_remote checkout then nothing_pruned p ws s
      else
        match worktree_path checkout with
        | None => nothing_pruned p ws s
        | Some worktree =>
            if present checkout then set_phase (ListSessions p ws prior worktree) s else nothing_pruned p ws s
        end
  end.

Definition got_sessions (answer : option (list (string * option string))) (p : Pass) (ws : string) (prior : CleanRows)
    (worktree : string) (s : State) : State :=
  match answer with
  | None => prune_failed p s
  | Some sessions =>
      set_phase (ListRows p ws prior worktree (list_to_set (filter (fun x => is_Some x.2) sessions).*1)) s
  end.

(** At a working stage, and not of an agent in a sandbox. *)
Definition candidate (sandboxed : gset string) (r : TrackedChangeRow) : Prop :=
  working r /\ match agent_id r with None => True | Some a => a ∉ sandboxed end.

#[global] Instance candidate_dec sandboxed r : Decision (candidate sandboxed r).
Proof. unfold candidate. destruct (agent_id r); apply _. Defined.

Definition rows_listed (ok_ : bool) (p : Pass) (ws : string) (prior : CleanRows) (worktree : string)
    (sandboxed : gset string) (s : State) : State :=
  if ok_ then
    match filter (candidate sandboxed) (list_tracked_changes ws (table s)) with
    | [] => nothing_pruned p ws s
    | rows => set_phase (Scanning p ws prior worktree rows) s
    end
  else prune_failed p s.

(** The rows a scan reports clean. *)
Definition clean_rows (rows : list TrackedChangeRow) (states : list PathState) : list TrackedChangeRow :=
  (filter (fun x => x.2 = Clean) (zip rows states)).*1.

Definition delete_next (p : Pass) (ws : string) (clean : CleanRows) (chunks_left : list (list RowKey)) (deleted : Z)
    (s : State) : State :=
  match chunks_left with
  | [] => if 0 <? deleted then set_phase (Metrics p ws clean deleted) s else prune_done p ws clean deleted s
  | _ => set_phase (Deleting p ws clean chunks_left deleted) s
  end.

Definition scanned (answer : option Disk) (p : Pass) (ws : string) (prior : CleanRows) (worktree : string)
    (rows : list TrackedChangeRow) (s : State) : State :=
  match answer with
  | None => nothing_pruned p ws s
  | Some disk =>
      match classify_paths disk worktree ((fun r => normalize_path (path r)) <$> rows) with
      | Err _ => nothing_pruned p ws s
      | Ok states =>
          let judged := clean_rows rows states in
          let keys := row_key <$> judged in
          let confirmed := filter (fun k => k ∈ prior) keys in
          let clean : CleanRows := list_to_set (filter (fun k => k ∉ prior) keys) in
          let s' := logged ((fun r => Marked (pass s) ws r (clock s) disk worktree) <$> judged) s in
          match confirmed with
          | [] => prune_done p ws clean 0 s'
          | _ => delete_next p ws clean (chunks CHUNK confirmed) 0 s'
          end
      end
  end.

Definition chunk_deleted (ok_ : bool) (p : Pass) (ws : string) (clean : CleanRows) (chunks_left : list (list RowKey))
    (deleted : Z) (s : State) : State :=
  match chunks_left with
  | [] => s
  | keys :: chunks_left' =>
      if ok_ then
        let (table', n) := delete_chunk ws keys (table s) in
        delete_next p ws clean chunks_left' (deleted + n)
          (logged ((fun r => Removed (pass s) ws r (clock s)) <$> filter (doomed ws keys) (table s)) (set_table table' s))
      else prune_failed p s
  end.

(** ** The other writers *)

(** The two statements of [upsert_tracked_change]. *)
Definition looked_up (c : NewTrackedChange) (s : State) : State :=
  set_recordings (recordings s ++ [(row_id <$> head (filter (same_quad c) (table s)), c)]) s.

Definition written_back (i : nat) (now key : string) (s : State) : State :=
  match recordings s !! i with
  | None => s
  | Some (existing, c) =>
      set_recordings (take i (recordings s) ++ drop (S i) (recordings s))
        (match existing with
         | Some id => set_table (update_tracked_change c now id (table s)) s
         | None => set_table (default (table s) (insert_tracked_change c now key (table s))) s
         end)
  end.

(** The prune task of a phase, if it is running one. *)
Definition task_of (ph : Phase) : option Pass :=
  match ph with
  | GetWorkspace p _ _ | ListSessions p _ _ _ | ListRows p _ _ _ _ | Scanning p _ _ _ _ | Deleting p _ _ _ _
  | Metrics p _ _ _ => Some p
  | _ => None
  end.

Definition step (s : State) (e : Event) : State :=
  match e, phase s with
  | Elapse d, _ => mkState (table s) (memory s) (phase s) (recordings s) (clock s + Z.max 0 d) (pass s) (log s)
  | Lookup c, _ => looked_up c s
  | WriteBack i now key, _ => written_back i now key s
  | StageMoved ws p from_stage to_stage now, _ =>
      set_table (set_tracked_change_stage ws p from_stage to_stage now (table s)) s
  | WorkspaceDropped ws, _ => set_table (filter (fun r => workspace_id r <> ws) (table s)) s
  | Closed, Sleeping _ => set_phase Ended s
  | Wake, Sleeping until_ => if until_ <=? clock s then set_phase Listing s else s
  | WorkspacesListed ok_, Listing => workspaces_listed ok_ s
  | Spawned accepted, Round p => spawned accepted p s
  | GotWorkspace answer, GetWorkspace p ws prior => got_workspace answer p ws prior s
  | GotSessions answer, ListSessions p ws prior worktree => got_sessions answer p ws prior worktree s
  | RowsListed ok_, ListRows p ws prior worktree sandboxed => rows_listed ok_ p ws prior worktree sandboxed s
  | Scanned answer, Scanning p ws prior worktree rows => scanned answer p ws prior worktree rows s
  | ChunkDeleted ok_, Deleting p ws clean chunks_left deleted => chunk_deleted ok_ p ws clean chunks_left deleted s
  | MetricsPublished, Metrics p ws clean deleted => prune_done p ws clean deleted s
  | TaskFailed, ph => match task_of ph with Some _ => end_pass s | None => s end
  | _, _ => s
  end.

Definition start (rows : list TrackedChangeRow) : State :=
  mkState rows ∅ (Sleeping SWEEP_INITIAL_DELAY) [] 0 0 [].

Definition run (rows : list TrackedChangeRow) (es : list Event) : State := foldl step (start rows) es.

(** ** What the log of a history holds *)

Section sweep.
Implicit Types (L : list Entry) (n : nat) (c : Z) (ws : string) (k : RowKey) (m : CleanRows) (s : State) (p : Pass).

(** A row of that key was judged clean in pass [n]; in the pass before it. *)
Definition marked_in (L : list Entry) (n : nat) (ws : string) (k : RowKey) : Prop :=
  exists r t d w, Marked n ws r t d w ∈ L /\ row_key r = k.

Definition marked_before (L : list Entry) (n : nat) (ws : string) (k : RowKey) : Prop :=
  exists q, n = S q /\ marked_in L q ws k.

(** The evidence for a deletion: two verdicts in passes in a row, an interval apart. *)
Definition confirmed_by (L : list Entry) (n : nat) (ws : string) (k : RowKey) (t : Z) : Prop :=
  exists q r1 t1 d1 w1 r0 t0 d0 w0, n = S q /\
    Marked n ws r1 t1 d1 w1 ∈ L /\ Marked q ws r0 t0 d0 w0 ∈ L /\ row_key r1 = k /\ row_key r0 = k /\
    t0 + SWEEP_INTERVAL <= t1 <= t.

Definition entry_ok (L : list Entry) (n : nat) (c : Z) (e : Entry) : Prop :=
  match e with
  | Marked q ws r t d w =>
      (q <= n)%nat /\ t <= c /\ ((q < n)%nat -> t + SWEEP_INTERVAL <= c) /\
      Judged d w (normalize_path (path r)) Clean /\ working r /\ workspace_id r = ws
  | Removed q ws r t => confirmed_by L q ws (row_key r) t /\ working r /\ workspace_id r = ws
  end.

Definition log_ok (L : list Entry) (n : nat) (c : Z) : Prop := forall e, e ∈ L -> entry_ok L n c e.

Definition all_marked (L : list Entry) (n : nat) (ws : string) (m : CleanRows) : Prop :=
  forall k, k ∈ m -> marked_in L n ws k.

Definition all_before (L : list Entry) (n : nat) (ws : string) (m : CleanRows) : Prop :=
  forall k, k ∈ m -> marked_before L n ws k.

Definition pass_ok (L : list Entry) (n : nat) (p : Pass) : Prop :=
  forall ws m, previous p !! ws = Some m -> all_before L n ws m.

(** Every verdict is at least an interval before [u]. *)
Definition rested (L : list Entry) (u : Z) : Prop :=
  forall q ws r t d w, Marked q ws r t d w ∈ L -> t + SWEEP_INTERVAL <= u.

Definition phase_ok (L : list Entry) (n : nat) (c : Z) (ph : Phase) : Prop :=
  match ph with
  | Sleeping u => rested L u
  | Listing => rested L c
  | Round p => pass_ok L n p
  | GetWorkspace p ws prior | ListSessions p ws prior _ | ListRows p ws prior _ _ => pass_ok L n p /\ all_before L n ws prior
  | Scanning p ws prior _ rows =>
      pass_ok L n p /\ all_before L n ws prior /\ forall r, r ∈ rows -> working r /\ workspace_id r = ws
  | Deleting p ws clean chunks_left _ =>
      pass_ok L n p /\ all_marked L n ws clean /\
      forall keys k, keys ∈ chunks_left -> k ∈ keys -> confirmed_by L n ws k c
  | Metrics p ws clean _ => pass_ok L n p /\ all_marked L n ws clean
  | Ended => True
  end.

Definition base (s : State) : Prop :=
  log_ok (log s) (pass s) (clock s) /\
  forall ws m, memory s !! ws = Some m -> all_marked (log s) (pass s) ws m.

Definition inv (s : State) : Prop := base s /\ phase_ok (log s) (pass s) (clock s) (phase s).

(** *** Longer logs and later times *)

Lemma marked_in_mono L L' n ws k : L ⊆ L' -> marked_in L n ws k -> marked_in L' n ws k.
Proof. intros HL (r & t & d & w & Hin & E). exists r, t, d, w. auto. Qed.

Lemma marked_before_mono L L' n ws k : L ⊆ L' -> marked_before L n ws k -> marked_before L' n ws k.
Proof. intros HL (q & -> & H). exists q. eauto using marked_in_mono. Qed.

Lemma confirmed_by_mono L L' n ws k t t' : L ⊆ L' -> t <= t' -> confirmed_by L n ws k t -> confirmed_by L' n ws k t'.
Proof.
  intros HL Ht (q & r1 & t1 & d1 & w1 & r0 & t0 & d0 & w0 & -> & H1 & H0 & E1 & E0 & ?).
  exists q, r1, t1, d1, w1, r0, t0, d0, w0. split_and!; auto; lia.
Qed.

Lemma pass_ok_mono L L' n p : L ⊆ L' -> pass_ok L n p -> pass_ok L' n p.
Proof. intros HL Hp ws m E k Hk. eapply marked_before_mono; [done|by eapply Hp]. Qed.

Lemma all_marked_mono L L' n ws m : L ⊆ L' -> all_marked L n ws m -> all_marked L' n ws m.
Proof. intros HL Hm k Hk. eapply marked_in_mono; [done|auto]. Qed.

Lemma inv_elapse s d : inv s -> inv (step s (Elapse d)).
Proof.
  intros [[Hl Hm] Hp]. split; [split|]; cbn in *; [|done|].
  - intros e He. specialize (Hl e He). destruct e; simpl in *; [|done]. intuition lia.
  - destruct (phase s); simpl in *; try done.
    + intros q ws r t dd w Hin. specialize (Hp _ _ _ _ _ _ Hin). lia.
    + destruct Hp as (? & ? & Hc). split_and!; [done..|]. intros keys k Hk Hin.
      eapply confirmed_by_mono; [done| |by eapply Hc]. lia.
Qed.

(** *** The parts of a step *)

Lemma inv_end_pass s : base s -> inv (end_pass s).
Proof.
  intros [Hl Hm]. split; [done|]. simpl. intros q ws r t d w (_ & ? & _)%Hl. lia.
Qed.

Lemma inv_next_round p s : base s -> pass_ok (log s) (pass s) p -> inv (next_round p s).
Proof. intros Hb Hp. unfold next_round. destruct (todo p); [by apply inv_end_pass|]. by split. Qed.

Lemma inv_prune_done p ws clean deleted s :
  base s -> pass_ok (log s) (pass s) p -> all_marked (log s) (pass s) ws clean -> inv (prune_done p ws clean deleted s).
Proof.
  intros [Hl Hm] Hp Hc. unfold prune_done. case_bool_decide; apply inv_next_round; try done.
  split; [done|]. simpl. intros ws' m'. rewrite lookup_insert_Some. intros [[<- <-]|[_ ?]]; [done|by eapply Hm].
Qed.

Lemma inv_nothing_pruned p ws s : base s -> pass_ok (log s) (pass s) p -> inv (nothing_pruned p ws s).
Proof. intros Hb Hp. apply inv_prune_done; [done..|]. intros k Hk. set_solver. Qed.

Lemma inv_delete_next p ws clean cs deleted s :
  base s -> pass_ok (log s) (pass s) p -> all_marked (log s) (pass s) ws clean ->
  (forall keys k, keys ∈ cs -> k ∈ keys -> confirmed_by (log s) (pass s) ws k (clock s)) ->
  inv (delete_next p ws clean cs deleted s).
Proof.
  intros Hb Hp Hc Hk. unfold delete_next. destruct cs; [|by split].
  destruct (0 <? deleted); [by split|by apply inv_prune_done].
Qed.

Lemma chunks_from_elem {A} fuel n (l keys : list A) (x : A) : keys ∈ chunks_from fuel n l -> x ∈ keys -> x ∈ l.
Proof.
  revert l. induction fuel as [|fuel IH]; intros l; simpl; [by intros ?%not_elem_of_nil|].
  destruct l as [|y l]; [by intros ?%not_elem_of_nil|]. rewrite elem_of_cons. intros [->|Hin] Hk.
  - by eapply elem_of_take in Hk as (i & Hk & _); eapply list_elem_of_lookup_2.
  - specialize (IH _ Hin Hk). rewrite list_elem_of_lookup in *. destruct IH as [i Hi]. rewrite lookup_drop in Hi. eauto.
Qed.

(** The rows a scan reports clean are listed rows, judged so by it. *)
Lemma clean_rows_judged d w rows states r :
  classify_paths d w ((fun r => normalize_path (path r)) <$> rows) = Ok states ->
  r ∈ clean_rows rows states -> r ∈ rows /\ Judged d w (normalize_path (path r)) Clean.
Proof.
  intros Hj%classify_paths_judged.
  unfold clean_rows. rewrite list_elem_of_fmap. intros ([r' st] & -> & Hin). simpl.
  apply list_elem_of_filter in Hin as [Hst Hin]. simpl in Hst. subst st. revert Hj Hin. clear. revert states.
  induction rows as [|x rows IH]; intros [|st states]; simpl; intros Hj Hin;
    try (by apply not_elem_of_nil in Hin). apply Forall2_cons in Hj as [Hx Hj].
  apply elem_of_cons in Hin as [[= <- <-]|Hin]; [split; [set_solver|done]|].
  destruct (IH _ Hj Hin). split; [set_solver|done].
Qed.

(** A scan's verdicts, in the log. *)
Definition marks (s : State) (ws : string) (d : Disk) (w : string) (judged : list TrackedChangeRow) : list Entry :=
  (fun r => Marked (pass s) ws r (clock s) d w) <$> judged.

Lemma marks_elem s ws d w judged r :
  r ∈ judged -> Marked (pass s) ws r (clock s) d w ∈ log s ++ marks s ws d w judged.
Proof.
  intros Hr. apply elem_of_app. right. by apply (list_elem_of_fmap_2 (fun r => Marked (pass s) ws r (clock s) d w)).
Qed.

Lemma base_marks s ws d w judged :
  base s -> (forall r, r ∈ judged -> Judged d w (normalize_path (path r)) Clean /\ working r /\ workspace_id r = ws) ->
  base (logged (marks s ws d w judged) s).
Proof.
  intros [Hl Hm] Hj. assert (Hsub : log s ⊆ log s ++ marks s ws d w judged) by (intros e; rewrite elem_of_app; auto).
  split; simpl; [|intros ws' m E; eapply all_marked_mono; [done|by eapply Hm]].
  intros e [He|(r & -> & Hin)%list_elem_of_fmap]%elem_of_app.
  - specialize (Hl e He). destruct e; simpl in *; [done|]. destruct Hl as (Hc & ?). split; [|done].
    by eapply confirmed_by_mono.
  - destruct (Hj r Hin) as (? & ? & ?). simpl. split_and!; try done; lia.
Qed.

Lemma confirmed_now s ws d w judged prior r :
  base s -> all_before (log s) (pass s) ws prior -> r ∈ judged -> row_key r ∈ prior ->
  confirmed_by (log s ++ marks s ws d w judged) (pass s) ws (row_key r) (clock s).
Proof.
  intros [Hl _] Hp Hr (q & Hq & r0 & t0 & d0 & w0 & H0 & E0)%Hp. pose proof (Hl _ H0) as (_ & _ & Ht & _).
  exists q, r, (clock s), d, w, r0, t0, d0, w0. rewrite Hq in Ht at 1.
  split_and!; [done|by apply marks_elem|apply elem_of_app; by left|done..|apply Ht; lia|lia].
Qed.

Lemma inv_scanned answer p ws prior worktree rows s :
  base s -> phase_ok (log s) (pass s) (clock s) (Scanning p ws prior worktree rows) ->
  inv (scanned answer p ws prior worktree rows s).
Proof.
  intros Hb (Hp & Hpr & Hr). unfold scanned. destruct answer as [d|]; [|by apply inv_nothing_pruned].
  destruct (classify_paths d worktree _) as [states|] eqn:Hc; [|by apply inv_nothing_pruned].
  pose proof (fun r => clean_rows_judged d worktree rows states r Hc) as Hj.
  set (judged := clean_rows rows states) in *. fold (marks s ws d worktree judged).
  assert (Hb' : base (logged (marks s ws d worktree judged) s)).
  { apply base_marks; [done|]. intros r [Hin ?]%Hj. split; [done|]. by apply Hr. }
  assert (Hp' : pass_ok (log (logged (marks s ws d worktree judged) s)) (pass s) p).
  { eapply pass_ok_mono; [|done]. intros e. simpl. rewrite elem_of_app. auto. }
  assert (Hcl : all_marked (log (logged (marks s ws d worktree judged) s)) (pass s) ws
    (list_to_set (filter (fun k => k ∉ prior) (row_key <$> judged)))).
  { intros k. rewrite elem_of_list_to_set, list_elem_of_filter. intros [_ (r & -> & Hin)%list_elem_of_fmap].
    eexists r, _, _, _. split; [by apply marks_elem|done]. }
  destruct (filter (fun k => k ∈ prior) (row_key <$> judged)) as [|k0 ks] eqn:E; [by apply inv_prune_done|].
  rewrite <- E. apply inv_delete_next; [done..|]. intros keys k Hkeys Hk.
  pose proof (chunks_from_elem _ _ _ _ _ Hkeys Hk) as [Hpk (r & -> & Hin)%list_elem_of_fmap]%list_elem_of_filter.
  exact (confirmed_now s ws d worktree judged prior r Hb Hpr Hin Hpk).
Qed.

Lemma inv_chunk_deleted ok_ p ws clean cs deleted s :
  base s -> phase_ok (log s) (pass s) (clock s) (Deleting p ws clean cs deleted) -> phase s = Deleting p ws clean cs deleted ->
  inv (chunk_deleted ok_ p ws clean cs deleted s).
Proof.
  intros [Hl Hm] (Hp & Hc & Hk) Eph. unfold chunk_deleted. destruct cs as [|keys cs]; [split; [done|by rewrite Eph]|].
  destruct ok_; [|by apply inv_next_round]. unfold delete_chunk.
  set (gone := (fun r => Removed (pass s) ws r (clock s)) <$> filter (doomed ws keys) (table s)).
  assert (Hsub : log s ⊆ log s ++ gone) by (intros e; rewrite elem_of_app; auto).
  apply inv_delete_next; simpl; [split; simpl|by eapply pass_ok_mono|by eapply all_marked_mono|].
  - intros e [He|(r & -> & [(Hd & Hw & Hkey) Hin]%list_elem_of_filter)%list_elem_of_fmap]%elem_of_app.
    + specialize (Hl e He). destruct e; simpl in *; [done|]. destruct Hl as (? & ?). split; [|done]. by eapply confirmed_by_mono.
    + simpl. split; [|done]. eapply confirmed_by_mono; [done..|]. apply (Hk keys); [set_solver|done].
  - intros ws' m E. eapply all_marked_mono; [done|by eapply Hm].
  - intros keys' k Hin Hk'. eapply confirmed_by_mono; [done..|]. apply (Hk keys'); [set_solver|done].
Qed.

Lemma inv_workspaces_listed ok_ s : base s -> rested (log s) (clock s) -> inv (workspaces_listed ok_ s).
Proof.
  intros [Hl Hm] Hr. unfold workspaces_listed. destruct ok_; [|by apply inv_end_pass].
  apply inv_next_round; simpl.
  - split; simpl; [|intros ws m; by rewrite lookup_empty]. intros e He. pose proof (Hl e He) as Ho.
    destruct e; simpl in *; [|done]. destruct Ho as (? & ? & _ & ?). split_and!; [lia|done|intros _; by eapply Hr|naive_solver..].
  - intros ws m E k Hk. exists (pass s). split; [done|]. by eapply Hm.
Qed.

Lemma sweep_inv_spawned accepted p s : base s -> pass_ok (log s) (pass s) p -> inv (spawned accepted p s).
Proof.
  intros Hb Hp. unfold spawned. destruct (todo p) as [|ws rest]; [by apply inv_end_pass|].
  destruct accepted; [|by apply inv_end_pass]. split; [done|]. simpl. split.
  - intros ws' m. cbn [previous]. rewrite lookup_delete_Some. intros [_ E]. by apply Hp.
  - destruct (previous p !! ws) as [m|] eqn:E; simpl; [by apply Hp|]. intros k Hk. set_solver.
Qed.

Lemma list_tracked_changes_elem ws rows r : r ∈ list_tracked_changes ws rows <-> workspace_id r = ws /\ r ∈ rows.
Proof.
  unfold list_tracked_changes.
  rewrite (elem_of_Permutation_proper r _ _ (sort_by_perm _ _)), list_elem_of_filter. done.
Qed.

Lemma inv_rows_listed ok_ p ws prior worktree sandboxed s :
  base s -> pass_ok (log s) (pass s) p -> all_before (log s) (pass s) ws prior ->
  inv (rows_listed ok_ p ws prior worktree sandboxed s).
Proof.
  intros Hb Hp Hpr. unfold rows_listed. destruct ok_; [|by apply inv_next_round].
  destruct (filter _ _) as [|r0 rs] eqn:E; [by apply inv_nothing_pruned|]. split; [done|]. simpl. split_and!; [done..|].
  intros r. rewrite <- E. intros [[? _] [? _]%list_tracked_changes_elem]%list_elem_of_filter. done.
Qed.

Lemma sweep_inv_step s e : inv s -> inv (step s e).
Proof.
  intros Hi. pose proof Hi as [Hb Hp]. destruct e; [by apply inv_elapse|..|done| |done|done]; unfold step.
  all: destruct (phase s) as [u| |p|p ws prior|p ws prior w|p ws prior w sb|p ws prior w rows|p ws clean cs dd|p ws clean dd|] eqn:Eph;
    cbn in Hp; try exact Hi; cbn [task_of]; try (by apply inv_end_pass).
  all: try (unfold written_back; repeat case_match; (split; [exact Hb|cbn; rewrite Eph; exact Hp])).
  - by split.
  - case_match; [|done]. split; [done|]. cbn. intros q ws r t d w Hin. specialize (Hp _ _ _ _ _ _ Hin). lia.
  - by apply inv_workspaces_listed.
  - by apply sweep_inv_spawned.
  - destruct Hp as [Hp Hpr]. unfold got_workspace. repeat case_match;
      first [by apply inv_next_round|by apply inv_nothing_pruned|by split].
  - destruct Hp as [Hp Hpr]. unfold got_sessions. case_match; [by split|by apply inv_next_round].
  - destruct Hp as [Hp Hpr]. by apply inv_rows_listed.
  - by apply inv_scanned.
  - by apply inv_chunk_deleted.
  - destruct Hp as [Hp Hc]. by apply inv_prune_done.
Qed.

Lemma sweep_inv_run rows es : inv (run rows es).
Proof.
  unfold run. assert (Hs : inv (start rows)).
  { split; [split|]; cbn.
    - by intros e ?%not_elem_of_nil.
    - intros ws m. by rewrite lookup_empty.
    - by intros q ws r t d w ?%not_elem_of_nil. }
  revert Hs. generalize (start rows). induction es as [|e es IH]; intros s Hs; simpl; [done|].
  by apply IH, sweep_inv_step.
Qed.

(** ** One version of a row per time stamp *)

Definition entry_row (e : Entry) : TrackedChangeRow :=
  match e with Marked _ _ r _ _ _ | Removed _ _ r _ => r end.

(** The rows a phase holds on to. *)
Definition held (ph : Phase) : list TrackedChangeRow := match ph with Scanning _ _ _ _ rows => rows | _ => [] end.

Definition stamps_of (e : Event) : list string :=
  match e with WriteBack _ now _ | StageMoved _ _ _ _ now => [now] | _ => [] end.

(** [vs] holds every version of a row there ever was, [used] their time stamps. *)
Record versions (used : list string) (vs : list TrackedChangeRow) (s : State) : Prop := {
  version_table : table s ⊆ vs;
  version_log e : e ∈ log s -> entry_row e ∈ vs;
  version_held : held (phase s) ⊆ vs;
  version_one r1 r2 : r1 ∈ vs -> r2 ∈ vs -> row_key r1 = row_key r2 -> r1 = r2;
  version_used r : r ∈ vs -> updated_at r ∈ used;
  version_ids : NoDup (row_id <$> table s) }.

Lemma keep_versions used vs s s' :
  versions used vs s -> table s' `sublist_of` table s -> (forall e, e ∈ log s' -> e ∈ log s \/ entry_row e ∈ vs) ->
  held (phase s') ⊆ vs -> versions used vs s'.
Proof.
  intros [Ht Hl Hh Ho Hu Hi] Hs Hl' Hh'. split; try done.
  - intros r Hr. apply Ht. by eapply elem_of_submseteq, sublist_submseteq.
  - intros e [?|?]%Hl'; auto.
  - eapply sublist_NoDup; [done|by apply fmap_sublist].
Qed.

Lemma ids_inj (rows : list TrackedChangeRow) r1 r2 :
  NoDup (row_id <$> rows) -> r1 ∈ rows -> r2 ∈ rows -> row_id r1 = row_id r2 -> r1 = r2.
Proof.
  intros Hn [i Hi]%list_elem_of_lookup [j Hj]%list_elem_of_lookup E.
  assert (i = j); [|by simplify_eq].
  apply (NoDup_lookup (row_id <$> rows) i j (row_id r1)); [done|..]; rewrite list_lookup_fmap; [by rewrite Hi|].
  by rewrite Hj, E.
Qed.

(** A write under a fresh stamp only adds versions. *)
Lemma write_versions used vs s now table' :
  versions used vs s -> now ∉ used -> NoDup (row_id <$> table') ->
  (forall r, r ∈ table' -> r ∈ table s \/ updated_at r = now) ->
  versions (now :: used) (vs ++ table') (set_table table' s).
Proof.
  intros [Ht Hl Hh Ho Hu Hi] Hn Hi' Hw.
  assert (Hold : forall r r', r ∈ vs -> r' ∈ table' -> row_key r = row_key r' -> r = r').
  { intros r r' Hr Hr' E. destruct (Hw r' Hr') as [Hin|E']; [by auto|]. destruct Hn. injection E as _ E.
    rewrite <- E', <- E. auto. }
  split; simpl; try done.
  - intros r Hr. apply elem_of_app. auto.
  - intros e He. apply elem_of_app. auto.
  - intros r Hr. apply elem_of_app. auto.
  - intros r1 r2 [H1|H1]%elem_of_app [H2|H2]%elem_of_app E; [auto|auto|symmetry; auto|].
    injection E as E _. by eapply ids_inj.
  - intros r [Hr|Hr]%elem_of_app; [apply elem_of_cons; auto|].
    destruct (Hw r Hr) as [Hin| ->]; apply elem_of_cons; auto.
Qed.

Lemma map_ids (f : TrackedChangeRow -> TrackedChangeRow) (rows : list TrackedChangeRow) :
  (forall r, row_id (f r) = row_id r) -> row_id <$> (f <$> rows) = row_id <$> rows.
Proof. intros Hf. rewrite <- list_fmap_compose. apply list_fmap_ext. intros i r _. apply Hf. Qed.

Lemma written_versions used vs s i now key :
  versions used vs s -> now ∉ used ->
  exists vs', versions (now :: used) vs' (written_back i now key s).
Proof.
  intros Hv Hn. unfold written_back. destruct (recordings s !! i) as [[existing c]|].
  2:{ exists vs. destruct Hv as [Ht Hl Hh Ho Hu Hi]. split; try done. intros r Hr. apply elem_of_cons. auto. }
  destruct existing as [key'|].
  - eexists. destruct (write_versions used vs s now (update_tracked_change c now key' (table s)) Hv Hn) as [? ? ? ? ? ?].
    + unfold update_tracked_change. rewrite map_ids; [apply Hv|]. intros r. by case_decide.
    + intros ? (r & -> & Hr)%list_elem_of_fmap. case_decide; auto.
    + by split.
  - unfold insert_tracked_change. eexists.
    destruct (write_versions used vs s now (default (table s) (insert_tracked_change c now key (table s))) Hv Hn) as [? ? ? ? ? ?].
    + unfold insert_tracked_change. case_decide; simpl; [apply Hv|]. rewrite fmap_app. apply NoDup_app.
      split_and!; [apply Hv| |apply NoDup_singleton]. simpl. set_solver.
    + unfold insert_tracked_change. intros r. case_decide; simpl; [auto|]. rewrite elem_of_app, list_elem_of_singleton.
      intros [?| ->]; auto.
    + by split.
Qed.

Lemma staged_versions used vs s ws file from_stage to_stage now :
  versions used vs s -> now ∉ used ->
  exists vs', versions (now :: used) vs' (set_table (set_tracked_change_stage ws file from_stage to_stage now (table s)) s).
Proof.
  intros Hv Hn. eexists. apply write_versions; [done..| |].
  - unfold set_tracked_change_stage. rewrite map_ids; [apply Hv|]. intros r. by case_decide.
  - intros ? (r & -> & Hr)%list_elem_of_fmap. case_decide; auto.
Qed.

(** The rows, the log and the held rows after a part of a step that writes none. *)
Definition quiet (s s' : State) : Prop := table s' = table s /\ log s' = log s /\ held (phase s') = [].

Lemma quiet_versions used vs s s' : versions used vs s -> quiet s s' -> versions used vs s'.
Proof.
  intros Hv (Et & El & Eh). apply (keep_versions used vs s); [done|by rewrite Et|rewrite El; auto|].
  rewrite Eh. by intros r ?%not_elem_of_nil.
Qed.

Lemma quiet_next_round p s : quiet s (next_round p s).
Proof. unfold next_round. by destruct (todo p). Qed.

Lemma quiet_prune_done p ws clean deleted s : quiet s (prune_done p ws clean deleted s).
Proof. unfold prune_done, next_round. case_bool_decide; by destruct (todo _). Qed.

Lemma quiet_delete_next p ws clean cs deleted s : quiet s (delete_next p ws clean cs deleted s).
Proof.
  unfold delete_next. destruct cs; [|done]. destruct (0 <? deleted); [done|apply quiet_prune_done].
Qed.

Lemma scanned_versions used vs s answer p ws prior w rows :
  versions used vs s -> held (phase s) = rows -> versions used vs (scanned answer p ws prior w rows s).
Proof.
  intros Hv Hh. unfold scanned, nothing_pruned. destruct answer as [d|]; [|by eapply quiet_versions, quiet_prune_done].
  destruct (classify_paths _ _ _) as [states|] eqn:Hc; [|by eapply quiet_versions, quiet_prune_done].
  assert (Hm : versions used vs (logged (marks s ws d w (clean_rows rows states)) s)).
  { apply (keep_versions used vs s); [done|done| |by apply (version_held _ _ _ Hv)]. cbn.
    intros e [?|(r & -> & Hr)%list_elem_of_fmap]%elem_of_app; [auto|]. right.
    apply (version_held _ _ _ Hv). rewrite Hh. by apply (clean_rows_judged d w rows states). }
  fold (marks s ws d w (clean_rows rows states)).
  case_match; eapply quiet_versions; try exact Hm; [apply quiet_prune_done|apply quiet_delete_next].
Qed.

Lemma deleted_versions used vs s ok_ p ws clean cs deleted :
  versions used vs s -> versions used vs (chunk_deleted ok_ p ws clean cs deleted s).
Proof.
  intros Hv. unfold chunk_deleted. destruct cs as [|keys cs]; [done|].
  destruct ok_; [|by eapply quiet_versions, quiet_next_round]. unfold delete_chunk.
  eapply quiet_versions; [|apply quiet_delete_next].
  apply (keep_versions used vs s); cbn; [done|apply sublist_filter| |by apply (version_held _ _ _ Hv)].
  intros e [?|(r & -> & [_ Hr]%list_elem_of_filter)%list_elem_of_fmap]%elem_of_app; [auto|]. right.
  by apply (version_table _ _ _ Hv).
Qed.

Lemma listed_versions used vs s ok_ p ws prior w sb :
  versions used vs s -> versions used vs (rows_listed ok_ p ws prior w sb s).
Proof.
  intros Hv. unfold rows_listed. destruct ok_; [|by eapply quiet_versions, quiet_next_round].
  destruct (filter _ _) as [|r0 rs] eqn:E; [by eapply quiet_versions, quiet_prune_done|].
  apply (keep_versions used vs s); cbn; [done|done|auto|]. intros r. rewrite <- E.
  intros [_ [_ ?]%list_tracked_changes_elem]%list_elem_of_filter. by apply (version_table _ _ _ Hv).
Qed.

Lemma plain_versions used vs s e : versions used vs s -> stamps_of e = [] -> versions used vs (step s e).
Proof.
  intros Hv He. destruct e; try done; unfold step; cbn beta iota.
  1,13: apply (keep_versions used vs s); [done|done|auto|by apply (version_held _ _ _ Hv)].
  12: apply (keep_versions used vs s); [done|apply sublist_filter|auto|by apply (version_held _ _ _ Hv)].
  all: destruct (phase s) as [u| |q|q ws prior|q ws prior w|q ws prior w sb|q ws prior w rows|q ws clean cs dd|q ws clean dd|] eqn:Eph;
    try exact Hv; cbn [task_of]; try (eapply quiet_versions; [exact Hv|done]).
  - case_match; [|done]. by apply (quiet_versions used vs s).
  - unfold workspaces_listed. destruct ok_; [|by apply (quiet_versions used vs s)].
    eapply quiet_versions; [exact Hv|]. unfold next_round. cbn. by case_match.
  - eapply quiet_versions; [exact Hv|]. unfold spawned. by repeat case_match.
  - eapply quiet_versions; [exact Hv|]. unfold got_workspace, prune_failed, nothing_pruned.
    repeat case_match; first [apply quiet_next_round|apply quiet_prune_done|done].
  - eapply quiet_versions; [exact Hv|]. unfold got_sessions. case_match; [done|apply quiet_next_round].
  - by apply listed_versions.
  - apply scanned_versions; [done|by rewrite Eph].
  - by apply deleted_versions.
  - eapply quiet_versions; [exact Hv|apply quiet_prune_done].
Qed.

(** Every write has a time stamp of its own. *)
Definition stamps_fresh (rows : list TrackedChangeRow) (es : list Event) : Prop :=
  NoDup (es ≫= stamps_of) /\ forall now, now ∈ es ≫= stamps_of -> now ∉ updated_at <$> rows.

Lemma versions_run used vs s es :
  versions used vs s -> NoDup (es ≫= stamps_of) -> (forall now, now ∈ es ≫= stamps_of -> now ∉ used) ->
  exists used' vs', versions used' vs' (foldl step s es).
Proof.
  revert used vs s. induction es as [|e es IH]; intros used vs s Hv Hn Hf; simpl; [eauto|]. cbn in Hn, Hf.
  destruct (stamps_of e) as [|now l] eqn:Ee.
  { apply (IH used vs); [by apply plain_versions|done|]. intros now' ?. by apply Hf. }
  assert (l = []) as -> by (destruct e; cbn in Ee; congruence). cbn in Hn, Hf. apply NoDup_cons in Hn as [Hnow Hn].
  assert (exists vs', versions (now :: used) vs' (step s e)) as [vs' Hv'].
  { assert (Hu : now ∉ used) by (apply Hf; set_solver).
    destruct e; try done; injection Ee as ->; [by apply (written_versions used vs)|by apply (staged_versions used vs)]. }
  apply (IH _ _ _ Hv'); [done|]. intros now' Hin. apply not_elem_of_cons.
  split; [by intros ->|]. apply Hf. by apply elem_of_cons; right.
Qed.

(** ** Deletions are confirmed *)

Lemma delete_next_table p ws clean cs deleted s : table (delete_next p ws clean cs deleted s) = table s.
Proof. apply quiet_delete_next. Qed.

Lemma written_ids i now key s : row_id <$> table s ⊆ row_id <$> table (written_back i now key s).
Proof.
  unfold written_back, insert_tracked_change, update_tracked_change.
  destruct (recordings s !! i) as [[[id|] c]|]; cbn [table set_recordings set_table]; [|case_decide|]; try done.
  - rewrite map_ids; [done|]. intros r. by case_decide.
  - cbn. rewrite fmap_app. set_solver.
Qed.

(** A row only leaves the table by a logged deletion, or with its workspace. *)
Lemma gone_logged s e r :
  r ∈ table s -> row_id r ∉ row_id <$> table (step s e) ->
  (exists n ws t, Removed n ws r t ∈ log (step s e)) \/ e = WorkspaceDropped (workspace_id r).
Proof.
  intros Hr Hg. assert (Hin : row_id r ∈ row_id <$> table s) by (by apply list_elem_of_fmap_2).
  destruct e; unfold step in *; cbn beta iota in *; try done.
  12: by destruct Hg; apply written_ids, Hin.
  12: { cbn in Hg. unfold set_tracked_change_stage in Hg. rewrite map_ids in Hg; [done|]. intros x. by case_decide. }
  12: { right. f_equal. apply dec_stable. intros Hn. apply Hg, list_elem_of_fmap_2, list_elem_of_filter. done. }
  all: destruct (phase s) as [u| |q|q ws prior|q ws prior w|q ws prior w sb|q ws prior w rows|q ws clean cs dd|q ws clean dd|] eqn:Eph;
    cbn [task_of] in *; try done.
  - by case_match.
  - unfold workspaces_listed, next_round in Hg. by repeat case_match.
  - unfold spawned in Hg. by repeat case_match.
  - unfold got_workspace, prune_failed, nothing_pruned in Hg.
    repeat case_match; by rewrite ?(proj1 (quiet_next_round _ _)), ?(proj1 (quiet_prune_done _ _ _ _ _)) in Hg.
  - unfold got_sessions, prune_failed in Hg. case_match; [done|]. by rewrite (proj1 (quiet_next_round _ _)) in Hg.
  - unfold rows_listed, prune_failed, nothing_pruned in Hg.
    repeat case_match; by rewrite ?(proj1 (quiet_next_round _ _)), ?(proj1 (quiet_prune_done _ _ _ _ _)) in Hg.
  - unfold scanned, nothing_pruned in Hg. repeat case_match;
      by rewrite ?(proj1 (quiet_prune_done _ _ _ _ _)), ?delete_next_table in Hg.
  - left. unfold chunk_deleted in *. destruct cs as [|keys cs]; [done|].
    destruct ok_; [|unfold prune_failed in Hg; by rewrite (proj1 (quiet_next_round _ _)) in Hg]. unfold delete_chunk in *.
    rewrite delete_next_table in Hg. rewrite (proj1 (proj2 (quiet_delete_next _ _ _ _ _ _))). cbn in *.
    exists (pass s), ws, (clock s). apply elem_of_app. right.
    apply (list_elem_of_fmap_2 (fun r => Removed (pass s) ws r (clock s))), list_elem_of_filter. split; [|done].
    apply dec_stable. intros Hn. by apply Hg, list_elem_of_fmap_2, list_elem_of_filter.
  - by rewrite (proj1 (quiet_prune_done _ _ _ _ _)) in Hg.
Qed.

(** [C5] The sweep only deletes what two passes in a row saw clean.  Let every write have a
    time stamp of its own.  On any history, with recordings, stage moves and dropped
    workspaces interleaved with the sweep at will, a row that leaves the table leaves with
    its workspace or by a logged deletion; and a deleted row was at a working stage and was
    judged clean, with exactly the contents it had when it was deleted, by the scans of the
    pass that deleted it and of the pass before, the verdicts at least thirty minutes
    apart: each by the repository that owns the row's path. *)
Theorem sweep_deletes_confirmed (rows : list TrackedChangeRow) (es : list Event) :
  NoDup (row_id <$> rows) -> stamps_fresh rows es ->
  (forall n ws r t, Removed n ws r t ∈ log (run rows es) ->
     working r /\ workspace_id r = ws /\
     exists q t1 d1 w1 t0 d0 w0, n = S q /\
       Marked n ws r t1 d1 w1 ∈ log (run rows es) /\ Marked q ws r t0 d0 w0 ∈ log (run rows es) /\
       t0 + SWEEP_INTERVAL <= t1 <= t /\
       Judged d1 w1 (normalize_path (path r)) Clean /\ Judged d0 w0 (normalize_path (path r)) Clean) /\
  (forall e r, r ∈ table (run rows es) -> row_id r ∉ row_id <$> table (step (run rows es) e) ->
     (exists n ws t, Removed n ws r t ∈ log (step (run rows es) e)) \/ e = WorkspaceDropped (workspace_id r)).
Proof.
  intros Hids [Hn Hf]. split; [|intros e r; apply gone_logged]. intros n ws r t Hin.
  destruct (sweep_inv_run rows es) as [[Hl _] _].
  destruct (versions_run (updated_at <$> rows) rows (start rows) es) as (used & vs & Hv); [|done..|].
  { split; cbn; try done; try (by intros ? ?%not_elem_of_nil).
    - intros r1 r2 H1 H2 E. injection E as E _. by eapply ids_inj.
    - intros x Hx. by apply list_elem_of_fmap_2. }
  fold (run rows es) in Hv. pose proof (Hl _ Hin) as ((q & r1 & t1 & d1 & w1 & r0 & t0 & d0 & w0 & -> & H1 & H0 & E1 & E0 & Ht) & Hw & Hws).
  assert (r1 = r) as -> by (eapply (version_one _ _ _ Hv); [apply (version_log _ _ _ Hv _ H1)|apply (version_log _ _ _ Hv _ Hin)|done]).
  assert (r0 = r) as -> by (eapply (version_one _ _ _ Hv); [apply (version_log _ _ _ Hv _ H0)|apply (version_log _ _ _ Hv _ Hin)|done]).
  split_and!; [done..|]. exists q, t1, d1, w1, t0, d0, w0.
  pose proof (Hl _ H1) as (_ & _ & _ & J1 & _). pose proof (Hl _ H0) as (_ & _ & _ & J0 & _). done.
Qed.

End sweep.

(** ** A recording next to a deletion *)

Lemma delete_next_recordings p ws clean cs deleted s : recordings (delete_next p ws clean cs deleted s) = recordings s.
Proof.
  unfold delete_next, prune_done, next_round, end_pass. repeat case_match; cbn; try done; by case_bool_decide.
Qed.

Lemma step_chunk_deleted s p ws clean keys cs deleted :
  phase s = Deleting p ws clean (keys :: cs) deleted ->
  table (step s (ChunkDeleted true)) = filter (fun r => ~ doomed ws keys r) (table s) /\
  recordings (step s (ChunkDeleted true)) = recordings s.
Proof.
  intros E. unfold step. rewrite E. cbn [chunk_deleted]. unfold delete_chunk.
  rewrite delete_next_table, delete_next_recordings. done.
Qed.

Lemma step_lookup s c :
  recordings s = [] ->
  table (step s (Lookup c)) = table s /\ phase (step s (Lookup c)) = phase s /\
  recordings (step s (Lookup c)) = [(row_id <$> head (filter (same_quad c) (table s)), c)].
Proof. intros E. cbn. by rewrite E. Qed.

Lemma step_write_back s existing c now key :
  recordings s = [(existing, c)] ->
  table (step s (WriteBack 0 now key)) =
    match existing with
    | Some id => update_tracked_change c now id (table s)
    | None => default (table s) (insert_tracked_change c now key (table s))
    end /\
  phase (step s (WriteBack 0 now key)) = phase s.
Proof. intros E. cbn. unfold written_back. rewrite E. cbn. by destruct existing. Qed.

Lemma update_absent c now key (rows : list TrackedChangeRow) : key ∉ row_id <$> rows -> update_tracked_change c now key rows = rows.
Proof.
  intros Hk. apply fmap_untouched. intros r Hr. rewrite decide_False; [done|]. intros <-. apply Hk.
  by apply list_elem_of_fmap_2.
Qed.

Lemma own_row_deleted c r ws keys (rows : list TrackedChangeRow) :
  NoDup (row_id <$> rows) -> filter (same_quad c) rows = [r] -> doomed ws keys r ->
  filter (same_quad c) (filter (fun r => ~ doomed ws keys r) rows) = [] /\
  row_id r ∉ row_id <$> filter (fun r => ~ doomed ws keys r) rows.
Proof.
  intros Hn (Hr & pre & post & -> & Hpre & Hpost)%own_row_split Hd.
  rewrite filter_app, filter_cons, decide_False by tauto. split.
  - apply filter_empty, Forall_app. split; apply Forall_forall; intros x [_ Hx]%list_elem_of_filter; rewrite Forall_forall in *; auto.
  - rewrite fmap_app, fmap_cons, NoDup_app, NoDup_cons in Hn. destruct Hn as (_ & H1 & H2 & _). rewrite fmap_app, elem_of_app.
    intros [(x & E & [_ Hx]%list_elem_of_filter)%list_elem_of_fmap|(x & E & [_ Hx]%list_elem_of_filter)%list_elem_of_fmap].
    + apply (H1 (row_id x)); [by apply list_elem_of_fmap_2|rewrite <- E; set_solver].
    + apply H2. rewrite E. by apply list_elem_of_fmap_2.
Qed.

Lemma own_row_updated c now r ws keys (rows : list TrackedChangeRow) :
  NoDup (row_id <$> rows) -> filter (same_quad c) rows = [r] -> (row_id r, now) ∉ keys ->
  filter (same_quad c) (filter (fun r => ~ doomed ws keys r) (update_tracked_change c now (row_id r) rows)) =
    [update_row c now r].
Proof.
  intros Hn (Hq & pre & post & -> & Hpre & Hpost)%own_row_split Hnow. rewrite update_split by done.
  assert (Hq' : same_quad c (update_row c now r)) by (by destruct Hq).
  rewrite filter_app, filter_cons, (decide_True (P := ~ doomed ws keys (update_row c now r))) by (intros (_ & _ & ?); done).
  rewrite filter_app, filter_cons, decide_True by done.
  assert (Hz : forall l, Forall (fun r => ~ same_quad c r) l -> filter (same_quad c) (filter (fun r => ~ doomed ws keys r) l) = []).
  { intros l Hl. apply filter_empty, Forall_forall. intros x [_ Hx]%list_elem_of_filter. rewrite Forall_forall in Hl. auto. }
  by rewrite (Hz pre Hpre), (Hz post Hpost).
Qed.

(** [C20] A recording survives the sweep in every order but one.  Let the sweep be about to
    delete an agent's row for a file, and the agent change the file again.  If the
    recording looks its row up after the deletion it inserts a new one; if it also writes
    before the deletion the row is updated and stays; but if the deletion falls between
    lookup and write, the update meets no row and the recording leaves nothing behind. *)
Theorem recording_lost_between_lookup_and_write (s : State) (p : Pass) (ws : string) (clean : CleanRows)
    (keys : list RowKey) (cs : list (list RowKey)) (deleted : Z) (r : TrackedChangeRow) (c : NewTrackedChange)
    (now key : string) :
  phase s = Deleting p ws clean (keys :: cs) deleted -> recordings s = [] -> NoDup (row_id <$> table s) ->
  filter (same_quad c) (table s) = [r] -> doomed ws keys r -> (row_id r, now) ∉ keys -> key ∉ row_id <$> table s ->
  filter (same_quad c) (table (foldl step s [ChunkDeleted true; Lookup c; WriteBack 0 now key])) = [new_row c key now] /\
  filter (same_quad c) (table (foldl step s [Lookup c; WriteBack 0 now key; ChunkDeleted true])) = [update_row c now r] /\
  filter (same_quad c) (table (foldl step s [Lookup c; ChunkDeleted true; WriteBack 0 now key])) = [].
Proof.
  intros Eph Er Hn Hf Hd Hnow Hkey. destruct (own_row_deleted c r ws keys (table s) Hn Hf Hd) as [Hgone Hid].
  assert (Hsub : filter (fun r => ~ doomed ws keys r) (table s) `sublist_of` table s) by apply sublist_filter.
  split_and!; cbn [foldl].
  - destruct (step_chunk_deleted s _ _ _ _ _ _ Eph) as [Et1 Er1]. set (s1 := step s (ChunkDeleted true)) in *.
    rewrite Er in Er1. destruct (step_lookup s1 c Er1) as (Et2 & _ & Er2). rewrite Et1, Hgone in Er2.
    rewrite (proj1 (step_write_back _ _ _ now key Er2)), Et2, Et1. cbn [fmap option_fmap option_map head].
    unfold insert_tracked_change. rewrite decide_False.
    + cbn [default id]. rewrite filter_app, Hgone, filter_cons, decide_True by done. done.
    + intros Hin. apply Hkey. eapply elem_of_submseteq; [done|]. by apply sublist_submseteq, fmap_sublist.
  - destruct (step_lookup s c Er) as (Et1 & Ep1 & Er1). set (s1 := step s (Lookup c)) in *. rewrite Hf in Er1.
    destruct (step_write_back s1 _ _ now key Er1) as [Et2 Ep2]. set (s2 := step s1 (WriteBack 0 now key)) in *.
    rewrite Ep1, Eph in Ep2. rewrite (proj1 (step_chunk_deleted s2 _ _ _ _ _ _ Ep2)), Et2, Et1.
    cbn [fmap option_fmap option_map head]. by apply own_row_updated.
  - destruct (step_lookup s c Er) as (Et1 & Ep1 & Er1). set (s1 := step s (Lookup c)) in *. rewrite Hf in Er1.
    rewrite Eph in Ep1. destruct (step_chunk_deleted s1 _ _ _ _ _ _ Ep1) as [Et2 Er2].
    set (s2 := step s1 (ChunkDeleted true)) in *. rewrite Er1 in Er2. rewrite Et1 in Et2.
    rewrite (proj1 (step_write_back s2 _ _ now key Er2)), Et2. cbn [fmap option_fmap option_map head].
    by rewrite update_absent.
Qed.

(** ** A pass without other writers *)

Lemma delete_chunks_spec ws cs (rows : list TrackedChangeRow) :
  (delete_chunks ws cs rows).1 = filter (fun r => ~ doomed ws (concat cs) r) rows /\
  (delete_chunks ws cs rows).2 = len rows - len (delete_chunks ws cs rows).1.
Proof.
  revert rows. induction cs as [|keys cs IH]; intros rows; cbn [delete_chunks concat].
  { assert (Hn : Forall (fun r => ~ doomed ws [] r) rows).
    { apply Forall_forall. intros r _ (_ & _ & H). by apply not_elem_of_nil in H. }
    cbn [fst snd]. rewrite (proj2 (filter_none _ _ Hn)). split; [done|lia]. }
  unfold delete_chunk. destruct (IH (filter (fun r => ~ doomed ws keys r) rows)) as [E1 E2].
  destruct (delete_chunks ws cs _) as [t n]. cbn [fst snd] in *. split.
  - rewrite E1, list_filter_filter. apply list_filter_iff. intros r. unfold doomed. rewrite elem_of_app. tauto.
  - rewrite E2. clear. assert (len rows = len (filter (doomed ws keys) rows) + len (filter (fun r => ~ doomed ws keys r) rows)); [|lia].
    induction rows as [|r rows IH]; [done|]. rewrite !filter_cons. repeat case_decide; try tauto; rewrite !len_cons; lia.
Qed.

Lemma concat_chunks {A} (n : nat) (l : list A) : (0 < n)%nat -> concat (chunks n l) = l.
Proof.
  intros Hn. unfold chunks. enough (H : forall fuel, (length l <= fuel)%nat -> concat (chunks_from fuel n l) = l) by auto.
  intros fuel. revert l. induction fuel as [|fuel IH]; intros [|x l] Hf; try done; [cbn in Hf; lia|]. cbn [chunks_from concat].
  rewrite IH; [apply take_drop|]. rewrite length_drop. cbn [length] in *. lia.
Qed.

(** What the remaining events of a prune do once it is done. *)
Definition resting (ph : Phase) : Prop := match ph with Round _ | Sleeping _ => True | _ => False end.

Lemma prune_done_resting p ws clean deleted s : resting (phase (prune_done p ws clean deleted s)).
Proof. unfold prune_done, next_round. case_bool_decide; by destruct (todo _). Qed.

Lemma resting_idle k s : resting (phase s) -> foldl step s (replicate k (ChunkDeleted true) ++ [MetricsPublished]) = s.
Proof.
  intros Hr. induction k as [|k IH]; cbn [replicate app foldl step]; destruct (phase s) eqn:E; done.
Qed.

Lemma metrics_idle k s p ws clean deleted :
  phase s = Metrics p ws clean deleted ->
  foldl step s (replicate k (ChunkDeleted true) ++ [MetricsPublished]) = prune_done p ws clean deleted s.
Proof. intros E. induction k as [|k IH]; cbn [replicate app foldl step]; rewrite E; done. Qed.

(** The state of a prune that has deleted everything it confirmed. *)
Definition after_prune (p : Pass) (ws : string) (clean : CleanRows) (rows' : list TrackedChangeRow) (deleted : Z)
    (s s' : State) : Prop :=
  exists s0, s' = prune_done p ws clean deleted s0 /\ table s0 = rows' /\ memory s0 = memory s /\ clock s0 = clock s.

Lemma delete_next_run p ws clean cs deleted k s :
  (length cs <= k)%nat -> 0 <= deleted ->
  after_prune p ws clean (delete_chunks ws cs (table s)).1 (deleted + (delete_chunks ws cs (table s)).2) s
    (foldl step (delete_next p ws clean cs deleted s) (replicate k (ChunkDeleted true) ++ [MetricsPublished])).
Proof.
  revert deleted k s. induction cs as [|keys cs IH]; intros deleted k s Hk Hd.
  - cbn [delete_chunks fst snd]. rewrite Z.add_0_r. unfold delete_next. destruct (0 <? deleted).
    + exists (set_phase (Metrics p ws clean deleted) s). by rewrite (metrics_idle k _ p ws clean deleted).
    + exists s. by rewrite resting_idle by apply prune_done_resting.
  - destruct k as [|k]; [cbn in Hk; lia|]. cbn [replicate app foldl delete_next step set_phase phase chunk_deleted delete_chunks].
    unfold delete_chunk. cbn [table set_phase log pass clock].
    match goal with |- context [delete_next p ws clean cs ?dd ?s1] => destruct (IH dd k s1) as (s0 & E & Et & Em & Ec) end;
      [cbn in Hk; lia|pose proof (len_nonneg (filter (doomed ws keys) (table s))); lia|].
    cbn [table set_table logged] in *. destruct (delete_chunks ws cs _) as [t n]. cbn [fst snd] in *.
    exists s0. split; [|done]. rewrite E. f_equal. lia.
Qed.

Definition sandboxed_of (sessions : list (string * option string)) : gset string :=
  list_to_set (filter (fun x => is_Some x.2) sessions).*1.

(** The events of one workspace's prune, with the scan's disk. *)
Definition quiet_prune (w : string) (sessions : list (string * option string)) (d : Disk) (k : nat) : list Event :=
  [Spawned true; GotWorkspace (Some (mkCheckout false (Some w) true)); GotSessions (Some sessions); RowsListed true;
   Scanned (Some d)] ++ replicate k (ChunkDeleted true) ++ [MetricsPublished].

Definition judged_rows (d : Disk) (w ws : string) (sb : gset string) (rows : list TrackedChangeRow) : list TrackedChangeRow :=
  let candidates := filter (candidate sb) (list_tracked_changes ws rows) in
  match classify_paths d w ((fun r => normalize_path (path r)) <$> candidates) with
  | Ok states => clean_rows candidates states
  | Err _ => []
  end.

Definition confirmed_keys (prior : CleanRows) (judged : list TrackedChangeRow) : list RowKey :=
  filter (fun k => k ∈ prior) (row_key <$> judged).

Definition clean_keys (prior : CleanRows) (judged : list TrackedChangeRow) : CleanRows :=
  list_to_set (filter (fun k => k ∉ prior) (row_key <$> judged)).

Lemma chunks_length {A} (n : nat) (l : list A) : (0 < n)%nat -> (length (chunks n l) <= length l)%nat.
Proof.
  intros Hn. unfold chunks. generalize (length l) at 1. intros fuel. revert l.
  induction fuel as [|fuel IH]; intros [|x l]; cbn; try lia. specialize (IH (drop n (x :: l))).
  rewrite length_drop in IH. cbn in IH. lia.
Qed.

Lemma clean_rows_length rows states : (length (clean_rows rows states) <= length rows)%nat.
Proof.
  unfold clean_rows. rewrite length_fmap. etransitivity; [apply length_filter|]. rewrite length_zip_with. lia.
Qed.

(** From the scan on. *)
Lemma scanned_run s p ws prior w d k rows :
  (length rows <= k)%nat ->
  let judged :=
    match classify_paths d w ((fun r => normalize_path (path r)) <$> rows) with
    | Ok states => clean_rows rows states
    | Err _ => []
    end in
  let out := delete_unchanged_working_tracked_changes ws (confirmed_keys prior judged) (table s) in
  after_prune p ws (clean_keys prior judged) out.1 out.2 s
    (foldl step (scanned (Some d) p ws prior w rows s) (replicate k (ChunkDeleted true) ++ [MetricsPublished])).
Proof.
  intros Hk. unfold scanned. destruct (classify_paths _ _ _) as [states|e]; cbn zeta.
  2:{ unfold nothing_pruned. rewrite resting_idle by apply prune_done_resting. by exists s. }
  fold (confirmed_keys prior (clean_rows rows states)) (clean_keys prior (clean_rows rows states)).
  pose proof (clean_rows_length rows states) as Hlen. unfold delete_unchanged_working_tracked_changes.
  destruct (confirmed_keys prior (clean_rows rows states)) as [|k0 ks] eqn:E.
  - rewrite resting_idle by apply prune_done_resting. by eexists.
  - rewrite <- E. match goal with |- context [delete_next _ _ _ _ _ ?s1] =>
      destruct (delete_next_run p ws (clean_keys prior (clean_rows rows states))
        (chunks CHUNK (confirmed_keys prior (clean_rows rows states))) 0 k s1) as (s0 & E0 & Et & Em & Ec) end.
    + pose proof (chunks_length CHUNK (confirmed_keys prior (clean_rows rows states)) ltac:(unfold CHUNK; lia)).
      assert (length (confirmed_keys prior (clean_rows rows states)) <= length (row_key <$> clean_rows rows states))%nat
        by apply length_filter. rewrite length_fmap in *. lia.
    + lia.
    + exists s0. done.
Qed.

Lemma quiet_prune_run s p ws rest w sessions d k :
  phase s = Round p -> todo p = ws :: rest -> (length (table s) <= k)%nat ->
  let prior := default ∅ (previous p !! ws) in
  let judged := judged_rows d w ws (sandboxed_of sessions) (table s) in
  let out := delete_unchanged_working_tracked_changes ws (confirmed_keys prior judged) (table s) in
  after_prune (mkPass rest (delete ws (previous p)) (total p)) ws (clean_keys prior judged) out.1 out.2 s
    (foldl step s (quiet_prune w sessions d k)).
Proof.
  intros Eph Etodo Hk. cbn zeta. set (prior := default ∅ (previous p !! ws)).
  set (p1 := mkPass rest (delete ws (previous p)) (total p)). set (sb := sandboxed_of sessions).
  set (cands := filter (candidate sb) (list_tracked_changes ws (table s))).
  set (s1 := set_phase (ListRows p1 ws prior w sb) s). unfold quiet_prune. cbn [app foldl].
  replace (step (step (step s (Spawned true)) (GotWorkspace (Some (mkCheckout false (Some w) true)))) (GotSessions (Some sessions)))
    with s1 by (unfold step at 3; rewrite Eph; unfold spawned; by rewrite Etodo).
  replace (step (step s1 (RowsListed true)) (Scanned (Some d))) with
    (match cands with [] => nothing_pruned p1 ws s1 | _ => scanned (Some d) p1 ws prior w cands (set_phase (Scanning p1 ws prior w cands) s1) end).
  2:{ unfold s1. cbn [step set_phase phase rows_listed table]. fold cands. destruct cands eqn:E; [|done].
      pose proof (prune_done_resting p1 ws ∅ 0 (set_phase (ListRows p1 ws prior w sb) s)) as Hr.
      unfold step, nothing_pruned. by destruct (phase (prune_done _ _ _ _ _)). }
  unfold judged_rows. fold cands. destruct cands as [|r0 rs] eqn:E.
  - unfold nothing_pruned. rewrite resting_idle by apply prune_done_resting. exists s1.
    by destruct (classify_paths _ _ _).
  - rewrite <- E. destruct (scanned_run (set_phase (Scanning p1 ws prior w cands) s1) p1 ws prior w d k cands) as (s0 & E0 & Et & Em & Ec).
    + transitivity (length (table s)); [|done]. unfold cands. etransitivity; [apply length_filter|].
      unfold list_tracked_changes. rewrite (Permutation_length (sort_by_perm _ _)). apply length_filter.
    + exists s0. done.
Qed.

(** A row of the workspace that git reports clean, in a worktree it can read. *)
Definition stale (d : Disk) (w ws : string) (sb : gset string) (r : TrackedChangeRow) : Prop :=
  workspace_id r = ws /\ candidate sb r /\ Judged d w (normalize_path (path r)) Clean /\
  (exists v, git_open d w = Some v) /\ exists files, files_without_renames d w = Ok files.

Lemma clean_rows_elem d w rows states r :
  classify_paths d w ((fun r => normalize_path (path r)) <$> rows) = Ok states ->
  r ∈ clean_rows rows states <-> r ∈ rows /\ Judged d w (normalize_path (path r)) Clean.
Proof.
  intros Hc. split; [by apply clean_rows_judged|]. intros [Hr Hj]. apply classify_paths_judged in Hc.
  unfold clean_rows. apply list_elem_of_fmap. exists (r, Clean). split; [done|]. apply list_elem_of_filter. split; [done|].
  revert states Hc. induction rows as [|x rows IH]; [by apply not_elem_of_nil in Hr|]. intros states Hc.
  inversion Hc as [|? st ? states' Hx Hrest]; subst. cbn. apply elem_of_cons.
  apply elem_of_cons in Hr as [<-|Hr]; [left; f_equal; by eapply judged_unique|right; by apply IH].
Qed.

Lemma judged_rows_elem d w ws sb rows r : r ∈ judged_rows d w ws sb rows <-> r ∈ rows /\ stale d w ws sb r.
Proof.
  unfold judged_rows, stale. set (cands := filter (candidate sb) (list_tracked_changes ws rows)).
  destruct (classify_paths d w _) as [states|e] eqn:Hc.
  - rewrite (clean_rows_elem _ _ _ _ _ Hc). unfold cands. rewrite list_elem_of_filter, list_tracked_changes_elem.
    revert Hc. unfold classify_paths, dirty_set. destruct (git_open d w) as [v|]; [|done].
    destruct (files_without_renames d w) as [files|]; [|done]. intros _. split; [|tauto].
    intros [(? & ? & ?) ?]. split_and!; try done; eauto.
  - split; [by intros ?%not_elem_of_nil|]. intros (_ & _ & _ & _ & (v & Ev) & files & Ef). revert Hc.
    unfold classify_paths, dirty_set. by rewrite Ev, Ef.
Qed.

Lemma doomed_stale d w ws sb prior rows r :
  NoDup (row_id <$> rows) -> r ∈ rows ->
  doomed ws (confirmed_keys prior (judged_rows d w ws sb rows)) r <-> stale d w ws sb r /\ row_key r ∈ prior.
Proof.
  intros Hn Hr. unfold doomed, confirmed_keys. rewrite list_elem_of_filter, list_elem_of_fmap. split.
  - intros (Hws & Hw & Hp & r' & E & [Hr' Hs]%judged_rows_elem). injection E as E _.
    assert (r = r') as <- by (by eapply ids_inj). done.
  - intros [Hs Hp]. pose proof Hs as (? & [? _] & _). split_and!; [done..|]. exists r. by rewrite judged_rows_elem.
Qed.

(** [C21] A pass prunes exactly the stale rows.  Without writers in between, the prune of a
    workspace deletes the rows of agents outside sandboxes, at a working stage, that git
    reports clean and that the pass before had marked with the same time stamp, however
    many statements that takes; it remembers exactly those it found clean for the first
    time, touches no other workspace's memory, and goes on to the next round with the
    deletions counted.  A worktree git cannot read is left as it is. *)
Theorem prune_pass_exact (s : State) (p : Pass) (ws : string) (rest : list string) (w : string)
    (sessions : list (string * option string)) (d : Disk) (k : nat) :
  phase s = Round p -> todo p = ws :: rest -> NoDup (row_id <$> table s) -> memory s !! ws = None ->
  (length (table s) <= k)%nat ->
  let prior := default ∅ (previous p !! ws) in
  let stale_row := stale d w ws (sandboxed_of sessions) in
  let s' := foldl step s (quiet_prune w sessions d k) in
  (forall r, r ∈ table s' <-> r ∈ table s /\ ~ (stale_row r /\ row_key r ∈ prior)) /\
  (forall key, key ∈ default ∅ (memory s' !! ws) <-> (key ∉ prior) /\ exists r, r ∈ table s /\ stale_row r /\ row_key r = key) /\
  (forall ws', ws' <> ws -> memory s' !! ws' = memory s !! ws') /\
  phase s' = phase (next_round (mkPass rest (delete ws (previous p)) (total p + (len (table s) - len (table s')))) s).
Proof.
  intros Eph Etodo Hn Hm Hk. cbn zeta.
  destruct (quiet_prune_run s p ws rest w sessions d k Eph Etodo Hk) as (s0 & -> & Et & Em & Ec).
  set (prior := default ∅ (previous p !! ws)) in *.
  set (judged := judged_rows d w ws (sandboxed_of sessions) (table s)) in *.
  unfold delete_unchanged_working_tracked_changes in *.
  destruct (delete_chunks_spec ws (chunks CHUNK (confirmed_keys prior judged)) (table s)) as [E1 E2].
  rewrite concat_chunks in E1 by (unfold CHUNK; lia). rewrite E2. rewrite <- Et in *.
  assert (Etab : forall clean n q, table (prune_done q ws clean n s0) = table s0) by (intros; apply quiet_prune_done).
  rewrite !Etab. split_and!.
  - intros r. rewrite E1, list_elem_of_filter. split.
    + intros [Hd Hr]. split; [done|]. by rewrite <- (doomed_stale _ _ _ _ _ (table s)).
    + intros [Hr Hs]. split; [|done]. unfold judged. by rewrite doomed_stale.
  - intros key. transitivity (key ∈ clean_keys prior judged).
    + unfold prune_done, next_round. case_bool_decide as Hc; cbn [todo]; destruct rest; cbn [memory set_phase end_pass set_memory];
        rewrite ?Em, ?Hm, ?Hc, ?lookup_insert_eq; done.
    + unfold clean_keys. rewrite elem_of_list_to_set, list_elem_of_filter, list_elem_of_fmap.
      split; (intros [Hp (r & Hr)]; split; [done|]; exists r).
      * destruct Hr as [-> [? ?]%judged_rows_elem]. done.
      * unfold judged. rewrite judged_rows_elem. by destruct Hr as (? & ? & <-).
  - intros ws' Hws. unfold prune_done, next_round. case_bool_decide; cbn [todo]; destruct rest; cbn [memory set_phase end_pass set_memory];
      rewrite ?lookup_insert_ne by done; by rewrite Em.
  - unfold prune_done, next_round. case_bool_decide; cbn [todo]; destruct rest; cbn [phase set_phase end_pass set_memory clock];
      by rewrite ?Ec.
Qed.

(** ** Runs *)

Definition committed_row : TrackedChangeRow :=
  mkRow "r1" "w" "f.rs" "unstaged" "modified" (Some "a") None None None None None 3 0 "t0" "t0".

Definition clean_disk : Disk :=
  mkDisk (fun _ => Some (mkView (Some (fun _ => None)) None (fun _ => Some false) false)) (fun _ => Ok [])
    (fun _ => false) (fun _ => true) (fun p => p).

Definition one_pass : list Event := [Wake; WorkspacesListed true] ++ quiet_prune "/w" [] clean_disk 1.

Definition two_passes : list Event := [Elapse SWEEP_INITIAL_DELAY] ++ one_pass ++ [Elapse SWEEP_INTERVAL] ++ one_pass.

Lemma sweep_deletes_confirmed_witness :
  Removed 2 "w" committed_row 1920 ∈ log (run [committed_row] two_passes) /\
  working committed_row /\
  exists q t1 d1 w1 t0 d0 w0, 2%nat = S q /\
    Marked 2 "w" committed_row t1 d1 w1 ∈ log (run [committed_row] two_passes) /\
    Marked q "w" committed_row t0 d0 w0 ∈ log (run [committed_row] two_passes) /\
    t0 + SWEEP_INTERVAL <= t1 <= 1920.
Proof.
  assert (Hin : Removed 2 "w" committed_row 1920 ∈ log (run [committed_row] two_passes))
    by (apply (list_elem_of_lookup_2 _ 2); vm_compute; reflexivity).
  split; [exact Hin|].
  destruct (sweep_deletes_confirmed [committed_row] two_passes) as [Hdel _].
  - apply NoDup_singleton.
  - split; [vm_compute; apply NoDup_nil_2|]. intros now Hnow. vm_compute in Hnow. by apply not_elem_of_nil in Hnow.
  - destruct (Hdel _ _ _ _ Hin) as (Hw & _ & q & t1 & d1 & w1 & t0 & d0 & w0 & Hq & H1 & H0 & Ht & _).
    split; [exact Hw|]. exists q, t1, d1, w1, t0, d0, w0. done.
Defined.

(** The second pass, about to delete. *)
Definition before_deletion : State :=
  run [committed_row] ([Elapse SWEEP_INITIAL_DELAY] ++ one_pass ++ [Elapse SWEEP_INTERVAL] ++ take 7 one_pass).

Definition written_again : NewTrackedChange :=
  mkNew "w" "f.rs" "unstaged" "modified" (Some "a") None None None None None 4 0.

Lemma recording_lost_between_lookup_and_write_witness :
  filter (same_quad written_again)
    (table (foldl step before_deletion [Lookup written_again; ChunkDeleted true; WriteBack 0 "t1" "r2"])) = [].
Proof.
  eapply (recording_lost_between_lookup_and_write before_deletion _ "w" _ [("r1", "t0")] [] 0 committed_row written_again
    "t1" "r2").
  - vm_compute. reflexivity.
  - vm_compute. reflexivity.
  - apply NoDup_singleton.
  - vm_compute. reflexivity.
  - apply (bool_decide_unpack _). vm_compute. done.
  - apply (bool_decide_unpack _). vm_compute. done.
  - apply (bool_decide_unpack _). vm_compute. done.
Defined.

Definition second_round : Pass := mkPass ["w"] {["w" := {[("r1", "t0")]}]} 0.

Definition in_second_pass : State := mkState [committed_row] ∅ (Round second_round) [] 1920 2 [].

Lemma prune_pass_exact_witness :
  committed_row ∈ table (foldl step in_second_pass (quiet_prune "/w" [] clean_disk 1)) <->
    committed_row ∈ [committed_row] /\
    ~ (stale clean_disk "/w" "w" (sandboxed_of []) committed_row /\ row_key committed_row ∈ ({[("r1", "t0")]} : CleanRows)).
Proof.
  refine (proj1 (prune_pass_exact in_second_pass second_round "w" [] "/w" [] clean_disk 1 _ _ _ _ _) committed_row).
  - reflexivity.
  - reflexivity.
  - apply NoDup_singleton.
  - reflexivity.
  - cbn. lia.
Defined.

Example second_pass_prunes : table (run [committed_row] two_passes) = [].
Proof. vm_compute. reflexivity. Qed.
