(* ===== verification/Presence.v ===== *)
(** * Presence ([crates/intent-services/src/presence.rs])

    Who is online, where they are, who views a note and where their caret is.  The
    table is one mutex-guarded state; each operation is a lock section, and the
    trailing flush of a caret is a timer.  Instants are nanoseconds; connection ids,
    typing sources and timestamps are arguments.  Profiles are not kept: a roster
    takes them from the membership rows. *)
From stdpp Require Import prelude strings gmap sorting.
From S2P Require Import Prelude.
From S2P Require Import Json.

(** ** The caret throttle *)

Definition CURSOR_MIN_INTERVAL : Z := 100 * 1000000.

Inductive Offer := Publish | Defer (delay : Z) | Absorbed.

Record CursorThrottle := mkThrottle {
  last_publish : option Z;
  pending : option json;
  armed : bool }.

Definition new_throttle : CursorThrottle := mkThrottle None None false.

(** [Instant::duration_since] and [Duration::saturating_sub] saturate at zero. *)
Definition offer (t : CursorThrottle) (cursor : json) (now : Z) : CursorThrottle * Offer :=
  if armed t then (mkThrottle (last_publish t) (Some cursor) true, Absorbed)
  else
    match last_publish t with
    | Some last =>
        if saturating_sub now last <? CURSOR_MIN_INTERVAL
        then (mkThrottle (Some last) (Some cursor) true,
              Defer (saturating_sub CURSOR_MIN_INTERVAL (saturating_sub now last)))
        else (mkThrottle (Some now) (pending t) false, Publish)
    | None => (mkThrottle (Some now) (pending t) false, Publish)
    end.

Definition flush (t : CursorThrottle) (now : Z) : CursorThrottle * option json :=
  match pending t with
  | Some c => (mkThrottle (Some now) None false, Some c)
  | None => (mkThrottle (last_publish t) None false, None)
  end.

(** ** Rows *)

Record Focus := mkFocus {
  f_workspace : string;
  f_agent : option string;
  f_note : option string }.

#[global] Instance Focus_eq_dec : EqDecision Focus.
Proof. solve_decision. Defined.

Definition focus_json (f : Focus) : json :=
  let v := JObject [("workspaceId", JString (f_workspace f))] in
  let v := match f_agent f with Some a => jset v "agentId" (JString a) | None => v end in
  match f_note f with Some n => jset v "noteId" (JString n) | None => v end.

Record Typing := mkTyping {
  t_agent : string;
  t_workspace : string;
  t_since : string;
  t_pulse : Z }.

Record DiscussionTyping := mkDiscussionTyping {
  d_workspace : string;
  d_conversation : string;
  d_since : string;
  d_pulse : Z }.

(** A note of a workspace. *)
Abbreviation Key := (string * string)%type.

Record Conn := mkConn {
  principal : string;
  hello : bool;
  typing_source : string;
  typing_pulses : Z;
  discussion_typing_pulses : Z;
  focus : list Focus;
  typing : option Typing;
  discussion_typing : option DiscussionTyping;
  leases : gmap string Key }.

Definition new_conn (p source : string) : Conn := mkConn p false source 0 0 [] None None ∅.

Definition with_leases (c : Conn) (m : gmap string Key) : Conn :=
  mkConn (principal c) (hello c) (typing_source c) (typing_pulses c) (discussion_typing_pulses c) (focus c)
    (typing c) (discussion_typing c) m.

Definition workspaces (c : Conn) : gset string :=
  list_to_set ((f_workspace <$> focus c) ++ option_list (t_workspace <$> typing c)
               ++ option_list (d_workspace <$> discussion_typing c)).

Definition is_empty (c : Conn) : bool :=
  negb (hello c) && bool_decide (focus c = []) && negb (bool_decide (is_Some (typing c)))
  && negb (bool_decide (is_Some (discussion_typing c))) && bool_decide (leases c = ∅).

Record Viewer := mkViewer {
  generation : nat;
  cursor : option json;
  throttle : CursorThrottle;
  v_leases : gset (string * string) }.

Record State := mkState {
  focus_generation : Z;
  conns : gmap string Conn;
  viewers : gmap Key (gmap string Viewer);
  next_generation : nat }.

Definition set_conns m s := mkState (focus_generation s) m (viewers s) (next_generation s).
Definition set_viewers m s := mkState (focus_generation s) (conns s) m (next_generation s).
Definition bump_focus s := mkState (wrapping_add u64_max (focus_generation s) 1) (conns s) (viewers s) (next_generation s).

Definition is_online (s : State) (p : string) : bool :=
  existsb (fun c => hello c && bool_decide (principal c = p)) (map_to_list (conns s)).*2.

Definition viewer (s : State) (key : Key) (p : string) : option Viewer :=
  viewers s !! key ≫= fun m => m !! p.

Definition set_viewer (key : Key) (p : string) (v : Viewer) (s : State) : State :=
  set_viewers (<[key := <[p := v]> (default ∅ (viewers s !! key))]> (viewers s)) s.

(** ** The roster *)

(** A membership row, with what the store says of the principal. *)
Record Member := mkMember {
  m_id : string;
  m_login : option string;
  m_display_name : option string;
  m_avatar_url : option string;
  m_host_role : string;
  m_identity : option json }.

Definition jopt (o : option string) : json := match o with Some s => JString s | None => JNull end.

Definition conns_of (s : State) (p : string) : list Conn :=
  List.filter (fun c => bool_decide (principal c = p)) (map_to_list (conns s)).*2.

(** The focus items of a list of connections in a workspace, each once. *)
Definition add_focus (ws : string) (acc : list Focus) (f : Focus) : list Focus :=
  if bool_decide (f_workspace f = ws) && negb (bool_decide (f ∈ acc)) then acc ++ [f] else acc.

Definition roster_focus (ws : string) (l : list Conn) : list Focus :=
  foldl (add_focus ws) [] (l ≫= focus).

Definition by_source {A} (a b : string * A) : bool := str_leb a.1 b.1.

Definition roster_typing (ws : string) (l : list Conn) : list (string * Typing) :=
  sort_by by_source (omap (fun c => t ← typing c;
    if bool_decide (t_workspace t = ws) then Some (typing_source c, t) else None) l).

Definition roster_discussion (ws : string) (l : list Conn) : list (string * DiscussionTyping) :=
  sort_by by_source (omap (fun c => t ← discussion_typing c;
    if bool_decide (d_workspace t = ws) then Some (typing_source c, t) else None) l).

Definition typing_json (e : string * Typing) : json :=
  JObject [("source", JString e.1); ("agentId", JString (t_agent e.2)); ("since", JString (t_since e.2));
           ("pulse", JNumber (PosInt (Z.to_N (t_pulse e.2))))].

Definition discussion_json (e : string * DiscussionTyping) : json :=
  JObject [("source", JString e.1); ("since", JString (d_since e.2));
           ("pulse", JNumber (PosInt (Z.to_N (d_pulse e.2)))); ("conversationId", JString (d_conversation e.2))].

Definition roster_row (s : State) (ws : string) (human : bool) (m : Member) : json :=
  let l := conns_of s (m_id m) in
  let row := JObject
    [("principalId", JString (m_id m)); ("login", jopt (m_login m)); ("displayName", jopt (m_display_name m));
     ("avatarUrl", jopt (m_avatar_url m)); ("hostRole", JString (m_host_role m));
     ("focus", JArray (focus_json <$> roster_focus ws l)); ("typing", JArray (typing_json <$> roster_typing ws l))] in
  let row := if human then jset row "discussionTyping" (JArray (discussion_json <$> roster_discussion ws l)) else row in
  match m_identity m with Some i => jset row "identity" i | None => row end.

Definition roster (s : State) (ws : string) (members : list Member) (human : bool) : list json :=
  roster_row s ws human <$> List.filter (fun m => is_online s (m_id m)) members.

(** ** Operations *)

Inductive Kind := Joined | Updated | Left_.

(** What an operation sends: a note's delta, a workspace's roster, the rosters of
    every workspace a principal belongs to.  [ODropped] is a caret the flush takes
    and does not publish, kept for the statements. *)
Inductive Out :=
| ONote (key : Key) (p : string) (kind : Kind) (cursor : option json)
| OChanged (ws : string)
| OMemberships (p : string)
| ODropped (key : Key) (p : string) (cursor : json).

Definition presence_connect_op (s : State) (c p source : string) : State * list Out :=
  let was_online := is_online s p in
  let conn := default (new_conn p source) (conns s !! c) in
  let conn := mkConn (principal conn) true (typing_source conn) (typing_pulses conn) (discussion_typing_pulses conn)
                (focus conn) (typing conn) (discussion_typing conn) (leases conn) in
  (set_conns (<[c := conn]> (conns s)) s, if was_online then [] else [OMemberships p]).

(** The first section of [presence_update_op]. *)
Definition update_allowed (s : State) (c p : string) : bool :=
  match conns s !! c with
  | Some conn => hello conn && bool_decide (principal conn = p)
  | None => false
  end.

Definition set_typing (conn : Conn) (target : option (string * string)) (now : string) : Z * option Typing :=
  match target with
  | None => (typing_pulses conn, None)
  | Some (agent, ws) =>
      let pulses := typing_pulses conn + 1 in
      let since := match typing conn with
                   | Some t => if bool_decide (t_agent t = agent) then t_since t else now
                   | None => now
                   end in
      (pulses, Some (mkTyping agent ws since pulses))
  end.

Definition set_discussion (conn : Conn) (target : option (string * string)) (now : string) :
    Z * option DiscussionTyping :=
  match target with
  | None => (discussion_typing_pulses conn, None)
  | Some (ws, conversation) =>
      let pulses := discussion_typing_pulses conn + 1 in
      let since := match discussion_typing conn with
                   | Some t => if bool_decide (d_workspace t = ws) && bool_decide (d_conversation t = conversation)
                               then d_since t else now
                   | None => now
                   end in
      (pulses, Some (mkDiscussionTyping ws conversation since pulses))
  end.

(** The second section, after the targets were checked; [None] when the connection
    is gone. *)
Definition presence_update_op (s : State) (c : string) (fs : list Focus) (target discussion : option (string * string))
    (now : string) : State * option (list Out * string) :=
  let s := bump_focus s in
  match conns s !! c with
  | None => (s, None)
  | Some conn =>
      let '(pulses, t) := set_typing conn target now in
      let '(dpulses, d) := set_discussion conn discussion now in
      let conn' := mkConn (principal conn) (hello conn) (typing_source conn) pulses dpulses fs t d (leases conn) in
      (set_conns (<[c := conn']> (conns s)) s,
       Some (OChanged <$> elements (workspaces conn ∪ workspaces conn'), typing_source conn))
  end.

Definition release_lease (key : Key) (p c lease : string) (s : State) : State * bool :=
  match viewers s !! key with
  | None => (s, false)
  | Some m =>
      match m !! p with
      | None => (s, false)
      | Some v =>
          let ls := v_leases v ∖ {[(c, lease)]} in
          if negb (bool_decide (ls = ∅)) then
            (set_viewers (<[key := <[p := mkViewer (generation v) (cursor v) (throttle v) ls]> m]> (viewers s)) s, false)
          else
            let m' := delete p m in
            (set_viewers (if bool_decide (m' = ∅) then delete key (viewers s) else <[key := m']> (viewers s)) s, true)
      end
  end.

(** The loop over a connection's leases. *)
Definition release_one (p c : string) (acc : State * list Out) (kv : string * Key) : State * list Out :=
  let '(s, gone) := release_lease kv.2 p c kv.1 acc.1 in
  (s, if gone : bool then acc.2 ++ [ONote kv.2 p Left_ None] else acc.2).

Definition presence_disconnect_op (s : State) (c : string) : State * list Out :=
  let s := bump_focus s in
  match conns s !! c with
  | None => (s, [])
  | Some conn =>
      let s := set_conns (delete c (conns s)) s in
      let '(s, left_) := foldl (release_one (principal conn) c) (s, []) (map_to_list (leases conn)) in
      let went_offline := hello conn && negb (is_online s (principal conn)) in
      (s, left_ ++ (if went_offline then [OMemberships (principal conn)]
                    else OChanged <$> elements (workspaces conn)))
  end.

(** The viewer a join finds or makes. *)
Definition note_presence_join_op (s : State) (c lease : string) (key : Key) (p source : string) : State * list Out :=
  let conn := default (new_conn p source) (conns s !! c) in
  let conn := with_leases conn (<[lease := key]> (leases conn)) in
  let s := set_conns (<[c := conn]> (conns s)) s in
  match viewer s key p with
  | Some v => (set_viewer key p (mkViewer (generation v) (cursor v) (throttle v) ({[(c, lease)]} ∪ v_leases v)) s, [])
  | None =>
      let v := mkViewer (next_generation s) None new_throttle {[(c, lease)]} in
      let s := set_viewer key p v s in
      (mkState (focus_generation s) (conns s) (viewers s) (S (next_generation s)), [ONote key p Joined None])
  end.

(** The rows of the join's answer: the note's viewers that are members, in order. *)
Definition join_snapshot (s : State) (key : Key) (is_member : string -> bool) : list (string * option json) :=
  sort_by by_source (List.filter (fun r => is_member r.1)
    ((fun kv => (kv.1, cursor kv.2)) <$> map_to_list (default ∅ (viewers s !! key)))).

Definition note_presence_leave_op (s : State) (c lease : string) : State * list Out :=
  match conns s !! c with
  | None => (s, [])
  | Some conn =>
      match leases conn !! lease with
      | None => (s, [])
      | Some key =>
          let conn' := with_leases conn (delete lease (leases conn)) in
          let s := set_conns (if is_empty conn' then delete c (conns s) else <[c := conn']> (conns s)) s in
          let '(s, gone) := release_lease key (principal conn) c lease s in
          (s, if gone : bool then [ONote key (principal conn) Left_ None] else [])
      end
  end.

(** A caret: refused, or taken, with the delta to publish now or the delay of the
    flush to schedule for the viewer's generation. *)
Definition note_presence_update_op (s : State) (c : string) (key : Key) (p : string) (caret : json) (now : Z) :
    State * option (list Out * option (nat * Z)) :=
  let subscribed := match conns s !! c with
                    | Some conn => bool_decide (principal conn = p)
                                   && existsb (fun k => bool_decide (k = key)) (map_to_list (leases conn)).*2
                    | None => false
                    end in
  match subscribed, viewer s key p with
  | true, Some v =>
      let '(t, decision) := offer (throttle v) caret now in
      let s := set_viewer key p (mkViewer (generation v) (Some caret) t (v_leases v)) s in
      (s, Some (match decision with
                | Publish => ([ONote key p Updated (Some caret)], None)
                | Defer delay => ([], Some (generation v, delay))
                | Absorbed => ([], None)
                end))
  | _, _ => (s, None)
  end.

(** The lock section of [spawn_trailing_flush]. *)
Definition trailing_flush (s : State) (key : Key) (p : string) (gen : nat) (member : bool) (now : Z) :
    State * list Out :=
  match viewer s key p with
  | Some v =>
      if bool_decide (generation v = gen) then
        let '(t, caret) := flush (throttle v) now in
        let s := set_viewer key p (mkViewer (generation v) (cursor v) t (v_leases v)) s in
        match caret with
        | Some x => (s, [if member then ONote key p Updated (Some x) else ODropped key p x])
        | None => (s, [])
        end
      else (s, [])
  | None => (s, [])
  end.

(** ** Parameters *)

(** [non_empty_str]: absent or null, a text, or wrong. *)
Definition non_empty_str (v : option json) : Result (option string) unit :=
  match v with
  | None | Some JNull => Ok None
  | Some (JString s) => if slen s =? 0 then Err tt else Ok (Some s)
  | Some _ => Err tt
  end.

Definition parse_focus (item : json) : option Focus :=
  obj ← as_object item;
  match non_empty_str (map_get obj "workspaceId"), non_empty_str (map_get obj "agentId"),
        non_empty_str (map_get obj "noteId") with
  | Ok (Some w), Ok a, Ok n => Some (mkFocus w a n)
  | _, _, _ => None
  end.

(** [None] where the code answers [InvalidParams]. *)
Definition parse_update (params : json) : option (list Focus * option string) :=
  obj ← as_object params;
  items ← map_get obj "focus" ≫= as_array;
  fs ← mapM parse_focus items;
  let fs := foldl (fun acc f => if bool_decide (f ∈ acc) then acc else acc ++ [f]) [] fs in
  match map_get obj "typing" with
  | None | Some JNull => Some (fs, None)
  | Some (JObject t) =>
      match non_empty_str (map_get t "agentId") with
      | Ok (Some a) => Some (fs, Some a)
      | _ => None
      end
  | Some _ => None
  end.

Definition parse_discussion_typing (params : json) : option (option (string * string)) :=
  match jget params "discussionTyping" with
  | None | Some JNull => Some None
  | Some target =>
      ws ← jget target "workspaceId" ≫= as_str;
      if slen ws =? 0 then None
      else
        match jget target "conversationId" with
        | None => Some (Some (ws, "default"))
        | Some v => c ← as_str v; if slen c =? 0 then None else Some (Some (ws, c))
        end
  end.

Definition as_u64 (v : json) : option N :=
  match v with JNumber (PosInt n) => Some n | _ => None end.

Definition parse_cursor (params : json) : option json :=
  rev ← jget params "rev" ≫= as_u64;
  anchor ← jget params "anchor" ≫= as_u64;
  head_ ← jget params "head" ≫= as_u64;
  Some (JObject [("rev", JNumber (PosInt rev)); ("anchor", JNumber (PosInt anchor)); ("head", JNumber (PosInt head_))]).

(** ** The machine *)

Record Timer := mkTimer {
  tm_key : Key;
  tm_p : string;
  tm_gen : nat;
  tm_due : Z }.

(** The table, the clock, the scheduled flushes and what was sent when. *)
Record Sys := mkSys {
  st : State;
  clock : Z;
  timers : list Timer;
  log : list (Z * Out) }.

Definition empty_state : State := mkState 0 ∅ ∅ 1.
Definition initial : Sys := mkSys empty_state 0 [] [].

(** An update's event is its second section: the first may have been passed long ago. *)
Inductive Event :=
| EConnect (c p source : string)
| EUpdate (c : string) (fs : list Focus) (target discussion : option (string * string)) (now : string)
| EDisconnect (c : string)
| EJoin (c lease : string) (key : Key) (p source : string)
| ELeave (c lease : string)
| ECaret (c : string) (key : Key) (p : string) (caret : json)
| EFlush (n : nat) (member : bool)
| ETick (d : N).

(** The operation of an event, what it sends and the timer it schedules. *)
Definition perform (s : Sys) (e : Event) : State * list Out :=
  match e with
  | EConnect c p source => presence_connect_op (st s) c p source
  | EUpdate c fs target discussion now =>
      let '(t, r) := presence_update_op (st s) c fs target discussion now in
      (t, match r with Some (outs, _) => outs | None => [] end)
  | EDisconnect c => presence_disconnect_op (st s) c
  | EJoin c lease key p source => note_presence_join_op (st s) c lease key p source
  | ELeave c lease => note_presence_leave_op (st s) c lease
  | ECaret c key p caret =>
      let '(t, r) := note_presence_update_op (st s) c key p caret (clock s) in
      (t, match r with Some (outs, _) => outs | None => [] end)
  | EFlush n member =>
      match timers s !! n with
      | Some tm => if tm_due tm <=? clock s
                   then trailing_flush (st s) (tm_key tm) (tm_p tm) (tm_gen tm) member (clock s)
                   else (st s, [])
      | None => (st s, [])
      end
  | ETick _ => (st s, [])
  end.

(** The timers after the event: a deferred caret schedules one, a due one is used up. *)
Definition timers_after (s : Sys) (e : Event) : list Timer :=
  match e with
  | ECaret c key p caret =>
      match (note_presence_update_op (st s) c key p caret (clock s)).2 with
      | Some (_, Some (gen, delay)) => timers s ++ [mkTimer key p gen (clock s + delay)]
      | _ => timers s
      end
  | EFlush n _ =>
      match timers s !! n with
      | Some tm => if tm_due tm <=? clock s then delete n (timers s) else timers s
      | None => timers s
      end
  | _ => timers s
  end.

Definition step (s : Sys) (e : Event) : Sys :=
  let '(t, outs) := perform s e in
  mkSys t (match e with ETick d => clock s + Z.of_N d | _ => clock s end) (timers_after s e)
    (log s ++ ((fun o => (clock s, o)) <$> outs)).

Definition run : Sys -> list Event -> Sys := foldl step.

(** ** What a roster shows *)

Definition focus_in (s : State) (ws p : string) (f : Focus) : Prop :=
  exists c conn, conns s !! c = Some conn /\ principal conn = p /\ f ∈ focus conn /\ f_workspace f = ws.

Definition typing_in (s : State) (ws p : string) (e : string * Typing) : Prop :=
  exists c conn, conns s !! c = Some conn /\ principal conn = p /\ typing_source conn = e.1 /\
    typing conn = Some e.2 /\ t_workspace e.2 = ws.

Definition discussion_in (s : State) (ws p : string) (e : string * DiscussionTyping) : Prop :=
  exists c conn, conns s !! c = Some conn /\ principal conn = p /\ typing_source conn = e.1 /\
    discussion_typing conn = Some e.2 /\ d_workspace e.2 = ws.

Definition online (s : State) (p : string) : Prop :=
  exists c conn, conns s !! c = Some conn /\ hello conn = true /\ principal conn = p.

Lemma elem_of_rows {A} (m : gmap string A) x : x ∈ (map_to_list m).*2 <-> exists c, m !! c = Some x.
Proof.
  rewrite list_elem_of_fmap. split.
  - intros ([c y] & -> & H%elem_of_map_to_list). eauto.
  - intros (c & H%elem_of_map_to_list). by exists (c, x).
Qed.

Lemma is_online_spec s p : is_online s p = true <-> online s p.
Proof.
  unfold is_online, online. rewrite existsb_exists. setoid_rewrite <- list_elem_of_In.
  setoid_rewrite elem_of_rows. setoid_rewrite andb_true_iff. setoid_rewrite bool_decide_eq_true.
  naive_solver.
Qed.

Lemma elem_of_conns_of s p conn : conn ∈ conns_of s p <-> exists c, conns s !! c = Some conn /\ principal conn = p.
Proof.
  unfold conns_of. rewrite list_elem_of_In, filter_In, <- list_elem_of_In, elem_of_rows, bool_decide_eq_true.
  naive_solver.
Qed.

Lemma add_focus_spec ws l acc f :
  f ∈ foldl (add_focus ws) acc l <-> f ∈ acc \/ (f ∈ l /\ f_workspace f = ws).
Proof.
  revert acc. induction l as [|g l IH]; intros acc; simpl; [set_solver|]. rewrite IH. unfold add_focus.
  destruct (decide (f_workspace g = ws)) as [Hw|Hw].
  - rewrite bool_decide_true by done. simpl. destruct (decide (g ∈ acc)) as [Hg|Hg].
    + rewrite bool_decide_true by done. simpl. set_solver.
    + rewrite bool_decide_false by done. simpl. set_solver.
  - rewrite bool_decide_false by done. simpl. set_solver.
Qed.

Lemma add_focus_nodup ws l acc : NoDup acc -> NoDup (foldl (add_focus ws) acc l).
Proof.
  revert acc. induction l as [|g l IH]; intros acc Hacc; simpl; [done|]. apply IH. unfold add_focus.
  destruct (_ && _) eqn:E; [|done]. apply andb_true_iff in E as [_ E].
  rewrite negb_true_iff, bool_decide_eq_false in E. apply NoDup_app.
  split_and!; [done|set_solver|apply NoDup_singleton].
Qed.

Lemma roster_focus_spec s ws p f : f ∈ roster_focus ws (conns_of s p) <-> focus_in s ws p f.
Proof.
  unfold roster_focus, focus_in. rewrite add_focus_spec, list_elem_of_bind.
  setoid_rewrite elem_of_conns_of. set_solver.
Qed.

Lemma roster_typing_spec s ws p e : e ∈ roster_typing ws (conns_of s p) <-> typing_in s ws p e.
Proof.
  unfold roster_typing, typing_in. rewrite sort_by_perm, list_elem_of_omap.
  setoid_rewrite elem_of_conns_of. split.
  - intros (conn & (c & Hc & Hp) & H). destruct (typing conn) as [t|] eqn:Et; [|done]. simpl in H.
    case_bool_decide; simplify_eq. eauto 10.
  - intros (c & conn & Hc & Hp & Hs & Ht & Hw). exists conn. split; [eauto|]. rewrite Ht. simpl.
    rewrite bool_decide_true by done. destruct e; simpl in *. by subst.
Qed.

Lemma roster_discussion_spec s ws p e : e ∈ roster_discussion ws (conns_of s p) <-> discussion_in s ws p e.
Proof.
  unfold roster_discussion, discussion_in. rewrite sort_by_perm, list_elem_of_omap.
  setoid_rewrite elem_of_conns_of. split.
  - intros (conn & (c & Hc & Hp) & H). destruct (discussion_typing conn) as [t|] eqn:Et; [|done]. simpl in H.
    case_bool_decide; simplify_eq. eauto 10.
  - intros (c & conn & Hc & Hp & Hs & Ht & Hw). exists conn. split; [eauto|]. rewrite Ht. simpl.
    rewrite bool_decide_true by done. destruct e; simpl in *. by subst.
Qed.

(** ** No roster changes unannounced *)

(** What connections add to a principal's row of a workspace's roster. *)
Record Parts := mkParts {
  a_focus : Focus -> Prop;
  a_typing : string * Typing -> Prop;
  a_discussion : string * DiscussionTyping -> Prop }.

Definition same_parts (a b : Parts) : Prop :=
  (forall f, a_focus a f <-> a_focus b f) /\ (forall e, a_typing a e <-> a_typing b e) /\
  (forall e, a_discussion a e <-> a_discussion b e).

#[global] Instance same_parts_equiv : Equivalence same_parts.
Proof.
  split.
  - intros a. by split_and!.
  - intros a b (?&?&?). split_and!; intros; symmetry; auto.
  - intros a b c (H1&H2&H3) (K1&K2&K3). split_and!; intros; etrans; eauto.
Qed.

Definition no_parts : Parts := mkParts (fun _ => False) (fun _ => False) (fun _ => False).

Definition parts_of (o : option Conn) (ws p : string) : Parts :=
  mkParts
    (fun f => exists x, o = Some x /\ principal x = p /\ f ∈ focus x /\ f_workspace f = ws)
    (fun e => exists x, o = Some x /\ principal x = p /\ typing_source x = e.1 /\ typing x = Some e.2 /\ t_workspace e.2 = ws)
    (fun e => exists x, o = Some x /\ principal x = p /\ typing_source x = e.1 /\ discussion_typing x = Some e.2 /\ d_workspace e.2 = ws).

Definition parts (s : State) (ws p : string) : Parts :=
  mkParts (focus_in s ws p) (typing_in s ws p) (discussion_in s ws p).

Lemma exists_change (Q : Conn -> Prop) (m m' : gmap string Conn) c :
  (forall c', c' <> c -> m' !! c' = m !! c') ->
  ((exists x, m !! c = Some x /\ Q x) <-> (exists x, m' !! c = Some x /\ Q x)) ->
  ((exists c x, m !! c = Some x /\ Q x) <-> (exists c x, m' !! c = Some x /\ Q x)).
Proof.
  intros Hother Hc. split; intros (c' & x & Hx & HQ); (destruct (decide (c' = c)) as [->|Hne]; [naive_solver|]).
  - exists c', x. by rewrite Hother.
  - exists c', x. by rewrite <- Hother.
Qed.

(** A change of one connection shows only through that connection. *)
Lemma parts_change s s' c ws p :
  (forall c', c' <> c -> conns s' !! c' = conns s !! c') ->
  same_parts (parts_of (conns s !! c) ws p) (parts_of (conns s' !! c) ws p) ->
  same_parts (parts s ws p) (parts s' ws p).
Proof.
  intros Hother (H2 & H3 & H4). split_and!; simpl in *.
  - intros f. by apply (exists_change (fun x => principal x = p /\ f ∈ focus x /\ f_workspace f = ws) _ _ c).
  - intros e. by apply (exists_change (fun x => principal x = p /\ typing_source x = e.1 /\
      typing x = Some e.2 /\ t_workspace e.2 = ws) _ _ c).
  - intros e. by apply (exists_change (fun x => principal x = p /\ typing_source x = e.1 /\
      discussion_typing x = Some e.2 /\ d_workspace e.2 = ws) _ _ c).
Qed.

Lemma online_change s s' c p :
  (forall c', c' <> c -> conns s' !! c' = conns s !! c') ->
  ((exists x, conns s !! c = Some x /\ hello x = true /\ principal x = p) <->
   (exists x, conns s' !! c = Some x /\ hello x = true /\ principal x = p)) ->
  online s p <-> online s' p.
Proof. apply (exists_change (fun x => hello x = true /\ principal x = p)). Qed.

Lemma elem_of_workspaces conn ws :
  ws ∈ workspaces conn <->
  (exists f, f ∈ focus conn /\ f_workspace f = ws) \/ (exists t, typing conn = Some t /\ t_workspace t = ws) \/
  (exists d, discussion_typing conn = Some d /\ d_workspace d = ws).
Proof.
  unfold workspaces. rewrite elem_of_list_to_set, !elem_of_app, list_elem_of_fmap.
  destruct (typing conn), (discussion_typing conn); set_solver.
Qed.

(** A connection of another principal, or one that touches no such workspace, shows
    nothing. *)
Lemma parts_silent o ws p :
  (forall x, o = Some x -> principal x = p -> ws ∉ workspaces x) -> same_parts (parts_of o ws p) no_parts.
Proof.
  intros Hs. split_and!; simpl; intros e; (split; [|done]); intros (x & Hx & Hp & Hrest);
    apply (Hs x Hx Hp), elem_of_workspaces; naive_solver.
Qed.

(** Whatever an operation does not announce stays as it was. *)
Definition covered (s s' : State) (outs : list Out) : Prop :=
  forall ws p, OChanged ws ∉ outs -> OMemberships p ∉ outs ->
    (online s p <-> online s' p) /\ same_parts (parts s ws p) (parts s' ws p).

Lemma covered_same s s' outs : conns s' = conns s -> covered s s' outs.
Proof.
  intros E ws p _ _. unfold parts, online, focus_in, typing_in, discussion_in. rewrite E. by split.
Qed.

(** Rewriting the fields the roster does not read. *)
Lemma covered_rewrite s s' c conn conn' outs :
  conns s !! c = Some conn -> conns s' = <[c := conn']> (conns s) ->
  principal conn' = principal conn -> hello conn' = hello conn -> typing_source conn' = typing_source conn ->
  focus conn' = focus conn -> typing conn' = typing conn -> discussion_typing conn' = discussion_typing conn ->
  covered s s' outs.
Proof.
  intros Hc Hs' E1 E2 E3 E4 E5 E6 ws p _ _.
  assert (forall c', c' <> c -> conns s' !! c' = conns s !! c') as Ho
    by (intros c' ?; by rewrite Hs', lookup_insert_ne).
  split; [apply (online_change _ _ c)|apply (parts_change _ _ c)]; try done; rewrite Hs', lookup_insert_eq, Hc.
  - split; intros (x & [= <-] & Hx); eexists; (split; [done|]); by rewrite ?E1, ?E2 in *.
  - split_and!; simpl; intros e; split; intros (x & [= <-] & Hx); eexists; (split; [done|]);
      by rewrite ?E1, ?E3, ?E4, ?E5, ?E6 in *.
Qed.

(** A connection with nothing to show comes or goes. *)
Definition quiet (conn : Conn) : Prop :=
  hello conn = false /\ focus conn = [] /\ typing conn = None /\ discussion_typing conn = None.

Lemma quiet_workspaces conn ws : quiet conn -> ws ∉ workspaces conn.
Proof. intros (_ & H1 & H2 & H3). unfold workspaces. rewrite H1, H2, H3. set_solver. Qed.

Lemma covered_quiet s s' c outs :
  (forall c', c' <> c -> conns s' !! c' = conns s !! c') ->
  (forall conn, conns s !! c = Some conn -> quiet conn) -> (forall conn, conns s' !! c = Some conn -> quiet conn) ->
  covered s s' outs.
Proof.
  intros Ho H1 H2 ws p _ _. split.
  - apply (online_change _ _ c); [done|]. split; intros (x & Hx & Hh & _).
    + apply H1 in Hx as [? _]. congruence.
    + apply H2 in Hx as [? _]. congruence.
  - apply (parts_change _ _ c); [done|]. etrans; [apply parts_silent|symmetry; apply parts_silent].
    + intros x Hx _. by apply quiet_workspaces, H1.
    + intros x Hx _. by apply quiet_workspaces, H2.
Qed.

Lemma connect_covered s c p source :
  (forall conn, conns s !! c = Some conn -> principal conn = p) ->
  covered s (presence_connect_op s c p source).1 (presence_connect_op s c p source).2.
Proof.
  intros Hown ws p' _ Hm. unfold presence_connect_op in *. simpl in *.
  set (conn := default (new_conn p source) (conns s !! c)) in *.
  assert (principal conn = p) as Hp by (unfold conn; destruct (conns s !! c); simpl; auto).
  split.
  - destruct (decide (p' = p)) as [->|Hne].
    + destruct (is_online s p) eqn:Eon; [|set_solver]. apply is_online_spec in Eon.
      split; [intros _|done]. exists c. eexists. split; [simpl; by rewrite lookup_insert_eq|done].
    + apply (online_change _ _ c); simpl; [intros c' ?; by rewrite lookup_insert_ne|].
      rewrite lookup_insert_eq. split; intros (x & Hx & _ & Hpx).
      * apply Hown in Hx. congruence.
      * injection Hx as <-. simpl in Hpx. congruence.
  - apply (parts_change _ _ c); simpl; [intros c' ?; by rewrite lookup_insert_ne|].
    rewrite lookup_insert_eq. unfold conn. destruct (conns s !! c) as [x|] eqn:Ec; simpl.
    + split_and!; simpl; intros e; split; intros (y & [= <-] & Hy); eexists; split; done.
    + etrans; [apply parts_silent; done|symmetry; apply parts_silent].
      intros y [= <-] _. unfold workspaces. simpl. set_solver.
Qed.

Lemma update_covered s c fs target discussion now :
  let r := presence_update_op s c fs target discussion now in
  covered s r.1 (match r.2 with Some (outs, _) => outs | None => [] end).
Proof.
  unfold presence_update_op. simpl. destruct (conns s !! c) as [conn|] eqn:Ec; [|by apply covered_same].
  destruct (set_typing conn target now) as [pulses t], (set_discussion conn discussion now) as [dpulses d]. simpl.
  set (conn' := mkConn _ _ _ _ _ _ _ _ _). intros ws p Hch _.
  assert (ws ∉ workspaces conn ∪ workspaces conn') as Hws.
  { intros Hin. apply Hch, list_elem_of_fmap. exists ws. split; [done|]. by apply elem_of_elements. }
  apply not_elem_of_union in Hws as [Hw Hw'].
  assert (forall c', c' <> c -> <[c := conn']> (conns s) !! c' = conns s !! c') as Ho
    by (intros c' ?; by rewrite lookup_insert_ne).
  split; [apply (online_change _ _ c)|apply (parts_change _ _ c)]; try done; simpl; rewrite lookup_insert_eq, Ec.
  - split; intros (x & [= <-] & Hx); eexists; split; done.
  - etrans; [apply parts_silent|symmetry; apply parts_silent]; by intros x [= <-] _.
Qed.

Lemma release_conns key p c lease s : conns (release_lease key p c lease s).1 = conns s.
Proof. unfold release_lease. repeat case_match; done. Qed.

Lemma releases_conns p c l acc : conns (foldl (release_one p c) acc l).1 = conns acc.1.
Proof.
  revert acc. induction l as [|kv l IH]; intros acc; simpl; [done|]. rewrite IH. unfold release_one.
  pose proof (release_conns kv.2 p c kv.1 acc.1) as H. by destruct (release_lease _ _ _ _ _).
Qed.

Lemma disconnect_covered s c :
  covered s (presence_disconnect_op s c).1 (presence_disconnect_op s c).2.
Proof.
  unfold presence_disconnect_op. simpl. destruct (conns s !! c) as [conn|] eqn:Ec; [|by apply covered_same].
  destruct (foldl _ _ _) as [s' left_] eqn:Ef.
  assert (conns s' = delete c (conns s)) as Es'.
  { pose proof (releases_conns (principal conn) c (map_to_list (leases conn))
      (set_conns (delete c (conns s)) (bump_focus s), [])) as H. rewrite Ef in H. exact H. }
  assert (forall c', c' <> c -> conns s' !! c' = conns s !! c') as Ho
    by (intros c' ?; by rewrite Es', lookup_delete_ne).
  intros ws p Hch Hm. simpl in *.
  destruct (decide (p = principal conn)) as [->|Hne].
  - destruct (hello conn && negb (is_online s' (principal conn))) eqn:Eoff; [set_solver|]. split.
    + apply andb_false_iff in Eoff as [Hh|Hon].
      * apply (online_change _ _ c); [done|]. rewrite Es', lookup_delete_eq, Ec.
        split; [intros (x & [= <-] & ? & _); congruence|by intros (x & ? & _)].
      * apply negb_false_iff, is_online_spec in Hon. split; [done|]. intros (c' & x & Hx & ? & ?).
        exists c', x. rewrite Es' in Hx. by apply lookup_delete_Some in Hx as [_ ?].
    + apply (parts_change _ _ c); [done|]. rewrite Es', lookup_delete_eq, Ec.
      etrans; [apply parts_silent|symmetry; apply parts_silent; done]. intros x [= <-] _ Hin.
      apply Hch, elem_of_app. right. apply list_elem_of_fmap. exists ws. split; [done|]. by apply elem_of_elements.
  - split; [apply (online_change _ _ c)|apply (parts_change _ _ c)]; try done; rewrite Es', lookup_delete_eq, Ec.
    + split; [intros (x & [= <-] & ? & ?); congruence|by intros (x & ? & _)].
    + etrans; [apply parts_silent|symmetry; apply parts_silent; done]. intros x [= <-] ?. congruence.
Qed.

Lemma join_conns s c lease key p source :
  conns (note_presence_join_op s c lease key p source).1 =
  let conn := default (new_conn p source) (conns s !! c) in
  <[c := with_leases conn (<[lease := key]> (leases conn))]> (conns s).
Proof. unfold note_presence_join_op. by case_match. Qed.

Lemma join_covered s c lease key p source :
  covered s (note_presence_join_op s c lease key p source).1 (note_presence_join_op s c lease key p source).2.
Proof.
  pose proof (join_conns s c lease key p source) as Es'. simpl in Es'.
  destruct (conns s !! c) as [conn|] eqn:Ec; [by eapply covered_rewrite|].
  apply (covered_quiet _ _ c).
  - intros c' ?. by rewrite Es', lookup_insert_ne.
  - intros x Hx. congruence.
  - intros x. rewrite Es', lookup_insert_eq. by intros [= <-].
Qed.

Lemma leave_covered s c lease :
  covered s (note_presence_leave_op s c lease).1 (note_presence_leave_op s c lease).2.
Proof.
  unfold note_presence_leave_op. destruct (conns s !! c) as [conn|] eqn:Ec; [|by apply covered_same].
  destruct (leases conn !! lease) as [key|]; [|by apply covered_same].
  set (conn' := with_leases _ _).
  destruct (release_lease _ _ _ _ _) as [s' gone] eqn:Er. simpl.
  assert (conns s' = if is_empty conn' then delete c (conns s) else <[c := conn']> (conns s)) as Es'.
  { change s' with (s', gone).1. by rewrite <- Er, release_conns. }
  destruct (is_empty conn') eqn:Ee; [|by eapply covered_rewrite].
  unfold is_empty in Ee. case_tests. rewrite !bool_decide_eq_false, !bool_decide_eq_true, <- !eq_None_not_Some in *.
  apply (covered_quiet _ _ c).
  - intros c' ?. by rewrite Es', lookup_delete_ne.
  - intros x. rewrite Ec. intros [= <-]. by split_and!.
  - intros x. by rewrite Es', lookup_delete_eq.
Qed.

(** A connection speaks for one principal. *)
Definition owned_event (owner : string -> string) (e : Event) : Prop :=
  match e with
  | EConnect c p _ | EJoin c _ _ p _ => p = owner c
  | _ => True
  end.

Definition owned_conns (owner : string -> string) (s : State) : Prop :=
  forall c conn, conns s !! c = Some conn -> principal conn = owner c.

Lemma caret_conns s c key p caret now : conns (note_presence_update_op s c key p caret now).1 = conns s.
Proof. unfold note_presence_update_op. repeat case_match; done. Qed.

Lemma flush_conns s key p gen member now : conns (trailing_flush s key p gen member now).1 = conns s.
Proof. unfold trailing_flush. repeat case_match; done. Qed.

Lemma update_conns s c fs target discussion now :
  conns (presence_update_op s c fs target discussion now).1 =
  match conns s !! c with
  | Some conn =>
      let '(pulses, t) := set_typing conn target now in
      let '(dpulses, d) := set_discussion conn discussion now in
      <[c := mkConn (principal conn) (hello conn) (typing_source conn) pulses dpulses fs t d (leases conn)]> (conns s)
  | None => conns s
  end.
Proof.
  unfold presence_update_op. simpl. destruct (conns s !! c); [|done].
  by destruct (set_typing _ _ _), (set_discussion _ _ _).
Qed.

Lemma disconnect_conns s c : conns (presence_disconnect_op s c).1 = delete c (conns s).
Proof.
  unfold presence_disconnect_op. simpl. destruct (conns s !! c) as [conn|] eqn:Ec; [|by rewrite delete_id].
  pose proof (releases_conns (principal conn) c (map_to_list (leases conn))
    (set_conns (delete c (conns s)) (bump_focus s), [])) as H. by destruct (foldl _ _ _).
Qed.

Lemma leave_conns s c lease :
  conns (note_presence_leave_op s c lease).1 =
  match conns s !! c with
  | Some conn =>
      if bool_decide (is_Some (leases conn !! lease)) then
        let conn' := with_leases conn (delete lease (leases conn)) in
        if is_empty conn' then delete c (conns s) else <[c := conn']> (conns s)
      else conns s
  | None => conns s
  end.
Proof.
  unfold note_presence_leave_op. destruct (conns s !! c) as [conn|]; [|done].
  destruct (leases conn !! lease) as [key|]; [|done]. rewrite bool_decide_true by eauto. simpl.
  set (conn' := with_leases _ _).
  pose proof (release_conns key (principal conn) c lease
    (set_conns (if is_empty conn' then delete c (conns s) else <[c := conn']> (conns s)) s)) as H.
  by destruct (release_lease _ _ _ _ _).
Qed.

Lemma owned_step owner s e :
  owned_event owner e -> owned_conns owner (st s) -> owned_conns owner (st (step s e)).
Proof.
  intros He Ho. unfold step. destruct (perform s e) as [t outs] eqn:Ep. simpl.
  assert (t = (perform s e).1) as -> by (by rewrite Ep). clear Ep.
  assert (forall c conn', principal conn' = owner c -> forall s', conns s' = <[c := conn']> (conns (st s)) -> owned_conns owner s')
    as Hins.
  { intros c conn' Hc s' E c' x. rewrite E. intros [[<- <-]|[_ ?]]%lookup_insert_Some; [done|by apply Ho]. }
  assert (forall s', conns s' = conns (st s) -> owned_conns owner s') as Hsame by (intros s' E c x; rewrite E; apply Ho).
  destruct e; simpl in *; try by apply Hsame.
  - eapply Hins; [|done]. simpl. destruct (conns (st s) !! c) as [conn|] eqn:Ec; [by apply Ho|done].
  - pose proof (update_conns (st s) c fs target discussion now) as Eu.
    destruct (presence_update_op _ _ _ _ _ _) as [t' r]. simpl in *.
    destruct (conns (st s) !! c) as [conn|] eqn:Ec; [|by apply Hsame].
    destruct (set_typing _ _ _), (set_discussion _ _ _). eapply Hins; [|done]. simpl. by apply Ho.
  - intros c' x. rewrite disconnect_conns. intros [_ ?]%lookup_delete_Some. by apply Ho.
  - eapply Hins; [|apply join_conns]. simpl. destruct (conns (st s) !! c) as [conn|] eqn:Ec; [by apply Ho|done].
  - pose proof (leave_conns (st s) c lease) as El. destruct (conns (st s) !! c) as [conn|] eqn:Ec; [|by apply Hsame].
    case_bool_decide; [|by apply Hsame]. simpl in El. destruct (is_empty _).
    + intros c' x. rewrite El. intros [_ ?]%lookup_delete_Some. by apply Ho.
    + eapply Hins; [|exact El]. simpl. by apply Ho.
  - pose proof (caret_conns (st s) c key p caret (clock s)) as E.
    destruct (note_presence_update_op _ _ _ _ _ _). by apply Hsame.
  - destruct (timers s !! n) as [tm|]; [|by apply Hsame]. destruct (_ <=? _); [|by apply Hsame].
    apply Hsame, flush_conns.
Qed.

Lemma owned_run owner es :
  Forall (owned_event owner) es -> owned_conns owner (st (run initial es)).
Proof.
  intros Hes. unfold run. induction es as [|e es IH] using rev_ind; [intros c x Hx; by apply (lookup_empty_Some c x) in Hx|].
  apply Forall_app in Hes as [Hes He]. rewrite Forall_singleton in He. rewrite foldl_snoc.
  apply owned_step; [done|]. by apply IH.
Qed.

(** [C22] No roster changes unannounced.  On any history in which each connection speaks
    for one principal, whatever event comes next: unless it sends the roster of a
    workspace, or the rosters of all the workspaces of a principal, that principal's row
    of the workspace's roster is the same before and after, that is whether it is online,
    its focus items there and its typing entries there, to agents and in the
    discussion. *)
Theorem presence_rosters_announced owner es e ws p :
  Forall (owned_event owner) (es ++ [e]) ->
  let s := run initial es in
  OChanged ws ∉ (perform s e).2 -> OMemberships p ∉ (perform s e).2 ->
  let s' := st (step s e) in
  is_online s' p = is_online (st s) p /\
  (forall f, f ∈ roster_focus ws (conns_of s' p) <-> f ∈ roster_focus ws (conns_of (st s) p)) /\
  (forall t, t ∈ roster_typing ws (conns_of s' p) <-> t ∈ roster_typing ws (conns_of (st s) p)) /\
  (forall t, t ∈ roster_discussion ws (conns_of s' p) <-> t ∈ roster_discussion ws (conns_of (st s) p)).
Proof.
  intros [Hes He]%Forall_app s Hch Hmem s'. rewrite Forall_singleton in He.
  pose proof (owned_run owner es Hes) as Ho. fold s in Ho.
  assert (covered (st s) s' (perform s e).2) as Hcov.
  { unfold s', step. destruct (perform s e) as [t outs] eqn:Ep. simpl.
    assert (t = (perform s e).1 /\ outs = (perform s e).2) as [-> ->] by (by rewrite Ep).
    clear Ep Hch Hmem. destruct e; simpl in *.
    - apply connect_covered. intros conn Hc. subst. by apply Ho.
    - pose proof (update_covered (st s) c fs target discussion now) as H. simpl in H.
      by destruct (presence_update_op _ _ _ _ _ _) as [? [[]|]].
    - apply disconnect_covered.
    - apply join_covered.
    - apply leave_covered.
    - apply covered_same. pose proof (caret_conns (st s) c key p0 caret (clock s)) as E.
      by destruct (note_presence_update_op _ _ _ _ _ _).
    - apply covered_same. destruct (timers s !! n) as [tm|]; [|done]. destruct (_ <=? _); [|done]. apply flush_conns.
    - by apply covered_same. }
  destruct (Hcov ws p Hch Hmem) as (Hon & Hf & Ht & Hd). simpl in *.
  split_and!.
  - apply eq_true_iff_eq. by rewrite !is_online_spec.
  - intros f. by rewrite !roster_focus_spec.
  - intros t. by rewrite !roster_typing_spec.
  - intros t. by rewrite !roster_discussion_spec.
Qed.

(** ** Viewers and leases *)

Lemma viewer_set key p v s key' p' :
  viewer (set_viewer key p v s) key' p' = if decide (key' = key /\ p' = p) then Some v else viewer s key' p'.
Proof.
  unfold viewer, set_viewer. simpl. destruct (decide (key' = key)) as [->|Hk].
  - rewrite lookup_insert_eq. simpl. destruct (decide (p' = p)) as [->|Hp].
    + rewrite lookup_insert_eq. by rewrite decide_True.
    + rewrite lookup_insert_ne, decide_False by naive_solver. by destruct (viewers s !! key).
  - by rewrite lookup_insert_ne, decide_False by naive_solver.
Qed.

(** The viewer that is left of one when it loses a lease. *)
Definition without (v : Viewer) (cl : string * string) : option Viewer :=
  if bool_decide (v_leases v ∖ {[cl]} = ∅) then None
  else Some (mkViewer (generation v) (cursor v) (throttle v) (v_leases v ∖ {[cl]})).

Lemma viewer_release key p c l s key' p' :
  viewer (release_lease key p c l s).1 key' p' =
  if decide (key' = key /\ p' = p) then v ← viewer s key p; without v (c, l) else viewer s key' p'.
Proof.
  unfold release_lease. destruct (viewers s !! key) as [m|] eqn:Em.
  2: { simpl. case_decide as D; [|done]. destruct D as [-> ->]. unfold viewer. by rewrite Em. }
  destruct (m !! p) as [v|] eqn:Ep.
  2: { simpl. case_decide as D; [|done]. destruct D as [-> ->]. unfold viewer. rewrite Em. simpl. by rewrite Ep. }
  assert (viewer s key p = Some v) as -> by (unfold viewer; by rewrite Em).
  simpl. unfold without. case_bool_decide as Hl; simpl.
  - unfold viewer. simpl. destruct (decide (key' = key)) as [->|Hk].
    + case_bool_decide as Hm'.
      * rewrite lookup_delete_eq, Em. simpl. case_decide as D; [done|].
        assert (p' <> p) by naive_solver. rewrite <- (lookup_delete_ne m p p') by done. by rewrite Hm', lookup_empty.
      * rewrite lookup_insert_eq, Em. simpl. destruct (decide (p' = p)) as [->|Hp].
        { rewrite lookup_delete_eq. by rewrite decide_True. }
        rewrite lookup_delete_ne, decide_False by naive_solver. done.
    + rewrite decide_False by naive_solver. case_bool_decide; [by rewrite lookup_delete_ne|by rewrite lookup_insert_ne].
  - unfold viewer. simpl. destruct (decide (key' = key)) as [->|Hk].
    + rewrite lookup_insert_eq, Em. simpl. destruct (decide (p' = p)) as [->|Hp].
      * rewrite lookup_insert_eq. by rewrite decide_True.
      * rewrite lookup_insert_ne, decide_False by naive_solver. done.
    + by rewrite lookup_insert_ne, decide_False by naive_solver.
Qed.

Lemma release_gone key p c l s :
  (release_lease key p c l s).2 = true <-> exists v, viewer s key p = Some v /\ without v (c, l) = None.
Proof.
  unfold release_lease, viewer, without. destruct (viewers s !! key) as [m|]; simpl; [|split; [done|by intros (? & ? & ?)]].
  destruct (m !! p) as [v|]; simpl; [|split; [done|by intros (? & ? & ?)]].
  destruct (decide (v_leases v ∖ {[(c, l)]} = ∅)) as [E|E].
  - rewrite (bool_decide_true _ E). simpl. split; [|done]. intros _. exists v. by rewrite (bool_decide_true _ E).
  - rewrite (bool_decide_false _ E). simpl. split; [done|]. intros (? & [= <-] & H). by rewrite (bool_decide_false _ E) in H.
Qed.

(** The leases held, as a relation: connection, lease and note. *)
Abbreviation Held := (string -> string -> Key -> Prop).

Record Viewing (owner : string -> string) (H : Held) (s : State) : Prop := mkViewing {
  vw_fun : forall c l k k', H c l k -> H c l k' -> k = k';
  vw_leases : forall key p v c l, viewer s key p = Some v -> (c, l) ∈ v_leases v <-> owner c = p /\ H c l key;
  vw_some : forall key p v, viewer s key p = Some v -> v_leases v <> ∅;
  vw_present : forall c l key, H c l key -> is_Some (viewer s key (owner c)) }.

Lemma leases_some (o o' : option Viewer) v :
  v_leases <$> o' = v_leases <$> o -> o' = Some v -> exists v0, o = Some v0 /\ v_leases v = v_leases v0.
Proof. intros E ->. destruct o as [v0|]; simplify_eq/=. eauto. Qed.

Lemma leases_is_some (o o' : option Viewer) :
  v_leases <$> o' = v_leases <$> o -> is_Some o' <-> is_Some o.
Proof. intros E. rewrite <- (fmap_is_Some v_leases o), <- E. by rewrite fmap_is_Some. Qed.

(** Only the leases of a viewer matter. *)
Definition same_leases (s s' : State) : Prop :=
  forall key p, v_leases <$> viewer s' key p = v_leases <$> viewer s key p.

Lemma viewing_ext owner H H' s s' :
  (forall c l k, H c l k <-> H' c l k) -> same_leases s s' -> Viewing owner H s -> Viewing owner H' s'.
Proof.
  intros HH Hv [H1 H2 H3 H4]. split.
  - intros c l k k'. rewrite <- !HH. apply H1.
  - intros key p v c l E. destruct (leases_some _ _ _ (Hv key p) E) as (v0 & E0 & ->).
    rewrite <- HH. by apply H2.
  - intros key p v E. destruct (leases_some _ _ _ (Hv key p) E) as (v0 & E0 & ->). by eapply H3.
  - intros c l key. rewrite <- HH. rewrite (leases_is_some _ _ (Hv key (owner c))). apply H4.
Qed.

(** A release takes one lease away. *)
Lemma viewing_release owner H s c l key :
  Viewing owner H s -> H c l key ->
  Viewing owner (fun c' l' k => H c' l' k /\ (c', l') <> (c, l)) (release_lease key (owner c) c l s).1.
Proof.
  intros [H1 H2 H3 H4] Hcl. split.
  - intros c' l' k k' [? _] [? _]. by eapply H1.
  - intros key' p v c' l'. rewrite viewer_release. case_decide as D.
    + destruct D as [-> ->]. intros (v0 & Hv0 & Hw)%bind_Some. unfold without in Hw. case_bool_decide; simplify_eq/=.
      rewrite elem_of_difference, elem_of_singleton, (H2 _ _ _ _ _ Hv0). naive_solver.
    + intros Hv. rewrite (H2 _ _ _ _ _ Hv). split; [|naive_solver]. intros [Ho HH]. split; [done|].
      split; [done|]. intros [= -> ->]. apply D. split; [exact (H1 _ _ _ _ HH Hcl)|done].
  - intros key' p v. rewrite viewer_release. case_decide as D; [|by apply H3].
    intros (v0 & Hv0 & Hw)%bind_Some. unfold without in Hw. by case_bool_decide; simplify_eq/=.
  - intros c' l' key' [HH Hne]. rewrite viewer_release. case_decide as D; [|exact (H4 _ _ _ HH)].
    destruct D as [-> Eo]. destruct (H4 c l key Hcl) as [v Hv]. rewrite Hv. simpl. unfold without.
    rewrite bool_decide_false; [eauto|]. intros Hempty.
    assert ((c', l') ∈ v_leases v ∖ {[(c, l)]}); [|set_solver].
    apply elem_of_difference. split; [|by rewrite elem_of_singleton]. by apply (H2 _ _ _ _ _ Hv).
Qed.

(** *** Arrivals and departures alternate *)

Definition follow (key : Key) (p : string) (here : option bool) (o : Out) : option bool :=
  match o with
  | ONote k q Joined _ =>
      if bool_decide (k = key /\ q = p) then (match here with Some false => Some true | _ => None end) else here
  | ONote k q Left_ _ =>
      if bool_decide (k = key /\ q = p) then (match here with Some true => Some false | _ => None end) else here
  | _ => here
  end.

Definition present (s : State) (key : Key) (p : string) : bool := bool_decide (is_Some (viewer s key p)).

(** The outputs of an operation take every viewer from where it was to where it is. *)
Definition followed (s s' : State) (outs : list Out) : Prop :=
  forall key p, foldl (follow key p) (Some (present s key p)) outs = Some (present s' key p).

Lemma followed_same s s' outs :
  (forall key p, is_Some (viewer s' key p) <-> is_Some (viewer s key p)) ->
  (forall key p o, o ∈ outs -> forall h, follow key p h o = h) -> followed s s' outs.
Proof.
  intros Hv Ho key p. assert (present s' key p = present s key p) as ->
    by (unfold present; by apply bool_decide_ext).
  generalize (Some (present s key p)) as h. induction outs as [|o outs IH]; intros h; simpl; [done|].
  rewrite Ho by (by left). apply IH. intros k q o' Hin. apply Ho. by right.
Qed.

Lemma followed_release key p c l s :
  followed s (release_lease key p c l s).1
    (if (release_lease key p c l s).2 then [ONote key p Left_ None] else []).
Proof.
  intros key' p'. unfold present. rewrite viewer_release.
  destruct (release_lease key p c l s).2 eqn:Eg.
  - apply release_gone in Eg as (v & Hv & Hw). simpl. case_decide as D.
    + destruct D as [-> ->]. rewrite Hv. simpl. rewrite Hw, (bool_decide_true (key = key /\ p = p)) by done.
      by rewrite (bool_decide_false (is_Some None)) by (by intros [? ?]).
    + rewrite (bool_decide_false (key = key' /\ p = p')); [done|]. naive_solver.
  - simpl. f_equal. apply bool_decide_ext. case_decide as D; [|done]. destruct D as [-> ->].
    apply not_true_iff_false in Eg. rewrite release_gone in Eg.
    destruct (viewer s key p) as [v|]; simpl; [|done].
    destruct (without v (c, l)) eqn:Ew; [|naive_solver]. split; eauto.
Qed.

Lemma followed_trans s s1 s2 outs outs' :
  followed s s1 outs -> followed s1 s2 outs' -> followed s s2 (outs ++ outs').
Proof. intros H1 H2 key p. by rewrite foldl_app, H1, H2. Qed.

(** *** The operations *)

Definition held (m : gmap string Conn) : Held :=
  fun c l k => exists conn, m !! c = Some conn /\ leases conn !! l = Some k.

Lemma held_insert m c conn c' l k :
  held (<[c := conn]> m) c' l k <-> (c' = c /\ leases conn !! l = Some k) \/ (c' <> c /\ held m c' l k).
Proof.
  unfold held. destruct (decide (c' = c)) as [->|Hne].
  - rewrite lookup_insert_eq. naive_solver.
  - rewrite lookup_insert_ne by done. naive_solver.
Qed.

Lemma held_delete m c c' l k : held (delete c m) c' l k <-> c' <> c /\ held m c' l k.
Proof.
  unfold held. setoid_rewrite lookup_delete_Some. naive_solver.
Qed.

(** A connection rewritten with the leases it had. *)
Lemma held_rewrite m c conn conn' c' l k :
  m !! c = Some conn -> leases conn' = leases conn -> held (<[c := conn']> m) c' l k <-> held m c' l k.
Proof.
  intros Hc E. rewrite held_insert, E. unfold held. destruct (decide (c' = c)) as [->|Hne]; [|naive_solver].
  rewrite Hc. naive_solver.
Qed.

Lemma held_new m c conn c' l k :
  m !! c = None -> leases conn = ∅ -> held (<[c := conn]> m) c' l k <-> held m c' l k.
Proof.
  intros Hc E. rewrite held_insert, E, lookup_empty. unfold held. split; [naive_solver|].
  intros (x & Hx & ?). right. split; [congruence|eauto].
Qed.

(** The leases that are left when some of a connection's are released. *)
Lemma viewing_releases owner c l s H outs :
  Viewing owner H s -> NoDup l.*1 -> (forall kv, kv ∈ l -> H c kv.1 kv.2) ->
  exists outs', (foldl (release_one (owner c) c) (s, outs) l).2 = outs ++ outs' /\
    followed s (foldl (release_one (owner c) c) (s, outs) l).1 outs' /\
    Viewing owner (fun c' l' k => H c' l' k /\ ~ (c' = c /\ l' ∈ l.*1)) (foldl (release_one (owner c) c) (s, outs) l).1.
Proof.
  revert s H outs. induction l as [|[lease key] l IH]; intros s H outs Hv Hnd Hin; simpl.
  - exists []. rewrite app_nil_r. split_and!; [done|by intros key p|].
    eapply viewing_ext; [|by intros key p|exact Hv]. set_solver.
  - apply NoDup_cons in Hnd as [Hni Hnd].
    pose proof (viewing_release owner H s c lease key Hv (Hin (lease, key) ltac:(by left))) as Hv'.
    pose proof (followed_release key (owner c) c lease s) as Hf.
    unfold release_one at 2 4 6. simpl. destruct (release_lease key (owner c) c lease s) as [s1 gone]. simpl in *.
    edestruct (IH s1 _ (if gone then outs ++ [ONote key (owner c) Left_ None] else outs) Hv' Hnd)
      as (outs' & E & Hf' & Hv''); [|eexists; split_and!].
    + intros [l' k] Hkv. split; [apply Hin; by right|]. intros [= ->]. simpl in *.
      apply Hni, list_elem_of_fmap. by exists (lease, k).
    + rewrite E. instantiate (1 := (if gone then [ONote key (owner c) Left_ None] else []) ++ outs').
      destruct gone; [by rewrite <- (assoc_L app)|done].
    + by eapply followed_trans.
    + eapply viewing_ext; [|by intros key' p|exact Hv'']. intros c' l' k. simpl. rewrite elem_of_cons.
      destruct (decide (l' = lease)), (decide (c' = c)); naive_solver.
Qed.

(** An operation on the leases held: the viewers follow, and so do their deltas. *)
Definition kept (owner : string -> string) (s s' : State) (outs : list Out) : Prop :=
  Viewing owner (held (conns s')) s' /\ followed s s' outs.

(** An output that says nothing of viewers coming or going. *)
Definition roster_only (o : Out) : Prop :=
  match o with ONote _ _ Updated _ | OChanged _ | OMemberships _ | ODropped _ _ _ => True | _ => False end.

Lemma kept_unchanged owner s s' outs :
  Viewing owner (held (conns s)) s -> (forall c l k, held (conns s') c l k <-> held (conns s) c l k) ->
  same_leases s s' -> Forall roster_only outs -> kept owner s s' outs.
Proof.
  intros Hv Hh Hs Hr. split; [eapply viewing_ext; [symmetry; apply Hh|exact Hs|exact Hv]|].
  apply followed_same.
  - intros key p. apply leases_is_some, Hs.
  - intros key p o Ho h. rewrite Forall_forall in Hr. apply Hr in Ho. by destruct o as [? ? [] ?|?|?|? ? ?].
Qed.

Lemma set_viewer_leases key p v v0 s :
  viewer s key p = Some v0 -> v_leases v = v_leases v0 -> same_leases s (set_viewer key p v s).
Proof.
  intros E El key' p'. rewrite viewer_set. case_decide as D; [|done]. destruct D as [-> ->].
  rewrite E. simpl. by f_equal.
Qed.

Lemma connect_kept owner s c p source :
  Viewing owner (held (conns s)) s ->
  kept owner s (presence_connect_op s c p source).1 (presence_connect_op s c p source).2.
Proof.
  intros Hv. apply kept_unchanged; [done| |by intros key q|].
  - intros c' l k. simpl. destruct (conns s !! c) eqn:Ec; [by eapply held_rewrite|by apply held_new].
  - unfold presence_connect_op. simpl. case_match; repeat constructor.
Qed.

Lemma update_kept owner s c fs target discussion now :
  Viewing owner (held (conns s)) s ->
  let r := presence_update_op s c fs target discussion now in
  kept owner s r.1 (match r.2 with Some (outs, _) => outs | None => [] end).
Proof.
  intros Hv. unfold presence_update_op. simpl. destruct (conns s !! c) as [conn|] eqn:Ec; [|by apply kept_unchanged].
  destruct (set_typing conn target now), (set_discussion conn discussion now). apply kept_unchanged; [done| |by intros key q|].
  - intros c' l k. by eapply held_rewrite.
  - apply Forall_fmap, Forall_forall. by intros.
Qed.

Lemma caret_kept owner s c key p caret now :
  Viewing owner (held (conns s)) s ->
  let r := note_presence_update_op s c key p caret now in
  kept owner s r.1 (match r.2 with Some (outs, _) => outs | None => [] end).
Proof.
  intros Hv r. apply kept_unchanged; [done|by unfold r; rewrite caret_conns| |]; unfold r, note_presence_update_op;
    (destruct (match conns s !! c with Some _ => _ | None => _ end); [|by (intros ? ? || constructor)]);
    (destruct (viewer s key p) as [v|] eqn:Ev; [|by (intros ? ? || constructor)]);
    destruct (offer (throttle v) caret now) as [t []]; simpl.
  1-3: by eapply set_viewer_leases.
  all: repeat constructor.
Qed.

Lemma flush_kept owner s key p gen member now :
  Viewing owner (held (conns s)) s ->
  kept owner s (trailing_flush s key p gen member now).1 (trailing_flush s key p gen member now).2.
Proof.
  intros Hv. apply kept_unchanged; [done|by rewrite flush_conns| |]; unfold trailing_flush;
    (destruct (viewer s key p) as [v|] eqn:Ev; [|by (intros ? ? || constructor)]);
    (case_bool_decide; [|by (intros ? ? || constructor)]); destruct (flush (throttle v) now) as [t []]; simpl.
  1-2: by eapply set_viewer_leases.
  all: try destruct member; repeat constructor.
Qed.

Lemma disconnect_kept owner s c :
  Viewing owner (held (conns s)) s -> owned_conns owner s ->
  kept owner s (presence_disconnect_op s c).1 (presence_disconnect_op s c).2.
Proof.
  intros Hv Ho. unfold kept. rewrite disconnect_conns. unfold presence_disconnect_op. simpl.
  destruct (conns s !! c) as [conn|] eqn:Ec.
  2: { rewrite delete_id by done. by apply (kept_unchanged owner s (bump_focus s)). }
  rewrite (Ho _ _ Ec). set (s1 := set_conns (delete c (conns s)) (bump_focus s)).
  edestruct (viewing_releases owner c (map_to_list (leases conn)) s1 (held (conns s)) []) as (outs & E & Hf & Hv').
  - eapply viewing_ext; [done| |exact Hv]. by intros key p.
  - apply NoDup_fst_map_to_list.
  - intros [l k] Hin. exists conn. split; [done|]. by apply elem_of_map_to_list in Hin.
  - destruct (foldl _ _ _) as [s2 left_]. simpl in *. subst left_. split.
    + eapply viewing_ext; [|by intros key p|exact Hv']. intros c' l k. simpl. rewrite held_delete. split.
      * intros [Hh Hn]. split; [|done]. intros ->. apply Hn. split; [done|].
        destruct Hh as (x & Hx & Hl). simplify_eq. apply list_elem_of_fmap. exists (l, k).
        split; [done|]. by apply elem_of_map_to_list.
      * naive_solver.
    + eapply followed_trans; [exact Hf|]. apply followed_same; [done|]. intros key p o.
      case_match; [by intros ->%list_elem_of_singleton|]. by intros (? & -> & _)%list_elem_of_fmap.
Qed.

Lemma leave_kept owner s c lease :
  Viewing owner (held (conns s)) s -> owned_conns owner s ->
  kept owner s (note_presence_leave_op s c lease).1 (note_presence_leave_op s c lease).2.
Proof.
  intros Hv Ho. unfold kept. rewrite leave_conns. unfold note_presence_leave_op.
  destruct (conns s !! c) as [conn|] eqn:Ec; [|by apply kept_unchanged].
  destruct (leases conn !! lease) as [key|] eqn:El; [|by apply kept_unchanged].
  rewrite (bool_decide_true _ (mk_is_Some _ _ eq_refl)). simpl. set (conn' := with_leases _ _).
  set (m := if is_empty conn' then _ else _). rewrite (Ho _ _ Ec).
  pose proof (viewing_release owner (held (conns s)) (set_conns m s) c lease key) as Hr.
  pose proof (followed_release key (owner c) c lease (set_conns m s)) as Hf.
  destruct (release_lease key (owner c) c lease (set_conns m s)) as [s' gone]. simpl in *. split; [|exact Hf].
  eapply viewing_ext; [|by intros key' p|apply Hr].
  - intros c' l k. simpl. unfold m. destruct (is_empty conn') eqn:Ee.
    + rewrite held_delete. unfold is_empty in Ee. case_tests. rewrite bool_decide_eq_true in *. simpl in *.
      split; [|naive_solver]. intros [(x & Hx & Hl) Hne]. split; [|by exists x]. intros ->. simplify_eq.
      assert (delete lease (leases conn) !! l = Some k) as Hd by (rewrite lookup_delete_ne by naive_solver; done).
      match goal with H : delete lease (leases conn) = ∅ |- _ => by rewrite H, lookup_empty in Hd end.
    + rewrite held_insert. simpl. unfold held. destruct (decide (c' = c)) as [->|Hne]; [|naive_solver].
      rewrite Ec, lookup_delete_Some. naive_solver.
  - eapply viewing_ext; [done| |exact Hv]. by intros key' p.
  - by exists conn.
Qed.

Lemma held_join s c lease key p source c' l k :
  (forall k', ~ held (conns s) c lease k') ->
  held (conns (note_presence_join_op s c lease key p source).1) c' l k <->
  (c' = c /\ l = lease /\ k = key) \/ held (conns s) c' l k.
Proof.
  intros Hf. rewrite join_conns. simpl. rewrite held_insert. simpl. rewrite lookup_insert_Some.
  destruct (conns s !! c) as [conn|] eqn:Ec; simpl; unfold held in *.
  - destruct (decide (c' = c)) as [->|Hne]; [|naive_solver]. rewrite Ec in *. split; [naive_solver|].
    intros [?|(x & [= <-] & Hl)]; [naive_solver|]. left. split; [done|]. right.
    split; [|done]. intros ->. eapply Hf. eauto.
  - rewrite lookup_empty. split; [naive_solver|]. intros [?|(x & Hx & Hl)]; [naive_solver|].
    right. split; [congruence|eauto].
Qed.

(** The leases of a note's viewers after a join. *)
Lemma join_leases s c lease key p source key' p' :
  v_leases <$> viewer (note_presence_join_op s c lease key p source).1 key' p' =
  if decide (key' = key /\ p' = p) then Some ({[(c, lease)]} ∪ default ∅ (v_leases <$> viewer s key p))
  else v_leases <$> viewer s key' p'.
Proof.
  unfold note_presence_join_op. set (s0 := set_conns _ s).
  change (viewer s0 key p) with (viewer s key p). destruct (viewer s key p) as [v|] eqn:Ev; simpl.
  - rewrite viewer_set. by case_decide.
  - change (viewer (mkState _ _ _ _)) with (viewer (set_viewer key p (mkViewer (next_generation s) None new_throttle {[(c, lease)]}) s0)).
    rewrite viewer_set. case_decide; simpl; [|done]. f_equal. set_solver.
Qed.

Lemma join_kept owner s c lease key source :
  Viewing owner (held (conns s)) s -> (forall k', ~ held (conns s) c lease k') ->
  kept owner s (note_presence_join_op s c lease key (owner c) source).1
    (note_presence_join_op s c lease key (owner c) source).2.
Proof.
  intros [H1 H2 H3 H4] Hf. pose proof (join_leases s c lease key (owner c) source) as Hl.
  pose proof (held_join s c lease key (owner c) source) as Hh.
  split; [split|].
  - intros c' l k k'. rewrite !Hh by done. intros [(-> & -> & ->)|Ha] [(? & ? & ?)|Hb]; subst; try done.
    + by apply Hf in Hb.
    + by apply Hf in Ha.
    + exact (H1 _ _ _ _ Ha Hb).
  - intros key' p v c' l Hv. rewrite Hh by done. specialize (Hl key' p). rewrite Hv in Hl. simpl in Hl.
    case_decide as D.
    + destruct D as [-> ->]. injection Hl as ->. rewrite elem_of_union, elem_of_singleton.
      destruct (viewer s key (owner c)) as [v0|] eqn:E0; simpl.
      * rewrite (H2 _ _ _ _ _ E0). naive_solver.
      * rewrite elem_of_empty. split; [naive_solver|]. intros [Ho [(-> & -> & _)|HH]]; [by left|].
        apply H4 in HH as [? HH]. rewrite Ho in HH. congruence.
    + symmetry in Hl. apply fmap_Some in Hl as (v0 & Hv0 & ->). rewrite (H2 _ _ _ _ _ Hv0). naive_solver.
  - intros key' p v Hv. specialize (Hl key' p). rewrite Hv in Hl. simpl in Hl. case_decide.
    + injection Hl as ->. set_solver.
    + symmetry in Hl. apply fmap_Some in Hl as (v0 & Hv0 & ->). by eapply H3.
  - intros c' l key'. rewrite Hh by done. intros HH. rewrite <- (fmap_is_Some v_leases), Hl. case_decide as D; [eauto|].
    destruct HH as [(-> & -> & ->)|HH]; [naive_solver|]. rewrite fmap_is_Some. by eapply H4.
  - intros key' p. unfold present at 2.
    rewrite (bool_decide_ext _ _ (iff_sym (fmap_is_Some v_leases (viewer (note_presence_join_op s c lease key (owner c) source).1 key' p)))).
    rewrite Hl. unfold note_presence_join_op. set (s0 := set_conns _ s).
    change (viewer s0 key (owner c)) with (viewer s key (owner c)).
    unfold present. destruct (viewer s key (owner c)) as [v|] eqn:Ev; simpl; case_decide as D.
    + destruct D as [-> ->]. rewrite Ev. done.
    + f_equal. apply bool_decide_ext. by rewrite fmap_is_Some.
    + destruct D as [-> ->]. rewrite Ev. by rewrite (bool_decide_true (key = key /\ owner c = owner c)).
    + rewrite (bool_decide_false (key = key' /\ owner c = p)) by naive_solver.
      f_equal. apply bool_decide_ext. by rewrite fmap_is_Some.
Qed.

(** The leases taken by a history. *)
Definition join_of (e : Event) : option (string * string) :=
  match e with EJoin c lease _ _ _ => Some (c, lease) | _ => None end.

Lemma held_step s e c l k :
  held (conns (st (step s e))) c l k -> held (conns (st s)) c l k \/ join_of e = Some (c, l).
Proof.
  unfold step. destruct (perform s e) as [t outs] eqn:Ep. simpl.
  assert (t = (perform s e).1) as -> by (by rewrite Ep). clear Ep.
  destruct e; simpl; try by left.
  - destruct (conns (st s) !! c0) as [conn|] eqn:Ec; simpl; intros Hh; left;
      [by rewrite (held_rewrite _ _ _ _ _ _ _ Ec) in Hh|by rewrite held_new in Hh].
  - pose proof (update_conns (st s) c0 fs target discussion now) as E.
    destruct (presence_update_op _ _ _ _ _ _) as [t' r]. simpl in *. rewrite E.
    destruct (conns (st s) !! c0) as [conn|] eqn:Ec; [|by left].
    destruct (set_typing _ _ _), (set_discussion _ _ _). intros Hh. left. by rewrite (held_rewrite _ _ _ _ _ _ _ Ec) in Hh.
  - rewrite disconnect_conns, held_delete. naive_solver.
  - rewrite join_conns. simpl. rewrite held_insert. simpl. rewrite lookup_insert_Some.
    destruct (conns (st s) !! c0) as [conn|] eqn:Ec; simpl; rewrite ?lookup_empty; unfold held; naive_solver.
  - rewrite leave_conns. destruct (conns (st s) !! c0) as [conn|] eqn:Ec; [|by left].
    case_bool_decide; [|by left]. simpl. destruct (is_empty _); [rewrite held_delete; naive_solver|].
    rewrite held_insert. simpl. rewrite lookup_delete_Some. unfold held. naive_solver.
  - pose proof (caret_conns (st s) c0 key p caret (clock s)) as E.
    destruct (note_presence_update_op _ _ _ _ _ _) as [t' r]. simpl in *. rewrite E. by left.
  - destruct (timers s !! n) as [tm|]; [|by left]. destruct (_ <=? _); [|by left]. rewrite flush_conns. by left.
Qed.

Lemma log_step s e : (log (step s e)).*2 = (log s).*2 ++ (perform s e).2.
Proof.
  unfold step. destruct (perform s e) as [t outs]. simpl. rewrite fmap_app, <- list_fmap_compose.
  f_equal. apply list_fmap_id.
Qed.

Lemma kept_step owner s e :
  owned_event owner e -> owned_conns owner (st s) -> Viewing owner (held (conns (st s))) (st s) ->
  (forall c l k, join_of e = Some (c, l) -> ~ held (conns (st s)) c l k) ->
  kept owner (st s) (st (step s e)) (perform s e).2.
Proof.
  intros He Ho Hv Hfresh. unfold step. destruct (perform s e) as [t outs] eqn:Ep. simpl.
  assert (t = (perform s e).1 /\ outs = (perform s e).2) as [-> ->] by (by rewrite Ep). clear Ep.
  destruct e; simpl in *.
  - by apply connect_kept.
  - pose proof (update_kept owner (st s) c fs target discussion now Hv) as H.
    by destruct (presence_update_op _ _ _ _ _ _) as [? [[]|]].
  - by apply disconnect_kept.
  - subst p. apply join_kept; [done|]. intros k. by apply Hfresh.
  - by apply leave_kept.
  - pose proof (caret_kept owner (st s) c key p caret (clock s) Hv) as H.
    by destruct (note_presence_update_op _ _ _ _ _ _) as [? [[]|]].
  - destruct (timers s !! n) as [tm|]; [|by apply kept_unchanged].
    destruct (_ <=? _); [by apply flush_kept|by apply kept_unchanged].
  - by apply kept_unchanged.
Qed.

Lemma viewing_run owner es :
  Forall (owned_event owner) es -> NoDup (omap join_of es) ->
  let s := run initial es in
  Viewing owner (held (conns (st s))) (st s) /\
  (forall c l k, held (conns (st s)) c l k -> (c, l) ∈ omap join_of es) /\
  (forall key p, foldl (follow key p) (Some false) (log s).*2 = Some (present (st s) key p)).
Proof.
  induction es as [|e es IH] using rev_ind; simpl.
  - intros _ _. split_and!; try done.
    + assert (forall c l k, ~ held (∅ : gmap string Conn) c l k) as Hno
        by (intros c l k (x & Hx & _); by rewrite lookup_empty in Hx).
      split; try done; intros c l k; try (intros k' Hh; by apply Hno in Hh); intros Hh; by apply Hno in Hh.
    + intros c l k (x & Hx & _). by apply (lookup_empty_Some c x) in Hx.
  - rewrite Forall_app, Forall_singleton, omap_app. intros [Hes He] Hnd.
    apply NoDup_app in Hnd as (Hnd & Hdisj & _). destruct (IH Hes Hnd) as (Hv & Hin & Hlog). clear IH.
    unfold run in *. rewrite foldl_snoc. set (s := foldl step initial es) in *.
    assert (forall c l, join_of e = Some (c, l) -> (c, l) ∈ omap join_of [e]) as Hj
      by (intros c l E; simpl; rewrite E; by left).
    destruct (kept_step owner s e He) as [Hv' Hf']; [by apply owned_run|done| |].
    { intros c l k E Hh. exact (Hdisj _ (Hin _ _ _ Hh) (Hj _ _ E)). }
    split_and!; [done| |].
    + intros c l k Hh. apply elem_of_app. destruct (held_step _ _ _ _ _ Hh) as [Hh'|E]; [left|right]; eauto.
    + intros key p. by rewrite log_step, foldl_app, Hlog.
Qed.


(** ** Carets *)

(** The last caret of a principal's stay on a note; [None] once two were sent less than
    the interval apart.  A caret taken by a flush and dropped counts as sent. *)
Definition pace_caret (last : option (Z * json)) (t : Z) (c : option json) : option (option (Z * json)) :=
  match c with
  | Some c =>
      if match last with Some (t0, _) => t0 + CURSOR_MIN_INTERVAL <=? t | None => true end
      then Some (Some (t, c)) else None
  | None => None
  end.

Definition pace (key : Key) (p : string) (acc : option (option (Z * json))) (e : Z * Out) : option (option (Z * json)) :=
  last ← acc;
  match e.2 with
  | ONote k q kind c =>
      if bool_decide (k = key /\ q = p) then
        match kind with Updated => pace_caret last e.1 c | _ => Some None end
      else Some last
  | ODropped k q c => if bool_decide (k = key /\ q = p) then pace_caret last e.1 (Some c) else Some last
  | _ => Some last
  end.

(** What the throttle works on. *)
Definition core (v : Viewer) : nat * option json * CursorThrottle := (generation v, cursor v, throttle v).

(** Outputs under which a viewer stays as it is or goes. *)
Definition stays (s s' : State) (outs : list Out) : Prop :=
  forall key p t last, exists last',
    foldl (pace key p) (Some last) ((fun o => (t, o)) <$> outs) = Some last' /\
    ((core <$> viewer s' key p = core <$> viewer s key p /\ last' = last) \/
     (viewer s' key p = None /\ last' = None)).

(** An output that is no viewer's business. *)
Definition silent (o : Out) : Prop := match o with OChanged _ | OMemberships _ => True | _ => False end.

Lemma stays_silent s s' outs :
  (forall key p, core <$> viewer s' key p = core <$> viewer s key p) -> Forall silent outs -> stays s s' outs.
Proof.
  intros Hv Hs key p t last. exists last. split; [|by left].
  induction Hs as [|o outs Ho _ IH]; [done|]. simpl. by destruct o.
Qed.

Lemma stays_trans s s1 s2 outs outs' : stays s s1 outs -> stays s1 s2 outs' -> stays s s2 (outs ++ outs').
Proof.
  intros H1 H2 key p t last. destruct (H1 key p t last) as (last1 & E1 & D1).
  destruct (H2 key p t last1) as (last2 & E2 & D2). exists last2. split.
  - by rewrite fmap_app, foldl_app, E1.
  - destruct D2 as [[E ->]|?]; [|by right]. destruct D1 as [[E' ->]|[E' ->]]; [left; by rewrite E|right].
    split; [|done]. rewrite E' in E. by destruct (viewer s2 key p).
Qed.

Lemma stays_release key p c l s :
  stays s (release_lease key p c l s).1 (if (release_lease key p c l s).2 then [ONote key p Left_ None] else []).
Proof.
  intros key' p' t last. rewrite viewer_release.
  destruct (release_lease key p c l s).2 eqn:Eg.
  - apply release_gone in Eg as (v & Hv & Hw). simpl. destruct (decide (key' = key /\ p' = p)) as [[-> ->]|D].
    + rewrite (bool_decide_true (key = key /\ p = p)) by done. exists None. split; [done|]. right.
      by rewrite Hv.
    + rewrite (bool_decide_false (key = key' /\ p = p')) by naive_solver. exists last. split; [done|by left].
  - exists last. split; [done|]. left. split; [|done]. case_decide as D; [|done]. destruct D as [-> ->].
    apply not_true_iff_false in Eg. rewrite release_gone in Eg.
    destruct (viewer s key p) as [v|]; simpl; [|done]. unfold without in *. case_bool_decide as E; [|done].
    exfalso. apply Eg. exists v. by rewrite (bool_decide_true _ E).
Qed.

Lemma stays_releases p c l s outs :
  exists outs', (foldl (release_one p c) (s, outs) l).2 = outs ++ outs' /\
    stays s (foldl (release_one p c) (s, outs) l).1 outs'.
Proof.
  revert s outs. induction l as [|[lease key] l IH]; intros s outs; simpl.
  - exists []. rewrite app_nil_r. split; [done|]. by apply stays_silent.
  - pose proof (stays_release key p c lease s) as Hr.
    unfold release_one at 2 4. simpl. destruct (release_lease key p c lease s) as [s1 gone]. simpl in *.
    destruct (IH s1 (if gone then outs ++ [ONote key p Left_ None] else outs)) as (outs' & E & Hs).
    exists ((if gone then [ONote key p Left_ None] else []) ++ outs'). split; [|by eapply stays_trans].
    rewrite E. destruct gone; [by rewrite <- (assoc_L app)|done].
Qed.

Lemma release_generation key p c l s :
  next_generation (release_lease key p c l s).1 = next_generation s.
Proof. unfold release_lease. by repeat case_match. Qed.

Lemma releases_generation p c l acc : next_generation (foldl (release_one p c) acc l).1 = next_generation acc.1.
Proof.
  revert acc. induction l as [|kv l IH]; intros acc; simpl; [done|]. rewrite IH. unfold release_one.
  pose proof (release_generation kv.2 p c kv.1 acc.1) as H. by destruct (release_lease _ _ _ _ _).
Qed.

(** *** The invariant *)

Definition timers_of (key : Key) (p : string) (gen : nat) (l : list Timer) : list Timer :=
  List.filter (fun tm => bool_decide (tm_key tm = key /\ tm_p tm = p /\ tm_gen tm = gen)) l.

(** A viewer's throttle, its caret and its timers. *)
Definition throttled (key : Key) (p : string) (ts : list Timer) (last : option (Z * json)) (v : nat * option json * CursorThrottle) : Prop :=
  let '(gen, caret, t) := v in
  last_publish t = fst <$> last /\
  match pending t with
  | Some c => armed t = true /\ caret = Some c /\
              exists t0, fst <$> last = Some t0 /\ timers_of key p gen ts = [mkTimer key p gen (t0 + CURSOR_MIN_INTERVAL)]
  | None => armed t = false /\ caret = snd <$> last /\ timers_of key p gen ts = []
  end.

Record PacedAt (s : Sys) (key : Key) (p : string) (last : option (Z * json)) : Prop := mkPaced {
  pc_log : foldl (pace key p) (Some None) (log s) = Some last;
  pc_clock : forall x, last = Some x -> x.1 <= clock s;
  pc_none : viewer (st s) key p = None -> last = None;
  pc_some : forall v, core <$> viewer (st s) key p = Some v ->
              (v.1.1 < next_generation (st s))%nat /\ throttled key p (timers s) last v }.

Definition Paced (s : Sys) : Prop :=
  Forall (fun tm => (tm_gen tm < next_generation (st s))%nat) (timers s) /\
  forall key p, exists last, PacedAt s key p last.

(** A step under which viewers stay or go keeps the pace. *)
Lemma paced_stays s s' outs :
  Paced s -> stays (st s) (st s') outs -> next_generation (st s') = next_generation (st s) ->
  timers s' = timers s -> clock s <= clock s' -> log s' = log s ++ ((fun o => (clock s, o)) <$> outs) -> Paced s'.
Proof.
  intros [Ht Hp] Hst Hg Etm Hc El. split; [by rewrite Hg, Etm|]. intros key p.
  destruct (Hp key p) as (last & [P1 P2 P3 P4]). destruct (Hst key p (clock s) last) as (last' & E & D).
  exists last'. split.
  - by rewrite El, foldl_app, P1.
  - destruct D as [[_ ->]|[_ ->]]; [|done]. intros x Hx. apply P2 in Hx. lia.
  - destruct D as [[Ev ->]|[_ ->]]; [|done]. intros En. apply P3. rewrite En in Ev. by destruct (viewer (st s) key p).
  - intros v. rewrite Hg, Etm. destruct D as [[Ev ->]|[Ev _]]; rewrite Ev; [apply P4|done].
Qed.

(** A step on one viewer of one note. *)
Definition addressed (key : Key) (p : string) (o : Out) : Prop :=
  match o with ONote k q _ _ | ODropped k q _ => k = key /\ q = p | _ => True end.

Lemma pace_other key p key' p' t outs acc :
  Forall (addressed key p) outs -> ~ (key' = key /\ p' = p) ->
  foldl (pace key' p') acc ((fun o => (t, o)) <$> outs) = acc.
Proof.
  intros Ha Hne. induction Ha as [|o outs Ho _ IH] in acc |- *; simpl; [done|]. rewrite IH. unfold pace.
  destruct acc; [|done]. simpl. destruct o as [k q kind c|?|?|k q c]; simpl in *; try done;
    (rewrite bool_decide_false; [done|naive_solver]).
Qed.

Lemma paced_one s s' key p outs last' :
  Paced s -> Forall (addressed key p) outs ->
  (forall key' p', ~ (key' = key /\ p' = p) -> core <$> viewer (st s') key' p' = core <$> viewer (st s) key' p') ->
  (forall key' p' g, ~ (key' = key /\ p' = p) -> timers_of key' p' g (timers s') = timers_of key' p' g (timers s)) ->
  (next_generation (st s) <= next_generation (st s'))%nat ->
  Forall (fun tm => (tm_gen tm < next_generation (st s'))%nat) (timers s') ->
  clock s' = clock s -> log s' = log s ++ ((fun o => (clock s, o)) <$> outs) ->
  PacedAt s' key p last' -> Paced s'.
Proof.
  intros [_ Hp] Ha Hv Ht Hg Hts Hc El Hat. split; [done|]. intros key' p'.
  destruct (decide (key' = key /\ p' = p)) as [[-> ->]|Hne]; [by exists last'|].
  destruct (Hp key' p') as (last & [P1 P2 P3 P4]). exists last. split.
  - rewrite El, foldl_app, P1. by apply (pace_other key p).
  - by rewrite Hc.
  - intros E. apply P3. specialize (Hv key' p' Hne). rewrite E in Hv. by destruct (viewer (st s) key' p').
  - intros v. rewrite Hv by done. intros E. destruct (P4 v E) as [Hgen Hth]. split; [lia|].
    destruct v as [[gen caret] t]. unfold throttled in *. by rewrite Ht.
Qed.

Lemma timers_of_app key p g l l' : timers_of key p g (l ++ l') = timers_of key p g l ++ timers_of key p g l'.
Proof. apply List.filter_app. Qed.

Lemma timers_of_delete key p g ts n tm :
  ts !! n = Some tm ->
  exists a b, timers_of key p g ts = a ++ timers_of key p g [tm] ++ b /\ timers_of key p g (delete n ts) = a ++ b.
Proof.
  intros Hn. exists (timers_of key p g (take n ts)), (timers_of key p g (drop (S n) ts)). split.
  - rewrite <- (take_drop_middle ts n tm Hn) at 1. rewrite timers_of_app. f_equal. apply (timers_of_app _ _ _ [tm]).
  - by rewrite delete_take_drop, timers_of_app.
Qed.

Lemma timers_of_single key p g tm :
  timers_of key p g [tm] = if bool_decide (tm_key tm = key /\ tm_p tm = p /\ tm_gen tm = g) then [tm] else [].
Proof. unfold timers_of. simpl. by case_bool_decide. Qed.

Lemma timers_of_fresh key p g ts : Forall (fun tm => (tm_gen tm < g)%nat) ts -> timers_of key p g ts = [].
Proof.
  induction 1 as [|tm ts Htm _ IH]; [done|]. change (tm :: ts) with ([tm] ++ ts).
  rewrite timers_of_app, IH, timers_of_single, bool_decide_false; [done|]. intros (_ & _ & ?). lia.
Qed.

Lemma join_paced s c lease key p source : Paced s -> Paced (step s (EJoin c lease key p source)).
Proof.
  intros HP. unfold step. simpl. unfold note_presence_join_op. set (s0 := set_conns _ (st s)).
  change (viewer s0 key p) with (viewer (st s) key p). destruct (viewer (st s) key p) as [v|] eqn:Ev; simpl.
  - apply (paced_stays s _ []); simpl; try done. apply stays_silent; [|done].
    intros key' p'. rewrite viewer_set. case_decide as D; [|done]. destruct D as [-> ->]. by rewrite Ev.
  - pose proof HP as [Hts Hp]. destruct (Hp key p) as (last & [P1 P2 P3 P4]).
    set (v := mkViewer _ _ _ _).
    eapply (paced_one s _ key p [ONote key p Joined None] None); simpl; try done.
    + repeat constructor.
    + intros key' p' Hne. change (viewer (mkState _ _ _ _)) with (viewer (set_viewer key p v s0)).
      rewrite viewer_set, decide_False by done. done.
    + lia.
    + eapply Forall_impl; [exact Hts|]. simpl. intros. lia.
    + split; simpl.
      * rewrite foldl_app, P1. simpl. by rewrite bool_decide_true.
      * done.
      * done.
      * intros x. change (viewer (mkState _ _ _ _)) with (viewer (set_viewer key p v s0)).
        rewrite viewer_set, decide_True by done. intros [= <-]. simpl. split; [lia|].
        split; [done|]. split_and!; [done..|]. by apply timers_of_fresh.
Qed.

(** The state after an accepted caret or a flush. *)
Lemma set_viewer_other key p v s key' p' :
  ~ (key' = key /\ p' = p) -> core <$> viewer (set_viewer key p v s) key' p' = core <$> viewer s key' p'.
Proof. intros Hne. by rewrite viewer_set, decide_False. Qed.

(** The new pace of the viewer a step rewrote. *)
Lemma paced_at_set s key p v ts outs last last' :
  foldl (pace key p) (Some None) (log s) = Some last ->
  foldl (pace key p) (Some last) ((fun o => (clock s, o)) <$> outs) = Some last' ->
  (forall x, last' = Some x -> x.1 <= clock s) -> (generation v < next_generation (st s))%nat ->
  throttled key p ts last' (core v) ->
  PacedAt (mkSys (set_viewer key p v (st s)) (clock s) ts (log s ++ ((fun o => (clock s, o)) <$> outs))) key p last'.
Proof.
  intros El Eo Hc Hg Ht. split; simpl.
  - by rewrite foldl_app, El.
  - done.
  - rewrite viewer_set, decide_True by done. done.
  - rewrite viewer_set, decide_True by done. by intros ? [= <-].
Qed.

Lemma paced_set s key p v ts outs last last' :
  Paced s -> Forall (addressed key p) outs ->
  (forall key' p' g, ~ (key' = key /\ p' = p) -> timers_of key' p' g ts = timers_of key' p' g (timers s)) ->
  Forall (fun tm => (tm_gen tm < next_generation (st s))%nat) ts ->
  foldl (pace key p) (Some None) (log s) = Some last ->
  foldl (pace key p) (Some last) ((fun o => (clock s, o)) <$> outs) = Some last' ->
  (forall x, last' = Some x -> x.1 <= clock s) -> (generation v < next_generation (st s))%nat ->
  throttled key p ts last' (core v) ->
  Paced (mkSys (set_viewer key p v (st s)) (clock s) ts (log s ++ ((fun o => (clock s, o)) <$> outs))).
Proof.
  intros HP Ha Ht Hts El Eo Hc Hg Hth. eapply (paced_one s _ key p outs last'); simpl; try done.
  - intros key' p' Hne. by apply set_viewer_other.
  - by eapply paced_at_set.
Qed.

Lemma caret_paced s c key p caret : Paced s -> Paced (step s (ECaret c key p caret)).
Proof.
  intros HP. unfold step. cbn [perform timers_after]. unfold note_presence_update_op.
  assert (Paced (mkSys (st s) (clock s) (timers s) (log s ++ []))) as Hsame
    by (rewrite app_nil_r; by destruct s).
  destruct (match conns (st s) !! c with Some _ => _ | None => _ end); [|exact Hsame].
  destruct (viewer (st s) key p) as [v|] eqn:Ev; [|exact Hsame]. clear Hsame.
  pose proof HP as [Hts Hp]. destruct (Hp key p) as (last & [P1 P2 P3 P4]).
  destruct (P4 (core v)) as [Hg [Hlp Hth]]; [by rewrite Ev|]. clear P3 P4 Hp. simpl in *. unfold offer.
  destruct (pending (throttle v)) as [c0|] eqn:Epend.
  - destruct Hth as (Ea & _ & t0 & Et0 & Htm). rewrite Ea. simpl.
    eapply (paced_set s key p _ (timers s) [] last last); try done. simpl. split_and!; try done. eauto.
  - destruct Hth as (Ea & Ecur & Htm). rewrite Ea, Hlp. destruct last as [[t0 c0]|]; simpl.
    + pose proof (P2 _ eq_refl) as Hle. simpl in Hle. unfold saturating_sub. destruct (_ <? _) eqn:El; simpl.
      * eapply (paced_set s key p _ _ [] (Some (t0, c0)) (Some (t0, c0))); try done.
        -- intros key' p' g Hne. rewrite timers_of_app, timers_of_single, bool_decide_false, app_nil_r; [done|].
           simpl. naive_solver.
        -- apply Forall_app. split; [done|]. by repeat constructor.
        -- simpl. split_and!; try done. exists t0. split; [done|].
           rewrite timers_of_app, Htm, timers_of_single, bool_decide_true by done. simpl. do 2 f_equal. lia.
      * eapply (paced_set s key p _ _ [ONote key p Updated (Some caret)] (Some (t0, c0)) (Some (clock s, caret))); try done.
        -- by repeat constructor.
        -- simpl. rewrite bool_decide_true by done. replace (_ <=? _) with true by lia. done.
        -- intros x [= <-]. done.
    + eapply (paced_set s key p _ _ [ONote key p Updated (Some caret)] None (Some (clock s, caret))); try done.
      -- by repeat constructor.
      -- simpl. by rewrite bool_decide_true.
      -- intros x [= <-]. done.
Qed.

Lemma timers_of_deleted key p g ts n tm :
  ts !! n = Some tm -> ~ (tm_key tm = key /\ tm_p tm = p /\ tm_gen tm = g) ->
  timers_of key p g (delete n ts) = timers_of key p g ts.
Proof.
  intros Hn Hne. destruct (timers_of_delete key p g ts n tm Hn) as (a & b & -> & ->).
  by rewrite timers_of_single, bool_decide_false.
Qed.

Lemma timers_of_used key p g ts n tm x :
  ts !! n = Some tm -> tm_key tm = key /\ tm_p tm = p /\ tm_gen tm = g -> timers_of key p g ts = [x] ->
  tm = x /\ timers_of key p g (delete n ts) = [].
Proof.
  intros Hn Hm. destruct (timers_of_delete key p g ts n tm Hn) as (a & b & -> & ->).
  rewrite timers_of_single, bool_decide_true by done. intros E.
  destruct a as [|y [|]], b; simplify_eq/=; done.
Qed.

(** A timer that finds another viewer, or none, does nothing. *)
Lemma stale_paced s n tm :
  Paced s -> timers s !! n = Some tm ->
  (forall v, viewer (st s) (tm_key tm) (tm_p tm) = Some v -> generation v <> tm_gen tm) ->
  Paced (mkSys (st s) (clock s) (delete n (timers s)) (log s ++ [])).
Proof.
  intros [Hts Hp] Hn Hst. split; simpl; [by apply Forall_delete|]. intros key p.
  destruct (Hp key p) as (last & [P1 P2 P3 P4]). exists last. split; simpl; [by rewrite app_nil_r|done..|].
  intros x Hx. destruct (P4 x Hx) as [Hg Hth]. split; [done|]. destruct x as [[g caret] t]. unfold throttled in *.
  rewrite (timers_of_deleted _ _ _ _ n tm Hn); [done|]. intros (<- & <- & <-).
  apply fmap_Some in Hx as (v & Hv & [= Eg _ _]). by apply (Hst v Hv).
Qed.

Lemma flush_paced s n member : Paced s -> Paced (step s (EFlush n member)).
Proof.
  intros HP. unfold step. cbn [perform timers_after].
  destruct (timers s !! n) as [tm|] eqn:En; [|simpl; rewrite app_nil_r; by destruct s].
  destruct (tm_due tm <=? clock s) eqn:Ed; [|simpl; rewrite app_nil_r; by destruct s].
  unfold trailing_flush. destruct (viewer (st s) (tm_key tm) (tm_p tm)) as [v|] eqn:Ev.
  2: { eapply stale_paced; [done..|]. intros v. by rewrite Ev. }
  destruct (decide (generation v = tm_gen tm)) as [Eg|Eg].
  2: { rewrite bool_decide_false by done. eapply stale_paced; [done..|]. intros x Hx. by simplify_eq. }
  rewrite bool_decide_true by done. pose proof HP as [Hts Hp].
  destruct (Hp (tm_key tm) (tm_p tm)) as (last & [P1 P2 P3 P4]).
  destruct (P4 (core v)) as [Hg [Hlp Hth]]; [by rewrite Ev|]. clear P3 P4 Hp. simpl in *.
  unfold flush. destruct (pending (throttle v)) as [c|] eqn:Epend.
  2: { destruct Hth as (_ & _ & Htm). destruct (timers_of_delete (tm_key tm) (tm_p tm) (generation v) _ _ _ En) as (a & b & E & _).
       rewrite Htm, timers_of_single, bool_decide_true in E by done. by destruct a. }
  destruct Hth as (Ea & Ecur & t0 & Et0 & Htm).
  destruct (timers_of_used _ _ _ _ _ _ _ En (conj eq_refl (conj eq_refl (eq_sym Eg))) Htm) as [Etm Hdel].
  destruct last as [[t1 c1]|]; simplify_eq/=.
  assert (t0 + CURSOR_MIN_INTERVAL <= clock s) as Hdue by (rewrite Etm in Ed; simpl in Ed; lia).
  eapply (paced_set s (tm_key tm) (tm_p tm) _ _ [if member then _ else _] _ (Some (clock s, c))); try done.
  - destruct member; by repeat constructor.
  - intros key' p' g Hne. apply (timers_of_deleted _ _ _ _ n tm En). naive_solver.
  - by apply Forall_delete.
  - simpl. destruct member; simpl; rewrite bool_decide_true by done; by replace (_ <=? _) with true by lia.
  - intros x [= <-]. done.
Qed.

Lemma stays_step s s' outs e :
  Paced s -> stays (st s) s' outs -> next_generation s' = next_generation (st s) -> perform s e = (s', outs) ->
  timers_after s e = timers s -> Paced (step s e).
Proof.
  intros HP Hs Hg Ep Et. unfold step. rewrite Ep. apply (paced_stays s _ outs); simpl; try done. destruct e; lia.
Qed.

Lemma paced_step s e : Paced s -> Paced (step s e).
Proof.
  intros HP. destruct e; [..|by apply caret_paced|by apply flush_paced|].
  - eapply stays_step; [done| | |reflexivity|done]; [|done]. apply stays_silent; [done|]. by case_match; repeat constructor.
  - simpl. destruct (presence_update_op (st s) c fs target discussion now) as [t r] eqn:E.
    eapply stays_step; [done| | |simpl; by rewrite E|done];
      unfold presence_update_op in E; simpl in E; destruct (conns (st s) !! c) as [conn|];
      try (destruct (set_typing _ _ _), (set_discussion _ _ _)); simplify_eq/=; try done; apply stays_silent; try done.
    apply Forall_fmap, Forall_forall. by intros.
  - destruct (presence_disconnect_op (st s) c) as [t outs] eqn:E.
    eapply stays_step; [done| | |exact E|done]; unfold presence_disconnect_op in E; simpl in E;
      (destruct (conns (st s) !! c) as [conn|]; [|simplify_eq; by (apply stays_silent || done)]).
    + edestruct (stays_releases (principal conn) c (map_to_list (leases conn))
        (set_conns (delete c (conns (st s))) (bump_focus (st s))) []) as (outs' & E1 & Hs).
      destruct (foldl _ _ _) as [s2 left_]. simplify_eq/=. eapply stays_trans; [exact Hs|]. apply stays_silent; [done|].
      case_match; [by repeat constructor|]. apply Forall_fmap, Forall_forall. by intros.
    + pose proof (releases_generation (principal conn) c (map_to_list (leases conn))
        (set_conns (delete c (conns (st s))) (bump_focus (st s)), [])) as Hg.
      destruct (foldl _ _ _) as [s2 left_]. by simplify_eq/=.
  - by apply join_paced.
  - destruct (note_presence_leave_op (st s) c lease) as [t outs] eqn:E.
    eapply stays_step; [done| | |exact E|done]; unfold note_presence_leave_op in E;
      (destruct (conns (st s) !! c) as [conn|]; [|simplify_eq; by (apply stays_silent || done)]);
      (destruct (leases conn !! lease) as [key|]; [|simplify_eq; by (apply stays_silent || done)]).
    + set (s1 := set_conns _ _) in E. pose proof (stays_release key (principal conn) c lease s1) as Hs.
      destruct (release_lease key (principal conn) c lease s1) as [s2 gone]. by simplify_eq/=.
    + set (s1 := set_conns _ _) in E. pose proof (release_generation key (principal conn) c lease s1) as Hg.
      destruct (release_lease key (principal conn) c lease s1) as [s2 gone]. by simplify_eq/=.
  - eapply stays_step; [done| | |reflexivity|done]; [|done]. by apply stays_silent.
Qed.

Lemma paced_run es : Paced (run initial es).
Proof.
  unfold run. induction es as [|e es IH] using rev_ind; [|rewrite foldl_snoc; by apply paced_step].
  split; [done|]. intros key p. exists None. by split.
Qed.

Lemma timers_of_in key p g ts tm : timers_of key p g ts = [tm] -> exists n, ts !! n = Some tm.
Proof.
  intros E. apply list_elem_of_lookup, list_elem_of_In. assert (In tm (timers_of key p g ts)) as H
    by (rewrite E; by left). by apply filter_In in H as [H _].
Qed.


(** ** Runs *)

(** Two tabs of one principal on one note, and another viewer. *)
Definition two_tabs : list Event :=
  [ EConnect "c1" "ann" "s1"; EConnect "c2" "ann" "s2"; EConnect "c3" "bob" "s3";
    EUpdate "c1" [mkFocus "w" None (Some "n")] (Some ("ag", "w")) None "t0";
    EJoin "c1" "l1" ("w", "n") "ann" "s1"; EJoin "c2" "l2" ("w", "n") "ann" "s2"; EJoin "c3" "l3" ("w", "n") "bob" "s3";
    ECaret "c1" ("w", "n") "ann" (JNumber (PosInt 1)); ETick 30000000;
    ECaret "c1" ("w", "n") "ann" (JNumber (PosInt 2)); ECaret "c2" ("w", "n") "ann" (JNumber (PosInt 3));
    ELeave "c1" "l1"; ETick 70000000; EFlush 0 true; EDisconnect "c3" ].

Definition tab_owner (c : string) : string := if bool_decide (c = "c3") then "bob" else "ann".

Lemma two_tabs_owned : Forall (owned_event tab_owner) two_tabs.
Proof. repeat constructor; done. Qed.

(** The second caret waits, the third replaces it, and the flush sends it; the first tab
    leaves without a delta, and the last connection of the other viewer takes it away. *)
Example two_tabs_log :
  log (run initial two_tabs) =
  [ (0, OMemberships "ann"); (0, OMemberships "bob"); (0, OChanged "w");
    (0, ONote ("w", "n") "ann" Joined None); (0, ONote ("w", "n") "bob" Joined None);
    (0, ONote ("w", "n") "ann" Updated (Some (JNumber (PosInt 1))));
    (100000000, ONote ("w", "n") "ann" Updated (Some (JNumber (PosInt 3))));
    (100000000, ONote ("w", "n") "bob" Left_ None); (100000000, OMemberships "bob") ].
Proof. vm_compute. reflexivity. Qed.

(** The second tab closing is no news of the first: its typing entry stays. *)
Example presence_rosters_announced_witness :
  roster_typing "w" (conns_of (st (step (run initial two_tabs) (EDisconnect "c2"))) "ann") <> [].
Proof.
  pose proof (presence_rosters_announced tab_owner two_tabs (EDisconnect "c2") "w" "ann") as H.
  intros E. destruct H as (_ & _ & Ht & _).
  - apply Forall_app. split; [exact two_tabs_owned|]. by repeat constructor.
  - intros Hin%list_elem_of_In. vm_compute in Hin. intuition discriminate.
  - intros Hin%list_elem_of_In. vm_compute in Hin. intuition discriminate.
  - assert (("s1", mkTyping "ag" "w" "t0" 1) ∈ roster_typing "w" (conns_of (st (run initial two_tabs)) "ann")) as Hin
      by (vm_compute; left).
    apply Ht in Hin. rewrite E in Hin. by apply not_elem_of_nil in Hin.
Defined.

