(* ===== verification/PresenceProfiles.v ===== *)
(** * The profile cache and the focus snapshot ([crates/intent-services/src/presence.rs])

    The rest of the presence table: the cached profiles of the principals in it, with
    the epoch that keeps a read in flight from installing an old row, and the snapshot
    of a person's focus that is read again while the focus moves.  The table itself is
    [Presence]; the store's rows and the answers of its reads are events. *)
From stdpp Require Import prelude strings gmap sorting pretty.
From S2P Require Import Prelude.
From S2P Require Import Json.
From S2P Require Import Presence.

(** ** Principals and profiles *)

Inductive HostRole := Owner | HostMember | Guest.

#[global] Instance HostRole_eq_dec : EqDecision HostRole.
Proof. solve_decision. Defined.

Definition role_name (r : HostRole) : string :=
  match r with Owner => "owner" | HostMember => "member" | Guest => "guest" end.

Record PrincipalIdentity := mkIdentity {
  provider : string;
  host : string;
  external_user_id : string }.

#[global] Instance PrincipalIdentity_eq_dec : EqDecision PrincipalIdentity.
Proof. solve_decision. Defined.

Definition github (github_user_id : Z) : PrincipalIdentity :=
  mkIdentity "github" "github.com" (pretty github_user_id).

Record Principal := mkPrincipal {
  id : string;
  identity : option PrincipalIdentity;
  github_user_id : option Z;
  login : option string;
  display_name : option string;
  avatar_url : option string;
  is_primary : bool }.

Definition identity_key (p : Principal) : option PrincipalIdentity :=
  match identity p with Some i => Some i | None => github <$> github_user_id p end.

Record Profile := mkProfile {
  p_login : option string;
  p_display_name : option string;
  p_avatar_url : option string;
  p_identity : option PrincipalIdentity;
  p_host_role : option HostRole }.

#[global] Instance Profile_eq_dec : EqDecision Profile.
Proof. solve_decision. Defined.

Definition profile_of (p : Principal) : Profile :=
  mkProfile (login p) (display_name p) (avatar_url p) (identity_key p)
    (Some (if is_primary p then Owner else Guest)).

Definition with_role (p : Profile) (r : HostRole) : Profile :=
  mkProfile (p_login p) (p_display_name p) (p_avatar_url p) (p_identity p) (Some r).

Definition default_profile : Profile := mkProfile None None None None None.

Definition identity_json (i : PrincipalIdentity) : json :=
  JObject [("provider", JString (provider i)); ("host", JString (host i));
           ("externalUserId", JString (external_user_id i))].

Definition viewer_row (p : string) (profile : Profile) (cursor : option json) : json :=
  let row := JObject
    [("principalId", JString p); ("login", jopt (p_login profile)); ("displayName", jopt (p_display_name profile));
     ("avatarUrl", jopt (p_avatar_url profile));
     ("hostRole", JString (role_name (default Guest (p_host_role profile))));
     ("cursor", default JNull cursor)] in
  match p_identity profile with Some i => jset row "identity" (identity_json i) | None => row end.

Definition kind_name (k : Kind) : string :=
  match k with Joined => "joined" | Updated => "updated" | Left_ => "left" end.

(** The data of a [note:presence] event. *)
Definition note_presence_data (key : Key) (p : string) (profile : Profile) (kind : Kind) (cursor : option json) : json :=
  jset (jset (jset (viewer_row p profile cursor) "workspaceId" (JString key.1)) "noteId" (JString key.2))
    "kind" (JString (kind_name kind)).

(** ** The cache *)

Record Cache := mkCache {
  base : Sys;
  profiles : gmap string Profile;
  profile_epoch : Z }.

Definition profile (c : Cache) (p : string) : Profile := default default_profile (profiles c !! p).

Definition present_anywhere (s : State) (p : string) : bool :=
  existsb (fun conn => bool_decide (principal conn = p)) (map_to_list (conns s)).*2
  || existsb (fun m => bool_decide (is_Some (m !! p))) (map_to_list (viewers s)).*2.

Definition gc_profile (p : string) (c : Cache) : Cache :=
  if present_anywhere (st (base c)) p then c else mkCache (base c) (delete p (profiles c)) (profile_epoch c).

(** The principal whose profile an operation may let go. *)
Definition collects (s : State) (e : Event) : option string :=
  match e with
  | EDisconnect c => principal <$> conns s !! c
  | ELeave c lease => conn ← conns s !! c; _ ← leases conn !! lease; Some (principal conn)
  | _ => None
  end.

Definition table_step (c : Cache) (e : Event) : Cache :=
  let c' := mkCache (step (base c) e) (profiles c) (profile_epoch c) in
  match collects (st (base c)) e with Some p => gc_profile p c' | None => c' end.

(** *** A changed row *)

Definition key_leb (a b : Key * option json) : bool :=
  if bool_decide (a.1.1 = b.1.1) then str_leb a.1.2 b.1.2 else str_leb a.1.1 b.1.1.

Definition viewed (s : State) (p : string) : list (Key * option json) :=
  sort_by key_leb (omap (fun kv => v ← kv.2 !! p; Some (kv.1, cursor v)) (map_to_list (viewers s))).

(** The section of [presence_profile_changed], with the role read before it. *)
Definition presence_profile_changed (row : Principal) (role : HostRole) (c : Cache) : Cache * list Out :=
  let new := with_role (profile_of row) role in
  let epoch := profile_epoch c + 1 in
  match profiles c !! id row with
  | None => (mkCache (base c) (profiles c) epoch, [])
  | Some cached =>
      if bool_decide (cached = new) then (mkCache (base c) (profiles c) epoch, [])
      else
        (mkCache (base c) (<[id row := new]> (profiles c)) epoch,
         ((fun kv => ONote kv.1 (id row) Updated kv.2) <$> viewed (st (base c)) (id row))
         ++ (if is_online (st (base c)) (id row) then [OMemberships (id row)] else []))
  end.

(** The section of [presence_host_member_removed]: the connections it goes on to
    disconnect, one after the other. *)
Definition presence_host_member_removed (p : string) (c : Cache) : Cache * list string :=
  (mkCache (base c) (profiles c) (profile_epoch c + 1),
   omap (fun kv => if bool_decide (principal kv.2 = p) then Some kv.1 else None) (map_to_list (conns (st (base c))))).

(** *** [ensure_profile] *)

(** Where a call stands: before the lookup, reading the row, reading the role, about
    to install. *)
Inductive Task :=
| TLook (p : string)
| TRow (p : string) (epoch : Z)
| TRole (p : string) (epoch : Z) (profile : Profile)
| TInstall (p : string) (epoch : Z) (profile : Profile).

(** What the store answers to the read a task is at. *)
Record Answer := mkAnswer {
  failed : bool;
  role_read : HostRole }.

(** One section of the loop: the cache after it and where the call goes. *)
Definition ensure_profile (rows : gmap string Principal) (a : Answer) (c : Cache) (t : Task) : Cache * option Task :=
  match t with
  | TLook p =>
      (c, Some match profiles c !! p with
               | Some cached => TRole p (profile_epoch c) cached
               | None => TRow p (profile_epoch c)
               end)
  | TRow p epoch =>
      (c, if failed a then None else row ← rows !! p; Some (TRole p epoch (profile_of row)))
  | TRole p epoch pr => (c, if failed a then None else Some (TInstall p epoch (with_role pr (role_read a))))
  | TInstall p epoch pr =>
      if bool_decide (profile_epoch c = epoch)
      then (mkCache (base c) (<[p := pr]> (profiles c)) (profile_epoch c), None)
      else (c, Some (TLook p))
  end.

(** ** The machine *)

(** The cache, the store's rows, the rows written whose change is not announced yet,
    and the calls in flight.  A row is written and announced under one lock. *)
Record PSys := mkPSys {
  cache : Cache;
  rows : gmap string Principal;
  changing : gmap string Principal;
  calls : list Task }.

Definition start (rows : gmap string Principal) : PSys := mkPSys (mkCache initial ∅ 0) rows ∅ [].

Inductive PEvent :=
| PTable (e : Event)
| PEnsure (p : string)
| PCall (n : nat) (a : Answer)
| PPersist (row : Principal)
| PChanged (p : string) (role : option HostRole)
| PRemoved (p : string).

Definition with_cache (c : Cache) (s : PSys) : PSys := mkPSys c (rows s) (changing s) (calls s).

Definition pstep (s : PSys) (e : PEvent) : PSys :=
  match e with
  | PTable e => with_cache (table_step (cache s) e) s
  | PEnsure p => mkPSys (cache s) (rows s) (changing s) (calls s ++ [TLook p])
  | PCall n a =>
      match calls s !! n with
      | None => s
      | Some t =>
          let '(c, next) := ensure_profile (rows s) a (cache s) t in
          mkPSys c (rows s) (changing s) (match next with Some t' => <[n := t']> (calls s) | None => delete n (calls s) end)
      end
  | PPersist row =>
      match changing s !! id row with
      | Some _ => s
      | None => mkPSys (cache s) (<[id row := row]> (rows s)) (<[id row := row]> (changing s)) (calls s)
      end
  | PChanged p role =>
      match changing s !! p with
      | None => s
      | Some row =>
          let c := match role with Some r => (presence_profile_changed row r (cache s)).1 | None => cache s end in
          mkPSys c (rows s) (delete p (changing s)) (calls s)
      end
  | PRemoved p => with_cache (presence_host_member_removed p (cache s)).1 s
  end.

Definition prun : PSys -> list PEvent -> PSys := foldl pstep.

(** ** The focus snapshot *)

Definition focus_candidates (s : State) (p : string) : list json :=
  focus_json <$> (List.filter (fun c => hello c && bool_decide (principal c = p)) (map_to_list (conns s)).*2 ≫= focus).

(** One round: the table when the candidates are collected, the store's answer to them,
    and the table when the generation is looked at again. *)
Record Round := mkRound {
  at_read : State;
  authorized : list json -> Result json string;
  at_check : State }.

Definition focus_answer (ws p : string) (target : json) : json :=
  JObject [("workspaceId", JString ws); ("principalId", JString p); ("target", target)].

(** [n] rounds are left; [None] while the next one has not happened. *)
Fixpoint focus_rounds (ws p : string) (n : nat) (rs : list Round) : option (Result json string) :=
  match n, rs with
  | O, _ => Some (Ok (focus_answer ws p JNull))
  | S n, [] => None
  | S n, r :: rs =>
      match authorized r (focus_candidates (at_read r) p) with
      | Err e => Some (Err e)
      | Ok target =>
          if bool_decide (focus_generation (at_check r) <> focus_generation (at_read r)) then focus_rounds ws p n rs
          else Some (Ok (focus_answer ws p target))
      end
  end.

Definition presence_focus_snapshot_op (ws p : string) (rs : list Round) : option (Result json string) :=
  focus_rounds ws p 4 rs.

(** ** Cached profiles are current *)

(** What a profile says of the person, its role on the host aside. *)
Definition fields (p : Profile) := (p_login p, p_display_name p, p_avatar_url p, p_identity p).

Definition matches (s : PSys) (p : string) (pr : Profile) : Prop :=
  exists row, rows s !! p = Some row /\ fields pr = fields (profile_of row).

(** A call whose epoch is still the table's holds the current row. *)
Definition call_current (s : PSys) (t : Task) : Prop :=
  match t with
  | TLook _ => True
  | TRow _ e => e <= profile_epoch (cache s)
  | TRole p e pr | TInstall p e pr =>
      e <= profile_epoch (cache s) /\ (e = profile_epoch (cache s) -> changing s !! p = None -> matches s p pr)
  end.

Record Current (s : PSys) : Prop := mkCurrent {
  cu_changing : forall p row, changing s !! p = Some row -> rows s !! p = Some row /\ id row = p;
  cu_cache : forall p pr, profiles (cache s) !! p = Some pr -> changing s !! p = None -> matches s p pr;
  cu_calls : Forall (call_current s) (calls s) }.

(** The announcement of a change reaches the table. *)
Definition announced (e : PEvent) : Prop := match e with PChanged _ None => False | _ => True end.

Lemma gc_profile_sub p c q pr :
  profiles (gc_profile p c) !! q = Some pr -> profiles c !! q = Some pr.
Proof. unfold gc_profile. case_match; [done|]. simpl. by intros [_ ?]%lookup_delete_Some. Qed.

Lemma table_step_profiles c e q pr : profiles (table_step c e) !! q = Some pr -> profiles c !! q = Some pr.
Proof. unfold table_step. case_match; [|done]. intros Hq%gc_profile_sub. exact Hq. Qed.

Lemma table_step_epoch c e : profile_epoch (table_step c e) = profile_epoch c.
Proof. unfold table_step, gc_profile. by repeat case_match. Qed.

(** A step that keeps the rows and at most drops profiles or moves the epoch on. *)
Lemma current_shrink s c :
  Current s -> (forall q pr, profiles c !! q = Some pr -> profiles (cache s) !! q = Some pr) ->
  profile_epoch (cache s) <= profile_epoch c -> Current (with_cache c s).
Proof.
  intros [H1 H2 H3] Hp He. split; simpl; [done| |].
  - intros p pr Hc. apply H2. by apply Hp.
  - eapply Forall_impl; [exact H3|]. intros [?|? e|p e pr|p e pr]; simpl; try done; [lia|..];
      intros [Hle Hm]; (split; [lia|]); intros -> Hch; (apply Hm; [lia|done]).
Qed.

Lemma call_step s n a :
  Current s -> Current (pstep s (PCall n a)).
Proof.
  intros [H1 H2 H3]. simpl. destruct (calls s !! n) as [t|] eqn:Et; [|done].
  pose proof (Forall_lookup_1 _ _ _ _ H3 Et) as Ht.
  destruct t as [p|p e|p e pr|p e pr]; simpl in *.
  - split; simpl; [done|done|]. apply Forall_insert; [done|]. destruct (profiles (cache s) !! p) as [pr|] eqn:Ep; simpl; [|lia].
    split; [lia|]. intros _. by apply H2.
  - destruct (failed a); [split; simpl; [done..|by apply Forall_delete]|].
    destruct (rows s !! p) as [row|] eqn:Er; simpl; split; simpl; try done; [|by apply Forall_delete].
    apply Forall_insert; [done|]. simpl. split; [done|]. intros _ _. by exists row.
  - destruct (failed a); split; simpl; try done; [by apply Forall_delete|]. by apply Forall_insert.
  - case_bool_decide as He; simpl; (split; simpl; [done| |]).
    + intros q pr' [[<- <-]|[_ ?]]%lookup_insert_Some; [|by apply H2]. by apply Ht.
    + by apply Forall_delete.
    + done.
    + by apply Forall_insert.
Qed.

Lemma persist_step s row : Current s -> Current (pstep s (PPersist row)).
Proof.
  intros [H1 H2 H3]. simpl. destruct (changing s !! id row) as [?|] eqn:Ec; [done|].
  assert (forall q pr, q <> id row -> matches s q pr ->
    matches (mkPSys (cache s) (<[id row := row]> (rows s)) (<[id row := row]> (changing s)) (calls s)) q pr) as Hm.
  { intros q pr Hne (r & Hr & Hf). exists r. simpl. by rewrite lookup_insert_ne. }
  split; simpl.
  - intros q r [[<- <-]|[Hne Hq]]%lookup_insert_Some; [by rewrite lookup_insert_eq|].
    rewrite lookup_insert_ne by done. by apply H1.
  - intros q pr Hq [Hch Hne]%lookup_insert_None. apply Hm; [done|]. by apply H2.
  - eapply Forall_impl; [exact H3|]. intros [?|? e|p e pr|p e pr]; simpl; try done;
      intros [Hle Hp]; (split; [done|]); intros He [Hch Hne]%lookup_insert_None; (apply Hm; [done|]; by apply Hp).
Qed.

Lemma changed_cache row r c q :
  profiles (presence_profile_changed row r c).1 !! q =
  match profiles c !! q with
  | Some pr => Some (if bool_decide (q = id row) then with_role (profile_of row) r else pr)
  | None => None
  end.
Proof.
  unfold presence_profile_changed. destruct (decide (q = id row)) as [->|Hne].
  - destruct (profiles c !! id row) as [cached|] eqn:Ec; simpl; [|by rewrite Ec].
    rewrite (bool_decide_true (id row = id row)) by done.
    case_bool_decide as E; simpl; [by rewrite Ec, E|by rewrite lookup_insert_eq].
  - rewrite (bool_decide_false (q = id row)) by done.
    destruct (profiles c !! id row) as [cached|]; [case_bool_decide|]; simpl;
      rewrite ?lookup_insert_ne by done; by destruct (profiles c !! q).
Qed.

Lemma changed_epoch row r c : profile_epoch (presence_profile_changed row r c).1 = profile_epoch c + 1.
Proof. unfold presence_profile_changed. by repeat case_match. Qed.

Lemma announce_step s p r : Current s -> Current (pstep s (PChanged p (Some r))).
Proof.
  intros [H1 H2 H3]. simpl. destruct (changing s !! p) as [row|] eqn:Ec; [|done].
  destruct (H1 _ _ Ec) as [Hrow Hid]. split; simpl.
  - intros q r' [_ ?]%lookup_delete_Some. by apply H1.
  - intros q pr. rewrite changed_cache, Hid. destruct (profiles (cache s) !! q) as [pr0|] eqn:Eq; [|done].
    intros [= <-] Hch. case_bool_decide as Ep; [subst q; by exists row|].
    rewrite lookup_delete_ne in Hch by done. exact (H2 _ _ Eq Hch).
  - eapply Forall_impl; [exact H3|]. intros [?|? e|q e pr|q e pr]; simpl; try done; rewrite changed_epoch; lia.
Qed.

Lemma current_step s e : announced e -> Current s -> Current (pstep s e).
Proof.
  intros Ha HC. destruct e as [e|p|n a|row|p [r|]|p]; [..|done|].
  - apply current_shrink; [done|apply table_step_profiles|by rewrite table_step_epoch].
  - destruct HC as [H1 H2 H3]. split; simpl; [done..|]. apply Forall_app. split; [done|]. by repeat constructor.
  - by apply call_step.
  - by apply persist_step.
  - by apply announce_step.
  - apply current_shrink; [done|done|]. simpl. lia.
Qed.


(** ** The focus snapshot is current *)

Definition bumps (e : Event) : nat := match e with EUpdate _ _ _ _ _ | EDisconnect _ => 1 | _ => 0 end.

Lemma release_focus key p c l s : focus_generation (release_lease key p c l s).1 = focus_generation s.
Proof. unfold release_lease. by repeat case_match. Qed.

Lemma releases_focus p c l acc : focus_generation (foldl (release_one p c) acc l).1 = focus_generation acc.1.
Proof.
  revert acc. induction l as [|kv l IH]; intros acc; simpl; [done|]. rewrite IH. unfold release_one.
  pose proof (release_focus kv.2 p c kv.1 acc.1) as H. by destruct (release_lease _ _ _ _ _).
Qed.

Lemma caret_focus s c key p caret now :
  focus_generation (note_presence_update_op s c key p caret now).1 = focus_generation s.
Proof.
  unfold note_presence_update_op. destruct (match conns s !! c with Some _ => _ | None => _ end); [|done].
  destruct (viewer s key p) as [v|]; [|done]. by destruct (offer _ _ _).
Qed.

Lemma flush_focus s key p gen member now :
  focus_generation (trailing_flush s key p gen member now).1 = focus_generation s.
Proof.
  unfold trailing_flush. destruct (viewer s key p) as [v|]; [|done]. case_bool_decide; [|done].
  by destruct (flush _ _) as [t []].
Qed.

Lemma generation_step s e :
  focus_generation (st (step s e)) =
  if bool_decide (bumps e = 0%nat) then focus_generation (st s) else wrapping_add u64_max (focus_generation (st s)) 1.
Proof.
  unfold step. destruct (perform s e) as [t outs] eqn:Ep. simpl. assert (t = (perform s e).1) as -> by (by rewrite Ep).
  clear Ep. destruct e; simpl; try done.
  - unfold presence_update_op. simpl. destruct (conns (st s) !! c); [|done].
    by destruct (set_typing _ _ _), (set_discussion _ _ _).
  - unfold presence_disconnect_op. simpl. destruct (conns (st s) !! c) as [conn|]; [|done].
    pose proof (releases_focus (principal conn) c (map_to_list (leases conn))
      (set_conns (delete c (conns (st s))) (bump_focus (st s)), [])) as H. by destruct (foldl _ _ _).
  - unfold note_presence_join_op. by case_match.
  - unfold note_presence_leave_op. destruct (conns (st s) !! c) as [conn|]; [|done].
    destruct (leases conn !! lease) as [key|]; [|done].
    set (s1 := set_conns _ _). pose proof (release_focus key (principal conn) c lease s1) as H.
    by destruct (release_lease _ _ _ _ _).
  - pose proof (caret_focus (st s) c key p caret (clock s)) as H. by destruct (note_presence_update_op _ _ _ _ _ _).
  - destruct (timers s !! n) as [tm|]; [|done]. destruct (_ <=? _); [|done]. apply flush_focus.
Qed.

Definition total_bumps (es : list Event) : nat := sum_list_with bumps es.

Lemma generation_run s es :
  0 <= focus_generation (st s) <= u64_max ->
  focus_generation (st (run s es)) = (focus_generation (st s) + Z.of_nat (total_bumps es)) mod (u64_max + 1) /\
  0 <= focus_generation (st (run s es)) <= u64_max.
Proof.
  revert s. induction es as [|e es IH]; intros s Hg; simpl.
  - rewrite Z.add_0_r, Z.mod_small by (unfold u64_max in *; lia). done.
  - assert (0 <= focus_generation (st (step s e)) <= u64_max) as Hg'.
    { rewrite generation_step. case_bool_decide; [done|]. unfold wrapping_add.
      pose proof (Z.mod_pos_bound (focus_generation (st s) + 1) (u64_max + 1) eq_refl). lia. }
    destruct (IH (step s e) Hg') as [E ?]. split; [|done].
    change (run s (e :: es)) with (run (step s e) es). rewrite E, generation_step.
    case_bool_decide as Hb; [by rewrite Hb|]. assert (bumps e = 1%nat) as -> by (by destruct e).
    unfold wrapping_add. rewrite Zplus_mod_idemp_l. f_equal. fold (total_bumps es). lia.
Qed.

(** A generation seen twice means no focus moved in between. *)
Lemma generation_same s es :
  0 <= focus_generation (st s) <= u64_max -> len es <= u64_max ->
  focus_generation (st (run s es)) = focus_generation (st s) -> total_bumps es = 0%nat.
Proof.
  intros Hg Hl E. destruct (generation_run s es Hg) as [E' _]. rewrite E' in E. clear E'.
  assert (total_bumps es <= length es)%nat as Hb.
  { clear. induction es as [|e es IH]; simpl; [done|]. assert (bumps e <= 1)%nat by (destruct e; simpl; lia).
    fold (total_bumps es). lia. }
  unfold len in Hl. set (n := Z.of_nat (total_bumps es)) in *.
  assert (0 <= n <= u64_max) as Hn by lia.
  destruct (decide (focus_generation (st s) + n <= u64_max)) as [Hs|Hs].
  - rewrite Z.mod_small in E by lia. lia.
  - replace (focus_generation (st s) + n) with ((focus_generation (st s) + n - (u64_max + 1)) + 1 * (u64_max + 1)) in E by lia.
    rewrite Z.mod_add, Z.mod_small in E by (unfold u64_max in *; lia). lia.
Qed.

(** *** What is shown *)

Definition shows (p : string) (f : Focus) (conn : Conn) : Prop :=
  hello conn = true /\ principal conn = p /\ f ∈ focus conn.

Definition shown (s : State) (p : string) (f : Focus) : Prop :=
  exists c conn, conns s !! c = Some conn /\ shows p f conn.

Lemma focus_candidates_spec s p j :
  j ∈ focus_candidates s p <-> exists f, j = focus_json f /\ shown s p f.
Proof.
  unfold focus_candidates, shown, shows. rewrite list_elem_of_fmap. setoid_rewrite list_elem_of_bind.
  setoid_rewrite list_elem_of_In. setoid_rewrite filter_In. setoid_rewrite <- list_elem_of_In.
  setoid_rewrite elem_of_rows. setoid_rewrite andb_true_iff. setoid_rewrite bool_decide_eq_true. naive_solver.
Qed.

(** Only greeted connections have a focus. *)
Definition focused_hello (s : State) : Prop :=
  forall c conn, conns s !! c = Some conn -> focus conn <> [] -> hello conn = true.

(** The check of [update_allowed] still holds when the update is made. *)
Definition greeted_event (s : Sys) (e : Event) : Prop :=
  match e with
  | EUpdate c _ _ _ _ => forall conn, conns (st s) !! c = Some conn -> hello conn = true
  | _ => True
  end.

Fixpoint greeted (s : Sys) (es : list Event) : Prop :=
  match es with
  | [] => True
  | e :: es => greeted_event s e /\ greeted (step s e) es
  end.

(** One connection rewritten or dropped. *)
Definition changes_one (s s' : State) (c : string) (o : option Conn) : Prop :=
  conns s' !! c = o /\ forall c', c' <> c -> conns s' !! c' = conns s !! c'.

Lemma focused_change s s' c o :
  changes_one s s' c o -> focused_hello s -> (forall conn, o = Some conn -> focus conn <> [] -> hello conn = true) ->
  focused_hello s'.
Proof.
  intros [Hc Ho] Hf Hn c' conn. destruct (decide (c' = c)) as [->|Hne]; [rewrite Hc; apply Hn|].
  rewrite Ho by done. apply Hf.
Qed.

Lemma insert_changes s s' c conn : conns s' = <[c := conn]> (conns s) -> changes_one s s' c (Some conn).
Proof. intros E. split; [by rewrite E, lookup_insert_eq|]. intros c' ?. by rewrite E, lookup_insert_ne. Qed.

Lemma delete_changes s s' c : conns s' = delete c (conns s) -> changes_one s s' c None.
Proof. intros E. split; [by rewrite E, lookup_delete_eq|]. intros c' ?. by rewrite E, lookup_delete_ne. Qed.

(** The connection an event changes. *)
Lemma step_changes s e :
  focused_hello (st s) -> greeted_event s e ->
  conns (st (step s e)) = conns (st s) \/
  exists c o, changes_one (st s) (st (step s e)) c o /\
    (forall conn, o = Some conn -> focus conn <> [] -> hello conn = true) /\
    (bumps e = 0%nat -> forall p f, (exists x, conns (st s) !! c = Some x /\ shows p f x) <-> (exists x, o = Some x /\ shows p f x)).
Proof.
  intros Hf Hg. unfold step. destruct (perform s e) as [t outs] eqn:Ep. simpl.
  assert (t = (perform s e).1) as -> by (by rewrite Ep). clear Ep. unfold shows.
  destruct e; simpl in *; try by left.
  - right. exists c. eexists. split; [by eapply insert_changes|]. split; [by intros conn [= <-]|]. intros _ p' f.
    destruct (conns (st s) !! c) as [conn|] eqn:Ec; simpl.
    + split; intros (x & [= <-] & Hh & Hp & Hin); eexists; (split; [done|]); split_and!; simpl in *; try done.
      apply (Hf _ _ Ec). intros E. rewrite E in Hin. by apply not_elem_of_nil in Hin.
    + split; [naive_solver|]. intros (x & [= <-] & Hx). simpl in Hx. destruct Hx as (_ & _ & Hin). by apply not_elem_of_nil in Hin.
  - pose proof (update_conns (st s) c fs target discussion now) as Eu.
    destruct (presence_update_op _ _ _ _ _ _) as [t' r]. simpl in *.
    destruct (conns (st s) !! c) as [conn|] eqn:Ec; [|by left].
    destruct (set_typing _ _ _), (set_discussion _ _ _). right. exists c. eexists.
    split; [by eapply insert_changes|]. split; [|done]. intros x [= <-] _. simpl. by apply Hg.
  - right. exists c, None. split; [apply delete_changes, disconnect_conns|]. done.
  - right. exists c. eexists. split; [eapply insert_changes, join_conns|]. simpl.
    destruct (conns (st s) !! c) as [conn|] eqn:Ec; simpl.
    + split; [intros x [= <-]; simpl; by apply Hf with c|]. intros _ p' f.
      split; intros (x & [= <-] & Hx); eexists; by split.
    + split; [by intros x [= <-]|]. intros _ p' f. split; [naive_solver|].
      intros (x & [= <-] & Hx). simpl in Hx. destruct Hx as (_ & _ & Hin). by apply not_elem_of_nil in Hin.
  - pose proof (leave_conns (st s) c lease) as El. destruct (conns (st s) !! c) as [conn|] eqn:Ec; [|by left].
    case_bool_decide; [|by left]. simpl in El. right. exists c. rewrite Ec. destruct (is_empty _) eqn:Ee.
    + exists None. split; [by apply delete_changes|]. split; [done|]. intros _ p' f. split; [|by intros (x & ? & _)].
      intros (x & [= <-] & _ & _ & Hin). unfold is_empty in Ee. case_tests.
      rewrite !bool_decide_eq_true in *. simpl in *.
      match goal with H : focus conn = [] |- _ => rewrite H in Hin end. by apply not_elem_of_nil in Hin.
    + eexists. split; [by eapply insert_changes|]. split; [intros x [= <-]; simpl; by apply Hf with c|].
      intros _ p' f. split; intros (x & [= <-] & Hx); eexists; by split.
  - left. pose proof (caret_conns (st s) c key p caret (clock s)) as E.
    by destruct (note_presence_update_op _ _ _ _ _ _).
  - left. destruct (timers s !! n) as [tm|]; [|done]. destruct (_ <=? _); [|done]. apply flush_conns.
Qed.

Lemma shown_step s e :
  focused_hello (st s) -> greeted_event s e ->
  focused_hello (st (step s e)) /\ (bumps e = 0%nat -> forall p f, shown (st (step s e)) p f <-> shown (st s) p f).
Proof.
  intros Hf Hg. destruct (step_changes s e Hf Hg) as [E|(c & o & Hch & Hn & Hs)].
  - unfold focused_hello, shown. by rewrite E.
  - split; [by eapply focused_change|]. intros Hb p f. destruct Hch as [Hc Ho].
    symmetry. apply (exists_change (shows p f) _ _ c); [done|]. rewrite Hc. by apply Hs.
Qed.

Lemma shown_run s es :
  focused_hello (st s) -> greeted s es ->
  focused_hello (st (run s es)) /\ (total_bumps es = 0%nat -> forall p f, shown (st (run s es)) p f <-> shown (st s) p f).
Proof.
  revert s. induction es as [|e es IH]; intros s Hf Hg; [done|]. destruct Hg as [He Hg].
  destruct (shown_step s e Hf He) as [Hf' Hs]. destruct (IH _ Hf' Hg) as [Hf'' Hs'].
  change (run s (e :: es)) with (run (step s e) es). split; [done|]. intros Hb p f.
  unfold total_bumps in *. simpl in Hb. rewrite Hs', Hs by lia. done.
Qed.

Lemma greeted_app s es es' : greeted s (es ++ es') <-> greeted s es /\ greeted (run s es) es'.
Proof. revert s. induction es as [|e es IH]; intros s; simpl; [naive_solver|]. rewrite IH. naive_solver. Qed.

(** *** Rounds of a history *)

(** What happens before a round's read, the store's answer, and what happens until the
    generation is looked at again. *)
Record Segment := mkSegment {
  before : list Event;
  store_answer : list json -> Result json string;
  during : list Event }.

Fixpoint rounds_of (s : Sys) (l : list Segment) : list Round :=
  match l with
  | [] => []
  | g :: l =>
      let s1 := run s (before g) in
      let s2 := run s1 (during g) in
      mkRound (st s1) (store_answer g) (st s2) :: rounds_of s2 l
  end.

Definition events_of (l : list Segment) : list Event := l ≫= fun g => before g ++ during g.

Definition moved (r : Round) : Prop := focus_generation (at_check r) <> focus_generation (at_read r).

(** A round that did not move saw the focus that is there when it answers. *)
Lemma round_still s g p :
  focused_hello (st s) -> 0 <= focus_generation (st s) <= u64_max -> greeted s (before g ++ during g) ->
  len (during g) <= u64_max ->
  let r := mkRound (st (run s (before g))) (store_answer g) (st (run (run s (before g)) (during g))) in
  ~ moved r -> forall j, j ∈ focus_candidates (at_check r) p <-> j ∈ focus_candidates (at_read r) p.
Proof.
  intros Hf Hr Hg Hl r Hm j. apply greeted_app in Hg as [Hg1 Hg2].
  destruct (shown_run _ _ Hf Hg1) as [Hf1 _]. destruct (generation_run s (before g) Hr) as [_ Hr1].
  unfold moved in Hm. simpl in *. rewrite !focus_candidates_spec.
  apply dec_stable in Hm. pose proof (generation_same _ _ Hr1 Hl Hm) as Hb.
  destruct (shown_run _ _ Hf1 Hg2) as [_ Hs]. by setoid_rewrite (Hs Hb p).
Qed.

Lemma focus_rounds_current ws p n s l answer :
  focused_hello (st s) -> 0 <= focus_generation (st s) <= u64_max -> greeted s (events_of l) ->
  Forall (fun g => len (during g) <= u64_max) l ->
  focus_rounds ws p n (rounds_of s l) = Some (Ok answer) ->
  (answer = focus_answer ws p JNull /\ (n <= length l)%nat /\ Forall moved (take n (rounds_of s l))) \/
  exists r target, r ∈ rounds_of s l /\ answer = focus_answer ws p target /\
    authorized r (focus_candidates (at_read r) p) = Ok target /\
    forall j, j ∈ focus_candidates (at_check r) p <-> j ∈ focus_candidates (at_read r) p.
Proof.
  revert s l. induction n as [|n IH]; intros s l Hf Hr Hg Hl; [intros [= <-]; left; split_and!; [done|lia|constructor]|].
  destruct l as [|g l]; [done|]. simpl. apply Forall_cons in Hl as [Hlg Hl].
  change (events_of (g :: l)) with ((before g ++ during g) ++ events_of l) in Hg. apply greeted_app in Hg as [Hgg Hg].
  set (s1 := run s (before g)). set (s2 := run s1 (during g)).
  assert (run s (before g ++ during g) = s2) as E2 by (unfold run, s2, s1; apply foldl_app). rewrite E2 in Hg.
  destruct (shown_run _ _ Hf Hgg) as [Hf2 _]. rewrite E2 in Hf2.
  destruct (generation_run s (before g ++ during g) Hr) as [_ Hr2]. rewrite E2 in Hr2.
  pose proof (round_still s g p Hf Hr Hgg Hlg) as Hst. simpl in Hst. fold s1 s2 in Hst.
  destruct (store_answer g (focus_candidates (st s1) p)) as [target|] eqn:Ea; [|done].
  case_bool_decide as Hm.
  - intros Hrest. destruct (IH s2 l Hf2 Hr2 Hg Hl Hrest) as [(-> & Hn & Hmv)|(r & tg & Hin & Hrr)].
    + left. split_and!; [done|lia|]. by constructor.
    + right. exists r, tg. split; [by right|done].
  - intros [= <-]. right. eexists _, target. split; [by left|]. split_and!; [done..|]. apply Hst. unfold moved. simpl.
    by intros ?.
Qed.

(** A focus answered is the focus of that moment.  On any history, cut into the rounds
    of one snapshot by its reads, a snapshot that answers either gives the target the store
    authorized for exactly the focus items the person's greeted connections have when it
    answers, or gives none, and then the focus moved in each of its four rounds. *)
Theorem presence_focus_current ws p es l answer :
  let s := run initial es in
  greeted initial (es ++ events_of l) -> Forall (fun g => len (during g) <= u64_max) l ->
  presence_focus_snapshot_op ws p (rounds_of s l) = Some (Ok answer) ->
  (answer = focus_answer ws p JNull /\ (4 <= length l)%nat /\ Forall moved (take 4 (rounds_of s l))) \/
  exists r target, r ∈ rounds_of s l /\ answer = focus_answer ws p target /\
    authorized r (focus_candidates (at_read r) p) = Ok target /\
    forall j, j ∈ focus_candidates (at_check r) p <-> j ∈ focus_candidates (at_read r) p.
Proof.
  intros s [Hg0 Hg]%greeted_app Hl. destruct (shown_run initial es) as [Hf _]; [|done|].
  { intros c conn H. by apply (lookup_empty_Some c conn) in H. }
  destruct (generation_run initial es) as [_ Hr]; [done|]. by apply focus_rounds_current.
Qed.

(** ** A changed profile is shown everywhere *)

Lemma viewed_spec s p kv :
  kv ∈ viewed s p <-> exists v, viewer s kv.1 p = Some v /\ kv.2 = cursor v.
Proof.
  unfold viewed, viewer. rewrite sort_by_perm, list_elem_of_omap. split.
  - intros ([k m] & Hin%elem_of_map_to_list & (v & Hv & [= <-])%bind_Some). simpl in *. exists v.
    by rewrite Hin.
  - destruct kv as [k x]. simpl. intros (v & (m & Hm & Hv)%bind_Some & ->). exists (k, m).
    split; [by apply elem_of_map_to_list|]. simpl. by rewrite Hv.
Qed.

(** A changed profile that was cached is sent with the caret of every note its principal
    views, and to its workspaces when it is online; nothing is sent otherwise. *)
Lemma profile_change_sends row r c o :
  o ∈ (presence_profile_changed row r c).2 <->
  (exists cached, profiles c !! id row = Some cached /\ cached <> with_role (profile_of row) r) /\
  ((exists key v, viewer (st (base c)) key (id row) = Some v /\ o = ONote key (id row) Updated (cursor v)) \/
   (is_online (st (base c)) (id row) = true /\ o = OMemberships (id row))).
Proof.
  unfold presence_profile_changed. destruct (profiles c !! id row) as [cached|]; simpl.
  2: { rewrite elem_of_nil. naive_solver. }
  case_bool_decide as E; simpl; [rewrite elem_of_nil; naive_solver|].
  rewrite elem_of_app, list_elem_of_fmap. setoid_rewrite viewed_spec.
  assert (o ∈ (if is_online (st (base c)) (id row) then [OMemberships (id row)] else []) <->
          is_online (st (base c)) (id row) = true /\ o = OMemberships (id row)) as ->.
  { destruct (is_online _ _); [rewrite list_elem_of_singleton|rewrite elem_of_nil]; naive_solver. }
  split.
  - intros [([k x] & -> & v & Hv & ->)|H]; (split; [eauto|]); [left; eauto|by right].
  - intros [_ [(k & v & Hv & ->)|H]]; [|by right]. left. exists (k, cursor v). eauto.
Qed.

(** ** Runs *)

Definition ann (name : string) : Principal := mkPrincipal "ann" None (Some 7) (Some name) None None true.

Definition answers_owner : Answer := mkAnswer false Owner.

(** A call reads the old row, the row is changed and announced, and the call starts
    over instead of installing what it read. *)
Definition renamed_in_flight : list PEvent :=
  [ PEnsure "ann"; PCall 0 answers_owner; PCall 0 answers_owner; PPersist (ann "new"); PCall 0 answers_owner;
    PChanged "ann" (Some Owner); PCall 0 answers_owner; PCall 0 answers_owner; PCall 0 answers_owner;
    PCall 0 answers_owner; PCall 0 answers_owner ].


(** The focus moves during the first round and stays during the second. *)
Definition first_focus : Segment :=
  mkSegment [] (fun _ => Ok JNull) [EUpdate "c" [mkFocus "w" None (Some "m")] None None "t1"].
Definition second_focus : Segment := mkSegment [ETick 5] (fun l => Ok (JArray l)) [].

Definition greeting : list Event :=
  [EConnect "c" "ann" "s"; EUpdate "c" [mkFocus "w" None (Some "n")] None None "t0"].

Lemma presence_focus_current_witness :
  exists answer, presence_focus_snapshot_op "w" "ann" (rounds_of (run initial greeting) [first_focus; second_focus]) = Some (Ok answer) /\
  ((answer = focus_answer "w" "ann" JNull /\ (4 <= length [first_focus; second_focus])%nat /\
    Forall moved (take 4 (rounds_of (run initial greeting) [first_focus; second_focus]))) \/
   exists r target, r ∈ rounds_of (run initial greeting) [first_focus; second_focus] /\
     answer = focus_answer "w" "ann" target /\ authorized r (focus_candidates (at_read r) "ann") = Ok target /\
     forall j, j ∈ focus_candidates (at_check r) "ann" <-> j ∈ focus_candidates (at_read r) "ann").
Proof.
  exists (focus_answer "w" "ann" (JArray [focus_json (mkFocus "w" None (Some "m"))])).
  split; [vm_compute; reflexivity|].
  apply (presence_focus_current "w" "ann" greeting [first_focus; second_focus]).
  - simpl. split_and!; try done; intros conn; vm_compute; by intros [= <-].
  - repeat constructor; vm_compute; discriminate.
  - vm_compute. reflexivity.
Defined.

(** An announcement whose role read fails moves no epoch and leaves the old profile. *)
Example unannounced_change_sticks :
  let s := prun (start {["ann" := ann "old"]})
    [ PEnsure "ann"; PCall 0 answers_owner; PCall 0 answers_owner; PCall 0 answers_owner; PCall 0 answers_owner;
      PPersist (ann "new"); PChanged "ann" None ] in
  changing s = ∅ /\ profile_epoch (cache s) = 0 /\
  p_login <$> profiles (cache s) !! "ann" = Some (Some "old") /\ login <$> rows s !! "ann" = Some (Some "new").
Proof. vm_compute. done. Qed.
