(* ===== verification/Supervisor.v ===== *)
(** * The sitter's supervisor ([crates/intentd-sitter/src/supervisor.rs])

    The process that keeps the daemon running and up to date, as built on Unix: the
    startup check, spawning, the wait for a child, crash recovery with its backoff, the
    scheduled, idle and manual update checks, restarts and shutdown.  The supervisor is
    one task; a phase is an await of it, and an event is what resumes it.  The updater,
    the child, the signals, the clocks and the state file's other writers answer by
    event.  Durations and instants are nanoseconds, dates are UTC days. *)
From stdpp Require Import prelude strings gmap.
From S2P Require Import Prelude.

(** ** Configuration *)

Definition secs (n : Z) : Z := n * 1000000000.
Definition DURATION_MAX : Z := secs u64_max + 999999999.

Record SupervisorConfig := mkConfig {
  check_min : Z;
  check_max : Z;
  tick_min : Z;
  tick_max : Z;
  staged_restart_after : Z;
  backoff_initial : Z;
  backoff_cap : Z;
  backoff_reset_after : Z;
  give_up_after_failures : Z;
  kill_timeout : Z }.

Definition default_config : SupervisorConfig :=
  mkConfig (secs (12 * 60 * 60)) (secs (24 * 60 * 60)) (secs (50 * 60)) (secs (70 * 60)) (secs (24 * 60 * 60))
    (secs 1) (secs 60) (secs (5 * 60)) 10 (secs 90).

Definition next_check_delay (min_ max_ random : Z) : Z :=
  let span := saturating_sub max_ min_ in
  if span =? 0 then min_
  else
    let offset := random mod span in
    min_ + (if offset <=? u64_max then offset else u64_max).

Inductive Channel := Stable | Beta | Alpha.
Inductive Cadence := Daily | Periodic.
Inductive ChannelOrigin := FromFlag | FromEnv | FromConfig | FromDefault.

#[global] Instance Cadence_eq_dec : EqDecision Cadence.
Proof. solve_decision. Defined.

Definition cadence_for (c : Channel) : Cadence :=
  match c with Stable => Daily | Beta | Alpha => Periodic end.

Definition daily_check_due (last_success : option Z) (today : Z) : bool :=
  match last_success with None => true | Some at_ => negb (at_ =? today) end.

(** ** Child statuses and signals *)

Inductive ExitStatus := Code (c : Z) | Signalled (s : Z).

Definition RESTART_FOR_UPDATE_EXIT_CODE : Z := 75.

Definition success (s : ExitStatus) : bool := match s with Code c => c =? 0 | Signalled _ => false end.

Definition exit_code (s : ExitStatus) : Z := match s with Code c => c | Signalled n => 128 + n end.

Definition is_restart_for_update (s : ExitStatus) : bool :=
  match s with Code c => c =? RESTART_FOR_UPDATE_EXIT_CODE | Signalled _ => false end.

Inductive SignalEvent := Shutdown (signal : Z) | Restart | CheckNow | CheckNowIdle.

(** What arrives: a signal, or a connection to the private stop socket. *)
Inductive Arrival := Term | Int | Hup | Usr1 | Usr2 | StopConnection.

(** ** Update checks *)

Inductive UpdateOutcome := Installed (version : string) | AlreadyCurrent (version : string).
Inductive CheckTrigger := CStartup | CDaily | CIdle | CManual.
Inductive RestartStyle := Now | WhenIdle.

(** What the supervisor reads from disk: the version and the last check of the state
    file, the versions whose binary exists, the channel of the configuration. *)
Record Disk := mkDisk {
  current_version : option string;
  last_check_at : option Z;
  binaries : gset string;
  config_channel : option Channel }.

(** How a graceful stop ended: the child was or went away, the wait failed, it was
    killed, or the kill failed. *)
Inductive StopResult := StopExited | StopError | StopKilled | StopKillFailed.

Definition stopped (r : StopResult) : bool :=
  match r with StopExited | StopKilled => true | StopError | StopKillFailed => false end.

Definition forced (r : StopResult) : bool :=
  match r with StopKilled | StopKillFailed => true | StopExited | StopError => false end.

(** ** The supervisor's state *)

(** What follows a graceful stop. *)
Inductive AfterStop := ThenVersion (v : string) | ThenRefresh | ThenExit.

(** The await the task is at. *)
Inductive Phase :=
| StartupCheck (ch : Channel) (deadline : Z)
| Spawning
| Readiness
| Running (since : Z)
| TickCheck (since : Z) (ch : Channel)
| NowCheck (since : Z) (ch : Channel) (style : RestartStyle) (trigger : CheckTrigger)
| FailedCheck (ch : Channel)
| BackingOff (until : Z)
| BackoffCheck (ch : Channel)
| Stopping (after : AfterStop) (deadline : Z)
| Forwarded (signal : Z) (deadline : Z)
| Exited (code : Z).

(** What it did, for the statements: spawns (with the update marker), the end of a
    child, a child whose end is not known, failed starts with how long they were up,
    clearings of the backoff, waits, giving up, finished checks (those after a failed start
    apart), hand-overs of a staged version and received shutdowns. *)
Inductive Obs :=
| OSpawn (v : string) (update_restart : bool)
| OGone
| OLost
| OFailed (uptime : option Z)
| OFresh
| OBackoff (d : Z)
| OGiveUp
| OChecked (t : CheckTrigger) (ok : bool) (day : Z)
| ORechecked (ok : bool) (day : Z)
| OUsr2
| OShutdown.

Record Sup := mkSup {
  disk : Disk;
  clock : Z;
  today : Z;
  phase : Phase;
  version : string;
  backoff : Z;
  failures : Z;
  last_ran_version : option string;
  staged_at : option Z;
  next_check_at : Z;
  starting : bool;
  stop_connection : bool;
  log : list Obs }.

Definition set_disk x s := mkSup x (clock s) (today s) (phase s) (version s) (backoff s) (failures s) (last_ran_version s) (staged_at s) (next_check_at s) (starting s) (stop_connection s) (log s).
Definition set_time c d s := mkSup (disk s) c d (phase s) (version s) (backoff s) (failures s) (last_ran_version s) (staged_at s) (next_check_at s) (starting s) (stop_connection s) (log s).
Definition set_phase x s := mkSup (disk s) (clock s) (today s) x (version s) (backoff s) (failures s) (last_ran_version s) (staged_at s) (next_check_at s) (starting s) (stop_connection s) (log s).
Definition set_version x s := mkSup (disk s) (clock s) (today s) (phase s) x (backoff s) (failures s) (last_ran_version s) (staged_at s) (next_check_at s) (starting s) (stop_connection s) (log s).
Definition set_backoff x s := mkSup (disk s) (clock s) (today s) (phase s) (version s) x (failures s) (last_ran_version s) (staged_at s) (next_check_at s) (starting s) (stop_connection s) (log s).
Definition set_failures x s := mkSup (disk s) (clock s) (today s) (phase s) (version s) (backoff s) x (last_ran_version s) (staged_at s) (next_check_at s) (starting s) (stop_connection s) (log s).
Definition set_last_ran x s := mkSup (disk s) (clock s) (today s) (phase s) (version s) (backoff s) (failures s) x (staged_at s) (next_check_at s) (starting s) (stop_connection s) (log s).
Definition set_staged_at x s := mkSup (disk s) (clock s) (today s) (phase s) (version s) (backoff s) (failures s) (last_ran_version s) x (next_check_at s) (starting s) (stop_connection s) (log s).
Definition set_next_check x s := mkSup (disk s) (clock s) (today s) (phase s) (version s) (backoff s) (failures s) (last_ran_version s) (staged_at s) x (starting s) (stop_connection s) (log s).
Definition set_starting x s := mkSup (disk s) (clock s) (today s) (phase s) (version s) (backoff s) (failures s) (last_ran_version s) (staged_at s) (next_check_at s) x (stop_connection s) (log s).
Definition set_stop_connection x s := mkSup (disk s) (clock s) (today s) (phase s) (version s) (backoff s) (failures s) (last_ran_version s) (staged_at s) (next_check_at s) (starting s) x (log s).
Definition emit o s := mkSup (disk s) (clock s) (today s) (phase s) (version s) (backoff s) (failures s) (last_ran_version s) (staged_at s) (next_check_at s) (starting s) (stop_connection s) (log s ++ [o]).

(** ** Reading the state file *)

Definition installed_version (d : Disk) : option string :=
  v ← current_version d; if bool_decide (v ∈ binaries d) then Some v else None.

Definition staged_version (running : string) (s : Sup) : option string :=
  v ← installed_version (disk s); if bool_decide (v <> running) then Some v else None.

Definition refresh_version_from_state (s : Sup) : Sup :=
  match installed_version (disk s) with Some v => set_version v s | None => s end.

Definition daily_check_is_due (s : Sup) : bool := daily_check_due (last_check_at (disk s)) (today s).

(** ** Events *)

Inductive Event :=
| EWorld (d : Disk)
| ETime (elapsed : N) (day : Z)
| ESpawned (ok : bool)
| EReady
| ENotReady
| EChildExit (status : option ExitStatus)
| ECheckDone (r : option UpdateOutcome) (random : Z) (persisted : bool)
| ETimer (random : Z) (persisted : bool)
| ESignal (a : Arrival) (random : Z)
| EStopped (r : StopResult)
| EKilled (ok : bool).

Section supervisor.
(** The configuration, whether the command is [serve], the channel at startup and the
    time a launch may take. *)
Context (cfg : SupervisorConfig) (supervised : bool) (origin : ChannelOrigin) (pinned : Channel) (startup_timeout : Z).

Definition effective_channel (s : Sup) : Channel :=
  match origin with
  | FromFlag | FromEnv => pinned
  | FromConfig | FromDefault => default Stable (config_channel (disk s))
  end.

Definition tick_delay (random : Z) : Z := next_check_delay (tick_min cfg) (tick_max cfg) random.

(** [persisted]: the state file was locked and written. *)
Definition finish_check (ch : Channel) (record_success : bool) (random : Z) (persisted : bool) (s : Sup) : Sup :=
  let delay := match cadence_for ch with
               | Daily => tick_delay random
               | Periodic => next_check_delay (check_min cfg) (check_max cfg) random
               end in
  let d := disk s in
  let s := if record_success && persisted
           then set_disk (mkDisk (current_version d) (Some (today s)) (binaries d) (config_channel d)) s else s in
  set_next_check (clock s + delay) s.

(** ** Moves shared by the arms *)

Definition exit_with (code : Z) (s : Sup) : Sup := set_phase (Exited code) s.

Definition finish_stop (code : Z) (s : Sup) : Z := if stop_connection s then 0 else code.

(** The backoff and the failure counter start over. *)
Definition clear_failures (s : Sup) : Sup := set_failures 0 (set_backoff (backoff_initial cfg) s).
Definition fresh (s : Sup) : Sup := emit OFresh (clear_failures s).

Definition respawn (v : string) (s : Sup) : Sup := set_phase Spawning (fresh (set_version v s)).
Definition restart (s : Sup) : Sup := set_phase Spawning (fresh (refresh_version_from_state s)).

(** The version a finished check asks for, if any: installed by it, or found installed
    and not the running one. *)
Definition found_version (r : option UpdateOutcome) (s : Sup) : option string :=
  match r with
  | Some (Installed v) => Some v
  | Some (AlreadyCurrent v) => if bool_decide (v <> version s) && bool_decide (v ∈ binaries (disk s)) then Some v else None
  | None => None
  end.

Definition is_ok (r : option UpdateOutcome) : bool := match r with Some _ => true | None => false end.

(** Forwarding SIGUSR2 for a staged version. *)
Definition hand_over (s : Sup) : Sup :=
  set_staged_at (Some (default (clock s) (staged_at s))) (emit OUsr2 s).

(** Ask the child to stop, and wait for it as long as the configuration says. *)
Definition graceful_stop (after : AfterStop) (s : Sup) : Sup :=
  set_phase (Stopping after (clock s + kill_timeout cfg)) s.

(** ** Spawning *)

Definition enter_running (s : Sup) : Sup :=
  set_phase (Running (clock s)) (set_staged_at None (set_last_ran (Some (version s)) s)).

(** [uptime] is [None] for a binary that could not be spawned. *)
Definition failed_start (uptime : option Z) (s : Sup) : Sup :=
  let s := emit (OFailed uptime) (set_failures (failures s + 1) s) in
  set_phase (FailedCheck (effective_channel s)) s.

Definition update_restart (s : Sup) : bool :=
  match last_ran_version s with Some v => bool_decide (v <> version s) | None => false end.

Definition on_spawned (ok : bool) (s : Sup) : Sup :=
  if ok then
    let s := emit (OSpawn (version s) (update_restart s)) s in
    if starting s then set_phase Readiness s else enter_running s
  else if negb supervised || starting s then exit_with 1 s
  else failed_start None s.

Definition on_ready (s : Sup) : Sup := enter_running (set_starting false s).

(** ** The wait arm *)

(** [None]: the wait itself failed. *)
Definition on_child_exit (status : option ExitStatus) (since : Z) (s : Sup) : Sup :=
  let s := emit (match status with Some _ => OGone | None => OLost end) s in
  let crashed :=
    let up := saturating_sub (clock s) since in
    failed_start (Some up) (if backoff_reset_after cfg <=? up then clear_failures s else s) in
  match status with
  | Some st =>
      if success st then exit_with 0 s
      else if negb supervised then exit_with (exit_code st) s
      else if is_restart_for_update st then restart s
      else crashed
  | None => if negb supervised then exit_with 1 s else crashed
  end.

(** ** Failed starts *)

Definition backoff_sleep (s : Sup) : Sup :=
  let delay := backoff s in
  set_phase (BackingOff (clock s + delay))
    (set_backoff (Z.min (Z.min (backoff s * 2) DURATION_MAX) (backoff_cap cfg)) (emit (OBackoff delay) s)).

Definition nothing_newer (s : Sup) : Sup :=
  if give_up_after_failures cfg <=? failures s then exit_with 0 (emit OGiveUp s) else backoff_sleep s.

(** [check_after_failed_start] when its check is done. *)
Definition failed_check_done (ch : Channel) (r : option UpdateOutcome) (random : Z) (persisted : bool) (s : Sup) : Sup :=
  let s := finish_check ch (is_ok r) random persisted (emit (ORechecked (is_ok r) (today s)) s) in
  match found_version r s with
  | Some v => respawn v s
  | None => nothing_newer s
  end.

(** [check_now] out of a backoff, when its check is done; a manual check. *)
Definition backoff_check_done (ch : Channel) (r : option UpdateOutcome) (random : Z) (persisted : bool) (s : Sup) : Sup :=
  let s := finish_check ch false random persisted (emit (OChecked CManual (is_ok r) (today s)) s) in
  match found_version r s with
  | Some v => respawn v s
  | None => set_phase Spawning (fresh s)
  end.

(** ** The scheduled check *)

Definition force_staged (since : Z) (s : Sup) : Sup :=
  match staged_at s with
  | Some at_ =>
      if staged_restart_after cfg <=? saturating_sub (clock s) at_ then
        match staged_version (version s) s with
        | Some v => graceful_stop (ThenVersion v) s
        | None => set_phase (Running since) (set_staged_at None s)
        end
      else set_phase (Running since) s
  | None => set_phase (Running since) s
  end.

Definition tick_check_done (since : Z) (ch : Channel) (r : option UpdateOutcome) (random : Z) (persisted : bool) (s : Sup) : Sup :=
  let s := emit (OChecked CDaily (is_ok r) (today s)) s in
  let found := found_version r s in
  let s := finish_check ch (is_ok r) random persisted s in
  match cadence_for ch with
  | Daily => force_staged since (match found with Some _ => hand_over s | None => s end)
  | Periodic =>
      match found with
      | Some v => graceful_stop (ThenVersion v) s
      | None => set_phase (Running since) s
      end
  end.

(** The timer of the select: a tick that is not due checks nothing. *)
Definition on_tick (since : Z) (random : Z) (persisted : bool) (s : Sup) : Sup :=
  let ch := effective_channel s in
  match cadence_for ch with
  | Daily =>
      if daily_check_is_due s then set_phase (TickCheck since ch) s
      else force_staged since (finish_check ch false random persisted s)
  | Periodic => set_phase (TickCheck since ch) s
  end.

(** ** On-demand checks *)

Definition now_check_done (since : Z) (ch : Channel) (style : RestartStyle) (trigger : CheckTrigger)
    (r : option UpdateOutcome) (random : Z) (persisted : bool) (s : Sup) : Sup :=
  let automatic := match trigger with CIdle => true | _ => false end in
  let s := finish_check ch (automatic && is_ok r) random persisted (emit (OChecked trigger (is_ok r) (today s)) s) in
  match found_version r s with
  | Some v =>
      match style with
      | Now => graceful_stop (ThenVersion v) s
      | WhenIdle => set_phase (Running since) (hand_over s)
      end
  | None => set_phase (Running since) s
  end.

(** ** Signals *)

(** Only a [serve] has a stop socket. *)
Definition recv (a : Arrival) (s : Sup) : option (Sup * SignalEvent) :=
  match a with
  | StopConnection => if supervised then Some (set_stop_connection true s, Shutdown 15) else None
  | Term => Some (s, Shutdown 15)
  | Int => Some (s, Shutdown 2)
  | Hup => Some (s, Restart)
  | Usr1 => Some (s, CheckNow)
  | Usr2 => Some (s, CheckNowIdle)
  end.

(** Forward the signal to the child and wait for it. *)
Definition forward_shutdown (signal : Z) (s : Sup) : Sup :=
  set_phase (Forwarded signal (clock s + kill_timeout cfg)) (emit OShutdown s).

(** No child to forward to. *)
Definition stop_childless (signal : Z) (s : Sup) : Sup :=
  exit_with (finish_stop (128 + signal) s) (emit OShutdown s).

Definition idle_request (since : Z) (random : Z) (s : Sup) : Sup :=
  let ch := effective_channel s in
  if bool_decide (cadence_for ch = Daily) && negb (daily_check_is_due s) then
    let s := set_next_check (Z.min (next_check_at s) (clock s + tick_delay random)) s in
    match staged_version (version s) s with Some _ => hand_over s | None => s end
  else set_phase (NowCheck since ch WhenIdle CIdle) s.

Definition signal_running (since : Z) (e : SignalEvent) (random : Z) (s : Sup) : Sup :=
  match e with
  | Restart => if negb supervised then s else graceful_stop ThenRefresh s
  | CheckNow => if negb supervised then s else set_phase (NowCheck since (effective_channel s) Now CManual) s
  | CheckNowIdle => if negb supervised then s else idle_request since random s
  | Shutdown n => forward_shutdown n s
  end.

Definition signal_now_check (since : Z) (ch : Channel) (trigger : CheckTrigger) (e : SignalEvent) (s : Sup) : Sup :=
  match e with
  | Shutdown n => forward_shutdown n s
  | Restart => graceful_stop ThenRefresh s
  | CheckNow => set_phase (NowCheck since ch Now trigger) s
  | CheckNowIdle => s
  end.

(** While the check after a failed start is running, or [check_now] out of a backoff. *)
Definition signal_childless_check (e : SignalEvent) (s : Sup) : Sup :=
  match e with
  | Shutdown n => stop_childless n s
  | Restart => restart s
  | CheckNow | CheckNowIdle => s
  end.

Definition signal_backoff (e : SignalEvent) (s : Sup) : Sup :=
  match e with
  | Shutdown n => stop_childless n s
  | Restart => restart s
  | CheckNow | CheckNowIdle => set_phase (BackoffCheck (effective_channel s)) s
  end.

Definition signal_startup (e : SignalEvent) (s : Sup) : Sup :=
  match e with Shutdown n => stop_childless n s | _ => s end.

Definition signal_readiness (e : SignalEvent) (s : Sup) : Sup :=
  match e with Shutdown _ => graceful_stop ThenExit (emit OShutdown s) | _ => s end.

(** The scheduled check and a graceful stop do not listen to signals. *)
Definition on_signal (a : Arrival) (random : Z) (s : Sup) : Sup :=
  match recv a s with
  | None => s
  | Some (s', e) =>
      match phase s with
      | StartupCheck _ _ => signal_startup e s'
      | Readiness => signal_readiness e s'
      | Running since => signal_running since e random s'
      | NowCheck since ch _ trigger => signal_now_check since ch trigger e s'
      | FailedCheck _ | BackoffCheck _ => signal_childless_check e s'
      | BackingOff _ => signal_backoff e s'
      | Spawning | TickCheck _ _ | Stopping _ _ | Forwarded _ _ | Exited _ => s
      end
  end.

(** ** Graceful stops *)

Definition on_stopped (r : StopResult) (after : AfterStop) (s : Sup) : Sup :=
  let s := emit (if stopped r then OGone else OLost) s in
  match after with
  | ThenVersion v => respawn v s
  | ThenRefresh => restart s
  | ThenExit => exit_with (if stopped r then finish_stop 1 s else 1) s
  end.

(** The child after the forwarded signal: it exited, or the timeout killed it. *)
Definition on_forwarded_exit (status : option ExitStatus) (s : Sup) : Sup :=
  match status with
  | Some st => exit_with (finish_stop (exit_code st) s) (emit OGone s)
  | None => exit_with 1 (emit OLost s)
  end.

Definition on_forwarded_kill (signal : Z) (ok : bool) (s : Sup) : Sup :=
  if ok then exit_with (finish_stop (128 + signal) s) (emit OGone s) else exit_with (128 + signal) (emit OLost s).

(** ** Startup *)

Definition startup_check_done (ch : Channel) (r : option UpdateOutcome) (random : Z) (persisted : bool) (s : Sup) : Sup :=
  let s := finish_check ch (is_ok r) random persisted (emit (OChecked CStartup (is_ok r) (today s)) s) in
  match r with
  | Some (Installed v) | Some (AlreadyCurrent v) => set_phase Spawning (set_version v s)
  | None =>
      match installed_version (disk s) with
      | Some v => set_phase Spawning (set_version v s)
      | None => exit_with 1 s
      end
  end.

(** Other commands run the installed version without asking the updater. *)
Definition one_shot (s : Sup) : Sup :=
  match installed_version (disk s) with
  | Some v => set_version v s
  | None => exit_with 1 s
  end.

(** The state before the loop.  [launching]: the startup marker is in the environment;
    [claimed]: the signal handlers and, for [serve], the ownership were obtained. *)
Definition begin (launching claimed : bool) (d : Disk) (now_ day : Z) (random : Z) (persisted : bool) : Sup :=
  let s := mkSup d now_ day Spawning EmptyString (backoff_initial cfg) 0 None None now_ (supervised && launching) false [] in
  if negb claimed then exit_with 1 s
  else if supervised then
    let ch := effective_channel s in
    match installed_version d with
    | Some v =>
        if bool_decide (cadence_for ch = Daily) && negb (daily_check_is_due s)
        then finish_check ch false random persisted (set_version v s)
        else set_phase (StartupCheck ch (now_ + startup_timeout)) s
    | None => set_phase (StartupCheck ch (now_ + startup_timeout)) s
    end
  else one_shot s.

(** ** The machine *)

(** A timer of the await the task is at: the startup deadline, the next check, the end of
    the backoff. *)
Definition on_timer (random : Z) (persisted : bool) (s : Sup) : Sup :=
  match phase s with
  | StartupCheck _ deadline => if starting s && (deadline <=? clock s) then exit_with 1 s else s
  | Running since => if supervised && (next_check_at s <=? clock s) then on_tick since random persisted s else s
  | BackingOff until => if until <=? clock s then set_phase Spawning s else s
  | _ => s
  end.

Definition on_check_done (r : option UpdateOutcome) (random : Z) (persisted : bool) (s : Sup) : Sup :=
  match phase s with
  | StartupCheck ch _ => startup_check_done ch r random persisted s
  | TickCheck since ch => tick_check_done since ch r random persisted s
  | NowCheck since ch style trigger => now_check_done since ch style trigger r random persisted s
  | FailedCheck ch => failed_check_done ch r random persisted s
  | BackoffCheck ch => backoff_check_done ch r random persisted s
  | _ => s
  end.

Definition step (s : Sup) (e : Event) : Sup :=
  match e, phase s with
  | EWorld d, _ => set_disk d s
  | ETime elapsed day, _ => set_time (clock s + Z.of_N elapsed) day s
  | ESpawned ok, Spawning => on_spawned ok s
  | EReady, Readiness => on_ready s
  | ENotReady, Readiness => graceful_stop ThenExit s
  | EChildExit _, Readiness => graceful_stop ThenExit s
  | EChildExit status, Running since => on_child_exit status since s
  | EChildExit status, Forwarded _ _ => on_forwarded_exit status s
  | EStopped r, Stopping after deadline => if forced r && (clock s <? deadline) then s else on_stopped r after s
  | EKilled ok, Forwarded signal deadline => if deadline <=? clock s then on_forwarded_kill signal ok s else s
  | ECheckDone r random persisted, _ => on_check_done r random persisted s
  | ETimer random persisted, _ => on_timer random persisted s
  | ESignal a random, _ => on_signal a random s
  | _, _ => s
  end.

Definition run : Sup -> list Event -> Sup := foldl step.
End supervisor.

(** ** Histories *)

(** What was done before each observation allows it. *)
Definition always (P : list Obs -> Obs -> Prop) (l : list Obs) : Prop :=
  forall l1 o l2, l = l1 ++ o :: l2 -> P l1 o.

Lemma always_nil P : always P [].
Proof. intros [|x l1] o l2 E; discriminate E. Qed.

Lemma always_snoc P l o : always P (l ++ [o]) <-> always P l /\ P l o.
Proof.
  split.
  - intros H. split; [|by apply (H l o [])]. intros l1 o' l2 ->. apply (H l1 o' (l2 ++ [o])).
    by rewrite <- app_assoc.
  - intros [H Ho] l1 o' l2 E. destruct l2 as [|x l2 _] using rev_ind.
    + apply app_inj_tail in E as [<- <-]. done.
    + rewrite app_comm_cons, app_assoc in E. apply app_inj_tail in E as [-> <-]. by apply (H l1 o' l2).
Qed.

Lemma always_one P o : always P [o] <-> P [] o.
Proof. rewrite (always_snoc P [] o). split; [by intros [_ ?]|]. split; [apply always_nil|done]. Qed.

(** *** Failed starts *)

(** A start that lasted counts as a serve. *)
Definition stayed_up (reset_after : Z) (uptime : option Z) : bool :=
  match uptime with Some up => reset_after <=? up | None => false end.

Definition count_failure (reset_after : Z) (n : Z) (o : Obs) : Z :=
  match o with
  | OFailed up => if stayed_up reset_after up then 1 else n + 1
  | OFresh => 0
  | _ => n
  end.

(** The failed starts since the last one that stayed up, counting it, or since the
    supervisor was last told or able to start afresh. *)
Definition failed_starts (reset_after : Z) : list Obs -> Z := foldl (count_failure reset_after) 0.

Lemma failed_starts_snoc r l o : failed_starts r (l ++ [o]) = count_failure r (failed_starts r l) o.
Proof. apply foldl_snoc. Qed.

(** The wait after [n] failed starts. *)
Definition nth_delay (cfg : SupervisorConfig) (n : Z) : Z :=
  if n <=? 1 then backoff_initial cfg else Z.min (backoff_initial cfg * 2 ^ (n - 1)) (backoff_cap cfg).

Definition rechecked (l : list Obs) : bool :=
  match last l with Some (ORechecked _ _) => true | _ => false end.

Lemma rechecked_snoc l o : rechecked (l ++ [o]) = match o with ORechecked _ _ => true | _ => false end.
Proof. unfold rechecked. rewrite last_snoc. by destruct o. Qed.

(** A wait and giving up both follow a check for a fix, and the count decides which. *)
Definition crash_rule (cfg : SupervisorConfig) (l : list Obs) (o : Obs) : Prop :=
  let n := failed_starts (backoff_reset_after cfg) l in
  match o with
  | OBackoff d => rechecked l = true /\ 1 <= n < give_up_after_failures cfg /\ d = nth_delay cfg n
  | OGiveUp => rechecked l = true /\ give_up_after_failures cfg <= n
  | _ => True
  end.

(** Sensible durations. *)
Definition durations (cfg : SupervisorConfig) : Prop :=
  0 <= backoff_initial cfg /\ 0 <= backoff_cap cfg <= DURATION_MAX.

Lemma nth_delay_next cfg n :
  durations cfg -> 1 <= n ->
  Z.min (Z.min (nth_delay cfg n * 2) DURATION_MAX) (backoff_cap cfg) = nth_delay cfg (n + 1).
Proof.
  intros [Hi Hc] Hn. unfold nth_delay. replace (n + 1 <=? 1) with false by lia. replace (n + 1 - 1) with n by lia.
  destruct (n <=? 1) eqn:E.
  - replace n with 1 by lia. rewrite Z.pow_1_r. lia.
  - replace n with (Z.succ (n - 1)) at 2 by lia. rewrite Z.pow_succ_r by lia. lia.
Qed.

(** *** Children *)

Definition child_step (alive : bool) (o : Obs) : bool :=
  match o with OSpawn _ _ => true | OGone | OLost => false | _ => alive end.

Definition child_alive : list Obs -> bool := foldl child_step false.

Lemma child_alive_snoc l o : child_alive (l ++ [o]) = child_step (child_alive l) o.
Proof. apply foldl_snoc. Qed.

Definition spawned_step (v : option string) (o : Obs) : option string :=
  match o with OSpawn v' _ => Some v' | _ => v end.

Definition last_spawned : list Obs -> option string := foldl spawned_step None.

Lemma last_spawned_snoc l o : last_spawned (l ++ [o]) = spawned_step (last_spawned l) o.
Proof. apply foldl_snoc. Qed.

Definition differs (last_ : option string) (v : string) : bool :=
  match last_ with Some v' => bool_decide (v' <> v) | None => false end.

(** One child at a time, none after a shutdown, marked when its version is new. *)
Definition child_rule (l : list Obs) (o : Obs) : Prop :=
  match o with
  | OSpawn v mark => child_alive l = false /\ (OShutdown ∉ l) /\ mark = differs (last_spawned l) v
  | OGone | OLost | OUsr2 => child_alive l = true
  | _ => True
  end.

(** *** Daily checks *)

Definition automatic (t : CheckTrigger) : bool := match t with CManual => false | _ => true end.

(** A successful check of that day, made by the supervisor of its own accord. *)
Definition counts_for (day : Z) (o : Obs) : Prop :=
  match o with
  | OChecked t true d => automatic t = true /\ d = day
  | ORechecked true d => d = day
  | _ => False
  end.

Definition daily_rule (l : list Obs) (o : Obs) : Prop :=
  match o with
  | OChecked t true d => automatic t = true -> Forall (fun o' => ~ counts_for d o') l
  | _ => True
  end.

Section invariants.
Context (cfg : SupervisorConfig) (supervised : bool) (origin : ChannelOrigin) (pinned : Channel) (startup_timeout : Z).

(** The wait the supervisor would do next is the one of the next failure; after a failure
    it is the one of that failure. *)
Definition due_failure (s : Sup) : Z :=
  match phase s with FailedCheck _ => failures s | _ => failures s + 1 end.

Record Crashes (s : Sup) : Prop := mkCrashes {
  cr_rule : always (crash_rule cfg) (log s);
  cr_count : failures s = failed_starts (backoff_reset_after cfg) (log s);
  cr_some : 0 <= failures s /\ (forall ch, phase s = FailedCheck ch -> 1 <= failures s);
  cr_over : OGiveUp ∈ log s -> phase s = Exited 0;
  cr_backoff : (forall code, phase s <> Exited code) -> backoff s = nth_delay cfg (due_failure s) }.

Ltac sup_unfold :=
  unfold step, on_signal, recv, on_timer, on_check_done, on_spawned, on_ready, on_child_exit, on_stopped,
    on_forwarded_exit, on_forwarded_kill, startup_check_done, tick_check_done, now_check_done, failed_check_done,
    backoff_check_done, nothing_newer, backoff_sleep, on_tick, force_staged, signal_running, signal_now_check,
    signal_childless_check, signal_backoff, signal_startup, signal_readiness, idle_request, forward_shutdown,
    stop_childless, enter_running, failed_start, graceful_stop, hand_over, respawn, restart, fresh, clear_failures,
    refresh_version_from_state, exit_with, finish_check in *.

(** The cases of a step, with the state taken apart. *)
Ltac sup_cases s e :=
  destruct s as [dk ck td ph ver bo fl lr sa nc stg sc lg]; destruct ph, e; try done; sup_unfold; cbn in *;
  repeat (case_match; cbn in *; simplify_eq/=; try done).

Lemma crashes_step s e : durations cfg -> Crashes s -> Crashes (step cfg supervised origin pinned s e).
Proof.
  intros Hd [Hr Hc [H0 Hf] Hg Hb]. unfold due_failure in *. pose proof (nth_delay_next cfg) as Hnext.
  assert (backoff_initial cfg = nth_delay cfg (0 + 1)) as Hinit by done.
  sup_cases s e; (split; unfold due_failure; cbn;
    [rewrite ?always_snoc; unfold crash_rule; repeat match goal with |- _ /\ _ => split end;
       rewrite ?rechecked_snoc, ?failed_starts_snoc; cbn; try done
    |rewrite ?failed_starts_snoc; cbn; try done
    |split; [|intros ? [=]]; try lia
    |rewrite ?elem_of_app, ?list_elem_of_singleton; naive_solver
    |intros Hx; try (by destruct (Hx _ eq_refl))]);
    try (by apply Hb); try (by repeat case_match; lia); try exact (Hf _ eq_refl).
  all: rewrite Hb by done; apply Hnext; [done|exact (Hf _ eq_refl)].
Qed.

Lemma begin_log launching claimed d now_ day random persisted :
  log (begin cfg supervised origin pinned startup_timeout launching claimed d now_ day random persisted) = [].
Proof. unfold begin, one_shot, finish_check. by repeat case_match. Qed.

Abbreviation begun := (begin cfg supervised origin pinned startup_timeout).
Abbreviation steps := (run cfg supervised origin pinned).

Lemma crashes_run launching claimed d now_ day random persisted es :
  durations cfg -> Crashes (steps (begun launching claimed d now_ day random persisted) es).
Proof.
  intros Hd. unfold run. induction es as [|e es IH] using rev_ind; [|rewrite foldl_snoc; by apply crashes_step].
  unfold begin, one_shot, finish_check. repeat case_match; (split; cbn; [apply always_nil|done|done|by intros ?%elem_of_nil|done]).
Qed.

(** [C6] Crashes are answered by the documented policy.  On any history of a supervisor
    with sensible durations: it waits or gives up only right after the check for a fix
    that follows a failed start; it waits while the failed starts in a row are fewer than
    the limit, the wait after the n-th being the initial one doubled n - 1 times and
    capped; it gives up when they reach the limit, and then exits with zero.  A start that
    lasted, an installed version and a restart begin the count anew. *)
Theorem supervisor_crash_policy launching claimed d now_ day random persisted es :
  durations cfg ->
  let s := steps (begun launching claimed d now_ day random persisted) es in
  always (crash_rule cfg) (log s) /\
  failures s = failed_starts (backoff_reset_after cfg) (log s) /\
  (OGiveUp ∈ log s -> phase s = Exited 0).
Proof. intros Hd s. by destruct (crashes_run launching claimed d now_ day random persisted es Hd). Qed.

(** *** One child at a time *)

Definition has_child (p : Phase) : bool :=
  match p with
  | Readiness | Running _ | TickCheck _ _ | NowCheck _ _ _ _ | Stopping _ _ | Forwarded _ _ => true
  | _ => false
  end.

(** The supervisor is on its way out. *)
Definition leaving (p : Phase) : Prop :=
  match p with Forwarded _ _ | Stopping ThenExit _ | Exited _ => True | _ => False end.

Record Children (s : Sup) : Prop := mkChildren {
  ch_rule : always child_rule (log s);
  ch_alive : child_alive (log s) = has_child (phase s);
  ch_last : match phase s with
            | Readiness => last_spawned (log s) = Some (version s)
            | p => leaving p \/ last_ran_version s = last_spawned (log s)
            end;
  ch_leaving : OShutdown ∈ log s -> leaving (phase s);
  ch_stop : stop_connection s = true -> leaving (phase s) /\ forall code, phase s = Exited code -> code = 0 \/ OLost ∈ log s }.

Lemma children_step s e : Children s -> Children (step cfg supervised origin pinned s e).
Proof.
  intros [Hr Ha Hl Hs Hst].
  sup_cases s e; (split; cbn;
    [rewrite ?always_snoc; unfold child_rule; repeat match goal with |- _ /\ _ => split end;
       rewrite ?child_alive_snoc, ?last_spawned_snoc; cbn
    |rewrite ?child_alive_snoc; cbn
    |rewrite ?last_spawned_snoc; cbn
    |rewrite ?elem_of_app, ?list_elem_of_singleton
    |rewrite ?elem_of_app, ?list_elem_of_singleton]); try done; try naive_solver.
  all: intros _; (split; [done|]); intros code _; right; apply elem_of_app; right; by left.
Qed.

Lemma children_run launching claimed d now_ day random persisted es :
  Children (steps (begun launching claimed d now_ day random persisted) es).
Proof.
  unfold run. induction es as [|e es IH] using rev_ind; [|rewrite foldl_snoc; by apply children_step].
  unfold begin, one_shot, finish_check.
  repeat case_match; (split; cbn; [apply always_nil|done|auto|by intros ?%elem_of_nil|done]).
Qed.


(** *** Checks of the stable channel *)

Definition stable_disk (d : Disk) : Prop :=
  match origin with
  | FromFlag | FromEnv => pinned = Stable
  | FromConfig | FromDefault => default Stable (config_channel d) = Stable
  end.

(** Time goes forward, the state file can be written, and nobody else records checks. *)
Definition orderly_event (s : Sup) (e : Event) : Prop :=
  match e with
  | EWorld d => stable_disk d /\ last_check_at d = last_check_at (disk s)
  | ETime _ day => today s <= day
  | ECheckDone _ _ persisted => persisted = true
  | _ => True
  end.

Fixpoint orderly (s : Sup) (es : list Event) : Prop :=
  match es with
  | [] => True
  | e :: es => orderly_event s e /\ orderly (step cfg supervised origin pinned s e) es
  end.

(** No check is recorded for today. *)
Definition fresh_day (s : Sup) : Prop := forall at_, last_check_at (disk s) = Some at_ -> at_ < today s.

(** The day of a check that counts is no later than the one on record. *)
Definition recorded (at_ : option Z) (o : Obs) : Prop :=
  forall day, counts_for day o -> exists a, at_ = Some a /\ day <= a.

Record Days (s : Sup) : Prop := mkDays {
  da_rule : always daily_rule (log s);
  da_stable : stable_disk (disk s);
  da_past : forall at_, last_check_at (disk s) = Some at_ -> at_ <= today s;
  da_recorded : Forall (recorded (last_check_at (disk s))) (log s);
  da_phase : match phase s with
             | StartupCheck _ _ => log s = []
             | TickCheck _ _ => fresh_day s
             | NowCheck _ _ _ t => t = CManual \/ (t = CIdle /\ fresh_day s)
             | _ => True
             end }.

Lemma stable_channel s : stable_disk (disk s) -> effective_channel origin pinned s = Stable.
Proof. unfold stable_disk, effective_channel. by destruct origin. Qed.

Lemma due_fresh s :
  (forall at_, last_check_at (disk s) = Some at_ -> at_ <= today s) -> daily_check_is_due s = true -> fresh_day s.
Proof.
  intros Hp. unfold daily_check_is_due, daily_check_due, fresh_day. intros Hd at_ E. specialize (Hp _ E).
  rewrite E in Hd. lia.
Qed.

(** A check that counts, on a day without one. *)
Lemma counted_once at_ day l :
  Forall (recorded at_) l -> (forall a, at_ = Some a -> a < day) -> Forall (fun o => ~ counts_for day o) l.
Proof.
  intros Hr Hf. eapply Forall_impl; [exact Hr|]. intros o Ho Hc. destruct (Ho _ Hc) as (a & E & Hle).
  apply Hf in E. lia.
Qed.

Lemma recorded_now at_ day l :
  Forall (recorded at_) l -> (forall a, at_ = Some a -> a <= day) -> Forall (recorded (Some day)) l.
Proof.
  intros Hr Hp. eapply Forall_impl; [exact Hr|]. intros o Ho d Hc. destruct (Ho _ Hc) as (a & E & Hle).
  exists day. split; [done|]. apply Hp in E. lia.
Qed.

Lemma recorded_other at_ o : (forall day, ~ counts_for day o) -> recorded at_ o.
Proof. intros H day Hc. by apply H in Hc. Qed.

Lemma recorded_today day o : (forall d, counts_for d o -> d = day) -> recorded (Some day) o.
Proof. intros H d ->%H. by exists day. Qed.

(** Discharges what the observations of a step must satisfy. *)
Ltac solve_days :=
  first
  [ done | assumption
  | apply recorded_other; intros ?; cbn; (by intros [] || by intros [[=] _])
  | apply recorded_today; cbn; (by intros ? -> || by intros ? [_ ->])
  | intros ? [= <-]; lia
  | intros _; apply Forall_nil; done
  | match goal with H : _ -> Forall _ ?l |- daily_rule ?l _ => intros _; apply H; assumption end
  | match goal with Hd : daily_check_is_due _ = true -> _ |- forall _, _ => by apply Hd end
  | by left | right; split; [done|]; solve_days ].

Lemma days_world s d :
  stable_disk d -> last_check_at d = last_check_at (disk s) -> Days s -> Days (set_disk d s).
Proof. intros Hd E [? ? ? ? ?]. split; unfold fresh_day in *; cbn; rewrite ?E; done. Qed.

Lemma days_time s c day : today s <= day -> Days s -> Days (set_time c day s).
Proof.
  intros Hle [H1 H2 H3 H4 H5].
  assert (fresh_day s -> fresh_day (set_time c day s)) as Hf by (intros H at_ E; specialize (H at_ E); cbn; lia).
  split; try done.
  - intros at_ E. specialize (H3 at_ E). cbn. lia.
  - cbn. destruct (phase s); naive_solver.
Qed.

Lemma days_step s e : orderly_event s e -> Days s -> Days (step cfg supervised origin pinned s e).
Proof.
  intros He HD. destruct e as [d|n day| | | | |[]| | | |];
    [destruct He; by apply days_world|by apply days_time|..]; destruct HD as [Hr Hst Hp Hrec Hph];
    pose proof (due_fresh s Hp) as Hdue; pose proof (counted_once _ (today s) _ Hrec) as Hone;
    pose proof (recorded_now _ (today s) _ Hrec Hp) as Hnow; unfold fresh_day in *;
    destruct s as [dk ck td ph ver bo fl lr sa nc stg sc lg]; destruct ph; try done;
    sup_unfold; cbn in *; rewrite ?stable_channel by exact Hst; cbn in *;
    try (match type of Hph with _ \/ _ => destruct Hph as [->|[-> Hph]] end; cbn in * );
    repeat (case_match; cbn in *; simplify_eq/=; try done).
  all: split; unfold fresh_day; cbn; try done;
    rewrite ?always_snoc, ?always_one, ?Forall_app, ?Forall_singleton;
    repeat match goal with |- _ /\ _ => split end; try solve_days.
  - exact (Hdue eq_refl).
  - right. split; [done|]. apply Hdue. rewrite stable_channel in H0 by exact Hst. by apply negb_false_iff.
Qed.

Lemma days_begin launching claimed d now_ day random persisted :
  stable_disk d -> (forall at_, last_check_at d = Some at_ -> at_ <= day) ->
  Days (begun launching claimed d now_ day random persisted).
Proof.
  intros Hd Hp. unfold begin, one_shot, finish_check.
  repeat case_match; (split; cbn; [apply always_nil|done|done|constructor|done]).
Qed.

Lemma days_run s es : Days s -> orderly s es -> Days (steps s es).
Proof.
  revert s. induction es as [|e es IH]; intros s HD Hes; [done|]. destruct Hes as [He Hes].
  apply (IH (step cfg supervised origin pinned s e)); [by apply days_step|done].
Qed.

(** [C18] The stable channel is asked once a day.  On any history of a supervisor that
    follows the stable channel, with time going forward, a writable state file and nobody
    else recording checks: a successful check the supervisor makes of its own accord, at
    startup, by its tick or for an idle daemon, is the first one that succeeds that UTC
    day; only checks after failed starts and manual ones come on top. *)
Theorem supervisor_daily_checks launching claimed d now_ day random persisted es :
  stable_disk d -> (forall at_, last_check_at d = Some at_ -> at_ <= day) ->
  orderly (begun launching claimed d now_ day random persisted) es ->
  always daily_rule (log (steps (begun launching claimed d now_ day random persisted) es)).
Proof.
  intros Hd Hp Hes. apply da_rule, days_run; [|done]. by apply days_begin.
Qed.
End invariants.

(** ** Schedules *)

(** A check is scheduled within the configured window. *)
Lemma next_check_delay_bounds min_ max_ random :
  0 <= min_ -> 0 <= random <= u64_max ->
  min_ <= next_check_delay min_ max_ random /\ (next_check_delay min_ max_ random < max_ \/ max_ <= min_).
Proof.
  intros Hm Hr. unfold next_check_delay, saturating_sub. destruct (Z.max 0 (max_ - min_) =? 0) eqn:E; [lia|].
  pose proof (Z.mod_pos_bound random (Z.max 0 (max_ - min_)) ltac:(lia)).
  pose proof (Z.mod_le random (Z.max 0 (max_ - min_)) ltac:(lia) ltac:(lia)).
  case_match; lia.
Qed.

(** While the scheduled check runs, a signal is not received. *)
Lemma tick_check_deaf cfg supervised origin pinned s since ch a random :
  phase s = TickCheck since ch -> step cfg supervised origin pinned s (ESignal a random) = s.
Proof. intros E. unfold step, on_signal, recv. rewrite E. by destruct a, supervised. Qed.

(** ** Runs *)

Definition installed_one : Disk := mkDisk (Some "1.0.0") None {["1.0.0"; "1.1.0"]} None.

(** [serve] on the stable channel. *)
Abbreviation serving := (begin default_config true FromDefault Stable (secs 30) false true installed_one 0 100 0 true).
Abbreviation serve := (run default_config true FromDefault Stable serving).

(** A failed start, the check that finds nothing and the wait. *)
Definition cannot_spawn (wait : N) : list Event :=
  [ESpawned false; ECheckDone None 0 true; ETime wait 100; ETimer 0 true].
Definition crash (uptime wait : N) : list Event :=
  [ESpawned true; ETime uptime 100; EChildExit (Some (Code 1)); ECheckDone None 0 true; ETime wait 100; ETimer 0 true].

Definition minute : N := 60000000000.

Definition broken : list Event :=
  ECheckDone (Some (AlreadyCurrent "1.0.0")) 0 true :: mjoin (replicate 10 (cannot_spawn minute)).

Definition waits (l : list Obs) : list Z := omap (fun o => match o with OBackoff d => Some d | _ => None end) l.

(** A binary that never starts is tried ten times over some four minutes. *)
Example gives_up_after_ten :
  phase (serve broken) = Exited 0 /\
  waits (log (serve broken)) = secs <$> [1; 2; 4; 8; 16; 32; 60; 60; 60].
Proof. vm_compute. done. Qed.

(** A start that stayed up an hour is the first of the ten. *)
Example long_serve_counts :
  let s := serve (ECheckDone (Some (AlreadyCurrent "1.0.0")) 0 true :: crash (60 * minute) minute
                  ++ mjoin (replicate 9 (crash 1 minute))) in
  phase s = Exited 0 /\ failures s = 10 /\ OFailed (Some (secs 3600)) ∈ log s.
Proof. vm_compute. split_and!; [done..|]. apply list_elem_of_In. vm_compute. tauto. Qed.

Lemma default_durations : durations default_config.
Proof. unfold durations. vm_compute. split_and!; discriminate. Qed.

Lemma supervisor_crash_policy_witness :
  always (crash_rule default_config) (log (serve broken)) /\ OGiveUp ∈ log (serve broken) /\ phase (serve broken) = Exited 0.
Proof.
  pose proof (supervisor_crash_policy default_config true FromDefault Stable (secs 30) false true installed_one 0 100 0 true broken
    default_durations) as (H1 & _ & H2).
  assert (OGiveUp ∈ log (serve broken)) as Hin by (apply list_elem_of_In; vm_compute; tauto).
  split_and!; [exact H1|exact Hin|exact (H2 Hin)].
Defined.

(** The tick of the next day finds a version, hands it over, and the daemon restarts into
    it when idle; a request on the same day asks nobody. *)
Definition update_when_idle : list Event :=
  [ ECheckDone (Some (AlreadyCurrent "1.0.0")) 0 true; ESpawned true; ETime (60 * minute) 101; ETimer 0 true;
    ECheckDone (Some (Installed "1.1.0")) 0 true; EWorld (mkDisk (Some "1.1.0") (Some 101) {["1.0.0"; "1.1.0"]} None);
    ESignal Usr2 0; EChildExit (Some (Code 75)); ESpawned true; ESignal StopConnection 0; EChildExit (Some (Signalled 15)) ].

Example update_when_idle_log :
  log (serve update_when_idle) =
    [ OChecked CStartup true 100; OSpawn "1.0.0" false; OChecked CDaily true 101; OUsr2; OUsr2; OGone; OFresh;
      OSpawn "1.1.0" true; OShutdown; OGone ] /\
  phase (serve update_when_idle) = Exited 0.
Proof. vm_compute. done. Qed.

Lemma supervisor_daily_checks_witness : always daily_rule (log (serve update_when_idle)).
Proof.
  apply (supervisor_daily_checks default_config true FromDefault Stable (secs 30) false true installed_one 0 100 0 true update_when_idle).
  - reflexivity.
  - discriminate.
  - vm_compute. split_and!; try done; discriminate.
Defined.
