(* ===== verification/Admission.v ===== *)
(** * Admission control of the transport
    ([crates/intent-transport/src/accept_backoff.rs], [crates/intent-transport/src/rpc_limit.rs])

    The retry policy of the accept loops and the daemon-wide limiter of outstanding
    requests with its shutdown fence.  Instants and durations are milliseconds:
    every duration the backoff computes is a whole number of them. *)
From stdpp Require Import prelude gmap.
From S2P Require Import Prelude.

Module AcceptBackoff.

Definition INITIAL_DELAY : Z := 50.
Definition MAX_DELAY : Z := 500.
Definition WARN_INTERVAL : Z := 5000.

(** [raw_os_error] of a failed accept. *)
Inductive Errno := EMFILE | ENFILE | ENOBUFS | ENOMEM | OtherErrno (code : Z).

(** The unix [is_resource_exhaustion]. *)
Definition is_resource_exhaustion (err : option Errno) : bool :=
  match err with Some (EMFILE | ENFILE | ENOBUFS | ENOMEM) => true | _ => false end.

Inductive AcceptFailure :=
| Backoff (delay streak : Z) (warn : bool)
| Other.

Record AcceptBackoff := mkBackoff {
  streak : Z;
  base : Z;
  last_warn : option Z;
  warned : bool }.

Definition default : AcceptBackoff := mkBackoff 0 0 None false.

(** [jitter] with the draw of [getrandom]. *)
Definition jitter (base : Z) (random : option Z) : Z :=
  let half := base / 2 in
  let span_ms := half in
  if span_ms =? 0 then base
  else match random with
       | None => base
       | Some random => half + random mod (span_ms + 1)
       end.

Definition on_error_at (b : AcceptBackoff) (err : option Errno) (now : Z) (random : option Z) :
    AcceptFailure * AcceptBackoff :=
  if negb (is_resource_exhaustion err) then (Other, b)
  else
    let streak' := saturating_add u32_max (streak b) 1 in
    let base' := if streak' =? 1 then INITIAL_DELAY else Z.min (base b * 2) MAX_DELAY in
    let warn := match last_warn b with
                | None => true
                | Some at_ => WARN_INTERVAL <=? saturating_sub now at_
                end in
    (Backoff (jitter base' random) streak' warn,
     mkBackoff streak' base' (if warn then Some now else last_warn b) (if warn then true else warned b)).

Definition on_success (b : AcceptBackoff) : option Z * AcceptBackoff :=
  (if (0 <? streak b) && warned b then Some (streak b) else None,
   mkBackoff 0 0 (last_warn b) false).

(** What the accept loop sees. *)
Inductive Accept :=
| Failed (err : option Errno) (now : Z) (random : option Z)
| Accepted.

Definition accept_step (b : AcceptBackoff) (a : Accept) : AcceptBackoff :=
  match a with
  | Failed err now random => (on_error_at b err now random).2
  | Accepted => (on_success b).2
  end.

Definition accepts (l : list Accept) : AcceptBackoff := foldl accept_step default l.

(** What it logs: the instants of the warnings, and the recoveries. *)
Inductive LogLine := Warn (now : Z) | Recovered (n : Z).

Definition accept_log (b : AcceptBackoff) (a : Accept) : list LogLine :=
  match a with
  | Failed err now random =>
      match (on_error_at b err now random).1 with
      | Backoff _ _ true => [Warn now]
      | _ => []
      end
  | Accepted => match (on_success b).1 with Some n => [Recovered n] | None => [] end
  end.

Fixpoint log_of (b : AcceptBackoff) (l : list Accept) : list LogLine :=
  match l with [] => [] | a :: l' => accept_log b a ++ log_of (accept_step b a) l' end.

(** ** The delay schedule *)

(** The base delay after [n] failures in a row. *)
Definition base_after (n : nat) : Z :=
  match n with O => 0 | S k => Z.min (INITIAL_DELAY * 2 ^ Z.of_nat k) MAX_DELAY end.

(** How many exhaustion failures in a row a history ends with. *)
Fixpoint current_streak (n : nat) (l : list Accept) : nat :=
  match l with
  | [] => n
  | Accepted :: l' => current_streak O l'
  | Failed err _ _ :: l' => current_streak (if is_resource_exhaustion err then S n else n) l'
  end.

Lemma jitter_bounds x random : 2 <= x -> x / 2 <= jitter x random <= x.
Proof.
  intros Hx. unfold jitter. pose proof (Z.div_le_lower_bound x 2 1 ltac:(lia) ltac:(lia)).
  solve_test. destruct random as [r|]; [|split; [|lia]; apply Z.div_le_upper_bound; lia].
  pose proof (Z.mod_pos_bound r (x / 2 + 1) ltac:(lia)). pose proof (Z.mul_div_le x 2 ltac:(lia)). lia.
Qed.

Lemma base_after_bounds k : INITIAL_DELAY <= base_after (S k) <= MAX_DELAY.
Proof.
  simpl. unfold INITIAL_DELAY, MAX_DELAY. pose proof (Z.pow_pos_nonneg 2 (Z.of_nat k) ltac:(lia) ltac:(lia)). lia.
Qed.

Lemma base_after_double k : base_after (S (S k)) = Z.min (base_after (S k) * 2) MAX_DELAY.
Proof.
  unfold base_after. rewrite Nat2Z.inj_succ, Z.pow_succ_r by lia. unfold INITIAL_DELAY, MAX_DELAY. lia.
Qed.

(** The state after a streak of [n]. *)
Definition tracks (n : nat) (b : AcceptBackoff) : Prop :=
  streak b = Z.min (Z.of_nat n) u32_max /\ base b = base_after n /\ (warned b = true -> (0 < n)%nat).

Lemma tracks_failure n b err now random :
  is_resource_exhaustion err = true -> tracks n b ->
  exists warn, on_error_at b err now random =
    (Backoff (jitter (base_after (S n)) random) (Z.min (Z.of_nat (S n)) u32_max) warn,
     (on_error_at b err now random).2) /\ tracks (S n) (on_error_at b err now random).2.
Proof.
  intros He (Hs & Hb & Hw). unfold on_error_at. rewrite He. simpl.
  assert (saturating_add u32_max (streak b) 1 = Z.min (Z.of_nat (S n)) u32_max) as Hsat
    by (rewrite Hs; unfold saturating_add, u32_max; lia).
  rewrite Hsat.
  assert ((if Z.min (Z.of_nat (S n)) u32_max =? 1 then INITIAL_DELAY else Z.min (base b * 2) MAX_DELAY) = base_after (S n)) as Hbase.
  { destruct (Z.min (Z.of_nat (S n)) u32_max =? 1) eqn:E; case_tests; unfold u32_max in *.
    - by replace n with O by lia.
    - destruct n as [|n]; [lia|]. by rewrite Hb, base_after_double. }
  rewrite Hbase. eexists. split; [done|]. split; [done|]. split; [done|]. intros _. lia.
Qed.

Lemma tracks_run l : forall n b, tracks n b -> tracks (current_streak n l) (foldl accept_step b l).
Proof.
  induction l as [|[err now random|] l IH]; intros n b Ht; simpl; [done| |].
  - destruct (is_resource_exhaustion err) eqn:He.
    + apply IH. by destruct (tracks_failure n b err now random He Ht) as (? & _ & ?).
    + apply IH. unfold on_error_at. by rewrite He.
  - apply IH. split; [done|]. by split.
Qed.

(** ** Warnings *)

(** A log where warnings are [WARN_INTERVAL] apart, each recovery follows a warning, and
    no two recoveries follow the same one. *)
Fixpoint good_log (last : option Z) (pending : bool) (l : list LogLine) : Prop :=
  match l with
  | [] => True
  | Warn now :: l' =>
      match last with Some at_ => at_ + WARN_INTERVAL <= now | None => True end /\ good_log (Some now) true l'
  | Recovered n :: l' => pending = true /\ 0 < n /\ good_log last false l'
  end.

Lemma good_log_pending last l : good_log last false l -> good_log last true l.
Proof. destruct l as [|[now|n] l]; simpl; naive_solver. Qed.

Lemma good_log_run l : forall b, good_log (last_warn b) (warned b) (log_of b l).
Proof.
  induction l as [|[err now random|] l IH]; intros b; [done| |]; simpl.
  - specialize (IH (on_error_at b err now random).2). unfold on_error_at in *.
    destruct (is_resource_exhaustion err); simpl in *; [|done].
    destruct (last_warn b) as [at_|]; simpl in *; [|done].
    destruct (WARN_INTERVAL <=? saturating_sub now at_) eqn:E; simpl in *; [|done].
    split; [|done]. case_tests. unfold saturating_sub, WARN_INTERVAL in *. lia.
  - specialize (IH (on_success b).2). unfold on_success in *. simpl in *.
    destruct (0 <? streak b) eqn:E, (warned b); simpl in *; case_tests; try done.
    by apply good_log_pending.
Qed.

(** * Properties *)

(** Whatever happened before, the next exhaustion failure of a streak of [n] backs
    off for between half and all of [min(50 * 2^n, 500)] ms, never less than 25 ms nor
    more than 500 ms, and counts the streak; any other error retries at once and changes
    nothing. *)
Theorem accept_backoff_schedule (history : list Accept) (err : option Errno) (now : Z) (random : option Z) :
  let b := accepts history in let n := current_streak 0 history in
  if is_resource_exhaustion err then
    exists delay warn, (on_error_at b err now random).1 = Backoff delay (Z.min (Z.of_nat (S n)) u32_max) warn /\
      Z.min (INITIAL_DELAY * 2 ^ Z.of_nat n) MAX_DELAY / 2 <= delay <= Z.min (INITIAL_DELAY * 2 ^ Z.of_nat n) MAX_DELAY /\
      25 <= delay <= MAX_DELAY
  else on_error_at b err now random = (Other, b).
Proof.
  intros b n. assert (tracks n b) as Ht by (apply (tracks_run history 0 default); by split_and!).
  destruct (is_resource_exhaustion err) eqn:He; [|unfold on_error_at; by rewrite He].
  destruct (tracks_failure n b err now random He Ht) as (warn & -> & _). simpl.
  pose proof (base_after_bounds n) as Hb. pose proof (jitter_bounds (base_after (S n)) random) as Hj.
  unfold INITIAL_DELAY in Hb. specialize (Hj ltac:(lia)).
  exists (jitter (base_after (S n)) random), warn. split; [done|]. simpl in *. split; [exact Hj|].
  assert (25 <= Z.min (INITIAL_DELAY * 2 ^ Z.of_nat n) MAX_DELAY / 2) by (apply Z.div_le_lower_bound; lia). lia.
Qed.

(** However the listener flaps, its warnings are at least 5 s apart, and a recovery is
    logged only for a streak that warned. *)
Theorem accept_log_rate_limited (l : list Accept) : good_log None false (log_of default l).
Proof. apply (good_log_run l default). Qed.

End AcceptBackoff.

Module RpcLimiter.

(** ** State

    [semaphore] holds the free permits, [None] when unlimited; [admission] the shutdown
    flag and the number of admitted requests.  Callers inside [try_acquire] between the
    semaphore and the saturation flag, permits and guards held, and notifications due
    are counted; waiters of [closed] and [drain] are followed one by one. *)

Inductive WaitFor := ForClosed | ForDrain.

(** Where a waiter is in its loop; [notified] once its [Notified] future was woken. *)
Inductive WaitPhase :=
| WTop
| WEnabled (notified : bool)
| WParked (notified : bool)
| WReturned.

Record RpcLimiter := mkLimiter {
  semaphore : option Z;
  saturated : bool;
  closing : bool;
  active : Z;
  acquired_unstored : Z;
  refused_unswapped : Z;
  permits : Z;
  guards : Z;
  notifications : Z;
  waiters : list (WaitFor * WaitPhase) }.

Definition unlimited : RpcLimiter := mkLimiter None false false 0 0 0 0 0 0 [].

Definition new (max_outstanding : Z) : RpcLimiter :=
  if max_outstanding =? 0 then unlimited
  else mkLimiter (Some max_outstanding) false false 0 0 0 0 0 0 [].

Definition available_permits (l : RpcLimiter) : option Z := semaphore l.

Definition wake (w : WaitFor * WaitPhase) : WaitFor * WaitPhase :=
  match w with
  | (k, WEnabled _) => (k, WEnabled true)
  | (k, WParked _) => (k, WParked true)
  | _ => w
  end.

(** [Notify::notify_waiters]: every enabled waiter is woken. *)
Definition notify_waiters (l : RpcLimiter) : RpcLimiter :=
  mkLimiter (semaphore l) (saturated l) (closing l) (active l) (acquired_unstored l) (refused_unswapped l)
    (permits l) (guards l) (notifications l) (wake <$> waiters l).

Definition set_sem s a r p l :=
  mkLimiter s (saturated l) (closing l) (active l) a r p (guards l) (notifications l) (waiters l).
Definition set_saturated b a r l :=
  mkLimiter (semaphore l) b (closing l) (active l) a r (permits l) (guards l) (notifications l) (waiters l).
Definition set_requests c n g k l :=
  mkLimiter (semaphore l) (saturated l) c n (acquired_unstored l) (refused_unswapped l) (permits l) g k (waiters l).
Definition set_waiters ws l :=
  mkLimiter (semaphore l) (saturated l) (closing l) (active l) (acquired_unstored l) (refused_unswapped l)
    (permits l) (guards l) (notifications l) ws.

(** ** Steps *)

Inductive Step :=
| Acquire
| StoreUnsaturated
| SwapSaturated
| ReleasePermit
| AdmitRequest
| DropGuard
| BeginShutdown
| NotifyShutdown
| StartWait (k : WaitFor)
| Wait (i : nat).

Inductive Answer :=
| Silent
| Unlimited
| Granted
| Overloaded (newly_saturated : bool)
| GuardGiven
| Refused.

(** The part of [try_acquire] on the semaphore; an answer only when it carries none. *)
Definition acquire (l : RpcLimiter) : Answer * RpcLimiter :=
  match semaphore l with
  | None => (Unlimited, l)
  | Some n =>
      if 0 <? n then (Silent, set_sem (Some (n - 1)) (acquired_unstored l + 1) (refused_unswapped l) (permits l) l)
      else (Silent, set_sem (Some n) (acquired_unstored l) (refused_unswapped l + 1) (permits l) l)
  end.

Definition wait_done (k : WaitFor) (l : RpcLimiter) : bool :=
  match k with ForClosed => closing l | ForDrain => active l =? 0 end.

(** One step of the loop of [closed] or [drain]. *)
Definition wait_step (l : RpcLimiter) (k : WaitFor) (p : WaitPhase) : option WaitPhase :=
  match p with
  | WTop => Some (WEnabled false)
  | WEnabled n => Some (if wait_done k l then WReturned else WParked n)
  | WParked n => if n then Some WTop else None
  | WReturned => None
  end.

(** [None] when the step is not possible in this state. *)
Definition limiter_step (l : RpcLimiter) (s : Step) : option (Answer * RpcLimiter) :=
  match s with
  | Acquire => Some (acquire l)
  | StoreUnsaturated =>
      if 0 <? acquired_unstored l then
        Some (Granted,
          mkLimiter (semaphore l) false (closing l) (active l) (acquired_unstored l - 1) (refused_unswapped l)
            (permits l + 1) (guards l) (notifications l) (waiters l))
      else None
  | SwapSaturated =>
      if 0 <? refused_unswapped l then
        Some (Overloaded (negb (saturated l)), set_saturated true (acquired_unstored l) (refused_unswapped l - 1) l)
      else None
  | ReleasePermit =>
      if 0 <? permits l then
        Some (Silent, set_sem ((fun n => n + 1) <$> semaphore l) (acquired_unstored l) (refused_unswapped l) (permits l - 1) l)
      else None
  | AdmitRequest =>
      if closing l then Some (Refused, l)
      else Some (GuardGiven, set_requests (closing l) (active l + 1) (guards l + 1) (notifications l) l)
  | DropGuard =>
      if 0 <? guards l then
        Some (Silent, notify_waiters (set_requests (closing l) (active l - 1) (guards l - 1) (notifications l) l))
      else None
  | BeginShutdown => Some (Silent, set_requests true (active l) (guards l) (notifications l + 1) l)
  | NotifyShutdown =>
      if 0 <? notifications l then
        Some (Silent, notify_waiters (set_requests (closing l) (active l) (guards l) (notifications l - 1) l))
      else None
  | StartWait k =>
      (* [drain] begins the shutdown itself *)
      match k with
      | ForClosed => Some (Silent, set_waiters (waiters l ++ [(k, WTop)]) l)
      | ForDrain => if closing l then Some (Silent, set_waiters (waiters l ++ [(k, WTop)]) l) else None
      end
  | Wait i =>
      '(k, p) ← waiters l !! i;
      p' ← wait_step l k p;
      Some (Silent, set_waiters (<[i := (k, p')]> (waiters l)) l)
  end.

(** An interleaving; steps that are not possible are skipped. *)
Fixpoint run (l : RpcLimiter) (ss : list Step) : list Answer * RpcLimiter :=
  match ss with
  | [] => ([], l)
  | s :: ss' =>
      match limiter_step l s with
      | None => run l ss'
      | Some (a, l') => let '(answers, l'') := run l' ss' in (a :: answers, l'')
      end
  end.

(** ** Invariant *)

Definition waiter_ok (l : RpcLimiter) (w : WaitFor * WaitPhase) : Prop :=
  match w with
  | (ForClosed, WParked false) => closing l = false \/ 0 < notifications l
  | (ForClosed, WReturned) => closing l = true
  | (ForDrain, WParked false) => closing l = true /\ 0 < active l
  | (ForDrain, WReturned) => closing l = true /\ active l = 0
  | (ForDrain, _) => closing l = true
  | _ => True
  end.

Record limiter_inv (cap : option Z) (l : RpcLimiter) : Prop := {
  li_sem : match semaphore l, cap with
           | Some n, Some m => 0 <= n /\ n + permits l + acquired_unstored l = m
           | None, None => permits l = 0 /\ acquired_unstored l = 0 /\ refused_unswapped l = 0
           | _, _ => False
           end;
  li_counts : 0 <= permits l /\ 0 <= acquired_unstored l /\ 0 <= refused_unswapped l /\ 0 <= notifications l;
  li_guards : active l = guards l /\ 0 <= guards l;
  li_waiters : Forall (waiter_ok l) (waiters l) }.

Definition cap_of (max_outstanding : Z) : option Z :=
  if max_outstanding =? 0 then None else Some max_outstanding.

(** The overloads that warn: one per stretch without a grant. *)
Fixpoint warns_fresh (sat : bool) (l : list Answer) : Prop :=
  match l with
  | [] => True
  | Granted :: l' => warns_fresh false l'
  | Overloaded n :: l' => n = negb sat /\ warns_fresh true l'
  | _ :: l' => warns_fresh sat l'
  end.

(** Waiters only care about [closing], [active] and the notifications due. *)
Lemma waiters_same l l' ws :
  closing l' = closing l -> active l' = active l -> notifications l' = notifications l ->
  Forall (waiter_ok l) ws -> Forall (waiter_ok l') ws.
Proof.
  intros Hc Ha Hn Hw. eapply Forall_impl; [exact Hw|]. intros [[] [|[]|[]|]]; simpl; rewrite ?Hc, ?Ha, ?Hn; done.
Qed.

(** Waking everybody keeps the waiters well placed as long as the requests drain. *)
Lemma waiters_woken l l' ws :
  closing l' = closing l -> (0 <= active l' <= active l) ->
  Forall (waiter_ok l) ws -> Forall (waiter_ok l') (wake <$> ws).
Proof.
  intros Hc Ha Hw. apply Forall_fmap. eapply Forall_impl; [exact Hw|].
  intros [[] [|[]|[]|]]; simpl; rewrite ?Hc; naive_solver lia.
Qed.

Lemma wait_step_ok l k p p' :
  0 <= active l -> waiter_ok l (k, p) -> wait_step l k p = Some p' -> waiter_ok l (k, p').
Proof.
  intros Ha Hw. destruct k, p as [|n|[]|]; simpl in *; try (intros [= <-]; done); try done.
  - destruct (closing l) eqn:E; intros [= <-]; [done|]. destruct n; [done|by left].
  - destruct (active l =? 0) eqn:E; intros [= <-]; case_tests; [done|]. destruct n; [done|]. split; [done|lia].
Qed.

Lemma limiter_inv_step cap l s a l' :
  limiter_inv cap l -> limiter_step l s = Some (a, l') -> limiter_inv cap l'.
Proof.
  intros [Hs Hc Hg Hw] Hst.
  destruct s as [| | | | | | | |k|i]; cbn [limiter_step] in Hst.
  - unfold acquire in Hst. destruct (semaphore l) as [n|] eqn:Es; [|by simplify_eq; split; rewrite ?Es].
    destruct cap as [m|]; [|done]. destruct (0 <? n) eqn:E; simplify_eq; case_tests;
      (split; simpl; [lia|lia|done|by apply (waiters_same l)]).
  - destruct (0 <? _) eqn:E; [|done]. simplify_eq. case_tests. split; simpl; [|lia|done|by apply (waiters_same l)].
    destruct (semaphore l), cap; try done; lia.
  - destruct (0 <? _) eqn:E; [|done]. simplify_eq. case_tests. split; simpl; [|lia|done|by apply (waiters_same l)].
    destruct (semaphore l), cap; try done; lia.
  - destruct (0 <? _) eqn:E; [|done]. simplify_eq. case_tests. split; simpl; [|lia|done|by apply (waiters_same l)].
    destruct (semaphore l), cap; simpl; try done; lia.
  - destruct (closing l) eqn:Ecl; simplify_eq; [by split|]. split; simpl; [done|done|lia|].
    eapply Forall_impl; [exact Hw|]. intros [[] [|[]|[]|]]; simpl; rewrite ?Ecl; naive_solver lia.
  - destruct (0 <? _) eqn:E; [|done]. simplify_eq. case_tests. split; simpl; [done|done|lia|].
    apply (waiters_woken l); simpl; [done|lia|done].
  - simplify_eq. split; simpl; [done|lia|done|]. eapply Forall_impl; [exact Hw|].
    intros [[] [|[]|[]|]]; simpl; naive_solver lia.
  - destruct (0 <? _) eqn:E; [|done]. simplify_eq. case_tests. split; simpl; [done|lia|done|].
    apply (waiters_woken l); simpl; [done|lia|done].
  - destruct k; [|destruct (closing l) eqn:Ecl; [|done]]; simplify_eq; (split; simpl; [done|done|done|]);
      apply Forall_app; (split; [by apply (waiters_same l)|]); by constructor.
  - apply bind_Some in Hst as ([k p] & Hi & (p' & Hp & [= <- <-])%bind_Some). split; simpl; [done|done|done|].
    apply Forall_insert; [by apply (waiters_same l)|]. eapply (wait_step_ok l) in Hp; [|lia|].
    + by destruct k, p' as [|[]|[]|].
    + by eapply Forall_lookup_1 in Hw.
Qed.

Lemma limiter_answer l s a l' :
  limiter_step l s = Some (a, l') ->
  (match a with Overloaded n => n = negb (saturated l) | _ => True end) /\
  saturated l' = match a with Granted => false | Overloaded _ => true | _ => saturated l end.
Proof.
  intros Hst. destruct s as [| | | | | | | |k|i]; cbn [limiter_step] in Hst; unfold acquire in Hst.
  10: by apply bind_Some in Hst as ([k p] & _ & (p' & _ & [= <- <-])%bind_Some).
  all: repeat case_match; by simplify_eq.
Qed.

Lemma closing_step l s a l' :
  closing l = true -> limiter_step l s = Some (a, l') -> closing l' = true /\ guards l' <= guards l.
Proof.
  intros Hc Hst. destruct s as [| | | | | | | |k|i]; cbn [limiter_step] in Hst; unfold acquire in Hst.
  10: apply bind_Some in Hst as ([k p] & _ & (p' & _ & [= <- <-])%bind_Some); simpl; split; [done|lia].
  all: repeat case_match; simplify_eq; simpl; split; done || lia.
Qed.

Lemma limiter_run_inv cap ss : forall l, limiter_inv cap l ->
  limiter_inv cap (run l ss).2 /\ warns_fresh (saturated l) (run l ss).1.
Proof.
  induction ss as [|s ss IH]; intros l Hi; simpl; [done|].
  destruct (limiter_step l s) as [[a l']|] eqn:Hst; [|by apply IH].
  destruct (IH l') as [Hi' Hw]; [by eapply limiter_inv_step|]. destruct (run l' ss) as [answers l'']. simpl in *.
  split; [done|]. destruct (limiter_answer _ _ _ _ Hst) as [Ha Hsat]. rewrite Hsat in Hw. by destruct a.
Qed.

Lemma new_inv m : 0 <= m -> limiter_inv (cap_of m) (new m).
Proof.
  intros Hm. unfold new, cap_of. destruct (m =? 0) eqn:E; case_tests; (split; simpl; [lia|lia|lia|constructor]).
Qed.

(** * Properties *)

(** [C34] The cap holds under every interleaving: with [max_outstanding] set, permits held,
    permits being handed out and free permits always add up to it, and a request is
    turned away only when none is free; with [0] no request ever is.  Each overload
    answer reports the transition into saturation exactly when no permit was granted
    since the previous one. *)
Theorem rpc_cap_enforced (max_outstanding : Z) (ss : list Step) :
  0 <= max_outstanding ->
  let '(answers, l) := run (new max_outstanding) ss in
  warns_fresh false answers /\
  if max_outstanding =? 0 then acquire l = (Unlimited, l)
  else exists free, available_permits l = Some free /\ 0 <= free /\
    free + permits l + acquired_unstored l = max_outstanding /\
    (refused_unswapped (acquire l).2 = refused_unswapped l + 1 <-> permits l + acquired_unstored l = max_outstanding).
Proof.
  intros Hm. destruct (limiter_run_inv _ ss _ (new_inv _ Hm)) as [Hi Hw].
  replace (saturated (new max_outstanding)) with false in Hw by (unfold new; by destruct (_ =? _)).
  destruct (run (new max_outstanding) ss) as [answers l]. destruct Hi as [Hs Hc _ _]. split; [done|].
  unfold cap_of, available_permits, acquire in *. simpl in *. destruct (max_outstanding =? 0) eqn:E.
  - by destruct (semaphore l).
  - destruct (semaphore l) as [n|]; [|done]. exists n. split_and!; [done|lia|lia|].
    destruct (0 <? n) eqn:En; case_tests; simpl; lia.
Qed.

Lemma rpc_cap_enforced_witness :
  warns_fresh false [Silent; Granted; Silent; Overloaded true].
Proof.
  exact (proj1 (rpc_cap_enforced 1 [Acquire; StoreUnsaturated; Acquire; SwapSaturated] ltac:(lia))).
Defined.

(** Shutdown fences and drains requests: once closing, nothing is admitted; a [drain]
    that returned has no admitted request left, for ever after; and no waiter sleeps
    through its condition: one parked without a wake-up waits for something that has not
    happened, or whose notification is still being sent. *)
Theorem rpc_drain_safe (max_outstanding : Z) (ss : list Step) :
  0 <= max_outstanding ->
  let l := (run (new max_outstanding) ss).2 in
  active l = guards l /\
  (closing l = true -> limiter_step l AdmitRequest = Some (Refused, l) /\
     forall s a l', limiter_step l s = Some (a, l') -> closing l' = true /\ guards l' <= guards l) /\
  (forall i, waiters l !! i = Some (ForDrain, WReturned) -> closing l = true /\ guards l = 0) /\
  (forall i k, waiters l !! i = Some (k, WParked false) -> wait_done k l = false \/ 0 < notifications l).
Proof.
  intros Hm l. destruct (limiter_run_inv _ ss _ (new_inv _ Hm)) as [[_ _ [Hg Hg0] Hw] _]. fold l in Hg, Hg0, Hw. split_and!; [done| | |].
  - intros Hc. split; [simpl; by rewrite Hc|]. intros s a l' Hs. by eapply closing_step.
  - intros i Hi. eapply Forall_lookup_1 in Hw; [|exact Hi]. destruct Hw. split; [done|lia].
  - intros i k Hi. eapply Forall_lookup_1 in Hw; [|exact Hi]. destruct k; simpl in *; [naive_solver|].
    left. apply Z.eqb_neq. lia.
Qed.

Lemma rpc_drain_safe_witness :
  let l := (run (new 0) [AdmitRequest; BeginShutdown; NotifyShutdown; StartWait ForDrain; Wait 0; Wait 0;
                         DropGuard; Wait 0; Wait 0; Wait 0]).2 in
  waiters l !! 0%nat = Some (ForDrain, WReturned) /\ closing l = true /\ guards l = 0.
Proof.
  split; [reflexivity|].
  apply (proj1 (proj2 (proj2 (rpc_drain_safe 0 [AdmitRequest; BeginShutdown; NotifyShutdown; StartWait ForDrain;
    Wait 0; Wait 0; DropGuard; Wait 0; Wait 0; Wait 0] ltac:(lia)))) 0%nat). reflexivity.
Defined.

End RpcLimiter.
