(* ===== verification/NotePaging.v ===== *)
(** * Bounded note reads ([crates/intent-core/src/note_read_bounds.rs])

    The line window that serves a page of a note within a byte budget, and the
    paged lists with their keyset cursor.  Texts are lists of Unicode scalar
    values, offsets are bytes. *)
From Stdlib Require Import DecimalString OrdersEx.
From stdpp Require Import countable.
From stdpp Require Import prelude strings sorting.
From S2P Require Import Prelude.
From S2P Require Import Text.
From S2P Require Import Json.

Module LinePage.

Record LineWindow := mkWindow {
  w_start_line : option Z;
  w_max_lines : option Z;
  w_start_offset : option Z }.

Definition is_requested (w : LineWindow) : bool :=
  match w_start_line w, w_max_lines w, w_start_offset w with None, None, None => false | _, _, _ => true end.

Record NoteLinePage := mkPage {
  content : list Z;
  numbered_content : list Z;
  start_line : Z;
  start_offset : Z;
  end_line : Z;
  total_lines : Z;
  line_cut : bool;
  cut_offset : option Z }.

Definition truncated (p : NoteLinePage) : bool :=
  line_cut p || (1 <? start_line p) || (0 <? start_offset p) || (end_line p <? total_lines p).

Definition next_start_line (p : NoteLinePage) : option Z :=
  match cut_offset p with
  | Some _ => Some (end_line p)
  | None => if end_line p <? total_lines p then Some (end_line p + 1) else None
  end.

Definition next_start_offset (p : NoteLinePage) : option Z := cut_offset p.

Inductive NoteWindowError :=
| StartLinePastEnd (start_line total_lines : Z)
| InvalidStartOffset (start_offset line_len : Z).

Definition escaped_prefix (s : list Z) (budget : Z) : list Z := prefix_within 0 s budget.

Fixpoint codes (s : string) : list Z :=
  match s with EmptyString => [] | String a s' => Z.of_N (Ascii.N_of_ascii a) :: codes s' end.

(** [format!("{number:>4} | ")]. *)
Definition number_prefix (number : Z) : list Z :=
  let d := codes (dec_string (Z.to_N number)) in
  repeat 0x20 (4 - length d) ++ d ++ [0x20; 0x7c; 0x20].

(** The page with one more served line. *)
Definition push_line (sep : bool) (prefix served : list Z) (number : Z) (cut : option Z) (p : NoteLinePage) : NoteLinePage :=
  let nl := if sep then [0x0a] else [] in
  mkPage (content p ++ nl ++ served) (numbered_content p ++ nl ++ prefix ++ served)
    (start_line p) (start_offset p) number (total_lines p)
    (match cut with Some _ => true | None => line_cut p end)
    (match cut with Some _ => cut | None => cut_offset p end).

(** What is served of a first line that does not fit. *)
Definition cut_line (line : list Z) (prefix : list Z) (budget : Z) : list Z :=
  match escaped_prefix line (saturating_sub budget (utf8_len prefix) / 2) with
  | [] => match line with c :: _ => [c] | [] => [] end
  | cut => cut
  end.

(** The loop over the lines from [number] on; [None] for a slice off a character boundary. *)
Fixpoint page_loop (budget max_lines : Z) (lines : list (list Z)) (number used : Z) (p : NoteLinePage) :
    option NoteLinePage :=
  match lines with
  | [] => Some p
  | line :: lines' =>
      if max_lines <=? number - start_line p then Some p
      else
        let line_offset := if number =? start_line p then start_offset p else 0 in
        '(_, line) ← split_bytes line_offset line;
        let prefix := number_prefix number in
        let sep := start_line p <? number in
        let sep_cost := if sep then 2 else 0 in
        let cost := 2 * (escaped_text_len line + sep_cost) + utf8_len prefix in
        if used + cost <=? budget then
          page_loop budget max_lines lines' (number + 1) (used + cost) (push_line sep prefix line number None p)
        else if number =? start_line p then
          let cut := cut_line line prefix budget in
          let used' := used + (2 * (escaped_text_len cut + sep_cost) + utf8_len prefix) in
          if utf8_len cut <? utf8_len line then
            Some (push_line sep prefix cut number (Some (line_offset + utf8_len cut)) p)
          else page_loop budget max_lines lines' (number + 1) used' (push_line sep prefix cut number None p)
        else Some p
  end.

Definition note_line_page (content : list Z) (window : LineWindow) (budget : Z) :
    option (Result NoteLinePage NoteWindowError) :=
  let lines := split_lines content in
  let total_lines := len lines in
  let start_line := Z.max (default 1 (w_start_line window)) 1 in
  if total_lines <? start_line then Some (Err (StartLinePastEnd start_line total_lines))
  else
    let start_offset := default 0 (w_start_offset window) in
    let line := default [] (znth lines (start_line - 1)) in
    if (0 <? start_offset) && ((utf8_len line <=? start_offset) || negb (is_char_boundary start_offset line))
    then Some (Err (InvalidStartOffset start_offset (utf8_len line)))
    else
      let max_lines := Z.max (default u64_max (w_max_lines window)) 1 in
      p ← page_loop budget max_lines (zdrop (start_line - 1) lines) start_line 0
            (mkPage [] [] start_line start_offset (start_line - 1) total_lines false None);
      Some (Ok p).

(** A client that follows the cursor: a page with a non-zero [start_offset] continues the
    text, any other page follows after a newline. *)
Fixpoint walk (fuel : nat) (text : list Z) (max_lines : option Z) (budget : Z)
    (line offset : Z) (acc : option (list Z)) : option (list Z) :=
  match fuel with
  | O => None
  | S fuel' =>
      match note_line_page text (mkWindow (Some line) max_lines (Some offset)) budget with
      | Some (Ok p) =>
          let acc' := match acc with
                      | None => content p
                      | Some a => if 0 <? start_offset p then a ++ content p else a ++ [0x0a] ++ content p
                      end in
          match next_start_line p with
          | None => Some acc'
          | Some n => walk fuel' text max_lines budget n (default 0 (next_start_offset p)) (Some acc')
          end
      | _ => None
      end
  end.

(** ** Lines *)

(** Lines after the first, each with its newline. *)
Definition after_lines (ls : list (list Z)) : list Z := ls ≫= fun l => 0x0a :: l.

Lemma join_cons l ls : join_lines (l :: ls) = l ++ after_lines ls.
Proof.
  revert l. induction ls as [|l' ls IH]; intros l; [by rewrite app_nil_r|].
  change (join_lines (l :: l' :: ls)) with (l ++ [0x0a] ++ join_lines (l' :: ls)). rewrite IH. done.
Qed.

Lemma after_lines_app ls ks : after_lines (ls ++ ks) = after_lines ls ++ after_lines ks.
Proof. apply bind_app. Qed.

Lemma digit_codes d : Forall (fun c => 0x30 <= c <= 0x39) (codes (NilEmpty.string_of_uint d)).
Proof. induction d; simpl; repeat constructor; done. Qed.

Lemma dec_codes n : Forall (fun c => 0x30 <= c <= 0x39) (codes (dec_string n)).
Proof.
  unfold dec_string, NilZero.string_of_uint. destruct (N.to_uint n); try apply digit_codes. repeat constructor; done.
Qed.

Lemma plain_text l : Forall (fun c => c = 0x20 \/ c = 0x7c \/ 0x30 <= c <= 0x39) l ->
  escaped_text_len l = utf8_len l /\ utf8_len l = len l.
Proof.
  induction 1 as [|c l Hc _ [IH1 IH2]]; [done|]. rewrite len_cons. unfold escaped_text_len, utf8_len in *. simpl.
  assert (json_escaped_len c = 1 /\ len_utf8 c = 1) as [-> ->]; [|lia].
  unfold json_escaped_len, len_utf8. split; repeat split_match; case_tests; try lia.
  all: repeat match goal with H : (_ || _)%bool = true |- _ => apply orb_true_iff in H as [H|H] end; case_tests; lia.
Qed.

Lemma prefix_plain number : escaped_text_len (number_prefix number) = utf8_len (number_prefix number).
Proof.
  apply plain_text. unfold number_prefix. apply Forall_app. split; [apply Forall_forall; intros c Hc|apply Forall_app; split].
  - apply list_elem_of_In, repeat_spec in Hc. by left.
  - eapply Forall_impl; [apply dec_codes|]. simpl. lia.
  - repeat (apply Forall_cons; split; [auto|]). constructor.
Qed.

Lemma split_bytes_zero l : split_bytes 0 l = Some ([], l).
Proof. by destruct l. Qed.

(** ** The loop *)

(** The sizes a page accounts for. *)
Definition page_size (p : NoteLinePage) : Z := escaped_text_len (content p) + escaped_text_len (numbered_content p).

Lemma push_size sep number served cut p :
  page_size (push_line sep (number_prefix number) served number cut p) =
  page_size p + (2 * (escaped_text_len served + (if sep then 2 else 0)) + utf8_len (number_prefix number)).
Proof.
  unfold page_size, push_line. simpl. rewrite !escaped_text_app, prefix_plain.
  destruct sep; simpl; unfold escaped_text_len; simpl; change (json_escaped_len 10) with 2; lia.
Qed.

(** Past the first line, the loop serves whole lines while they fit. *)
Lemma page_loop_more budget max_lines lines : forall number used p,
  start_line p < number -> end_line p = number - 1 -> used = page_size p ->
  exists k p', page_loop budget max_lines lines number used p = Some p' /\ (k <= length lines)%nat /\
    content p' = content p ++ after_lines (take k lines) /\ end_line p' = number - 1 + Z.of_nat k /\
    start_line p' = start_line p /\ start_offset p' = start_offset p /\ total_lines p' = total_lines p /\
    line_cut p' = line_cut p /\ cut_offset p' = cut_offset p /\ page_size p' <= Z.max (page_size p) budget.
Proof.
  induction lines as [|line lines IH]; intros number used p Hn He Hu.
  { exists 0%nat, p. simpl. rewrite app_nil_r. split_and!; done || lia. }
  assert (exists p', Some p = Some p' /\ (0 <= length (line :: lines))%nat /\
    content p' = content p ++ after_lines (take 0 (line :: lines)) /\ end_line p' = number - 1 + Z.of_nat 0 /\
    start_line p' = start_line p /\ start_offset p' = start_offset p /\ total_lines p' = total_lines p /\
    line_cut p' = line_cut p /\ cut_offset p' = cut_offset p /\ page_size p' <= Z.max (page_size p) budget) as Hstop.
  { exists p. simpl. rewrite app_nil_r. split_and!; done || lia. }
  cbn [page_loop]. destruct (max_lines <=? number - start_line p); [exists 0%nat; exact Hstop|].
  rewrite (proj2 (Z.eqb_neq number (start_line p))), split_bytes_zero, (proj2 (Z.ltb_lt (start_line p) number) Hn) by lia.
  cbn [mbind option_bind].
  destruct (_ <=? budget) eqn:Ef; [|exists 0%nat; exact Hstop]. case_tests.
  set (p1 := push_line true (number_prefix number) line number None p).
  destruct (IH (number + 1) (used + (2 * (escaped_text_len line + 2) + utf8_len (number_prefix number))) p1)
    as (k & p' & -> & Hk & Hc & Hel & H1 & H2 & H3 & H4 & H5 & Hsz).
  { simpl. lia. }
  { simpl. lia. }
  { subst p1. rewrite push_size. lia. }
  exists (S k), p'. split_and!; try done.
  - simpl. lia.
  - rewrite Hc. subst p1. simpl. rewrite <- app_assoc. done.
  - rewrite Hel. lia.
  - subst p1. rewrite push_size in Hsz. lia.
Qed.

Lemma cut_line_spec line prefix budget :
  exists rest, line = cut_line line prefix budget ++ rest /\ (line <> [] -> cut_line line prefix budget <> []) /\
    2 * escaped_text_len (cut_line line prefix budget) + utf8_len prefix <= Z.max budget (utf8_len prefix + 12).
Proof.
  unfold cut_line, escaped_prefix. set (room := saturating_sub budget (utf8_len prefix) / 2).
  pose proof (utf8_len_nonneg prefix).
  destruct (prefix_within_spec line 0 room) as (rest & Hl & Hb & _).
  destruct (prefix_within 0 line room) as [|c0 cut] eqn:E.
  - destruct line as [|c line]; [exists []; split_and!; [done|done|]; unfold escaped_text_len; simpl; lia|].
    exists line. split_and!; [done|done|]. unfold escaped_text_len. simpl. pose proof (json_escaped_len_pos c). lia.
  - exists rest. split_and!; [done|done|]. destruct Hb as [Hb|Hb]; [done|].
    assert (2 * room <= Z.max 0 (budget - utf8_len prefix)) by (apply Z.mul_div_le; lia).
    pose proof (escaped_text_nonneg (c0 :: cut)). pose proof (json_escaped_len_pos c0).
    assert (1 <= escaped_text_len (c0 :: cut)).
    { unfold escaped_text_len. simpl. pose proof (escaped_text_nonneg cut). unfold escaped_text_len in *. lia. }
    lia.
Qed.

(** The served text of a page: all it cut from its first line, or whole lines. *)
Definition served (p : NoteLinePage) (off : Z) (line : list Z) (ls : list (list Z)) : Prop :=
  (exists cut rest, line = cut ++ rest /\ cut <> [] /\ rest <> [] /\ content p = cut /\
     end_line p = start_line p /\ line_cut p = true /\ cut_offset p = Some (off + utf8_len cut)) \/
  (exists k, (k <= length ls)%nat /\ content p = line ++ after_lines (take k ls) /\
     end_line p = start_line p + Z.of_nat k /\ line_cut p = false /\ cut_offset p = None).

Lemma page_first budget max_lines a line ls s total :
  1 <= max_lines ->
  exists p, page_loop budget max_lines ((a ++ line) :: ls) s 0
      (mkPage [] [] s (utf8_len a) (s - 1) total false None) = Some p /\
    start_line p = s /\ start_offset p = utf8_len a /\ total_lines p = total /\
    served p (utf8_len a) line ls /\ page_size p <= Z.max budget (utf8_len (number_prefix s) + 12).
Proof.
  intros Hm. cbn [page_loop start_line start_offset]. rewrite Z.sub_diag, (proj2 (Z.leb_gt max_lines 0)), Z.eqb_refl by lia.
  rewrite split_bytes_app, Z.ltb_irrefl. cbn [mbind option_bind]. set (p0 := mkPage _ _ _ _ _ _ _ _).
  assert (forall l, page_size (push_line false (number_prefix s) l s None p0) = 2 * (escaped_text_len l + 0) + utf8_len (number_prefix s)) as Hsz.
  { intros l. rewrite push_size. by change (page_size p0) with 0. }
  assert (forall used, used = page_size (push_line false (number_prefix s) line s None p0) ->
    used <= Z.max budget (utf8_len (number_prefix s) + 12) ->
    exists p, page_loop budget max_lines ls (s + 1) used (push_line false (number_prefix s) line s None p0) = Some p /\
      start_line p = s /\ start_offset p = utf8_len a /\ total_lines p = total /\
      served p (utf8_len a) line ls /\ page_size p <= Z.max budget (utf8_len (number_prefix s) + 12)) as Hmore.
  { intros used Hu Hb.
    destruct (page_loop_more budget max_lines ls (s + 1) used (push_line false (number_prefix s) line s None p0))
      as (k & p & -> & Hk & Hc & Hel & H1 & H2 & H3 & H4 & H5 & H6); [simpl; lia|simpl; lia|done|].
    exists p. split_and!; [done|done|done|done| |lia]. right. exists k. split_and!; try done. rewrite Hel, H1. simpl. lia. }
  destruct (_ <=? budget) eqn:Ef; case_tests; [apply Hmore; rewrite ?Hsz; lia|].
  destruct (cut_line_spec line (number_prefix s) budget) as (rest & Hl & Hne & Hb).
  destruct (_ <? _) eqn:Ec; case_tests.
  - eexists. split; [done|]. split_and!; try done; [|rewrite push_size; change (page_size p0) with 0; lia].
    left. exists (cut_line line (number_prefix s) budget), rest. split_and!; try done.
    + apply Hne. intros ->. simpl in Ec. unfold utf8_len in Ec. simpl in Ec. pose proof (utf8_len_nonneg (cut_line [] (number_prefix s) budget)).
      unfold utf8_len in *. lia.
    + intros ->. rewrite app_nil_r in Hl. rewrite <- Hl in Ec. lia.
  - assert (rest = []) as ->.
    { apply utf8_len_zero. rewrite Hl, utf8_len_app in Ec at 1. pose proof (utf8_len_nonneg rest). lia. }
    rewrite app_nil_r in Hl. rewrite <- Hl in *. apply Hmore; rewrite ?Hsz; lia.
Qed.

(** A cursor: line [s] of the text from byte [utf8_len a] on. *)
Record cursor (text : list Z) (s : Z) (pre : list (list Z)) (a line : list Z) (ls : list (list Z)) : Prop := {
  cu_lines : split_lines text = pre ++ (a ++ line) :: ls;
  cu_number : s = len pre + 1;
  cu_inside : a <> [] -> line <> [] }.

Lemma page_at text s pre a line ls max_lines budget :
  cursor text s pre a line ls ->
  exists p, note_line_page text (mkWindow (Some s) max_lines (Some (utf8_len a))) budget = Some (Ok p) /\
    start_line p = s /\ start_offset p = utf8_len a /\ total_lines p = len (split_lines text) /\
    served p (utf8_len a) line ls /\ page_size p <= Z.max budget (utf8_len (number_prefix s) + 12).
Proof.
  intros [Hl Hs Hin]. unfold note_line_page. simpl. rewrite Hl. pose proof (len_nonneg pre). pose proof (len_nonneg ls).
  rewrite (Z.max_l s 1) by lia. rewrite (proj2 (Z.ltb_ge (len (pre ++ (a ++ line) :: ls)) s)) by (rewrite len_app, len_cons; lia).
  replace (s - 1) with (len pre) by lia. rewrite znth_app_r, Z.sub_diag by lia. cbn [znth default].
  pose proof (utf8_len_nonneg a). pose proof (utf8_len_nonneg line).
  assert ((0 <? utf8_len a) && ((utf8_len (a ++ line) <=? utf8_len a) || negb (is_char_boundary (utf8_len a) (a ++ line))) = false) as Hok.
  { apply andb_false_iff. destruct (decide (utf8_len a = 0)) as [->|Hne]; [by left|right].
    unfold is_char_boundary. rewrite split_bytes_app. apply orb_false_iff. split; [|done]. apply Z.leb_gt.
    rewrite utf8_len_app. destruct (decide (utf8_len line = 0)) as [Hz|]; [|lia].
    apply utf8_len_zero in Hz. exfalso. apply Hin; [|done]. intros ->. done. }
  change (default [] (znth ((a ++ line) :: ls) 0)) with (a ++ line). rewrite Hok.
  rewrite zdrop_app, zdrop_all, Z.sub_diag, zdrop_le0 by lia. cbn [app].
  destruct (page_first budget (Z.max (default u64_max max_lines) 1) a line ls s (len (pre ++ (a ++ line) :: ls)))
    as (p & Hp & P1 & P2 & P3 & P4 & P5); [lia|].
  replace (len pre) with (s - 1) by lia. rewrite Hp. exists p. by split_and!.
Qed.

(** ** Following the cursor *)

Definition joined (acc : option (list Z)) (a t : list Z) : list Z :=
  match acc with
  | None => t
  | Some x => if decide (a = []) then x ++ [0x0a] ++ t else x ++ t
  end.

Lemma joined_test acc a t :
  match acc with
  | None => t
  | Some x => if 0 <? utf8_len a then x ++ t else x ++ [0x0a] ++ t
  end = joined acc a t.
Proof.
  unfold joined. destruct acc as [x|]; [|done]. pose proof (utf8_len_nonneg a).
  destruct (decide (a = [])) as [->|Hne]; [done|]. rewrite (proj2 (Z.ltb_lt 0 (utf8_len a))); [done|].
  destruct (decide (utf8_len a = 0)) as [Hz%utf8_len_zero|]; [done|lia].
Qed.

Lemma joined_app acc a t u : joined acc a (t ++ u) = joined acc a t ++ u.
Proof. unfold joined. destruct acc as [x|]; [|done]. destruct (decide (a = [])); by rewrite <- ?app_assoc. Qed.

Lemma cursor_cut text s pre a cut rest ls :
  cursor text s pre a (cut ++ rest) ls -> rest <> [] -> cursor text s pre (a ++ cut) rest ls.
Proof. intros [Hl Hs Hi] Hr. split; [by rewrite <- app_assoc|done|done]. Qed.

Lemma cursor_next text s pre a line ks l ls :
  cursor text s pre a line (ks ++ l :: ls) ->
  cursor text (s + len ks + 1) (pre ++ (a ++ line) :: ks) [] l ls.
Proof.
  intros [Hl Hs Hi]. split; [by rewrite Hl, <- app_assoc|rewrite len_app, len_cons; lia|done].
Qed.

Lemma cursor_total text s pre a line ls :
  cursor text s pre a line ls -> len (split_lines text) = s + len ls.
Proof. intros [Hl Hs _]. rewrite Hl, len_app, len_cons. lia. Qed.

Lemma walk_rebuilds text max_lines budget fuel : forall s pre a line ls acc,
  cursor text s pre a line ls -> (length (line ++ after_lines ls) < fuel)%nat ->
  walk fuel text max_lines budget s (utf8_len a) acc = Some (joined acc a (line ++ after_lines ls)).
Proof.
  induction fuel as [|fuel IH]; intros s pre a line ls acc Hc Hf; [lia|]. cbn [walk].
  destruct (page_at text s pre a line ls max_lines budget Hc) as (p & -> & Hsl & Hso & Htl & Hsv & _).
  cbv zeta. rewrite Hso, joined_test. unfold next_start_line, next_start_offset.
  destruct Hsv as [(cut & rest & -> & Hne & Hrne & -> & Hel & _ & ->)|(k & Hk & -> & Hel & _ & ->)].
  - rewrite Hel, Hsl, <- utf8_len_app. cbn [default from_option].
    rewrite (IH s pre (a ++ cut) rest ls); [|by apply cursor_cut|].
    + unfold joined at 1. rewrite decide_False by (intros [_ ?]%app_eq_nil; done).
      by rewrite <- !app_assoc, (joined_app _ _ cut).
    + rewrite !length_app in Hf. rewrite length_app. destruct cut; [done|]. cbn [length] in Hf. lia.
  - assert (exists ks rest, ls = ks ++ rest /\ take k ls = ks /\ len ks = Z.of_nat k) as (ks & rest & -> & -> & Hlk).
    { exists (take k ls), (drop k ls). rewrite take_drop. split_and!; [done|done|]. unfold len. rewrite length_take. lia. }
    pose proof (cursor_total _ _ _ _ _ _ Hc) as Ht. rewrite Htl, Hel, Hsl, Ht, len_app, Hlk.
    destruct rest as [|l ls'].
    + rewrite app_nil_r, (proj2 (Z.ltb_ge _ _)) by (rewrite len_nil; lia). done.
    + pose proof (len_nonneg ls'). rewrite (proj2 (Z.ltb_lt _ _)) by (rewrite len_cons; lia). cbn [default from_option].
      apply cursor_next in Hc. rewrite Hlk in Hc. change (default 0 None) with (utf8_len []).
      rewrite (IH _ _ [] l ls' _ Hc).
      * unfold joined at 1. rewrite decide_True by done. by rewrite after_lines_app, !joined_app, <- !app_assoc.
      * rewrite after_lines_app, !length_app in Hf. change (after_lines (l :: ls')) with ((0x0a :: l) ++ after_lines ls') in Hf.
        rewrite !length_app in Hf. rewrite length_app. cbn [length] in Hf. lia.
Qed.

Lemma cursor_start text : exists line ls, cursor text 1 [] [] line ls /\ line ++ after_lines ls = text.
Proof.
  destruct (split_join text) as [Hj Hne]. destruct (split_lines text) as [|line ls] eqn:E; [done|].
  exists line, ls. split; [by split|]. by rewrite <- join_cons.
Qed.

(** Cursors are what [note_line_page] accepts. *)
Lemma page_ok_cursor text s off :
  1 <= s <= len (split_lines text) ->
  (off = 0 \/ 0 < off /\ exists line a b, znth (split_lines text) (s - 1) = Some line /\ line = a ++ b /\ utf8_len a = off /\ b <> []) ->
  exists pre a line ls, cursor text s pre a line ls /\ utf8_len a = off.
Proof.
  intros Hs Hoff. destruct (znth (split_lines text) (s - 1)) as [l0|] eqn:En.
  2: { exfalso. unfold znth in En. rewrite (proj2 (Z.leb_le 0 (s - 1))) in En by lia.
       apply lookup_ge_None in En. unfold len in Hs. lia. }
  unfold znth in En. rewrite (proj2 (Z.leb_le 0 (s - 1))) in En by lia.
  pose proof (take_drop_middle _ _ _ En) as Hm.
  assert (len (take (Z.to_nat (s - 1)) (split_lines text)) = s - 1) as Hlen
    by (unfold len in *; rewrite length_take; lia).
  destruct Hoff as [->|[Ho (line & a & b & [= <-] & -> & Ha & Hb)]].
  - exists (take (Z.to_nat (s - 1)) (split_lines text)), [], l0, (drop (S (Z.to_nat (s - 1))) (split_lines text)).
    split; [|done]. split; [by rewrite <- Hm at 1|lia|done].
  - exists (take (Z.to_nat (s - 1)) (split_lines text)), a, b, (drop (S (Z.to_nat (s - 1))) (split_lines text)).
    split; [|done]. split; [by rewrite <- Hm at 1|lia|done].
Qed.

Lemma note_line_page_defaults text w budget :
  note_line_page text w budget =
  note_line_page text (mkWindow (Some (Z.max (default 1 (w_start_line w)) 1)) (w_max_lines w)
    (Some (default 0 (w_start_offset w)))) budget.
Proof. unfold note_line_page. simpl. by rewrite (Z.max_l (Z.max _ _) 1) by lia. Qed.

Lemma served_lines p text s pre a line ls :
  cursor text s pre a line ls -> served p (utf8_len a) line ls -> start_line p = s ->
  start_offset p = utf8_len a -> total_lines p = len (split_lines text) ->
  start_line p <= end_line p <= total_lines p /\ (truncated p = false -> content p = text).
Proof.
  intros Hc Hsv Hs Ho Ht. pose proof (cursor_total _ _ _ _ _ _ Hc) as Htot. pose proof (len_nonneg ls).
  destruct Hsv as [(cut & rest & -> & Hne & Hrne & Hct & Hel & Hcut & _)|(k & Hk & Hct & Hel & Hcut & _)].
  - split; [lia|]. unfold truncated. by rewrite Hcut.
  - split; [unfold len in *; lia|]. unfold truncated. rewrite Hcut. simpl.
    intros [[H1 H2]%orb_false_iff H3]%orb_false_iff. case_tests.
    assert (a = []) as -> by (apply utf8_len_zero; pose proof (utf8_len_nonneg a); lia).
    destruct Hc as [Hl Hn _]. assert (pre = []) as -> by (apply len_zero_nil; pose proof (len_nonneg pre); lia).
    rewrite Hct, take_ge by (unfold len in *; lia). rewrite <- join_cons. simpl in Hl. rewrite <- Hl.
    apply split_join.
Qed.

(** The test of [start_offset]. *)
Definition bad_offset (line : list Z) (off : Z) : bool :=
  (0 <? off) && ((utf8_len line <=? off) || negb (is_char_boundary off line)).

Lemma offset_test line off :
  0 <= off ->
  bad_offset line off = false <-> off = 0 \/ (0 < off /\ exists a b, line = a ++ b /\ utf8_len a = off /\ b <> []).
Proof.
  intros Ho. unfold bad_offset, is_char_boundary. destruct (0 <? off) eqn:E; case_tests; simpl; [|split; [left; lia|done]].
  destruct (split_bytes off line) as [[a b]|] eqn:Es; simpl.
  - apply split_bytes_some in Es as [-> <-]. rewrite orb_false_r, Z.leb_gt, utf8_len_app. split.
    + intros Hl. right. split; [done|]. exists a, b. split_and!; [done|done|]. intros ->. unfold utf8_len in Hl at 3. simpl in Hl. lia.
    + intros [?|(_ & a' & b' & Hab & Ha & Hb)]; [lia|].
      apply (f_equal utf8_len) in Hab. rewrite !utf8_len_app in Hab.
      destruct (decide (utf8_len b' = 0)) as [Hz%utf8_len_zero|]; [done|]. pose proof (utf8_len_nonneg b'). lia.
  - rewrite orb_true_r. split; [done|]. intros [?|(_ & a & b & -> & <- & _)]; [lia|]. by rewrite split_bytes_app in Es.
Qed.

(** * Properties *)

(** [C29] Following the cursor rebuilds the note byte for byte: whatever the budget and the
    line limit, a client that starts at line 1 and appends each page, after a newline
    unless the page resumes a cut line, ends with exactly the note, in at most one page
    more than the note has characters. *)
Theorem note_pages_rebuild (text : list Z) (max_lines : option Z) (budget : Z) :
  walk (S (length text)) text max_lines budget 1 0 None = Some text.
Proof.
  destruct (cursor_start text) as (line & ls & Hc & Ht).
  pose proof (walk_rebuilds text max_lines budget (S (length text)) 1 [] [] line ls None Hc) as Hw.
  rewrite Ht in Hw. apply Hw. lia.
Qed.

(** A page request never panics.  It is refused exactly when the start line is past the
    end, or a non-zero offset is not a character boundary strictly inside that line;
    otherwise the page holds at least one line, both renderings together stay within the
    budget (one character of a longer line is always served), and a page that does not
    report truncation is the whole note. *)
Theorem note_line_page_bounded (text : list Z) (w : LineWindow) (budget : Z) :
  0 <= default 0 (w_start_offset w) ->
  let s := Z.max (default 1 (w_start_line w)) 1 in
  let off := default 0 (w_start_offset w) in
  let inside := off = 0 \/ 0 < off /\ exists line a b,
    znth (split_lines text) (s - 1) = Some line /\ line = a ++ b /\ utf8_len a = off /\ b <> [] in
  match note_line_page text w budget with
  | None => False
  | Some (Err (StartLinePastEnd s' n)) => s' = s /\ n = len (split_lines text) /\ n < s
  | Some (Err (InvalidStartOffset off' _)) => off' = off /\ s <= len (split_lines text) /\ ~ inside
  | Some (Ok p) => s <= len (split_lines text) /\ inside /\
      page_size p <= Z.max budget (utf8_len (number_prefix s) + 12) /\
      start_line p <= end_line p <= total_lines p /\ (truncated p = false -> content p = text)
  end.
Proof.
  intros Hoff s off inside. rewrite note_line_page_defaults. fold s off. assert (1 <= s) by lia.
  destruct (decide (len (split_lines text) < s)) as [Hlt|Hle].
  { unfold note_line_page. simpl. rewrite (Z.max_l s 1), (proj2 (Z.ltb_lt _ _) Hlt) by lia. done. }
  destruct (znth (split_lines text) (s - 1)) as [line0|] eqn:En.
  2: { exfalso. unfold znth in En. rewrite (proj2 (Z.leb_le 0 (s - 1))) in En by lia.
       apply lookup_ge_None in En. unfold len in Hle. lia. }
  pose proof (offset_test line0 off Hoff) as Htest.
  destruct (bad_offset line0 off) eqn:Eb.
  - unfold note_line_page. simpl. rewrite (Z.max_l s 1), (proj2 (Z.ltb_ge _ _)), En by lia. simpl.
    unfold bad_offset in Eb. rewrite Eb. split_and!; [done|lia|]. intros Hin. subst inside.
    assert (true = false); [|done]. apply Htest. destruct Hin as [?|(? & line & a & b & Hl & ? & ? & ?)]; [by left|].
    injection Hl as <-. right. split; [done|]. eauto.
  - assert inside as Hin.
    { subst inside. destruct (proj1 Htest eq_refl) as [?|(? & a & b & ?)]; [by left|right]. eauto 10. }
    destruct (page_ok_cursor text s off) as (pre & a & line & ls & Hc & Ha); [lia|by rewrite En|].
    rewrite <- Ha. destruct (page_at text s pre a line ls (w_max_lines w) budget Hc) as (p & -> & Hs & Ho & Ht & Hsv & Hsz).
    split; [lia|]. split; [done|]. split; [done|]. eapply served_lines; eauto.
Qed.

Lemma note_line_page_bounded_witness :
  match note_line_page [65; 10; 66] (mkWindow (Some 2) None None) 100 with
  | Some (Ok p) => page_size p <= 100
  | _ => False
  end.
Proof.
  pose proof (note_line_page_bounded [65; 10; 66] (mkWindow (Some 2) None None) 100 ltac:(simpl; lia)) as H.
  vm_compute in H. vm_compute. destruct H as (_ & _ & H & _). exact H.
Defined.

End LinePage.

(** * Paged lists *)

Module ListPage.

(** [Ord] of a pair of strings. *)
Definition pair_compare (a b : string * string) : comparison :=
  match String_as_OT.compare a.1 b.1 with
  | Eq => String_as_OT.compare a.2 b.2
  | c => c
  end.

Definition pair_lt (a b : string * string) : bool :=
  match pair_compare a b with Lt => true | _ => false end.

(** ** Requests and tokens *)

Record PageRequest := mkRequest {
  limit : Z;
  next_token : option string }.

Definition new (limit : option Z) (default_ max : Z) (next_token : option string) : PageRequest :=
  let l := default default_ limit in
  mkRequest (if l <? 1 then 1 else if max <? l then max else l) next_token.

Record CursorWire := mkCursor {
  v : Z;
  scope : string;
  key : string;
  id : string }.

(** [serde_json] on [CursorWire]. *)
Class CursorJson := {
  to_string : CursorWire -> string;
  from_str : string -> option CursorWire }.

Class CursorJsonLaws `{!CursorJson} : Prop := {
  from_to_string c : from_str (to_string c) = Some c }.

Section pages.
Context {CJ : CursorJson}.

Definition page_token (scope key id : string) : string := to_string (mkCursor 1 scope key id).

Definition parse_page_token (token scope_ : string) : option (string * string) :=
  c ← from_str token;
  if negb (v c =? 1) || negb (bool_decide (scope c = scope_)) || bool_decide (id c = EmptyString)
  then None else Some (key c, id c).

(** ** Pages of rows *)

Context {Item : Type} (item_key : Item -> string * string).
Context (render : Item -> json) (shrink : Item -> Z -> json).

(** The loop of [take_page]; [idx] is the index of the next item. *)
Fixpoint take_loop (limit budget : Z) (items : list Item) (idx : Z) (rows : list json) (used : Z) :
    list json * option Z :=
  match items with
  | [] => (rows, None)
  | item :: items' =>
      if limit <=? len rows then (rows, Some (idx - 1))
      else
        let row := render item in
        let cost := serialized_size row + 1 in
        if budget <? used + cost then
          match rows with
          | _ :: _ => (rows, Some (idx - 1))
          | [] =>
              let row := shrink item (saturating_sub budget (used + 1)) in
              take_loop limit budget items' (idx + 1) (rows ++ [row]) (used + (serialized_size row + 1))
          end
        else take_loop limit budget items' (idx + 1) (rows ++ [row]) (used + cost)
  end.

Definition take_page (items : list Item) (limit budget : Z) : list json * option Z :=
  take_loop limit budget items 0 [] 2.

(** [sort_by] on the page key, a stable sort. *)
Fixpoint insert_item (x : Item) (l : list Item) : list Item :=
  match l with
  | [] => [x]
  | y :: l' => if pair_lt (item_key y) (item_key x) then y :: insert_item x l' else x :: l
  end.

Definition sort_items (l : list Item) : list Item := foldr insert_item [] l.

(** [note_list_page] and [task_list_page] past their row rendering: the rows and the next
    token; [None] for an invalid token, and a panic inside. *)
Definition list_page (items : list Item) (scope_ : string) (page : PageRequest) (budget : Z) :
    option (option (list json * option string)) :=
  let sorted := sort_items items in
  let rest := match next_token page with
              | None => Some sorted
              | Some token =>
                  c ← parse_page_token token scope_;
                  Some (filter (fun x => pair_lt c (item_key x) = true) sorted)
              end in
  match rest with
  | None => Some None
  | Some rest =>
      let '(rows, last) := take_page rest (limit page) budget in
      match last with
      | None => Some (Some (rows, None))
      | Some i =>
          x ← znth rest i;
          Some (Some (rows, Some (page_token scope_ (item_key x).1 (item_key x).2)))
      end
  end.

(** A client that follows the tokens. *)
Fixpoint follow (fuel : nat) (items : list Item) (scope_ : string) (limit_ budget : Z) (token : option string) :
    option (list json) :=
  match fuel with
  | O => None
  | S fuel' =>
      match list_page items scope_ (mkRequest limit_ token) budget with
      | Some (Some (rows, None)) => Some rows
      | Some (Some (rows, Some t)) =>
          more ← follow fuel' items scope_ limit_ budget (Some t); Some (rows ++ more)
      | _ => None
      end
  end.

(** ** Order *)

Lemma compare_refl s : String_as_OT.compare s s = Eq.
Proof.
  destruct (String_as_OT.compare_spec s s) as [_|L|L]; [done| |]; by apply (StrictOrder_Irreflexive s) in L.
Qed.

Lemma pair_lt_trans a b c : pair_lt a b = true -> pair_lt b c = true -> pair_lt a c = true.
Proof.
  unfold pair_lt, pair_compare.
  destruct (String_as_OT.compare_spec a.1 b.1) as [E1|L1|]; [| |done];
  destruct (String_as_OT.compare_spec b.1 c.1) as [E2|L2|]; try done.
  - rewrite E1, E2, compare_refl.
    destruct (String_as_OT.compare_spec a.2 b.2) as [|La|]; [done| |done].
    destruct (String_as_OT.compare_spec b.2 c.2) as [|Lb|]; [done| |done]. intros _ _.
    pose proof (transitivity La Lb) as Ht. unfold String_as_OT.lt in Ht. by rewrite Ht.
  - rewrite E1. unfold String_as_OT.lt in L2. by rewrite L2.
  - rewrite <- E2. unfold String_as_OT.lt in L1. by rewrite L1.
  - pose proof (transitivity L1 L2) as Ht. unfold String_as_OT.lt in Ht. by rewrite Ht.
Qed.

Lemma pair_lt_irrefl a : pair_lt a a = false.
Proof.
  unfold pair_lt, pair_compare.
  by rewrite !compare_refl.
Qed.

Lemma pair_lt_total a b : pair_lt a b = false -> a = b \/ pair_lt b a = true.
Proof.
  unfold pair_lt, pair_compare.
  destruct (String_as_OT.compare_spec a.1 b.1) as [E1|L1|G1]; [| done|].
  - destruct (String_as_OT.compare_spec a.2 b.2) as [E2|L2|G2]; [|done|]; intros _.
    + left. destruct a, b. simpl in *. congruence.
    + right. rewrite E1, compare_refl.
      unfold String_as_OT.lt in G2. by rewrite G2.
  - intros _. right. unfold String_as_OT.lt in G1. by rewrite G1.
Qed.

Definition item_lt (x y : Item) : Prop := pair_lt (item_key x) (item_key y) = true.

Lemma elem_of_insert_item x y l : y ∈ insert_item x l <-> y = x \/ y ∈ l.
Proof.
  induction l as [|z l IH]; simpl; [set_solver|]. destruct (pair_lt _ _); set_solver.
Qed.

Lemma elem_of_sort_items y l : y ∈ sort_items l <-> y ∈ l.
Proof. induction l as [|x l IH]; simpl; [done|]. rewrite elem_of_insert_item, IH. set_solver. Qed.

Lemma length_sort_items l : length (sort_items l) = length l.
Proof.
  assert (forall x k, length (insert_item x k) = S (length k)) as Hi.
  { intros x k. induction k as [|y k IH]; simpl; [done|]. destruct (pair_lt _ _); simpl; by rewrite ?IH. }
  induction l as [|x l IH]; simpl; [done|]. by rewrite Hi, IH.
Qed.

Lemma insert_item_sorted x l :
  StronglySorted item_lt l -> Forall (fun y => item_key y <> item_key x) l -> StronglySorted item_lt (insert_item x l).
Proof.
  induction 1 as [|y l Hs IH Hy]; intros Hne; simpl; [by repeat constructor|].
  apply Forall_cons in Hne as [Hn Hne]. destruct (pair_lt (item_key y) (item_key x)) eqn:E.
  - constructor; [by apply IH|]. apply Forall_forall. intros z [-> |Hz]%elem_of_insert_item; [done|].
    by eapply Forall_forall in Hy.
  - apply pair_lt_total in E as [?|E]; [done|]. constructor; [by constructor|]. constructor; [done|].
    eapply Forall_impl; [exact Hy|]. intros z Hz. by eapply pair_lt_trans.
Qed.

Lemma sort_items_sorted l : NoDup (item_key <$> l) -> StronglySorted item_lt (sort_items l).
Proof.
  induction l as [|x l IH]; simpl; [constructor|]. intros [Hx Hl]%NoDup_cons. apply insert_item_sorted; [by apply IH|].
  apply Forall_forall. intros y Hy Hk. apply (proj1 (elem_of_sort_items y l)) in Hy. apply Hx, list_elem_of_fmap. exists y. split; [congruence|done].
Qed.

(** Past a cursor the sorted items are the ones after it. *)
Lemma sorted_after done_ x rest :
  StronglySorted item_lt (done_ ++ x :: rest) ->
  filter (fun y => pair_lt (item_key x) (item_key y) = true) (done_ ++ x :: rest) = rest.
Proof.
  intros Hs. rewrite filter_app, filter_cons_False by (rewrite pair_lt_irrefl; done).
  assert (filter (fun y => pair_lt (item_key x) (item_key y) = true) done_ = []) as ->.
  { induction done_ as [|y done_ IH]; [done|]. simpl in Hs. inversion_clear Hs as [|? ? Hs' Hy].
    apply Forall_app in Hy as [_ [Hy _]%Forall_cons]. rewrite filter_cons_False; [by apply IH|].
    intros H. pose proof (pair_lt_trans _ _ _ Hy H) as Hi. by rewrite pair_lt_irrefl in Hi. }
  simpl. assert (Forall (fun y => pair_lt (item_key x) (item_key y) = true) rest) as Hall.
  { induction done_ as [|y done_ IH]; simpl in Hs; inversion_clear Hs; [done|by apply IH]. }
  clear -Hall. induction Hall as [|y rest Hy _ IH]; [done|]. rewrite filter_cons_True by done. by rewrite IH.
Qed.

(** ** Pages *)

(** A row of an item. *)
Definition row_of (row : json) (x : Item) : Prop := row = render x \/ exists room, row = shrink x room.

Definition rows_size (rows : list json) : Z := 2 + sum_with (fun r => serialized_size r + 1) rows.

(** Within the budget, or one row shrunk to fit. *)
Definition fits (budget : Z) (rows : list json) : Prop :=
  rows_size rows <= budget \/ rows = [] \/ exists x room, rows = [shrink x room].

(** The loop turned the first items [taken] into rows [more] and left [rest]. *)
Record page_of (limit budget idx : Z) (rows : list json) (items : list Item) (res : list json * option Z)
    (taken rest : list Item) (more : list json) : Prop := {
  po_items : items = taken ++ rest;
  po_res : res = (rows ++ more, match rest with [] => None | _ => Some (idx + len taken - 1) end);
  po_rows : Forall2 row_of more taken;
  po_progress : rest <> [] -> taken <> [] \/ rows <> [];
  po_limit : len rows + len more <= limit;
  po_fits : fits budget (rows ++ more) }.

Lemma page_stop limit budget idx rows item items :
  rows <> [] -> len rows <= limit -> fits budget rows ->
  page_of limit budget idx rows (item :: items) (rows, Some (idx - 1)) [] (item :: items) [].
Proof.
  intros Hne Hl Hf. split; try done; rewrite ?app_nil_r, ?len_nil, ?Z.add_0_r; try done. by right.
Qed.

Lemma page_cons limit budget idx rows row item items res taken rest more :
  row_of row item -> page_of limit budget (idx + 1) (rows ++ [row]) items res taken rest more ->
  page_of limit budget idx rows (item :: items) res (item :: taken) rest (row :: more).
Proof.
  intros Hr [-> -> Hf Hp Hl Hb]. rewrite len_app, len_cons, len_nil in Hl. rewrite <- !app_assoc in *. simpl in *.
  split; simpl; try done; rewrite ?len_cons; try lia.
  - by rewrite <- Z.add_assoc.
  - by constructor.
  - by left.
Qed.

Lemma take_loop_spec limit budget items : forall idx rows used,
  (rows = [] -> 1 <= limit) -> used = rows_size rows -> len rows <= limit -> fits budget rows ->
  exists taken rest more, page_of limit budget idx rows items (take_loop limit budget items idx rows used) taken rest more.
Proof.
  induction items as [|item items IH]; intros idx rows used Hlim Hu Hl Hf; cbn [take_loop].
  { exists [], [], []. split; try done; rewrite ?app_nil_r, ?len_nil, ?Z.add_0_r; done. }
  destruct (limit <=? len rows) eqn:El; case_tests.
  { exists [], (item :: items), []. apply page_stop; [|done|done]. intros ->. rewrite len_nil in El. specialize (Hlim eq_refl). lia. }
  assert (forall row, row_of row item -> fits budget (rows ++ [row]) ->
    exists taken rest more, page_of limit budget idx rows (item :: items)
      (take_loop limit budget items (idx + 1) (rows ++ [row]) (used + (serialized_size row + 1))) taken rest more) as Hgo.
  { intros row Hrow Hfit.
    destruct (IH (idx + 1) (rows ++ [row]) (used + (serialized_size row + 1))) as (taken & rest & more & Hp).
    - by intros [_ ?]%app_eq_nil.
    - unfold rows_size in *. rewrite sum_with_app. simpl. lia.
    - rewrite len_app, len_cons, len_nil. lia.
    - done.
    - exists (item :: taken), rest, (row :: more). by eapply page_cons. }
  destruct (budget <? used + (serialized_size (render item) + 1)) eqn:Eb; case_tests.
  - destruct rows as [|r0 rows]; [|exists [], (item :: items), []; by apply page_stop].
    apply Hgo; [right; eauto|]. right. right. simpl. eauto.
  - apply Hgo; [by left|]. left. unfold rows_size in *. rewrite sum_with_app. simpl. lia.
Qed.

Lemma take_page_spec items limit budget :
  1 <= limit -> exists taken rest more, page_of limit budget 0 [] items (take_page items limit budget) taken rest more.
Proof.
  intros Hl. apply take_loop_spec; [done|done|rewrite len_nil; lia|]. right. by left.
Qed.

(** ** Following the tokens *)

Lemma parse_own_token `{!CursorJsonLaws} scope_ k i :
  i <> EmptyString -> parse_page_token (page_token scope_ k i) scope_ = Some (k, i).
Proof.
  intros Hi. unfold parse_page_token, page_token. rewrite from_to_string. simpl.
  by rewrite bool_decide_eq_true_2, bool_decide_eq_false_2 by done.
Qed.

(** The page of the items still to serve. *)
Lemma list_page_rest items scope_ limit_ budget token rest :
  1 <= limit_ ->
  match token with
  | None => sort_items items = rest
  | Some t => exists c, parse_page_token t scope_ = Some c /\
      filter (fun x => pair_lt c (item_key x) = true) (sort_items items) = rest
  end ->
  exists rows taken left, rest = taken ++ left /\ Forall2 row_of rows taken /\ (left <> [] -> taken <> []) /\
    len rows <= limit_ /\ fits budget rows /\
    list_page items scope_ (mkRequest limit_ token) budget =
      Some (Some (rows, match left with
        | [] => None
        | _ => match last taken with
               | Some x => Some (page_token scope_ (item_key x).1 (item_key x).2)
               | None => None
               end
        end)).
Proof.
  intros Hl Hrest. destruct (take_page_spec rest limit_ budget Hl) as (taken & left & more & [-> Hres Hf Hp Hlim Hfit]).
  rewrite len_nil in Hlim. cbn [app] in *. exists more, taken, left.
  split; [done|]. split; [done|]. split; [intros Hne; by destruct (Hp Hne)|]. split; [lia|]. split; [done|].
  assert (match token with
    | None => Some (sort_items items)
    | Some t => c ← parse_page_token t scope_; Some (filter (fun x => pair_lt c (item_key x) = true) (sort_items items))
    end = Some (taken ++ left)) as Hr.
  { destruct token as [t|]; [|by rewrite Hrest]. destruct Hrest as (c & -> & <-). done. }
  unfold list_page. cbn [limit next_token]. cbv zeta. rewrite Hr, Hres. destruct left as [|y left]; [done|].
  destruct (Hp ltac:(done)) as [Hne|]; [|done].
  destruct (exists_last Hne) as (pre & x & ->). rewrite last_snoc, <- app_assoc. simpl.
  assert (0 + len (pre ++ [x]) - 1 = len pre) as -> by (rewrite len_app, len_cons, len_nil; lia).
  by rewrite znth_app_r, Z.sub_diag by lia.
Qed.

Lemma follow_all `{!CursorJsonLaws} items scope_ limit_ budget fuel : forall served_ rest token,
  1 <= limit_ -> NoDup (item_key <$> items) -> Forall (fun x => (item_key x).2 <> EmptyString) items ->
  sort_items items = served_ ++ rest ->
  match token with
  | None => served_ = []
  | Some t => exists x, last served_ = Some x /\ t = page_token scope_ (item_key x).1 (item_key x).2
  end -> (length rest < fuel)%nat ->
  exists rows, follow fuel items scope_ limit_ budget token = Some rows /\ Forall2 row_of rows rest.
Proof.
  induction fuel as [|fuel IH]; intros served_ rest token Hl Hnd Hid Hsort Htok Hfuel; [lia|]. cbn [follow].
  pose proof (sort_items_sorted items Hnd) as Hsd. rewrite Hsort in Hsd.
  assert (Forall (fun x => (item_key x).2 <> EmptyString) (served_ ++ rest)) as Hids.
  { rewrite <- Hsort. apply Forall_forall. intros x Hx. apply (proj1 (elem_of_sort_items x items)) in Hx. by eapply Forall_forall in Hid. }
  destruct (list_page_rest items scope_ limit_ budget token rest Hl) as (rows & taken & left & -> & Hf & Hne & _ & _ & ->).
  { destruct token as [t|]; [|by subst served_]. destruct Htok as (x & Hx & ->).
    apply last_Some in Hx as [done_ ->]. rewrite <- app_assoc in *. simpl in *.
    apply Forall_app in Hids as [_ [Hix _]%Forall_cons].
    exists (item_key x). split; [rewrite parse_own_token by done; by destruct (item_key x)|].
    rewrite Hsort. by apply sorted_after. }
  destruct left as [|y left]; [exists rows; by rewrite app_nil_r|].
  specialize (Hne ltac:(done)). destruct (exists_last Hne) as (pre & x & ->). rewrite last_snoc.
  destruct (IH (served_ ++ pre ++ [x]) (y :: left) (Some (page_token scope_ (item_key x).1 (item_key x).2)))
    as (more & -> & Hm); [done|done|done|by rewrite Hsort, <- !app_assoc| |rewrite !length_app in Hfuel; simpl in *; lia|].
  { exists x. split; [|done]. by rewrite app_assoc, last_snoc. }
  simpl. exists (rows ++ more). split; [done|]. by apply Forall2_app.
Qed.
End pages.

(** A codec for [CursorWire] that writes its bits. *)
Module BitToken.

Fixpoint bits (p : positive) : string :=
  match p with
  | xH => EmptyString
  | xO p' => String Ascii.zero (bits p')
  | xI p' => String Ascii.one (bits p')
  end.

Fixpoint unbits (s : string) : positive :=
  match s with
  | EmptyString => xH
  | String a s' => if decide (a = Ascii.one) then xI (unbits s') else xO (unbits s')
  end.

Lemma unbits_bits p : unbits (bits p) = p.
Proof. induction p as [p IH|p IH|]; simpl; by rewrite ?IH. Qed.

#[local] Instance bit_json : CursorJson := {|
  to_string c := bits (encode (v c, (scope c, (key c, id c))));
  from_str s := '(a, (b, (c, d))) ← decode (unbits s); Some (mkCursor a b c d) |}.

#[local] Instance bit_json_laws : CursorJsonLaws.
Proof. split. intros [a b c d]. simpl. by rewrite unbits_bits, decode_encode. Qed.

End BitToken.

(** * Properties *)

(** Following [nextToken] from the first page serves every item of the list exactly
    once, in key order, whatever the page limit and the byte budget, in at most one page
    more than there are items. *)
Theorem paged_list_complete `{CJ : CursorJson, CL : !CursorJsonLaws} {Item} (item_key : Item -> string * string)
    (render : Item -> json) (shrink : Item -> Z -> json) (items : list Item) (scope_ : string) (limit_ budget : Z) :
  1 <= limit_ -> NoDup (item_key <$> items) -> Forall (fun x => (item_key x).2 <> EmptyString) items ->
  exists rows served,
    follow item_key render shrink (S (length items)) items scope_ limit_ budget None = Some rows /\
    Forall2 (row_of render shrink) rows served /\ StronglySorted (item_lt item_key) served /\
    length served = length items /\ forall x, x ∈ served <-> x ∈ items.
Proof.
  intros Hl Hnd Hid.
  destruct (follow_all item_key render shrink items scope_ limit_ budget (S (length items)) [] (sort_items item_key items) None)
    as (rows & Hf & Hr); [done|done|done|done|done|rewrite length_sort_items; lia|].
  exists rows, (sort_items item_key items). split_and!; [done|done|by apply sort_items_sorted|apply length_sort_items|].
  intros x. apply (elem_of_sort_items item_key render shrink).
Qed.

Lemma paged_list_complete_witness :
  exists rows served,
    follow (CJ := BitToken.bit_json) (fun p : string * string => p) (fun p => JString p.2) (fun p _ => JNull) 3
      [("b", "2"); ("a", "1")]%string "s"%string 1 100 None = Some rows /\
    Forall2 (row_of (fun p : string * string => JString p.2) (fun p _ => JNull)) rows served /\
    length served = 2%nat.
Proof.
  destruct (paged_list_complete (CJ := BitToken.bit_json) (CL := BitToken.bit_json_laws)
    (fun p : string * string => p) (fun p => JString p.2) (fun p _ => JNull) [("b", "2"); ("a", "1")]%string "s"%string 1 100)
    as (rows & served & H1 & H2 & _ & H3 & _); [lia|apply (bool_decide_unpack _); vm_compute; exact I| |].
  - repeat constructor; done.
  - exists rows, served. split; [exact H1|]. split; [exact H2|exact H3].
Defined.

(** One page: it never panics, is refused exactly for a token this list did not mint
    (a token of another list is one), serves at most [limit] rows, at least one when any
    are left, and stays within the budget unless it is a single shrunk row. *)
Theorem list_page_bounded `{CJ : CursorJson, CL : !CursorJsonLaws} {Item} (item_key : Item -> string * string)
    (render : Item -> json) (shrink : Item -> Z -> json) (items : list Item) (scope_ : string) (page : PageRequest) (budget : Z) :
  1 <= limit page ->
  match list_page item_key render shrink items scope_ page budget with
  | None => False
  | Some None => exists t, next_token page = Some t /\ parse_page_token t scope_ = None
  | Some (Some (rows, next)) =>
      len rows <= limit page /\ fits shrink budget rows /\ (rows = [] -> next = None) /\
      (next_token page = None -> items <> [] -> rows <> []) /\
      (forall s k i, next_token page = Some (page_token s k i) -> s = scope_)
  end.
Proof.
  destruct page as [lim tok]. cbn [limit next_token]. intros Hl.
  destruct tok as [t|]; [destruct (parse_page_token t scope_) as [c|] eqn:Ep|].
  - destruct (list_page_rest item_key render shrink items scope_ lim budget (Some t) _ Hl (ex_intro _ c (conj Ep eq_refl)))
      as (rows & taken & left & Ht & Hf & Hne & Hlen & Hfit & ->).
    split_and!; [done|done| |done|].
    + intros ->. inversion Hf; subst. destruct left; [done|]. by destruct (Hne ltac:(done)).
    + intros s k i [= ->]. unfold parse_page_token, page_token in Ep. rewrite from_to_string in Ep. simpl in Ep.
      destruct (bool_decide (s = scope_)) eqn:Es; [by apply bool_decide_eq_true in Es|]. done.
  - unfold list_page. cbn [next_token]. rewrite Ep. by exists t.
  - destruct (list_page_rest item_key render shrink items scope_ lim budget None _ Hl eq_refl)
      as (rows & taken & left & Ht & Hf & Hne & Hlen & Hfit & ->).
    split_and!; [done|done| | |done].
    + intros ->. inversion Hf; subst. destruct left; [done|]. by destruct (Hne ltac:(done)).
    + intros _ Hi ->. inversion Hf; subst. apply Hi, length_zero_iff_nil. rewrite <- (length_sort_items item_key), Ht.
      destruct left; [done|]. by destruct (Hne ltac:(done)).
Qed.

Lemma list_page_bounded_witness :
  match list_page (CJ := BitToken.bit_json) (fun p : string * string => p) (fun p => JString p.2) (fun p _ => JNull)
      [("b", "2"); ("a", "1")]%string "s"%string (mkRequest 1 None) 100 with
  | Some (Some (rows, next)) => len rows <= 1 /\ next <> None
  | _ => False
  end.
Proof.
  pose proof (list_page_bounded (CJ := BitToken.bit_json) (CL := BitToken.bit_json_laws)
    (fun p : string * string => p) (fun p => JString p.2) (fun p _ => JNull)
    [("b", "2"); ("a", "1")]%string "s"%string (mkRequest 1 None) 100 ltac:(simpl; lia)) as H.
  destruct (list_page _ _ _ _ _ _ _) as [[[rows next]|]|] eqn:E; [|by vm_compute in E|done].
  split; [apply H|]. vm_compute in E. by injection E as <- <-.
Defined.


End ListPage.
