(* ===== verification/CommentWalk.v ===== *)
(** * Comment pages ([crates/intent-core/src/note_read_bounds.rs])

    [comment_list_page]: bounded pages of a note's comment threads in the order of
    their latest activity, which changes while a client walks the pages.  The walk
    runs in rounds over activity windows; the model keeps the rounds, the cursor
    and its token, the page itself is [take_page] of [NotePaging]. *)
From Stdlib Require Import Structures.OrdersEx Sorting.Sorted.
From stdpp Require Import countable prelude strings list.
From S2P Require Import Prelude Json NotePaging.
Import ListPage.

(** ** Threads and their order *)

(** [CommentThreadSummary]: its id, its activity, the members it serializes to
    without [comments], and its serialized comments, oldest first. *)
Record Thread := mkThread {
  thread_id : string;
  last_activity : string;
  shell : list (string * json);
  comments : option (list json) }.

(** [<str as Ord>::lt]. *)
Definition str_lt (a b : string) : bool :=
  match String_as_OT.compare a b with Lt => true | _ => false end.

(** [{:039}] of a number of at most 39 digits. *)
Fixpoint padded (width : nat) (n : Z) : string :=
  match width with
  | O => EmptyString
  | S w => padded w (n / 10) +:+ String (Ascii.ascii_of_N (Z.to_N (48 + n mod 10))) EmptyString
  end.

(** [OffsetDateTime::parse] with its nanoseconds since the epoch, and [serde_json] on
    [CommentCursorKey]. *)
Record CommentCursorKey := mkKey { key_lo : option string; key_hi : string; key_at : option string }.

Class CommentCodecs := {
  parse_iso_nanos : string -> option Z;
  key_to_string : CommentCursorKey -> string;
  key_from_str : string -> option CommentCursorKey }.

Class CommentCodecLaws `{!CommentCodecs} : Prop := {
  key_from_to k : key_from_str (key_to_string k) = Some k;
  nanos_range s n : parse_iso_nanos s = Some n -> - 10 ^ 37 <= n < 10 ^ 38 }.

Section walk.
Context {CJ : CursorJson} {CC : CommentCodecs}.

Definition activity_key (at_ : string) : string :=
  match parse_iso_nanos at_ with
  | Some n => padded 39 (n + 10 ^ 37)
  | None => "~" +:+ at_
  end.

Definition thread_key (t : Thread) : string := activity_key (last_activity t).

(** Whether [t] comes after the place [at_] of the order: older activity first,
    then the greater id. *)
Definition after (at_ : option (string * string)) (t : Thread) : bool :=
  match at_ with
  | None => true
  | Some (a, i) => str_lt (thread_key t) a || (bool_decide (thread_key t = a) && str_lt i (thread_id t))
  end.

Definition place (t : Thread) : string * string := (thread_key t, thread_id t).

(** [threads.sort_by(..)]: latest activity first, then by id; a stable sort. *)
Fixpoint insert_thread (x : Thread) (l : list Thread) : list Thread :=
  match l with
  | [] => [x]
  | y :: l' => if after (Some (place y)) x then y :: insert_thread x l' else x :: l
  end.

Definition sort_threads (l : list Thread) : list Thread := foldr insert_thread [] l.

Definition newest (sorted : list Thread) : option string := thread_key <$> head sorted.

(** ** The cursor *)

Record CommentCursor := mkCommentCursor { lo : option string; hi : string; at_ : option (string * string) }.

Definition contains (c : CommentCursor) (t : Thread) : bool :=
  let la := thread_key t in
  if str_lt (hi c) la || match lo c with Some l => negb (str_lt l la) | None => false end then false
  else after (at_ c) t.

Definition token (c : CommentCursor) (scope_ : string) : string :=
  page_token scope_ (key_to_string (mkKey (lo c) (hi c) (fst <$> at_ c)))
    (match at_ c with Some (_, i) => i | None => "*" end).

Definition comment_list_scope (workspace_id note_id : string) : string :=
  "comment.list:" +:+ workspace_id +:+ ":" +:+ note_id.

(** The cursor of a request; [None] for an invalid token. *)
Definition request_cursor (sorted : list Thread) (scope_ : string) (next : option string) : option CommentCursor :=
  match next with
  | None => Some (mkCommentCursor None (default EmptyString (newest sorted)) None)
  | Some t =>
      '(k, i) ← parse_page_token t scope_;
      k ← key_from_str k;
      Some (mkCommentCursor (key_lo k) (key_hi k) ((fun a => (a, i)) <$> key_at k))
  end.

(** The newest activity past the round of [c]. *)
Definition newer (sorted : list Thread) (c : CommentCursor) : option string :=
  match newest sorted with
  | Some n => if str_lt (hi c) n then Some n else None
  | None => None
  end.

Definition next_round (c : CommentCursor) (newer : string) : CommentCursor :=
  mkCommentCursor (Some (hi c)) newer None.

(** The loop that skips rounds with nothing left; [None] is running out of [fuel]. *)
Fixpoint advance (fuel : nat) (sorted : list Thread) (c : CommentCursor) : option (CommentCursor * list Thread) :=
  match fuel with
  | O => None
  | S fuel' =>
      match filter (fun t => contains c t = true) sorted, newer sorted c with
      | [], Some n => advance fuel' sorted (next_round c n)
      | window, _ => Some (c, window)
      end
  end.

(** ** Rows *)

Definition render_thread (t : Thread) : json :=
  JObject (shell t ++ match comments t with Some cs => [("comments", JArray cs)] | None => [] end).

(** The comments that fit. *)
Fixpoint keep_comments (cs : list json) (used room : Z) : list json :=
  match cs with
  | [] => []
  | c :: cs' =>
      let cost := serialized_size c + 1 in
      if room <? used + cost then [] else c :: keep_comments cs' (used + cost) room
  end.

Definition shrink_thread (t : Thread) (room : Z) : json :=
  match comments t with
  | None => JObject (shell t)
  | Some cs =>
      let used := serialized_size (JObject (shell t)) + serialized_size (JString "comments") + 3 +
                  serialized_size (JString "commentsTruncated") + 8 in
      JObject (map_insert (map_insert (shell t) "comments" (JArray (keep_comments cs used room)))
        "commentsTruncated" (JBool true))
  end.

(** ** Pages *)

(** [comment_list_page]: the rows and the next token; [None] for an invalid token, and
    a panic, or a loop without an end, around it. *)
Definition comment_list_page (threads : list Thread) (workspace_id note_id : string) (page : PageRequest) (budget : Z) :
    option (option (list json * option string)) :=
  let scope_ := comment_list_scope workspace_id note_id in
  let sorted := sort_threads threads in
  match request_cursor sorted scope_ (next_token page) with
  | None => Some None
  | Some c =>
      '(c, window) ← advance 2 sorted c;
      let '(rows, last) := take_page render_thread shrink_thread window (limit page) budget in
      next ← match last with
             | Some i => t ← znth window i; Some (Some (mkCommentCursor (lo c) (hi c) (Some (place t))))
             | None => Some (next_round c <$> newer sorted c)
             end;
      Some (Some (rows, (fun c => token c scope_) <$> next))
  end.

(** A client that follows the tokens while the threads change: one snapshot of them
    per page.  The rows, and the snapshot of the last page; [None] when the
    snapshots run out or a page fails. *)
Fixpoint comment_walk (snapshots : list (list Thread)) (workspace_id note_id : string) (limit_ budget : Z)
    (next : option string) : option (list json * list Thread) :=
  match snapshots with
  | [] => None
  | threads :: snapshots' =>
      match comment_list_page threads workspace_id note_id (mkRequest limit_ next) budget with
      | Some (Some (rows, None)) => Some (rows, threads)
      | Some (Some (rows, Some t)) =>
          '(more, final) ← comment_walk snapshots' workspace_id note_id limit_ budget (Some t);
          Some (rows ++ more, final)
      | _ => None
      end
  end.

(** ** Order *)

Lemma str_lt_irrefl a : str_lt a a = false.
Proof. unfold str_lt. by rewrite compare_refl. Qed.

Lemma str_lt_trans a b c : str_lt a b = true -> str_lt b c = true -> str_lt a c = true.
Proof.
  unfold str_lt. destruct (String_as_OT.compare_spec a b) as [|Hab|]; [done| |done].
  destruct (String_as_OT.compare_spec b c) as [|Hbc|]; [done| |done]. intros _ _.
  pose proof (transitivity Hab Hbc) as Hac. unfold String_as_OT.lt in Hac. by rewrite Hac.
Qed.

Lemma str_lt_total a b : str_lt a b = false -> a = b \/ str_lt b a = true.
Proof.
  unfold str_lt. destruct (String_as_OT.compare_spec a b) as [|Hab|Hba]; [by left|done|right].
  unfold String_as_OT.lt in Hba. by rewrite Hba.
Qed.

(** [a <= b]. *)
Definition str_le (a b : string) : Prop := str_lt b a = false.

Lemma str_le_refl a : str_le a a.
Proof. apply str_lt_irrefl. Qed.

Lemma str_le_trans a b c : str_le a b -> str_le b c -> str_le a c.
Proof.
  unfold str_le. intros Hab Hbc. destruct (str_lt c a) eqn:Hca; [|done].
  destruct (str_lt_total b a Hab) as [->|Hlt]; [congruence|].
  by rewrite (str_lt_trans _ _ _ Hca Hlt) in Hbc.
Qed.

Lemma str_lt_le a b : str_lt a b = true -> str_le a b.
Proof.
  unfold str_le. intros H. destruct (str_lt b a) eqn:E; [|done].
  pose proof (str_lt_trans _ _ _ H E) as Hi. by rewrite str_lt_irrefl in Hi.
Qed.

(** [x] comes before [y]. *)
Definition precedes (x y : Thread) : Prop := after (Some (place x)) y = true.

Lemma after_trans at_ x y : after at_ x = true -> precedes x y -> after at_ y = true.
Proof.
  unfold precedes, after, place. destruct at_ as [[a i]|]; [|done].
  rewrite !orb_true_iff, !andb_true_iff, !bool_decide_eq_true.
  intros [Hxa|[Hxa Hi]] [Hyx|[Hyx Hi']].
  - left. by eapply str_lt_trans.
  - left. congruence.
  - left. congruence.
  - right. split; [congruence|]. by eapply str_lt_trans.
Qed.

Lemma precedes_irrefl x : ~ precedes x x.
Proof. unfold precedes, after, place. rewrite !str_lt_irrefl, andb_false_r. done. Qed.

Lemma precedes_total x y : ~ precedes x y -> thread_id x <> thread_id y -> precedes y x.
Proof.
  unfold precedes, after, place. rewrite !orb_true_iff, !andb_true_iff, !bool_decide_eq_true. intros Hn Hid.
  destruct (str_lt (thread_key y) (thread_key x)) eqn:E; [tauto|].
  destruct (str_lt_total _ _ E) as [Heq|Hlt]; [|by left]. right. split; [done|].
  destruct (str_lt (thread_id x) (thread_id y)) eqn:Ei; [tauto|].
  by destruct (str_lt_total _ _ Ei) as [?|]; [congruence|].
Qed.

Lemma elem_of_insert_thread x y l : y ∈ insert_thread x l <-> y = x \/ y ∈ l.
Proof. induction l as [|z l IH]; cbn [insert_thread]; [set_solver|]. case_match; set_solver. Qed.

Lemma elem_of_sort_threads y l : y ∈ sort_threads l <-> y ∈ l.
Proof. induction l as [|x l IH]; simpl; [done|]. rewrite elem_of_insert_thread, IH. set_solver. Qed.

Lemma insert_thread_sorted x l :
  StronglySorted precedes l -> thread_id x ∉ (thread_id <$> l) -> StronglySorted precedes (insert_thread x l).
Proof.
  induction 1 as [|y l Hs IH Hy]; intros Hne; cbn [insert_thread]; [by repeat constructor|].
  rewrite fmap_cons, not_elem_of_cons in Hne. destruct Hne as [Hn Hne].
  destruct (after (Some (place y)) x) eqn:E.
  - constructor; [by apply IH|]. apply Forall_forall. intros z [->|Hz]%elem_of_insert_thread; [done|].
    by eapply Forall_forall in Hy.
  - assert (precedes x y) as Hxy by (apply precedes_total; [unfold precedes; congruence|congruence]).
    constructor; [by constructor|]. constructor; [done|].
    eapply Forall_impl; [exact Hy|]. intros z Hz. by eapply after_trans.
Qed.

Lemma sort_threads_sorted l : NoDup (thread_id <$> l) -> StronglySorted precedes (sort_threads l).
Proof.
  induction l as [|x l IH]; simpl; [constructor|]. intros [Hx Hl]%NoDup_cons. apply insert_thread_sorted; [by apply IH|].
  intros (y & Hid & Hy)%list_elem_of_fmap. apply Hx. rewrite Hid. apply list_elem_of_fmap_2. by apply elem_of_sort_threads.
Qed.

(** The first thread of the order has the greatest activity. *)
Lemma newest_max l x : NoDup (thread_id <$> l) -> x ∈ l ->
  exists n, newest (sort_threads l) = Some n /\ str_le (thread_key x) n /\ exists y, y ∈ l /\ thread_key y = n.
Proof.
  intros Hnd Hx%elem_of_sort_threads. pose proof (sort_threads_sorted l Hnd) as Hs.
  assert (forall y, y ∈ sort_threads l -> y ∈ l) as Hin by (intros y Hy; by apply elem_of_sort_threads).
  destruct (sort_threads l) as [|y k]; [by apply not_elem_of_nil in Hx|]. inversion_clear Hs as [|? ? _ Hy].
  exists (thread_key y). split; [done|]. split; [|exists y; split; [apply Hin; by left|done]].
  apply elem_of_cons in Hx as [->|Hx]; [apply str_le_refl|]. eapply Forall_forall in Hy; [|exact Hx].
  unfold precedes, after, place in Hy. apply orb_true_iff in Hy as [Hlt|[Heq _]%andb_true_iff]; [by apply str_lt_le|].
  apply bool_decide_eq_true in Heq. rewrite Heq. apply str_le_refl.
Qed.

(** ** Rounds *)

Lemma newer_hi sorted c n : newer sorted c = Some n -> newest sorted = Some n /\ str_lt (hi c) n = true.
Proof. unfold newer. destruct (newest sorted) as [m|]; [|done]. destruct (str_lt (hi c) m) eqn:E; [|done]. by intros [= ->]. Qed.

(** Two turns are enough: the round after the current one reaches the newest activity. *)
Lemma advance_spec sorted c :
  exists c' window, advance 2 sorted c = Some (c', window) /\
    window = filter (fun t => contains c' t = true) sorted /\ (window = [] -> newer sorted c' = None) /\
    (c' = c \/ filter (fun t => contains c t = true) sorted = [] /\ exists n, newer sorted c = Some n /\ c' = next_round c n).
Proof.
  cbn [advance]. destruct (filter (fun t => contains c t = true) sorted) as [|x w] eqn:Hw.
  - destruct (newer sorted c) as [n|] eqn:Hn; [|exists c, []; auto].
    destruct (newer_hi _ _ _ Hn) as [Hnew _].
    assert (newer sorted (next_round c n) = None) as Hnone.
    { unfold newer. rewrite Hnew. simpl. by rewrite str_lt_irrefl. }
    exists (next_round c n), (filter (fun t => contains (next_round c n) t = true) sorted). split_and!; [|done|done|eauto].
    rewrite Hnone. by destruct (filter (fun t => contains (next_round c n) t = true) sorted).
  - exists c, (x :: w). split_and!; [|done|done|auto]. by destruct (newer sorted c).
Qed.

(** What the walk still has to serve: the rest of the round, and everything newer. *)
Definition pending (c : CommentCursor) (x : Thread) : bool := str_lt (hi c) (thread_key x) || contains c x.

Lemma contains_le c x : contains c x = true -> str_le (thread_key x) (hi c).
Proof. unfold contains, str_le. by destruct (str_lt (hi c) (thread_key x)). Qed.

Lemma pending_next_round c n x : pending (next_round c n) x = str_lt n (thread_key x) || str_lt (hi c) (thread_key x).
Proof.
  unfold pending, contains, next_round. cbn [lo hi at_ after]. destruct (str_lt n (thread_key x)); [done|].
  by destruct (str_lt (hi c) (thread_key x)).
Qed.

(** Skipping an empty round leaves the pending threads as they are. *)
Lemma pending_skip threads c n x :
  NoDup (thread_id <$> threads) -> newer (sort_threads threads) c = Some n -> x ∈ threads -> contains c x = false ->
  pending (next_round c n) x = pending c x.
Proof.
  intros Hnd [Hn _]%newer_hi Hx Hc. destruct (newest_max threads x Hnd Hx) as (n' & Hn' & Hle & _).
  assert (n' = n) as -> by congruence. unfold str_le in Hle. unfold pending at 2.
  by rewrite pending_next_round, Hle, Hc, orb_false_r.
Qed.

Lemma pending_next_round_le c n x : str_lt (hi c) n = true -> pending (next_round c n) x = true -> str_lt (hi c) (thread_key x) = true.
Proof. intros Hn. rewrite pending_next_round. intros [H|H]%orb_true_iff; [by eapply str_lt_trans|done]. Qed.

Lemma contains_split c x :
  contains c x = true <-> contains (mkCommentCursor (lo c) (hi c) None) x = true /\ after (at_ c) x = true.
Proof. unfold contains. cbn [lo hi at_]. by destruct (_ || _); [naive_solver|naive_solver]. Qed.

Lemma pending_at c y x :
  contains c y = true ->
  pending (mkCommentCursor (lo c) (hi c) (Some (place y))) x = true <-> str_lt (hi c) (thread_key x) = true \/ contains c x = true /\ precedes y x.
Proof.
  unfold pending. rewrite orb_true_iff, (contains_split c), (contains_split c x), (contains_split (mkCommentCursor _ _ (Some _))).
  cbn [lo hi at_]. unfold precedes. intros [_ Hy]. pose proof (after_trans (at_ c) y x Hy). unfold precedes in *. tauto.
Qed.

Lemma filter_window c threads x :
  x ∈ filter (fun t => contains c t = true) (sort_threads threads) <-> contains c x = true /\ x ∈ threads.
Proof. by rewrite list_elem_of_filter, elem_of_sort_threads. Qed.

Lemma filter_sorted {A} (R : A -> A -> Prop) (P : A -> Prop) `{!forall x, Decision (P x)} l :
  StronglySorted R l -> StronglySorted R (filter P l).
Proof.
  induction 1 as [|x l Hs IH Hx]; [constructor|]. destruct (decide (P x)); [rewrite filter_cons_True by done|by rewrite filter_cons_False].
  constructor; [done|]. apply Forall_forall. intros y [_ Hy]%list_elem_of_filter. by eapply Forall_forall in Hx.
Qed.

Lemma sorted_split pre z rest :
  StronglySorted precedes (pre ++ z :: rest) ->
  (forall x, x ∈ pre ++ [z] -> ~ precedes z x) /\ (forall x, x ∈ rest -> precedes z x).
Proof.
  induction pre as [|y pre IH]; simpl; inversion_clear 1 as [|? ? Hs Hf].
  - split; [|by apply Forall_forall]. intros x ->%list_elem_of_singleton. apply precedes_irrefl.
  - destruct (IH Hs) as [Hpre Hrest]. split; [|done]. intros x [->|Hx]%elem_of_cons Hp; [|by eapply Hpre].
    apply (precedes_irrefl z). eapply after_trans; [exact Hp|]. eapply Forall_forall in Hf; [exact Hf|]. set_solver.
Qed.

Lemma sorted_nodup l : StronglySorted precedes l -> NoDup l.
Proof.
  induction 1 as [|x l Hs IH Hx]; constructor; [|done]. intros Hin. eapply Forall_forall in Hx; [|exact Hin].
  by eapply precedes_irrefl.
Qed.

(** ** One page *)

Definition good_threads (threads : list Thread) : Prop :=
  NoDup (thread_id <$> threads) /\ Forall (fun t => thread_id t <> EmptyString) threads.

Definition good_cursor (c : CommentCursor) : Prop :=
  match at_ c with Some (_, i) => i <> EmptyString | None => True end.

(** The round a page serves from. *)
Record round_of (threads : list Thread) (c c1 : CommentCursor) (window : list Thread) : Prop := {
  ro_window x : x ∈ window <-> contains c1 x = true /\ x ∈ threads;
  ro_sorted : StronglySorted precedes window;
  ro_pending x : x ∈ threads -> pending c1 x = pending c x;
  ro_mono x : pending c1 x = true -> pending c x = true;
  ro_hi : hi c1 = hi c \/ exists x, x ∈ threads /\ thread_key x = hi c1;
  ro_empty : window = [] -> newer (sort_threads threads) c1 = None }.

Lemma newer_key threads c n : newer (sort_threads threads) c = Some n -> exists x, x ∈ threads /\ thread_key x = n.
Proof.
  intros [Hn _]%newer_hi. unfold newest in Hn. apply fmap_Some in Hn as (x & Hx & ->). exists x. split; [|done].
  apply elem_of_sort_threads. by apply head_Some_elem_of.
Qed.

Lemma advance_round threads c :
  NoDup (thread_id <$> threads) ->
  exists c1 window, advance 2 (sort_threads threads) c = Some (c1, window) /\ round_of threads c c1 window.
Proof.
  intros Hnd. destruct (advance_spec (sort_threads threads) c) as (c1 & window & Hadv & Hwin & Hend & Hround).
  exists c1, window. split; [done|]. subst window.
  destruct Hround as [->|(Hempty & n & Hn & ->)]; split; auto using filter_window, filter_sorted, sort_threads_sorted.
  - intros x Hx. apply (pending_skip threads); [done..|]. destruct (contains c x) eqn:Hc; [|done].
    assert (x ∈ @nil Thread) as []%not_elem_of_nil. rewrite <- Hempty. by apply filter_window.
  - intros x Hx%pending_next_round_le; [|by eapply newer_hi]. unfold pending. by rewrite Hx.
  - right. by eapply newer_key.
Qed.

(** The cursor [c'] has exactly the [taken] threads less to serve than [c]. *)
Record moved (threads taken : list Thread) (c c' : CommentCursor) : Prop := {
  mv_good : good_cursor c';
  mv_mono x : pending c' x = true -> pending c x = true /\ x ∉ taken;
  mv_keep x : x ∈ threads -> pending c x = true -> pending c' x = true \/ x ∈ taken;
  mv_hi : hi c' = hi c \/ exists x, x ∈ threads /\ thread_key x = hi c' }.

Lemma moved_next_round threads window c c1 n :
  round_of threads c c1 window -> newer (sort_threads threads) c1 = Some n -> moved threads window c (next_round c1 n).
Proof.
  intros R Hn. split; [done| | |right; by eapply newer_key].
  - intros x Hx%pending_next_round_le; [|by eapply newer_hi]. split; [apply (ro_mono _ _ _ _ R); unfold pending; by rewrite Hx|].
    intros [Hc _]%(ro_window _ _ _ _ R). apply contains_le in Hc. unfold str_le in Hc. congruence.
  - intros x Hx. rewrite <- (ro_pending _ _ _ _ R x Hx), pending_next_round. unfold pending. intros [->|Hc]%orb_true_iff.
    + left. apply orb_true_r.
    + right. by apply (ro_window _ _ _ _ R).
Qed.

Lemma moved_at threads pre z rest c c1 :
  round_of threads c c1 (pre ++ z :: rest) -> thread_id z <> EmptyString ->
  moved threads (pre ++ [z]) c (mkCommentCursor (lo c1) (hi c1) (Some (place z))).
Proof.
  intros R Hid. pose proof (sorted_split _ _ _ (ro_sorted _ _ _ _ R)) as [Hpre Hrest].
  assert (contains c1 z = true) as Hz by (apply (ro_window _ _ _ _ R); set_solver).
  split; [done| | |apply (ro_hi _ _ _ _ R)].
  - intros x Hx. apply (pending_at _ _ _ Hz) in Hx. split.
    + apply (ro_mono _ _ _ _ R). unfold pending. apply orb_true_iff. tauto.
    + intros Hin. destruct Hx as [Hx|[_ Hx]]; [|by eapply Hpre].
      assert (contains c1 x = true) as Hc%contains_le by (apply (ro_window _ _ _ _ R); set_solver). unfold str_le in Hc. congruence.
  - intros x Hx. rewrite <- (ro_pending _ _ _ _ R x Hx), (pending_at _ _ _ Hz). unfold pending. intros [?|Hc]%orb_true_iff; [by left; left|].
    assert (x ∈ (pre ++ [z]) ++ rest) as [Hx'|Hx']%elem_of_app by (rewrite <- app_assoc; by apply (ro_window _ _ _ _ R)); [by right|].
    left. right. split; [done|by apply Hrest].
Qed.

(** What a page serves and where it leaves the walk. *)
Record page_done (threads : list Thread) (limit_ budget : Z) (c : CommentCursor) (rows : list json) (taken : list Thread)
    (next : option CommentCursor) : Prop := {
  pd_rows : Forall2 (row_of render_thread shrink_thread) rows taken;
  pd_limit : len rows <= limit_;
  pd_fits : fits shrink_thread budget rows;
  pd_nodup : NoDup taken;
  pd_taken x : x ∈ taken -> x ∈ threads /\ pending c x = true;
  pd_next : match next with
            | None => forall x, x ∈ threads -> pending c x = true -> x ∈ taken
            | Some c' => rows <> [] /\ moved threads taken c c'
            end }.

Lemma comment_page_spec threads ws note next limit_ budget c :
  1 <= limit_ -> good_threads threads ->
  request_cursor (sort_threads threads) (comment_list_scope ws note) next = Some c ->
  exists rows taken next',
    comment_list_page threads ws note (mkRequest limit_ next) budget =
      Some (Some (rows, (fun c => token c (comment_list_scope ws note)) <$> next')) /\
    page_done threads limit_ budget c rows taken next'.
Proof.
  intros Hl [Hnd Hids] Hreq. unfold comment_list_page. cbn [next_token limit]. rewrite Hreq.
  destruct (advance_round threads c Hnd) as (c1 & window & -> & R). cbn [mbind option_bind].
  destruct (take_page_spec render_thread shrink_thread window limit_ budget Hl) as (taken & rest & rows & [Hitems -> Hrows Hprog Hlim Hfit]).
  cbn [app] in *. rewrite len_nil in Hlim. exists rows, taken.
  pose proof (sorted_nodup _ (ro_sorted _ _ _ _ R)) as Hdup. rewrite Hitems in Hdup. apply NoDup_app in Hdup as [Hdup _].
  assert (forall x, x ∈ taken -> x ∈ threads /\ pending c x = true) as Htaken.
  { intros x Hx. assert (x ∈ window) as [Hc Ht]%(ro_window _ _ _ _ R) by (rewrite Hitems; apply elem_of_app; by left).
    rewrite <- (ro_pending _ _ _ _ R x Ht). unfold pending. by rewrite Hc, orb_true_r. }
  destruct rest as [|y rest].
  - rewrite app_nil_r in Hitems. subst taken. exists (next_round c1 <$> newer (sort_threads threads) c1).
    split; [by destruct (newer (sort_threads threads) c1)|]. split; [done|lia|done..|].
    destruct (newer (sort_threads threads) c1) as [n|] eqn:Hn; simpl.
    + split; [|by apply moved_next_round]. intros ->. apply Forall2_nil_inv_l in Hrows as ->.
      rewrite (ro_empty _ _ _ _ R) in Hn; done.
    + intros x Hx. rewrite <- (ro_pending _ _ _ _ R x Hx). unfold pending. intros [Hlt|Hc]%orb_true_iff; [|by apply (ro_window _ _ _ _ R)].
      destruct (newest_max threads x Hnd Hx) as (n & Hnew & Hle & _). unfold newer in Hn. rewrite Hnew in Hn.
      destruct (str_lt (hi c1) n) eqn:E; [done|]. pose proof (str_le_trans _ _ _ Hle E) as Hle'. unfold str_le in Hle'. congruence.
  - destruct (Hprog ltac:(done)) as [Hne|]; [|done]. destruct (exists_last Hne) as (pre & z & ->).
    rewrite <- app_assoc in Hitems. subst window. exists (Some (mkCommentCursor (lo c1) (hi c1) (Some (place z)))).
    assert (0 + len (pre ++ [z]) - 1 = len pre) as -> by (rewrite len_app, len_cons, len_nil; lia).
    rewrite znth_app_r, Z.sub_diag by lia. split; [done|]. split; [done|lia|done..|]. split.
    + intros ->. apply Forall2_nil_inv_l in Hrows. by destruct pre.
    + eapply moved_at; [exact R|]. eapply Forall_forall in Hids; [exact Hids|]. apply Htaken. set_solver.
Qed.

(** ** The walk *)

Context `{CL : !CursorJsonLaws, CCL : !CommentCodecLaws}.

(** A token resumes the cursor it was made of. *)
Lemma request_own_token sorted c scope_ : good_cursor c -> request_cursor sorted scope_ (Some (token c scope_)) = Some c.
Proof.
  unfold good_cursor, request_cursor, token. destruct c as [l h [[a i]|]]; cbn [lo hi at_ fmap option_fmap option_map fst]; intros Hi;
    rewrite parse_own_token by done; simpl; by rewrite key_from_to.
Qed.

Lemma empty_le s : str_le EmptyString s.
Proof. by destruct s. Qed.

(** The first request has everything to serve. *)
Lemma request_first threads scope_ clock :
  good_threads threads -> (forall x, x ∈ threads -> str_le (thread_key x) clock) ->
  exists c, request_cursor (sort_threads threads) scope_ None = Some c /\ str_le (hi c) clock /\
    forall x, x ∈ threads -> pending c x = true.
Proof.
  intros [Hnd _] Hclock. eexists. split; [done|]. cbn [hi]. split.
  - unfold newest. destruct (sort_threads threads) as [|y l] eqn:E; [apply empty_le|]. simpl.
    apply Hclock, elem_of_sort_threads. rewrite E. by left.
  - intros x Hx. destruct (newest_max threads x Hnd Hx) as (n & -> & _). unfold pending, contains. simpl.
    by destruct (str_lt n (thread_key x)).
Qed.

(** How the threads change under a clock that never goes back: every thread a later
    snapshot has and the one before had not, new or active again, has an activity
    past the clock of that moment. *)
Definition at_clock (clock : string) (threads : list Thread) : Prop :=
  good_threads threads /\ forall x, x ∈ threads -> str_le (thread_key x) clock.

Inductive history : string -> list Thread -> list (list Thread) -> Prop :=
| history_last clock threads : at_clock clock threads -> history clock threads []
| history_next clock threads clock' threads' later :
    at_clock clock threads -> str_le clock clock' ->
    (forall x, x ∈ threads' -> x ∈ threads \/ str_lt clock (thread_key x) = true) ->
    history clock' threads' later -> history clock threads (threads' :: later).

Lemma history_clock clock threads later : history clock threads later -> at_clock clock threads.
Proof. by inversion 1. Qed.

Lemma moved_hi threads taken c c' clock :
  at_clock clock threads -> str_le (hi c) clock -> moved threads taken c c' -> str_le (hi c') clock.
Proof. intros [_ Hk] Hc M. destruct (mv_hi _ _ _ _ M) as [->|(x & Hx & <-)]; [done|by apply Hk]. Qed.

(** A thread past the clock is pending, whatever the cursor. *)
Lemma pending_past clock c x : str_le (hi c) clock -> str_lt clock (thread_key x) = true -> pending c x = true.
Proof.
  intros Hc Hx. unfold pending. destruct (str_lt (hi c) (thread_key x)) eqn:E; [done|].
  exfalso. assert (str_le (thread_key x) clock) as Hle by (by eapply str_le_trans). unfold str_le in Hle. congruence.
Qed.

Lemma page_taken threads limit_ budget c rows taken next later x :
  page_done threads limit_ budget c rows taken next -> x ∈ taken ->
  pending c x = true /\ exists t, t ∈ threads :: later /\ x ∈ t.
Proof. intros P [Ht Hp]%(pd_taken _ _ _ _ _ _ _ P). split; [done|]. exists threads. split; [by left|done]. Qed.

Lemma page_last threads limit_ budget c rows taken (served : list Thread) later :
  page_done threads limit_ budget c rows taken None ->
  (forall x, x ∈ threads -> pending c x = true \/ x ∈ served) ->
  Forall2 (row_of render_thread shrink_thread) rows taken /\ NoDup taken /\
    (forall x, x ∈ taken -> pending c x = true /\ exists t, t ∈ threads :: later /\ x ∈ t) /\
    (forall x, x ∈ threads -> x ∈ served \/ x ∈ taken).
Proof.
  intros P Hcov. split_and!; [apply P|apply P|intros x; by eapply page_taken|].
  intros x Hx. destruct (Hcov x Hx); [right; by apply (pd_next _ _ _ _ _ _ _ P)|by left].
Qed.

Lemma walk_complete ws note limit_ budget later : forall clock threads next c (served : list Thread) rows final,
  1 <= limit_ -> history clock threads later -> str_le (hi c) clock ->
  request_cursor (sort_threads threads) (comment_list_scope ws note) next = Some c ->
  (forall x, x ∈ threads -> pending c x = true \/ x ∈ served) -> (forall x, pending c x = true -> x ∉ served) ->
  comment_walk (threads :: later) ws note limit_ budget next = Some (rows, final) ->
  exists new, Forall2 (row_of render_thread shrink_thread) rows new /\ NoDup new /\
    (forall x, x ∈ new -> pending c x = true /\ exists t, t ∈ threads :: later /\ x ∈ t) /\
    (forall x, x ∈ final -> x ∈ served \/ x ∈ new).
Proof.
  induction later as [|threads' later IH]; intros clock threads next c served rows final Hl Hh Hhi Hreq Hcov Hdis Hw;
    pose proof (history_clock _ _ _ Hh) as Hclk;
    destruct (comment_page_spec threads ws note next limit_ budget c Hl (proj1 Hclk) Hreq) as (rs & taken & next' & Hpage & P);
    cbn [comment_walk] in Hw; rewrite Hpage in Hw; pose proof (pd_next _ _ _ _ _ _ _ P) as Hn; destruct next' as [c'|]; simpl in Hw; simplify_eq.
  - exists taken. by eapply page_last.
  - destruct Hn as [_ M]. inversion Hh as [|? ? clock' ? ? _ Hmono Hchange Hh']; subst.
    change (match comment_walk (threads' :: later) ws note limit_ budget (Some (token c' (comment_list_scope ws note))) with
            | Some (more, final) => Some (rs ++ more, final) | None => None end = Some (rows, final)) in Hw.
    destruct (comment_walk (threads' :: later) _ _ _ _ _) as [[more fin]|] eqn:Hrec; simplify_eq.
    pose proof (moved_hi _ _ _ _ _ Hclk Hhi M) as Hhi'.
    destruct (IH clock' threads' (Some (token c' (comment_list_scope ws note))) c' (served ++ taken) more final Hl Hh') as (new & Hrows & Hnd & Hnew & Hfin); try done.
    + by eapply str_le_trans.
    + apply request_own_token, M.
    + intros x Hx. rewrite elem_of_app. destruct (Hchange x Hx) as [Hold|Hpast]; [|left; by eapply pending_past].
      destruct (Hcov x Hold) as [Hx'|]; [|by right; left]. destruct (mv_keep _ _ _ _ M x Hold Hx'); auto.
    + intros x [Hx Hnt]%(mv_mono _ _ _ _ M). rewrite elem_of_app. intros [?|?]; [by eapply Hdis|done].
    + exists (taken ++ new). split_and!; [apply Forall2_app; [apply P|done]| | |].
      * apply NoDup_app. split_and!; [apply P| |done]. intros x Hx Hx'. apply Hnew in Hx' as [Hx' _].
        by apply (mv_mono _ _ _ _ M) in Hx' as [_ ?].
      * intros x [Hx|Hx]%elem_of_app; [by eapply page_taken|].
        destruct (Hnew x Hx) as [Hx' (t & Ht & Hxt)]. split; [by apply (mv_mono _ _ _ _ M)|]. exists t. split; [by right|done].
      * intros x Hx. rewrite elem_of_app. destruct (Hfin x Hx) as [[?|?]%elem_of_app|?]; auto.
  - exists taken. by eapply page_last.
Qed.

(** ** The walk ends *)

Lemma filter_fewer (p q : Thread -> bool) l :
  (forall x, p x = true -> q x = true) ->
  (length (filter (fun x => p x = true) l) <= length (filter (fun x => q x = true) l))%nat.
Proof.
  intros H. induction l as [|x l IH]; [done|]. rewrite !filter_cons. specialize (H x).
  repeat case_decide; simpl in *; (lia || naive_solver).
Qed.

Lemma moved_fewer threads taken c c' :
  moved threads taken c c' -> taken <> [] -> (forall x, x ∈ taken -> x ∈ threads /\ pending c x = true) ->
  (length (filter (fun x => pending c' x = true) threads) < length (filter (fun x => pending c x = true) threads))%nat.
Proof.
  intros M Hne Ht. destruct taken as [|y taken]; [done|]. destruct (Ht y ltac:(by left)) as [Hy Hp].
  assert (pending c' y <> true) as Hp' by (intros [_ Hno]%(mv_mono _ _ _ _ M); set_solver).
  assert (forall x, pending c' x = true -> pending c x = true) as Hsub by (intros x Hx; by apply (mv_mono _ _ _ _ M)).
  clear Hne Ht M. apply list_elem_of_split in Hy as (l & k & ->).
  rewrite !filter_app, !length_app, filter_cons_False, filter_cons_True by done. cbn [length].
  pose proof (filter_fewer _ _ l Hsub). pose proof (filter_fewer _ _ k Hsub). lia.
Qed.

(** A page of a walk that is not over, and the cursor its token resumes. *)
Lemma walk_step threads snapshots ws note limit_ budget next c :
  1 <= limit_ -> good_threads threads ->
  request_cursor (sort_threads threads) (comment_list_scope ws note) next = Some c ->
  (exists rows, comment_walk (threads :: snapshots) ws note limit_ budget next = Some (rows, threads)) \/
  exists c', (forall sorted, request_cursor sorted (comment_list_scope ws note) (Some (token c' (comment_list_scope ws note))) = Some c') /\
    (length (filter (fun x => pending c' x = true) threads) < length (filter (fun x => pending c x = true) threads))%nat /\
    forall more final, comment_walk snapshots ws note limit_ budget (Some (token c' (comment_list_scope ws note))) = Some (more, final) ->
      exists rows, comment_walk (threads :: snapshots) ws note limit_ budget next = Some (rows, final).
Proof.
  intros Hl Hg Hreq. destruct (comment_page_spec threads ws note next limit_ budget c Hl Hg Hreq) as (rs & taken & [c'|] & Hpage & P);
    cbn [comment_walk]; rewrite Hpage; simpl; [right|left; eauto].
  destruct (pd_next _ _ _ _ _ _ _ P) as [Hrs M]. exists c'. split_and!.
  - intros sorted. exact (request_own_token sorted c' _ (mv_good _ _ _ _ M)).
  - eapply moved_fewer; [exact M| |apply P]. intros ->. apply Hrs. pose proof (pd_rows _ _ _ _ _ _ _ P) as H. by inversion H.
  - intros more final ->. simpl. eauto.
Qed.

Lemma walk_quiet threads ws note limit_ budget n : forall next c,
  1 <= limit_ -> good_threads threads ->
  request_cursor (sort_threads threads) (comment_list_scope ws note) next = Some c ->
  (length (filter (fun x => pending c x = true) threads) < n)%nat ->
  exists rows final, comment_walk (replicate n threads) ws note limit_ budget next = Some (rows, final).
Proof.
  induction n as [|n IH]; intros next c Hl Hg Hreq Hn; [lia|]. cbn [replicate].
  destruct (walk_step threads (replicate n threads) ws note limit_ budget next c Hl Hg Hreq) as [[rows Hw]|(c' & Hown & Hless & Hmore)]; [eauto|].
  destruct (IH _ c' Hl Hg (Hown _) ltac:(lia)) as (more & final & Hw). destruct (Hmore _ _ Hw) as [rows Hw']. eauto.
Qed.

(** The last snapshot. *)
Fixpoint latest (threads : list Thread) (later : list (list Thread)) : list Thread :=
  match later with [] => threads | t :: later' => latest t later' end.

(** Once the threads keep still, as many pages as there are threads end the walk. *)
Lemma walk_ends ws note limit_ budget later : forall clock threads next c,
  1 <= limit_ -> history clock threads later ->
  request_cursor (sort_threads threads) (comment_list_scope ws note) next = Some c ->
  let quiet := latest threads later in
  exists rows final, comment_walk (threads :: later ++ replicate (length quiet) quiet) ws note limit_ budget next = Some (rows, final).
Proof.
  induction later as [|threads' later IH]; intros clock threads next c Hl Hh Hreq quiet; pose proof (history_clock _ _ _ Hh) as [Hg _].
  - apply (walk_quiet threads ws note limit_ budget (S (length threads)) next c Hl Hg Hreq).
    pose proof (length_filter (fun x => pending c x = true) threads). lia.
  - inversion Hh as [|? ? clock' ? ? _ _ _ Hh']; subst.
    destruct (walk_step threads ((threads' :: later) ++ replicate (length (latest threads' later)) (latest threads' later))
      ws note limit_ budget next c Hl Hg Hreq) as [[rows Hw]|(c' & Hown & _ & Hmore)]; [eauto|].
    destruct (IH _ _ _ c' Hl Hh' (Hown _)) as (more & final & Hw). destruct (Hmore _ _ Hw) as [rows Hw']. eauto.
Qed.

Lemma history_quiet clock threads later n :
  history clock threads later -> history clock threads (later ++ replicate n (latest threads later)).
Proof.
  induction 1 as [clock threads H|clock threads clock' threads' later H Hle Hch Hh IH].
  - simpl. induction n as [|n IH]; [by constructor|]. cbn [replicate]. apply (history_next clock _ clock); [done|apply str_le_refl|by left|done].
  - by apply (history_next clock _ clock').
Qed.
End walk.

(** ** Keys in the order of time *)

Lemma length_snoc p c : String.length (p +:+ String c EmptyString) = S (String.length p).
Proof. induction p as [|a p IH]; simpl; [done|]. by rewrite IH. Qed.

Lemma padded_length w : forall n, String.length (padded w n) = w.
Proof. induction w as [|w IH]; intros n; [done|]. cbn [padded]. by rewrite length_snoc, IH. Qed.

Lemma compare_snoc p : forall q c d, String.length p = String.length q ->
  String_as_OT.compare (p +:+ String c EmptyString) (q +:+ String d EmptyString) =
    match String_as_OT.compare p q with Eq => Ascii_as_OT.compare c d | r => r end.
Proof.
  induction p as [|a p IH]; intros [|b q] c d Hl; simpl in Hl; try lia; simpl.
  - by destruct (Ascii_as_OT.compare c d).
  - rewrite IH by lia. by destruct (Ascii_as_OT.compare a b).
Qed.

Lemma digit_compare a b : 0 <= a < 10 -> 0 <= b < 10 ->
  Ascii_as_OT.compare (Ascii.ascii_of_N (Z.to_N (48 + a))) (Ascii.ascii_of_N (Z.to_N (48 + b))) = Z.compare a b.
Proof.
  intros Ha Hb. unfold Ascii_as_OT.compare. rewrite !Ascii.N_ascii_embedding by lia.
  change (N.compare (Z.to_N (48 + a)) (Z.to_N (48 + b)) = Z.compare a b).
  rewrite <- N2Z.inj_compare, !Z2N.id by lia. by rewrite Z.add_compare_mono_l.
Qed.

(** Numbers padded to one width compare as numbers. *)
Lemma padded_compare w : forall a b, 0 <= a < 10 ^ Z.of_nat w -> 0 <= b < 10 ^ Z.of_nat w ->
  String_as_OT.compare (padded w a) (padded w b) = Z.compare a b.
Proof.
  induction w as [|w IH]; intros a b Ha Hb.
  - simpl in *. assert (a = b) as -> by lia. by rewrite Z.compare_refl.
  - rewrite Nat2Z.inj_succ, Z.pow_succ_r in Ha, Hb by lia. cbn [padded]. rewrite compare_snoc by (by rewrite !padded_length).
    rewrite IH by (split; [apply Z.div_pos; lia|apply Z.div_lt_upper_bound; lia]).
    rewrite digit_compare by (apply Z.mod_pos_bound; lia).
    pose proof (Z.div_mod a 10 ltac:(lia)). pose proof (Z.div_mod b 10 ltac:(lia)).
    pose proof (Z.mod_pos_bound a 10 ltac:(lia)). pose proof (Z.mod_pos_bound b 10 ltac:(lia)).
    destruct (Z.compare_spec (a / 10) (b / 10)); symmetry; [|apply Z.compare_lt_iff; lia|apply Z.compare_gt_iff; lia].
    destruct (Z.compare_spec (a mod 10) (b mod 10)); [apply Z.compare_eq_iff|apply Z.compare_lt_iff|apply Z.compare_gt_iff]; lia.
Qed.

(** A padded number begins with a digit. *)
Lemma padded_tilde w : forall n s,
  String_as_OT.compare (padded (S w) n) ("~" +:+ s) = Lt /\ String_as_OT.compare ("~" +:+ s) (padded (S w) n) = Gt.
Proof.
  assert (forall n, exists c s k, padded (S w) n = String c s /\ 0 <= k < 10 /\ c = Ascii.ascii_of_N (Z.to_N (48 + k))) as Hhead.
  { induction w as [|w IH]; intros n; cbn [padded].
    - do 2 eexists. exists (n mod 10). split; [done|]. split; [apply Z.mod_pos_bound; lia|done].
    - destruct (IH (n / 10)) as (c & s & k & Heq & Hk). cbn [padded] in Heq. rewrite Heq. by do 3 eexists. }
  intros n s. destruct (Hhead n) as (c & s' & k & -> & Hk & ->). simpl.
  assert (k = 0 \/ k = 1 \/ k = 2 \/ k = 3 \/ k = 4 \/ k = 5 \/ k = 6 \/ k = 7 \/ k = 8 \/ k = 9) as Hc by lia.
  by destruct_or! Hc; subst.
Qed.

(** Activities sort by their instants; text that is no timestamp sorts last. *)
Lemma activity_key_order `{CC : CommentCodecs, CCL : !CommentCodecLaws} a b :
  str_lt (activity_key a) (activity_key b) =
    match parse_iso_nanos a, parse_iso_nanos b with
    | Some x, Some y => x <? y
    | Some _, None => true
    | None, Some _ => false
    | None, None => str_lt a b
    end.
Proof.
  unfold activity_key, str_lt.
  destruct (parse_iso_nanos a) as [x|] eqn:Hx, (parse_iso_nanos b) as [y|] eqn:Hy.
  - apply nanos_range in Hx, Hy. rewrite padded_compare by (change (Z.of_nat 39) with 39; lia).
    rewrite !(Z.add_comm _ (10 ^ 37)), Z.add_compare_mono_l. by unfold Z.ltb.
  - by rewrite (proj1 (padded_tilde 38 _ _)).
  - by rewrite (proj2 (padded_tilde 38 _ _)).
  - done.
Qed.

(** ** A codec *)

(** Keys as bits, and timestamps that are digits of nanoseconds. *)
Module BitKeys.

#[local] Instance bit_keys : CommentCodecs := {|
  parse_iso_nanos s := match s with String a EmptyString => Some (Z.of_N (Ascii.N_of_ascii a)) | _ => None end;
  key_to_string k := BitToken.bits (encode (key_lo k, (key_hi k, key_at k)));
  key_from_str s := '(a, (b, c)) ← decode (BitToken.unbits s); Some (mkKey a b c) |}.

#[local] Instance bit_keys_laws : CommentCodecLaws.
Proof.
  split.
  - intros [a b c]. simpl. by rewrite BitToken.unbits_bits, decode_encode.
  - simpl. intros [|a [|]] n; [done| |done]. intros [= <-]. pose proof (Ascii.N_ascii_bounded a). lia.
Qed.

End BitKeys.

(** * Properties *)



(** A walk of the model: the first page serves [z], the second one skips [x], which became
    active, the last one serves the new activity. *)
Example comment_walk_rounds :
  let t i a := mkThread i a [("threadId", JString i)]%string None in
  let first := [t "x" "1"; t "y" "2"; t "z" "3"]%string in
  let second := [t "x" "5"; t "y" "2"; t "z" "3"]%string in
  fst <$> comment_walk (CJ := BitToken.bit_json) (CC := BitKeys.bit_keys) [first; second; second; second]
    "w"%string "n"%string 1 1000 None =
  Some (render_thread <$> [t "z" "3"; t "y" "2"; t "x" "5"]%string).
Proof. vm_compute. reflexivity. Qed.
