(* ===== verification/FieldPaging.v ===== *)
(** * Paged text fields ([crates/intent-core/src/text_field_page.rs],
      [crates/intent-core/src/message_block_page.rs])

    One field of a JSON value larger than a reply is served in parts that start and
    end between characters.  Text is the bytes of its UTF-8, as in [Json]; a character
    is a byte with the continuation bytes after it, and its escaped size the sum over
    its bytes, which is the code's [match] on the character. *)
From stdpp Require Import prelude strings list.
From S2P Require Import Prelude Json.

(** ** Characters of a [str] *)

(** A continuation byte [0b10xxxxxx]. *)
Definition is_continuation (c : Ascii.ascii) : bool :=
  let b := Z.of_N (Ascii.N_of_ascii c) in (0x80 <=? b) && (b <? 0xc0).

Definition continues (s : string) : bool :=
  match s with String c _ => is_continuation c | EmptyString => false end.

(** [s.chars()], each as its bytes. *)
Fixpoint chars (s : string) : list string :=
  match s with
  | EmptyString => []
  | String c s' =>
      match chars s' with
      | g :: gs => if continues g then String c g :: gs else String c EmptyString :: g :: gs
      | [] => [String c EmptyString]
      end
  end.

Fixpoint cat (l : list string) : string :=
  match l with [] => EmptyString | s :: l' => s +:+ cat l' end.

(** [&s[n..]]. *)
Fixpoint sskip (n : nat) (s : string) : string :=
  match n, s with
  | O, _ => s
  | S n', String _ s' => sskip n' s'
  | S _, EmptyString => EmptyString
  end.

Definition is_char_boundary (s : string) (i : Z) : bool :=
  if (i =? 0) || (i =? slen s) then true
  else if slen s <? i then false
  else negb (continues (sskip (Z.to_nat i) s)).

Definition jsize (n : Z) : json := JNumber (PosInt (Z.to_N n)).

(** * Text fields *)
Module TextField.

Definition MIN_PART_JSON_BYTES : Z := 64 * 1024.

(** The error's offset and the field's size. *)
Inductive FieldError := NotInside (offset full : Z).

(** [prefix_within_json_bytes] over the characters. *)
Fixpoint prefix_within_json_bytes (cs : list string) (used budget : Z) : list string :=
  match cs with
  | [] => []
  | c :: cs' =>
      let len := escaped_str_len c in
      if budget <? used + len then [] else c :: prefix_within_json_bytes cs' (used + len) budget
  end.

(** [capital[..1].make_ascii_uppercase()]; [None] when the first byte is not a
    character. *)
Definition capitalized (field : string) : option string :=
  match field with
  | EmptyString => None
  | String c rest =>
      let b := Z.of_N (Ascii.N_of_ascii c) in
      if continues rest then None
      else Some (String (if (97 <=? b) && (b <=? 122) then char_of (b - 32) else c) rest)
  end.

Definition truncated_key (field : string) : string := field +:+ "Truncated".
Definition bytes_key (field : string) : string := field +:+ "Bytes".
Definition offset_key (field : string) : string := field +:+ "Offset".
Definition next_key (capital : string) : string := "next" +:+ capital +:+ "Offset".

Definition markers (field capital : string) : list string :=
  [truncated_key field; bytes_key field; offset_key field; next_key capital].

Definition field_text (row : json) (field : string) : string := default EmptyString (jget row field ≫= as_str).

(** The row with an empty field and its markers. *)
Definition emptied (obj : list (string * json)) (field capital : string) (full offset : Z) : list (string * json) :=
  let obj := map_insert obj field (JString EmptyString) in
  let obj := map_insert obj (truncated_key field) (JBool true) in
  let obj := map_insert obj (bytes_key field) (jsize full) in
  let obj := map_insert obj (offset_key field) (jsize offset) in
  map_insert obj (next_key capital) (jsize full).

(** [page_text_field]; [None] is a panic. *)
Definition page_text_field (row : json) (field : string) (offset budget : Z) : option (Result json FieldError) :=
  let full_text := field_text row field in
  let full := slen full_text in
  if (0 <? offset) && ((full <=? offset) || negb (is_char_boundary full_text offset)) then
    Some (Err (NotInside offset full))
  else if (offset =? 0) && (serialized_size row <=? budget) then Some (Ok row)
  else
    match row with
    | JObject obj =>
        capital ← capitalized field;
        let obj := emptied obj field capital full offset in
        let room := Z.max (Z.max 0 (budget - serialized_size (JObject obj))) MIN_PART_JSON_BYTES in
        let rest := chars (sskip (Z.to_nat offset) full_text) in
        let part := match prefix_within_json_bytes rest 0 room with
                    | [] => take 1 rest
                    | part => part
                    end in
        let part := cat part in
        let end_ := offset + slen part in
        let obj := map_insert obj field (JString part) in
        let obj := if (offset =? 0) && (end_ =? full) then foldl map_swap_remove obj (markers field capital)
                   else map_insert obj (next_key capital) (if end_ <? full then jsize end_ else JNull) in
        Some (Ok (JObject obj))
    | _ => Some (Ok row)
    end.

End TextField.

(** * Message blocks *)
Module MessageBlock.

Definition MESSAGE_BLOCK_MAX_BYTES : Z := 480000.
Definition MESSAGE_BLOCK_MIN_BYTES : Z := 4096.

Record MessageBlockPage := mkBlockPage { offset : option Z; max_bytes : option Z }.

Definition cap (p : MessageBlockPage) : Z :=
  match max_bytes p with
  | None => MESSAGE_BLOCK_MAX_BYTES
  | Some b => Z.max MESSAGE_BLOCK_MIN_BYTES (Z.min b MESSAGE_BLOCK_MAX_BYTES)
  end.

(** The [InvalidParams] the reads are refused with. *)
Inductive BlockError :=
| PastEnd (offset total : Z)
| NotOnBoundary (offset : Z)
| OffsetUnsupported.

Definition body_field (block : json) : option string :=
  t ← jget block "type" ≫= as_str;
  if bool_decide (t = "text") || bool_decide (t = "thinking") then Some "text"
  else if bool_decide (t = "tool_use") then Some "input"
  else if bool_decide (t = "tool_result") then Some "output"
  else if bool_decide (t = "image") then Some "data"
  else None.

Definition opt_json {A} (f : A -> json) (o : option A) : json := match o with Some x => f x | None => JNull end.

Definition result (block : json) (truncated : bool) (field encoding : option string) (total_bytes next_offset : option Z) : json :=
  JObject [("block", block); ("truncated", JBool truncated); ("field", opt_json JString field);
           ("encoding", opt_json JString encoding); ("totalBytes", opt_json jsize total_bytes);
           ("nextOffset", opt_json jsize next_offset)].

Definition stub_member (block : json) (cap : Z) (out : list (string * json)) (key : string) : list (string * json) :=
  match jget block key with
  | Some v =>
      let out := map_insert out key v in
      if cap <? serialized_size (JObject out) then map_swap_remove out key else out
  | None => out
  end.

Definition stub (block : json) (cap : Z) : json :=
  result (JObject (foldl (stub_member block cap) [] ["id"; "type"])) true None None None None.

Definition unpaged (block : json) (offset cap : Z) : Result json BlockError :=
  if negb (offset =? 0) then Err OffsetUnsupported
  else if serialized_size block <=? cap then Ok (result block false None None None None)
  else Ok (stub block cap).

(** The characters that fit [room]. *)
Fixpoint fit_chars (cs : list string) (room : Z) : list string :=
  match cs with
  | [] => []
  | c :: cs' =>
      let cost := escaped_str_len c in
      if room <? cost then [] else c :: fit_chars cs' (room - cost)
  end.

(** An image is never cut. *)
Definition page_image (block : json) (offset cap : Z) : Result json BlockError :=
  match jget block "data" ≫= as_str with
  | None => unpaged block offset cap
  | Some data =>
      let data_len := slen data in
      if negb (offset =? 0) then Err OffsetUnsupported
      else if serialized_size block <=? cap then Ok (result block false (Some "data") None (Some data_len) None)
      else
        let block := match block with
                     | JObject obj => JObject (map_insert (map_insert (map_swap_remove obj "data") "dataTruncated" (JBool true))
                                         "dataBytes" (jsize data_len))
                     | _ => block
                     end in
        if serialized_size block <=? cap then Ok (result block true (Some "data") None (Some data_len) None)
        else Ok (stub block cap)
  end.

(** The text a body is paged as, with its encoding. *)
Definition body_text (body : json) : string * string :=
  match body with
  | JString s => (s, "text")
  | other => (json_text other, "json")
  end.

Definition page_body (block : json) (field : string) (body : json) (offset cap : Z) : Result json BlockError :=
  let '(text, encoding) := body_text body in
  let total := slen text in
  if total <? offset then Err (PastEnd offset total)
  else if negb (is_char_boundary text offset) then Err (NotOnBoundary offset)
  else if (offset =? 0) && (serialized_size block <=? cap) then
    Ok (result block false (Some field) (Some encoding) (Some total) None)
  else
    let block := jset block field (JString EmptyString) in
    let overhead := serialized_size block in
    if cap <? overhead then Ok (stub block cap)
    else
      let part := cat (fit_chars (chars (sskip (Z.to_nat offset) text)) (cap - overhead)) in
      let end_ := offset + slen part in
      if (end_ =? offset) && (offset <? total) then Ok (stub block cap)
      else Ok (result (jset block field (JString part)) true (Some field) (Some encoding) (Some total)
                 (if end_ <? total then Some end_ else None)).

Definition page_message_block (block : json) (page : MessageBlockPage) : Result json BlockError :=
  let cap := cap page in
  let offset := default 0 (offset page) in
  match body_field block with
  | Some field =>
      match jget block field with
      | Some body =>
          if bool_decide (field = "data") then page_image block offset cap else page_body block field body offset cap
      | None => unpaged block offset cap
      end
  | None => unpaged block offset cap
  end.

End MessageBlock.

(** * Lemmas *)

(** ** Characters *)

Lemma cat_app l k : cat (l ++ k) = cat l +:+ cat k.
Proof. induction l as [|s l IH]; [done|]. cbn [cat app]. by rewrite IH, sapp_assoc. Qed.

Lemma cat_chars s : cat (chars s) = s.
Proof.
  induction s as [|c s IH]; [done|]. cbn [chars]. destruct (chars s) as [|g gs]; [by rewrite <- IH|].
  cbn [cat] in IH. destruct (continues g); cbn [cat]; rewrite <- IH; done.
Qed.

Lemma chars_nonempty s g : g ∈ chars s -> g <> EmptyString.
Proof.
  revert g. induction s as [|c s IH]; intros g; [by intros ?%not_elem_of_nil|]. cbn [chars].
  destruct (chars s) as [|g' gs]; [by intros ->%list_elem_of_singleton|].
  destruct (continues g'); intros [->|Hg]%elem_of_cons; try done; apply IH; [by right|done].
Qed.

Lemma chars_tail s g gs : chars s = g :: gs -> chars (cat gs) = gs /\ continues (cat gs) = false.
Proof.
  revert g gs. induction s as [|c s IH]; intros g gs; [done|]. cbn [chars]. destruct (chars s) as [|g' gs'] eqn:E.
  - by intros [= <- <-].
  - destruct (continues g') eqn:Hc; intros [= <- <-]; [by eapply IH|]. rewrite <- E, cat_chars. split; [done|].
    assert (cat (chars s) = s) as Hcat by apply cat_chars. rewrite E in Hcat. cbn [cat] in Hcat. rewrite <- Hcat.
    assert (g' <> EmptyString) as Hne by (apply (chars_nonempty s); rewrite E; by left). by destruct g'.
Qed.

Lemma chars_suffix pre : forall s rest, chars s = pre ++ rest ->
  chars (cat rest) = rest /\ (pre <> [] -> continues (cat rest) = false).
Proof.
  induction pre as [|g pre IH]; intros s rest Hs.
  - split; [|done]. cbn [app] in Hs. rewrite <- Hs. by rewrite cat_chars.
  - destruct (chars_tail s g (pre ++ rest) Hs) as [Ht Hc]. destruct (IH _ rest Ht) as [Hr Hr']. split; [done|]. intros _.
    destruct pre as [|g' pre]; [done|by apply Hr'].
Qed.

Lemma sskip_app s t : sskip (String.length s) (s +:+ t) = t.
Proof. induction s as [|c s IH]; [done|]. exact IH. Qed.

(** The bytes between two characters are a boundary, and the characters after it the rest. *)
Lemma boundary_split s pre rest :
  chars s = pre ++ rest ->
  sskip (Z.to_nat (slen (cat pre))) s = cat rest /\ chars (cat rest) = rest /\ is_char_boundary s (slen (cat pre)) = true.
Proof.
  intros Hs. assert (s = cat pre +:+ cat rest) as Hcat by (by rewrite <- cat_app, <- Hs, cat_chars).
  destruct (chars_suffix pre s rest Hs) as [Hr Hc].
  assert (sskip (Z.to_nat (slen (cat pre))) s = cat rest) as Hskip by (rewrite Hcat; unfold slen; rewrite Nat2Z.id; apply sskip_app).
  split_and!; [done..|]. unfold is_char_boundary. rewrite Hskip.
  destruct pre as [|g pre]; [done|]. rewrite Hc by done. assert (slen s = slen (cat (g :: pre)) + slen (cat rest)) as -> by (rewrite Hcat at 1; apply slen_app).
  pose proof (slen_nonneg (cat rest)). destruct (_ || _); [done|]. by rewrite (proj2 (Z.ltb_ge _ _)) by lia.
Qed.

Lemma continues_chars s : continues s = match chars s with g :: _ => continues g | [] => false end.
Proof. destruct s as [|c s]; [done|]. cbn [chars]. destruct (chars s) as [|g gs]; [done|]. by destruct (continues g). Qed.

Lemma chars_app t u : continues u = false -> chars (t +:+ u) = chars t ++ chars u.
Proof.
  intros Hu. induction t as [|c t IH]; [done|]. change (String c t +:+ u) with (String c (t +:+ u)). cbn [chars]. rewrite IH.
  destruct (chars t) as [|g gs]; cbn [app]; [|by destruct (continues g)].
  rewrite continues_chars in Hu. destruct (chars u) as [|g gs]; [done|]. by rewrite Hu.
Qed.

Lemma sskip_split n : forall s, (n <= String.length s)%nat -> exists t, s = t +:+ sskip n s /\ String.length t = n.
Proof.
  induction n as [|n IH]; intros s Hn; [by exists EmptyString; destruct s|]. destruct s as [|c s]; cbn [String.length] in Hn; [lia|].
  destruct (IH s ltac:(lia)) as (t & Ht & Hl). exists (String c t). cbn [sskip String.length]. split; [|lia].
  change (String c t +:+ sskip n s) with (String c (t +:+ sskip n s)). by rewrite <- Ht.
Qed.

(** Every boundary lies between two characters. *)
Lemma boundary_inside s i :
  0 <= i <= slen s -> is_char_boundary s i = true -> exists pre rest, chars s = pre ++ rest /\ i = slen (cat pre).
Proof.
  intros Hi. unfold is_char_boundary. destruct (Z.eqb_spec i 0) as [->|]; [intros _; by exists [], (chars s)|].
  destruct (Z.eqb_spec i (slen s)) as [->|]; [intros _; exists (chars s), []; by rewrite app_nil_r, cat_chars|].
  cbn [orb]. rewrite (proj2 (Z.ltb_ge _ _)) by lia. intros Hc%negb_true_iff.
  destruct (sskip_split (Z.to_nat i) s) as (t & Ht & Hl); [unfold slen in Hi; lia|].
  exists (chars t), (chars (sskip (Z.to_nat i) s)). rewrite <- chars_app, <- Ht by done. split; [done|].
  rewrite cat_chars. unfold slen. lia.
Qed.

(** Every character of a [str] costs at most six bytes: one escape, or up to four bytes
    of UTF-8. *)
Definition utf8_costs (s : string) : Prop := Forall (fun c => escaped_str_len c <= 6) (chars s).

Lemma slen_cat_pos cs s : (forall g, g ∈ cs -> g ∈ chars s) -> cs <> [] -> 0 < slen (cat cs).
Proof.
  intros Hin Hne. destruct cs as [|g cs]; [done|]. cbn [cat]. rewrite slen_app.
  assert (g <> EmptyString) as Hg by (apply (chars_nonempty s), Hin; by left).
  destruct g as [|c g]; [done|]. rewrite slen_cons. pose proof (slen_nonneg g). pose proof (slen_nonneg (cat cs)). lia.
Qed.

Lemma slen_chars s pre rest : chars s = pre ++ rest -> slen s = slen (cat pre) + slen (cat rest).
Proof. intros Hs. rewrite <- slen_app, <- cat_app, <- Hs. by rewrite cat_chars. Qed.

Lemma slen_chars_lt s pre rest : chars s = pre ++ rest -> rest <> [] -> slen (cat pre) < slen s.
Proof.
  intros Hs Hne. rewrite (slen_chars s pre rest Hs). assert (0 < slen (cat rest)); [|lia].
  apply (slen_cat_pos rest s); [|done]. intros g Hg. rewrite Hs. apply elem_of_app. by right.
Qed.

(** ** Text fields *)

Module TextFieldProofs.
Import TextField.

Lemma capitalized_slen field capital : capitalized field = Some capital -> slen capital = slen field.
Proof.
  destruct field as [|c rest]; [done|]. cbn [capitalized]. destruct (continues rest); [done|]. intros [= <-]. by rewrite !slen_cons.
Qed.

(** The keys of a page have different lengths. *)
Lemma keys_distinct field capital : capitalized field = Some capital -> NoDup (field :: markers field capital).
Proof.
  intros Hc%capitalized_slen. apply (NoDup_fmap_1 slen). unfold markers, truncated_key, bytes_key, offset_key, next_key. cbn [fmap list_fmap].
  rewrite !slen_app, Hc. change (slen "Truncated") with 9. change (slen "Bytes") with 5. change (slen "Offset") with 6.
  change (slen "next") with 4. rewrite !NoDup_cons, !not_elem_of_cons. repeat split; try apply not_elem_of_nil; try apply NoDup_nil; lia.
Qed.

Lemma prefix_spec budget cs : forall used,
  exists rest, cs = prefix_within_json_bytes cs used budget ++ rest /\
    (used <= budget -> used + escaped_str_len (cat (prefix_within_json_bytes cs used budget)) <= budget) /\
    match rest with
    | [] => True
    | c :: _ => budget < used + escaped_str_len (cat (prefix_within_json_bytes cs used budget)) + escaped_str_len c
    end.
Proof.
  induction cs as [|c cs IH]; intros used; cbn [prefix_within_json_bytes]; [exists []; cbn; split_and!; [done|lia|done]|].
  destruct (Z.ltb_spec budget (used + escaped_str_len c)); [exists (c :: cs); cbn; split_and!; [done|lia|lia]|].
  destruct (IH (used + escaped_str_len c)) as (rest & Hcs & Hb & Hr). exists rest. cbn [app cat]. rewrite <- Hcs, escaped_str_len_app.
  split_and!; [done|lia|]. destruct rest; [done|lia].
Qed.

(** With the room a page keeps, the part is a prefix that is not empty, fits, and is cut
    only when it is large. *)
Lemma part_spec cs room :
  Forall (fun c => escaped_str_len c <= 6) cs -> MIN_PART_JSON_BYTES <= room ->
  let part := match prefix_within_json_bytes cs 0 room with [] => take 1 cs | part => part end in
  exists rest, cs = part ++ rest /\ escaped_str_len (cat part) <= room /\
    (rest <> [] -> part <> [] /\ MIN_PART_JSON_BYTES - 5 <= escaped_str_len (cat part)).
Proof.
  intros Hc Hroom. destruct (prefix_spec room cs 0) as (rest & Hcs & Hb & Hr). unfold MIN_PART_JSON_BYTES in *.
  destruct (prefix_within_json_bytes cs 0 room) as [|c part]; cbv zeta.
  - cbn [app] in Hcs. subst rest. destruct cs as [|c cs]; [exists []; cbn; split_and!; [done|lia|done]|].
    apply Forall_cons in Hc as [Hc _]. cbn in Hr. lia.
  - exists rest. split_and!; [done|lia|]. intros Hne. split; [done|]. destruct rest as [|d rest]; [done|].
    rewrite Hcs in Hc. apply Forall_app in Hc as [_ [Hd _]%Forall_cons]. lia.
Qed.

Definition next_offset (capital : string) (row : json) : option Z :=
  match jget row (next_key capital) with Some (JNumber (PosInt n)) => Some (Z.of_N n) | _ => None end.

(** A client that follows the offsets from [offset]; the text it reads. *)
Fixpoint read_field (fuel : nat) (row : json) (field capital : string) (budget offset : Z) : option string :=
  match fuel with
  | O => None
  | S fuel' =>
      match page_text_field row field offset budget with
      | Some (Ok page) =>
          part ← jget page field ≫= as_str;
          match next_offset capital page with
          | Some next => more ← read_field fuel' row field capital budget next; Some (part +:+ more)
          | None => Some part
          end
      | _ => None
      end
  end.

Section page.
Context (obj : list (string * json)) (field capital text : string) (budget : Z).
Context (Hkeys : distinct_keys obj) (Htext : map_get obj field = Some (JString text)).
Context (Hcap : capitalized field = Some capital) (Hfresh : map_get obj (next_key capital) = None).
Context (Hcosts : utf8_costs text).

Lemma key_ne k : k ∈ markers field capital -> k <> field.
Proof. intros Hk ->. pose proof (keys_distinct field capital Hcap) as H. by apply NoDup_cons in H as [? _]. Qed.

Lemma field_text_eq : field_text (JObject obj) field = text.
Proof. unfold field_text. cbn [jget]. by rewrite Htext. Qed.

Lemma emptied_field full offset : map_get (emptied obj field capital full offset) field = Some (JString EmptyString).
Proof.
  unfold emptied. rewrite !map_get_insert_ne by (apply key_ne; unfold markers; set_solver). apply map_get_insert_eq.
Qed.

Lemma emptied_next full offset : map_get (emptied obj field capital full offset) (next_key capital) = Some (jsize full).
Proof. apply map_get_insert_eq. Qed.

Lemma emptied_distinct full offset : distinct_keys (emptied obj field capital full offset).
Proof. unfold emptied. by repeat apply distinct_insert. Qed.

(** Dropping the markers keeps the field and forgets the cursor. *)
Lemma unmarked m :
  distinct_keys m ->
  map_get (foldl map_swap_remove m (markers field capital)) field = map_get m field /\
  map_get (foldl map_swap_remove m (markers field capital)) (next_key capital) = None /\
  serialized_size (JObject (foldl map_swap_remove m (markers field capital))) <= serialized_size (JObject m).
Proof.
  intros Hm. assert (forall k, k ∈ markers field capital -> k <> field) as Hne by apply key_ne. revert Hne. unfold markers. cbn [foldl]. intros Hne.
  split_and!.
  - rewrite !map_get_swap_remove_ne by (try (apply Hne; set_solver); by repeat apply distinct_swap_remove). done.
  - by apply map_get_swap_remove_eq; repeat apply distinct_swap_remove.
  - etrans; [apply size_swap_remove|]. etrans; [apply size_swap_remove|]. etrans; [apply size_swap_remove|]. apply size_swap_remove.
Qed.

(** One page, from the characters [rest] after [pre]. *)
Record field_page (pre rest : list string) (page : json) (part left : list string) : Prop := {
  fp_rest : rest = part ++ left;
  fp_part : jget page field = Some (JString (cat part));
  fp_next : next_offset capital page = match left with [] => None | _ => Some (slen (cat (pre ++ part))) end;
  fp_large : left <> [] -> MIN_PART_JSON_BYTES - 5 <= escaped_str_len (cat part);
  fp_size : serialized_size page <= Z.max budget
    (serialized_size (JObject (emptied obj field capital (slen text) (slen (cat pre)))) + MIN_PART_JSON_BYTES) }.

(** A page that carries its part and a cursor: the sizes of the part and of the cursor
    against the row without them. *)
Lemma marked_size m part full next :
  map_get m field = Some (JString EmptyString) -> map_get m (next_key capital) = Some (jsize full) ->
  0 <= full -> slen part <= full -> (forall n, next = Some n -> 0 <= n < full) ->
  escaped_str_len part <= Z.max (Z.max 0 (budget - serialized_size (JObject m))) MIN_PART_JSON_BYTES ->
  serialized_size (JObject (map_insert (map_insert m field (JString part)) (next_key capital) (MessageBlock.opt_json jsize next))) <=
    Z.max budget (serialized_size (JObject m) + MIN_PART_JSON_BYTES).
Proof.
  intros Hf Hn Hfull Hpart Hnext Hroom.
  rewrite (size_insert_present _ _ _ (jsize full)) by (rewrite map_get_insert_ne by (apply not_eq_sym, key_ne; unfold markers; set_solver); done).
  rewrite (size_insert_present _ _ _ (JString EmptyString)) by done. set (b := serialized_size (JObject m)) in *. cbn [serialized_size escaped_str_len].
  unfold MIN_PART_JSON_BYTES in *. destruct next as [n|]; cbn [MessageBlock.opt_json].
  - specialize (Hnext n eq_refl). pose proof (dec_string_mono (Z.to_N n) (Z.to_N full) ltac:(lia)). unfold jsize. cbn [serialized_size number_len]. lia.
  - unfold jsize. cbn [serialized_size number_len]. pose proof (escaped_str_len_bounds part).
    destruct (Z.le_gt_cases 4 (slen (dec_string (Z.to_N full)))) as [?|Hs]; [lia|]. apply dec_string_small in Hs.
    pose proof (slen_nonneg (dec_string (Z.to_N full))). lia.
Qed.

Lemma offset_accepted pre rest :
  chars text = pre ++ rest -> pre = [] \/ rest <> [] ->
  (0 <? slen (cat pre)) && ((slen text <=? slen (cat pre)) || negb (is_char_boundary text (slen (cat pre)))) = false.
Proof.
  intros Hs Hor. destruct (boundary_split text pre rest Hs) as (_ & _ & ->). rewrite orb_false_r. destruct Hor as [->|Hne]; [done|].
  pose proof (slen_chars_lt text pre rest Hs Hne). rewrite (proj2 (Z.leb_gt _ _)) by lia. apply andb_false_r.
Qed.

Lemma offset_zero pre rest : chars text = pre ++ rest -> slen (cat pre) = 0 -> pre = [].
Proof.
  intros Hs Hz. destruct pre as [|g pre]; [done|]. assert (0 < slen (cat (g :: pre))); [|lia].
  apply (slen_cat_pos _ text); [|done]. intros g' Hg. rewrite Hs. apply elem_of_app. by left.
Qed.

Lemma left_nonempty pre part left :
  chars text = (pre ++ part) ++ left -> left <> [] <-> slen (cat (pre ++ part)) < slen text.
Proof.
  intros Hs. split; [by apply slen_chars_lt|]. intros Hlt ->. rewrite (slen_chars _ _ _ Hs) in Hlt. change (slen (cat [])) with 0 in Hlt. lia.
Qed.

Section parts.
Context (pre part left : list string) (Hs : chars text = (pre ++ part) ++ left).
Let m := emptied obj field capital (slen text) (slen (cat pre)).
Context (Hroom : escaped_str_len (cat part) <= Z.max (Z.max 0 (budget - serialized_size (JObject m))) MIN_PART_JSON_BYTES).
Context (Hlarge : left <> [] -> MIN_PART_JSON_BYTES - 5 <= escaped_str_len (cat part)).

(** The whole field as one part: the row has no markers. *)
Lemma whole_part :
  left = [] ->
  field_page pre (part ++ left) (JObject (foldl map_swap_remove (map_insert m field (JString (cat part))) (markers field capital))) part left.
Proof.
  intros ->. destruct (unmarked (map_insert m field (JString (cat part))) ltac:(apply distinct_insert, emptied_distinct)) as (Hf & Hn & Hsz).
  split; [done| | |done|].
  - cbn [jget]. by rewrite Hf, map_get_insert_eq.
  - unfold next_offset. cbn [jget]. by rewrite Hn.
  - etrans; [exact Hsz|]. rewrite (size_insert_present _ _ _ (JString EmptyString)) by apply emptied_field. fold m.
    set (b := serialized_size (JObject m)) in *. cbn [serialized_size escaped_str_len]. unfold MIN_PART_JSON_BYTES in *. lia.
Qed.

(** A part with its markers. *)
Lemma marked_part :
  field_page pre (part ++ left)
    (JObject (map_insert (map_insert m field (JString (cat part))) (next_key capital)
       (if slen (cat (pre ++ part)) <? slen text then jsize (slen (cat (pre ++ part))) else JNull))) part left.
Proof.
  pose proof (left_nonempty _ _ _ Hs) as Hleft.
  set (next := if slen (cat (pre ++ part)) <? slen text then Some (slen (cat (pre ++ part))) else None).
  assert ((if slen (cat (pre ++ part)) <? slen text then jsize (slen (cat (pre ++ part))) else JNull) = MessageBlock.opt_json jsize next) as ->
    by (subst next; by destruct (_ <? _)).
  assert (next = match left with [] => None | _ => Some (slen (cat (pre ++ part))) end) as Hnext.
  { subst next. destruct (Z.ltb_spec (slen (cat (pre ++ part))) (slen text)) as [Hlt|Hge]; destruct left as [|g l]; try done.
    - by apply Hleft in Hlt.
    - assert (slen (cat (pre ++ part)) < slen text) by (by apply Hleft). lia. }
  split; [done| | |done|].
  - cbn [jget]. rewrite map_get_insert_ne by (apply key_ne; unfold markers; set_solver). apply map_get_insert_eq.
  - unfold next_offset. cbn [jget]. rewrite map_get_insert_eq, Hnext. destruct left; [done|]. cbn [MessageBlock.opt_json jsize].
    by rewrite Z2N.id by apply slen_nonneg.
  - apply (marked_size m (cat part) (slen text)); [apply emptied_field|apply emptied_next|apply slen_nonneg| | |exact Hroom].
    + pose proof (slen_chars _ _ _ Hs) as Hfull. rewrite cat_app, slen_app in Hfull. pose proof (slen_nonneg (cat pre)). pose proof (slen_nonneg (cat left)). lia.
    + intros n. subst next. destruct (Z.ltb_spec (slen (cat (pre ++ part))) (slen text)); [|done]. intros [= <-]. split; [apply slen_nonneg|done].
Qed.
End parts.

Lemma page_step pre rest :
  chars text = pre ++ rest -> pre = [] \/ rest <> [] ->
  exists page part left, page_text_field (JObject obj) field (slen (cat pre)) budget = Some (Ok page) /\ field_page pre rest page part left.
Proof.
  intros Hs Hor. unfold page_text_field. rewrite field_text_eq, (offset_accepted _ _ Hs Hor), Hcap.
  destruct (boundary_split text pre rest Hs) as (-> & -> & _).
  destruct ((slen (cat pre) =? 0) && (serialized_size (JObject obj) <=? budget)) eqn:Hwhole.
  - apply andb_true_iff in Hwhole as [Hz%Z.eqb_eq Hfit%Z.leb_le].
    apply (offset_zero _ _ Hs) in Hz. subst pre. exists (JObject obj), rest, []. split; [done|]. cbn [app] in Hs. split.
    + by rewrite app_nil_r.
    + cbn [jget]. by rewrite Htext, <- Hs, cat_chars.
    + unfold next_offset. cbn [jget]. by rewrite Hfresh.
    + done.
    + lia.
  - clear Hwhole. cbn [mbind option_bind]. pose proof Hcosts as Hc. unfold utf8_costs in Hc. rewrite Hs in Hc. apply Forall_app in Hc as [_ Hc].
    set (m := emptied obj field capital (slen text) (slen (cat pre))). set (room := Z.max _ MIN_PART_JSON_BYTES).
    destruct (part_spec rest room Hc ltac:(subst room; lia)) as (left & Hrest & Hroom & Hlarge). cbv zeta in Hrest, Hroom, Hlarge.
    set (part := match prefix_within_json_bytes rest 0 room with [] => _ | _ => _ end) in *.
    assert (slen (cat pre) + slen (cat part) = slen (cat (pre ++ part))) as -> by (by rewrite cat_app, slen_app).
    rewrite Hrest in Hs |- *. rewrite app_assoc in Hs. pose proof (left_nonempty _ _ _ Hs) as Hleft.
    destruct ((slen (cat pre) =? 0) && (slen (cat (pre ++ part)) =? slen text)) eqn:Hone; do 3 eexists; (split; [done|]).
    + apply (whole_part pre part left Hs Hroom); [by intros Hne; apply Hlarge|]. apply andb_true_iff in Hone as [_ Hend%Z.eqb_eq]. destruct left as [|g left]; [done|].
      assert (slen (cat (pre ++ part)) < slen text) by (by apply Hleft). lia.
    + apply (marked_part pre part left Hs Hroom). intros Hne. by apply Hlarge.
Qed.

Lemma read_rest fuel : forall pre rest,
  chars text = pre ++ rest -> pre = [] \/ rest <> [] ->
  escaped_str_len (cat rest) / (MIN_PART_JSON_BYTES - 5) < Z.of_nat fuel ->
  read_field fuel (JObject obj) field capital budget (slen (cat pre)) = Some (cat rest).
Proof.
  induction fuel as [|fuel IH]; intros pre rest Hs Hor Hfuel.
  - pose proof (escaped_str_len_bounds (cat rest)). pose proof (slen_nonneg (cat rest)). unfold MIN_PART_JSON_BYTES in *.
    pose proof (Z.div_pos (escaped_str_len (cat rest)) (64 * 1024 - 5) ltac:(lia) ltac:(lia)). lia.
  - cbn [read_field]. destruct (page_step pre rest Hs Hor) as (page & part & left & -> & [-> Hpart Hnext Hlarge _]).
    rewrite Hpart, Hnext. cbn [mbind option_bind as_str]. destruct left as [|g left]; [by rewrite app_nil_r|].
    rewrite (IH (pre ++ part) (g :: left)); [by rewrite cat_app| |by right|].
    + by rewrite Hs, app_assoc.
    + specialize (Hlarge ltac:(done)). rewrite cat_app, escaped_str_len_app in Hfuel. unfold MIN_PART_JSON_BYTES in *.
      pose proof (div_share (64 * 1024 - 5) (escaped_str_len (cat part)) (escaped_str_len (cat (g :: left))) ltac:(lia) Hlarge). lia.
Qed.

End page.
End TextFieldProofs.

(** ** Message blocks *)

Module MessageBlockProofs.
Import MessageBlock.

Lemma fit_spec cs : forall room, 0 <= room ->
  exists rest, cs = fit_chars cs room ++ rest /\ escaped_str_len (cat (fit_chars cs room)) <= room /\
    match rest with [] => True | c :: _ => room < escaped_str_len (cat (fit_chars cs room)) + escaped_str_len c end.
Proof.
  induction cs as [|c cs IH]; intros room H0; cbn [fit_chars]; [by exists []|].
  destruct (Z.ltb_spec room (escaped_str_len c)) as [Hlt|Hge]; [exists (c :: cs); cbn; split_and!; [done|lia|lia]|].
  destruct (IH (room - escaped_str_len c) ltac:(lia)) as (rest & Hcs & Hb & Hr). exists rest. cbn [app cat].
  rewrite <- Hcs, escaped_str_len_app. split_and!; [done|lia|]. destruct rest; [done|lia].
Qed.

Lemma insert_then_remove m k v : map_get m k = None -> map_swap_remove (map_insert m k v) k = m.
Proof.
  induction m as [|[k' v'] m IH]; cbn [map_get map_insert map_swap_remove]; [by rewrite decide_True|].
  destruct (decide (k' = k)); [done|]. intros Hm. cbn [map_swap_remove]. rewrite decide_False by done. by rewrite IH.
Qed.

Lemma stub_member_size block cap out key :
  map_get out key = None -> serialized_size (JObject out) <= cap -> serialized_size (JObject (stub_member block cap out key)) <= cap.
Proof.
  intros Hk Hs. unfold stub_member. destruct (jget block key) as [v|]; [|done]. cbv zeta.
  destruct (Z.ltb_spec cap (serialized_size (JObject (map_insert out key v)))); [by rewrite insert_then_remove|lia].
Qed.

Lemma stub_member_ne block cap out key k : k <> key -> map_get out key = None -> map_get out k = None -> map_get (stub_member block cap out key) k = None.
Proof.
  intros Hne Hkey Hk. unfold stub_member. destruct (jget block key) as [v|]; [|done]. cbv zeta.
  destruct (cap <? _); [by rewrite insert_then_remove|]. by rewrite map_get_insert_ne.
Qed.

Lemma cap_range p : MESSAGE_BLOCK_MIN_BYTES <= cap p <= MESSAGE_BLOCK_MAX_BYTES.
Proof. unfold cap, MESSAGE_BLOCK_MIN_BYTES, MESSAGE_BLOCK_MAX_BYTES. destruct (max_bytes p); lia. Qed.

(** The block of a result is within [cap]. *)
Definition capped (cap : Z) (r : json) : Prop := exists b, jget r "block" = Some b /\ serialized_size b <= cap.

Lemma stub_capped block cap : 2 <= cap -> capped cap (stub block cap).
Proof.
  intros Hcap. eexists. split; [done|]. cbn [foldl]. apply stub_member_size; [by apply stub_member_ne|]. by apply stub_member_size.
Qed.

Lemma unpaged_capped block offset cap r : 2 <= cap -> unpaged block offset cap = Ok r -> offset = 0 /\ capped cap r.
Proof.
  intros Hcap. unfold unpaged. destruct (Z.eqb_spec offset 0); [|done]. cbn [negb].
  destruct (Z.leb_spec (serialized_size block) cap); intros [= <-]; (split; [done|]); [by eexists|by apply stub_capped].
Qed.

Lemma image_capped block offset cap r : 2 <= cap -> page_image block offset cap = Ok r -> offset = 0 /\ capped cap r.
Proof.
  intros Hcap. unfold page_image. destruct (jget block "data" ≫= as_str) as [data|]; [|by apply unpaged_capped].
  cbv zeta. destruct (Z.eqb_spec offset 0); [|done]. cbn [negb].
  destruct (Z.leb_spec (serialized_size block) cap); [intros [= <-]; split; [done|by eexists]|].
  set (slim := match block with JObject _ => _ | _ => _ end).
  destruct (Z.leb_spec (serialized_size slim) cap); intros [= <-]; (split; [done|]); [by eexists|by apply stub_capped].
Qed.

Lemma unpaged_err block offset cap e : unpaged block offset cap = Err e -> e = OffsetUnsupported /\ offset <> 0.
Proof. unfold unpaged. destruct (Z.eqb_spec offset 0); cbn [negb]; [by destruct (_ <=? _)|]. by intros [= <-]. Qed.

Lemma image_err block offset cap e : page_image block offset cap = Err e -> e = OffsetUnsupported /\ offset <> 0.
Proof.
  unfold page_image. destruct (jget block "data" ≫= as_str); [|by apply unpaged_err]. cbv zeta.
  destruct (Z.eqb_spec offset 0); cbn [negb]; [|by intros [= <-]]. by repeat destruct (_ <=? _).
Qed.

(** The size of a block with its body replaced by a part. *)
Lemma part_size block field body part :
  jget block field = Some body ->
  serialized_size (jset (jset block field (JString EmptyString)) field (JString part)) =
    serialized_size (jset block field (JString EmptyString)) + escaped_str_len part.
Proof.
  intros (m & ->)%jget_object. cbn [jset]. rewrite (size_insert_present _ _ _ (JString EmptyString)) by apply map_get_insert_eq.
  set (b := serialized_size (JObject _)). cbn [serialized_size escaped_str_len]. lia.
Qed.

Lemma body_capped block field body offset cap r :
  2 <= cap -> jget block field = Some body -> page_body block field body offset cap = Ok r ->
  offset <= slen (body_text body).1 /\ is_char_boundary (body_text body).1 offset = true /\ capped cap r.
Proof.
  intros Hcap Hb. unfold page_body. destruct (body_text body) as [text enc]. cbn [fst]. cbv zeta.
  destruct (Z.ltb_spec (slen text) offset); [done|]. destruct (is_char_boundary text offset); [|done]. cbn [negb].
  destruct ((offset =? 0) && _) eqn:Hw; [apply andb_true_iff in Hw as [_ Hw%Z.leb_le]; intros [= <-]; split_and!; [done..|by eexists]|].
  destruct (Z.ltb_spec cap (serialized_size (jset block field (JString EmptyString)))); [intros [= <-]; split_and!; [done..|by apply stub_capped]|].
  match goal with |- (if ?b then _ else _) = _ -> _ => destruct b end; (intros Hr; injection Hr as <-; split_and!; [done..|]); [by apply stub_capped|].
  eexists. split; [done|].
  rewrite (part_size _ _ body) by done. destruct (fit_spec (chars (sskip (Z.to_nat offset) text)) (cap - serialized_size (jset block field (JString EmptyString))) ltac:(lia)) as (_ & _ & Hfit & _). lia.
Qed.

Lemma body_err block field body offset cap e :
  page_body block field body offset cap = Err e ->
  e = PastEnd offset (slen (body_text body).1) /\ slen (body_text body).1 < offset \/
  e = NotOnBoundary offset /\ offset <= slen (body_text body).1 /\ is_char_boundary (body_text body).1 offset = false.
Proof.
  unfold page_body. destruct (body_text body) as [text enc]. cbn [fst]. cbv zeta.
  destruct (Z.ltb_spec (slen text) offset); [intros [= <-]; by left|]. destruct (is_char_boundary text offset); cbn [negb]; [|intros [= <-]; by right].
  by repeat match goal with |- (if ?b then _ else _) = _ -> _ => destruct b end.
Qed.

(** The text of a body that pages. *)
Definition pageable_text (block : json) : option string :=
  field ← body_field block;
  body ← jget block field;
  if bool_decide (field = "data") then None else Some (body_text body).1.

(** What a client reads off a result: the text of its part and the next offset. *)
Definition part_of (r : json) : option (string * option Z) :=
  field ← jget r "field" ≫= as_str;
  body ← jget r "block" ≫= (fun b => jget b field);
  part ← match jget r "truncated" with
         | Some (JBool true) => as_str body
         | _ => Some (body_text body).1
         end;
  Some (part, match jget r "nextOffset" with Some (JNumber (PosInt n)) => Some (Z.of_N n) | _ => None end).

Fixpoint read_body (fuel : nat) (block : json) (max_bytes : option Z) (offset : Z) : option string :=
  match fuel with
  | O => None
  | S fuel' =>
      match page_message_block block (mkBlockPage (Some offset) max_bytes) with
      | Ok r =>
          '(part, next) ← part_of r;
          match next with
          | Some n => more ← read_body fuel' block max_bytes n; Some (part +:+ more)
          | None => Some part
          end
      | Err _ => None
      end
  end.

(** A part moves the offset while there is text. *)
Lemma part_advances text pre part left :
  chars text = (pre ++ part) ++ left -> (left <> [] -> 0 < escaped_str_len (cat part)) ->
  (slen (cat (pre ++ part)) =? slen (cat pre)) && (slen (cat pre) <? slen text) = false.
Proof.
  intros Hs Hlarge. apply andb_false_iff. destruct part as [|g part].
  - right. apply Z.ltb_ge. rewrite app_nil_r in Hs. rewrite (slen_chars _ _ _ Hs).
    destruct left as [|c left]; [change (slen (cat [])) with 0; lia|]. by specialize (Hlarge ltac:(done)).
  - left. apply Z.eqb_neq. rewrite cat_app, slen_app. assert (0 < slen (cat (g :: part))); [|lia].
    apply (slen_cat_pos _ text); [|done]. intros g' Hg. rewrite Hs, !elem_of_app. by left; right.
Qed.

Section walk.
Context (block body : json) (field : string) (max_bytes : option Z).
Context (Hfield : body_field block = Some field) (Hbody : jget block field = Some body) (Hdata : field <> "data").
Let text := (body_text body).1.
Let room := cap (mkBlockPage None max_bytes) - serialized_size (jset block field (JString EmptyString)).
Context (Hroom : 6 <= room) (Hcosts : utf8_costs text).

Lemma page_is_body offset :
  page_message_block block (mkBlockPage (Some offset) max_bytes) = page_body block field body offset (cap (mkBlockPage None max_bytes)).
Proof. unfold page_message_block. by rewrite Hfield, Hbody, bool_decide_eq_false_2. Qed.

(** The part of a cut body. *)
Lemma part_of_result b part encoding total next :
  (forall n, next = Some n -> 0 <= n) -> jget b field = Some (JString part) ->
  part_of (result b true (Some field) encoding total next) = Some (part, next).
Proof.
  intros Hn Hb. unfold part_of. set (r := result _ _ _ _ _ _).
  change (jget r "field") with (Some (JString field)). change (jget r "block") with (Some b). change (jget r "truncated") with (Some (JBool true)).
  change (jget r "nextOffset") with (Some (opt_json jsize next)). cbn [mbind option_bind as_str]. rewrite Hb. cbn [mbind option_bind as_str].
  destruct next as [n|]; [|done]. cbn [opt_json jsize]. by rewrite Z2N.id by (by apply Hn).
Qed.

Lemma part_of_whole encoding total : part_of (result block false (Some field) encoding total None) = Some ((body_text body).1, None).
Proof.
  unfold part_of. set (r := result _ _ _ _ _ _).
  change (jget r "field") with (Some (JString field)). change (jget r "block") with (Some block). change (jget r "truncated") with (Some (JBool false)).
  cbn [mbind option_bind as_str]. by rewrite Hbody.
Qed.

Lemma body_step pre rest :
  chars text = pre ++ rest -> pre = [] \/ rest <> [] ->
  exists r part left, page_message_block block (mkBlockPage (Some (slen (cat pre))) max_bytes) = Ok r /\ rest = part ++ left /\
    part_of r = Some (cat part, match left with [] => None | _ => Some (slen (cat (pre ++ part))) end) /\
    (left <> [] -> room - 5 <= escaped_str_len (cat part)).
Proof.
  intros Hs Hor. rewrite page_is_body. unfold page_body. subst text. destruct (body_text body) as [text enc] eqn:Htext. cbn [fst] in *.
  destruct (boundary_split text pre rest Hs) as (-> & -> & ->). pose proof (slen_chars _ _ _ Hs) as Hlen. pose proof (slen_nonneg (cat rest)).
  rewrite (proj2 (Z.ltb_ge _ _)) by lia. cbn [negb].
  destruct ((slen (cat pre) =? 0) && _) eqn:Hw.
  - apply andb_true_iff in Hw as [Hz%Z.eqb_eq _]. apply (TextFieldProofs.offset_zero text _ _ Hs) in Hz. subst pre. cbn [app] in *.
    do 2 eexists. exists []. split; [done|]. split; [by rewrite app_nil_r|]. split; [|done].
    by rewrite part_of_whole, Htext, cat_chars.
  - clear Hw. rewrite (proj2 (Z.ltb_ge _ _)) by (subst room; lia). fold room.
    destruct (fit_spec rest room ltac:(lia)) as (left & Hrest & _ & Hcut). set (part := fit_chars rest room) in *.
    unfold utf8_costs in Hcosts. rewrite Hs, Hrest in Hcosts. apply Forall_app in Hcosts as [_ [_ Hc]%Forall_app].
    assert (left <> [] -> room - 5 <= escaped_str_len (cat part)) as Hlarge.
    { destruct left as [|c left]; [done|]. intros _. apply Forall_cons in Hc as [Hc _]. lia. }
    rewrite Hrest, app_assoc in Hs. replace (slen (cat pre) + slen (cat part)) with (slen (cat (pre ++ part))) by (by rewrite cat_app, slen_app).
    rewrite (part_advances text pre part left Hs) by (intros Hne; specialize (Hlarge Hne); lia).
    exists (result (jset (jset block field (JString EmptyString)) field (JString (cat part))) true (Some field) (Some enc) (Some (slen text))
      (if slen (cat (pre ++ part)) <? slen text then Some (slen (cat (pre ++ part))) else None)), part, left.
    split; [done|]. split; [done|]. split; [|done]. rewrite (part_of_result _ (cat part)).
    + do 2 f_equal. pose proof (TextFieldProofs.left_nonempty text _ _ _ Hs) as Hleft.
      destruct (Z.ltb_spec (slen (cat (pre ++ part))) (slen text)) as [Hlt|Hge]; destruct left as [|g l]; try done.
      * by apply Hleft in Hlt.
      * assert (slen (cat (pre ++ part)) < slen text) by (by apply Hleft). lia.
    + intros n. destruct (_ <? _); [|done]. intros [= <-]. apply slen_nonneg.
    + destruct (jget_object _ _ _ Hbody) as [m ->]. cbn. apply map_get_insert_eq.
Qed.

Lemma read_body_rest fuel : forall pre rest,
  chars text = pre ++ rest -> pre = [] \/ rest <> [] -> escaped_str_len (cat rest) / (room - 5) < Z.of_nat fuel ->
  read_body fuel block max_bytes (slen (cat pre)) = Some (cat rest).
Proof.
  induction fuel as [|fuel IH]; intros pre rest Hs Hor Hfuel.
  - pose proof (escaped_str_len_bounds (cat rest)). pose proof (slen_nonneg (cat rest)).
    pose proof (Z.div_pos (escaped_str_len (cat rest)) (room - 5) ltac:(lia) ltac:(lia)). lia.
  - cbn [read_body]. destruct (body_step pre rest Hs Hor) as (r & part & left & -> & -> & -> & Hlarge).
    cbn [mbind option_bind]. destruct left as [|g left]; [by rewrite app_nil_r|].
    rewrite (IH (pre ++ part) (g :: left)); [by rewrite cat_app| |by right|].
    + by rewrite Hs, app_assoc.
    + specialize (Hlarge ltac:(done)). rewrite cat_app, escaped_str_len_app in Hfuel.
      pose proof (div_share (room - 5) (escaped_str_len (cat part)) (escaped_str_len (cat (g :: left))) ltac:(lia) Hlarge). lia.
Qed.

End walk.
End MessageBlockProofs.

(** ** Well-formed values *)

(** A [serde_json::Value]: no object has a key twice. *)
Inductive well_formed : json -> Prop :=
| wf_null : well_formed JNull
| wf_bool b : well_formed (JBool b)
| wf_number n : well_formed (JNumber n)
| wf_string s : well_formed (JString s)
| wf_array l : Forall well_formed l -> well_formed (JArray l)
| wf_object m : distinct_keys m -> Forall (fun kv => well_formed (snd kv)) m -> well_formed (JObject m).

Lemma wf_get m k v : well_formed (JObject m) -> map_get m k = Some v -> well_formed v.
Proof.
  inversion_clear 1 as [| | | | |? Hd Hm]. rewrite map_get_elem by done. intros Hv. by eapply Forall_forall in Hv; [|exact Hm].
Qed.

Lemma wf_insert m k v : well_formed (JObject m) -> well_formed v -> well_formed (JObject (map_insert m k v)).
Proof.
  inversion_clear 1 as [| | | | |? Hd Hm]. intros Hv. constructor; [by apply distinct_insert|]. clear Hd.
  induction Hm as [|[k' v'] m Hk Hm IH]; cbn [map_insert]; [by repeat constructor|]. case_decide; by constructor.
Qed.

Lemma wf_swap_remove m k : well_formed (JObject m) -> well_formed (JObject (map_swap_remove m k)).
Proof.
  inversion_clear 1 as [| | | | |? Hd Hm]. constructor; [by apply distinct_swap_remove|].
  destruct (map_get m k) as [v|] eqn:E; [|by rewrite swap_remove_absent].
  rewrite (swap_remove_perm m k v E), Forall_cons in Hm. by destruct Hm.
Qed.

Lemma wf_jset v k x : well_formed v -> well_formed x -> well_formed (jset v k x).
Proof. intros Hv Hx. destruct v; cbn [jset]; try done. by apply wf_insert. Qed.

Create HintDb wf.
#[local] Hint Constructors well_formed : wf.
#[local] Hint Resolve wf_insert wf_swap_remove wf_jset : wf.
#[local] Hint Extern 1 (well_formed (jsize _)) => constructor : wf.

Lemma wf_text_field row field offset budget page :
  well_formed row -> TextField.page_text_field row field offset budget = Some (Ok page) -> well_formed page.
Proof.
  intros Hrow. unfold TextField.page_text_field. case_match; [done|]. case_match; [by intros [= <-]|].
  destruct row as [| | | | |obj]; try (by intros [= <-]). destruct (TextField.capitalized field) as [capital|]; [|done]. cbn [mbind option_bind].
  set (m := TextField.emptied obj field capital _ offset). assert (well_formed (JObject m)) as Hm by (subst m; unfold TextField.emptied; auto 10 with wf).
  set (part := cat _). intros [= <-]. match goal with |- well_formed (JObject (if ?b then _ else _)) => destruct b end.
  - unfold TextField.markers. cbn [foldl]. auto 10 with wf.
  - destruct (_ <? slen _); auto with wf.
Qed.

Lemma wf_result b t f e n o : well_formed b -> well_formed (MessageBlock.result b t f e n o).
Proof.
  intros Hb. constructor; [apply (bool_decide_unpack _); vm_compute; exact I|].
  rewrite !Forall_cons. cbn [snd]. split_and!; [done|constructor|destruct f; constructor|destruct e; constructor|destruct n; constructor|destruct o; constructor|constructor].
Qed.

Lemma wf_stub block cap : well_formed block -> well_formed (MessageBlock.stub block cap).
Proof.
  intros Hb. apply wf_result. assert (forall out key, well_formed (JObject out) -> well_formed (JObject (MessageBlock.stub_member block cap out key))) as Hs.
  { intros out key Hout. unfold MessageBlock.stub_member. destruct (jget block key) as [v|] eqn:E; [|done].
    destruct (jget_object _ _ _ E) as [m ->]. pose proof (wf_get _ _ _ Hb E). destruct (_ <? _); auto with wf. }
  cbn [foldl]. apply Hs, Hs. constructor; [apply NoDup_nil_2|constructor].
Qed.

Lemma wf_message_block block page r : well_formed block -> MessageBlock.page_message_block block page = Ok r -> well_formed r.
Proof.
  intros Hb. unfold MessageBlock.page_message_block.
  assert (forall o c r, MessageBlock.unpaged block o c = Ok r -> well_formed r) as Hun.
  { intros o c r'. unfold MessageBlock.unpaged. case_match; [done|]. case_match; intros [= <-]; auto using wf_result, wf_stub. }
  destruct (MessageBlock.body_field block) as [field|]; [|apply Hun]. destruct (jget block field) as [body|]; [|apply Hun]. case_bool_decide.
  - unfold MessageBlock.page_image. destruct (jget block "data" ≫= as_str); [|apply Hun]. case_match; [done|]. case_match; [intros [= <-]; by apply wf_result|].
    set (slim := match block with JObject _ => _ | _ => _ end). assert (well_formed slim) by (subst slim; destruct block; auto with wf).
    case_match; intros [= <-]; auto using wf_result, wf_stub.
  - unfold MessageBlock.page_body. destruct (MessageBlock.body_text body) as [text enc]. repeat (case_match; [try done; intros [= <-]; auto using wf_result, wf_stub with wf|]).
    intros Hr. injection Hr as <-. apply wf_result. auto with wf.
Qed.

(** * Properties *)

(** Following [next<Field>Offset] from the first page reads the field byte for byte,
    for every budget, in at most one page per [MIN_PART_JSON_BYTES - 5] escaped bytes of
    the field and one more. *)
Theorem text_field_rebuilds (obj : list (string * json)) (field capital text : string) (budget : Z) :
  distinct_keys obj -> map_get obj field = Some (JString text) -> TextField.capitalized field = Some capital ->
  map_get obj (TextField.next_key capital) = None -> utf8_costs text ->
  let pages := Z.to_nat (1 + escaped_str_len text / (TextField.MIN_PART_JSON_BYTES - 5)) in
  TextFieldProofs.read_field pages (JObject obj) field capital budget 0 = Some text.
Proof.
  intros Hk Ht Hc Hf Hu pages.
  pose proof (TextFieldProofs.read_rest obj field capital text budget Hk Ht Hc Hf Hu pages [] (chars text) eq_refl (or_introl eq_refl)) as H.
  rewrite cat_chars in H. apply H. subst pages. unfold TextField.MIN_PART_JSON_BYTES. pose proof (escaped_str_len_bounds text). pose proof (slen_nonneg text).
  pose proof (Z.div_pos (escaped_str_len text) (64 * 1024 - 5) ltac:(lia) ltac:(lia)). lia.
Qed.

Lemma text_field_rebuilds_witness :
  let row := [("name", JString "s"); ("code", JString "ab")]%string in
  TextFieldProofs.read_field 1 (JObject row) "code" "Code" 3 0 = Some "ab"%string.
Proof.
  apply (text_field_rebuilds [("name", JString "s"); ("code", JString "ab")]%string "code" "Code" "ab" 3).
  - apply (bool_decide_unpack _). vm_compute. exact I.
  - reflexivity.
  - reflexivity.
  - reflexivity.
  - repeat constructor; vm_compute; discriminate.
Defined.

(** A page of a field never panics; it is refused exactly for an offset that is not a
    character boundary strictly inside the field, and otherwise carries the bytes from its
    offset on, at least one while there are some, and stays within the budget or, when the
    rest of the row leaves less room than the minimum part, within the row without the
    field plus that minimum. *)
Theorem text_field_page_bounded (obj : list (string * json)) (field capital text : string) (offset budget : Z) :
  distinct_keys obj -> map_get obj field = Some (JString text) -> TextField.capitalized field = Some capital ->
  map_get obj (TextField.next_key capital) = None -> utf8_costs text -> 0 <= offset ->
  match TextField.page_text_field (JObject obj) field offset budget with
  | None => False
  | Some (Err (TextField.NotInside o full)) =>
      o = offset /\ full = slen text /\ 0 < offset /\ (slen text <= offset \/ is_char_boundary text offset = false)
  | Some (Ok page) =>
      (offset = 0 \/ offset < slen text /\ is_char_boundary text offset = true) /\
      (exists before part after, text = before +:+ part +:+ after /\ slen before = offset /\ jget page field = Some (JString part) /\
        (part = EmptyString -> text = EmptyString) /\
        TextFieldProofs.next_offset capital page = if bool_decide (after = EmptyString) then None else Some (slen (before +:+ part))) /\
      serialized_size page <= Z.max budget
        (serialized_size (JObject (TextField.emptied obj field capital (slen text) offset)) + TextField.MIN_PART_JSON_BYTES)
  end.
Proof.
  intros Hk Ht Hc Hf Hu H0.
  destruct ((0 <? offset) && ((slen text <=? offset) || negb (is_char_boundary text offset))) eqn:Hguard.
  - unfold TextField.page_text_field. rewrite (TextFieldProofs.field_text_eq obj field text Ht), Hguard.
    apply andb_true_iff in Hguard as [Hpos%Z.ltb_lt [Hout%Z.leb_le|Hno%negb_true_iff]%orb_true_iff]; auto.
  - assert (offset = 0 \/ offset < slen text /\ is_char_boundary text offset = true) as Hin.
    { apply andb_false_iff in Hguard as [Hz%Z.ltb_ge|[Hlt%Z.leb_gt Hb%negb_false_iff]%orb_false_iff]; [left; lia|by right]. }
    assert (exists pre rest, chars text = pre ++ rest /\ offset = slen (cat pre) /\ (pre = [] \/ rest <> [])) as (pre & rest & Hs & Hoff & Hor).
    { destruct Hin as [->|[Hlt Hb]]; [exists [], (chars text); auto|].
      destruct (boundary_inside text offset ltac:(lia) Hb) as (pre & rest & Hs & Hoff). exists pre, rest. split_and!; [done..|right].
      intros ->. rewrite (slen_chars _ _ _ Hs) in Hlt. change (slen (cat [])) with 0 in Hlt. lia. }
    subst offset. destruct (TextFieldProofs.page_step obj field capital text budget Hk Ht Hc Hf Hu pre rest Hs Hor) as (page & part & left & -> & P).
    split; [done|]. split; [|apply P]. destruct P as [-> Hpart Hnext Hlarge _]. exists (cat pre), (cat part), (cat left).
    rewrite <- !cat_app, <- Hs, cat_chars. split_and!; [done..| |].
    + intros Hempty. destruct left as [|g left]; [|by rewrite Hempty in Hlarge; specialize (Hlarge ltac:(done))].
      destruct part as [|g part]; [|exfalso; assert (0 < slen (cat (g :: part))) as Hp by (apply (slen_cat_pos _ text); [|done]; intros g' Hg; rewrite Hs; set_solver); by rewrite Hempty in Hp].
      destruct Hor as [->|]; [|done]. by rewrite <- (cat_chars text), Hs.
    + rewrite Hnext. destruct left as [|g left]; [done|]. rewrite bool_decide_eq_false_2; [done|]. intros Hempty.
      assert (0 < slen (cat (g :: left))) as Hp by (apply (slen_cat_pos _ text); [|done]; intros g' Hg; rewrite Hs; set_solver). by rewrite Hempty in Hp.
Qed.

Lemma text_field_page_bounded_witness :
  let row := [("name", JString "s"); ("code", JString "ab")]%string in
  match TextField.page_text_field (JObject row) "code" 1 3 with
  | Some (Ok page) => jget page "code" = Some (JString "b") /\ serialized_size page <= 66000
  | _ => False
  end.
Proof.
  pose proof (text_field_page_bounded [("name", JString "s"); ("code", JString "ab")]%string "code" "Code" "ab" 1 3) as H.
  assert (TextField.page_text_field (JObject [("name", JString "s"); ("code", JString "ab")]%string) "code" 1 3 =
    Some (Ok (JObject [("name", JString "s"); ("code", JString "b"); ("codeTruncated", JBool true); ("codeBytes", jsize 2);
      ("codeOffset", jsize 1); ("nextCodeOffset", JNull)]%string))) as Heq by (vm_compute; reflexivity).
  cbv zeta. rewrite Heq in *. split; [reflexivity|].
  etrans; [apply H|vm_compute; discriminate].
  - apply (bool_decide_unpack _). vm_compute. exact I.
  - reflexivity.
  - reflexivity.
  - reflexivity.
  - repeat constructor; vm_compute; discriminate.
  - lia.
Defined.

(** Following [nextOffset] of [agent.getMessageBlock] reads a block's body byte for
    byte (a string its own bytes, any other body its compact JSON) whenever the rest of the
    block leaves room for one character under the cap, in at most one page per [room - 5]
    escaped bytes and one more. *)
Theorem message_block_rebuilds (block body : json) (field : string) (max_bytes : option Z) :
  let text := (MessageBlock.body_text body).1 in
  let room := MessageBlock.cap (MessageBlock.mkBlockPage None max_bytes) - serialized_size (jset block field (JString EmptyString)) in
  MessageBlock.body_field block = Some field -> jget block field = Some body -> field <> "data"%string -> 6 <= room -> utf8_costs text ->
  MessageBlockProofs.read_body (Z.to_nat (1 + escaped_str_len text / (room - 5))) block max_bytes 0 = Some text.
Proof.
  intros text room Hf Hb Hd Hr Hu.
  pose proof (MessageBlockProofs.read_body_rest block body field max_bytes Hf Hb Hd Hr Hu
    (Z.to_nat (1 + escaped_str_len text / (room - 5))) [] (chars text) eq_refl (or_introl eq_refl)) as H.
  rewrite cat_chars in H. apply H. fold room. pose proof (escaped_str_len_bounds text). pose proof (slen_nonneg text).
  pose proof (Z.div_pos (escaped_str_len text) (room - 5) ltac:(lia) ltac:(lia)). lia.
Qed.

Lemma message_block_rebuilds_witness :
  let block := JObject [("id", JString "m"); ("type", JString "tool_use"); ("input", JArray [JNull; JBool true])]%string in
  MessageBlockProofs.read_body 1 block (Some 10) 0 = Some "[null,true]"%string.
Proof.
  apply (message_block_rebuilds (JObject [("id", JString "m"); ("type", JString "tool_use"); ("input", JArray [JNull; JBool true])]%string)
    (JArray [JNull; JBool true]) "input" (Some 10)).
  - reflexivity.
  - reflexivity.
  - discriminate.
  - vm_compute. discriminate.
  - repeat constructor; vm_compute; discriminate.
Defined.

(** A message block page is refused exactly for an offset past the end of the body,
    inside a character, or other than zero on a block without a body that pages; every
    block served is within the cap, stubs included. *)
Theorem message_block_capped (block : json) (page : MessageBlock.MessageBlockPage) :
  let off := default 0 (MessageBlock.offset page) in
  match MessageBlockProofs.pageable_text block, MessageBlock.page_message_block block page with
  | Some text, Ok r => off <= slen text /\ is_char_boundary text off = true /\ MessageBlockProofs.capped (MessageBlock.cap page) r
  | Some text, Err e =>
      e = MessageBlock.PastEnd off (slen text) /\ slen text < off \/
      e = MessageBlock.NotOnBoundary off /\ off <= slen text /\ is_char_boundary text off = false
  | None, Ok r => off = 0 /\ MessageBlockProofs.capped (MessageBlock.cap page) r
  | None, Err e => e = MessageBlock.OffsetUnsupported /\ off <> 0
  end.
Proof.
  intros off. pose proof (MessageBlockProofs.cap_range page) as Hcap. unfold MessageBlock.MESSAGE_BLOCK_MIN_BYTES in Hcap.
  unfold MessageBlockProofs.pageable_text, MessageBlock.page_message_block. fold off. cbv zeta. set (cap := MessageBlock.cap page) in *.
  assert (forall r, r = MessageBlock.unpaged block off cap \/ r = MessageBlock.page_image block off cap ->
    match r with Ok r => off = 0 /\ MessageBlockProofs.capped cap r | Err e => e = MessageBlock.OffsetUnsupported /\ off <> 0 end) as Hno.
  { intros [r|e] [Hr|Hr]; symmetry in Hr; first [by eapply MessageBlockProofs.unpaged_capped; [|exact Hr]; lia
      |by eapply MessageBlockProofs.image_capped; [|exact Hr]; lia|by eapply MessageBlockProofs.unpaged_err|by eapply MessageBlockProofs.image_err]. }
  destruct (MessageBlock.body_field block) as [field|]; [|by apply Hno; left]. cbn [mbind option_bind].
  destruct (jget block field) as [body|] eqn:Hb; [|by apply Hno; left]. cbn [mbind option_bind].
  case_bool_decide; [by apply Hno; right|].
  destruct (MessageBlock.page_body block field body off cap) as [r|e] eqn:Hr; [eapply MessageBlockProofs.body_capped; [|exact Hb|exact Hr]; lia|].
  by eapply MessageBlockProofs.body_err.
Qed.

(** The paged reads preserve the type of JSON values: from an object without repeated
    keys, nested ones included, they build replies without repeated keys, whatever markers
    they insert, replace or remove. *)
Theorem paged_values_well_formed (v : json) :
  well_formed v ->
  (forall field offset budget page, TextField.page_text_field v field offset budget = Some (Ok page) -> well_formed page) /\
  (forall page r, MessageBlock.page_message_block v page = Ok r -> well_formed r).
Proof. intros Hv. split; [intros *; by apply wf_text_field|intros *; by apply wf_message_block]. Qed.

Lemma paged_values_well_formed_witness :
  let row := JObject [("id", JString "m"); ("type", JString "text"); ("text", JString "ab")]%string in
  match MessageBlock.page_message_block row (MessageBlock.mkBlockPage (Some 1) None) with
  | Ok r => well_formed r
  | Err _ => False
  end.
Proof.
  intros row. destruct (MessageBlock.page_message_block row (MessageBlock.mkBlockPage (Some 1) None)) as [r|e] eqn:E; [|discriminate E].
  eapply (paged_values_well_formed row); [|exact E].
  constructor; [apply (bool_decide_unpack _); vm_compute; exact I|repeat constructor].
Defined.
