(* ===== verification/Pagination.v ===== *)
(** * Conversation pages ([crates/intent-services/src/pagination.rs] and its use by
      [agent_get_conversation_op] of [agent_ops.rs])

    Reverse-chronological pages of an append-only history with opaque tokens, seeks that
    also walk forward, and the byte budget that trims a page from its anchor. *)
From stdpp Require Import countable prelude strings list.
From S2P Require Import Prelude Json NotePaging.

(** ** Limits *)

Definition DEFAULT_PAGE_LIMIT : Z := 50.
Definition MAX_PAGE_LIMIT : Z := 200.

Definition clamp_limit (limit : option Z) : Z :=
  match limit with
  | None => DEFAULT_PAGE_LIMIT
  | Some l => Z.max 1 (Z.min l MAX_PAGE_LIMIT)
  end.

Definition clamp_page_limit (limit : option Z) (default_ max : Z) : Z :=
  match limit with
  | None => default_
  | Some l => Z.min (Z.max l 1) max
  end.

(** ** Tokens *)

(** Base64 of the cursor's JSON. *)
Class TokenCodec := {
  encode_token : json -> string;
  decode_token : string -> option json }.

(** The cursors are objects of unsigned numbers. *)
Definition cursor_of (members : list (string * N)) : json := JObject ((fun '(k, n) => (k, JNumber (PosInt n))) <$> members).

Class TokenCodecLaws `{!TokenCodec} : Prop := {
  decode_encode_token members : decode_token (encode_token (cursor_of members)) = Some (cursor_of members) }.

(** [json!({ key: n })]. *)
Definition cursor (key : string) (n : Z) : json := cursor_of [(key, Z.to_N n)].

(** [Value::as_u64]. *)
Definition as_u64 (v : json) : option Z :=
  match v with JNumber (PosInt n) => Some (Z.of_N n) | _ => None end.

(** ** The byte budget *)

Inductive BudgetAnchor := Newest | Oldest | Target (pos : Z).

(** [while lo > 0]: rows are taken from the newest end. *)
Fixpoint newest_loop (sizes : list Z) (lo n : nat) (total budget : Z) : option nat :=
  match lo with
  | O => Some O
  | S lo' =>
      s ← sizes !! lo';
      if negb (bool_decide (lo = n)) && (budget <? saturating_add u64_max total s) then Some lo
      else newest_loop sizes lo' n (saturating_add u64_max total s) budget
  end.

(** [while hi < n]: rows are taken from the oldest end. *)
Fixpoint oldest_loop (rest : list Z) (hi total budget : Z) : Z :=
  match rest with
  | [] => hi
  | s :: rest' =>
      if negb (hi =? 0) && (budget <? saturating_add u64_max total s) then hi
      else oldest_loop rest' (hi + 1) (saturating_add u64_max total s) budget
  end.

(** One direction of the outward growth: the new edge, total and whether it can go on. *)
Definition grow_older (sizes : list Z) (budget lo total : Z) : option (Z * Z * bool) :=
  s ← znth sizes (lo - 1);
  Some (if saturating_add u64_max total s <=? budget then (lo - 1, saturating_add u64_max total s, 0 <? lo - 1)
        else (lo, total, false)).

Definition grow_newer (sizes : list Z) (budget hi total : Z) : option (Z * Z * bool) :=
  s ← znth sizes hi;
  Some (if saturating_add u64_max total s <=? budget then (hi + 1, saturating_add u64_max total s, hi + 1 <? len sizes)
        else (hi, total, false)).

(** [while can_older || can_newer]; [None] is a panic or running out of [fuel]. *)
Fixpoint target_loop (fuel : nat) (sizes : list Z) (budget lo hi total : Z) (can_older can_newer : bool) : option (Z * Z) :=
  if can_older || can_newer then
    match fuel with
    | O => None
    | S fuel' =>
        '(lo, total, can_older) ← (if can_older then grow_older sizes budget lo total else Some (lo, total, false));
        '(hi, total, can_newer) ← (if can_newer then grow_newer sizes budget hi total else Some (hi, total, false));
        target_loop fuel' sizes budget lo hi total can_older can_newer
    end
  else Some (lo, hi).

Definition budget_page (sizes : list Z) (anchor : BudgetAnchor) (budget : Z) : option (Z * Z) :=
  let n := len sizes in
  if n =? 0 then Some (0, 0)
  else
    match anchor with
    | Newest => lo ← newest_loop sizes (length sizes) (length sizes) 0 budget; Some (Z.of_nat lo, n)
    | Oldest => Some (0, oldest_loop sizes 0 0 budget)
    | Target pos =>
        let pos := Z.min pos (n - 1) in
        total ← znth sizes pos;
        target_loop (S (length sizes)) sizes budget pos (pos + 1) total (0 <? pos) (pos + 1 <? n)
    end.

(** [fit_rows_to_budget]: how many leading rows fit. *)
Fixpoint fit_loop (rows : list json) (i total budget : Z) : Z :=
  match rows with
  | [] => i
  | row :: rows' =>
      let size := serialized_size row + 1 in
      if (0 <? i) && (budget <? saturating_add u64_max total size) then i
      else fit_loop rows' (i + 1) (saturating_add u64_max total size) budget
  end.

Definition fit_rows_to_budget (rows : list json) (budget : Z) : Z := fit_loop rows 0 2 budget.

(** What a conversation read serves: [prevToken] where the reply has the key. *)
Record ConversationPage (Row : Type) := mkPage {
  page_rows : list Row;
  page_start : Z;
  page_end : Z;
  page_next : option string;
  page_prev : option (option string) }.
Arguments mkPage {Row}.
Arguments page_rows {Row}.
Arguments page_start {Row}.
Arguments page_end {Row}.
Arguments page_next {Row}.
Arguments page_prev {Row}.

(** ** Windows *)

Section windows.
Context {TC : TokenCodec}.

Definition backward_page_token (boundary : Z) : string := encode_token (cursor "b" boundary).

Definition backward_page_boundary (token : string) : option Z :=
  v ← decode_token token;
  jget v "b" ≫= as_u64.

Record PageWindow := mkWindow { start : Z; end_ : Z; next_token : option string }.

Definition remint_backward_token (start : Z) : option string :=
  if 0 <? start then Some (encode_token (cursor "b" start)) else None.

Definition remint_forward_token (end_ len : Z) : option string :=
  if end_ <? len then Some (encode_token (cursor "f" end_)) else None.

Definition page_window (len : Z) (limit : option Z) (token : option string) : PageWindow :=
  let limit := clamp_limit limit in
  let end_ := match token ≫= backward_page_boundary with Some boundary => Z.min boundary len | None => len end in
  let start := saturating_sub end_ limit in
  mkWindow start end_ (if 0 <? start then Some (encode_token (cursor "b" start)) else None).

Record SeekPageWindow := mkSeek { seek_start : Z; seek_end : Z; seek_next : option string; seek_prev : option string }.

Definition seek_window (len start end_ : Z) : SeekPageWindow :=
  mkSeek start end_ (if 0 <? start then Some (encode_token (cursor "b" start)) else None)
    (if end_ <? len then Some (encode_token (cursor "f" end_)) else None).

Definition page_window_around (len : Z) (limit : option Z) (index : Z) : SeekPageWindow :=
  let limit := clamp_limit limit in
  let start := saturating_sub (Z.min index len) (limit / 2) in
  let end_ := Z.min (start + limit) len in
  seek_window len (saturating_sub end_ limit) end_.

Definition forward_page_window (len : Z) (limit : option Z) (token : string) : option SeekPageWindow :=
  v ← decode_token token;
  f ← jget v "f" ≫= as_u64;
  let limit := clamp_limit limit in
  let start := Z.min f len in
  Some (seek_window len start (Z.min (start + limit) len)).

(** [offset_token] and [parse_offset], for sources that are newest first. *)
Definition offset_token (next_offset : Z) : string := encode_token (cursor "o" next_offset).

Definition parse_offset (token : option string) : Z :=
  match (t ← token; v ← decode_token t; jget v "o" ≫= as_u64) with Some n => n | None => 0 end.

(** ** The conversation read *)

(** [aroundMessageId] with the index the store found, [aroundIndex], or a token. *)
Inductive Seek := AroundMessage (index : Z) | AroundIndex (index : Z) | FollowToken (token : option string).

(** The window, its anchor, and [prevToken] where the reply has the key. *)
Definition conversation_window (total : Z) (limit : option Z) (seek : Seek) :
    Z * Z * option string * option (option string) * BudgetAnchor :=
  let of_seek w anchor := (seek_start w, seek_end w, seek_next w, Some (seek_prev w), anchor) in
  match seek with
  | AroundMessage index => of_seek (page_window_around total limit index) (Target index)
  | AroundIndex index =>
      let clamped := Z.min (Z.max index 0) (saturating_sub total 1) in
      of_seek (page_window_around total limit clamped) (Target clamped)
  | FollowToken token =>
      match token ≫= forward_page_window total limit with
      | Some w => of_seek w Oldest
      | None => let w := page_window total limit token in (start w, end_ w, next_token w, None, Newest)
      end
  end.

(** The page of a history under the slim budget, [size] being a row's served size;
    [None] is a panic. *)
Definition conversation_page {Row : Type} (size : Row -> Z) (budget : Z) (history : list Row) (limit : option Z) (seek : Seek) :
    option (ConversationPage Row) :=
  let total := len history in
  let '(start, end_, next, prev, slim_anchor) := conversation_window total limit seek in
  page ← slice history start end_;
  let anchor := match slim_anchor with Target global => Target (saturating_sub global start) | other => other end in
  '(lo, hi) ← budget_page (size <$> page) anchor budget;
  if bool_decide ((lo, hi) = (0, len page)) then Some (mkPage page start end_ next prev)
  else
    rows ← slice page lo hi;
    Some (mkPage rows (start + lo) (start + hi) (remint_backward_token (start + lo))
      (match prev with Some _ => Some (remint_forward_token (start + hi) total) | None => None end)).

(** A client that follows [nextToken] to the oldest row, one state of the history per
    page. *)
Fixpoint walk_older {Row : Type} (size : Row -> Z) (budget : Z) (limit : option Z) (histories : list (list Row)) (token : option string) :
    option (list Row) :=
  match token with
  | None => Some []
  | Some t =>
      match histories with
      | [] => None
      | h :: histories' =>
          page ← conversation_page size budget h limit (FollowToken (Some t));
          older ← walk_older size budget limit histories' (page_next page);
          Some (older ++ page_rows page)
      end
  end.

(** A client that follows [prevToken] to the live tail; also the history it ended in. *)
Fixpoint walk_newer {Row : Type} (size : Row -> Z) (budget : Z) (limit : option Z) (current : list Row) (histories : list (list Row))
    (token : option string) : option (list Row * list Row) :=
  match token with
  | None => Some ([], current)
  | Some t =>
      match histories with
      | [] => None
      | h :: histories' =>
          page ← conversation_page size budget h limit (FollowToken (Some t));
          '(newer, final) ← walk_newer size budget limit h histories' (page_prev page ≫= id);
          Some (page_rows page ++ newer, final)
      end
  end.

End windows.

(** ** Queue pages *)

Definition AGENT_QUEUE_DEFAULT_LIMIT : Z := 50.
Definition AGENT_QUEUE_MAX_LIMIT : Z := 200.
Definition AGENT_QUEUE_PAGE_BUDGET_BYTES : Z := 480000.

Definition queue_scope (agent_id : string) : json := JArray [JString "agent.getQueue"; JString agent_id].

(** [json!({ "version": 1, "scope": scope, "offset": end })]. *)
Definition queue_cursor (agent_id : string) (end_ : Z) : json :=
  JObject [("version", JNumber (PosInt 1)); ("scope", queue_scope agent_id); ("offset", JNumber (PosInt (Z.to_N end_)))]%string.

Section queue.
(** [serde_json::from_str]. *)
Context (from_str : string -> option json) (agent_id : string).

(** The offset of a token; [None] is an invalid or mismatched one. *)
Definition queue_start (token : string) : option Z :=
  c ← from_str token;
  let version_ok := match jget c "version" with Some (JNumber (PosInt 1)) => true | _ => false end in
  let scope_ok := match jget c "scope" with
                  | Some (JArray [JString a; JString b]) => bool_decide (a = "agent.getQueue"%string) && bool_decide (b = agent_id)
                  | _ => false
                  end in
  if version_ok && scope_ok then jget c "offset" ≫= as_u64 else None.

(** [page_queue_reply]; [None] is the [InvalidParams] of a bad token. *)
Definition page_queue_reply (reply : json) (limit : option Z) (next_token : option string) : option json :=
  let limit := clamp_page_limit limit AGENT_QUEUE_DEFAULT_LIMIT AGENT_QUEUE_MAX_LIMIT in
  start ← match next_token with None => Some 0 | Some t => queue_start t end;
  match reply with
  | JObject obj =>
      let entries := match map_get obj "queue" with Some (JArray entries) => entries | _ => [] end in
      let obj := map_swap_remove obj "queue" in
      let total := len entries in
      let obj := map_or_insert obj "queueLength" (JNumber (PosInt (Z.to_N total))) in
      let window := ztake limit (zdrop start entries) in
      let kept := fit_rows_to_budget window AGENT_QUEUE_PAGE_BUDGET_BYTES in
      let end_ := saturating_add u64_max start kept in
      let obj := map_insert obj "queue" (JArray (ztake kept window)) in
      Some (JObject (map_insert obj "nextToken" (if end_ <? total then JString (json_text (queue_cursor agent_id end_)) else JNull)))
  | _ => Some reply
  end.

(** A client that follows [nextToken]. *)
Fixpoint read_queue (fuel : nat) (reply : json) (limit : option Z) (token : option string) : option (list json) :=
  match fuel with
  | O => None
  | S fuel' =>
      page ← page_queue_reply reply limit token;
      items ← jget page "queue" ≫= as_array;
      match jget page "nextToken" ≫= as_str with
      | Some t => more ← read_queue fuel' reply limit (Some t); Some (items ++ more)
      | None => Some items
      end
  end.

End queue.

(** * Lemmas *)

(** ** Sums of rows *)

(** The bytes of the first [k] rows, and of rows [lo..hi]. *)
Definition psum (sizes : list Z) (k : Z) : Z := sum_with id (ztake k sizes).
Definition range_sum (sizes : list Z) (lo hi : Z) : Z := psum sizes hi - psum sizes lo.

Lemma psum_succ sizes k s : 0 <= k -> znth sizes k = Some s -> psum sizes (k + 1) = psum sizes k + s.
Proof.
  intros Hk. unfold znth, psum, ztake. rewrite (proj2 (Z.leb_le _ _)) by lia. intros Hs.
  replace (Z.to_nat (k + 1)) with (S (Z.to_nat k)) by lia. rewrite (take_S_r _ _ s Hs), sum_with_app. cbn. unfold id. lia.
Qed.

Section budget.
Context (sizes : list Z) (budget : Z).
Context (Hpos : Forall (fun s => 0 <= s) sizes) (Hbudget : 0 <= budget < u64_max).
Implicit Types lo hi total : Z.

Lemma znth_size_nonneg k s : znth sizes k = Some s -> 0 <= s.
Proof.
  unfold znth. destruct (0 <=? k); [|done]. intros Hs. eapply Forall_lookup_1 in Hpos; [|exact Hs]. done.
Qed.

(** The running total is the sum up to saturation, which the budget never reaches. *)
Definition running (lo hi total : Z) : Prop := total = Z.min u64_max (range_sum sizes lo hi).

Lemma running_older lo hi total s :
  0 < lo -> znth sizes (lo - 1) = Some s -> running lo hi total ->
  running (lo - 1) hi (saturating_add u64_max total s) /\ (saturating_add u64_max total s <= budget <-> range_sum sizes (lo - 1) hi <= budget).
Proof.
  intros Hlo Hs ->. pose proof (znth_size_nonneg _ _ Hs). pose proof (psum_succ sizes (lo - 1) s ltac:(lia) Hs) as Hp.
  replace (lo - 1 + 1) with lo in Hp by lia. unfold running, saturating_add, range_sum in *. lia.
Qed.

Lemma running_newer lo hi total s :
  0 <= hi -> znth sizes hi = Some s -> running lo hi total ->
  running lo (hi + 1) (saturating_add u64_max total s) /\ (saturating_add u64_max total s <= budget <-> range_sum sizes lo (hi + 1) <= budget).
Proof.
  intros Hhi Hs ->. pose proof (znth_size_nonneg _ _ Hs). pose proof (psum_succ sizes hi s Hhi Hs).
  unfold running, saturating_add, range_sum in *. lia.
Qed.

(** Rows [lo..hi] with the anchor rows [a..b]: within budget or the anchor alone, and no
    further row fits on a side that was tried to its end. *)
Record budgeted (a b : Z) (older newer : bool) (lo hi : Z) : Prop := {
  bg_range : 0 <= lo <= a /\ a < b /\ b <= hi <= len sizes;
  bg_fits : range_sum sizes lo hi <= budget \/ hi = lo + 1;
  bg_older : older = true -> lo = 0 \/ budget < range_sum sizes (lo - 1) hi;
  bg_newer : newer = true -> hi = len sizes \/ budget < range_sum sizes lo (hi + 1) }.

Lemma range_sum_mono lo hi lo' hi' : 0 <= lo' <= lo -> hi <= hi' -> range_sum sizes lo hi <= range_sum sizes lo' hi'.
Proof.
  assert (forall k k', k <= k' -> psum sizes k <= psum sizes k') as Hm.
  { intros k k' Hk. unfold psum, ztake. replace (Z.to_nat k') with (Z.to_nat k + (Z.to_nat k' - Z.to_nat k))%nat by lia.
    rewrite <- take_take_drop, sum_with_app.
    assert (0 <= sum_with id (take (Z.to_nat k' - Z.to_nat k) (drop (Z.to_nat k) sizes))); [|lia].
    apply sum_with_nonneg, Forall_forall. by apply Forall_take, Forall_drop. }
  intros Hlo Hhi. unfold range_sum. pose proof (Hm lo' lo ltac:(lia)). pose proof (Hm hi hi' Hhi). lia.
Qed.

Lemma newest_spec (lo : nat) : forall total,
  Z.of_nat lo <= len sizes -> running (Z.of_nat lo) (len sizes) total -> 0 < len sizes ->
  Z.of_nat lo < len sizes -> range_sum sizes (Z.of_nat lo) (len sizes) <= budget \/ Z.of_nat lo = len sizes - 1 ->
  exists r, newest_loop sizes lo (length sizes) total budget = Some r /\ budgeted (len sizes - 1) (len sizes) true false (Z.of_nat r) (len sizes).
Proof.
  induction lo as [|lo IH]; intros total Hle Hrun Hn Hlt Hfit.
  - exists 0%nat. split; [done|]. split; [lia|lia|by left|done].
  - cbn [newest_loop]. destruct (znth_ok sizes (Z.of_nat lo) ltac:(lia)) as [s Hs]. pose proof Hs as Hs'. rewrite znth_lookup in Hs'. rewrite Hs'.
    cbn [mbind option_bind]. rewrite bool_decide_eq_false_2 by (unfold len in *; lia). cbn [negb andb].
    replace (Z.of_nat lo) with (Z.of_nat (S lo) - 1) in Hs by lia.
    destruct (running_older (Z.of_nat (S lo)) (len sizes) total s ltac:(lia) Hs Hrun) as [Hrun' Hcmp].
    destruct (Z.ltb_spec budget (saturating_add u64_max total s)).
    + exists (S lo). split; [done|]. split; [lia|lia|right; lia|done].
    + replace (Z.of_nat (S lo) - 1) with (Z.of_nat lo) in * by lia. apply IH; [lia|done|done|lia|left; lia].
Qed.

Lemma oldest_spec rest : forall hi total,
  rest = zdrop hi sizes -> 0 < hi <= len sizes -> running 0 hi total -> range_sum sizes 0 hi <= budget \/ hi = 1 ->
  budgeted 0 1 false true 0 (oldest_loop rest hi total budget).
Proof.
  induction rest as [|s rest IH]; intros hi total Hrest Hhi Hrun Hfit; cbn [oldest_loop].
  - assert (hi = len sizes) as -> by (apply (f_equal len) in Hrest; rewrite len_zdrop, len_nil in Hrest; lia).
    split; [lia|lia|done|by left].
  - assert (znth sizes hi = Some s) as Hs.
    { unfold znth. rewrite (proj2 (Z.leb_le _ _)) by lia. unfold zdrop in Hrest. rewrite <- (Nat.add_0_r (Z.to_nat hi)), <- lookup_drop, <- Hrest. done. }
    assert (hi < len sizes) by (apply (f_equal len) in Hrest; rewrite len_zdrop, len_cons in Hrest; pose proof (len_nonneg rest); lia).
    destruct (running_newer 0 hi total s ltac:(lia) Hs Hrun) as [Hrun' Hcmp]. rewrite (proj2 (Z.eqb_neq _ _)) by lia. cbn [negb andb].
    destruct (Z.ltb_spec budget (saturating_add u64_max total s)); [split; [lia|lia|done|right; lia]|].
    apply IH; [|lia|done|left; lia]. rewrite <- (zdrop_zdrop 1 hi) by lia. by rewrite <- Hrest.
Qed.

(** One turn of the outward growth on each side. *)
Lemma older_turn lo hi total (co : bool) :
  running lo hi total -> 0 <= lo < hi -> hi <= len sizes -> range_sum sizes lo hi <= budget \/ hi = lo + 1 ->
  (if co then 0 < lo else lo = 0 \/ budget < range_sum sizes (lo - 1) hi) ->
  exists lo' total' co', (if co then grow_older sizes budget lo total else Some (lo, total, false)) = Some (lo', total', co') /\
    running lo' hi total' /\ 0 <= lo' <= lo /\ (range_sum sizes lo' hi <= budget \/ hi = lo' + 1) /\
    (if co' then 0 < lo' else lo' = 0 \/ budget < range_sum sizes (lo' - 1) hi) /\ lo' + Z.b2z co' <= lo.
Proof.
  intros Hrun Hlo Hhi Hfit Hco. destruct co; [|exists lo, total, false; split_and!; simpl; try done; lia]. unfold grow_older.
  destruct (znth_ok sizes (lo - 1) ltac:(lia)) as [s Hs]. rewrite Hs. destruct (running_older lo hi total s Hco Hs Hrun) as [Hrun' Hcmp].
  cbn [mbind option_bind]. destruct (Z.leb_spec (saturating_add u64_max total s) budget); do 3 eexists; (split; [done|]).
  - destruct (Z.ltb_spec 0 (lo - 1)); simpl; split_and!; try done; lia.
  - simpl. split_and!; try done; lia.
Qed.

Lemma newer_turn lo hi total (cn : bool) :
  running lo hi total -> 0 <= lo < hi -> hi <= len sizes -> range_sum sizes lo hi <= budget \/ hi = lo + 1 ->
  (if cn then hi < len sizes else hi = len sizes \/ budget < range_sum sizes lo (hi + 1)) ->
  exists hi' total' cn', (if cn then grow_newer sizes budget hi total else Some (hi, total, false)) = Some (hi', total', cn') /\
    running lo hi' total' /\ hi <= hi' <= len sizes /\ (range_sum sizes lo hi' <= budget \/ hi' = lo + 1) /\
    (if cn' then hi' < len sizes else hi' = len sizes \/ budget < range_sum sizes lo (hi' + 1)) /\ Z.b2z cn' - hi' <= - hi.
Proof.
  intros Hrun Hlo Hhi Hfit Hcn. destruct cn; [|exists hi, total, false; split_and!; simpl; try done; lia]. unfold grow_newer.
  destruct (znth_ok sizes hi ltac:(lia)) as [s Hs]. rewrite Hs. destruct (running_newer lo hi total s ltac:(lia) Hs Hrun) as [Hrun' Hcmp].
  cbn [mbind option_bind]. destruct (Z.leb_spec (saturating_add u64_max total s) budget); do 3 eexists; (split; [done|]).
  - destruct (Z.ltb_spec (hi + 1) (len sizes)); simpl; split_and!; try done; lia.
  - simpl. split_and!; try done; lia.
Qed.

(** Growing outwards from row [pos]. *)
Lemma target_spec pos fuel : forall lo hi total (co cn : bool),
  running lo hi total -> 0 <= lo <= pos -> pos < hi <= len sizes -> range_sum sizes lo hi <= budget \/ hi = lo + 1 ->
  (if co then 0 < lo else lo = 0 \/ budget < range_sum sizes (lo - 1) hi) ->
  (if cn then hi < len sizes else hi = len sizes \/ budget < range_sum sizes lo (hi + 1)) ->
  lo + (len sizes - hi) + Z.b2z co + Z.b2z cn <= Z.of_nat fuel ->
  exists lo' hi', target_loop fuel sizes budget lo hi total co cn = Some (lo', hi') /\ budgeted pos (pos + 1) true true lo' hi'.
Proof.
  induction fuel as [|fuel IH]; intros lo hi total co cn Hrun Hlo Hhi Hfit Hco Hcn Hfuel.
  - destruct co, cn; simpl in Hfuel; try lia. cbn. exists lo, hi. split; [done|]. split; [lia|lia|done|done].
  - cbn [target_loop]. destruct (co || cn) eqn:Hgo; [|apply orb_false_iff in Hgo as [-> ->]; exists lo, hi; split; [done|]; split; [lia|lia|done|done]].
    destruct (older_turn lo hi total co Hrun ltac:(lia) ltac:(lia) Hfit Hco) as (lo1 & total1 & co1 & -> & Hrun1 & Hlo1 & Hfit1 & Hco1 & Hm1).
    cbn [mbind option_bind].
    assert (if cn then hi < len sizes else hi = len sizes \/ budget < range_sum sizes lo1 (hi + 1)) as Hcn'.
    { destruct cn; [done|]. destruct Hcn; [by left|right]. pose proof (range_sum_mono lo (hi + 1) lo1 (hi + 1)). lia. }
    destruct (newer_turn lo1 hi total1 cn Hrun1 ltac:(lia) ltac:(lia) Hfit1 Hcn') as (hi1 & total2 & cn1 & -> & Hrun2 & Hhi1 & Hfit2 & Hcn1 & Hm2).
    cbn [mbind option_bind]. apply IH; [done|lia|lia|done| |done|].
    + destruct co1; [done|]. destruct Hco1 as [?|?]; [by left|]. destruct (decide (lo1 = 0)); [by left|right].
      pose proof (range_sum_mono (lo1 - 1) hi (lo1 - 1) hi1 ltac:(lia)). lia.
    + assert (1 <= Z.b2z co + Z.b2z cn) by (by destruct co, cn). lia.
Qed.

(** The row a budget grows from, and the sides it grows on. *)
Definition anchor_row (anchor : BudgetAnchor) : Z :=
  match anchor with Newest => len sizes - 1 | Oldest => 0 | Target pos => Z.min pos (len sizes - 1) end.
Definition grows_older (anchor : BudgetAnchor) : bool := match anchor with Oldest => false | _ => true end.
Definition grows_newer (anchor : BudgetAnchor) : bool := match anchor with Newest => false | _ => true end.
Definition good_anchor (anchor : BudgetAnchor) : Prop := match anchor with Target pos => 0 <= pos | _ => True end.

Lemma running_one k s : 0 <= k -> znth sizes k = Some s -> s <= u64_max -> running k (k + 1) s.
Proof. intros Hk Hs Hmax. unfold running, range_sum. rewrite (psum_succ sizes k s Hk Hs). lia. Qed.

Lemma budget_page_spec anchor :
  0 < len sizes -> Forall (fun s => s <= u64_max) sizes -> good_anchor anchor ->
  exists lo hi, budget_page sizes anchor budget = Some (lo, hi) /\
    budgeted (anchor_row anchor) (anchor_row anchor + 1) (grows_older anchor) (grows_newer anchor) lo hi.
Proof.
  intros Hn Hmax Hgood. unfold budget_page. rewrite (proj2 (Z.eqb_neq _ _)) by lia.
  assert (forall k s, znth sizes k = Some s -> s <= u64_max) as Hmax'.
  { intros k s. unfold znth. destruct (0 <=? k); [|done]. intros Hs. by eapply (Forall_lookup_1 (fun s => s <= u64_max)) in Hs. }
  destruct anchor as [| |pos]; cbn [anchor_row grows_older grows_newer].
  - destruct (length sizes) as [|n] eqn:Hlen; [unfold len in Hn; lia|]. assert (len sizes = Z.of_nat n + 1) as Hl by (unfold len; lia).
    destruct (znth_ok sizes (Z.of_nat n) ltac:(lia)) as [s Hs]. pose proof Hs as Hs'. rewrite znth_lookup in Hs'.
    cbn [newest_loop]. rewrite Hs'. cbn [mbind option_bind]. rewrite bool_decide_eq_true_2 by done. cbn [negb andb].
    assert (saturating_add u64_max 0 s = s) as -> by (pose proof (Hmax' _ _ Hs); unfold saturating_add; lia).
    destruct (newest_spec n s) as (r & Hr & B); [lia| |lia|lia|right; lia|].
    + rewrite Hl. apply running_one; [lia|done|by eapply Hmax'].
    + rewrite Hlen in Hr. rewrite Hr. cbn [mbind option_bind]. do 2 eexists. split; [done|]. replace (len sizes - 1 + 1) with (len sizes) by lia. exact B.
  - eexists 0, _. split; [done|]. destruct (znth_ok sizes 0 ltac:(lia)) as [s Hs].
    assert (oldest_loop sizes 0 0 budget = oldest_loop (zdrop 1 sizes) 1 (saturating_add u64_max 0 s) budget) as ->.
    { destruct sizes as [|s' rest]; [done|]. by injection Hs as ->. }
    assert (saturating_add u64_max 0 s = s) as -> by (pose proof (Hmax' _ _ Hs); unfold saturating_add; lia).
    apply oldest_spec; [done|lia| |by right]. apply (running_one 0); [lia|done|by eapply Hmax'].
  - cbn [good_anchor] in Hgood. set (p := Z.min pos (len sizes - 1)). destruct (znth_ok sizes p ltac:(lia)) as [s Hs]. rewrite Hs. cbn [mbind option_bind].
    apply target_spec; [apply running_one; [lia|done|by eapply Hmax']|lia|lia|by right| | |].
    + destruct (Z.ltb_spec 0 p); [done|left; lia].
    + destruct (Z.ltb_spec (p + 1) (len sizes)); [done|left; lia].
    + destruct (0 <? p), (p + 1 <? len sizes); unfold len; simpl; lia.
Qed.

End budget.

(** ** Pages of a history *)

Section pages.
Context `{TC : TokenCodec, TL : !TokenCodecLaws} {Row : Type} (size : Row -> Z) (budget : Z).
Context (Hsize : forall r, 0 <= size r <= u64_max) (Hbudget : 0 <= budget < u64_max).
Implicit Types (h : list Row) (page : ConversationPage Row).

(** Rows [s..e] of a history with the tokens of their neighbours. *)
Record serves h (s e : Z) (prev : bool) page : Prop := {
  sv_range : 0 <= s <= e /\ e <= len h;
  sv_rows : page_rows page = ztake (e - s) (zdrop s h);
  sv_next : page_next page = remint_backward_token s;
  sv_prev : page_prev page = if prev then Some (remint_forward_token e (len h)) else None }.

Lemma slice_slice h s e lo hi rows :
  slice h s e = Some rows -> 0 <= lo <= hi -> hi <= e - s ->
  slice rows lo hi = Some (ztake (hi - lo) (zdrop (s + lo) h)).
Proof.
  intros (Hs & He & ->)%slice_Some Hlo Hhi. rewrite slice_ok by (rewrite ?len_ztake, ?len_zdrop; lia). f_equal.
  unfold ztake, zdrop. rewrite skipn_firstn_comm, take_take, drop_drop. f_equal; [lia|]. f_equal. lia.
Qed.

Lemma page_of_window h limit seek s0 e0 (prev : bool) anchor :
  conversation_window (len h) limit seek =
    (s0, e0, remint_backward_token s0, if prev then Some (remint_forward_token e0 (len h)) else None, anchor) ->
  0 <= s0 <= e0 -> e0 <= len h -> match anchor with Target g => s0 <= g | _ => True end ->
  exists page s e, conversation_page size budget h limit seek = Some page /\ serves h s e prev page /\ s0 <= s /\ e <= e0 /\
    (s0 < e0 -> s < e /\ match anchor with Newest => e = e0 | Oldest => s = s0 | Target g => g < e0 -> s <= g < e end).
Proof.
  intros Hw Hs He Hanchor. unfold conversation_page. rewrite Hw.
  assert (slice h s0 e0 = Some (ztake (e0 - s0) (zdrop s0 h))) as Hrows by (by apply slice_ok).
  set (rows := ztake (e0 - s0) (zdrop s0 h)) in *. rewrite Hrows. cbn [mbind option_bind].
  assert (len rows = e0 - s0) as Hlen by (subst rows; rewrite len_ztake, len_zdrop; lia).
  assert (len (size <$> rows) = e0 - s0) as Hlen' by (unfold len in *; by rewrite length_fmap).
  set (anchor' := match anchor with Target g => Target (saturating_sub g s0) | _ => _ end).
  destruct (decide (s0 = e0)) as [<-|Hne].
  - unfold budget_page. rewrite Hlen', Z.sub_diag. cbn [mbind option_bind Z.eqb].
    rewrite bool_decide_eq_true_2 by (f_equal; lia). eexists _, s0, s0. split; [done|]. split; [by split; [lia|done|done|done]|lia].
  - destruct (budget_page_spec (size <$> rows) budget) with (anchor := anchor') as (lo & hi & Hb & [Hrange _ _ _]).
    + apply Forall_fmap, Forall_true. intros r. apply Hsize.
    + done.
    + lia.
    + apply Forall_fmap, Forall_true. intros r. apply Hsize.
    + subst anchor'. destruct anchor; [done|done|]. cbn. unfold saturating_sub. lia.
    + rewrite Hb. cbn [mbind option_bind]. rewrite Hlen' in Hrange.
      assert (match anchor with Newest => hi = e0 - s0 | Oldest => lo = 0 | Target g => g < e0 -> lo <= g - s0 < hi end) as Hin.
      { subst anchor'. unfold saturating_sub in Hrange. destruct anchor; cbn [anchor_row] in Hrange; rewrite ?Hlen' in Hrange; lia. }
      case_bool_decide as Hall.
      * injection Hall as -> ->. eexists _, s0, e0. split; [done|]. split; [by split; [lia|done|done|done]|]. destruct anchor; lia.
      * rewrite (slice_slice h s0 e0 lo hi rows Hrows) by lia. cbn [mbind option_bind].
        eexists _, (s0 + lo), (s0 + hi). split; [done|]. split; [split; [lia|cbn; f_equal; lia|done|by destruct prev]|]. destruct anchor; lia.
Qed.

Lemma clamp_limit_pos limit : 1 <= clamp_limit limit <= MAX_PAGE_LIMIT.
Proof. unfold clamp_limit, DEFAULT_PAGE_LIMIT, MAX_PAGE_LIMIT. destruct limit; lia. Qed.

Lemma decode_backward b : 0 <= b -> backward_page_boundary (encode_token (cursor "b" b)) = Some b.
Proof. intros Hb. unfold backward_page_boundary, cursor. rewrite decode_encode_token. change (Some (Z.of_N (Z.to_N b)) = Some b). by rewrite Z2N.id. Qed.

Lemma forward_of_backward len_ limit b : forward_page_window len_ limit (encode_token (cursor "b" b)) = None.
Proof. unfold forward_page_window, cursor. by rewrite decode_encode_token. Qed.

Lemma forward_of_forward len_ limit f : 0 <= f -> forward_page_window len_ limit (encode_token (cursor "f" f)) =
  Some (seek_window len_ (Z.min f len_) (Z.min (Z.min f len_ + clamp_limit limit) len_)).
Proof.
  intros Hf. unfold forward_page_window, cursor. rewrite decode_encode_token. cbn [mbind option_bind].
  change (jget (cursor_of [("f", Z.to_N f)]) "f") with (Some (JNumber (PosInt (Z.to_N f)))). cbn [mbind option_bind as_u64]. by rewrite Z2N.id.
Qed.

Lemma backward_page h limit b :
  0 < b <= len h ->
  exists page s, conversation_page size budget h limit (FollowToken (Some (encode_token (cursor "b" b)))) = Some page /\
    serves h s b false page /\ s < b.
Proof.
  intros Hb. pose proof (clamp_limit_pos limit).
  destruct (page_of_window h limit (FollowToken (Some (encode_token (cursor "b" b)))) (saturating_sub b (clamp_limit limit)) b false Newest)
    as (page & s & e & Hp & S & Hs & He & Hne); [|unfold saturating_sub; lia|lia|done|].
  - unfold conversation_window, page_window. cbn [mbind option_bind]. rewrite forward_of_backward, decode_backward by lia.
    by replace (Z.min b (len h)) with b by lia.
  - destruct Hne as [Hlt ->]; [unfold saturating_sub; lia|]. eauto.
Qed.

Lemma forward_page h limit f :
  0 <= f < len h ->
  exists page e, conversation_page size budget h limit (FollowToken (Some (encode_token (cursor "f" f)))) = Some page /\
    serves h f e true page /\ f < e.
Proof.
  intros Hf. pose proof (clamp_limit_pos limit).
  destruct (page_of_window h limit (FollowToken (Some (encode_token (cursor "f" f)))) f (Z.min (f + clamp_limit limit) (len h)) true Oldest)
    as (page & s & e & Hp & S & Hs & He & Hne); [|lia|lia|done|].
  - unfold conversation_window. cbn [mbind option_bind]. rewrite forward_of_forward by lia. by replace (Z.min f (len h)) with f by lia.
  - destruct Hne as [Hlt ->]; [lia|]. eauto.
Qed.

(** The first page of a walk: the newest rows, or the rows around a target. *)
Definition target_of h (seek : Seek) : option Z :=
  match seek with
  | AroundMessage i => Some i
  | AroundIndex i => Some (Z.min (Z.max i 0) (saturating_sub (len h) 1))
  | FollowToken _ => None
  end.

Lemma around_page h limit seek i :
  target_of h seek = Some i -> 0 <= i < len h ->
  exists page s e, conversation_page size budget h limit seek = Some page /\ serves h s e true page /\ s <= i < e.
Proof.
  intros Hseek Hi. pose proof (clamp_limit_pos limit) as Hl.
  set (s0 := saturating_sub (Z.min i (len h)) (clamp_limit limit / 2)). set (e0 := Z.min (s0 + clamp_limit limit) (len h)).
  assert (0 <= clamp_limit limit / 2 /\ clamp_limit limit / 2 < clamp_limit limit) as [? ?].
  { split; [apply Z.div_pos; lia|apply Z.div_lt; lia]. }
  destruct (page_of_window h limit seek (saturating_sub e0 (clamp_limit limit)) e0 true (Target i))
    as (page & s & e & Hp & S & Hs & He & Hne); [|unfold saturating_sub in *; lia..|].
  - destruct seek; cbn in Hseek; [| |done]; by injection Hseek as <-.
  - exists page, s, e. split; [done|]. split; [done|]. apply Hne; unfold saturating_sub in *; lia.
Qed.

Lemma newest_page h limit :
  exists page s, conversation_page size budget h limit (FollowToken None) = Some page /\ serves h s (len h) false page.
Proof.
  pose proof (clamp_limit_pos limit). pose proof (len_nonneg h).
  destruct (page_of_window h limit (FollowToken None) (saturating_sub (len h) (clamp_limit limit)) (len h) false Newest)
    as (page & s & e & Hp & S & Hs & He & Hne); [done|unfold saturating_sub; lia|lia|done|].
  destruct (decide (len h = 0)); [|destruct Hne as [_ ->]; [unfold saturating_sub; lia|]; eauto].
  exists page, s. split; [done|]. by replace (len h) with e by (pose proof (sv_range _ _ _ _ _ S); lia).
Qed.

(** ** Walks *)

Lemma rows_join h s b : 0 <= s <= b -> ztake s h ++ ztake (b - s) (zdrop s h) = ztake b h.
Proof. intros Hs. unfold ztake, zdrop. rewrite take_take_drop. f_equal. lia. Qed.

Lemma ztake_prefix h h' b : h `prefix_of` h' -> b <= len h -> ztake b h' = ztake b h.
Proof. intros [k ->] Hb. rewrite ztake_app, (ztake_le0 (b - len h)) by lia. apply app_nil_r. Qed.

Lemma walk_older_spec limit h0 hs : forall s,
  0 <= s <= len h0 -> Forall (fun h => h0 `prefix_of` h) hs -> s <= len hs ->
  walk_older size budget limit hs (remint_backward_token s) = Some (ztake s h0).
Proof.
  induction hs as [|h hs IH]; intros s Hs Hpre Hfuel; unfold remint_backward_token;
    destruct (Z.ltb_spec 0 s); try (by replace s with 0 by lia).
  - rewrite len_nil in Hfuel. lia.
  - apply Forall_cons in Hpre as [Hh Hpre]. cbn [walk_older]. rewrite len_cons in Hfuel.
    assert (s <= len h) by (destruct Hh as [k ->]; rewrite len_app; pose proof (len_nonneg k); lia).
    destruct (backward_page h limit s ltac:(lia)) as (page & s' & -> & S & Hlt). pose proof (sv_range _ _ _ _ _ S).
    cbn [mbind option_bind]. rewrite (sv_next _ _ _ _ _ S), IH by (done || lia). cbn [mbind option_bind].
    rewrite (sv_rows _ _ _ _ _ S), <- (ztake_prefix h0 h s') by (done || lia). rewrite rows_join by lia. f_equal. apply ztake_prefix; [done|lia].
Qed.

(** An append-only history. *)
Fixpoint appends h (later : list (list Row)) : Prop :=
  match later with [] => True | h' :: later' => h `prefix_of` h' /\ appends h' later' end.

Fixpoint latest_of h (later : list (list Row)) : list Row :=
  match later with [] => h | h' :: later' => latest_of h' later' end.

Lemma zdrop_join h h' f e : h `prefix_of` h' -> 0 <= f <= e -> e <= len h -> ztake (e - f) (zdrop f h) ++ zdrop e h' = zdrop f h'.
Proof.
  intros [k ->] Hf He. rewrite !zdrop_app, (zdrop_le0 (e - len h)), (zdrop_le0 (f - len h)) by lia. rewrite app_assoc. f_equal.
  unfold ztake, zdrop. replace (Z.to_nat e) with (Z.to_nat f + Z.to_nat (e - f))%nat by lia. by rewrite <- drop_drop, take_drop.
Qed.

Lemma walk_newer_quiet limit h n : forall f,
  0 <= f <= len h -> len h - f <= Z.of_nat n ->
  walk_newer size budget limit h (replicate n h) (remint_forward_token f (len h)) = Some (zdrop f h, h).
Proof.
  induction n as [|n IH]; intros f Hf Hn; unfold remint_forward_token; destruct (Z.ltb_spec f (len h)); try lia; cbn [replicate walk_newer];
    try (by rewrite zdrop_all by lia).
  destruct (forward_page h limit f ltac:(lia)) as (page & e & -> & S & Hlt). pose proof (sv_range _ _ _ _ _ S).
  cbn [mbind option_bind]. rewrite (sv_prev _ _ _ _ _ S). cbn [mbind option_bind id]. rewrite IH by lia. cbn [mbind option_bind].
  by rewrite (sv_rows _ _ _ _ _ S), zdrop_join by (done || lia).
Qed.

Lemma walk_newer_spec limit later : forall h f,
  0 <= f <= len h -> appends h later -> let quiet := latest_of h later in
  exists final, walk_newer size budget limit h (later ++ replicate (length quiet) quiet) (remint_forward_token f (len h)) =
      Some (zdrop f final, final) /\ h `prefix_of` final /\ final ∈ h :: later.
Proof.
  induction later as [|h' later IH]; intros h f Hf Happ quiet.
  - exists h. split; [|split; [done|by left]]. apply walk_newer_quiet; [done|]. subst quiet. cbn. unfold len. lia.
  - destruct Happ as [Hpre Happ]. unfold remint_forward_token. destruct (Z.ltb_spec f (len h)); cbn [app walk_newer].
    + assert (len h <= len h') by (destruct Hpre as [k ->]; rewrite len_app; pose proof (len_nonneg k); lia).
      destruct (forward_page h' limit f ltac:(lia)) as (page & e & -> & S & Hlt). pose proof (sv_range _ _ _ _ _ S).
      cbn [mbind option_bind]. rewrite (sv_prev _ _ _ _ _ S). cbn [mbind option_bind id].
      destruct (IH h' e ltac:(lia) Happ) as (final & Hw & Hpre' & Hin). subst quiet. cbn [latest_of]. rewrite Hw. cbn [mbind option_bind].
      exists final. split; [by rewrite (sv_rows _ _ _ _ _ S), zdrop_join by (done || lia)|]. split; [by etrans|by right].
    + exists h. split; [by rewrite zdrop_all by lia|]. split; [done|by left].
Qed.

End pages.

(** ** Queues *)

Lemma fit_loop_range rows : forall i total budget, 0 <= i -> i <= fit_loop rows i total budget <= i + len rows /\ (i = 0 -> rows <> [] -> 0 < fit_loop rows i total budget).
Proof.
  induction rows as [|row rows IH]; intros i total budget Hi; cbn [fit_loop]; [rewrite len_nil; split; [lia|done]|]. rewrite len_cons. pose proof (len_nonneg rows).
  destruct (Z.ltb_spec 0 i) as [Hp|Hz]; cbn [andb].
  - destruct (budget <? _); [lia|]. pose proof (IH (i + 1) (saturating_add u64_max total (serialized_size row + 1)) budget ltac:(lia)). lia.
  - pose proof (IH (i + 1) (saturating_add u64_max total (serialized_size row + 1)) budget ltac:(lia)). lia.
Qed.

Section queue_walk.
Context (from_str : string -> option json) (agent_id : string).
Context (Hparse : forall n, 0 <= n <= u64_max -> from_str (json_text (queue_cursor agent_id n)) = Some (queue_cursor agent_id n)).

Lemma queue_own_token n : 0 <= n <= u64_max -> queue_start from_str agent_id (json_text (queue_cursor agent_id n)) = Some n.
Proof.
  intros Hn. unfold queue_start. rewrite Hparse by done. cbn [mbind option_bind]. unfold queue_cursor.
  change (jget _ "version") with (Some (JNumber (PosInt 1))). change (jget _ "scope") with (Some (queue_scope agent_id)).
  change (jget _ "offset") with (Some (JNumber (PosInt (Z.to_N n)))). unfold queue_scope.
  rewrite !bool_decide_eq_true_2 by done. cbn [andb mbind option_bind as_u64]. by rewrite Z2N.id by lia.
Qed.

Lemma queue_page obj entries limit start token :
  map_get obj "queue" = Some (JArray entries) -> len entries <= u64_max -> 0 <= start <= len entries ->
  match token with None => start = 0 | Some t => queue_start from_str agent_id t = Some start end ->
  exists page end_, page_queue_reply from_str agent_id (JObject obj) limit token = Some page /\ start <= end_ <= len entries /\
    (start < len entries -> start < end_) /\
    jget page "queue" = Some (JArray (ztake (end_ - start) (zdrop start entries))) /\
    jget page "nextToken" = Some (if end_ <? len entries then JString (json_text (queue_cursor agent_id end_)) else JNull).
Proof.
  intros Hq Hmax Hs Ht. unfold page_queue_reply. set (lim := clamp_page_limit _ _ _).
  assert (1 <= lim) as Hlim by (subst lim; unfold clamp_page_limit, AGENT_QUEUE_DEFAULT_LIMIT, AGENT_QUEUE_MAX_LIMIT; destruct limit; lia).
  assert (match token with None => Some 0 | Some t => queue_start from_str agent_id t end = Some start) as -> by (destruct token; [done|by subst]).
  cbn [mbind option_bind]. rewrite Hq. set (window := ztake lim (zdrop start entries)).
  assert (len window = Z.min lim (len entries - start)) as Hw by (subst window; rewrite len_ztake, len_zdrop; lia).
  destruct (fit_loop_range window 0 2 AGENT_QUEUE_PAGE_BUDGET_BYTES ltac:(lia)) as [Hk Hk1]. fold (fit_rows_to_budget window AGENT_QUEUE_PAGE_BUDGET_BYTES) in *.
  set (kept := fit_rows_to_budget window AGENT_QUEUE_PAGE_BUDGET_BYTES) in *.
  assert (saturating_add u64_max start kept = start + kept) as -> by (unfold saturating_add; lia).
  eexists _, (start + kept). split; [done|]. split; [lia|]. split; [intros Hlt; assert (0 < kept); [apply Hk1; [done|]; intros E; rewrite E, len_nil in Hw; lia|lia]|].
  cbn [jget]. rewrite map_get_insert_ne by done. rewrite !map_get_insert_eq. split; [|done]. do 2 f_equal. subst window. rewrite ztake_ztake. f_equal. lia.
Qed.

Lemma queue_rest obj entries limit fuel : forall start token,
  map_get obj "queue" = Some (JArray entries) -> len entries <= u64_max -> 0 <= start <= len entries ->
  match token with None => start = 0 | Some t => queue_start from_str agent_id t = Some start end ->
  len entries - start < Z.of_nat fuel ->
  read_queue from_str agent_id fuel (JObject obj) limit token = Some (zdrop start entries).
Proof.
  induction fuel as [|fuel IH]; intros start token Hq Hmax Hs Ht Hfuel; [lia|]. cbn [read_queue].
  destruct (queue_page obj entries limit start token Hq Hmax Hs Ht) as (page & end_ & -> & He & Hprog & Hitems & Hnext).
  cbn [mbind option_bind]. rewrite Hitems, Hnext. cbn [mbind option_bind as_array].
  assert (forall e, start <= e <= len entries -> ztake (e - start) (zdrop start entries) ++ zdrop e entries = zdrop start entries) as Hjoin.
  { intros e He'. unfold ztake, zdrop. replace (Z.to_nat e) with (Z.to_nat start + Z.to_nat (e - start))%nat by lia. by rewrite <- drop_drop, take_drop. }
  destruct (Z.ltb_spec end_ (len entries)); cbn [mbind option_bind as_str].
  - rewrite (IH end_); [|done|done|lia|by apply queue_own_token; lia|lia]. cbn [mbind option_bind]. by rewrite Hjoin.
  - pose proof (Hjoin end_ He) as E. rewrite (zdrop_all end_), app_nil_r in E by lia. by rewrite E.
Qed.
End queue_walk.

(** ** A codec *)

(** Cursors as the bits of their members. *)
Module BitCursor.

Fixpoint uints (m : list (string * json)) : option (list (string * N)) :=
  match m with
  | [] => Some []
  | (k, JNumber (PosInt n)) :: m' => l ← uints m'; Some ((k, n) :: l)
  | _ => None
  end.

Lemma uints_cursor l : uints ((fun '(k, n) => (k, JNumber (PosInt n))) <$> l) = Some l.
Proof. induction l as [|[k n] l IH]; [done|]. rewrite fmap_cons. cbn [uints]. by rewrite IH. Qed.

#[local] Instance bit_cursor : TokenCodec := {|
  encode_token c := match c with
                    | JObject m => match uints m with Some l => ListPage.BitToken.bits (encode l) | None => EmptyString end
                    | _ => EmptyString
                    end;
  decode_token s := cursor_of <$> decode (ListPage.BitToken.unbits s) |}.

#[local] Instance bit_cursor_laws : TokenCodecLaws.
Proof. split. intros l. cbn. by rewrite uints_cursor, ListPage.BitToken.unbits_bits, decode_encode. Qed.

End BitCursor.

(** A parser of the queue tokens of agent [a]. *)
Module QueueParser.

Fixpoint strip_prefix (p s : string) : option string :=
  match p, s with
  | EmptyString, _ => Some s
  | String a p', String b s' => if bool_decide (a = b) then strip_prefix p' s' else None
  | _, _ => None
  end.

Fixpoint drop_last (s : string) : string :=
  match s with
  | EmptyString => EmptyString
  | String _ EmptyString => EmptyString
  | String c s' => String c (drop_last s')
  end.

(** The text before the offset. *)
Definition before_offset : string :=
  drop_last (drop_last (json_text (queue_cursor "a" 0))).

Definition parse (s : string) : option json :=
  rest ← strip_prefix before_offset s;
  n ← dec_parse u64_max (drop_last rest);
  Some (queue_cursor "a" (Z.of_N n)).

Lemma strip_prefix_app p t : strip_prefix p (p +:+ t) = Some t.
Proof.
  induction p as [|a p IH]; [done|]. change (String a p +:+ t) with (String a (p +:+ t)). cbn [strip_prefix].
  by rewrite bool_decide_eq_true_2 by done.
Qed.

Lemma drop_last_snoc s c : drop_last (s +:+ String c EmptyString) = s.
Proof.
  induction s as [|a s IH]; [done|]. change (String a s +:+ String c EmptyString) with (String a (s +:+ String c EmptyString)). cbn [drop_last].
  destruct (s +:+ String c EmptyString) eqn:E; [by destruct s|]. by rewrite IH.
Qed.

Lemma parse_token n : 0 <= n <= u64_max -> parse (json_text (queue_cursor "a" n)) = Some (queue_cursor "a" n).
Proof.
  intros Hn. change (json_text (queue_cursor "a" n)) with (before_offset +:+ (dec_string (Z.to_N n) +:+ "}")).
  unfold parse. rewrite strip_prefix_app. cbn [mbind option_bind]. rewrite drop_last_snoc, dec_parse_string by lia. cbn [mbind option_bind].
  by rewrite Z2N.id by lia.
Qed.

End QueueParser.

(** * Properties *)



(** The pages of such a walk. *)
Example conversation_pages :
  page_rows <$> conversation_page (TC := BitCursor.bit_cursor) id 10 [1; 20; 3; 4] (Some 4) (AroundMessage 2) = Some [3; 4].
Proof. vm_compute. reflexivity. Qed.

(** The byte budget keeps a contiguous part of the page that has the anchor row (the
    newest, the oldest or the target), is within the budget unless that row is alone, and
    is maximal: on every side it grows to, the next row would not fit. The loops end and no
    index is out of range. *)
Theorem budget_page_maximal (sizes : list Z) (anchor : BudgetAnchor) (budget : Z) :
  Forall (fun s => 0 <= s <= u64_max) sizes -> 0 <= budget < u64_max -> sizes <> [] -> good_anchor anchor ->
  exists lo hi, budget_page sizes anchor budget = Some (lo, hi) /\
    0 <= lo <= anchor_row sizes anchor /\ anchor_row sizes anchor < hi <= len sizes /\
    (range_sum sizes lo hi <= budget \/ hi = lo + 1) /\
    (match anchor with Oldest => lo = 0 | _ => lo = 0 \/ budget < range_sum sizes (lo - 1) hi end) /\
    match anchor with Newest => hi = len sizes | _ => hi = len sizes \/ budget < range_sum sizes lo (hi + 1) end.
Proof.
  intros Hs Hb Hne Hgood. apply Forall_and in Hs as [Hpos Hmax].
  assert (0 < len sizes) as Hn by (destruct sizes; [done|]; rewrite len_cons; pose proof (len_nonneg sizes); lia).
  destruct (budget_page_spec sizes budget Hpos Hb anchor Hn Hmax Hgood) as (lo & hi & Hp & [Hr Hf Ho Hw]).
  exists lo, hi. split; [done|]. destruct anchor; cbn [anchor_row grows_older grows_newer] in *; split_and!; auto; lia.
Qed.

Lemma budget_page_maximal_witness :
  exists lo hi, budget_page [5; 6; 2; 9] (Target 2) 10 = Some (lo, hi) /\ lo <= 2 < hi /\ range_sum [5; 6; 2; 9] lo hi <= 10.
Proof.
  destruct (budget_page_maximal [5; 6; 2; 9] (Target 2) 10) as (lo & hi & Hp & Hlo & Hhi & Hfit & _).
  - repeat constructor; unfold u64_max; lia.
  - unfold u64_max. lia.
  - discriminate.
  - simpl. lia.
  - exists lo, hi. split; [exact Hp|]. vm_compute in Hp. injection Hp as <- <-. vm_compute. split; [split|]; discriminate || reflexivity.
Defined.

(** Following [nextToken] of [agent.getQueue] reads every queue entry once and in
    order, for every limit and entry size, within one page per entry; the daemon accepts
    the tokens it mints for the agent. *)
Theorem queue_pages_complete (from_str : string -> option json) (agent_id : string) (obj : list (string * json)) (entries : list json)
    (limit : option Z) :
  (forall n, 0 <= n <= u64_max -> from_str (json_text (queue_cursor agent_id n)) = Some (queue_cursor agent_id n)) ->
  map_get obj "queue" = Some (JArray entries) -> len entries <= u64_max ->
  read_queue from_str agent_id (S (length entries)) (JObject obj) limit None = Some entries.
Proof.
  intros Hparse Hq Hmax. pose proof (len_nonneg entries). rewrite (queue_rest from_str agent_id Hparse obj entries limit _ 0); [by rewrite zdrop_le0|done|done|lia|done|].
  unfold len. lia.
Qed.

Lemma queue_pages_complete_witness :
  read_queue QueueParser.parse "a" 4 (JObject [("agentId", JString "a"); ("queue", JArray [JNull; JBool true; JNull])]%string) (Some 1) None =
    Some [JNull; JBool true; JNull].
Proof.
  apply (queue_pages_complete QueueParser.parse "a" [("agentId", JString "a"); ("queue", JArray [JNull; JBool true; JNull])]%string
    [JNull; JBool true; JNull] (Some 1)).
  - apply QueueParser.parse_token.
  - reflexivity.
  - vm_compute. discriminate.
Defined.
