(* ===== verification/TextPages.v ===== *)
(** * Text pages ([crates/intent-services/src/pagination.rs],
      [crates/intent-svc-runtime/src/script_output_store.rs])

    Pages of the lines of a scrollback or log, newest first, where a line too large for a
    page is served in pieces, and the streaming reader that serves the same pages from a
    file read in chunks. Text is bytes, as in [FieldPaging]. *)
From stdpp Require Import countable prelude strings list.
From S2P Require Import Prelude Text Json NotePaging FieldPaging Pagination.

(** ** Characters and lines *)

Definition byte (c : Ascii.ascii) : Z := Z.of_N (Ascii.N_of_ascii c).

Definition nl : Ascii.ascii := char_of 0x0a.

Fixpoint bytes (s : string) : list Z :=
  match s with EmptyString => [] | String c s' => byte c :: bytes s' end.

Definition cont (b : Z) : bool := (0x80 <=? b) && (b <? 0xc0).

(** One well-formed UTF-8 sequence, and its scalar. *)
Definition valid_seq (g : list Z) : bool :=
  match g with
  | [b0] => b0 <? 0x80
  | [b0; b1] => (0xc2 <=? b0) && (b0 <=? 0xdf) && cont b1
  | [b0; b1; b2] =>
      (0xe0 <=? b0) && (b0 <=? 0xef) && cont b1 && cont b2 &&
      negb ((b0 =? 0xe0) && (b1 <? 0xa0)) && negb ((b0 =? 0xed) && (0x9f <? b1))
  | [b0; b1; b2; b3] =>
      (0xf0 <=? b0) && (b0 <=? 0xf4) && cont b1 && cont b2 && cont b3 &&
      negb ((b0 =? 0xf0) && (b1 <? 0x90)) && negb ((b0 =? 0xf4) && (0x8f <? b1))
  | _ => false
  end.

Definition scalar (g : list Z) : Z :=
  match g with
  | [b0] => b0
  | [b0; b1] => (b0 - 0xc0) * 64 + (b1 - 0x80)
  | [b0; b1; b2] => ((b0 - 0xe0) * 64 + (b1 - 0x80)) * 64 + (b2 - 0x80)
  | [b0; b1; b2; b3] => (((b0 - 0xf0) * 64 + (b1 - 0x80)) * 64 + (b2 - 0x80)) * 64 + (b3 - 0x80)
  | _ => 0
  end.

Definition valid_char (g : string) : bool := valid_seq (bytes g).

(** The bytes a [str] can have. *)
Definition valid_utf8 (s : string) : Prop := Forall (fun g => valid_char g = true) (chars s).

(** [l.trim().is_empty()]. *)
Definition blank (l : string) : bool := forallb (fun g => is_whitespace (scalar (bytes g))) (chars l).

(** [text.split('\n')]. *)
Fixpoint split_nl (s : string) : list string :=
  match s with
  | EmptyString => [EmptyString]
  | String c s' =>
      if bool_decide (c = nl) then EmptyString :: split_nl s'
      else match split_nl s' with l :: ls => String c l :: ls | [] => [String c EmptyString] end
  end.

(** Popping the last line while it is blank. *)
Fixpoint trim_tail (lines : list string) : list string :=
  match lines with
  | [] => []
  | l :: lines' => match trim_tail lines' with [] => if blank l then [] else [l] | ls => l :: ls end
  end.

(** [&s[..n]]. *)
Fixpoint stake (n : nat) (s : string) : string :=
  match n, s with
  | S n', String c s' => String c (stake n' s')
  | _, _ => EmptyString
  end.

(** [while !text.is_char_boundary(i)]. *)
Fixpoint floor_loop (text : string) (i : nat) : Z :=
  if is_char_boundary text (Z.of_nat i) then Z.of_nat i
  else match i with O => 0 | S i' => floor_loop text i' end.

Definition floor_char_boundary (text : string) (index : Z) : Z := floor_loop text (Z.to_nat (Z.min index (slen text))).

(** ** Tails *)

Definition OUTPUT_TAIL_MAX_JSON_BYTES : Z := 480000.

(** The text after the first newline. *)
Fixpoint after_nl (s : string) : option string :=
  match s with
  | EmptyString => None
  | String c s' => if bool_decide (c = nl) then Some s' else after_nl s'
  end.

(** The loop over [char_indices().rev()]: the characters kept, and the one that did not
    fit. *)
Fixpoint tail_loop (rev_cs kept : list string) (used budget : Z) : list string * option string :=
  match rev_cs with
  | [] => (kept, None)
  | c :: rev_cs' =>
      let len := escaped_str_len c in
      if budget <? used + len then (kept, Some c) else tail_loop rev_cs' (c :: kept) (used + len) budget
  end.

Definition tail_within_json_bytes (text : string) (budget : Z) : string * bool :=
  match tail_loop (reverse (chars text)) [] 0 budget with
  | (_, None) => (text, false)
  | (kept, Some c) =>
      let kept := cat kept in
      if bool_decide (c = String nl EmptyString) then (kept, true)
      else match after_nl kept with
           | Some rest => if bool_decide (rest = EmptyString) then (kept, true) else (rest, true)
           | None => (kept, true)
           end
  end.

(** ** Pages *)

Section pages.
Context {TC : TokenCodec}.

Definition text_page_window (len : Z) (limit : option Z) (token : option string) : PageWindow * option Z :=
  let win := page_window len limit token in
  (win,
   t ← token;
   v ← decode_token t;
   boundary ← jget v "b" ≫= as_u64;
   cut ← jget v "c" ≫= as_u64;
   if (boundary =? end_ win) && (start win <? end_ win) then Some cut else None).

(** The loop over the window's lines, newest first: the items, the first line kept, and
    where to resume inside a line. *)
Fixpoint bound_loop (rev_lines items : list string) (used first_kept : Z) : list string * Z * option (Z * Z) :=
  match rev_lines with
  | [] => (items, first_kept, None)
  | line :: rev_lines' =>
      let len := escaped_str_len line + 3 in
      if OUTPUT_TAIL_MAX_JSON_BYTES <? used + len then
        match items with
        | [] =>
            let tail := (tail_within_json_bytes line (OUTPUT_TAIL_MAX_JSON_BYTES - 3)).1 in
            ([tail], first_kept, Some (first_kept, slen line - slen tail))
        | _ => (items, first_kept, None)
        end
      else bound_loop rev_lines' (items ++ [line]) (used + len) (first_kept - 1)
  end.

Definition line_token (end_ cut : Z) : string := encode_token (cursor_of [("b", Z.to_N end_); ("c", Z.to_N cut)]%string).

Definition bound_text_page (window : list string) (start : Z) (next_token : option string) : json :=
  let '(items, first_kept, resume_in_line) := bound_loop (reverse window) [] 0 (start + len window) in
  let next := match resume_in_line with
              | Some (end_, cut) => Some (line_token end_ cut)
              | None => if start <? first_kept then remint_backward_token first_kept else next_token
              end in
  let page := [("items", JArray (JString <$> items)); ("nextToken", MessageBlock.opt_json JString next)]%string in
  JObject (match resume_in_line with Some _ => map_insert page "lineContinues" (JBool true) | None => page end).

(** The newest line cut to the bytes still to serve. *)
Definition cut_last (cut : option Z) (window : list string) : list string :=
  match cut, last window with
  | Some cut, Some l => removelast window ++ [stake (Z.to_nat (floor_char_boundary l cut)) l]
  | _, _ => window
  end.

Definition paginate_text_lines (text : string) (limit : option Z) (token : option string) : option json :=
  let lines := trim_tail (split_nl text) in
  let '(win, cut) := text_page_window (len lines) limit token in
  window ← slice lines (start win) (end_ win);
  Some (bound_text_page (cut_last cut window) (start win) (next_token win)).

End pages.

(** ** The streaming reader *)

(** [pending] and [pending_len] are one list. *)
Record BlankProbe := mkProbe { non_blank : bool; pending : list Z; want : Z }.

Definition fresh_probe : BlankProbe := mkProbe false [] 0.

(** [std::str::from_utf8] on one sequence, then [is_whitespace] of its character. *)
Definition seq_whitespace (g : list Z) : bool := valid_seq g && is_whitespace (scalar g).

Definition feed_byte (p : BlankProbe) (b : Z) : BlankProbe :=
  if non_blank p then p
  else if want p =? 0 then
    if (b =? 0x09) || (b =? 0x0b) || (b =? 0x0c) || (b =? 0x0d) || (b =? 0x20) then p
    else if (0xc2 <=? b) && (b <=? 0xdf) then mkProbe false [b] 2
    else if (0xe0 <=? b) && (b <=? 0xef) then mkProbe false [b] 3
    else if (0xf0 <=? b) && (b <=? 0xf4) then mkProbe false [b] 4
    else mkProbe true (pending p) 0
  else
    let pending := pending p ++ [b] in
    if len pending =? want p then mkProbe (negb (seq_whitespace pending)) [] 0
    else mkProbe false pending (want p).

Definition feed (p : BlankProbe) (s : string) : BlankProbe := foldl feed_byte p (bytes s).

(** Whether the line was blank; the probe is fresh after it. *)
Definition finish (p : BlankProbe) : bool := negb (non_blank p) && (want p =? 0).

Inductive LineEvent := Bytes (s : string) | End.

Section scan.
Context {S : Type} (f : Z -> LineEvent -> S -> S * bool).

(** [f] on a piece that may be empty. *)
Definition report (index : Z) (piece : string) (st : S) : S * bool :=
  match piece with EmptyString => (st, true) | _ => f index (Bytes piece) st end.

(** The pieces between the newlines of one read, the last one open; the state, the index,
    and whether the scan goes on. *)
Fixpoint scan_pieces (pieces : list string) (index : Z) (st : S) : S * Z * bool :=
  match pieces with
  | [] => (st, index, true)
  | [rest] => let '(st, go) := report index rest st in (st, index, go)
  | piece :: pieces' =>
      let '(st, go) := report index piece st in
      if go then
        let '(st, go) := f index End st in
        if go then scan_pieces pieces' (index + 1) st else (st, index, false)
      else (st, index, false)
  end.

(** [scan_lines] over the reads of a file. *)
Fixpoint scan_lines (chunks : list string) (index : Z) (st : S) : S :=
  match chunks with
  | [] => (f index End st).1
  | chunk :: chunks' =>
      let '(st, index, go) := scan_pieces (split_nl chunk) index st in
      if go then scan_lines chunks' index st else st
  end.

End scan.

(** The first pass: the probe and [kept_len]. *)
Definition count_event (index : Z) (ev : LineEvent) (st : BlankProbe * Z) : (BlankProbe * Z) * bool :=
  match ev with
  | Bytes s => ((feed st.1 s, st.2), true)
  | End => ((fresh_probe, if finish st.1 then st.2 else index + 1), true)
  end.

(** The second pass: the line, the items and the largest line held. *)
Record CopyState := mkCopy { line : string; items : list string; peak : Z }.

Definition copy_event (lossy : string -> string) (win : PageWindow) (index : Z) (ev : LineEvent) (st : CopyState) : CopyState * bool :=
  if index <? start win then (st, true)
  else
    match ev with
    | Bytes s => (mkCopy (line st +:+ s) (items st) (peak st), true)
    | End => (mkCopy EmptyString (items st ++ [lossy (line st)]) (Z.max (peak st) (slen (line st))), index + 1 <? end_ win)
    end.

(** [paginate_file] over what the two passes read; [lossy] is [String::from_utf8_lossy]. *)
Definition paginate_file {TC : TokenCodec} (lossy : string -> string) (reads1 reads2 : list string) (limit : option Z)
    (token : option string) : json * Z :=
  let kept_len := (scan_lines count_event reads1 0 (fresh_probe, 0)).2 in
  let '(win, cut) := text_page_window kept_len limit token in
  let copied := if start win <? end_ win then scan_lines (copy_event lossy win) reads2 0 (mkCopy EmptyString [] 0)
                else mkCopy EmptyString [] 0 in
  (bound_text_page (cut_last cut (items copied)) (start win) (next_token win), peak copied).

(** * Lemmas *)

(** ** Lines *)

Lemma split_nl_cons s : exists l ls, split_nl s = l :: ls.
Proof. destruct s as [|c s]; cbn [split_nl]; [eauto|]. case_bool_decide; [eauto|]. destruct (split_nl s); eauto. Qed.

(** [pieces] with [rest] before the first of them. *)
Definition join_first (rest : string) (lines : list string) : list string :=
  match lines with l :: ls => (rest +:+ l) :: ls | [] => [rest] end.

Lemma split_nl_app a b :
  split_nl (a +:+ b) = removelast (split_nl a) ++ join_first (List.last (split_nl a) EmptyString) (split_nl b).
Proof.
  induction a as [|c a IH].
  - change (split_nl b = join_first EmptyString (split_nl b)). by destruct (split_nl_cons b) as (y & ys & ->).
  - change (String c a +:+ b) with (String c (a +:+ b)). cbn [split_nl]. rewrite IH. destruct (split_nl_cons a) as (l & ls & ->).
    case_bool_decide; [done|]. destruct ls as [|l' ls]; [|done]. cbn. destruct (split_nl_cons b) as (y & ys & ->). done.
Qed.

Section runs.
Context {S : Type} (f : Z -> LineEvent -> S -> S * bool).
Context (Hgo : forall index s st, (f index (Bytes s) st).2 = true).
Context (Hnil : forall index st, (f index (Bytes EmptyString) st).1 = st).
Context (Happ : forall index a b st, (f index (Bytes (a +:+ b)) st).1 = (f index (Bytes b) (f index (Bytes a) st).1).1).

(** The events of whole lines. *)
Fixpoint run_lines (lines : list string) (index : Z) (st : S) : S :=
  match lines with
  | [] => st
  | l :: lines' =>
      let '(st, go) := f index End (f index (Bytes l) st).1 in
      match lines' with [] => st | _ => if go then run_lines lines' (index + 1) st else st end
  end.

Lemma report_bytes index piece st : report f index piece st = ((f index (Bytes piece) st).1, true).
Proof. destruct piece as [|c s]; cbn [report]; [by rewrite Hnil|]. rewrite <- (Hgo index (String c s) st). by destruct (f _ _ _). Qed.

(** Reading in chunks reports the lines of the text. *)
Lemma scan_run chunks : forall index st, scan_lines f chunks index st = run_lines (split_nl (cat chunks)) index st.
Proof.
  induction chunks as [|chunk chunks IH]; intros index st; cbn [scan_lines cat]; [cbn; rewrite Hnil; by destruct (f _ _ _)|].
  rewrite split_nl_app. destruct (split_nl_cons chunk) as (p & ps & ->). revert p index st.
  induction ps as [|p' ps IHp]; intros p index st.
  - cbn [scan_pieces removelast app List.last]. rewrite report_bytes, IH. destruct (split_nl_cons (cat chunks)) as (y & ys & ->).
    cbn [join_first run_lines]. by rewrite Happ.
  - change (scan_pieces f (p :: p' :: ps) index st) with
      (let '(st, go) := report f index p st in
       if go then let '(st, go) := f index End st in if go then scan_pieces f (p' :: ps) (index + 1) st else (st, index, false) else (st, index, false)).
    rewrite report_bytes. change (removelast (p :: p' :: ps)) with (p :: removelast (p' :: ps)). cbn [app]. cbn [run_lines].
    destruct (f index End _) as [st' go]. change (List.last (p :: p' :: ps) EmptyString) with (List.last (p' :: ps) EmptyString).
    destruct (removelast (p' :: ps) ++ join_first (List.last (p' :: ps) EmptyString) (split_nl (cat chunks))) as [|q qs] eqn:E.
    { by destruct (removelast (p' :: ps)), (split_nl (cat chunks)). }
    destruct go; [|done]. rewrite <- E. apply IHp.
Qed.

End runs.

(** ** Well-formed text *)

Lemma byte_range c : 0 <= byte c < 256.
Proof. unfold byte. pose proof (Ascii.N_ascii_bounded c). lia. Qed.

Lemma is_continuation_cont c : is_continuation c = cont (byte c).
Proof. done. Qed.

(** The shapes of a character. *)
Lemma valid_char_inv g :
  valid_char g = true ->
  exists c rest, g = String c rest /\ is_continuation c = false /\ (rest = EmptyString /\ byte c < 0x80 \/ 0x80 <= byte c /\ rest <> EmptyString) /\
    Forall (fun b => cont b = true) (bytes rest) /\ (String.length rest <= 3)%nat.
Proof.
  unfold valid_char. destruct g as [|c0 g]; [done|]. cbn [bytes]. intros H. exists c0, g. split; [done|]. rewrite is_continuation_cont. unfold cont.
  destruct g as [|c1 [|c2 [|c3 [|c4 g]]]]; cbn [bytes valid_seq] in H; rewrite ?andb_true_iff in H; cbn [bytes String.length].
  - apply Z.ltb_lt in H. rewrite (proj2 (Z.leb_gt _ _)) by lia. split_and!; [done|left; done|done|lia].
  - destruct H as [[H1%Z.leb_le H2%Z.leb_le] Hc]. rewrite (proj2 (Z.ltb_ge _ _)), andb_false_r by lia. split_and!; [done|right; split; [lia|done]|by repeat constructor|lia].
  - destruct H as [[[[[H1%Z.leb_le H2%Z.leb_le] Hc] Hc2] _] _]. rewrite (proj2 (Z.ltb_ge _ _)), andb_false_r by lia. split_and!; [done|right; split; [lia|done]|by repeat constructor|lia].
  - destruct H as [[[[[[H1%Z.leb_le H2%Z.leb_le] Hc] Hc2] Hc3] _] _]. rewrite (proj2 (Z.ltb_ge _ _)), andb_false_r by lia. split_and!; [done|right; split; [lia|done]|by repeat constructor|lia].
  - done.
Qed.

Lemma chars_conts c rest : Forall (fun b => cont b = true) (bytes rest) -> chars (String c rest) = [String c rest].
Proof.
  revert c. induction rest as [|d rest IH]; intros c H; [done|]. cbn [bytes] in H. apply Forall_cons in H as [Hd H].
  change (chars (String c (String d rest))) with (match chars (String d rest) with g :: gs => if continues g then String c g :: gs else String c EmptyString :: g :: gs | [] => [String c EmptyString] end).
  rewrite IH by done. cbn [continues]. by rewrite is_continuation_cont, Hd.
Qed.

Lemma chars_valid g t : valid_char g = true -> continues t = false -> chars (g +:+ t) = g :: chars t.
Proof. intros (c & rest & -> & _ & _ & Hc & _)%valid_char_inv Ht. by rewrite chars_app, chars_conts. Qed.

Lemma continues_cat gs : Forall (fun g => valid_char g = true) gs -> continues (cat gs) = false.
Proof. intros H. destruct H as [|g gs (c & rest & -> & Hc & _)%valid_char_inv _]; done. Qed.

Lemma chars_cat gs : Forall (fun g => valid_char g = true) gs -> chars (cat gs) = gs.
Proof. induction 1 as [|g gs Hg Hgs IH]; [done|]. cbn [cat]. by rewrite chars_valid, IH by auto using continues_cat. Qed.

Lemma valid_char_cost g : valid_char g = true -> escaped_str_len g <= 6.
Proof.
  intros (c & rest & -> & _ & Hshape & Hc & Hl)%valid_char_inv. destruct Hshape as [[-> _]|[Hhi _]].
  - cbn. pose proof (escaped_len_bounds c). lia.
  - assert (forall d, 0x80 <= byte d -> escaped_len d = 1) as Hone.
    { intros d Hd. unfold escaped_len, byte in *. rewrite !(proj2 (Z.eqb_neq _ _)) by lia. cbn [orb]. by rewrite (proj2 (Z.ltb_ge _ _)) by lia. }
    assert (escaped_str_len rest <= slen rest) as Hrest.
    { clear -Hc Hone. induction rest as [|d rest IH]; [done|]. cbn [bytes] in Hc. apply Forall_cons in Hc as [Hd Hc]. rewrite slen_cons. cbn [escaped_str_len].
      unfold cont in Hd. apply andb_true_iff in Hd as [Hd%Z.leb_le _]. rewrite Hone by done. specialize (IH Hc). lia. }
    cbn [escaped_str_len]. rewrite Hone by done. unfold slen in Hrest. lia.
Qed.

Lemma valid_utf8_costs s : valid_utf8 s -> utf8_costs s.
Proof. intros H. eapply Forall_impl; [exact H|]. intros g. apply valid_char_cost. Qed.

(** A character is a newline or has no newline byte. *)
Lemma split_nl_valid g t :
  valid_char g = true ->
  split_nl (g +:+ t) = if bool_decide (g = String nl EmptyString) then EmptyString :: split_nl t else join_first g (split_nl t).
Proof.
  intros (c & rest & -> & _ & Hshape & Hc & _)%valid_char_inv. change (String c rest +:+ t) with (String c (rest +:+ t)). cbn [split_nl].
  assert (forall r, Forall (fun b => cont b = true) (bytes r) -> split_nl (r +:+ t) = join_first r (split_nl t)) as Hr.
  { intros r. induction r as [|d r IH]; intros Hd; [change (split_nl t = join_first EmptyString (split_nl t)); by destruct (split_nl_cons t) as (y & ys & ->)|]. cbn [bytes] in Hd. apply Forall_cons in Hd as [Hd Hds].
    change (String d r +:+ t) with (String d (r +:+ t)). cbn [split_nl]. rewrite bool_decide_eq_false_2 by (intros ->; done).
    rewrite IH by done. by destruct (split_nl_cons t) as (y & ys & ->). }
  rewrite Hr by done. destruct Hshape as [[-> Hlo]|[Hhi Hne]].
  - destruct (decide (c = nl)) as [->|Hc']; [rewrite !bool_decide_eq_true_2 by done; by destruct (split_nl_cons t) as (y & ys & ->)|].
    rewrite !bool_decide_eq_false_2 by congruence. by destruct (split_nl_cons t) as (y & ys & ->).
  - rewrite !bool_decide_eq_false_2; [|congruence|intros ->; done]. by destruct (split_nl_cons t) as (y & ys & ->).
Qed.

(** A line of well-formed text. *)
Definition line_chars (gs : list string) : Prop := Forall (fun g => valid_char g = true /\ g <> String nl EmptyString) gs.

Lemma split_nl_lines gs :
  Forall (fun g => valid_char g = true) gs -> exists lss, split_nl (cat gs) = cat <$> lss /\ Forall line_chars lss.
Proof.
  induction 1 as [|g gs Hg Hgs IH]; [exists [[]]; split; [done|by repeat constructor]|]. destruct IH as (lss & Hs & Hl). cbn [cat].
  rewrite split_nl_valid, Hs by done. case_bool_decide as Hnl.
  - exists ([] :: lss). split; [done|by repeat constructor].
  - destruct lss as [|ls lss]; [destruct (split_nl_cons (cat gs)) as (y & ys & Hy); rewrite Hy in Hs; discriminate|]. apply Forall_cons in Hl as [Hl Hls].
    exists ((g :: ls) :: lss). split; [done|]. constructor; [|done]. by constructor.
Qed.

Lemma line_chars_valid gs : line_chars gs -> Forall (fun g => valid_char g = true) gs.
Proof. intros H. eapply Forall_impl; [exact H|]. by intros g [? _]. Qed.

(** ** The blank probe *)

Lemma bytes_app a b : bytes (a +:+ b) = bytes a ++ bytes b.
Proof. induction a as [|c a IH]; [done|]. change (String c a +:+ b) with (String c (a +:+ b)). cbn [bytes app]. by rewrite IH. Qed.

Lemma ascii_blank b : 0 <= b < 0x80 -> b <> 0x0a ->
  (b =? 0x09) || (b =? 0x0b) || (b =? 0x0c) || (b =? 0x0d) || (b =? 0x20) = is_whitespace b.
Proof.
  intros Hb Hn. assert (forallb (fun n => (Z.of_nat n =? 0x0a) || Bool.eqb ((Z.of_nat n =? 0x09) || (Z.of_nat n =? 0x0b) || (Z.of_nat n =? 0x0c) ||
    (Z.of_nat n =? 0x0d) || (Z.of_nat n =? 0x20)) (is_whitespace (Z.of_nat n))) (seq 0 128) = true) as H by (vm_compute; reflexivity).
  rewrite forallb_forall in H. specialize (H (Z.to_nat b)). rewrite in_seq, Z2Nat.id in H by lia. specialize (H ltac:(lia)).
  apply orb_true_iff in H as [H%Z.eqb_eq|H%Bool.eqb_prop]; [lia|done].
Qed.

(** The probe after one character. *)
Lemma feed_char g : valid_char g = true -> g <> String nl EmptyString ->
  foldl feed_byte fresh_probe (bytes g) = mkProbe (negb (is_whitespace (scalar (bytes g)))) [] 0.
Proof.
  unfold valid_char. intros Hv Hnl.
  assert (forall b, 0x80 <= b -> (b =? 0x09) || (b =? 0x0b) || (b =? 0x0c) || (b =? 0x0d) || (b =? 0x20) = false) as Hhi.
  { intros b Hb. by rewrite !(proj2 (Z.eqb_neq _ _)) by lia. }
  assert (forall p, valid_seq p = true -> seq_whitespace p = is_whitespace (scalar p)) as Hws.
  { intros p Hp. unfold seq_whitespace. by rewrite Hp. }
  destruct g as [|c0 [|c1 [|c2 [|c3 [|c4 g]]]]]; cbn [bytes] in *; try done.
  - cbn [valid_seq] in Hv. apply Z.ltb_lt in Hv. cbn [foldl]. unfold feed_byte. cbn [non_blank want fresh_probe Z.eqb].
    rewrite ascii_blank; [|pose proof (byte_range c0); lia|].
    + destruct (is_whitespace (byte c0)) eqn:E; cbn [scalar negb]; rewrite E; [done|].
      by rewrite !(proj2 (Z.leb_gt _ (byte c0))) by lia.
    + intros Hb. apply Hnl. f_equal. rewrite <- (Ascii.ascii_N_embedding c0). unfold byte in Hb. unfold nl, char_of. f_equal. lia.
  - pose proof Hv as Hv'. cbn [valid_seq] in Hv'. rewrite !andb_true_iff in Hv'. destruct Hv' as [[H1%Z.leb_le H2%Z.leb_le] _].
    cbn [foldl]. assert (feed_byte fresh_probe (byte c0) = mkProbe false [byte c0] 2) as ->.
    { unfold feed_byte. cbn [non_blank want fresh_probe Z.eqb]. rewrite Hhi by lia. by repeat solve_test. }
    rewrite <- (Hws _ Hv). reflexivity.
  - pose proof Hv as Hv'. cbn [valid_seq] in Hv'. rewrite !andb_true_iff in Hv'. destruct Hv' as [[[[[H1%Z.leb_le H2%Z.leb_le] _] _] _] _].
    cbn [foldl]. assert (feed_byte fresh_probe (byte c0) = mkProbe false [byte c0] 3) as ->.
    { unfold feed_byte. cbn [non_blank want fresh_probe Z.eqb]. rewrite Hhi by lia. by repeat solve_test. }
    rewrite <- (Hws _ Hv). reflexivity.
  - pose proof Hv as Hv'. cbn [valid_seq] in Hv'. rewrite !andb_true_iff in Hv'. destruct Hv' as [[[[[[H1%Z.leb_le H2%Z.leb_le] _] _] _] _] _].
    cbn [foldl]. assert (feed_byte fresh_probe (byte c0) = mkProbe false [byte c0] 4) as ->.
    { unfold feed_byte. cbn [non_blank want fresh_probe Z.eqb]. rewrite Hhi by lia. by repeat solve_test. }
    rewrite <- (Hws _ Hv). reflexivity.
Qed.

Lemma probe_line gs : line_chars gs -> feed fresh_probe (cat gs) = mkProbe (negb (blank (cat gs))) [] 0.
Proof.
  intros H. unfold feed, blank. rewrite chars_cat by (by apply line_chars_valid).
  assert (forall bs, foldl feed_byte (mkProbe true [] 0) bs = mkProbe true [] 0) as Htrue by (induction bs; done).
  induction H as [|g gs [Hg Hn] Hgs IH]; [done|]. cbn [cat forallb]. rewrite bytes_app, foldl_app, feed_char by done.
  destruct (is_whitespace (scalar (bytes g))); [exact IH|apply Htrue].
Qed.

Lemma finish_line gs : line_chars gs -> finish (feed fresh_probe (cat gs)) = blank (cat gs).
Proof. intros H. rewrite probe_line by done. unfold finish. cbn. by rewrite negb_involutive, andb_true_r. Qed.

(** The first pass counts the lines up to the last one that is not blank. *)
Lemma count_run lss : forall index kept, Forall line_chars lss ->
  (run_lines count_event (cat <$> lss) index (fresh_probe, kept)).2 =
    match trim_tail (cat <$> lss) with [] => kept | ls => index + len ls end.
Proof.
  induction lss as [|gs lss IH]; intros index kept H; [done|]. apply Forall_cons in H as [Hg H]. rewrite fmap_cons. cbn [run_lines count_event fst snd].
  rewrite finish_line by done. cbn [trim_tail]. destruct (cat <$> lss) as [|l ls] eqn:E.
  - cbn. by destruct (blank (cat gs)).
  - rewrite IH by done. destruct (trim_tail (l :: ls)) as [|t ts]; [by destruct (blank (cat gs))|]. rewrite (len_cons (cat gs)). lia.
Qed.

Lemma trim_tail_prefix lines : exists ends, lines = trim_tail lines ++ ends.
Proof.
  induction lines as [|l lines [ends IH]]; [by exists []|]. cbn [trim_tail]. destruct (trim_tail lines) as [|t ts].
  - destruct (blank l); [by exists (l :: lines)|by exists lines].
  - exists ends. cbn [app]. by f_equal.
Qed.

(** The second pass copies the lines of the window. *)
Lemma copy_run lossy win lines : forall index st,
  0 <= index -> index < end_ win -> end_ win <= index + len lines -> line st = EmptyString ->
  let keep := ztake (end_ win - Z.max index (start win)) (zdrop (start win - index) lines) in
  let st' := run_lines (copy_event lossy win) lines index st in
  start win < end_ win -> items st' = items st ++ (lossy <$> keep) /\ peak st' = foldl Z.max (peak st) (slen <$> keep).
Proof.
  induction lines as [|l lines IH]; intros index st H0 Hend Hlen Hline keep st' Hwin; [rewrite len_nil in Hlen; lia|]. rewrite len_cons in Hlen.
  subst st' keep. cbn [run_lines].
  assert (copy_event lossy win index End (copy_event lossy win index (Bytes l) st).1 =
    if index <? start win then (st, true)
    else (mkCopy EmptyString (items st ++ [lossy l]) (Z.max (peak st) (slen l)), index + 1 <? end_ win)) as ->.
  { unfold copy_event. destruct (index <? start win); [done|]. cbn [fst line items peak]. by rewrite Hline. }
  destruct (Z.ltb_spec index (start win)) as [Hskip|Hin].
  - destruct lines as [|l' lines]; [rewrite len_nil in Hlen; lia|]. cbv beta iota.
    destruct (IH (index + 1) st ltac:(lia) ltac:(lia) ltac:(lia) Hline Hwin) as [Hi Hp]. rewrite Hi, Hp.
    replace (zdrop (start win - index) (l :: l' :: lines)) with (zdrop (start win - (index + 1)) (l' :: lines));
      [by replace (Z.max (index + 1) (start win)) with (Z.max index (start win)) by lia|].
    unfold zdrop. by replace (Z.to_nat (start win - index)) with (S (Z.to_nat (start win - (index + 1)))) by lia.
  - rewrite zdrop_le0 by lia. rewrite (Z.max_l index) by lia.
    destruct (Z.ltb_spec (index + 1) (end_ win)) as [Hgo|Hstop].
    + destruct lines as [|l' lines]; [rewrite len_nil in Hlen; lia|]. cbv beta iota.
      destruct (IH (index + 1) (mkCopy EmptyString (items st ++ [lossy l]) (Z.max (peak st) (slen l))) ltac:(lia) Hgo ltac:(lia) eq_refl Hwin) as [Hi Hp].
      rewrite Hi, Hp. cbn [items peak]. rewrite zdrop_le0, (Z.max_l (index + 1)) by lia. unfold ztake.
      replace (Z.to_nat (end_ win - index)) with (S (Z.to_nat (end_ win - (index + 1)))) by lia. cbn [take]. rewrite !fmap_cons, <- app_assoc. done.
    + assert (end_ win = index + 1) as -> by lia. replace (index + 1 - index) with 1 by lia. destruct lines; done.
Qed.

Lemma page_window_range {TC : TokenCodec} n limit token :
  0 <= n -> let w := page_window n limit token in 0 <= start w <= end_ w /\ end_ w <= n /\ (0 < end_ w -> start w < end_ w) /\
    next_token w = remint_backward_token (start w).
Proof.
  intros Hn w. subst w. unfold page_window. cbn [start end_ next_token]. pose proof (clamp_limit_pos limit).
  assert (forall b, token ≫= backward_page_boundary = Some b -> 0 <= b) as Hb.
  { intros b. destruct token as [t|]; [|done]. cbn [mbind option_bind]. unfold backward_page_boundary.
    destruct (decode_token t) as [v|]; [|done]. cbn [mbind option_bind]. destruct (jget v "b") as [[| |[n'| |]| | |]|]; try done. intros [= <-]. lia. }
  destruct (token ≫= backward_page_boundary) as [b|]; unfold saturating_sub; [specialize (Hb b eq_refl)|]; split_and!; try lia; done.
Qed.

Lemma ztake_trim lines n a b : len (trim_tail lines) = n -> 0 <= a <= b -> b <= n ->
  ztake (b - a) (zdrop a lines) = ztake (b - a) (zdrop a (trim_tail lines)).
Proof.
  intros Hn Ha Hb. destruct (trim_tail_prefix lines) as [ends He]. rewrite He at 1. rewrite zdrop_app, ztake_app.
  rewrite (ztake_le0 (b - a - _)) by (rewrite len_zdrop; lia). by rewrite app_nil_r.
Qed.

Lemma file_kept reads : valid_utf8 (cat reads) ->
  (scan_lines count_event reads 0 (fresh_probe, 0)).2 = len (trim_tail (split_nl (cat reads))).
Proof.
  intros Hv. rewrite scan_run.
  - destruct (split_nl_lines (chars (cat reads)) Hv) as (lss & Hs & Hl). rewrite cat_chars in Hs. rewrite Hs, count_run by done.
    destruct (trim_tail (cat <$> lss)); [done|]. apply Z.add_0_l.
  - done.
  - by intros index [p k].
  - intros index a b [p k]. cbn. unfold feed. by rewrite bytes_app, foldl_app.
Qed.

Lemma file_copied lossy win reads :
  (forall s, valid_utf8 s -> lossy s = s) -> valid_utf8 (cat reads) -> 0 <= start win < end_ win ->
  end_ win <= len (trim_tail (split_nl (cat reads))) ->
  let window := ztake (end_ win - start win) (zdrop (start win) (trim_tail (split_nl (cat reads)))) in
  let st := scan_lines (copy_event lossy win) reads 0 (mkCopy EmptyString [] 0) in
  items st = window /\ peak st = foldl Z.max 0 (slen <$> window).
Proof.
  intros Hlossy Hv Hwin Hend window st. subst st. rewrite scan_run.
  - destruct (trim_tail_prefix (split_nl (cat reads))) as [ends He].
    destruct (copy_run lossy win (split_nl (cat reads)) 0 (mkCopy EmptyString [] 0)) as [Hi Hp]; [lia|lia| |done|lia|].
    { rewrite He, len_app. pose proof (len_nonneg ends). lia. }
    rewrite Hi, Hp. cbn [items peak app]. rewrite Z.max_r, Z.sub_0_r, (ztake_trim _ _ _ _ eq_refl) by lia. fold window. split; [|done].
    rewrite <- (list_fmap_id window) at 2. apply list_fmap_ext. intros i l Hl. apply Hlossy.
    destruct (split_nl_lines (chars (cat reads)) Hv) as (lss & Hs & Hls). rewrite cat_chars in Hs.
    assert (l ∈ split_nl (cat reads)) as Hin.
    { rewrite He. apply elem_of_app. left. apply list_elem_of_lookup_2 in Hl. subst window. unfold ztake, zdrop in Hl. eapply elem_of_take in Hl as (j & Hj & _). rewrite lookup_drop in Hj. by eapply list_elem_of_lookup_2. }
    rewrite Hs in Hin. apply list_elem_of_fmap in Hin as (gs & -> & Hg). eapply Forall_forall in Hls; [|exact Hg].
    apply line_chars_valid in Hls. unfold id, valid_utf8. by rewrite chars_cat.
  - intros index s st. unfold copy_event. by destruct (index <? start win).
  - intros index [l its p]. unfold copy_event. destruct (index <? start win); [done|]. cbn. f_equal. clear. induction l as [|c l IH]; [done|]. by apply (f_equal (String c)).
  - intros index a b [l its p]. unfold copy_event. destruct (index <? start win); [done|]. cbn [fst line items peak]. f_equal. apply sapp_assoc.
Qed.

(** ** Tails of a line *)

Lemma tail_loop_spec budget rev_cs : forall kept used, used = escaped_str_len (cat kept) -> used <= budget ->
  match tail_loop rev_cs kept used budget with
  | (k, None) => k = reverse rev_cs ++ kept /\ escaped_str_len (cat k) <= budget
  | (k, Some x) => exists pre, reverse rev_cs ++ kept = pre ++ [x] ++ k /\ escaped_str_len (cat k) <= budget < escaped_str_len (cat k) + escaped_str_len x
  end.
Proof.
  induction rev_cs as [|c cs IH]; intros kept used Hu Hb; cbn [tail_loop]; [split; [done|lia]|]. rewrite reverse_cons, <- app_assoc.
  destruct (Z.ltb_spec budget (used + escaped_str_len c)); [exists (reverse cs); split; [done|lia]|].
  apply (IH (c :: kept)); [cbn [cat]; rewrite escaped_str_len_app; lia|lia].
Qed.

Lemma after_nl_line gs : line_chars gs -> after_nl (cat gs) = None.
Proof.
  induction 1 as [|g gs [Hg Hn] Hgs IH]; [done|]. cbn [cat]. apply valid_char_inv in Hg as (c & rest & -> & _ & Hshape & Hc & _).
  change (String c rest +:+ cat gs) with (String c (rest +:+ cat gs)). cbn [after_nl].
  assert (after_nl (rest +:+ cat gs) = None) as Hrest.
  { clear Hshape Hn. induction rest as [|d rest IHr]; [done|]. cbn [bytes] in Hc. apply Forall_cons in Hc as [Hd Hc].
    change (String d rest +:+ cat gs) with (String d (rest +:+ cat gs)). cbn [after_nl]. rewrite bool_decide_eq_false_2 by (intros ->; done). by apply IHr. }
  rewrite bool_decide_eq_false_2; [done|]. intros ->. destruct Hshape as [[-> _]|[Hhi _]]; done.
Qed.

(** A line over the budget: the characters of its tail. *)
Lemma tail_of_line gs budget :
  line_chars gs -> 0 <= budget < escaped_str_len (cat gs) ->
  exists pre tail, gs = pre ++ tail /\ pre <> [] /\ (tail_within_json_bytes (cat gs) budget).1 = cat tail /\
    budget - 6 < escaped_str_len (cat tail) <= budget.
Proof.
  intros H Hb. unfold tail_within_json_bytes. rewrite chars_cat by (by apply line_chars_valid).
  pose proof (tail_loop_spec budget (reverse gs) [] 0 eq_refl ltac:(lia)) as Ht. destruct (tail_loop _ _ _ _) as [k [x|]]; rewrite reverse_involutive, app_nil_r in Ht.
  - destruct Ht as (pre & Hgs & Hk). exists (pre ++ [x]), k. rewrite <- app_assoc. split; [done|]. split; [by destruct pre|].
    unfold line_chars in H. rewrite Hgs in H. apply Forall_app in H as [_ [[Hx Hn] Hkept]%Forall_cons]. apply valid_char_cost in Hx.
    rewrite bool_decide_eq_false_2 by done. rewrite after_nl_line by done. split; [done|lia].
  - destruct Ht as [-> Ht]. lia.
Qed.

(** ** One page *)

(** What a client reads off a page. *)
Definition page_items (page : json) : option (list string) := v ← jget page "items"; l ← as_array v; mapM as_str l.
Definition page_continues (page : json) : bool := match jget page "lineContinues" with Some (JBool true) => true | _ => false end.
Definition page_token (page : json) : option string := jget page "nextToken" ≫= as_str.

Lemma mapM_strings l : mapM as_str (JString <$> l) = Some l.
Proof. induction l as [|s l IH]; [done|]. rewrite fmap_cons. cbn. by rewrite IH. Qed.

Lemma bound_loop_more rl : forall items used fk, items <> [] ->
  exists taken rest, rl = taken ++ rest /\ bound_loop rl items used fk = (items ++ taken, fk - len taken, None).
Proof.
  induction rl as [|l rl IH]; intros items used fk Hne; cbn [bound_loop].
  - exists [], []. split; [done|]. by rewrite app_nil_r, len_nil, Z.sub_0_r.
  - destruct (OUTPUT_TAIL_MAX_JSON_BYTES <? _).
    + exists [], (l :: rl). split; [done|]. rewrite app_nil_r, len_nil, Z.sub_0_r. by destruct items.
    + destruct (IH (items ++ [l]) (used + (escaped_str_len l + 3)) (fk - 1)) as (taken & rest & -> & ->); [by destruct items|].
      exists (l :: taken), rest. rewrite <- app_assoc, len_cons. split; [done|]. do 2 f_equal. lia.
Qed.

(** The lines a page took off the newest end of [init]. *)
Lemma kept_lines (init : list (list string)) s taken rest :
  reverse (zdrop s (cat <$> init)) = taken ++ rest -> 0 <= s <= len init ->
  exists left keep, init = left ++ keep /\ len left = len init - len taken /\ cat <$> keep = reverse taken /\ s <= len left.
Proof.
  intros Hrev Hs. apply (f_equal reverse) in Hrev. rewrite reverse_involutive, reverse_app in Hrev.
  assert (len init - s = len rest + len taken) as Hcount.
  { apply (f_equal len) in Hrev. rewrite len_zdrop, len_app in Hrev. unfold len in *. rewrite !length_reverse, length_fmap in Hrev. lia. }
  pose proof (len_nonneg taken). pose proof (len_nonneg rest). set (fk := len init - len taken).
  exists (ztake fk init), (zdrop fk init). rewrite len_ztake. split_and!; [by rewrite ztake_zdrop|lia| |lia].
  unfold zdrop in *. rewrite fmap_drop. replace (Z.to_nat fk) with (Z.to_nat s + length (reverse rest))%nat by (rewrite length_reverse; subst fk; unfold len in *; lia).
  rewrite <- drop_drop, Hrev. apply drop_app_length.
Qed.

(** A client that follows the tokens, oldest line first; [later] is what it has of a line
    that continues. *)
Definition join_later (items : list string) (later : option string) : list string :=
  match later, items with Some p, i :: r => (i +:+ p) :: r | _, _ => items end.

Fixpoint read_text {TC : TokenCodec} (fuel : nat) (text : string) (limit : option Z) (token : option string) (later : option string) :
    option (list string) :=
  match fuel with
  | O => None
  | S fuel' =>
      page ← paginate_text_lines text limit token;
      items ← page_items page;
      let items := join_later items later in
      if page_continues page then
        i ← head items;
        t ← page_token page;
        read_text fuel' text limit (Some t) (Some i)
      else
        match page_token page with
        | None => Some (reverse items)
        | Some t => older ← read_text fuel' text limit (Some t) None; Some (older ++ reverse items)
        end
  end.

(** Lines whose last one goes on. *)
Definition with_later (lines : list string) (later : option string) : list string :=
  match later, last lines with Some p, Some l => removelast lines ++ [l +:+ p] | _, _ => lines end.

Lemma with_later_snoc lines l later : with_later (lines ++ [l]) later = lines ++ [match later with Some p => l +:+ p | None => l end].
Proof. unfold with_later. destruct later; [|done]. by rewrite last_snoc, removelast_last. Qed.

Lemma reverse_join keep l later : reverse (join_later (reverse (keep ++ [l])) later) = with_later (keep ++ [l]) later.
Proof. rewrite with_later_snoc, reverse_app. cbn. destruct later; cbn [join_later]; by rewrite reverse_cons, reverse_involutive. Qed.

(** The escaped bytes of lines. *)
Definition escaped_lines (cur : list (list string)) : Z := sum_with (fun gs => escaped_str_len (cat gs)) cur.

Lemma escaped_lines_nonneg cur : 0 <= escaped_lines cur.
Proof. apply sum_with_nonneg. intros gs _. pose proof (escaped_str_len_bounds (cat gs)). pose proof (slen_nonneg (cat gs)). lia. Qed.

Section text_pages.
Context `{TC : TokenCodec, TL : !TokenCodecLaws}.

(** A page of whole lines, or of the tail of one line. *)
Inductive text_page (cur : list (list string)) (page : json) : Prop :=
| whole_lines left keep :
    cur = left ++ keep -> (keep = [] -> cur = []) -> page_items page = Some (reverse (cat <$> keep)) -> page_continues page = false ->
    page_token page = remint_backward_token (len left) -> text_page cur page
| line_tail left pre tail :
    cur = left ++ [pre ++ tail] -> pre <> [] -> page_items page = Some [cat tail] -> page_continues page = true ->
    page_token page = Some (line_token (len left + 1) (slen (cat pre))) ->
    OUTPUT_TAIL_MAX_JSON_BYTES - 8 <= escaped_str_len (cat tail) -> text_page cur page.

Lemma bound_page_spec cur s :
  Forall line_chars cur -> 0 <= s -> (0 < len cur -> s < len cur) -> s <= len cur ->
  text_page cur (bound_text_page (zdrop s (cat <$> cur)) s (remint_backward_token s)).
Proof.
  intros Hl Hs0 Hs Hle. unfold bound_text_page.
  assert (len (cat <$> cur) = len cur) as Hlen by (unfold len; by rewrite length_fmap).
  assert (s + len (zdrop s (cat <$> cur)) = len cur) as -> by (rewrite len_zdrop, Hlen; lia).
  destruct (decide (cur = [])) as [->|Hne].
  - assert (s = 0) as -> by (rewrite len_nil in Hle; lia). cbn. apply (whole_lines _ _ [] []); done.
  - destruct (exists_last Hne) as (init & gs & ->). rewrite fmap_app in *. cbn [fmap list_fmap] in *. rewrite len_app, len_cons, len_nil in *.
    specialize (Hs ltac:(pose proof (len_nonneg init); lia)).
    assert (len (cat <$> init) = len init) as Hlen' by (unfold len; by rewrite length_fmap).
    rewrite zdrop_app, reverse_app, (zdrop_le0 (s - len (cat <$> init))) by lia. cbn [reverse rev_append app].
    apply Forall_app in Hl as [Hinit [Hg _]%Forall_cons]. cbn [bound_loop].
    destruct (Z.ltb_spec OUTPUT_TAIL_MAX_JSON_BYTES (0 + (escaped_str_len (cat gs) + 3))) as [Hbig|Hsmall].
    + destruct (tail_of_line gs (OUTPUT_TAIL_MAX_JSON_BYTES - 3) Hg) as (pre & tail & -> & Hpre & Htail & Hb); [unfold OUTPUT_TAIL_MAX_JSON_BYTES in *; lia|].
      rewrite Htail. apply (line_tail _ _ init pre tail); [done|done|done|done| |lia].
      rewrite cat_app, slen_app. replace (slen (cat pre) + slen (cat tail) - slen (cat tail)) with (slen (cat pre)) by lia.
      by replace (len init + (1 + 0)) with (len init + 1) by lia.
    + destruct (bound_loop_more (reverse (zdrop s (cat <$> init))) [cat gs] (0 + (escaped_str_len (cat gs) + 3)) (len init + (1 + 0) - 1)) as (taken & rest & Hrev & Heq); [done|].
      cbn [app]. rewrite Heq. clear Heq.
      destruct (kept_lines init s taken rest Hrev ltac:(lia)) as (left & keep & -> & Hleft & Hkeep & Hsl).
      set (fk := len (left ++ keep) + (1 + 0) - 1 - len taken). assert (len left = fk) as Hfk by (subst fk; lia).
      apply (whole_lines _ _ left (keep ++ [gs])); [by rewrite app_assoc|by destruct keep| |done|].
      * unfold page_items. cbn [jget map_get]. rewrite decide_True by done. cbn [mbind option_bind as_array]. rewrite mapM_strings.
        rewrite fmap_app, reverse_app, Hkeep, reverse_involutive. done.
      * rewrite Hfk. unfold page_token. change (jget _ "nextToken") with (Some (MessageBlock.opt_json JString (if s <? fk then remint_backward_token fk else remint_backward_token s))).
        cbn [mbind option_bind]. assert ((if s <? fk then remint_backward_token fk else remint_backward_token s) = remint_backward_token fk) as ->.
        { destruct (Z.ltb_spec s fk); [done|]. f_equal. subst fk. lia. }
        by destruct (remint_backward_token fk).
Qed.

(** ** The walk *)

Context (text : string) (lss : list (list string)) (limit : option Z).
Context (Htext : trim_tail (split_nl text) = cat <$> lss) (Hlines : Forall line_chars lss).

(** The lines a token still has to serve, the last one perhaps only in part. *)
Inductive resumes : option string -> list (list string) -> Prop :=
| resume_newest : resumes None lss
| resume_line e : 0 < e <= len lss -> resumes (Some (encode_token (cursor "b" e))) (ztake e lss)
| resume_cut e pre post :
    0 < e -> znth lss (e - 1) = Some (pre ++ post) -> resumes (Some (line_token e (slen (cat pre)))) (ztake (e - 1) lss ++ [pre]).

Lemma len_fmap_cat (l : list (list string)) : len (cat <$> l) = len l.
Proof. unfold len. by rewrite length_fmap. Qed.

Lemma slice_prefix {A} (l : list A) a b : 0 <= a <= b -> b <= len l -> slice l a b = Some (zdrop a (ztake b l)).
Proof.
  intros Ha Hb. rewrite slice_ok by lia. f_equal. unfold ztake, zdrop. rewrite skipn_firstn_comm. f_equal. lia.
Qed.

Lemma stake_app a b : stake (Z.to_nat (slen a)) (a +:+ b) = a.
Proof. unfold slen. rewrite Nat2Z.id. induction a as [|c a IH]; [by destruct b|]. cbn. by apply (f_equal (String c)). Qed.

Lemma cut_at pre post :
  line_chars (pre ++ post) ->
  stake (Z.to_nat (floor_char_boundary (cat (pre ++ post)) (slen (cat pre)))) (cat (pre ++ post)) = cat pre.
Proof.
  intros H%line_chars_valid. destruct (boundary_split (cat (pre ++ post)) pre post (chars_cat _ H)) as (_ & _ & Hb).
  unfold floor_char_boundary. rewrite Z.min_l by (rewrite cat_app, slen_app; pose proof (slen_nonneg (cat post)); lia).
  assert (floor_loop (cat (pre ++ post)) (Z.to_nat (slen (cat pre))) = slen (cat pre)) as ->.
  { pose proof (slen_nonneg (cat pre)). destruct (Z.to_nat (slen (cat pre))) eqn:E; cbn [floor_loop]; rewrite <- E, Z2Nat.id, Hb by lia; lia. }
  by rewrite cat_app, stake_app.
Qed.

Lemma znth_split {A} (l : list A) i x : znth l i = Some x -> 0 <= i < len l /\ ztake (i + 1) l = ztake i l ++ [x].
Proof.
  unfold znth. destruct (Z.leb_spec 0 i); [|done]. intros Hx. pose proof (lookup_lt_Some _ _ _ Hx). unfold len, ztake. split; [lia|].
  replace (Z.to_nat (i + 1)) with (S (Z.to_nat i)) by lia. by apply take_S_r.
Qed.

(** The window a token asks for and the cut it carries. *)
Lemma window_line n e : 0 < e <= n ->
  exists w, text_page_window n limit (Some (encode_token (cursor "b" e))) = (w, None) /\ w = page_window n limit (Some (encode_token (cursor "b" e))) /\ end_ w = e.
Proof.
  intros He. eexists. split; [|split; [done|]].
  - unfold text_page_window. f_equal. cbn [mbind option_bind]. unfold cursor. rewrite decode_encode_token. cbn [mbind option_bind].
    by destruct (jget _ "b" ≫= as_u64).
  - unfold page_window. cbn [end_ mbind option_bind]. rewrite decode_backward; lia.
Qed.

Lemma window_cut n e k : 0 < e <= n -> 0 <= k ->
  exists w, text_page_window n limit (Some (line_token e k)) = (w, Some k) /\ w = page_window n limit (Some (line_token e k)) /\ end_ w = e.
Proof.
  intros He Hk. set (w := page_window n limit (Some (line_token e k))).
  assert (end_ w = e) as Hend.
  { subst w. unfold page_window, backward_page_boundary, line_token. cbn [end_ mbind option_bind]. rewrite decode_encode_token. cbn [mbind option_bind].
    change (jget (cursor_of [("b", Z.to_N e); ("c", Z.to_N k)]%string) "b") with (Some (JNumber (PosInt (Z.to_N e)))). cbn [mbind option_bind as_u64]. rewrite Z2N.id; lia. }
  exists w. split; [|done]. unfold text_page_window. fold w. f_equal. cbn [mbind option_bind]. unfold line_token at 1. rewrite decode_encode_token. cbn [mbind option_bind].
  change (jget (cursor_of [("b", Z.to_N e); ("c", Z.to_N k)]%string) "b") with (Some (JNumber (PosInt (Z.to_N e)))).
  change (jget (cursor_of [("b", Z.to_N e); ("c", Z.to_N k)]%string) "c") with (Some (JNumber (PosInt (Z.to_N k)))). cbn [mbind option_bind as_u64].
  rewrite !Z2N.id by lia. destruct (page_window_range n limit (Some (line_token e k)) ltac:(lia)) as (_ & _ & Hlt & _). fold w in Hlt.
  rewrite Hend in *. rewrite Z.eqb_refl, (proj2 (Z.ltb_lt _ _)) by lia. done.
Qed.

Lemma page_from token w cut cur :
  text_page_window (len lss) limit token = (w, cut) -> w = page_window (len lss) limit token -> end_ w = len cur -> Forall line_chars cur ->
  cut_last cut (zdrop (start w) (ztake (end_ w) (cat <$> lss))) = zdrop (start w) (cat <$> cur) ->
  exists page, paginate_text_lines text limit token = Some page /\ text_page cur page.
Proof.
  intros Hw -> Hend Hcur Hcut. unfold paginate_text_lines. rewrite Htext, len_fmap_cat, Hw.
  destruct (page_window_range (len lss) limit token (len_nonneg lss)) as (Hs & He & Hlt & Hnext).
  rewrite slice_prefix by (rewrite ?len_fmap_cat; lia). cbn [mbind option_bind]. eexists. split; [done|]. rewrite Hnext, Hcut, Hend in *.
  by apply bound_page_spec; [done|lia|intros; apply Hlt|lia].
Qed.

Lemma resume_page token cur : resumes token cur -> exists page, paginate_text_lines text limit token = Some page /\ text_page cur page.
Proof.
  intros [|e He|e pre post He Hpre].
  - apply (page_from None (page_window (len lss) limit None) None); [done..|]. change (end_ (page_window (len lss) limit None)) with (len lss).
    by rewrite ztake_all by (rewrite len_fmap_cat; lia).
  - destruct (window_line (len lss) e He) as (w & Hw & Hw' & Hend). apply (page_from _ w None); [done|done| |by apply Forall_take|].
    + rewrite Hend, len_ztake. lia.
    + unfold cut_last. f_equal. unfold ztake. rewrite fmap_take. by rewrite Hend.
  - destruct (znth_split _ _ _ Hpre) as [Hr Htake]. replace (e - 1 + 1) with e in Htake by lia.
    assert (Forall line_chars (ztake e lss)) as Hl by (by apply Forall_take). rewrite Htake in Hl. apply Forall_app in Hl as [Hinit [Hg _]%Forall_cons].
    pose proof (slen_nonneg (cat pre)).
    destruct (window_cut (len lss) e (slen (cat pre)) ltac:(lia) ltac:(lia)) as (w & Hw & Hw' & Hend).
    destruct (page_window_range (len lss) limit (Some (line_token e (slen (cat pre)))) (len_nonneg lss)) as (Hs & _ & Hlt & _). rewrite <- Hw', Hend in *.
    assert (len (ztake (e - 1) lss) = e - 1) as Hle by (rewrite len_ztake; lia).
    apply (page_from _ w (Some (slen (cat pre)))); [done|done| | |].
    + rewrite Hend, len_app, Hle, len_cons, len_nil. lia.
    + apply Forall_app. split; [done|]. constructor; [|constructor]. unfold line_chars in *. by apply Forall_app in Hg as [? _].
    + rewrite Hend. assert (ztake e (cat <$> lss) = (cat <$> ztake (e - 1) lss) ++ [cat (pre ++ post)]) as ->.
      { unfold ztake in *. rewrite <- fmap_take, Htake, fmap_app. done. }
      rewrite fmap_app, !zdrop_app, len_fmap_cat, Hle, !(zdrop_le0 (start w - (e - 1))) by lia.
      unfold cut_last. rewrite last_snoc, removelast_last, cut_at by done. done.
Qed.

(** The lines before the ones a page took are untouched. *)
Lemma resumes_left token cur left keep : resumes token cur -> cur = left ++ keep -> keep <> [] -> left = ztake (len left) lss /\ len left < len lss.
Proof.
  assert (forall (l r : list (list string)) x k, l ++ k = r ++ [x] -> k <> [] -> exists k', r = l ++ k') as Hinit.
  { intros l r x k Heq Hne. destruct (exists_last Hne) as (k' & y & ->). rewrite app_assoc in Heq. apply app_inj_tail in Heq as [<- _]. eauto. }
  assert (forall l k, lss = l ++ k -> l = ztake (len l) lss) as Hpre.
  { intros l k ->. unfold ztake, len. rewrite Nat2Z.id. by rewrite take_app_length. }
  intros R Hc Hne. destruct R as [|e He|e pre post He Hp].
  - split; [by eapply Hpre|]. rewrite Hc at 1. rewrite len_app. destruct keep; [done|]. rewrite len_cons. pose proof (len_nonneg keep). lia.
  - pose proof (f_equal len Hc) as Hlen. rewrite len_ztake, len_app in Hlen. assert (0 < len keep) by (destruct keep; [done|]; rewrite len_cons; pose proof (len_nonneg keep); lia).
    split; [|lia]. eapply (Hpre left (keep ++ zdrop e lss)). by rewrite app_assoc, <- Hc, ztake_zdrop.
  - destruct (znth_split _ _ _ Hp) as [Hr _]. pose proof (eq_sym Hc) as Hc'. destruct (Hinit _ _ _ _ Hc' Hne) as [k' Hk'].
    pose proof (f_equal len Hk') as Hlen. rewrite len_ztake, len_app in Hlen. pose proof (len_nonneg k').
    split; [|lia]. eapply (Hpre left (k' ++ zdrop (e - 1) lss)). by rewrite app_assoc, <- Hk', ztake_zdrop.
Qed.

(** A line a page cut is a line of the text from its start on. *)
Lemma resumes_last token left x : resumes token (left ++ [x]) -> exists rest, znth lss (len left) = Some (x ++ rest).
Proof.
  intros R. remember (left ++ [x]) as cur eqn:Hc. pose proof (len_nonneg left).
  assert (forall l : list (list string), znth (left ++ [x] ++ l) (len left) = Some x) as Hx.
  { intros l. rewrite znth_app_r by lia. by rewrite Z.sub_diag. }
  destruct R as [|e He|e pre post He Hp].
  - exists []. rewrite Hc, app_nil_r. apply (Hx []).
  - exists []. rewrite app_nil_r, <- (ztake_zdrop e lss), Hc, <- app_assoc. apply Hx.
  - apply app_inj_tail in Hc as [Hl ->]. exists post. destruct (znth_split _ _ _ Hp) as [Hr _].
    assert (len left = e - 1) as -> by (rewrite <- Hl, len_ztake; lia). done.
Qed.

Lemma escaped_lines_app l k : escaped_lines (l ++ k) = escaped_lines l + escaped_lines k.
Proof. apply sum_with_app. Qed.

Lemma escaped_lines_one gs : escaped_lines [gs] = escaped_str_len (cat gs).
Proof. unfold escaped_lines. cbn [sum_with]. lia. Qed.

(** Fewer lines, or one line's tail less, need fewer pages. *)
Lemma pages_drop_lines left keep fuel :
  keep <> [] -> len (left ++ keep) + escaped_lines (left ++ keep) / (OUTPUT_TAIL_MAX_JSON_BYTES - 8) < Z.of_nat (S fuel) ->
  len left + escaped_lines left / (OUTPUT_TAIL_MAX_JSON_BYTES - 8) < Z.of_nat fuel.
Proof.
  intros Hk. rewrite len_app, escaped_lines_app. assert (0 < len keep) by (destruct keep; [done|]; rewrite len_cons; pose proof (len_nonneg keep); lia).
  pose proof (escaped_lines_nonneg keep). pose proof (escaped_lines_nonneg left). unfold OUTPUT_TAIL_MAX_JSON_BYTES.
  pose proof (Z.div_le_mono (escaped_lines left) (escaped_lines left + escaped_lines keep) (480000 - 8) ltac:(lia) ltac:(lia)). lia.
Qed.

Lemma pages_drop_tail left pre tail fuel :
  OUTPUT_TAIL_MAX_JSON_BYTES - 8 <= escaped_str_len (cat tail) ->
  len (left ++ [pre ++ tail]) + escaped_lines (left ++ [pre ++ tail]) / (OUTPUT_TAIL_MAX_JSON_BYTES - 8) < Z.of_nat (S fuel) ->
  len (left ++ [pre]) + escaped_lines (left ++ [pre]) / (OUTPUT_TAIL_MAX_JSON_BYTES - 8) < Z.of_nat fuel.
Proof.
  intros Hbig. rewrite !len_app, !escaped_lines_app, !escaped_lines_one, !len_cons, cat_app, escaped_str_len_app. unfold OUTPUT_TAIL_MAX_JSON_BYTES in *.
  pose proof (div_share (480000 - 8) (escaped_str_len (cat tail)) (escaped_lines left + escaped_str_len (cat pre)) ltac:(lia) Hbig) as H.
  replace (escaped_lines left + (escaped_str_len (cat pre) + escaped_str_len (cat tail))) with
    (escaped_str_len (cat tail) + (escaped_lines left + escaped_str_len (cat pre))) by lia. lia.
Qed.

Lemma read_rest_lines fuel : forall token cur later,
  resumes token cur -> cur <> [] \/ later = None ->
  len cur + escaped_lines cur / (OUTPUT_TAIL_MAX_JSON_BYTES - 8) < Z.of_nat fuel ->
  read_text fuel text limit token later = Some (with_later (cat <$> cur) later).
Proof.
  induction fuel as [|fuel IH]; intros token cur later R Hne Hfuel.
  { pose proof (escaped_lines_nonneg cur). pose proof (len_nonneg cur). unfold OUTPUT_TAIL_MAX_JSON_BYTES in Hfuel.
    pose proof (Z.div_pos (escaped_lines cur) (480000 - 8) ltac:(lia) ltac:(lia)). lia. }
  cbn [read_text]. destruct (resume_page token cur R) as (page & -> & P). cbn [mbind option_bind].
  destruct P as [left keep Hcur Hkeep Hitems Hcont Htok|left pre tail Hcur Hpre Hitems Hcont Htok Hbig]; rewrite Hitems, Hcont, Htok; cbn [mbind option_bind]; cbv zeta.
  - destruct (decide (keep = [])) as [Hk|Hk].
    + specialize (Hkeep Hk). destruct Hne as [Hne| ->]; [done|]. rewrite Hk, Hkeep in *. symmetry in Hcur. apply app_eq_nil in Hcur as [-> _]. done.
    + destruct (resumes_left token cur left keep R Hcur Hk) as [Hleft Hlt]. rewrite Hcur in Hfuel |- *. pose proof (pages_drop_lines _ _ _ Hk Hfuel) as Hfuel'.
      destruct (exists_last Hk) as (init & gs & Hkeep'). rewrite Hkeep', !fmap_app. cbn [fmap list_fmap]. rewrite reverse_join, (app_assoc (cat <$> left)), !with_later_snoc.
      unfold remint_backward_token. pose proof (len_nonneg left). destruct (Z.ltb_spec 0 (len left)).
      * rewrite (IH _ left None); [cbn [mbind option_bind with_later]; by rewrite <- app_assoc| |by right|done]. rewrite Hleft at 2. apply resume_line. lia.
      * assert (left = []) as -> by (apply len_zero_nil; lia). done.
  - destruct (resumes_left token cur left [pre ++ tail] R Hcur ltac:(done)) as [Hleft _]. rewrite Hcur in R, Hfuel |- *.
    destruct (resumes_last _ _ _ R) as [rest Hrest]. rewrite <- app_assoc in Hrest.
    assert (head (join_later [cat tail] later) = Some (match later with Some p => cat tail +:+ p | None => cat tail end)) as -> by (by destruct later).
    cbn [mbind option_bind]. rewrite (IH _ (left ++ [pre])).
    + rewrite !fmap_app. cbn [fmap list_fmap]. rewrite !with_later_snoc, cat_app. do 3 f_equal. destruct later; [|done]. by rewrite sapp_assoc.
    + rewrite Hleft at 2. replace (len left) with (len left + 1 - 1) in Hrest |- * at 2 by lia. apply (resume_cut _ _ (tail ++ rest)); [pose proof (len_nonneg left); lia|done].
    + left. by destruct left.
    + by eapply pages_drop_tail.
Qed.

End text_pages.

Lemma trimmed_lines text : valid_utf8 text -> exists lss, trim_tail (split_nl text) = cat <$> lss /\ Forall line_chars lss.
Proof.
  intros Hv. destruct (split_nl_lines (chars text) Hv) as (lss & Hs & Hl). rewrite cat_chars in Hs.
  destruct (trim_tail_prefix (split_nl text)) as [ends He]. rewrite Hs in He at 1.
  exists (take (length (trim_tail (split_nl text))) lss). split; [|by apply Forall_take].
  by rewrite fmap_take, He, take_app_length.
Qed.

(** * Properties *)

(** [C27] Following [nextToken] of the line pages of a text, and prepending the pieces of a
    line that continues, rebuilds every line of the text without its blank tail, byte for
    byte and in order, for every limit; the walk ends within one page per line, one per
    [OUTPUT_TAIL_MAX_JSON_BYTES - 8] escaped bytes, and one more. *)
Theorem text_pages_rebuild `{TC : TokenCodec, TL : !TokenCodecLaws} (text : string) (limit : option Z) :
  valid_utf8 text ->
  let lines := trim_tail (split_nl text) in
  let pages := Z.to_nat (1 + len lines + sum_with escaped_str_len lines / (OUTPUT_TAIL_MAX_JSON_BYTES - 8)) in
  read_text pages text limit None None = Some lines.
Proof.
  intros Hv lines pages. destruct (trimmed_lines text Hv) as (lss & Htext & Hl). fold lines in Htext.
  rewrite (read_rest_lines text lss limit Htext Hl pages None lss None); [by rewrite Htext|constructor|by right|].
  subst pages. assert (sum_with escaped_str_len lines = escaped_lines lss) as ->.
  { rewrite Htext. unfold escaped_lines. clear. induction lss as [|gs l IH]; [done|]. rewrite fmap_cons. cbn. by rewrite IH. }
  assert (len lines = len lss) as -> by (rewrite Htext; apply len_fmap_cat).
  pose proof (escaped_lines_nonneg lss). pose proof (len_nonneg lss). unfold OUTPUT_TAIL_MAX_JSON_BYTES.
  pose proof (Z.div_pos (escaped_lines lss) (480000 - 8) ltac:(lia) ltac:(lia)). lia.
Qed.

Lemma text_pages_rebuild_witness :
  let text := ("one" +:+ String nl ("two" +:+ String nl (String nl " ")))%string in
  read_text (TC := BitCursor.bit_cursor) 3 text (Some 1) None None = Some ["one"; "two"]%string.
Proof.
  apply (text_pages_rebuild (TC := BitCursor.bit_cursor) (TL := BitCursor.bit_cursor_laws)
    ("one" +:+ String nl ("two" +:+ String nl (String nl " ")))%string (Some 1)).
  repeat constructor; reflexivity.
Defined.


